(* ===== verification/_CoqProject ===== *)
-Q . S2P
Prelude.v
Float64.v
Codec.v
Engine.v
Ordered.v
Adapter.v
TxStore.v
Bbolt.v
Lmdb.v
Libmdbx.v
Buntdb.v
LsmStore.v
Goleveldb.v
Pebble.v
Rocks.v
Point.v
Pogreb.v
Badger.v
Sqlite.v
OpenAddr.v
Inmem.v
Swiss.v
Faster.v
F2.v
F2Readers.v
Otter.v
Memory.v
RustKv.v
RustKvPipe.v
Locktax.v
Hdr.v
Workload.v
Kv.v
Adapters.v
Harness.v
HarnessProofs.v
Driven.v
Text.v
Cpuset.v
Respnet.v
Cli.v
Report.v
Env.v
Commands.v
Builtin.v
Engines.v
KvDriven.v
RustDriven.v
Builds.v
RunProc.v
LocktaxRows.v
