(* ===== verification/Prelude.v ===== *)
(** * kvbench: a verification development

    kvbench runs key/value engines through one harness and publishes
    throughput, latency and space figures.  This library models the parts of
    the repository that decide what those figures mean, from the source, and
    proves what makes them right (or shows where they are not).

    ** The program and its parts

    - [engine/] names the engines: a registry of factories, the metadata an
      engine declares (family, mode, class, capabilities, caveats), and the
      interfaces an adapter implements (engine, batch, iterator).
    - [adapters/] holds the adapters.  [adapters/inmem] and [adapters/memory]
      are stores written in this repository; the others wrap third-party
      stores, servers that speak the Redis protocol, or Rust stores in a helper
      process behind a pipe.
    - [workload/] generates each client's operations from a seed: a splitmix64
      source, a zipf distribution, an operation mix, fixed-width keys.
    - [hdr/] is the latency histogram, with its percentiles and merge.
    - [harness/] runs one cell, an engine under a workload: open, load the
      keyspace in batches, run the clients, derive the metrics, and return one
      result, errors included.
    - [cpuset/] splits the machine's cores between a server and its client.
    - [cmd/kvbench] expands the command line into a grid of cells, runs each
      several times and aggregates the repetitions, writes result files, and
      renders reports and comparisons from them.
    - [cmd/locktax] times the same hash probe under different guards.

    ** The files: foundations and interfaces

    - [Prelude]: machine integers with their wrap-around written out, bytes,
      the result type of Go code ([outcome]: a value, a panic, or a loop that
      ran out of budget), checked indexing and slicing, shared tactics, the
      hint and rewrite databases [go], list lemmas.
    - [Float64]: Go's [float64] as IEEE binary64 through the standard library's
      executable [SpecFloat]; when the load-factor tests of the hash tables are
      exact; that [<] is a strict order, NaNs included.
    - [Codec]: byte order comparison, little- and big-endian words, uvarints
      ([encoding/binary], [bytes]).
    - [Engine]: [engine/engine.go] and [engine/registry.go], and the contract
      between an engine and its clients: [KVOps] (the operations), [KVStore]
      (their laws, as a representation of a finite map within a byte budget)
      and sessions of requests against an engine and against the map.
    - [Ordered]: the entries of a map in key order, from a start key on; the
      specification of every ordered scan.
    - [Adapter]: what a client of an adapter of a third-party store may rely
      on, as a class: a call that fails leaves the map as it was, a call that
      succeeds does what it says, and over a store that does not fail all calls
      succeed; sessions of requests over it.  [Point] is the weaker contract of
      stores whose batches are not transactions.
    - [TxStore], [LsmStore]: the stores behind several adapters, as classes of
      operations with the documented laws the adapters use.

    ** The files: engines

    - [Bbolt], [Lmdb], [Libmdbx], [Buntdb], [Goleveldb], [Pebble], [Rocks],
      [Pogreb], [Badger], [Sqlite], [Kv]: the adapter of that name under
      [adapters/] ([Rocks] is [adapters/rocksfamily], with the registrations of
      RocksDB and Speedb): open with its durability options, get, put, delete,
      batch, scan with its iterator, flush, statistics, close.  The store is a
      parameter; a map with a failure switch shows that its laws can hold.
    - [Adapters]: the adapters that share an interface side by side, and how
      the durability of a cell reaches each store.
    - [Respnet]: [adapters/respnet/respnet.go] and the specs of the seven
      servers ([*_net.go]): launch, wait, calls, teardown.
    - [RustKv], [RustKvPipe]: [adapters/rustkv/rustkv_subprocess.go] with the
      helper [rust/src/main.rs]: frames and payloads of both sides, and the
      concurrent calls over one pipe as a machine with a label per atomic
      section.
    - [OpenAddr]: the probe loop [for i := h & mask; ; i = (i+1) & mask] the
      tables of [adapters/inmem] share, with the invariant of linear probing
      with tombstones.
    - [Inmem], [Swiss], [Faster], [F2], [Otter]: [adapters/inmem/inmem.go]: the
      hash, the record format, batches and the do-nothing engine; the
      open-addressing table; the append log with its index; the sharded log
      with packed index words and compaction; the sharded map.
    - [F2Readers]: a get of [f2], which takes no lock, interleaved with the
      writers of its shard.
    - [Memory]: [adapters/memory/memory.go], with its sorted scan.
    - [Locktax], [LocktaxRows]: [cmd/locktax/main.go]: the tables and the timed
      loops; the guarded rows as a machine of goroutines over their locks, and
      what the program prints.

    ** The files: measurement and commands

    - [Hdr]: [hdr/hdr.go].
    - [Workload]: [workload/workload.go].
    - [Harness]: [harness/driver.go] and [harness/result.go].  [RunCell] is the
      whole function, early returns, deferred recovery and all; the measured
      phase interleaves client steps in the order a schedule gives; the driver
      is written against the class [Engine].  [HarnessProofs] holds its
      theorems, proved against two classes: [Loads], what the load phase needs
      of an engine, and [Sustains], that every call of the measured phase
      returns.  [StoreEngine], which every in-memory engine instantiates, gives
      both.
    - [Driven]: an adapter of a third-party store as a value of [Engine], with
      the errors the driver drops dropped; the contracts of [Adapter] and
      [Point] give [Loads], and every adapter gives [Sustains].  [Engines] has
      the methods of each adapter in that form; [KvDriven] adds the bounded
      index of kv, [RustDriven] the engines behind the pipe.
    - [Text]: the text functions the commands use ([strings], [strconv]).
    - [Cpuset]: [cpuset/cpuset.go], [cpuset/cpuset_linux.go] and the stubs of
      [cpuset/cpuset_other.go].
    - [Cli]: the run command of [cmd/kvbench/main.go].
    - [Report]: the board of [cmd/kvbench/report.go] and the comparison of
      [cmd/kvbench/compare.go].
    - [Env]: [env/env.go].
    - [Commands]: main and the list, report and compare commands, with what they
      print and how they exit, and the result files between a run and a report.
    - [RunProc]: the run command again, as a process: what it prints on both
      streams, the files it writes or fails to write, its exits and its exec.
    - [Builtin]: the reference engines as values of the [engine.Engine]
      interface in the registry, and a whole run over them.
    - [Builds]: the blank imports of [cmd/kvbench] ([adapters_cgo.go] and its
      siblings) under each choice of build tags, and the registry that results.

    Records, constructors and functions keep the source's names; a name that
    Rocq or another file has taken gets a suffix ([Record_], [Split_]) or the
    file's prefix.  State is passed explicitly; Go's map iteration order, the
    clock, the scheduler, [math.Pow], conversions of floats that do not fit an
    integer, the stores and servers behind the adapters, and the operating
    system are arguments.

    ** What is proved

    - Stores of the repository: every session of gets, puts, deletes and
      batches against [swiss], [faster], [f2], [otter] and the memory engine
      terminates without a panic and answers as a finite map does; a lock-free
      get of [f2] is linearizable and wait-free under any interleaving with its
      shard's writers; records are read back where they were written; a scan is
      sorted and complete.  A batch of [otter] is not atomic although the
      engine declares that it is ([otter_batch_torn]).
    - Rust engines: through frames, decoding and responses a client gets the
      answers of a finite map; concurrent calls over the pipe are linearizable
      and all return; when the pipe breaks every waiting and later call
      returns.
    - Adapters: over a store that keeps its documented laws exactly the
      acknowledged writes are in the store, batches whole or not at all (for
      pogreb, badger and the servers in part, and repeatable), answers are the
      map's, scans are the ordered view; a buntdb scan's two goroutines always
      end and lose no row; FULL asks every embedded store for an fsync and OFF
      none.  Opening a server ends within its deadline.
    - Harness: a supported cell runs to the end under every fair schedule; the
      load fills the keyspace exactly; the counts do not depend on the
      interleaving; a cell the engine cannot serve is marked and not run; the
      bytes on disk are the sum of the files.  The same holds of a cell over
      every third-party adapter whose store opens and takes the load
      ([adapter_cell]), over kv, whose index has room for the load and no more
      ([kv_cell]), and over the Rust engines ([rust_cell_runs]).  A
      recovered panic is lost ([recovered_panic_lost]), the server core list
      is never passed on ([server_cpu_list_dropped]), and errors of the measured
      operations never reach the result ([measured_errors_lost]).
    - Histogram: counts, extremes, percentiles, merge and
      coordinated-omission correction against the list of recorded samples;
      the bucket index is monotone and within 1/64.  The value reported for a
      bucket is two to three times its samples ([reported_latency_inflated]).
    - Workload: the random source has full period, keys order as their
      indices, streams are well formed whatever [math.Pow] computes, the mix is
      exact, the catalogue is consistent.  Sequential clients overlap
      ([fillseq_clients_overlap]) and inserts are never favoured
      ([insert_head_fixed]).
    - Lock-cost benchmark: every table is built and every timed probe hits;
      under every schedule the guards exclude what they should, none is released
      that is not held, and a schedule that keeps running every goroutine ends
      the program ([guarded_rows_end]).
    - Registry, command line, reports: names do not depend on map order, every
      build registers the engines of its imports in any order of initialisation
      ([builds_register]), the run command does as a process what its pure form
      says ([run_process]), the core split covers the machine (but reads
      variables it did not set, [split_reads_stale_environment]), flags survive the command line, the grid
      is covered and no result is lost, caches fit their regime, repetitions
      aggregate, the board is a partition, a comparison is right in every row.
      The comparison does not know the kv engine by its name
      ([compare_ignores_kv]), and no report shows a cell that panicked
      ([panicked_cell_unreported]).
    - All together ([run_is_reported]): a run over the reference engines that
      store, from its arguments through the registry, the driver, the
      aggregation and the result files, succeeds in every cell and a report of
      its directory shows each result once.

    ** Bounds and budgets

    Loops that are not structural take a budget and return [Spin] when it runs
    out; the theorems show they do not.  A probe loop gets as many turns as the
    table has slots, and a table always keeps an empty slot.  The doubling loop
    of [f2]'s growth gets 64 turns, a 64-bit number 9 shifts by 7 to fall below
    128 and 7 divisions by 1024 to vanish, a decimal printout 20 digits, a
    uvarint 10 bytes.  The backfill gets [ns / interval + 1] turns.  The wait
    for a server gets 1002 turns: 20 seconds of pauses of 20 milliseconds or
    more.  A run of the pipe is bounded by eight steps for each call, a guarded
    row of the lock-cost benchmark by three rounds for each probe.  A
    session of the hash tables may write [kv_budget], 2^46, bytes (64 TiB,
    counting 24 for each write): below it no counter, offset (48 bits in [f2])
    or table size overflows, and the load-factor tests are exact in [float64].

    ** What is not modelled

    The stores, servers and client libraries behind the adapters, and the Rust
    crates behind the helper's [Kv] trait: parameters with laws.
    [encoding/json], [sort.Slice], [time.Duration.String] and the verbs [%q] and
    [%f] of [fmt] are parameters; the clock, the runtime's statistics and the
    answers of the file system are inputs, and removing the data directory at
    the end of a run is left out.  The flag parsing of [cmd/locktax], which is
    the package [flag]'s.  Iterator methods that return a field.  Locks are
    modelled by the atomicity they give: a step is a critical section.  [f2]'s
    lock-free read, the pipe, the scan of buntdb and the rows of the lock-cost
    benchmark are the exceptions and have their own step semantics. *)

From Stdlib Require Export ZArith Lia Bool.
From Stdlib Require Import Strings.Byte.
From stdpp Require Export base numbers list gmap strings.

#[global] Open Scope Z_scope.

(** ** Machine integers

    Go's [uint64], [uint32] and [int] (64 bits on every platform the
    repository builds for) are integers of type [Z] with the wrap-around
    written at each operation that can overflow. *)

Definition wrap64 (z : Z) : Z := z mod 2 ^ 64.
Definition wrap32 (z : Z) : Z := z mod 2 ^ 32.

(** Two's complement reading of 64 bits, Go's conversion to [int]/[int64]. *)
Definition swrap64 (z : Z) : Z := (z + 2 ^ 63) mod 2 ^ 64 - 2 ^ 63.

Definition is_u64 (z : Z) : Prop := 0 <= z < 2 ^ 64.
Definition is_u32 (z : Z) : Prop := 0 <= z < 2 ^ 32.
Definition is_i64 (z : Z) : Prop := - 2 ^ 63 <= z < 2 ^ 63.

Declare Scope go_scope.
Delimit Scope go_scope with go.
Notation "x +64 y" := (wrap64 (x + y)) (at level 50, left associativity) : go_scope.
Notation "x -64 y" := (wrap64 (x - y)) (at level 50, left associativity) : go_scope.
Notation "x *64 y" := (wrap64 (x * y)) (at level 40, left associativity) : go_scope.
Notation "x <<64 y" := (wrap64 (Z.shiftl x y)) (at level 40, left associativity) : go_scope.
Notation "x >>64 y" := (Z.shiftr x y) (at level 40, left associativity) : go_scope.
Notation "x ^64 y" := (Z.lxor x y) (at level 50, left associativity) : go_scope.
Notation "x &64 y" := (Z.land x y) (at level 40, left associativity) : go_scope.
Notation "x |64 y" := (Z.lor x y) (at level 50, left associativity) : go_scope.

Create HintDb go discriminated.
Create Rewrite HintDb go.

Lemma wrap64_range z : is_u64 (wrap64 z).
Proof. unfold is_u64, wrap64. apply Z.mod_pos_bound. lia. Qed.

Lemma wrap64_id z : is_u64 z -> wrap64 z = z.
Proof. unfold is_u64, wrap64. intros. apply Z.mod_small. lia. Qed.

Lemma wrap32_range z : is_u32 (wrap32 z).
Proof. unfold is_u32, wrap32. apply Z.mod_pos_bound. lia. Qed.

Lemma wrap32_id z : is_u32 z -> wrap32 z = z.
Proof. unfold is_u32, wrap32. intros. apply Z.mod_small. lia. Qed.

Lemma swrap64_id z : is_i64 z -> swrap64 z = z.
Proof. unfold is_i64, swrap64. intros. rewrite Z.mod_small by lia. lia. Qed.

Lemma swrap64_range z : is_i64 (swrap64 z).
Proof. unfold is_i64, swrap64. pose proof (Z.mod_pos_bound (z + 2 ^ 63) (2 ^ 64)). lia. Qed.

#[export] Hint Resolve wrap64_range wrap32_range swrap64_range : go.

Lemma pow2_pos k : 0 <= k -> 0 < 2 ^ k.
Proof. intros. apply Z.pow_pos_nonneg; lia. Qed.

#[export] Hint Resolve pow2_pos : go.

Lemma land_mask i k : 0 <= k -> Z.land i (2 ^ k - 1) = i mod 2 ^ k.
Proof. intros. rewrite Z.sub_1_r, <- Z.ones_equiv. by apply Z.land_ones. Qed.

(** A value below [2^k] has no bit at or above [k]. *)
Lemma testbit_high a k i : 0 <= a < 2 ^ k -> k <= i -> Z.testbit a i = false.
Proof.
  intros Ha Hi. destruct (Z.lt_ge_cases k 0) as [|Hk].
  { rewrite Z.pow_neg_r in Ha by lia. lia. }
  rewrite <- (Z.mod_small a (2 ^ k)) by lia. apply Z.mod_pow2_bits_high. lia.
Qed.

Lemma lxor_range a b k : 0 <= k -> 0 <= a < 2 ^ k -> 0 <= b < 2 ^ k -> 0 <= Z.lxor a b < 2 ^ k.
Proof.
  intros Hk Ha Hb. assert (0 <= Z.lxor a b) by (apply Z.lxor_nonneg; lia).
  split; [done|]. destruct (Z.eq_dec (Z.lxor a b) 0) as [->|Hn]; [lia|].
  apply Z.log2_lt_pow2; [lia|].
  destruct (Z.lt_ge_cases (Z.log2 (Z.lxor a b)) k) as [|Hge]; [done|].
  pose proof (Z.bit_log2 (Z.lxor a b) ltac:(lia)) as Hb2.
  rewrite Z.lxor_spec, (testbit_high a k), (testbit_high b k) in Hb2 by lia. done.
Qed.

Lemma lor_range a b k : 0 <= k -> 0 <= a < 2 ^ k -> 0 <= b < 2 ^ k -> 0 <= Z.lor a b < 2 ^ k.
Proof.
  intros Hk Ha Hb. assert (0 <= Z.lor a b) by (apply Z.lor_nonneg; lia).
  split; [done|]. destruct (Z.eq_dec (Z.lor a b) 0) as [->|Hn]; [lia|].
  apply Z.log2_lt_pow2; [lia|].
  destruct (Z.lt_ge_cases (Z.log2 (Z.lor a b)) k) as [|Hge]; [done|].
  pose proof (Z.bit_log2 (Z.lor a b) ltac:(lia)) as Hb2.
  rewrite Z.lor_spec, (testbit_high a k), (testbit_high b k) in Hb2 by lia. done.
Qed.

(** Disjoint bit fields: [or] is addition. *)
Lemma lor_shiftl_add a b k : 0 <= k -> 0 <= a < 2 ^ k -> Z.lor a (Z.shiftl b k) = a + b * 2 ^ k.
Proof.
  intros Hk Ha. rewrite <- Z.shiftl_mul_pow2 by done.
  assert (Z.land a (Z.shiftl b k) = 0) as Hd.
  { apply Z.bits_inj_iff'; intros i Hi. rewrite Z.land_spec, Z.bits_0.
    destruct (Z.lt_ge_cases i k).
    - rewrite Z.shiftl_spec_low by done. apply andb_false_r.
    - by rewrite (testbit_high a k) by done. }
  by rewrite <- Z.lxor_lor, Z.add_nocarry_lxor.
Qed.

(** ** Bytes

    A Go [byte] is the 256-constructor type [Byte.byte]; a [[]byte] (and the
    [string] made of one) is a list of them. *)

Abbreviation bytes := (list byte).

Definition b2z (b : byte) : Z := Z.of_N (Byte.to_N b).

(** Go's conversion [byte(z)]: the low eight bits. *)
Definition z2b (z : Z) : byte := default x00 (Byte.of_N (Z.to_N (z mod 256))).

Lemma b2z_range b : 0 <= b2z b < 256.
Proof. unfold b2z. pose proof (Byte.to_N_bounded b). lia. Qed.

Lemma b2z_z2b z : b2z (z2b z) = z mod 256.
Proof.
  unfold b2z, z2b. pose proof (Z.mod_pos_bound z 256 ltac:(lia)) as Hz.
  destruct (Byte.of_N (Z.to_N (z mod 256))) as [b|] eqn:E; simpl.
  - apply Byte.to_of_N in E. rewrite E. lia.
  - apply Byte.of_N_None_iff in E. lia.
Qed.

Lemma z2b_b2z b : z2b (b2z b) = b.
Proof.
  unfold z2b, b2z. pose proof (Byte.to_N_bounded b).
  rewrite Z.mod_small, N2Z.id, Byte.of_to_N by lia. done.
Qed.

#[global] Instance b2z_inj : Inj (=) (=) b2z.
Proof. intros x y H. by rewrite <- (z2b_b2z x), H, z2b_b2z. Qed.

#[global] Instance byte_eq_dec : EqDecision byte := Byte.byte_eq_dec.
#[global] Program Instance byte_countable : Countable byte :=
  inj_countable' b2z z2b z2b_b2z.

#[export] Hint Resolve b2z_range : go.
#[export] Hint Rewrite b2z_z2b z2b_b2z : go.

(** Go's [len]. *)
Definition len {A} (l : list A) : Z := Z.of_nat (length l).

Lemma len_nonneg {A} (l : list A) : 0 <= len l.
Proof. unfold len. lia. Qed.
Lemma len_app {A} (l k : list A) : len (l ++ k) = len l + len k.
Proof. unfold len. rewrite length_app. lia. Qed.
Lemma len_cons {A} (x : A) l : len (x :: l) = 1 + len l.
Proof. unfold len. simpl. lia. Qed.
Lemma len_nil {A} : len (@nil A) = 0.
Proof. done. Qed.
Lemma len_insert {A} (l : list A) i x : len (<[i:=x]> l) = len l.
Proof. unfold len. by rewrite length_insert. Qed.

#[export] Hint Resolve len_nonneg : go.
#[export] Hint Rewrite @len_app @len_cons @len_nil @len_insert : go.

(** ** Outcomes of a Go computation

    [Ok a] is a normal return, [Panic] a run-time panic (index or slice
    bounds out of range, division by zero, write to a nil map), and [Spin] a
    loop that used up its iteration budget.  A total-correctness theorem
    about code with an unbounded loop has the form [f x = Ok y]. *)

Inductive outcome (A : Type) : Type :=
| Ok (a : A)
| Panic
| Spin.
Arguments Ok {A} a.
Arguments Panic {A}.
Arguments Spin {A}.

Definition obind {A B} (m : outcome A) (f : A -> outcome B) : outcome B :=
  match m with Ok a => f a | Panic => Panic | Spin => Spin end.

Notation "'let*' x := m 'in' k" := (obind m (fun x => k))
  (at level 10, x pattern, m at level 100, k at level 200) : go_scope.

Lemma obind_ok {A B} (m : outcome A) (f : A -> outcome B) b :
  obind m f = Ok b -> exists a, m = Ok a /\ f a = Ok b.
Proof. destruct m; simpl; naive_solver. Qed.

(** [l[i]] and [l[i] = x] with Go's bounds check. *)
Definition index {A} (l : list A) (i : Z) : outcome A :=
  if bool_decide (0 <= i) then from_option Ok Panic (l !! Z.to_nat i) else Panic.

Definition update {A} (l : list A) (i : Z) (x : A) : outcome (list A) :=
  if bool_decide (0 <= i < len l) then Ok (<[Z.to_nat i := x]> l) else Panic.

(** [l[i:]] and [l[:i]].  Go checks the upper bound of [l[:i]] against the
    capacity of [l]; the model checks it against [len l], so it panics wherever
    Go would read past what was written, and a theorem that rules out [Panic]
    rules both out. *)
Definition slice_from {A} (l : list A) (i : Z) : outcome (list A) :=
  if bool_decide (0 <= i <= len l) then Ok (drop (Z.to_nat i) l) else Panic.

Definition slice_to {A} (l : list A) (i : Z) : outcome (list A) :=
  if bool_decide (0 <= i <= len l) then Ok (take (Z.to_nat i) l) else Panic.

(** [l[a:b]]. *)
Definition slice {A} (l : list A) (a b : Z) : outcome (list A) :=
  if bool_decide (0 <= a <= b /\ b <= len l) then Ok (take (Z.to_nat (b - a)) (drop (Z.to_nat a) l))
  else Panic.

Lemma slice_mid {A} (p x q : list A) a b :
  a = len p -> b = len p + len x -> slice (p ++ x ++ q) a b = Ok x.
Proof.
  intros -> ->. unfold slice. rewrite !len_app. rewrite bool_decide_eq_true_2.
  - unfold len. rewrite Nat2Z.id, drop_app_length.
    replace (Z.to_nat _) with (length x) by lia. by rewrite take_app_length.
  - pose proof (len_nonneg p). pose proof (len_nonneg x). pose proof (len_nonneg q). lia.
Qed.

Lemma index_ok {A} (l : list A) (i : nat) x : l !! i = Some x -> index l (Z.of_nat i) = Ok x.
Proof.
  intros H. unfold index. rewrite bool_decide_eq_true_2 by lia.
  by rewrite Nat2Z.id, H.
Qed.

Lemma index_lookup {A} (l : list A) i x : index l i = Ok x -> l !! Z.to_nat i = Some x.
Proof. unfold index. case_bool_decide; [|done]. destruct (l !! Z.to_nat i); simpl; congruence. Qed.

Lemma index_in {A} (l : list A) i : 0 <= i < len l -> exists x, index l i = Ok x.
Proof.
  intros Hi. destruct (lookup_lt_is_Some_2 l (Z.to_nat i)) as [x Hx]; [unfold len in Hi; lia|].
  exists x. rewrite <- (Z2Nat.id i) by lia. by apply index_ok.
Qed.

Lemma update_ok {A} (l : list A) (i : nat) x :
  (i < length l)%nat -> update l (Z.of_nat i) x = Ok (<[i:=x]> l).
Proof.
  intros H. unfold update. rewrite bool_decide_eq_true_2 by (unfold len; lia).
  by rewrite Nat2Z.id.
Qed.

Lemma slice_from_ok {A} (l k : list A) i : i = len l -> slice_from (l ++ k) i = Ok k.
Proof.
  intros ->. unfold slice_from. rewrite bool_decide_eq_true_2.
  - unfold len. by rewrite Nat2Z.id, drop_app_length.
  - rewrite len_app. pose proof (len_nonneg k). pose proof (len_nonneg l). lia.
Qed.

Lemma slice_to_ok {A} (l k : list A) i : i = len l -> slice_to (l ++ k) i = Ok l.
Proof.
  intros ->. unfold slice_to. rewrite bool_decide_eq_true_2.
  - unfold len. by rewrite Nat2Z.id, take_app_length.
  - rewrite len_app. pose proof (len_nonneg k). pose proof (len_nonneg l). lia.
Qed.

(** A source comparison as the [decide] of the theory, whatever the instance. *)
Lemma if_bool_decide {A} (P : Prop) `{D1 : Decision P} (D2 : Decision P) (x y : A) :
  (if @bool_decide P D1 then x else y) = (if @decide P D2 then x else y).
Proof. case_bool_decide; by case_decide. Qed.

(** ** Lists *)

Lemma filter_all {A} (P : A -> Prop) `{!forall x, Decision (P x)} (l : list A) :
  Forall P l -> filter P l = l.
Proof. induction 1 as [|x l Hx _ IH]; [done|]. by rewrite filter_cons_True, IH. Qed.

Lemma filter_none {A} (P : A -> Prop) `{!forall x, Decision (P x)} (l : list A) :
  Forall (fun x => ~ P x) l -> filter P l = [].
Proof. induction 1 as [|x l Hx _ IH]; [done|]. by rewrite filter_cons_False, IH. Qed.

(** Two predicates that agree on the members select the same sublist. *)
Lemma list_filter_iff' {A} (P Q : A -> Prop) `{!forall x, Decision (P x), !forall x, Decision (Q x)}
    (l : list A) :
  (forall x, x ∈ l -> P x <-> Q x) -> filter P l = filter Q l.
Proof.
  induction l as [|x l IH]; intros Hiff; [done|]. rewrite !filter_cons, IH by (intros; apply Hiff; by right).
  destruct (decide (P x)) as [Hp|Hp]; rewrite (Hiff x) in Hp by left;
    [by rewrite decide_True|by rewrite decide_False].
Qed.

(** ** Tactics

    [zlia] is [lia] after exposing the range predicates and the non-negative
    lengths in the context. *)

Ltac pose_len_nonneg :=
  repeat match goal with
  | |- context [len ?l] =>
      lazymatch goal with H : 0 <= len l |- _ => fail | _ => pose proof (len_nonneg l) end
  | H0 : context [len ?l] |- _ =>
      lazymatch goal with H : 0 <= len l |- _ => fail | _ => pose proof (len_nonneg l) end
  end.

Ltac zlia := unfold is_u64, is_u32, is_i64 in *; pose_len_nonneg; lia.

(** Case analysis on the boolean comparisons of [Z] in sight. *)
Ltac case_zcmp :=
  match goal with
  | |- context [?a <? ?b] => destruct (Z.ltb_spec a b)
  | |- context [?a <=? ?b] => destruct (Z.leb_spec a b)
  | |- context [?a =? ?b] => destruct (Z.eqb_spec a b)
  | |- context [?a >? ?b] => rewrite (Z.gtb_ltb a b); destruct (Z.ltb_spec b a)
  | |- context [?a >=? ?b] => rewrite (Z.geb_leb a b); destruct (Z.leb_spec b a)
  end.
