(* ===== verification/Float64.v ===== *)
(** * Go's float64

    IEEE 754 binary64 through the executable specification of the standard
    library ([SpecFloat] at precision 53 and maximal exponent 1024), with
    round-to-nearest-even at every operation, as Go evaluates [float64]
    expressions.  The lemmas say when the conversions and products the
    repository relies on are exact. *)

From Stdlib Require Import SpecFloat.
From S2P Require Import Prelude.

Abbreviation float64 := spec_float.

(** [float64(z)] for an integer [z]. *)
Definition f64_of_Z (z : Z) : float64 := binary_normalize 53 1024 z 0 false.

Definition fadd : float64 -> float64 -> float64 := SFadd 53 1024.
Definition fsub : float64 -> float64 -> float64 := SFsub 53 1024.
Definition fmul : float64 -> float64 -> float64 := SFmul 53 1024.
Definition fdiv : float64 -> float64 -> float64 := SFdiv 53 1024.
Definition fneg : float64 -> float64 := SFopp.

(** Go's [x < y], [x > y], [x <= y], [x >= y] on float64: false when either is
    a NaN. *)
Definition flt (x y : float64) : bool := SFltb x y.
Definition fgt (x y : float64) : bool := SFltb y x.
Definition fle (x y : float64) : bool := SFleb x y.
Definition fge (x y : float64) : bool := SFleb y x.

(** The float64 constants of the sources. *)
Definition f64_zero : float64 := S754_zero false.
Definition f64_0_7 : float64 := S754_finite false 6305039478318694 (-53).
Definition f64_0_75 : float64 := S754_finite false 6755399441055744 (-53).

(** [math.Ceil] on the non-negative values it is applied to here. *)
Definition fceil (x : float64) : float64 :=
  match x with
  | S754_finite s m e =>
      if e <? 0
      then let v := if s then Zneg m else Zpos m in
           match - ((- v) / 2 ^ (- e)) with
           | Z0 => S754_zero s
           | z => f64_of_Z z
           end
      else x
  | _ => x
  end.

(** The conversion [uint64(x)]: truncation towards zero.  The language leaves
    the result implementation-dependent when it does not fit; [None] stands
    for that case. *)
Definition f64_trunc (x : float64) : option Z :=
  match x with
  | S754_zero _ => Some 0
  | S754_finite s m e =>
      let v := if e <? 0 then Zpos m / 2 ^ (- e) else Zpos m * 2 ^ e in
      Some (if s then - v else v)
  | _ => None
  end.

Definition u64_of_f64 (x : float64) : option Z :=
  match f64_trunc x with
  | Some z => if (0 <=? z) && (z <? 2 ^ 64) then Some z else None
  | None => None
  end.

(** ** Exactness *)

Lemma digits2_log2 p : Zpos (digits2_pos p) = Z.log2 (Zpos p) + 1.
Proof.
  induction p as [p IH|p IH|]; [| |done]; simpl digits2_pos; rewrite Pos2Z.inj_succ, IH.
  - rewrite (Pos2Z.inj_xI p), Z.log2_succ_double by lia. lia.
  - rewrite (Pos2Z.inj_xO p), Z.log2_double by lia. lia.
Qed.

Lemma digits2_iter p n : Zpos (digits2_pos (Pos.iter xO p n)) = Zpos (digits2_pos p) + Zpos n.
Proof.
  revert p. induction n as [|n IH] using Pos.peano_ind; intros p.
  - simpl. lia.
  - rewrite Pos.iter_succ. simpl. rewrite Pos2Z.inj_succ, IH. lia.
Qed.

Lemma iter_xO_mul p n : Zpos (Pos.iter xO p n) = Zpos p * 2 ^ Zpos n.
Proof.
  revert p. induction n as [|n IH] using Pos.peano_ind; intros p.
  - rewrite Pos2Z.inj_xO. simpl. lia.
  - rewrite Pos.iter_succ, Pos2Z.inj_xO, IH, Pos2Z.inj_succ, Z.pow_succ_r by lia. lia.
Qed.

(** A 53-digit mantissa needs no rounding. *)
Lemma round_aux_exact m e :
  Zpos (digits2_pos m) = 53 -> -1074 <= e <= 971 ->
  binary_round_aux 53 1024 false (Zpos m) e loc_Exact = S754_finite false m e.
Proof.
  intros Hm He. unfold binary_round_aux, shr_fexp, fexp, emin. simpl Zdigits2. rewrite Hm.
  replace (Z.max (53 + e - 53) (3 - 1024 - 53) - e) with 0 by lia. simpl.
  rewrite Hm. replace (Z.max (53 + e - 53) (3 - 1024 - 53) - e) with 0 by lia. simpl.
  case_zcmp; [done|lia].
Qed.

(** An integer below [2^53] converts exactly: its mantissa is the integer
    shifted up to 53 digits. *)
Lemma f64_of_Z_exact p :
  Zpos p < 2 ^ 53 ->
  exists m, f64_of_Z (Zpos p) = S754_finite false m (Z.log2 (Zpos p) - 52) /\
    Zpos m = Zpos p * 2 ^ (52 - Z.log2 (Zpos p)) /\ Zpos (digits2_pos m) = 53.
Proof.
  intros Hp. pose proof (Z.log2_nonneg (Zpos p)) as H0.
  assert (Z.log2 (Zpos p) < 53) as H1 by (apply Z.log2_lt_pow2; lia).
  pose proof (digits2_log2 p) as Hd.
  unfold f64_of_Z. simpl binary_normalize. unfold binary_round.
  assert (fexp 53 1024 (Zpos (digits2_pos p) + 0) = Z.log2 (Zpos p) - 52) as ->.
  { unfold fexp, emin. rewrite Hd. lia. }
  unfold shl_align. destruct (Z.log2 (Zpos p) - 52 - 0) as [|d|d] eqn:Ed; [|lia|].
  - exists p. rewrite round_aux_exact by lia.
    replace (Z.log2 (Zpos p) - 52) with 0 by lia.
    replace (52 - Z.log2 (Zpos p)) with 0 by lia. split_and!; [done|lia|lia].
  - exists (Pos.iter xO p d).
    assert (Zpos (digits2_pos (Pos.iter xO p d)) = 53) as H53 by (rewrite digits2_iter; lia).
    rewrite round_aux_exact by lia. split_and!; [done| |done].
    rewrite iter_xO_mul. do 2 f_equal. lia.
Qed.

#[global] Instance spec_float_eq_dec : EqDecision spec_float.
Proof. solve_decision. Defined.

(** A load factor times a power of two: the product is exact, because only the
    exponent moves.  The check is evaluated over every table size below. *)
Definition load_products_exact (c : positive) : bool :=
  forallb (fun k => bool_decide
      (fmul (S754_finite false c (-53)) (f64_of_Z (2 ^ k)) = S754_finite false c (k - 53)))
    (seqZ 0 63).

Lemma load_product c k :
  load_products_exact c = true -> 0 <= k <= 62 ->
  fmul (S754_finite false c (-53)) (f64_of_Z (2 ^ k)) = S754_finite false c (k - 53).
Proof.
  unfold load_products_exact. rewrite forallb_forall. intros Hall Hk.
  apply (bool_decide_eq_true_1 _), Hall, list_elem_of_In, elem_of_seqZ. lia.
Qed.

(** Two 53-digit floats compare by exponent, then by mantissa. *)
Lemma flt_normal m1 e1 m2 e2 :
  Zpos (digits2_pos m1) = 53 -> Zpos (digits2_pos m2) = 53 ->
  forall b, 0 <= e1 + b -> 0 <= e2 + b ->
  flt (S754_finite false m1 e1) (S754_finite false m2 e2) =
  (Zpos m1 * 2 ^ (e1 + b) <? Zpos m2 * 2 ^ (e2 + b)).
Proof.
  intros H1 H2 b Hb1 Hb2. rewrite digits2_log2 in H1, H2.
  pose proof (Z.log2_spec (Zpos m1) ltac:(lia)) as [L1 U1].
  pose proof (Z.log2_spec (Zpos m2) ltac:(lia)) as [L2 U2].
  replace (Z.log2 (Zpos m1)) with 52 in * by lia.
  replace (Z.log2 (Zpos m2)) with 52 in * by lia.
  unfold flt, SFltb. simpl. destruct (Z.compare_spec e1 e2) as [->|Hlt|Hgt].
  - fold (Pos.compare m1 m2). rewrite <- (Z.mul_comm (2 ^ _)), <- (Z.mul_comm (2 ^ _)).
    pose proof (pow2_pos (e2 + b) ltac:(lia)) as HP. revert HP. generalize (2 ^ (e2 + b)) as P.
    clear. intros P HP. destruct (Pos.compare_spec m1 m2) as [->|?|?]; case_zcmp; try done; nia.
  - replace (e2 + b) with ((e1 + b) + 1 + (e2 - e1 - 1)) by lia.
    rewrite (Z.pow_add_r 2 (e1 + b + 1)), (Z.pow_add_r 2 (e1 + b) 1) by lia.
    pose proof (pow2_pos (e1 + b) ltac:(lia)) as HP. pose proof (pow2_pos (e2 - e1 - 1) ltac:(lia)) as HQ.
    revert HP HQ L1 U1 L2 U2. generalize (2 ^ (e1 + b)) as P, (2 ^ (e2 - e1 - 1)) as Q. clear.
    intros. case_zcmp; [done|].
    assert (Zpos m2 * (P * 2 ^ 1 * Q) = P * (Zpos m2 * 2 * Q)) by lia.
    assert (Zpos m1 < Zpos m2 * 2 * Q) by nia. nia.
  - replace (e1 + b) with ((e2 + b) + 1 + (e1 - e2 - 1)) by lia.
    rewrite (Z.pow_add_r 2 (e2 + b + 1)), (Z.pow_add_r 2 (e2 + b) 1) by lia.
    pose proof (pow2_pos (e2 + b) ltac:(lia)) as HP. pose proof (pow2_pos (e1 - e2 - 1) ltac:(lia)) as HQ.
    revert HP HQ L1 U1 L2 U2. generalize (2 ^ (e2 + b)) as P, (2 ^ (e1 - e2 - 1)) as Q. clear.
    intros. case_zcmp; [|done].
    assert (Zpos m1 * (P * 2 ^ 1 * Q) = P * (Zpos m1 * 2 * Q)) by lia.
    assert (Zpos m2 < Zpos m1 * 2 * Q) by nia. nia.
Qed.

(** The load-factor test [float64(n) > c * float64(2^k)] as integer
    arithmetic: exact for counts below [2^53]. *)
Lemma load_test c k n :
  load_products_exact c = true -> Zpos (digits2_pos c) = 53 ->
  0 <= k <= 62 -> 1 <= n < 2 ^ 53 ->
  fgt (f64_of_Z n) (fmul (S754_finite false c (-53)) (f64_of_Z (2 ^ k))) =
  (Zpos c * 2 ^ k <? n * 2 ^ 53).
Proof.
  intros Hc Hd Hk Hn. rewrite load_product by done. destruct n as [|p|p]; [lia| |lia].
  destruct (f64_of_Z_exact p ltac:(lia)) as (m & -> & Hm & Hdm).
  pose proof (Z.log2_nonneg (Zpos p)).
  assert (Z.log2 (Zpos p) < 53) by (apply Z.log2_lt_pow2; lia).
  change (fgt ?a ?b) with (flt b a). rewrite (flt_normal _ _ _ _ Hd Hdm 53) by lia.
  rewrite Hm, <- Z.mul_assoc, <- Z.pow_add_r by lia.
  replace (52 - Z.log2 (Zpos p) + (Z.log2 (Zpos p) - 52 + 53)) with 53 by lia.
  by replace (k - 53 + 53) with k by lia.
Qed.

Lemma load_products_0_7 : load_products_exact 6305039478318694 = true.
Proof. vm_compute. done. Qed.

Lemma load_products_0_75 : load_products_exact 6755399441055744 = true.
Proof. vm_compute. done. Qed.

(** The two tests as the tables use them. *)
Lemma load_test_0_7 k n :
  0 <= k <= 62 -> 1 <= n < 2 ^ 53 ->
  fgt (f64_of_Z n) (fmul f64_0_7 (f64_of_Z (2 ^ k))) = (6305039478318694 * 2 ^ k <? n * 2 ^ 53).
Proof. intros. apply load_test; [apply load_products_0_7|done..]. Qed.

Lemma load_test_0_75 k n :
  0 <= k <= 62 -> 1 <= n < 2 ^ 53 ->
  fgt (f64_of_Z n) (fmul f64_0_75 (f64_of_Z (2 ^ k))) = (3 * 2 ^ k <? n * 4).
Proof.
  intros Hk Hn. unfold f64_0_75. rewrite load_test; [|apply load_products_0_75|done..].
  repeat case_zcmp; lia.
Qed.

(** [<] is a strict order, NaNs included (they compare with nothing). *)
Lemma flt_trans a b c : flt a b = true -> flt b c = true -> flt a c = true.
Proof.
  unfold flt, SFltb. destruct a as [[]|[]| |[] m1 e1], b as [[]|[]| |[] m2 e2], c as [[]|[]| |[] m3 e3];
    cbn [SFcompare]; try done;
    change (Pos.compare_cont Eq) with Pos.compare;
    destruct (Z.compare_spec e1 e2), (Z.compare_spec e2 e3), (Z.compare_spec e1 e3); try done; try lia;
    destruct (Pos.compare_spec m1 m2), (Pos.compare_spec m2 m3), (Pos.compare_spec m1 m3);
    cbn [CompOpp]; try done; lia.
Qed.

Lemma flt_irrefl a : flt a a = false.
Proof.
  unfold flt, SFltb. destruct a as [[]|[]| |[] m e]; cbn [SFcompare]; try done;
    rewrite Z.compare_refl; change (Pos.compare_cont Eq) with Pos.compare; by rewrite Pos.compare_refl.
Qed.
