(* ===== verification/Codec.v ===== *)
(** * Byte strings and the encodings of encoding/binary

    What the sources use of Go's [bytes] and [encoding/binary] packages:
    lexicographic comparison, fixed-width little- and big-endian integers, and
    the unsigned varints that frame the records of the in-memory logs. *)

From S2P Require Import Prelude.

(** ** bytes.Compare *)

Fixpoint bytes_compare (a b : bytes) : comparison :=
  match a, b with
  | [], [] => Eq
  | [], _ :: _ => Lt
  | _ :: _, [] => Gt
  | x :: a', y :: b' =>
      match Z.compare (b2z x) (b2z y) with
      | Eq => bytes_compare a' b'
      | c => c
      end
  end.

(** The order of [sort.Strings] and of every ordered scan. *)
Definition bytes_le (a b : bytes) : Prop := bytes_compare a b <> Gt.

#[global] Instance bytes_le_dec : RelDecision bytes_le.
Proof. intros a b. unfold bytes_le. destruct (bytes_compare a b); (left; done) || (right; congruence). Defined.

Lemma bytes_compare_refl a : bytes_compare a a = Eq.
Proof. induction a as [|x a IH]; simpl; [done|]. by rewrite Z.compare_refl. Qed.

Lemma bytes_compare_eq a b : bytes_compare a b = Eq -> a = b.
Proof.
  revert b. induction a as [|x a IH]; intros [|y b]; simpl; try done.
  destruct (Z.compare_spec (b2z x) (b2z y)) as [E| |]; try done.
  intros Hc. apply (inj b2z) in E. subst. f_equal. by apply IH.
Qed.

Lemma bytes_compare_flip a b : bytes_compare b a = CompOpp (bytes_compare a b).
Proof.
  revert b. induction a as [|x a IH]; intros [|y b]; simpl; try done.
  rewrite (Z.compare_antisym (b2z x) (b2z y)).
  destruct (Z.compare (b2z x) (b2z y)); simpl; [apply IH|done|done].
Qed.

#[global] Instance bytes_le_total : Total bytes_le.
Proof.
  intros a b. unfold bytes_le. rewrite (bytes_compare_flip a b).
  destruct (bytes_compare a b); simpl; [left|left|right]; done.
Qed.

#[global] Instance bytes_le_antisymm : AntiSymm (=) bytes_le.
Proof.
  intros a b. unfold bytes_le. rewrite (bytes_compare_flip a b).
  destruct (bytes_compare a b) eqn:E; simpl; try done. intros _ _. by apply bytes_compare_eq.
Qed.

#[global] Instance bytes_le_trans : Transitive bytes_le.
Proof.
  unfold bytes_le. intros a. induction a as [|x a IH]; intros [|y b] [|z c]; simpl; try done.
  destruct (Z.compare_spec (b2z x) (b2z y)), (Z.compare_spec (b2z y) (b2z z)),
    (Z.compare_spec (b2z x) (b2z z)); try done; try lia. apply IH.
Qed.

(** ** Fixed-width integers *)

(** [binary.LittleEndian.PutUintN]: [n] bytes, least significant first. *)
Fixpoint le_bytes (n : nat) (z : Z) : bytes :=
  match n with
  | O => []
  | S n' => z2b z :: le_bytes n' (Z.shiftr z 8)
  end.

(** [binary.LittleEndian.UintN]. *)
Fixpoint le_value (l : bytes) : Z :=
  match l with
  | [] => 0
  | b :: l' => Z.lor (b2z b) (Z.shiftl (le_value l') 8)
  end.

(** [binary.BigEndian.PutUintN]: [n] bytes, most significant first. *)
Fixpoint be_bytes (n : nat) (z : Z) : bytes :=
  match n with
  | O => []
  | S n' => z2b (Z.shiftr z (8 * Z.of_nat n')) :: be_bytes n' z
  end.

(** [binary.BigEndian.UintN]. *)
Fixpoint be_value (l : bytes) : Z :=
  match l with
  | [] => 0
  | b :: l' => Z.lor (be_value l') (Z.shiftl (b2z b) (8 * len l'))
  end.

Lemma length_le_bytes n z : length (le_bytes n z) = n.
Proof. revert z. induction n as [|n IH]; intros z; simpl; [done|]. by rewrite IH. Qed.

Lemma length_be_bytes n z : length (be_bytes n z) = n.
Proof. induction n as [|n IH]; simpl; [done|]. by rewrite IH. Qed.

Lemma le_value_cons b l : le_value (b :: l) = b2z b + 256 * le_value l.
Proof.
  simpl. pose proof (b2z_range b). rewrite (lor_shiftl_add _ _ 8) by lia. lia.
Qed.

Lemma mod_256_split z n : 0 <= n ->
  z mod 256 + 256 * (Z.shiftr z 8 mod 2 ^ n) = z mod 2 ^ (n + 8).
Proof.
  intros Hn. rewrite Z.shiftr_div_pow2 by lia. rewrite Z.add_comm with (n := n), Z.pow_add_r by lia.
  change (2 ^ 8) with 256. pose proof (pow2_pos n Hn). by rewrite Z.rem_mul_r by lia.
Qed.

Lemma le_roundtrip n z : le_value (le_bytes n z) = z mod 2 ^ (8 * Z.of_nat n).
Proof.
  revert z. induction n as [|n IH]; intros z.
  - simpl. by rewrite Z.mod_1_r.
  - simpl le_bytes. rewrite le_value_cons, IH, b2z_z2b, mod_256_split by lia. do 2 f_equal. lia.
Qed.

Lemma be_value_range l : 0 <= be_value l < 2 ^ (8 * len l).
Proof.
  induction l as [|b l IH]; [done|]. rewrite len_cons. simpl. pose proof (b2z_range b).
  pose proof (len_nonneg l). rewrite lor_shiftl_add by lia.
  replace (8 * (1 + len l)) with (8 + 8 * len l) by lia. rewrite Z.pow_add_r by lia. nia.
Qed.

Lemma mod_split_high z a : 0 <= a ->
  z mod 2 ^ a + (Z.shiftr z a mod 256) * 2 ^ a = z mod 2 ^ (a + 8).
Proof.
  intros Ha. rewrite Z.shiftr_div_pow2 by lia. rewrite Z.pow_add_r by lia.
  pose proof (pow2_pos a Ha). change (2 ^ 8) with 256. rewrite Z.rem_mul_r by lia. lia.
Qed.

Lemma be_roundtrip n z : be_value (be_bytes n z) = z mod 2 ^ (8 * Z.of_nat n).
Proof.
  induction n as [|n IH]; simpl be_bytes; simpl be_value; [by rewrite Z.mod_1_r|].
  rewrite IH. unfold len. rewrite length_be_bytes, b2z_z2b.
  rewrite lor_shiftl_add; [|lia|apply Z.mod_pos_bound, pow2_pos; lia].
  rewrite mod_split_high by lia. do 2 f_equal. lia.
Qed.

(** Big-endian keys of one width sort as the integers they encode. *)
Lemma be_bytes_compare n a b :
  bytes_compare (be_bytes n a) (be_bytes n b) =
  Z.compare (a mod 2 ^ (8 * Z.of_nat n)) (b mod 2 ^ (8 * Z.of_nat n)).
Proof.
  induction n as [|n IH]; simpl be_bytes; [by rewrite !Z.mod_1_r|].
  simpl bytes_compare. rewrite IH, !b2z_z2b.
  replace (8 * Z.of_nat (S n)) with (8 * Z.of_nat n + 8) by lia.
  rewrite <- !mod_split_high by lia.
  pose proof (pow2_pos (8 * Z.of_nat n) ltac:(lia)).
  pose proof (Z.mod_pos_bound a (2 ^ (8 * Z.of_nat n)) ltac:(lia)).
  pose proof (Z.mod_pos_bound b (2 ^ (8 * Z.of_nat n)) ltac:(lia)).
  destruct (Z.compare_spec (Z.shiftr a (8 * Z.of_nat n) mod 256)
    (Z.shiftr b (8 * Z.of_nat n) mod 256)) as [->|Hlt|Hgt].
  - destruct (Z.compare_spec (a mod 2 ^ (8 * Z.of_nat n)) (b mod 2 ^ (8 * Z.of_nat n)));
      symmetry; [apply Z.compare_eq_iff|apply Z.compare_lt_iff|apply Z.compare_gt_iff]; lia.
  - symmetry. apply Z.compare_lt_iff. nia.
  - symmetry. apply Z.compare_gt_iff. nia.
Qed.

(** ** Unsigned varints *)

(** [binary.PutUvarint] writes these bytes: seven bits each, least significant
    group first, the top bit set on all but the last.  Ten groups cover 64
    bits, so the budget of ten never runs out on a [uint64]. *)
Fixpoint uvarint_groups (fuel : nat) (x : Z) : bytes :=
  match fuel with
  | O => []
  | S f =>
      if x >=? 128
      then z2b (Z.lor (x mod 256) 128) :: uvarint_groups f (Z.shiftr x 7)
      else [z2b x]
  end.

Definition MaxVarintLen64 : nat := 10.

Definition put_uvarint (x : Z) : bytes := uvarint_groups MaxVarintLen64 x.

(** [binary.Uvarint]: the value and the number of bytes read; [(0, 0)] when
    the input ends inside the varint, a negative count when it overflows. *)
Fixpoint uvarint_loop (buf : bytes) (i x s : Z) : Z * Z :=
  match buf with
  | [] => (0, 0)
  | b :: buf' =>
      if i =? 10 then (0, - (i + 1))
      else if b2z b <? 128
      then if (i =? 9) && (b2z b >? 1) then (0, - (i + 1))
           else (Z.lor x (wrap64 (Z.shiftl (b2z b) s)), i + 1)
      else uvarint_loop buf' (i + 1) (Z.lor x (wrap64 (Z.shiftl (Z.land (b2z b) 127) s))) (s + 7)
  end.

Definition uvarint (buf : bytes) : Z * Z := uvarint_loop buf 0 0 0.

Lemma lor_128 y : 0 <= y < 256 -> Z.lor y 128 = y mod 128 + 128.
Proof.
  intros Hy. destruct (Z.lt_ge_cases y 128).
  - rewrite Z.mod_small by lia. change 128 with (Z.shiftl 1 7) at 1.
    rewrite (lor_shiftl_add y 1 7) by lia. lia.
  - replace y with ((y - 128) + 1 * 2 ^ 7) at 1 by lia.
    rewrite <- (lor_shiftl_add (y - 128) 1 7) by lia. change (Z.shiftl 1 7) with 128.
    rewrite <- Z.lor_assoc, Z.lor_diag. change 128 with (Z.shiftl 1 7) at 2.
    rewrite (lor_shiftl_add (y - 128) 1 7) by lia.
    replace (y mod 128) with (y - 128); [lia|].
    apply Z.mod_unique with 1; lia.
Qed.

(** The continuation byte carries the low seven bits and the top bit. *)
Lemma cont_byte x : 0 <= x -> b2z (z2b (Z.lor (x mod 256) 128)) = x mod 128 + 128.
Proof.
  intros Hx. pose proof (Z.mod_pos_bound x 256 ltac:(lia)).
  pose proof (Z.mod_pos_bound x 128 ltac:(lia)).
  rewrite b2z_z2b, lor_128 by lia.
  assert ((x mod 256) mod 128 = x mod 128) as ->.
  { change 256 with (128 * 2). rewrite Z.rem_mul_r by lia.
    rewrite Z.mul_comm, Z.mod_add by lia. apply Z.mod_small. lia. }
  apply Z.mod_small. lia.
Qed.

Lemma uvarint_step fuel x acc i rest :
  0 <= i -> Z.of_nat fuel = 10 - i -> 0 <= x < 2 ^ (64 - 7 * i) -> 0 <= acc < 2 ^ (7 * i) ->
  uvarint_loop (uvarint_groups fuel x ++ rest) i acc (7 * i) =
  (acc + x * 2 ^ (7 * i), i + len (uvarint_groups fuel x)).
Proof.
  revert x acc i. induction fuel as [|f IH]; intros x acc i Hi Hf Hx Hacc.
  { rewrite Z.pow_neg_r in Hx by lia. lia. }
  pose proof (pow2_pos (7 * i) ltac:(lia)) as Hp.
  assert (64 - 7 * i >= 0).
  { destruct (Z.le_gt_cases 0 (64 - 7 * i)); [lia|]. rewrite Z.pow_neg_r in Hx by lia. lia. }
  assert (2 ^ (64 - 7 * i) * 2 ^ (7 * i) = 2 ^ 64) as Hprod.
  { rewrite <- Z.pow_add_r by lia. f_equal. lia. }
  simpl uvarint_groups. rewrite Z.geb_leb. destruct (Z.leb_spec 128 x) as [Hge|Hlt].
  - assert (i <= 8).
    { destruct (Z.le_gt_cases i 8); [done|]. assert (i = 9) as -> by lia. lia. }
    pose proof (Z.mod_pos_bound x 128 ltac:(lia)).
    simpl app. simpl uvarint_loop. rewrite cont_byte by lia.
    destruct (Z.eqb_spec i 10); [lia|]. destruct (Z.ltb_spec (x mod 128 + 128) 128); [lia|].
    assert (Z.land (x mod 128 + 128) 127 = x mod 128) as ->.
    { change 127 with (2 ^ 7 - 1). rewrite land_mask by lia. change (2 ^ 7) with 128.
      rewrite <- Z.add_mod_idemp_r, Z.mod_same, Z.add_0_r, Z.mod_mod by lia. done. }
    rewrite wrap64_id.
    2:{ rewrite Z.shiftl_mul_pow2 by lia. unfold is_u64.
        assert (x mod 128 <= x) by (apply Z.mod_le; lia). nia. }
    rewrite lor_shiftl_add by lia. replace (7 * i + 7) with (7 * (i + 1)) by lia.
    assert (2 ^ (7 * (i + 1)) = 128 * 2 ^ (7 * i)) as E7.
    { replace (7 * (i + 1)) with (7 + 7 * i) by lia. by rewrite Z.pow_add_r by lia. }
    pose proof (Z.div_mod x 128 ltac:(lia)) as Hdm.
    rewrite IH; [|lia|lia| |].
    + rewrite len_cons, Z.shiftr_div_pow2 by lia. change (2 ^ 7) with 128. rewrite E7.
      f_equal; [nia|lia].
    + rewrite Z.shiftr_div_pow2 by lia. split; [apply Z.div_pos; lia|].
      apply Z.div_lt_upper_bound; [lia|]. rewrite <- Z.pow_add_r by lia.
      replace (7 + (64 - 7 * (i + 1))) with (64 - 7 * i) by lia. lia.
    + rewrite E7. nia.
  - simpl. rewrite b2z_z2b, Z.mod_small by lia.
    destruct (Z.eqb_spec i 10); [lia|]. destruct (Z.ltb_spec x 128); [|lia].
    assert ((i =? 9) && (x >? 1) = false) as ->.
    { destruct (Z.eqb_spec i 9) as [->|]; [|done]. simpl. rewrite Z.gtb_ltb.
      apply Z.ltb_ge. change (2 ^ (64 - 7 * 9)) with 2 in Hx. lia. }
    rewrite wrap64_id by (rewrite Z.shiftl_mul_pow2 by lia; unfold is_u64; nia).
    rewrite lor_shiftl_add by lia. done.
Qed.

(** Decoding an encoded [uint64] gives it back, with the encoding's length,
    whatever bytes follow. *)
Lemma uvarint_put x rest : is_u64 x -> uvarint (put_uvarint x ++ rest) = (x, len (put_uvarint x)).
Proof.
  intros Hx. unfold uvarint, put_uvarint.
  change (uvarint_loop ?b 0 0 0) with (uvarint_loop b 0 0 (7 * 0)).
  rewrite uvarint_step; [|done|done| |done].
  - f_equal. lia.
  - exact Hx.
Qed.

Lemma uvarint_groups_nonempty fuel x : (0 < fuel)%nat -> 1 <= len (uvarint_groups fuel x).
Proof.
  destruct fuel; [lia|]. intros _. simpl. case_match; rewrite ?len_cons; zlia.
Qed.

Lemma put_uvarint_len x : 1 <= len (put_uvarint x) <= 10.
Proof.
  split; [apply uvarint_groups_nonempty; unfold MaxVarintLen64; lia|].
  assert (forall fuel y, len (uvarint_groups fuel y) <= Z.of_nat fuel) as H.
  { induction fuel as [|f IH]; intros y; simpl; [done|].
    case_match; rewrite len_cons; [specialize (IH (Z.shiftr y 7)); lia|rewrite len_nil; lia]. }
  apply (H MaxVarintLen64).
Qed.
