(* ===== verification/Engine.v ===== *)
(** * The engine SPI (package engine)

    The data of engine/engine.go, the registry of engine/registry.go, and the
    contract a point store offers to its clients as a type class: an engine
    represents a finite map from byte strings to byte strings.  The client
    theorems (a session of operations, a batch, the loader) are proved against
    the class; each in-memory engine proves the class. *)

From stdpp Require Import sorting.
From S2P Require Import Prelude Codec.

(** ** engine.go *)

Definition ModeInProc : string := "in-proc".
Definition ModeCgo : string := "cgo".
Definition ModeSubprocess : string := "subprocess".
Definition ModeNetwork : string := "network".

Definition FamilyBTree : string := "btree".
Definition FamilyCOWBTree : string := "cow-btree".
Definition FamilyLSM : string := "lsm".
Definition FamilyHashLog : string := "hash-log".
Definition FamilyInMemory : string := "in-memory".

Definition ClassEmbedded : string := "embedded".
Definition ClassRedisMemory : string := "redis-memory".
Definition ClassRedisPersistent : string := "redis-persistent".
Definition ClassDistributed : string := "distributed".

Record Capabilities := MkCapabilities {
  Ordered : bool;
  AtomicBatch : bool;
  Durable : bool;
  Transactions : bool;
  OnlineBackup : bool;
  SingleFile : bool;
  PureNoCgo : bool }.

Definition NoCaps : Capabilities := MkCapabilities false false false false false false false.

Record Asterisk := MkAsterisk { Code : string; Note : string }.

Record Meta := MkMeta {
  MetaName : string;
  MetaFamily : string;
  MetaMode : string;
  MetaClass : string;
  MetaVersion : string;
  MetaProfile : string;
  MetaCaps : Capabilities;
  MetaAsterisks : list Asterisk;
  MetaReference : bool }.

(** The comparison class, with the default for an adapter that sets none. *)
Definition ClassOf (m : Meta) : string :=
  if bool_decide (MetaClass m <> "") then MetaClass m
  else if bool_decide (MetaMode m = ModeNetwork) then ClassRedisMemory
  else ClassEmbedded.

Record Config := MkConfig {
  CfgDir : string;
  CfgAddr : string;
  CfgProfile : string;
  CfgSynchronous : string;
  CfgCacheBytes : Z;
  CfgValueBytes : Z;
  CfgCardinality : Z;
  CfgServerCPUList : string;
  CfgExtra : gmap string string }.

Record Stats := MkStats {
  BytesWritten : Z;
  BytesRead : Z;
  OnDiskBytes : Z;
  NumFiles : Z;
  CacheHits : Z;
  CacheMisses : Z;
  CompactionRuns : Z }.

Definition UnknownStats : Stats := MkStats (-1) (-1) (-1) (-1) (-1) (-1) (-1).

(** ** registry.go *)

(** Names sort as the bytes they are made of. *)
Definition name_le (a b : string) : Prop :=
  bytes_le (String.list_byte_of_string a) (String.list_byte_of_string b).

#[global] Instance name_le_dec : RelDecision name_le.
Proof. intros a b. unfold name_le. apply _. Defined.
#[global] Instance name_le_total : Total name_le.
Proof. intros a b. unfold name_le. apply (total bytes_le). Qed.
#[global] Instance name_le_trans : Transitive name_le.
Proof. intros a b c. unfold name_le. apply bytes_le_trans. Qed.
#[global] Instance name_le_antisymm : AntiSymm (=) name_le.
Proof.
  intros a b Hab Hba. rewrite <- (String.string_of_list_byte_of_string a),
    <- (String.string_of_list_byte_of_string b). f_equal. by apply (anti_symm bytes_le).
Qed.

(** [sort.Strings]. *)
Definition sort_strings (l : list string) : list string := merge_sort name_le l.

Inductive engine_error :=
| ErrNotBuilt (name : string).

Section Registry.
Context {E : Type} (meta : E -> Meta).

(** A factory builds a fresh, unopened engine. *)
Abbreviation Factory := (unit -> E).

Definition Register (registry : gmap string Factory) (name : string) (f : Factory)
    : outcome (gmap string Factory) :=
  match registry !! name with
  | Some _ => Panic
  | None => Ok (<[name := f]> registry)
  end.

Definition New (registry : gmap string Factory) (name : string) : E + engine_error :=
  match registry !! name with
  | None => inr (ErrNotBuilt name)
  | Some f => inl (f tt)
  end.

(** Go iterates a map in an unspecified order; [order] is the order in which
    [range registry] produced the names. *)
Definition Names (order : list string) : list string := sort_strings order.

Fixpoint default_loop (registry : gmap string Factory) (order out : list string) : list string :=
  match order with
  | [] => out
  | n :: order' =>
      match registry !! n with
      | Some f =>
          if MetaReference (meta (f tt)) then default_loop registry order' out
          else default_loop registry order' (out ++ [n])
      | None => default_loop registry order' out
      end
  end.

Definition DefaultNames (registry : gmap string Factory) (order : list string) : list string :=
  sort_strings (default_loop registry order []).

Definition Has (registry : gmap string Factory) (name : string) : bool :=
  bool_decide (is_Some (registry !! name)).

(** [order] is a possible iteration order of the map: each name once. *)
Definition iteration_of (registry : gmap string Factory) (order : list string) : Prop :=
  order ≡ₚ (map_to_list registry).*1.
End Registry.

Lemma sort_strings_perm l : sort_strings l ≡ₚ l.
Proof. apply merge_sort_Permutation. Qed.

Lemma sort_strings_unique l k : l ≡ₚ k -> sort_strings l = sort_strings k.
Proof.
  intros H. apply (Sorted_unique name_le); [apply (Sorted_merge_sort _)..|].
  by rewrite !sort_strings_perm.
Qed.

Lemma sort_strings_sorted l : Sorted name_le (sort_strings l).
Proof. apply (Sorted_merge_sort _). Qed.

(** ** The map contract of a point store

    One write, as a batch buffers it (inmem.go's memOp) and as an engine
    applies it. *)

Record memOp := MkMemOp { op_del : bool; op_k : bytes; op_v : bytes }.

Definition PutOp (k v : bytes) : memOp := MkMemOp false k v.
Definition DelOp (k : bytes) : memOp := MkMemOp true k [].

(** What a write does to the map an engine represents. *)
Definition apply_op (m : gmap bytes bytes) (o : memOp) : gmap bytes bytes :=
  if op_del o then delete (op_k o) m else <[op_k o := op_v o]> m.

Definition apply_ops (m : gmap bytes bytes) (ops : list memOp) : gmap bytes bytes :=
  foldl apply_op m ops.

(** The operations: [Get] returns the value when the key is found. *)
Class KVOps (E : Type) := {
  kv_get : E -> bytes -> outcome (option bytes);
  kv_put : E -> bytes -> bytes -> outcome E;
  kv_delete : E -> bytes -> outcome E;
  kv_apply : E -> list memOp -> outcome E }.

(** The bytes a write can add to a store, and the total the contract covers:
    64 TiB written over the life of one engine.  Within it no offset, length
    or slot count leaves the range the code's integers and floats hold
    exactly. *)
Definition op_cost (o : memOp) : Z := 24 + len (op_k o) + len (op_v o).
Definition ops_cost (ops : list memOp) : Z := foldr (fun o c => op_cost o + c) 0 ops.
Definition kv_budget : Z := 2 ^ 46.

(** [kv_rep e m b]: engine state [e] is well formed, represents [m], and has
    had at most [b] bytes written to it. *)
Class KVStore (E : Type) `{KVOps E} := {
  kv_rep : E -> gmap bytes bytes -> Z -> Prop;
  kv_get_spec e m b k : kv_rep e m b -> kv_get e k = Ok (m !! k);
  kv_put_spec e m b k v :
    kv_rep e m b -> b + op_cost (PutOp k v) <= kv_budget ->
    exists e', kv_put e k v = Ok e' /\ kv_rep e' (<[k:=v]> m) (b + op_cost (PutOp k v));
  kv_delete_spec e m b k :
    kv_rep e m b -> exists e', kv_delete e k = Ok e' /\ kv_rep e' (delete k m) b;
  kv_apply_spec e m b ops :
    kv_rep e m b -> b + ops_cost ops <= kv_budget ->
    exists e', kv_apply e ops = Ok e' /\ kv_rep e' (apply_ops m ops) (b + ops_cost ops) }.

(** ** A session against the contract *)

Inductive request :=
| RGet (k : bytes)
| RWrite (o : memOp)
| RBatch (ops : list memOp).

Definition req_cost (r : request) : Z :=
  match r with RGet _ => 0 | RWrite o => op_cost o | RBatch ops => ops_cost ops end.
Definition session_cost (rs : list request) : Z := foldr (fun r c => req_cost r + c) 0 rs.

Section Session.
Context {E : Type} `{KVOps E}.

Definition kv_write (e : E) (o : memOp) : outcome E :=
  if op_del o then kv_delete e (op_k o) else kv_put e (op_k o) (op_v o).

(** Run the requests in order, collecting what each [Get] returned. *)
Fixpoint run_session (e : E) (rs : list request) : outcome (list (option bytes) * E) :=
  match rs with
  | [] => Ok ([], e)
  | RGet k :: rs' =>
      obind (kv_get e k) (fun r =>
      obind (run_session e rs') (fun '(out, e') => Ok (r :: out, e')))
  | RWrite o :: rs' => obind (kv_write e o) (fun e' => run_session e' rs')
  | RBatch ops :: rs' => obind (kv_apply e ops) (fun e' => run_session e' rs')
  end.
End Session.

(** The same session against the map itself: the oracle. *)
Fixpoint map_session (m : gmap bytes bytes) (rs : list request)
    : list (option bytes) * gmap bytes bytes :=
  match rs with
  | [] => ([], m)
  | RGet k :: rs' => let '(out, m') := map_session m rs' in (m !! k :: out, m')
  | RWrite o :: rs' => map_session (apply_op m o) rs'
  | RBatch ops :: rs' => map_session (apply_ops m ops) rs'
  end.

Lemma op_cost_pos o : 24 <= op_cost o.
Proof. unfold op_cost. zlia. Qed.

Lemma ops_cost_nonneg ops : 0 <= ops_cost ops.
Proof. induction ops as [|o ops IH]; simpl; [done|]. pose proof (op_cost_pos o). lia. Qed.

Lemma session_cost_nonneg rs : 0 <= session_cost rs.
Proof.
  induction rs as [|r rs IH]; simpl; [done|].
  destruct r; simpl; [lia|pose proof (op_cost_pos o); lia|pose proof (ops_cost_nonneg ops); lia].
Qed.

#[export] Hint Resolve op_cost_pos ops_cost_nonneg session_cost_nonneg : go.

Section StoreTheorems.
Context {E : Type} `{KVStore E}.

Lemma kv_write_spec (e : E) m b o :
  kv_rep e m b -> b + op_cost o <= kv_budget ->
  exists e' b', kv_write e o = Ok e' /\ kv_rep e' (apply_op m o) b' /\ b' <= b + op_cost o.
Proof.
  intros Hr Hb. destruct o as [[] k v]; unfold kv_write, apply_op; simpl.
  - destruct (kv_delete_spec e m b k Hr) as (e' & -> & Hr'). exists e', b.
    pose proof (op_cost_pos (MkMemOp true k v)). split_and!; [done..|lia].
  - destruct (kv_put_spec e m b k v Hr Hb) as (e' & -> & Hr'). by exists e', (b + op_cost (PutOp k v)).
Qed.

(** Any session returns what the map returns, and leaves the engine
    representing the map the session leaves. *)
Lemma session_refines_map (e : E) m b rs :
  kv_rep e m b -> b + session_cost rs <= kv_budget ->
  exists e' b', run_session e rs = Ok ((map_session m rs).1, e') /\
    kv_rep e' (map_session m rs).2 b' /\ b' <= b + session_cost rs.
Proof.
  revert e m b. induction rs as [|r rs IH]; intros e m b Hr Hb; simpl in *.
  { exists e, b. split_and!; [done..|lia]. }
  pose proof (session_cost_nonneg rs). destruct r as [k|o|ops]; simpl in *.
  - rewrite (kv_get_spec e m b k Hr). simpl.
    destruct (IH e m b Hr ltac:(lia)) as (e' & b' & -> & Hr' & ?). simpl.
    destruct (map_session m rs) as [out m'] eqn:E'; simpl in *. by exists e', b'.
  - destruct (kv_write_spec e m b o Hr ltac:(lia)) as (e1 & b1 & -> & Hr1 & ?). simpl.
    destruct (IH e1 _ b1 Hr1 ltac:(lia)) as (e' & b' & -> & Hr' & ?).
    exists e', b'. split_and!; [done..|lia].
  - destruct (kv_apply_spec e m b ops Hr ltac:(pose proof (ops_cost_nonneg ops); lia)) as (e1 & -> & Hr1).
    simpl. destruct (IH e1 _ _ Hr1 ltac:(lia)) as (e' & b' & -> & Hr' & ?).
    exists e', b'. split_and!; [done..|lia].
Qed.
End StoreTheorems.

(** A batch that applies its writes one after the other meets the contract of
    [kv_apply] as soon as the single writes meet theirs. *)
Section ApplyInOrder.
Context {E : Type} (rep : E -> gmap bytes bytes -> Z -> Prop).
Context (put : E -> bytes -> bytes -> outcome E) (del : E -> bytes -> outcome E).
Context (rep_mono : forall e m b b', rep e m b -> b <= b' <= kv_budget -> rep e m b').
Context (put_ok : forall e m b k v, rep e m b -> b + op_cost (PutOp k v) <= kv_budget ->
  exists e', put e k v = Ok e' /\ rep e' (<[k:=v]> m) (b + op_cost (PutOp k v))).
Context (del_ok : forall e m b k, rep e m b -> exists e', del e k = Ok e' /\ rep e' (delete k m) b).

Lemma apply_in_order (apply : E -> list memOp -> outcome E) :
  (forall e, apply e [] = Ok e) ->
  (forall e o ops, apply e (o :: ops) =
     obind (if op_del o then del e (op_k o) else put e (op_k o) (op_v o)) (fun e' => apply e' ops)) ->
  forall ops e m b, rep e m b -> b + ops_cost ops <= kv_budget ->
  exists e', apply e ops = Ok e' /\ rep e' (apply_ops m ops) (b + ops_cost ops).
Proof using rep_mono put_ok del_ok.
  intros Hnil Hcons. induction ops as [|o ops IH]; intros e m b Hr Hb.
  { exists e. rewrite Hnil, Z.add_0_r. done. }
  rewrite Hcons. simpl in *. pose proof (ops_cost_nonneg ops). pose proof (op_cost_pos o).
  assert (exists e1, (if op_del o then del e (op_k o) else put e (op_k o) (op_v o)) = Ok e1 /\
    rep e1 (apply_op m o) (b + op_cost o)) as (e1 & -> & Hr1).
  { unfold apply_op. destruct o as [[] k v]; simpl in *.
    - destruct (del_ok e m b k Hr) as (e1 & -> & Hr1). exists e1. split; [done|].
      apply (rep_mono _ _ _ _ Hr1). lia.
    - apply put_ok; [done|]. unfold PutOp. lia. }
  simpl. destruct (IH e1 _ _ Hr1 ltac:(lia)) as (e2 & -> & Hr2). exists e2. split; [done|].
  by rewrite <- Z.add_assoc in Hr2.
Qed.
End ApplyInOrder.

(** ** The registry *)

Section RegistryTheorems.
Context {E : Type} (meta : E -> Meta).
Implicit Types registry : gmap string (unit -> E).

Definition is_default registry (n : string) : bool :=
  match registry !! n with
  | Some f => negb (MetaReference (meta (f tt)))
  | None => false
  end.

Lemma default_loop_filter registry order out :
  default_loop meta registry order out = out ++ filter (fun n => is_default registry n = true) order.
Proof.
  revert out. induction order as [|n order IH]; intros out; simpl; [by rewrite app_nil_r|].
  rewrite filter_cons.
  destruct (decide (is_default registry n = true)) as [Hd|Hd]; unfold is_default in Hd;
    destruct (registry !! n) as [f|]; try destruct (MetaReference (meta (f tt))); simpl in Hd;
    try done; try (by destruct Hd); by rewrite IH, <- ?app_assoc.
Qed.

Lemma iteration_elem registry order n :
  iteration_of registry order -> n ∈ order <-> is_Some (registry !! n).
Proof.
  intros ->. rewrite list_elem_of_fmap. split.
  - intros ([k f] & -> & Hin%elem_of_map_to_list). by exists f.
  - intros [f Hf]. exists (n, f). split; [done|]. by apply elem_of_map_to_list.
Qed.
End RegistryTheorems.

(** A short session every engine is tried on: two puts, reads of present and
    absent keys, an overwrite, a delete and a batch. *)
Definition demo_session : list request :=
  let k1 := [Byte.x61; Byte.x31] in
  let k2 := [Byte.x62] in
  [RWrite (PutOp k1 [Byte.x01]); RWrite (PutOp k2 [Byte.x02; Byte.x03]); RGet k1; RGet k2; RGet [];
   RWrite (PutOp k1 [Byte.x04]); RGet k1; RWrite (DelOp k2); RGet k2;
   RBatch [PutOp k2 [Byte.x05]; DelOp k1; PutOp [] []]; RGet k1; RGet k2; RGet []].

(** The names a run uses do not depend on Go's map order.  Two iterations
    of one registry give the same [Names] and the same [DefaultNames], both
    sorted; the default names are the registered engines that are not
    reference engines. *)
Theorem registry_names_deterministic {E} (meta : E -> Meta) (registry : gmap string (unit -> E)) o1 o2 :
  iteration_of registry o1 -> iteration_of registry o2 ->
  Names o1 = Names o2 /\ Sorted name_le (Names o1) /\
  DefaultNames meta registry o1 = DefaultNames meta registry o2 /\
  Sorted name_le (DefaultNames meta registry o1) /\
  forall n, n ∈ DefaultNames meta registry o1 <->
    exists f, registry !! n = Some f /\ MetaReference (meta (f tt)) = false.
Proof.
  intros H1 H2. assert (o1 ≡ₚ o2) as Hp by (by rewrite H1, H2).
  unfold Names, DefaultNames. rewrite !default_loop_filter. split_and!.
  - by apply sort_strings_unique.
  - apply sort_strings_sorted.
  - apply sort_strings_unique. simpl. by rewrite Hp.
  - apply sort_strings_sorted.
  - intros n. rewrite sort_strings_perm. simpl. rewrite list_elem_of_filter, (iteration_elem registry o1) by done.
    unfold is_default. split.
    + intros [Hd [f Hf]]. rewrite Hf in Hd. exists f. split; [done|]. by destruct (MetaReference _).
    + intros (f & Hf & Hr). rewrite Hf, Hr. split; [done|by exists f].
Qed.

Lemma registry_names_deterministic_witness :
  let meta (b : bool) := MkMeta "" "" "" "" "" "" NoCaps [] b in
  let registry : gmap string (unit -> bool) := {[ "a"%string := fun _ => true ]} in
  Names ["a"%string] = Names ["a"%string] /\ Sorted name_le (Names ["a"%string]) /\
  DefaultNames meta registry ["a"%string] = DefaultNames meta registry ["a"%string] /\
  Sorted name_le (DefaultNames meta registry ["a"%string]) /\
  forall n, n ∈ DefaultNames meta registry ["a"%string] <->
    exists f, registry !! n = Some f /\ MetaReference (meta (f tt)) = false.
Proof.
  intros meta registry. apply (registry_names_deterministic meta registry ["a"%string] ["a"%string]);
    unfold iteration_of, registry; rewrite map_to_list_singleton; reflexivity.
Defined.

(** The registry hands out what was registered.  A new name can be
    registered and then built, and leaves the other names as they were; a name
    that is taken panics; a name that was never registered is an error. *)
Theorem registry_register_new {E} (registry : gmap string (unit -> E)) name f :
  match registry !! name with
  | Some _ => Register registry name f = Panic
  | None =>
      New registry name = inr (ErrNotBuilt name) /\ Has registry name = false /\
      exists registry', Register registry name f = Ok registry' /\
        New registry' name = inl (f tt) /\ Has registry' name = true /\
        forall n, n <> name -> New registry' n = New registry n /\ Has registry' n = Has registry n
  end.
Proof.
  unfold Register, New, Has. destruct (registry !! name) as [g|] eqn:Eq; [done|].
  split_and!; [done|by apply bool_decide_eq_false_2; intros []|].
  eexists. split; [done|]. rewrite lookup_insert_eq. split_and!; [done|by apply bool_decide_eq_true_2|].
  intros n Hn. by rewrite lookup_insert_ne.
Qed.
