(* ===== verification/Ordered.v ===== *)
(** * Ordered views of a finite map

    What an ordered store shows of the map it holds: its entries in byte order
    of their keys, and the entries not below a start key.  The scans of the
    ordered adapters are specified by these lists. *)

From stdpp Require Import sorting.
From S2P Require Import Prelude Codec Engine.

Definition entry_le (a b : bytes * bytes) : Prop := bytes_le a.1 b.1.

#[global] Instance entry_le_dec : RelDecision entry_le.
Proof. intros a b. unfold entry_le. apply _. Defined.
#[global] Instance entry_le_total : Total entry_le.
Proof. intros a b. unfold entry_le. apply (total bytes_le). Qed.
#[global] Instance entry_le_trans : Transitive entry_le.
Proof. intros a b c. unfold entry_le. apply bytes_le_trans. Qed.

Definition entries (m : gmap bytes bytes) : list (bytes * bytes) :=
  merge_sort entry_le (map_to_list m).

Definition entries_from (m : gmap bytes bytes) (start : bytes) : list (bytes * bytes) :=
  filter (fun kv => bytes_le start kv.1) (entries m).

Lemma entries_perm m : entries m ≡ₚ map_to_list m.
Proof. apply merge_sort_Permutation. Qed.

Lemma elem_of_sorted_entries m k v : (k, v) ∈ entries m <-> m !! k = Some v.
Proof. rewrite entries_perm. apply elem_of_map_to_list. Qed.

Lemma elem_of_entries_from m start k v :
  (k, v) ∈ entries_from m start <-> m !! k = Some v /\ bytes_le start k.
Proof. unfold entries_from. rewrite list_elem_of_filter, elem_of_sorted_entries. simpl. tauto. Qed.

Lemma StronglySorted_filter {A} (R : A -> A -> Prop) (P : A -> Prop) `{!forall x, Decision (P x)} l :
  StronglySorted R l -> StronglySorted R (filter P l).
Proof.
  induction 1 as [|x l Hs IH Hx]; [constructor|]. rewrite filter_cons. case_decide; [|done].
  constructor; [done|]. rewrite Forall_forall in Hx |- *. intros y [_ Hy]%list_elem_of_filter. by apply Hx.
Qed.

Lemma StronglySorted_map {A B} (R : B -> B -> Prop) (f : A -> B) l :
  StronglySorted (fun a b => R (f a) (f b)) l -> StronglySorted R (f <$> l).
Proof.
  induction 1 as [|x l Hs IH Hx]; [constructor|]. cbn. constructor; [done|].
  rewrite Forall_fmap. eapply Forall_impl; [exact Hx|done].
Qed.

Lemma entries_from_sorted m start : StronglySorted bytes_le (entries_from m start).*1.
Proof. apply StronglySorted_map, StronglySorted_filter, (StronglySorted_merge_sort _). Qed.

Lemma NoDup_entries m : NoDup (entries m).*1.
Proof. rewrite entries_perm. apply NoDup_fst_map_to_list. Qed.

Lemma NoDup_entries_from m start : NoDup (entries_from m start).*1.
Proof.
  eapply sublist_NoDup; [apply (NoDup_entries m)|]. unfold entries_from.
  apply fmap_sublist, sublist_filter.
Qed.

(** An empty start key is below every key. *)
Lemma entries_from_nil m : entries_from m [] = entries m.
Proof. unfold entries_from. apply filter_all, Forall_forall. by intros [[|] ?] _. Qed.

(** The three facts that make a list of pairs a correct scan. *)
Definition scan_of (m : gmap bytes bytes) (start : bytes) (kvs : list (bytes * bytes)) : Prop :=
  StronglySorted bytes_le kvs.*1 /\ NoDup kvs.*1 /\
  forall k v, (k, v) ∈ kvs <-> m !! k = Some v /\ bytes_le start k.

Lemma entries_from_scan m start : scan_of m start (entries_from m start).
Proof.
  split_and!; [apply entries_from_sorted|apply NoDup_entries_from|apply elem_of_entries_from].
Qed.
