(* ===== verification/Adapter.v ===== *)
(** * Adapters of third-party stores: the interface

    An adapter wraps a store whose code is not in the repository.  What a
    client of any adapter can rely on is stated here once: every call either
    reports an error and leaves the stored map as it was, or reports success
    and does what it says; and over a store that does not fail every call
    succeeds.  The client theorems of this file are about any sequence of
    requests; each adapter proves the class from the documented behaviour of
    its store. *)

From S2P Require Import Prelude Codec Engine Ordered.

(** An error of the store: the key is absent, or anything else. *)
Inductive serr :=
| ErrNotFound
| ErrStore (msg : string).

#[global] Instance serr_eq_dec : EqDecision serr.
Proof. solve_decision. Defined.

(** ** Opening a store

    [Open] makes a sequence of calls and stops at the first that fails; some
    adapters then make a last call to release what they hold. *)

Fixpoint run_steps {A} (fails : A -> option serr) (cleanup : list A) (steps : list (A * bool))
    : list A * option serr :=
  match steps with
  | [] => ([], None)
  | (c, undo) :: steps' =>
      match fails c with
      | Some err => (c :: (if undo : bool then cleanup else []), Some err)
      | None => let '(made, res) := run_steps fails cleanup steps' in (c :: made, res)
      end
  end.

(** How far a write is on disk when the call that made it returns. *)
Inductive durability :=
| SyncNever
| SyncDeferred
| SyncData
| SyncCommit.

#[global] Instance durability_eq_dec : EqDecision durability.
Proof. solve_decision. Defined.

(** ** Requests and answers *)

Inductive areq :=
| AGet (k : bytes)
| AWrite (o : memOp)
| ABatch (ops : list memOp)
| AScan (start : bytes) (n : nat).

Inductive answer :=
| AVal (r : option bytes + serr)
| AAck (err : option serr)
| ARows (r : list (bytes * bytes) + serr).

(** The operations of an engine, as a client calls them: a batch is built and
    committed, a scan is opened, read for at most [n] rows and closed. *)
Class AdapterOps (E : Type) := {
  ad_get : E -> bytes -> option bytes + serr;
  ad_put : E -> bytes -> bytes -> E * option serr;
  ad_delete : E -> bytes -> E * option serr;
  ad_commit : E -> list memOp -> E * option serr;
  ad_scan : E -> bytes -> nat -> list (bytes * bytes) + serr }.

(** The rows of [for it.Next() && i < n { it.Key(); it.Value(); i++ }]. *)
Fixpoint read_rows {I} (next : I -> bool * I) (key value : I -> bytes) (n : nat) (it : I)
    : list (bytes * bytes) :=
  match n with
  | O => []
  | S n' =>
      let '(more, it') := next it in
      if more : bool then (key it', value it') :: read_rows next key value n' it' else []
  end.

Section Run.
Context {E : Type} `{AdapterOps E}.

Definition run_request (e : E) (r : areq) : answer * E :=
  match r with
  | AGet k => (AVal (ad_get e k), e)
  | AWrite o =>
      let '(e', err) := (if op_del o then ad_delete e (op_k o) else ad_put e (op_k o) (op_v o)) in
      (AAck err, e')
  | ABatch ops => let '(e', err) := ad_commit e ops in (AAck err, e')
  | AScan start n => (ARows (ad_scan e start n), e)
  end.

Fixpoint run_requests (e : E) (rs : list areq) : list answer * E :=
  match rs with
  | [] => ([], e)
  | r :: rs' =>
      let '(a, e1) := run_request e r in
      let '(ans, e2) := run_requests e1 rs' in (a :: ans, e2)
  end.
End Run.

(** ** The specification *)

(** What the map answers, and the map afterwards. *)
Definition map_request (m : gmap bytes bytes) (r : areq) : answer * gmap bytes bytes :=
  match r with
  | AGet k => (AVal (inl (m !! k)), m)
  | AWrite o => (AAck None, apply_op m o)
  | ABatch ops => (AAck None, apply_ops m ops)
  | AScan start n => (ARows (inl (take n (entries_from m start))), m)
  end.

Fixpoint map_requests (m : gmap bytes bytes) (rs : list areq) : list answer * gmap bytes bytes :=
  match rs with
  | [] => ([], m)
  | r :: rs' =>
      let '(a, m1) := map_request m r in
      let '(ans, m2) := map_requests m1 rs' in (a :: ans, m2)
  end.

(** Answer [a] to [r] in a store that held [m] and then holds [m']: an error
    and no change, or the map's own answer and its change.  Rows may stop
    early. *)
Definition accounts1 (m : gmap bytes bytes) (r : areq) (a : answer) (m' : gmap bytes bytes) : Prop :=
  match r, a with
  | AGet k, AVal (inl v) => v = m !! k /\ m' = m
  | AGet _, AVal (inr _) => m' = m
  | AWrite o, AAck None => m' = apply_op m o
  | ABatch ops, AAck None => m' = apply_ops m ops
  | (AWrite _ | ABatch _), AAck (Some _) => m' = m
  | AScan start n, ARows (inl rows) => rows `prefix_of` take n (entries_from m start) /\ m' = m
  | AScan _ _, ARows (inr _) => m' = m
  | _, _ => False
  end.

Fixpoint accounts (m : gmap bytes bytes) (rs : list areq) (ans : list answer) (m' : gmap bytes bytes) : Prop :=
  match rs, ans with
  | [], [] => m' = m
  | r :: rs', a :: ans' => exists m1, accounts1 m r a m1 /\ accounts m1 rs' ans' m'
  | _, _ => False
  end.

(** A write a store accepts; a delete accepts what some value would. *)
Definition op_valid (valid : bytes -> bytes -> Prop) (o : memOp) : Prop :=
  if op_del o then exists v, valid (op_k o) v else valid (op_k o) (op_v o).

(** What an adapter promises.  [ad_rep e m]: the store behind [e] holds [m].
    [ad_ok e]: the store does not fail.  [ad_valid k v]: the store accepts the
    entry (its limits on keys and sizes). *)
Class Adapter (E : Type) `{AdapterOps E} := {
  ad_rep : E -> gmap bytes bytes -> Prop;
  ad_ok : E -> Prop;
  ad_valid : bytes -> bytes -> Prop;
  ad_get_spec e m k : ad_rep e m ->
    match ad_get e k with inl v => v = m !! k | inr _ => True end;
  ad_put_spec e m k v : ad_rep e m ->
    let '(e', err) := ad_put e k v in
    match err with None => ad_rep e' (<[k := v]> m) | Some _ => ad_rep e' m end;
  ad_delete_spec e m k : ad_rep e m ->
    let '(e', err) := ad_delete e k in
    match err with None => ad_rep e' (delete k m) | Some _ => ad_rep e' m end;
  ad_commit_spec e m ops : ad_rep e m ->
    let '(e', err) := ad_commit e ops in
    match err with None => ad_rep e' (apply_ops m ops) | Some _ => ad_rep e' m end;
  ad_scan_spec e m start n : ad_rep e m ->
    match ad_scan e start n with
    | inl rows => rows `prefix_of` take n (entries_from m start)
    | inr _ => True
    end;
  ad_get_ok e m k v : ad_rep e m -> ad_ok e -> ad_valid k v -> ad_get e k = inl (m !! k);
  ad_put_ok e m k v : ad_rep e m -> ad_ok e -> ad_valid k v ->
    (ad_put e k v).2 = None /\ ad_ok (ad_put e k v).1;
  ad_delete_ok e m k v : ad_rep e m -> ad_ok e -> ad_valid k v ->
    (ad_delete e k).2 = None /\ ad_ok (ad_delete e k).1;
  ad_commit_ok e m ops : ad_rep e m -> ad_ok e -> Forall (op_valid ad_valid) ops ->
    (ad_commit e ops).2 = None /\ ad_ok (ad_commit e ops).1;
  ad_scan_ok e m start n : ad_rep e m -> ad_ok e ->
    ad_scan e start n = inl (take n (entries_from m start)) }.

Section Client.
Context {E : Type} `{Adapter E}.

(** The store accepts what the request asks for. *)
Definition areq_valid (r : areq) : Prop :=
  match r with
  | AGet k => exists v, ad_valid k v
  | AWrite o => op_valid ad_valid o
  | ABatch ops => Forall (op_valid ad_valid) ops
  | AScan _ _ => True
  end.

Lemma request_accounts (e : E) m r :
  ad_rep e m ->
  exists m', accounts1 m r (run_request e r).1 m' /\ ad_rep (run_request e r).2 m'.
Proof.
  intros Hr. destruct r as [k|o|ops|start n]; cbn.
  - pose proof (ad_get_spec e m k Hr) as Hg. exists m. by destruct (ad_get e k).
  - unfold apply_op. destruct (op_del o).
    + pose proof (ad_delete_spec e m (op_k o) Hr) as Hd.
      destruct (ad_delete e (op_k o)) as [e' [err|]]; cbn; eexists; (split; [reflexivity|done]).
    + pose proof (ad_put_spec e m (op_k o) (op_v o) Hr) as Hd.
      destruct (ad_put e (op_k o) (op_v o)) as [e' [err|]]; cbn; eexists; (split; [reflexivity|done]).
  - pose proof (ad_commit_spec e m ops Hr) as Hd.
    destruct (ad_commit e ops) as [e' [err|]]; cbn; eexists; (split; [reflexivity|done]).
  - pose proof (ad_scan_spec e m start n Hr) as Hg. exists m. by destruct (ad_scan e start n).
Qed.

(** Exactly the acknowledged writes are in the store, and every answer is the
    map's answer at that point, an error, or the first rows of a scan. *)
Lemma requests_account rs : forall (e : E) m,
  ad_rep e m ->
  exists m', accounts m rs (run_requests e rs).1 m' /\ ad_rep (run_requests e rs).2 m'.
Proof.
  induction rs as [|r rs IH]; intros e m Hr; cbn; [by exists m|].
  destruct (request_accounts e m r Hr) as (m1 & Ha & Hr1). destruct (run_request e r) as [a e1].
  destruct (IH e1 m1 Hr1) as (m2 & Hacc & Hr2). destruct (run_requests e1 rs) as [ans e2]. cbn in *. eauto 6.
Qed.

Lemma request_ok (e : E) m r :
  ad_rep e m -> ad_ok e -> areq_valid r ->
  (run_request e r).1 = (map_request m r).1 /\ ad_rep (run_request e r).2 (map_request m r).2 /\
  ad_ok (run_request e r).2.
Proof.
  intros Hr Hok Hv. destruct r as [k|o|ops|start n]; cbn in *.
  - destruct Hv as [v Hv]. by rewrite (ad_get_ok e m k v).
  - unfold apply_op, op_valid in *. destruct (op_del o).
    + pose proof (ad_delete_spec e m (op_k o) Hr) as Hd. destruct Hv as [v Hv].
      destruct (ad_delete_ok e m (op_k o) v Hr Hok Hv) as [Hn Hok'].
      destruct (ad_delete e (op_k o)) as [e' err]. cbn in *. by subst.
    + pose proof (ad_put_spec e m (op_k o) (op_v o) Hr) as Hd.
      destruct (ad_put_ok e m (op_k o) (op_v o) Hr Hok Hv) as [Hn Hok'].
      destruct (ad_put e (op_k o) (op_v o)) as [e' err]. cbn in *. by subst.
  - pose proof (ad_commit_spec e m ops Hr) as Hd. destruct (ad_commit_ok e m ops Hr Hok Hv) as [Hn Hok'].
    destruct (ad_commit e ops) as [e' err]. cbn in *. by subst.
  - by rewrite (ad_scan_ok e m).
Qed.

(** Over a store that does not fail, the adapter is the map. *)
Lemma requests_ok rs : forall (e : E) m,
  ad_rep e m -> ad_ok e -> Forall areq_valid rs ->
  (run_requests e rs).1 = (map_requests m rs).1 /\
  ad_rep (run_requests e rs).2 (map_requests m rs).2.
Proof.
  induction rs as [|r rs IH]; intros e m Hr Hok Hv; cbn; [done|]. apply Forall_cons in Hv as [Hv Hvs].
  destruct (request_ok e m r Hr Hok Hv) as (Ha & Hr1 & Hok1).
  destruct (run_request e r) as [a e1], (map_request m r) as [a' m1]. cbn in *. subst a'.
  destruct (IH e1 m1 Hr1 Hok1 Hvs) as [Hans Hr2].
  destruct (run_requests e1 rs) as [ans e2], (map_requests m1 rs) as [ans' m2]. cbn in *. by subst.
Qed.

(** The whole contract over a sequence of requests: exactly the acknowledged
    writes took effect and no answer is wrong, and over a store that does not
    fail the answers are the map's. *)
Definition honours (e : E) (m : gmap bytes bytes) (rs : list areq) : Prop :=
  (exists m', accounts m rs (run_requests e rs).1 m' /\ ad_rep (run_requests e rs).2 m') /\
  (ad_ok e -> Forall areq_valid rs ->
   (run_requests e rs).1 = (map_requests m rs).1 /\
   ad_rep (run_requests e rs).2 (map_requests m rs).2).

Lemma adapter_honours e m rs : ad_rep e m -> honours e m rs.
Proof. intros Hr. split; [by apply requests_account|]. intros. by apply requests_ok. Qed.
End Client.

(** ** Batches *)

(** The calls of a client that puts [l] into a batch. *)
Definition build_batch {B} (new : B) (put : B -> bytes -> bytes -> B) (del : B -> bytes -> B)
    (l : list memOp) : B :=
  foldl (fun b o => if op_del o then del b (op_k o) else put b (op_k o) (op_v o)) new l.

(** Building a batch records its writes in order; a delete carries no value. *)
Definition norm_op (o : memOp) : memOp := if op_del o then DelOp (op_k o) else o.

Lemma build_batch_ops {B} (ops : B -> list memOp) new put del :
  ops new = [] -> (forall b k v, ops (put b k v) = ops b ++ [PutOp k v]) ->
  (forall b k, ops (del b k) = ops b ++ [DelOp k]) ->
  forall l, ops (build_batch new put del l) = norm_op <$> l.
Proof.
  intros Hn Hp Hd l. unfold build_batch. induction l as [|o l IH] using rev_ind; [done|].
  rewrite foldl_app, fmap_app, <- IH. cbn. unfold norm_op. destruct o as [[] k v]; cbn; [apply Hd|apply Hp].
Qed.

Lemma apply_norm_op m o : apply_op m (norm_op o) = apply_op m o.
Proof. unfold norm_op, apply_op. by destruct (op_del o) eqn:E; cbn; rewrite ?E. Qed.

Lemma apply_norm_ops ops m : apply_ops m (norm_op <$> ops) = apply_ops m ops.
Proof.
  revert m. induction ops as [|o ops IH]; intros m; [done|]. unfold apply_ops in *. cbn.
  by rewrite apply_norm_op, IH.
Qed.

Lemma norm_op_valid valid o : op_valid valid o -> op_valid valid (norm_op o).
Proof. intros Ho. unfold op_valid, norm_op in *. by destruct (op_del o) eqn:E; cbn; rewrite ?E. Qed.

Lemma norm_ops_valid valid l : Forall (op_valid valid) l -> Forall (op_valid valid) (norm_op <$> l).
Proof. intros Hv. apply Forall_fmap. eapply Forall_impl; [exact Hv|]. intros o. apply norm_op_valid. Qed.

(** ** Rows from a cursor

    An iterator whose [Next] walks a list of rows, and one whose [Next] may
    stop before the end of it. *)

Section Rows.
Context {I : Type} (next : I -> bool * I) (key value : I -> bytes).
Context (at_rows : I -> list (bytes * bytes) -> Prop).

Lemma read_rows_all :
  (forall it rows, at_rows it rows -> exists it',
     next it = (match rows with [] => false | _ => true end, it') /\
     match rows with [] => True | kv :: rows' => (key it', value it') = kv /\ at_rows it' rows' end) ->
  forall n it rows, at_rows it rows -> read_rows next key value n it = take n rows.
Proof.
  intros Hstep. induction n as [|n IH]; intros it rows Hat; [done|]. cbn [read_rows].
  destruct (Hstep it rows Hat) as (it' & -> & Hrest). destruct rows as [|kv rows]; [done|].
  destruct Hrest as [-> Hat']. cbn [take]. f_equal. by apply IH.
Qed.

Lemma read_rows_prefix :
  (forall it rows, at_rows it rows -> (next it).1 = true ->
     exists kv rows', rows = kv :: rows' /\ (key (next it).2, value (next it).2) = kv /\
       at_rows (next it).2 rows') ->
  forall n it rows, at_rows it rows -> read_rows next key value n it `prefix_of` take n rows.
Proof.
  intros Hstep. induction n as [|n IH]; intros it rows Hat; [done|]. cbn [read_rows].
  specialize (Hstep it rows Hat). destruct (next it) as [[] it']; [|apply prefix_nil].
  destruct (Hstep eq_refl) as (kv & rows' & -> & Hkv & Hat'). cbn in Hkv, Hat'. rewrite Hkv. cbn [take].
  apply prefix_cons. by apply IH.
Qed.
End Rows.
