(* ===== verification/TxStore.v ===== *)
(** * Transactional stores

    What the bbolt, buntdb, LMDB and libmdbx adapters share.  Each runs its
    calls as closures in the store's read and write transactions and buffers a
    batch until [Commit] runs it in one write transaction.  The stores are
    parameters: their operations are the classes of the first section, with
    the documented laws the adapters rely on; a map with a failure switch is
    the store the witnesses use. *)

From stdpp Require Import sorting.
From S2P Require Import Prelude Codec Engine Ordered Adapter.
Local Open Scope go_scope.

(** ** The stores *)

(** [View] and [Update]: run a closure in a read or a write transaction.  The
    closure of [View] returns what it captured and an error; the closure of
    [Update] the transaction as it leaves it and an error. *)
Class TxnDB (DB Tx : Type) := {
  txn_view : forall A : Type, DB -> A -> (Tx -> A * option serr) -> A * option serr;
  txn_update : DB -> (Tx -> Tx * option serr) -> DB * option serr }.
Arguments txn_view {DB Tx _ A}.

Class TxnDBLaws (DB Tx : Type) `{TxnDB DB Tx} := {
  db_rep : DB -> gmap bytes bytes -> Prop;
  db_ok : DB -> Prop;
  tx_rep : Tx -> gmap bytes bytes -> Prop;
  tx_ok : Tx -> Prop;
  (** A read transaction sees the map; it may fail to start. *)
  view_law A db m (a : A) fn : db_rep db m ->
    (exists err, txn_view db a fn = (a, Some err)) \/
    (exists t, tx_rep t m /\ txn_view db a fn = fn t);
  view_ok A db m (a : A) fn : db_rep db m -> db_ok db ->
    exists t, tx_rep t m /\ tx_ok t /\ txn_view db a fn = fn t;
  (** A write transaction is all or nothing, and an error of the closure rolls
      it back. *)
  update_law db m fn : db_rep db m ->
    let '(db', err) := txn_update db fn in
    match err with
    | Some _ => db_rep db' m
    | None => exists t t', tx_rep t m /\ fn t = (t', None) /\
                forall m', tx_rep t' m' -> db_rep db' m'
    end;
  update_ok db m fn : db_rep db m -> db_ok db ->
    (forall t, tx_rep t m -> tx_ok t -> (fn t).2 = None) ->
    (txn_update db fn).2 = None /\ db_ok (txn_update db fn).1 }.

(** Keyed calls of a transaction that report an absent key as an error
    (buntdb, LMDB, libmdbx). *)
Class KeyTx (Tx : Type) := {
  tx_get : Tx -> bytes -> bytes + serr;
  tx_put : Tx -> bytes -> bytes -> Tx * option serr;
  tx_del : Tx -> bytes -> Tx * option serr }.

Class KeyTxLaws (DB Tx : Type) `{TxnDBLaws DB Tx} `{KeyTx Tx} := {
  tx_valid : bytes -> bytes -> Prop;
  tx_get_law t m k : tx_rep t m ->
    match tx_get t k with
    | inl v => m !! k = Some v
    | inr ErrNotFound => m !! k = None
    | inr (ErrStore _) => True
    end;
  tx_put_law t m k v : tx_rep t m ->
    let '(t', err) := tx_put t k v in
    match err with None => tx_rep t' (<[k := v]> m) | Some _ => True end;
  tx_del_law t m k : tx_rep t m ->
    let '(t', err) := tx_del t k in
    match err with
    | None => tx_rep t' (delete k m)
    | Some ErrNotFound => tx_rep t' m /\ m !! k = None
    | Some (ErrStore _) => True
    end;
  tx_get_ok t k v : tx_ok t -> tx_valid k v -> forall msg, tx_get t k <> inr (ErrStore msg);
  tx_put_ok t k v : tx_ok t -> tx_valid k v -> (tx_put t k v).2 = None /\ tx_ok (tx_put t k v).1;
  tx_del_ok t k v : tx_ok t -> tx_valid k v ->
    (forall msg, (tx_del t k).2 <> Some (ErrStore msg)) /\ tx_ok (tx_del t k).1 }.

(** Keyed calls on a bolt bucket: an absent key is a nil value, deleting it is
    no error. *)
Class BoltTx (Tx : Type) := {
  bk_get : Tx -> bytes -> option bytes;
  bk_put : Tx -> bytes -> bytes -> Tx * option serr;
  bk_del : Tx -> bytes -> Tx * option serr }.

Class BoltTxLaws (DB Tx : Type) `{TxnDBLaws DB Tx} `{BoltTx Tx} := {
  bk_valid : bytes -> bytes -> Prop;
  bk_get_law t m k : tx_rep t m -> bk_get t k = m !! k;
  bk_put_law t m k v : tx_rep t m ->
    let '(t', err) := bk_put t k v in
    match err with None => tx_rep t' (<[k := v]> m) | Some _ => True end;
  bk_del_law t m k : tx_rep t m ->
    let '(t', err) := bk_del t k in
    match err with None => tx_rep t' (delete k m) | Some _ => True end;
  bk_put_ok t k v : tx_ok t -> bk_valid k v -> (bk_put t k v).2 = None /\ tx_ok (bk_put t k v).1;
  bk_del_ok t k v : tx_ok t -> bk_valid k v -> (bk_del t k).2 = None /\ tx_ok (bk_del t k).1 }.

(** A cursor of a read transaction, positioned by a seek and moved by next.
    bolt's returns a nil key at the end. *)
Class BoltCursor (DB Cur : Type) := {
  bc_open : DB -> Cur + serr;
  bc_seek : Cur -> bytes -> Cur * option (bytes * bytes);
  bc_next : Cur -> Cur * option (bytes * bytes) }.

(** [bc_on c m]: a fresh cursor over the snapshot [m].  [bc_at c rows]: the
    rows after the one last returned. *)
Class BoltCursorLaws (DB Tx Cur : Type) `{TxnDBLaws DB Tx} `{BoltCursor DB Cur} := {
  bc_on : Cur -> gmap bytes bytes -> Prop;
  bc_at : Cur -> list (bytes * bytes) -> Prop;
  bc_open_law db m : db_rep db m -> match bc_open db with inl c => bc_on c m | inr _ => True end;
  bc_open_ok db m : db_rep db m -> db_ok db -> exists c, bc_open db = inl c;
  bc_seek_law c m k : bc_on c m ->
    (bc_seek c k).2 = head (entries_from m k) /\ bc_at (bc_seek c k).1 (tail (entries_from m k));
  bc_next_law c rows : bc_at c rows ->
    (bc_next c).2 = head rows /\ bc_at (bc_next c).1 (tail rows) }.

(** LMDB's cursor returns an error at the end, and any other error as well. *)
Class MdbCursor (DB Cur : Type) := {
  mc_open : DB -> Cur + serr;
  mc_setRange : Cur -> bytes -> Cur * ((bytes * bytes) + serr);
  mc_next : Cur -> Cur * ((bytes * bytes) + serr) }.

Class MdbCursorLaws (DB Tx Cur : Type) `{TxnDBLaws DB Tx} `{MdbCursor DB Cur} := {
  mc_on : Cur -> gmap bytes bytes -> Prop;
  mc_at : Cur -> list (bytes * bytes) -> Prop;
  mc_ok : Cur -> Prop;
  mc_open_law db m : db_rep db m -> match mc_open db with inl c => mc_on c m | inr _ => True end;
  mc_open_ok db m : db_rep db m -> db_ok db -> exists c, mc_open db = inl c /\ mc_ok c;
  mc_setRange_law c m k : mc_on c m ->
    match (mc_setRange c k).2 with
    | inl kv => exists rows, entries_from m k = kv :: rows /\ mc_at (mc_setRange c k).1 rows
    | inr _ => mc_ok c -> entries_from m k = []
    end;
  mc_setRange_ok c k : mc_ok c -> mc_ok (mc_setRange c k).1;
  mc_next_law c rows : mc_at c rows ->
    match (mc_next c).2 with
    | inl kv => exists rows', rows = kv :: rows' /\ mc_at (mc_next c).1 rows'
    | inr _ => mc_ok c -> rows = []
    end;
  mc_next_ok c : mc_ok c -> mc_ok (mc_next c).1 }.

(** A fresh slice with the bytes of another: [append([]byte(nil), v...)]. *)
Definition copyBytes (v : bytes) : bytes := v.

(** What [Get] returns: the captured [out] and [found] with the error of the
    transaction. *)
Definition getReturn (r : (bytes * bool) * option serr) : option bytes + serr :=
  match r with
  | (_, Some err) => inr err
  | ((out, found), None) => inl (if found : bool then Some out else None)
  end.

Section Transactions.
Context {DB Tx : Type} `{TxnDBLaws DB Tx}.

(** An update whose closure turns a transaction on [m] into one on [f m]. *)
Lemma update_spec (db : DB) m fn f :
  db_rep db m ->
  (forall t t', tx_rep t m -> fn t = (t', None) -> tx_rep t' (f m)) ->
  let '(db', err) := txn_update db fn in
  match err with None => db_rep db' (f m) | Some _ => db_rep db' m end.
Proof.
  intros Hr Hf. pose proof (update_law db m fn Hr) as Hu. destruct (txn_update db fn) as [db' [err|]]; [done|].
  destruct Hu as (t & t' & Ht & Hfn & Hdb). apply Hdb. by apply (Hf t t').
Qed.
End Transactions.

(** A loop over the writes of a batch inside one transaction. *)
Section CommitLoop.
Context {Tx : Type} (write : Tx -> memOp -> Tx * option serr).

Fixpoint writeAll (tx : Tx) (ops : list memOp) : Tx * option serr :=
  match ops with
  | [] => (tx, None)
  | o :: ops' =>
      let '(tx', err) := write tx o in
      match err with Some e => (tx', Some e) | None => writeAll tx' ops' end
  end.

Lemma writeAll_spec (rep : Tx -> gmap bytes bytes -> Prop) :
  (forall t m o t', rep t m -> write t o = (t', None) -> rep t' (apply_op m o)) ->
  forall ops t m t', rep t m -> writeAll t ops = (t', None) -> rep t' (apply_ops m ops).
Proof.
  intros Hw. induction ops as [|o ops IH]; intros t m t' Hr Hc; cbn in Hc; [by simplify_eq|].
  destruct (write t o) as [t1 [err|]] eqn:Ho; [done|]. eapply IH; [|done]. by eapply Hw.
Qed.

Lemma writeAll_ok (ok : Tx -> Prop) (valid : memOp -> Prop) :
  (forall t o, ok t -> valid o -> (write t o).2 = None /\ ok (write t o).1) ->
  forall ops t, ok t -> Forall valid ops -> (writeAll t ops).2 = None.
Proof.
  intros Hw. induction ops as [|o ops IH]; intros t Ht Hv; [done|]. apply Forall_cons in Hv as [Ho Hv].
  destruct (Hw t o Ht Ho) as [Hn Ht']. cbn. destruct (write t o) as [t1 err]. cbn in *. subst. by apply IH.
Qed.
End CommitLoop.

(** ** Closures over a transaction that reports absent keys as errors *)

Section KeyClosures.
Context {DB Tx : Type} `{TxnDBLaws DB Tx} `{!KeyTx Tx} `{!KeyTxLaws DB Tx}.
Implicit Types (db : DB) (t : Tx).

(** Read a key; an absent one is not an error. *)
Definition keyRead (key : bytes) t : (bytes * bool) * option serr :=
  match tx_get t key with
  | inr ErrNotFound => (([], false), None)
  | inr err => (([], false), Some err)
  | inl v => ((copyBytes v, true), None)
  end.

(** Delete a key; an absent one is not an error. *)
Definition keyDel t (key : bytes) : Tx * option serr :=
  let '(t', err) := tx_del t key in
  if bool_decide (err = Some ErrNotFound) then (t', None) else (t', err).

Definition keyWrite t (o : memOp) : Tx * option serr :=
  if op_del o then
    let '(t', e) := tx_del t (op_k o) in
    if bool_decide (e <> None /\ e <> Some ErrNotFound) then (t', e) else (t', None)
  else tx_put t (op_k o) (op_v o).

Lemma keyRead_spec t m k :
  tx_rep t m -> match getReturn (keyRead k t) with inl v => v = m !! k | inr _ => True end.
Proof.
  intros Ht. pose proof (tx_get_law t m k Ht) as Hl. unfold keyRead.
  by destruct (tx_get t k) as [v|[|msg]].
Qed.

Lemma keyGet_spec db m k :
  db_rep db m ->
  match getReturn (txn_view db ([], false) (keyRead k)) with inl v => v = m !! k | inr _ => True end.
Proof.
  intros Hr. destruct (view_law _ db m ([], false) (keyRead k) Hr) as [[err ->]|(t & Ht & ->)]; [done|].
  by apply keyRead_spec.
Qed.

Lemma keyGet_ok db m k v :
  db_rep db m -> db_ok db -> tx_valid k v ->
  getReturn (txn_view db ([], false) (keyRead k)) = inl (m !! k).
Proof.
  intros Hr Hok Hv. destruct (view_ok _ db m ([], false) (keyRead k) Hr Hok) as (t & Ht & Htok & ->).
  pose proof (tx_get_law t m k Ht) as Hl. pose proof (tx_get_ok t k v Htok Hv) as Hne. unfold keyRead.
  destruct (tx_get t k) as [w|[|msg]]; cbn; [by rewrite Hl..|]. by destruct (Hne msg).
Qed.

Lemma keyPut_spec db m k v :
  db_rep db m ->
  let '(db', err) := txn_update db (fun t => tx_put t k v) in
  match err with None => db_rep db' (<[k := v]> m) | Some _ => db_rep db' m end.
Proof.
  intros Hr. apply (update_spec db m (fun t => tx_put t k v) (insert k v) Hr). intros t t' Ht Hw.
  pose proof (tx_put_law t m k v Ht) as Hl. by rewrite Hw in Hl.
Qed.

Lemma keyDel_spec t m k t' : tx_rep t m -> keyDel t k = (t', None) -> tx_rep t' (delete k m).
Proof.
  intros Ht. pose proof (tx_del_law t m k Ht) as Hl. unfold keyDel.
  destruct (tx_del t k) as [t1 [[|msg]|]]; cbn; intros [= <-]; try done.
  destruct Hl as [Hl Hn]. by rewrite delete_id.
Qed.

Lemma keyDelete_spec db m k :
  db_rep db m ->
  let '(db', err) := txn_update db (fun t => keyDel t k) in
  match err with None => db_rep db' (delete k m) | Some _ => db_rep db' m end.
Proof.
  intros Hr. apply (update_spec db m (fun t => keyDel t k) (delete k) Hr). intros t t' Ht Hw.
  by eapply keyDel_spec.
Qed.

Lemma keyWrite_del t o : op_del o = true -> keyWrite t o = keyDel t (op_k o).
Proof.
  intros Ho. unfold keyWrite, keyDel. rewrite Ho. destruct (tx_del t (op_k o)) as [t' [[|msg]|]]; done.
Qed.

Lemma keyWrite_spec t m o t' : tx_rep t m -> keyWrite t o = (t', None) -> tx_rep t' (apply_op m o).
Proof.
  intros Ht Hw. unfold apply_op. destruct (op_del o) eqn:Ho.
  - rewrite keyWrite_del in Hw by done. by eapply keyDel_spec.
  - unfold keyWrite in Hw. rewrite Ho in Hw. pose proof (tx_put_law t m (op_k o) (op_v o) Ht) as Hl.
    by rewrite Hw in Hl.
Qed.

Lemma keyCommit_spec db m ops :
  db_rep db m ->
  let '(db', err) := txn_update db (fun t => writeAll keyWrite t ops) in
  match err with None => db_rep db' (apply_ops m ops) | Some _ => db_rep db' m end.
Proof.
  intros Hr. apply (update_spec db m _ (fun m => apply_ops m ops) Hr). intros t t' Ht Hw.
  eapply (writeAll_spec keyWrite tx_rep); eauto using keyWrite_spec.
Qed.

Lemma keyPut_ok db m k v :
  db_rep db m -> db_ok db -> tx_valid k v ->
  (txn_update db (fun t => tx_put t k v)).2 = None /\ db_ok (txn_update db (fun t => tx_put t k v)).1.
Proof. intros Hr Hok Hv. apply (update_ok db m); [done..|]. intros t _ Ht. by eapply tx_put_ok. Qed.

Lemma keyDel_ok t k v : tx_ok t -> tx_valid k v -> (keyDel t k).2 = None /\ tx_ok (keyDel t k).1.
Proof.
  intros Ht Hv. destruct (tx_del_ok t k v Ht Hv) as [Hne Hok]. unfold keyDel.
  destruct (tx_del t k) as [t' [[|msg]|]]; cbn in *; try done. by destruct (Hne msg).
Qed.

Lemma keyDelete_ok db m k v :
  db_rep db m -> db_ok db -> tx_valid k v ->
  (txn_update db (fun t => keyDel t k)).2 = None /\ db_ok (txn_update db (fun t => keyDel t k)).1.
Proof. intros Hr Hok Hv. apply (update_ok db m); [done..|]. intros t _ Ht. by eapply keyDel_ok. Qed.

Lemma keyWrite_ok t o :
  tx_ok t -> op_valid tx_valid o -> (keyWrite t o).2 = None /\ tx_ok (keyWrite t o).1.
Proof.
  intros Ht Hv. unfold op_valid in Hv. destruct (op_del o) eqn:Ho.
  - rewrite keyWrite_del by done. destruct Hv as [v Hv]. by eapply keyDel_ok.
  - unfold keyWrite. rewrite Ho. by eapply tx_put_ok.
Qed.

Lemma keyCommit_ok db m ops :
  db_rep db m -> db_ok db -> Forall (op_valid tx_valid) ops ->
  (txn_update db (fun t => writeAll keyWrite t ops)).2 = None /\
  db_ok (txn_update db (fun t => writeAll keyWrite t ops)).1.
Proof.
  intros Hr Hok Hv. apply (update_ok db m); [done..|]. intros t _ Ht.
  eapply (writeAll_ok keyWrite tx_ok); eauto using keyWrite_ok.
Qed.
End KeyClosures.

(** ** A store that meets the laws

    A map with a switch that makes every commit fail, and no empty keys. *)

Record memDB := MkMemDB { md_map : gmap bytes bytes; md_full : bool }.
Record memTx := MkMemTx { mt_map : gmap bytes bytes }.
Record memCur := MkMemCur { mu_map : gmap bytes bytes; mu_rows : list (bytes * bytes) }.

#[global] Instance memDB_txn : TxnDB memDB memTx := {
  txn_view A db a fn := fn (MkMemTx (md_map db));
  txn_update db fn :=
    match fn (MkMemTx (md_map db)) with
    | (_, Some err) => (db, Some err)
    | (t, None) => if md_full db then (db, Some (ErrStore "disk full")) else (MkMemDB (mt_map t) false, None)
    end }.

#[global] Instance memDB_laws : TxnDBLaws memDB memTx.
Proof.
  refine {| db_rep db m := md_map db = m; db_ok db := md_full db = false;
            tx_rep t m := mt_map t = m; tx_ok t := True |}.
  - intros A db m a fn <-. right. by exists (MkMemTx (md_map db)).
  - intros A db m a fn <- _. by exists (MkMemTx (md_map db)).
  - intros db m fn <-. cbn. destruct (fn _) as [t [err|]] eqn:E; [done|].
    destruct (md_full db); [done|]. exists (MkMemTx (md_map db)), t. naive_solver.
  - intros db m fn <- Hok Hfn. cbn. specialize (Hfn (MkMemTx (md_map db)) eq_refl I).
    destruct (fn _) as [t [err|]]; [done|]. by rewrite Hok.
Defined.

Definition memDel (t : memTx) (k : bytes) : memTx := MkMemTx (delete k (mt_map t)).
Definition memPut (t : memTx) (k v : bytes) : memTx * option serr :=
  match k with
  | [] => (t, Some (ErrStore "empty key"))
  | _ => (MkMemTx (<[k := v]> (mt_map t)), None)
  end.

#[global] Instance memTx_key : KeyTx memTx := {
  tx_get t k := match mt_map t !! k with Some v => inl v | None => inr ErrNotFound end;
  tx_put := memPut;
  tx_del t k := match mt_map t !! k with Some _ => (memDel t k, None) | None => (t, Some ErrNotFound) end }.

#[global] Instance memTx_key_laws : KeyTxLaws memDB memTx.
Proof.
  refine {| tx_valid k v := k <> [] |}; unfold tx_rep; cbn.
  - intros t m k <-. by destruct (mt_map t !! k).
  - intros t m k v <-. by destruct k.
  - intros t m k <-. by destruct (mt_map t !! k) eqn:E.
  - intros t k v _ _ msg. by destruct (mt_map t !! k).
  - intros t k v _ Hk. by destruct k.
  - intros t k v _ _. by destruct (mt_map t !! k).
Defined.

#[global] Instance memTx_bolt : BoltTx memTx := {
  bk_get t k := mt_map t !! k;
  bk_put := memPut;
  bk_del t k := (memDel t k, None) }.

#[global] Instance memTx_bolt_laws : BoltTxLaws memDB memTx.
Proof.
  refine {| bk_valid k v := k <> [] |}; unfold tx_rep; cbn; try done.
  - by intros t m k <-.
  - intros t m k v <-. by destruct k.
  - by intros t m k <-.
  - intros t k v _ Hk. by destruct k.
Defined.

#[global] Instance mem_bolt_cursor : BoltCursor memDB memCur := {
  bc_open db := inl (MkMemCur (md_map db) []);
  bc_seek c k := (MkMemCur (mu_map c) (tail (entries_from (mu_map c) k)), head (entries_from (mu_map c) k));
  bc_next c := (MkMemCur (mu_map c) (tail (mu_rows c)), head (mu_rows c)) }.

#[global] Instance mem_bolt_cursor_laws : BoltCursorLaws memDB memTx memCur.
Proof.
  refine {| bc_on c m := mu_map c = m; bc_at c rows := mu_rows c = rows |}; unfold db_rep; cbn.
  - by intros db m <-.
  - intros db m _ _. by eexists.
  - by intros c m k <-.
  - by intros c rows <-.
Defined.

Definition memRow (rows : list (bytes * bytes)) : (bytes * bytes) + serr :=
  match rows with kv :: _ => inl kv | [] => inr ErrNotFound end.

#[global] Instance mem_mdb_cursor : MdbCursor memDB memCur := {
  mc_open db := inl (MkMemCur (md_map db) []);
  mc_setRange c k := (MkMemCur (mu_map c) (tail (entries_from (mu_map c) k)), memRow (entries_from (mu_map c) k));
  mc_next c := (MkMemCur (mu_map c) (tail (mu_rows c)), memRow (mu_rows c)) }.

#[global] Instance mem_mdb_cursor_laws : MdbCursorLaws memDB memTx memCur.
Proof.
  refine {| mc_on c m := mu_map c = m; mc_at c rows := mu_rows c = rows; mc_ok c := True |};
    unfold db_rep; cbn; try done.
  - intros db m _ _. by exists (MkMemCur (md_map db) []).
  - intros c m k <-. destruct (entries_from (mu_map c) k) as [|kv rows]; [done|]. by exists rows.
  - intros c rows <-. destruct (mu_rows c) as [|kv rows]; [done|]. by exists rows.
Defined.

(** Writes, a refused empty key alone and inside a batch, reads and scans. *)
Definition demo_requests : list areq :=
  let a := [Byte.x61] in let b := [Byte.x62] in let c := [Byte.x63] in
  [AWrite (PutOp b [Byte.x01]); AWrite (PutOp [] [Byte.x02]); AGet b; AGet a;
   ABatch [PutOp a [Byte.x03]; DelOp c; PutOp c []]; AScan a 2; AScan [] 10;
   ABatch [DelOp b; PutOp [] []]; AGet b; AWrite (DelOp b); AWrite (DelOp b); AScan b 5].
