(* ===== verification/Bbolt.v ===== *)
(** * The bbolt adapter (adapters/bbolt/bbolt.go)

    Every call is a closure in a bolt transaction on one bucket; a scan walks a
    cursor of a read transaction. *)

From S2P Require Import Prelude Codec Engine Ordered Adapter TxStore.
Local Open Scope go_scope.

Definition bucket : string := "kvbench".

Definition engMeta : Meta :=
  MkMeta "bbolt" FamilyCOWBTree ModeInProc "" "v1.3" ""
    (MkCapabilities true true true true true true true)
    [MkAsterisk "default-durability" "the default fsyncs the data file on every commit; bbolt has no async mode, so its out-of-box durability is the strongest and the slowest on writes in this field";
     MkAsterisk "normal-is-full" "bbolt fsyncs every commit and has no periodic-flush mode, so NORMAL durability behaves exactly like FULL here"]
    false.

(** The calls of [Open]; a path is the list of elements given to
    [filepath.Join]. *)
Inductive call :=
| BoltOpen (path : list string) (noSync : bool)
| CreateBucketIfNotExists (name : string).

Definition openNoSync (cfg : Config) : bool := bool_decide (CfgSynchronous cfg = "OFF").

Definition Open (fails : call -> option serr) (cfg : Config) : list call * option serr :=
  run_steps fails []
    [(BoltOpen [CfgDir cfg; "data.db"] (openNoSync cfg), false);
     (CreateBucketIfNotExists bucket, false)].

(** bolt fsyncs each commit unless NoSync is set. *)
Definition openDurability (cfg : Config) : durability := if openNoSync cfg then SyncNever else SyncCommit.

(** An opened engine; the store's transaction and cursor types come with it. *)
Record eng (DB Tx Cur : Type) := MkEng { e_db : DB }.
Arguments MkEng {DB Tx Cur}.
Arguments e_db {DB Tx Cur}.

Record batch := MkBatch { ops : list memOp }.
Definition NewBatch : batch := MkBatch [].
Definition batchPut (b : batch) (k v : bytes) : batch :=
  MkBatch (ops b ++ [PutOp (copyBytes k) (copyBytes v)]).
Definition batchDelete (b : batch) (k : bytes) : batch := MkBatch (ops b ++ [DelOp (copyBytes k)]).
Definition batchLen (b : batch) : Z := len (ops b).

Record iter (Cur : Type) := MkIter {
  i_c : Cur; i_start : bytes; i_first : bool; i_k : option bytes; i_v : bytes }.
Arguments MkIter {Cur}.
Arguments i_c {Cur}.
Arguments i_start {Cur}.
Arguments i_first {Cur}.
Arguments i_k {Cur}.
Arguments i_v {Cur}.

Section Ops.
Context {DB Tx Cur : Type} `{TxnDB DB Tx, BoltTx Tx, BoltCursor DB Cur}.

Definition Get (db : DB) (key : bytes) : option bytes + serr :=
  getReturn (txn_view db ([], false) (fun tx : Tx =>
    match bk_get tx key with
    | Some v => ((copyBytes v, true), None)
    | None => (([], false), None)
    end)).

Definition Put (db : DB) (key value : bytes) : DB * option serr :=
  txn_update db (fun tx : Tx => bk_put tx key value).

Definition Delete (db : DB) (key : bytes) : DB * option serr :=
  txn_update db (fun tx : Tx => bk_del tx key).

Definition commitWrite (tx : Tx) (o : memOp) : Tx * option serr :=
  if op_del o then bk_del tx (op_k o) else bk_put tx (op_k o) (op_v o).

(** The batch is emptied whether or not the transaction commits. *)
Definition Commit (db : DB) (b : batch) : DB * batch * option serr :=
  let '(db', err) := txn_update db (fun tx => writeAll commitWrite tx (ops b)) in
  (db', NewBatch, err).

Definition Scan (db : DB) (start : bytes) : iter Cur + serr :=
  match bc_open db with
  | inr err => inr err
  | inl c => inl (MkIter c start true None [])
  end.

Definition Next (i : iter Cur) : bool * iter Cur :=
  let '(c, kv) := (if i_first i then bc_seek (i_c i) (i_start i) else bc_next (i_c i)) in
  let k := fst <$> kv in
  (bool_decide (is_Some k), MkIter c (i_start i) false k (default [] (snd <$> kv))).

Definition Stats : Stats := MkStats (-1) (-1) (-1) 1 (-1) (-1) (-1).

(** The engine as a client drives it. *)
Definition batchOf (l : list memOp) : batch := build_batch NewBatch batchPut batchDelete l.

Definition scanRows (db : DB) (start : bytes) (n : nat) : list (bytes * bytes) + serr :=
  match Scan db start with
  | inr err => inr err
  | inl it => inl (read_rows Next (fun i => default [] (i_k i)) i_v n it)
  end.

#[global] Instance adapterOps : AdapterOps (eng DB Tx Cur) := {
  ad_get e k := Get (e_db e) k;
  ad_put e k v := let '(db, err) := Put (e_db e) k v in (MkEng db, err);
  ad_delete e k := let '(db, err) := Delete (e_db e) k in (MkEng db, err);
  ad_commit e l := let '(db, _, err) := Commit (e_db e) (batchOf l) in (MkEng db, err);
  ad_scan e start n := scanRows (e_db e) start n }.
End Ops.

(** ** The contract *)

Lemma bbolt_batchOf_ops l : ops (batchOf l) = norm_op <$> l.
Proof. by apply (build_batch_ops ops). Qed.

Section Contract.
Context {DB Tx Cur : Type} `{TxnDBLaws DB Tx} `{!BoltTx Tx} `{!BoltTxLaws DB Tx}
  `{!BoltCursor DB Cur} `{!BoltCursorLaws DB Tx Cur}.
Implicit Types (db : DB) (it : iter Cur).

Lemma commitWrite_spec (t : Tx) m o t' :
  tx_rep t m -> commitWrite t o = (t', None) -> tx_rep t' (apply_op m o).
Proof.
  unfold commitWrite, apply_op. intros Ht Hw. destruct (op_del o).
  - pose proof (bk_del_law t m (op_k o) Ht) as Hl. by rewrite Hw in Hl.
  - pose proof (bk_put_law t m (op_k o) (op_v o) Ht) as Hl. by rewrite Hw in Hl.
Qed.

Lemma commitWrite_ok (t : Tx) o :
  tx_ok t -> op_valid bk_valid o -> (commitWrite t o).2 = None /\ tx_ok (commitWrite t o).1.
Proof.
  unfold commitWrite, op_valid. intros Ht Hv. destruct (op_del o); [|by eapply bk_put_ok].
  destruct Hv as [v Hv]. by eapply bk_del_ok.
Qed.

Lemma Get_db db m k : db_rep db m -> match Get db k with inl v => v = m !! k | inr _ => True end.
Proof.
  intros Hr. unfold Get. destruct (view_law _ db m ([], false) (fun tx : Tx =>
    match bk_get tx k with Some v => ((copyBytes v, true), None) | None => (([], false), None) end) Hr)
    as [[err ->]|(t & Ht & ->)]; [done|]. rewrite (bk_get_law t m) by done. by destruct (m !! k).
Qed.

Lemma Get_db_ok db m k : db_rep db m -> db_ok db -> Get db k = inl (m !! k).
Proof.
  intros Hr Hok. unfold Get. destruct (view_ok _ db m ([], false) (fun tx : Tx =>
    match bk_get tx k with Some v => ((copyBytes v, true), None) | None => (([], false), None) end) Hr Hok)
    as (t & Ht & _ & ->). rewrite (bk_get_law t m) by done. by destruct (m !! k).
Qed.

(** The rows an iterator still has to give. *)
Definition iter_rows it (rows : list (bytes * bytes)) : Prop :=
  if i_first it then exists m, bc_on (i_c it) m /\ rows = entries_from m (i_start it)
  else bc_at (i_c it) rows.

Lemma bbolt_Next_step it rows :
  iter_rows it rows -> exists it',
    Next it = (match rows with [] => false | _ => true end, it') /\
    match rows with
    | [] => True
    | kv :: rows' => (default [] (i_k it'), i_v it') = kv /\ iter_rows it' rows'
    end.
Proof.
  unfold iter_rows, Next. intros Hi. destruct (i_first it).
  - destruct Hi as (m & Hon & ->). destruct (bc_seek_law (i_c it) m (i_start it) Hon) as [Hkv Hat].
    destruct (bc_seek (i_c it) (i_start it)) as [c kv]. cbn in *. subst kv.
    destruct (entries_from m (i_start it)) as [|[k v] rows]; by eexists.
  - destruct (bc_next_law (i_c it) rows Hi) as [Hkv Hat].
    destruct (bc_next (i_c it)) as [c kv]. cbn in *. subst kv.
    destruct rows as [|[k v] rows]; by eexists.
Qed.

Lemma scanRows_db db m start n :
  db_rep db m -> match scanRows db start n with inl rows => rows = take n (entries_from m start) | inr _ => True end.
Proof.
  intros Hr. unfold scanRows, Scan. pose proof (bc_open_law db m Hr) as Ho.
  destruct (bc_open db) as [c|err]; [|done].
  apply (read_rows_all Next (fun i => default [] (i_k i)) i_v iter_rows bbolt_Next_step). by exists m.
Qed.

#[global] Instance adapter : Adapter (eng DB Tx Cur).
Proof.
  refine {| ad_rep e m := db_rep (e_db e) m; ad_ok e := db_ok (e_db e); ad_valid := bk_valid |}.
  - intros e m k Hr. by apply Get_db.
  - intros e m k v Hr. cbn. unfold Put.
    pose proof (update_spec (e_db e) m (fun tx => bk_put tx k v) (insert k v) Hr) as Hu.
    destruct (txn_update _ _) as [db' err]. apply Hu. intros t t' Ht Hw.
    pose proof (bk_put_law t m k v Ht) as Hl. by rewrite Hw in Hl.
  - intros e m k Hr. cbn. unfold Delete.
    pose proof (update_spec (e_db e) m (fun tx => bk_del tx k) (delete k) Hr) as Hu.
    destruct (txn_update _ _) as [db' err]. apply Hu. intros t t' Ht Hw.
    pose proof (bk_del_law t m k Ht) as Hl. by rewrite Hw in Hl.
  - intros e m l Hr. cbn. unfold Commit.
    pose proof (update_spec (e_db e) m (fun tx => writeAll commitWrite tx (ops (batchOf l)))
      (fun m => apply_ops m l) Hr) as Hu.
    destruct (txn_update _ _) as [db' err]. apply Hu. intros t t' Ht Hw. rewrite bbolt_batchOf_ops in Hw.
    rewrite <- apply_norm_ops. eapply (writeAll_spec commitWrite tx_rep); eauto using commitWrite_spec.
  - intros e m start n Hr. cbn. pose proof (scanRows_db (e_db e) m start n Hr) as Hs.
    destruct (scanRows (e_db e) start n); [by subst|done].
  - intros e m k v Hr Hok _. by apply Get_db_ok.
  - intros e m k v Hr Hok Hv. cbn. unfold Put.
    destruct (update_ok (e_db e) m (fun tx => bk_put tx k v) Hr Hok) as [Hn Hok'].
    { intros t _ Ht. by eapply bk_put_ok. }
    by destruct (txn_update _ _) as [db' err].
  - intros e m k v Hr Hok Hv. cbn. unfold Delete.
    destruct (update_ok (e_db e) m (fun tx => bk_del tx k) Hr Hok) as [Hn Hok'].
    { intros t _ Ht. by eapply bk_del_ok. }
    by destruct (txn_update _ _) as [db' err].
  - intros e m l Hr Hok Hv. cbn. unfold Commit.
    destruct (update_ok (e_db e) m (fun tx => writeAll commitWrite tx (ops (batchOf l))) Hr Hok) as [Hn Hok'].
    { intros t _ Ht. rewrite bbolt_batchOf_ops.
      eapply (writeAll_ok commitWrite tx_ok); eauto using commitWrite_ok, norm_ops_valid. }
    by destruct (txn_update _ _) as [db' err].
  - intros e m start n Hr Hok. cbn. pose proof (scanRows_db (e_db e) m start n Hr) as Hs.
    unfold scanRows, Scan in *. destruct (bc_open_ok (e_db e) m Hr Hok) as [c Hc]. rewrite Hc in *. by rewrite Hs.
Defined.
End Contract.

(** [Flush], given the store's call. *)
Definition Flush {DB} (dbSync : DB -> DB * option serr) (db : DB) : DB * option serr := dbSync db.

(** [Close] of an engine that was never opened does nothing. *)
Definition Close {DB} (dbClose : DB -> option serr) (db : option DB) : option serr :=
  match db with Some d => dbClose d | None => None end.

(** C24: the bbolt adapter over any sequence of gets, puts, deletes, batches
    and scans.  Exactly the writes it acknowledged are in the store, a batch
    whole or not at all, every answer is the map's or an error, and over a
    database that does not fail it answers as the map does; a scan gives the
    entries from its start key in byte order. *)
Theorem bbolt_honours {DB Tx Cur} `{TxnDBLaws DB Tx} `{!BoltTx Tx} `{!BoltTxLaws DB Tx}
    `{!BoltCursor DB Cur} `{!BoltCursorLaws DB Tx Cur} (e : eng DB Tx Cur) m rs :
  ad_rep e m -> honours e m rs.
Proof. apply adapter_honours. Qed.

Lemma bbolt_honours_witness :
  honours (MkEng (MkMemDB ∅ false) : eng memDB memTx memCur) ∅ demo_requests.
Proof. apply (bbolt_honours (MkEng (MkMemDB ∅ false) : eng memDB memTx memCur)). reflexivity. Defined.
