(* ===== verification/Lmdb.v ===== *)
(** * The LMDB adapter (adapters/lmdb/lmdb_cgo.go)

    Every call is a closure in an LMDB transaction; an absent key is an error
    of the binding, which the adapter turns into a miss or into nothing. *)

From S2P Require Import Prelude Codec Engine Ordered Adapter TxStore.
Local Open Scope go_scope.

Definition engMeta : Meta :=
  MkMeta "lmdb" FamilyCOWBTree ModeCgo "" "bundled-c" ""
    (MkCapabilities true true true true true true false)
    [MkAsterisk "default-durability" "the default does a full sync on every commit (no MDB_NOSYNC and no NoMetaSync), so the out-of-box durability is fsync-per-commit like bbolt, the strongest in this field";
     MkAsterisk "cgo-tax" "reached via cgo; the call-boundary cost is included, not subtracted";
     MkAsterisk "normal-nometasync" "NORMAL maps to LMDB NoMetaSync: data pages are fsynced per commit, the meta page is not, so it is more durable than the no-fsync LSMs and less than a full sync"]
    false.

Inductive flag := NoReadahead | NoSync | NoMetaSync.

#[global] Instance flag_eq_dec : EqDecision flag.
Proof. solve_decision. Defined.

Inductive call :=
| NewEnv
| SetMaxDBs (n : Z)
| SetMapSize (n : Z)
| EnvOpen (dir : string) (flags : list flag)
| UpdateOpenRoot.

(** [int64(cfg.ValueBytes+64) * 8_000_000], at least 1 GiB. *)
Definition openMapSize (cfg : Config) : Z :=
  let mapSize := swrap64 (swrap64 (CfgValueBytes cfg + 64) * 8000000) in
  if mapSize <? 2 ^ 30 then 2 ^ 30 else mapSize.

Definition openFlags (cfg : Config) : list flag :=
  NoReadahead ::
  (if bool_decide (CfgSynchronous cfg = "OFF") then [NoSync]
   else if bool_decide (CfgSynchronous cfg = "NORMAL") then [NoMetaSync] else []).

Definition Open (fails : call -> option serr) (cfg : Config) : list call * option serr :=
  run_steps fails []
    [(NewEnv, false); (SetMaxDBs 1, false); (SetMapSize (openMapSize cfg), false);
     (EnvOpen (CfgDir cfg) (openFlags cfg), false); (UpdateOpenRoot, false)].

Definition openDurability (cfg : Config) : durability :=
  if bool_decide (NoSync ∈ openFlags cfg) then SyncNever
  else if bool_decide (NoMetaSync ∈ openFlags cfg) then SyncData else SyncCommit.

Record eng (DB Tx Cur : Type) := MkEng { e_env : DB }.
Arguments MkEng {DB Tx Cur}.
Arguments e_env {DB Tx Cur}.

Record batch := MkBatch { ops : list memOp }.
Definition NewBatch : batch := MkBatch [].
Definition batchPut (b : batch) (k v : bytes) : batch :=
  MkBatch (ops b ++ [PutOp (copyBytes k) (copyBytes v)]).
Definition batchDelete (b : batch) (k : bytes) : batch := MkBatch (ops b ++ [DelOp (copyBytes k)]).
Definition batchLen (b : batch) : Z := len (ops b).

Record iter (Cur : Type) := MkIter {
  i_cur : Cur; i_start : bytes; i_first : bool; i_k : bytes; i_v : bytes; i_done : bool }.
Arguments MkIter {Cur}.
Arguments i_cur {Cur}.
Arguments i_start {Cur}.
Arguments i_first {Cur}.
Arguments i_k {Cur}.
Arguments i_v {Cur}.
Arguments i_done {Cur}.

Section Ops.
Context {DB Tx Cur : Type} `{TxnDB DB Tx, KeyTx Tx, MdbCursor DB Cur}.

Definition Get (env : DB) (key : bytes) : option bytes + serr :=
  getReturn (txn_view env ([], false) (fun txn : Tx =>
    match tx_get txn key with
    | inr ErrNotFound => (([], false), None)
    | inr err => (([], false), Some err)
    | inl v => ((copyBytes v, true), None)
    end)).

Definition Put (env : DB) (key value : bytes) : DB * option serr :=
  txn_update env (fun txn : Tx => tx_put txn key value).

Definition Delete (env : DB) (key : bytes) : DB * option serr :=
  txn_update env (fun txn : Tx =>
    let '(txn', err) := tx_del txn key in
    if bool_decide (err = Some ErrNotFound) then (txn', None) else (txn', err)).

Definition commitWrite (txn : Tx) (o : memOp) : Tx * option serr :=
  if op_del o then
    let '(txn', e) := tx_del txn (op_k o) in
    if bool_decide (e <> None /\ e <> Some ErrNotFound) then (txn', e) else (txn', None)
  else tx_put txn (op_k o) (op_v o).

Definition Commit (env : DB) (b : batch) : DB * batch * option serr :=
  let '(env', err) := txn_update env (fun txn => writeAll commitWrite txn (ops b)) in
  (env', NewBatch, err).

Definition Scan (env : DB) (start : bytes) : iter Cur + serr :=
  match mc_open env with
  | inr err => inr err
  | inl cur => inl (MkIter cur (copyBytes start) true [] [] false)
  end.

(** An error of the cursor, the end or any other, ends the scan; [Err] is
    always nil. *)
Definition Next (i : iter Cur) : bool * iter Cur :=
  if i_done i then (false, i)
  else
    let '(cur, r) := (if i_first i then mc_setRange (i_cur i) (i_start i) else mc_next (i_cur i)) in
    match r with
    | inr _ => (false, MkIter cur (i_start i) false [] [] true)
    | inl (k, v) => (true, MkIter cur (i_start i) false k v false)
    end.

Definition batchOf (l : list memOp) : batch := build_batch NewBatch batchPut batchDelete l.

Definition scanRows (env : DB) (start : bytes) (n : nat) : list (bytes * bytes) + serr :=
  match Scan env start with
  | inr err => inr err
  | inl it => inl (read_rows Next i_k i_v n it)
  end.

#[global] Instance adapterOps : AdapterOps (eng DB Tx Cur) := {
  ad_get e k := Get (e_env e) k;
  ad_put e k v := let '(db, err) := Put (e_env e) k v in (MkEng db, err);
  ad_delete e k := let '(db, err) := Delete (e_env e) k in (MkEng db, err);
  ad_commit e l := let '(db, _, err) := Commit (e_env e) (batchOf l) in (MkEng db, err);
  ad_scan e start n := scanRows (e_env e) start n }.
End Ops.

(** [Stats] leaves every field unknown, whether or not [Info] succeeds. *)
Definition Stats (infoOk : bool) : Engine.Stats := UnknownStats.

(** [Flush], given the store's call. *)
Definition Flush {DB} (envSync : DB -> DB * option serr) (env : DB) : DB * option serr := envSync env.

Definition Close {DB} (envClose : DB -> option serr) (env : option DB) : option serr :=
  match env with Some d => envClose d | None => None end.

Lemma lmdb_batchOf_ops l : ops (batchOf l) = norm_op <$> l.
Proof. by apply (build_batch_ops ops). Qed.

Section Contract.
Context {DB Tx Cur : Type} `{TxnDBLaws DB Tx} `{!KeyTx Tx} `{!KeyTxLaws DB Tx}
  `{!MdbCursor DB Cur} `{!MdbCursorLaws DB Tx Cur}.
Implicit Types (it : iter Cur).

Definition iter_rows it (rows : list (bytes * bytes)) : Prop :=
  i_done it = false /\
  if i_first it then exists m, mc_on (i_cur it) m /\ rows = entries_from m (i_start it)
  else mc_at (i_cur it) rows.

(** A step that gives a row gives the next one; over a cursor that does not
    fail, a step that gives none is at the end. *)
Lemma lmdb_Next_step it rows :
  iter_rows it rows ->
  match (Next it).1 with
  | true => exists kv rows', rows = kv :: rows' /\ (i_k (Next it).2, i_v (Next it).2) = kv /\
      iter_rows (Next it).2 rows'
  | false => mc_ok (i_cur it) -> rows = []
  end /\ (mc_ok (i_cur it) -> mc_ok (i_cur (Next it).2)).
Proof.
  unfold iter_rows, Next. intros [Hd Hi]. rewrite Hd. destruct (i_first it).
  - destruct Hi as (m & Hon & ->). pose proof (mc_setRange_law (i_cur it) m (i_start it) Hon) as Hl.
    pose proof (mc_setRange_ok (i_cur it) (i_start it)) as Hok.
    destruct (mc_setRange (i_cur it) (i_start it)) as [c [[k v]|err]]; cbn in *; [|done].
    destruct Hl as (rows & -> & Hat). split; [|done]. by exists (k, v), rows.
  - pose proof (mc_next_law (i_cur it) rows Hi) as Hl. pose proof (mc_next_ok (i_cur it)) as Hok.
    destruct (mc_next (i_cur it)) as [c [[k v]|err]]; cbn in *; [|done].
    destruct Hl as (rows' & -> & Hat). split; [|done]. by exists (k, v), rows'.
Qed.

Lemma lmdb_scanRows_prefix (env : DB) m start n :
  db_rep env m ->
  match scanRows env start n with inl rows => rows `prefix_of` take n (entries_from m start) | inr _ => True end.
Proof.
  intros Hr. unfold scanRows, Scan. pose proof (mc_open_law env m Hr) as Ho.
  destruct (mc_open env) as [c|err]; [|done].
  apply (read_rows_prefix Next i_k i_v iter_rows); [|split; [done|by exists m]].
  intros it rows Hit Hmore. destruct (lmdb_Next_step it rows Hit) as [Hn _]. by rewrite Hmore in Hn.
Qed.

Lemma lmdb_scanRows_ok (env : DB) m start n :
  db_rep env m -> db_ok env -> scanRows env start n = inl (take n (entries_from m start)).
Proof.
  intros Hr Hok. unfold scanRows, Scan. destruct (mc_open_ok env m Hr Hok) as (c & Hc & Hcok).
  pose proof (mc_open_law env m Hr) as Ho. rewrite Hc in *. f_equal.
  apply (read_rows_all Next i_k i_v (fun it rows => iter_rows it rows /\ mc_ok (i_cur it)));
    [|split; [split; [done|by exists m]|done]].
  intros it rows [Hit Hi]. destruct (lmdb_Next_step it rows Hit) as [Hn Hk].
  exists (Next it).2. destruct (Next it) as [[] it'] eqn:E; cbn in *.
  - destruct Hn as (kv & rows' & -> & Hkv & Hrows). by auto.
  - by rewrite Hn.
Qed.

#[global] Instance adapter : Adapter (eng DB Tx Cur).
Proof.
  refine {| ad_rep e m := db_rep (e_env e) m; ad_ok e := db_ok (e_env e); ad_valid := tx_valid |}.
  - intros e m k Hr. by apply keyGet_spec.
  - intros e m k v Hr. cbn. pose proof (keyPut_spec (e_env e) m k v Hr) as Hu. unfold Put.
    by destruct (txn_update _ _).
  - intros e m k Hr. cbn. pose proof (keyDelete_spec (e_env e) m k Hr) as Hu.
    change (Delete (e_env e) k) with (txn_update (e_env e) (fun t : Tx => keyDel t k)). by destruct (txn_update _ _).
  - intros e m l Hr. cbn. unfold Commit. rewrite lmdb_batchOf_ops.
    pose proof (keyCommit_spec (e_env e) m (norm_op <$> l) Hr) as Hu. rewrite apply_norm_ops in Hu.
    change (writeAll commitWrite) with (writeAll (@keyWrite Tx _)). by destruct (txn_update _ _).
  - intros e m start n Hr. by apply lmdb_scanRows_prefix.
  - intros e m k v Hr Hok Hv. by eapply keyGet_ok.
  - intros e m k v Hr Hok Hv. cbn. pose proof (keyPut_ok (e_env e) m k v Hr Hok Hv) as Hu.
    unfold Put.
    by destruct (txn_update _ _).
  - intros e m k v Hr Hok Hv. cbn. pose proof (keyDelete_ok (e_env e) m k v Hr Hok Hv) as Hu.
    change (Delete (e_env e) k) with (txn_update (e_env e) (fun t : Tx => keyDel t k)). by destruct (txn_update _ _).
  - intros e m l Hr Hok Hv. cbn. unfold Commit. rewrite lmdb_batchOf_ops.
    pose proof (keyCommit_ok (e_env e) m (norm_op <$> l) Hr Hok (norm_ops_valid _ _ Hv)) as Hu.
    change (writeAll commitWrite) with (writeAll (@keyWrite Tx _)). by destruct (txn_update _ _).
  - intros e m start n Hr Hok. by apply lmdb_scanRows_ok.
Defined.
End Contract.

(** The same contract for the LMDB adapter, where a delete of an absent key
    is the store's not-found error and must not fail a batch, and where a
    cursor error ends a scan early without being reported. *)
Lemma lmdb_contract {DB Tx Cur} `{TxnDBLaws DB Tx} `{!KeyTx Tx} `{!KeyTxLaws DB Tx}
    `{!MdbCursor DB Cur} `{!MdbCursorLaws DB Tx Cur} (e : eng DB Tx Cur) m rs :
  ad_rep e m -> honours e m rs.
Proof. apply adapter_honours. Qed.

(** The witness store exercises both outcomes. *)
Example demo_answers :
  (run_requests (MkEng (MkMemDB ∅ false) : eng memDB memTx memCur) demo_requests).1 =
  [AAck None; AAck (Some (ErrStore "empty key")); AVal (inl (Some [Byte.x01])); AVal (inl None); AAck None;
   ARows (inl [([Byte.x61], [Byte.x03]); ([Byte.x62], [Byte.x01])]);
   ARows (inl [([Byte.x61], [Byte.x03]); ([Byte.x62], [Byte.x01]); ([Byte.x63], [])]);
   AAck (Some (ErrStore "empty key")); AVal (inl (Some [Byte.x01])); AAck None; AAck None;
   ARows (inl [([Byte.x63], [])])].
Proof. vm_compute. reflexivity. Qed.
