(* ===== verification/Buntdb.v ===== *)
(** * The buntdb adapter (adapters/buntdb/buntdb.go)

    Every call is a closure in a buntdb transaction.  A scan runs in a
    goroutine of its own: a read transaction visits the keys and sends each row
    on a channel of 64, and the iterator receives from it; [Close] tells the
    goroutine to stop and drains the channel. *)

From S2P Require Import Prelude Codec Engine Ordered Adapter TxStore.
Local Open Scope go_scope.

Definition engMeta : Meta :=
  MkMeta "buntdb" FamilyBTree ModeInProc "" "v1" ""
    (MkCapabilities true true true true false true true)
    [MkAsterisk "default-durability" "the default SyncPolicy is EverySecond: the append-only file is fsynced about once a second, not on every commit, so the out-of-box write number is the deferred-sync path";
     MkAsterisk "in-mem-index" "the whole dataset lives in memory with an append-only file for durability, so reads are RAM-speed and space is measured on the AOF"]
    false.

Inductive syncPolicy := Never | EverySecond | Always.

Inductive call :=
| BuntOpen (path : list string)
| ReadConfig
| SetConfig (p : syncPolicy).

Definition openPolicy (cfg : Config) : syncPolicy :=
  if bool_decide (CfgSynchronous cfg = "OFF") then Never
  else if bool_decide (CfgSynchronous cfg = "FULL") then Always else EverySecond.

(** The policy is set when the current configuration can be read; an error
    of either call is dropped. *)
Definition Open (fails : call -> option serr) (cfg : Config) : list call * option serr :=
  let path := BuntOpen [CfgDir cfg; "data.db"] in
  match fails path with
  | Some err => ([path], Some err)
  | None =>
      match fails ReadConfig with
      | Some _ => ([path; ReadConfig], None)
      | None => ([path; ReadConfig; SetConfig (openPolicy cfg)], None)
      end
  end.

Definition openDurability (cfg : Config) : durability :=
  match openPolicy cfg with Never => SyncNever | EverySecond => SyncDeferred | Always => SyncCommit end.

Record eng (DB Tx : Type) := MkEng { e_db : DB }.
Arguments MkEng {DB Tx}.
Arguments e_db {DB Tx}.

Record batch := MkBatch { ops : list memOp }.
Definition NewBatch : batch := MkBatch [].
Definition batchPut (b : batch) (k v : bytes) : batch :=
  MkBatch (ops b ++ [PutOp (copyBytes k) (copyBytes v)]).
Definition batchDelete (b : batch) (k : bytes) : batch := MkBatch (ops b ++ [DelOp (copyBytes k)]).
Definition batchLen (b : batch) : Z := len (ops b).

(** [tx.AscendGreaterOrEqual("", pivot, f)]: the rows it visits, as long as
    [f] returns true. *)
Class AscendTx (Tx : Type) := tx_ascend : Tx -> bytes -> list (bytes * bytes).

Class AscendTxLaws (DB Tx : Type) `{TxnDBLaws DB Tx} `{AscendTx Tx} :=
  tx_ascend_law t m start : tx_rep t m -> tx_ascend t start = entries_from m start.

Section Ops.
Context {DB Tx : Type} `{TxnDB DB Tx, KeyTx Tx, AscendTx Tx}.

Definition Get (db : DB) (key : bytes) : option bytes + serr :=
  getReturn (txn_view db ([], false) (fun tx : Tx =>
    match tx_get tx key with
    | inr ErrNotFound => (([], false), None)
    | inr err => (([], false), Some err)
    | inl v => ((copyBytes v, true), None)
    end)).

Definition Put (db : DB) (key value : bytes) : DB * option serr :=
  txn_update db (fun tx : Tx => tx_put tx key value).

Definition Delete (db : DB) (key : bytes) : DB * option serr :=
  txn_update db (fun tx : Tx =>
    let '(tx', err) := tx_del tx key in
    if bool_decide (err = Some ErrNotFound) then (tx', None) else (tx', err)).

Definition commitWrite (tx : Tx) (o : memOp) : Tx * option serr :=
  if op_del o then
    let '(tx', e) := tx_del tx (op_k o) in
    if bool_decide (e <> None /\ e <> Some ErrNotFound) then (tx', e) else (tx', None)
  else tx_put tx (op_k o) (op_v o).

Definition Commit (db : DB) (b : batch) : DB * batch * option serr :=
  let '(db', err) := txn_update db (fun tx => writeAll commitWrite tx (ops b)) in
  (db', NewBatch, err).

(** The rows the scan's transaction visits; its error is dropped. *)
Definition visited (db : DB) (start : bytes) : list (bytes * bytes) :=
  (txn_view db [] (fun tx : Tx => (tx_ascend tx start, None))).1.

Definition batchOf (l : list memOp) : batch := build_batch NewBatch batchPut batchDelete l.
End Ops.

(** [Flush], given the store's call. *)
Definition Flush {DB} (dbShrink : DB -> DB * option serr) (db : DB) : DB * option serr := dbShrink db.

(** [Stats] leaves every field unknown. *)
Definition Stats : Engine.Stats := UnknownStats.

Definition Close {DB} (dbClose : DB -> option serr) (db : option DB) : option serr :=
  match db with Some d => dbClose d | None => None end.

(** ** The scan: a producer, a channel and a consumer *)

Record scan := MkScan {
  sc_left : list (bytes * bytes);     (** rows the transaction has yet to visit *)
  sc_running : bool;                  (** the goroutine has not closed the channel *)
  sc_ch : list (bytes * bytes);       (** the channel's buffer *)
  sc_done : bool;                     (** [done] is closed *)
  sc_cur : bytes * bytes;             (** the iterator's current row *)
  sc_got : list (bytes * bytes) }.    (** the rows received so far *)

Definition chanCap : Z := 64.

(** [Scan]. *)
Definition newScan (rows : list (bytes * bytes)) : scan := MkScan rows true [] false ([], []) [].

Inductive slabel :=
| PSend
| PStop
| PEnd
| CRecv
| CClose.

Definition sexec (l : slabel) (s : scan) : option scan :=
  match l with
  | PSend =>
      match sc_running s, sc_left s with
      | true, kv :: rest =>
          if len (sc_ch s) <? chanCap
          then Some (MkScan rest true (sc_ch s ++ [kv]) (sc_done s) (sc_cur s) (sc_got s))
          else None
      | _, _ => None
      end
  | PStop =>
      match sc_running s, sc_left s with
      | true, _ :: _ =>
          if sc_done s then Some (MkScan (sc_left s) false (sc_ch s) true (sc_cur s) (sc_got s)) else None
      | _, _ => None
      end
  | PEnd =>
      match sc_running s, sc_left s with
      | true, [] => Some (MkScan [] false (sc_ch s) (sc_done s) (sc_cur s) (sc_got s))
      | _, _ => None
      end
  | CRecv =>
      match sc_ch s with
      | kv :: ch => Some (MkScan (sc_left s) (sc_running s) ch (sc_done s) kv (sc_got s ++ [kv]))
      | [] => None
      end
  | CClose =>
      if sc_done s then None
      else Some (MkScan (sc_left s) (sc_running s) (sc_ch s) true (sc_cur s) (sc_got s))
  end.

Definition sstep (s s' : scan) : Prop := exists l, sexec l s = Some s'.

(** [Next] is a receive; it returns false when the channel is closed and
    empty, and it blocks when neither holds. *)
Inductive next_result := NextRow | NextEnd | NextBlocks.

Definition Next (s : scan) : next_result * scan :=
  match sexec CRecv s with
  | Some s' => (NextRow, s')
  | None => if sc_running s then (NextBlocks, s) else (NextEnd, s)
  end.

(** ** The engine as a client drives it

    By [scan_pipeline] below, reading [n] rows gives the first [n] rows
    visited, whatever the schedule. *)

#[global] Instance adapterOps {DB Tx} `{TxnDB DB Tx, KeyTx Tx, AscendTx Tx} : AdapterOps (eng DB Tx) := {
  ad_get e k := Get (e_db e) k;
  ad_put e k v := let '(db, err) := Put (e_db e) k v in (MkEng db, err);
  ad_delete e k := let '(db, err) := Delete (e_db e) k in (MkEng db, err);
  ad_commit e l := let '(db, _, err) := Commit (e_db e) (batchOf l) in (MkEng db, err);
  ad_scan e start n := inl (take n (visited (e_db e) start)) }.

Lemma buntdb_batchOf_ops l : ops (batchOf l) = norm_op <$> l.
Proof. by apply (build_batch_ops ops). Qed.

Section Contract.
Context {DB Tx : Type} `{TxnDBLaws DB Tx} `{!KeyTx Tx} `{!KeyTxLaws DB Tx}
  `{!AscendTx Tx} `{!AscendTxLaws DB Tx}.

#[global] Instance adapter : Adapter (eng DB Tx).
Proof.
  refine {| ad_rep e m := db_rep (e_db e) m; ad_ok e := db_ok (e_db e); ad_valid := tx_valid |}.
  - intros e m k Hr. by apply keyGet_spec.
  - intros e m k v Hr. cbn. pose proof (keyPut_spec (e_db e) m k v Hr) as Hu. unfold Put.
    by destruct (txn_update _ _).
  - intros e m k Hr. cbn. pose proof (keyDelete_spec (e_db e) m k Hr) as Hu.
    change (Delete (e_db e) k) with (txn_update (e_db e) (fun t : Tx => keyDel t k)). by destruct (txn_update _ _).
  - intros e m l Hr. cbn. unfold Commit. rewrite buntdb_batchOf_ops.
    pose proof (keyCommit_spec (e_db e) m (norm_op <$> l) Hr) as Hu. rewrite apply_norm_ops in Hu.
    change (writeAll commitWrite) with (writeAll (@keyWrite Tx _)). by destruct (txn_update _ _).
  - intros e m start n Hr. cbn. unfold visited.
    destruct (view_law _ (e_db e) m [] (fun tx : Tx => (tx_ascend tx start, None)) Hr) as [[err ->]|(t & Ht & ->)];
      cbn; [rewrite take_nil; apply prefix_nil|]. by rewrite (tx_ascend_law t m).
  - intros e m k v Hr Hok Hv. by eapply keyGet_ok.
  - intros e m k v Hr Hok Hv. cbn. pose proof (keyPut_ok (e_db e) m k v Hr Hok Hv) as Hu. unfold Put.
    by destruct (txn_update _ _).
  - intros e m k v Hr Hok Hv. cbn. pose proof (keyDelete_ok (e_db e) m k v Hr Hok Hv) as Hu.
    change (Delete (e_db e) k) with (txn_update (e_db e) (fun t : Tx => keyDel t k)). by destruct (txn_update _ _).
  - intros e m l Hr Hok Hv. cbn. unfold Commit. rewrite buntdb_batchOf_ops.
    pose proof (keyCommit_ok (e_db e) m (norm_op <$> l) Hr Hok (norm_ops_valid _ _ Hv)) as Hu.
    change (writeAll commitWrite) with (writeAll (@keyWrite Tx _)). by destruct (txn_update _ _).
  - intros e m start n Hr Hok. cbn. unfold visited.
    destruct (view_ok _ (e_db e) m [] (fun tx : Tx => (tx_ascend tx start, None)) Hr Hok) as (t & Ht & _ & ->).
    cbn. by rewrite (tx_ascend_law t m).
Defined.
End Contract.

(** The contract of [honours] for the buntdb adapter: exactly the
    acknowledged writes are in the store, a batch whole or not at all, every
    answer is the map's or an error, and over a store that does not fail it
    answers as the map does; a delete of an absent key is no error. *)
Theorem buntdb_honours {DB Tx} `{TxnDBLaws DB Tx} `{!KeyTx Tx} `{!KeyTxLaws DB Tx}
    `{!AscendTx Tx} `{!AscendTxLaws DB Tx} (e : eng DB Tx) m rs :
  ad_rep e m -> honours e m rs.
Proof. apply adapter_honours. Qed.

#[global] Instance memTx_ascend : AscendTx memTx := fun t start => entries_from (mt_map t) start.
#[global] Instance memTx_ascend_laws : AscendTxLaws memDB memTx.
Proof. by intros t m start <-. Defined.

Lemma buntdb_honours_witness : honours (MkEng (MkMemDB ∅ false) : eng memDB memTx) ∅ demo_requests.
Proof. apply (buntdb_honours (MkEng (MkMemDB ∅ false) : eng memDB memTx)). reflexivity. Defined.

(** ** The scan delivers the rows *)

Record scan_inv (rows : list (bytes * bytes)) (s : scan) : Prop := {
  si_rows : rows = sc_got s ++ sc_ch s ++ sc_left s;
  si_end : sc_running s = false -> sc_left s = [] \/ sc_done s = true;
  si_cap : len (sc_ch s) <= chanCap }.

(** Steps left: each row is sent and received, the goroutine ends, the
    iterator is closed. *)
Definition scan_weight (s : scan) : nat :=
  2 * length (sc_left s) + length (sc_ch s) + (if sc_running s then 1 else 0) + (if sc_done s then 0 else 1).

Lemma scan_inv_step rows s l s' :
  scan_inv rows s -> sexec l s = Some s' -> scan_inv rows s' /\ (scan_weight s' < scan_weight s)%nat.
Proof.
  intros [Hrows Hend Hcap] Hex. unfold scan_weight.
  destruct s as [rest running ch done cur got]. cbn in *.
  destruct l; cbn in Hex.
  - destruct running, rest as [|kv rest]; try done. destruct (Z.ltb_spec (len ch) chanCap); [|done].
    injection Hex as <-. cbn. split; [|rewrite length_app; cbn; lia]. split; cbn; [|done|].
    + rewrite Hrows, <- !app_assoc. done.
    + rewrite len_app, len_cons, len_nil. lia.
  - destruct running, rest as [|kv rest]; try done. destruct done; [|done]. injection Hex as <-.
    split; [|cbn; lia]. split; cbn; auto.
  - destruct running, rest as [|kv rest]; try done. injection Hex as <-. split; [|cbn; lia]. split; cbn; auto.
  - destruct ch as [|kv ch]; [done|]. injection Hex as <-. split; [|cbn; destruct running, done; lia].
    split; cbn; [|done|].
    + rewrite Hrows. by rewrite <- app_assoc.
    + rewrite len_cons in Hcap. pose proof (len_nonneg ch). lia.
  - destruct done; [done|]. injection Hex as <-. split; [|cbn; destruct running; lia]. split; cbn; auto.
Qed.

Lemma scan_inv_reachable rows n s :
  nsteps sstep n (newScan rows) s -> scan_inv rows s /\ (n + scan_weight s <= 2 * length rows + 2)%nat.
Proof.
  assert (forall k t t', nsteps sstep k t t' -> scan_inv rows t ->
    scan_inv rows t' /\ (k + scan_weight t' <= scan_weight t)%nat) as Hgo.
  { intros k t t'. induction 1 as [t|k t t1 t' [l Hl] _ IH]; intros Hi; [done|].
    destruct (scan_inv_step rows t l t1 Hi Hl) as [Hi1 Hw]. destruct (IH Hi1). split; [done|lia]. }
  intros Hrun. destruct (Hgo _ _ _ Hrun) as [Hi Hw]; [by split|].
  split; [done|]. change (scan_weight (newScan rows)) with (2 * length rows + 0 + 1 + 1)%nat in Hw. lia.
Qed.

(** C28: the scan goroutine delivers the rows and can always be stopped.  In
    every interleaving of the transaction, the channel of 64 and the client:
    what the iterator has received is the first rows in order; [Next] gives
    the row that follows, returns false on an open iterator only after the
    last row, and when it would block the goroutine can move; the whole takes
    at most two steps per row and two more, and once [Close] has been called
    and nothing can move, the goroutine has ended and the channel is empty. *)
Theorem scan_pipeline rows n s :
  nsteps sstep n (newScan rows) s ->
  (n <= 2 * length rows + 2)%nat /\
  sc_got s `prefix_of` rows /\
  match Next s with
  | (NextRow, s') => rows !! length (sc_got s) = Some (sc_cur s')
  | (NextEnd, _) => sc_done s = false -> sc_got s = rows
  | (NextBlocks, _) => exists l s', l <> CClose /\ sexec l s = Some s'
  end /\
  ((forall l, l <> CClose -> sexec l s = None) -> sc_running s = false /\ sc_ch s = []).
Proof.
  intros Hrun. destruct (scan_inv_reachable rows n s Hrun) as [[Hrows Hend Hcap] Hn].
  split; [lia|]. split; [by exists (sc_ch s ++ sc_left s)|].
  destruct s as [rest running ch done cur got]. cbn in *. split.
  - unfold Next. cbn. destruct ch as [|kv ch]; cbn.
    + destruct running.
      * destruct rest as [|kv rest]; [by exists PEnd; eexists|]. exists PSend. eexists. split; [done|]. done.
      * intros ->. destruct (Hend eq_refl) as [->|]; [|done]. by rewrite Hrows, app_nil_r.
    + rewrite Hrows, lookup_app_r, Nat.sub_diag by lia. done.
  - intros Hstuck. destruct ch as [|kv ch]; [|by specialize (Hstuck CRecv ltac:(done))].
    split; [|done]. destruct running; [|done].
    destruct rest as [|kv rest]; [by specialize (Hstuck PEnd ltac:(done))|by specialize (Hstuck PSend ltac:(done))].
Qed.

(** Two rows, one received, one in the channel, then [Close] and the drain. *)
Definition demo_scan : option scan :=
  foldl (fun s l => s ≫= sexec l) (Some (newScan [([Byte.x61], []); ([Byte.x62], [Byte.x01])]))
    [PSend; CRecv; PSend; CClose; PEnd; CRecv].

Lemma scan_pipeline_witness :
  exists s, demo_scan = Some s /\
  ((6 <= 2 * 2 + 2)%nat /\
  sc_got s `prefix_of` [([Byte.x61], []); ([Byte.x62], [Byte.x01])] /\
  match Next s with
  | (NextRow, s') => [([Byte.x61], []); ([Byte.x62], [Byte.x01])] !! length (sc_got s) = Some (sc_cur s')
  | (NextEnd, _) => sc_done s = false -> sc_got s = [([Byte.x61], []); ([Byte.x62], [Byte.x01])]
  | (NextBlocks, _) => exists l s', l <> CClose /\ sexec l s = Some s'
  end /\
  ((forall l, l <> CClose -> sexec l s = None) -> sc_running s = false /\ sc_ch s = [])).
Proof.
  eexists. split; [vm_compute; reflexivity|].
  apply (scan_pipeline [([Byte.x61], []); ([Byte.x62], [Byte.x01])] 6).
  eapply nsteps_l; [exists PSend; vm_compute; reflexivity|].
  eapply nsteps_l; [exists CRecv; vm_compute; reflexivity|].
  eapply nsteps_l; [exists PSend; vm_compute; reflexivity|].
  eapply nsteps_l; [exists CClose; vm_compute; reflexivity|].
  eapply nsteps_l; [exists PEnd; vm_compute; reflexivity|].
  eapply nsteps_l; [exists CRecv; vm_compute; reflexivity|]. constructor.
Defined.
