(* ===== verification/LsmStore.v ===== *)
(** * Log-structured stores

    What the goleveldb, pebble and RocksDB adapters share: the store as
    a parameter with the documented laws of its writes, each with a flag that
    asks for an fsync, of its reads and of its iterators; and the store the
    witnesses use. *)

From S2P Require Import Prelude Codec Engine Ordered Adapter.
Local Open Scope go_scope.

(** ** Writes *)

(** Put, delete and write a batch; the flag is the Sync of the write options. *)
Class LsmDB (DB : Type) := {
  ls_put : DB -> bool -> bytes -> bytes -> DB * option serr;
  ls_del : DB -> bool -> bytes -> DB * option serr;
  ls_write : DB -> bool -> list memOp -> DB * option serr }.

(** [ls_durable db m]: what a crash would leave is [m].  A write is all or
    nothing, and with the flag set it is durable once it is acknowledged. *)
Class LsmLaws (DB : Type) `{LsmDB DB} := {
  ls_rep : DB -> gmap bytes bytes -> Prop;
  ls_durable : DB -> gmap bytes bytes -> Prop;
  ls_ok : DB -> Prop;
  ls_valid : bytes -> bytes -> Prop;
  ls_put_law db m sync k v : ls_rep db m ->
    let '(db', err) := ls_put db sync k v in
    match err with
    | None => ls_rep db' (<[k := v]> m) /\ (sync = true -> ls_durable db' (<[k := v]> m))
    | Some _ => ls_rep db' m
    end;
  ls_del_law db m sync k : ls_rep db m ->
    let '(db', err) := ls_del db sync k in
    match err with
    | None => ls_rep db' (delete k m) /\ (sync = true -> ls_durable db' (delete k m))
    | Some _ => ls_rep db' m
    end;
  ls_write_law db m sync ops : ls_rep db m ->
    let '(db', err) := ls_write db sync ops in
    match err with
    | None => ls_rep db' (apply_ops m ops) /\ (sync = true -> ls_durable db' (apply_ops m ops))
    | Some _ => ls_rep db' m
    end;
  ls_put_ok db sync k v : ls_ok db -> ls_valid k v ->
    (ls_put db sync k v).2 = None /\ ls_ok (ls_put db sync k v).1;
  ls_del_ok db sync k v : ls_ok db -> ls_valid k v ->
    (ls_del db sync k).2 = None /\ ls_ok (ls_del db sync k).1;
  ls_write_ok db sync ops : ls_ok db -> Forall (op_valid ls_valid) ops ->
    (ls_write db sync ops).2 = None /\ ls_ok (ls_write db sync ops).1 }.

(** ** Reads *)

(** A get that reports an absent key as an error (goleveldb, pebble). *)
Class GetErr (DB : Type) := ge_get : DB -> bytes -> bytes + serr.

Class GetErrLaws (DB : Type) `{LsmLaws DB} `{GetErr DB} := {
  ge_law db m k : ls_rep db m ->
    match ge_get db k with
    | inl v => m !! k = Some v
    | inr ErrNotFound => m !! k = None
    | inr (ErrStore _) => True
    end;
  ge_ok db k v : ls_ok db -> ls_valid k v -> forall msg, ge_get db k <> inr (ErrStore msg) }.

(** A get that returns nothing for an absent key (RocksDB's [Exists]). *)
Class GetOpt (DB : Type) := go_get : DB -> bytes -> option bytes + serr.

Class GetOptLaws (DB : Type) `{LsmLaws DB} `{GetOpt DB} := {
  go_law db m k : ls_rep db m -> match go_get db k with inl v => v = m !! k | inr _ => True end;
  go_ok db m k v : ls_rep db m -> ls_ok db -> ls_valid k v -> go_get db k = inl (m !! k) }.

(** ** Iterators *)

(** An iterator made with a lower bound, moved by First and Next (goleveldb,
    pebble). *)
Class BoundIter (DB It : Type) := {
  bi_new : DB -> bytes -> It + serr;
  bi_first : It -> bool * It;
  bi_next : It -> bool * It;
  bi_key : It -> bytes;
  bi_value : It -> bytes }.

(** [bi_on it rows]: not yet positioned, over [rows].  [bi_at it rows]: on a
    row, with [rows] after it. *)
Class BoundIterLaws (DB It : Type) `{LsmLaws DB} `{BoundIter DB It} := {
  bi_on : It -> list (bytes * bytes) -> Prop;
  bi_at : It -> list (bytes * bytes) -> Prop;
  bi_ok : It -> Prop;
  bi_new_law db m start : ls_rep db m ->
    match bi_new db start with inl it => bi_on it (entries_from m start) | inr _ => True end;
  bi_new_ok db start : ls_ok db -> exists it, bi_new db start = inl it /\ bi_ok it;
  bi_first_law it rows : bi_on it rows ->
    match bi_first it with
    | (true, it') => exists rows', rows = (bi_key it', bi_value it') :: rows' /\ bi_at it' rows'
    | (false, _) => bi_ok it -> rows = []
    end;
  bi_first_ok it : bi_ok it -> bi_ok (bi_first it).2;
  bi_next_law it rows : bi_at it rows ->
    match bi_next it with
    | (true, it') => exists rows', rows = (bi_key it', bi_value it') :: rows' /\ bi_at it' rows'
    | (false, _) => bi_ok it -> rows = []
    end;
  bi_next_ok it : bi_ok it -> bi_ok (bi_next it).2 }.

(** An iterator placed by SeekToFirst or Seek and moved by Next while it is
    Valid (RocksDB). *)
Class SeekIter (DB It : Type) := {
  si_new : DB -> It;
  si_first : It -> It;
  si_seek : It -> bytes -> It;
  si_next : It -> It;
  si_valid : It -> bool;
  si_key : It -> bytes;
  si_value : It -> bytes }.

(** [si_view it m]: made over [m].  [si_at it rows]: placed, with [rows] from
    the current row on.  An iterator that met an error is not valid. *)
Class SeekIterLaws (DB It : Type) `{LsmLaws DB} `{SeekIter DB It} := {
  si_view : It -> gmap bytes bytes -> Prop;
  si_at : It -> list (bytes * bytes) -> Prop;
  si_ok : It -> Prop;
  si_new_law db m : ls_rep db m -> si_view (si_new db) m;
  si_new_ok db : ls_ok db -> si_ok (si_new db);
  si_first_law it m : si_view it m -> si_at (si_first it) (entries m);
  si_seek_law it m start : si_view it m -> si_at (si_seek it start) (entries_from m start);
  si_valid_law it rows : si_at it rows ->
    match si_valid it with
    | true => exists rows', rows = (si_key it, si_value it) :: rows' /\ si_at (si_next it) rows'
    | false => si_ok it -> rows = []
    end;
  si_first_ok it : si_ok it -> si_ok (si_first it);
  si_seek_ok it start : si_ok it -> si_ok (si_seek it start);
  si_next_ok it : si_ok it -> si_ok (si_next it) }.

(** ** What the adapters derive *)

(** A map key reported absent is no error. *)
Definition missIsNone (r : bytes + serr) : option bytes + serr :=
  match r with
  | inl v => inl (Some v)
  | inr ErrNotFound => inl None
  | inr err => inr err
  end.

Lemma missIsNone_spec {DB} `{GetErrLaws DB} (db : DB) m k :
  ls_rep db m -> match missIsNone (ge_get db k) with inl v => v = m !! k | inr _ => True end.
Proof. intros Hr. pose proof (ge_law db m k Hr) as Hl. by destruct (ge_get db k) as [v|[|msg]]. Qed.

Lemma missIsNone_ok {DB} `{GetErrLaws DB} (db : DB) m k v :
  ls_rep db m -> ls_ok db -> ls_valid k v -> missIsNone (ge_get db k) = inl (m !! k).
Proof.
  intros Hr Hok Hv. pose proof (ge_law db m k Hr) as Hl. pose proof (ge_ok db k v Hok Hv) as Hne.
  destruct (ge_get db k) as [w|[|msg]]; cbn; [by rewrite Hl..|]. by destruct (Hne msg).
Qed.

(** First on the first call, Next on the others: the shape of both iterators. *)
Section FirstNext.
Context {DB It : Type} `{BoundIterLaws DB It}.

Definition firstNext (i : It * bool) : bool * (It * bool) :=
  let '(it, first) := i in
  if first : bool then let '(more, it') := bi_first it in (more, (it', false))
  else let '(more, it') := bi_next it in (more, (it', false)).

Definition fn_rows (i : It * bool) (rows : list (bytes * bytes)) : Prop :=
  if i.2 then bi_on i.1 rows else bi_at i.1 rows.

Lemma firstNext_step i rows :
  fn_rows i rows ->
  match (firstNext i).1 with
  | true => exists rows', rows = (bi_key (firstNext i).2.1, bi_value (firstNext i).2.1) :: rows' /\
      fn_rows (firstNext i).2 rows'
  | false => bi_ok i.1 -> rows = []
  end /\ (bi_ok i.1 -> bi_ok (firstNext i).2.1).
Proof.
  destruct i as [it []]; unfold fn_rows; cbn; intros Hi.
  - pose proof (bi_first_law it rows Hi) as Hl. pose proof (bi_first_ok it) as Hok.
    destruct (bi_first it) as [[] it']; cbn in *; done.
  - pose proof (bi_next_law it rows Hi) as Hl. pose proof (bi_next_ok it) as Hok.
    destruct (bi_next it) as [[] it']; cbn in *; done.
Qed.

Lemma firstNext_prefix n it rows :
  bi_on it rows ->
  read_rows firstNext (fun i => bi_key i.1) (fun i => bi_value i.1) n (it, true) `prefix_of` take n rows.
Proof.
  intros Hit. apply (read_rows_prefix _ _ _ fn_rows); [|done]. intros i rs Hi Hmore.
  destruct (firstNext_step i rs Hi) as [Hn _]. rewrite Hmore in Hn. destruct Hn as (rows' & -> & Hr). eauto.
Qed.

Lemma firstNext_all n it rows :
  bi_on it rows -> bi_ok it ->
  read_rows firstNext (fun i => bi_key i.1) (fun i => bi_value i.1) n (it, true) = take n rows.
Proof.
  intros Hit Hok. apply (read_rows_all _ _ _ (fun i rs => fn_rows i rs /\ bi_ok i.1)); [|done].
  intros i rs [Hi Hiok]. destruct (firstNext_step i rs Hi) as [Hn Hk]. exists (firstNext i).2.
  destruct (firstNext i) as [[] i']; cbn in *.
  - destruct Hn as (rows' & -> & Hr). auto.
  - by rewrite Hn.
Qed.
End FirstNext.

(** A write request, and durability once it is acknowledged. *)
Definition is_write (r : areq) : bool := match r with AWrite _ | ABatch _ => true | _ => false end.

(** ** Engines that pass their writes to the store

    What the three adapters have in common: each write is one call of the
    store with the engine's flag.  How a key is read and how a scan walks
    differ, so those are laws of the class. *)

Class LsmEngine (E DB : Type) `{LsmLaws DB} `{AdapterOps E} := {
  le_db : E -> DB;
  le_sync : E -> bool;
  le_put e k v : le_db (ad_put e k v).1 = (ls_put (le_db e) (le_sync e) k v).1 /\
    (ad_put e k v).2 = (ls_put (le_db e) (le_sync e) k v).2;
  le_delete e k : le_db (ad_delete e k).1 = (ls_del (le_db e) (le_sync e) k).1 /\
    (ad_delete e k).2 = (ls_del (le_db e) (le_sync e) k).2;
  le_commit e l : le_db (ad_commit e l).1 = (ls_write (le_db e) (le_sync e) (norm_op <$> l)).1 /\
    (ad_commit e l).2 = (ls_write (le_db e) (le_sync e) (norm_op <$> l)).2;
  le_get_spec e m k : ls_rep (le_db e) m -> match ad_get e k with inl v => v = m !! k | inr _ => True end;
  le_get_ok e m k v : ls_rep (le_db e) m -> ls_ok (le_db e) -> ls_valid k v -> ad_get e k = inl (m !! k);
  le_scan_spec e m start n : ls_rep (le_db e) m ->
    match ad_scan e start n with inl rows => rows `prefix_of` take n (entries_from m start) | inr _ => True end;
  le_scan_ok e m start n : ls_rep (le_db e) m -> ls_ok (le_db e) ->
    ad_scan e start n = inl (take n (entries_from m start)) }.

Section LsmEngine.
Context {E DB : Type} `{LsmEngine E DB}.

(** The three writes at once: the effect of a call, read off the store's. *)
Lemma le_put_law (e : E) m k v : ls_rep (le_db e) m ->
  let '(e', err) := ad_put e k v in
  match err with
  | None => ls_rep (le_db e') (<[k := v]> m) /\ (le_sync e = true -> ls_durable (le_db e') (<[k := v]> m))
  | Some _ => ls_rep (le_db e') m
  end.
Proof.
  intros Hr. pose proof (ls_put_law (le_db e) m (le_sync e) k v Hr) as Hl. destruct (le_put e k v) as [Hd He].
  destruct (ad_put e k v) as [e' err], (ls_put _ _ _ _) as [db' err']. cbn in *. by subst.
Qed.

Lemma le_delete_law (e : E) m k : ls_rep (le_db e) m ->
  let '(e', err) := ad_delete e k in
  match err with
  | None => ls_rep (le_db e') (delete k m) /\ (le_sync e = true -> ls_durable (le_db e') (delete k m))
  | Some _ => ls_rep (le_db e') m
  end.
Proof.
  intros Hr. pose proof (ls_del_law (le_db e) m (le_sync e) k Hr) as Hl. destruct (le_delete e k) as [Hd He].
  destruct (ad_delete e k) as [e' err], (ls_del _ _ _) as [db' err']. cbn in *. by subst.
Qed.

Lemma le_commit_law (e : E) m l : ls_rep (le_db e) m ->
  let '(e', err) := ad_commit e l in
  match err with
  | None => ls_rep (le_db e') (apply_ops m l) /\ (le_sync e = true -> ls_durable (le_db e') (apply_ops m l))
  | Some _ => ls_rep (le_db e') m
  end.
Proof.
  intros Hr. pose proof (ls_write_law (le_db e) m (le_sync e) (norm_op <$> l) Hr) as Hl.
  rewrite apply_norm_ops in Hl. destruct (le_commit e l) as [Hd He].
  destruct (ad_commit e l) as [e' err], (ls_write _ _ _) as [db' err']. cbn in *. by subst.
Qed.

#[global] Instance lsm_adapter : Adapter E.
Proof.
  refine {| ad_rep e m := ls_rep (le_db e) m; ad_ok e := ls_ok (le_db e); ad_valid := ls_valid |}.
  - apply le_get_spec.
  - intros e m k v Hr. pose proof (le_put_law e m k v Hr) as Hl.
    destruct (ad_put e k v) as [e' [err|]]; [done|apply Hl].
  - intros e m k Hr. pose proof (le_delete_law e m k Hr) as Hl.
    destruct (ad_delete e k) as [e' [err|]]; [done|apply Hl].
  - intros e m l Hr. pose proof (le_commit_law e m l Hr) as Hl.
    destruct (ad_commit e l) as [e' [err|]]; [done|apply Hl].
  - apply le_scan_spec.
  - apply le_get_ok.
  - intros e m k v Hr Hok Hv. destruct (le_put e k v) as [-> ->]. by apply ls_put_ok.
  - intros e m k v Hr Hok Hv. destruct (le_delete e k) as [-> ->]. by eapply ls_del_ok.
  - intros e m l Hr Hok Hv. destruct (le_commit e l) as [-> ->]. by apply ls_write_ok, norm_ops_valid.
  - apply le_scan_ok.
Defined.

(** With the flag set, an acknowledged write is on disk. *)
Lemma write_durable (e : E) m r :
  ad_rep e m -> le_sync e = true -> is_write r = true -> (run_request e r).1 = AAck None ->
  ls_durable (le_db (run_request e r).2) (map_request m r).2.
Proof.
  intros Hr Hs Hw Ha. destruct r as [k|o|l|start n]; try done; cbn in *.
  - unfold apply_op. destruct (op_del o).
    + pose proof (le_delete_law e m (op_k o) Hr) as Hl.
      destruct (ad_delete e (op_k o)) as [e' [err|]]; cbn in *; [done|]. by apply Hl.
    + pose proof (le_put_law e m (op_k o) (op_v o) Hr) as Hl.
      destruct (ad_put e (op_k o) (op_v o)) as [e' [err|]]; cbn in *; [done|]. by apply Hl.
  - pose proof (le_commit_law e m l Hr) as Hl.
    destruct (ad_commit e l) as [e' [err|]]; cbn in *; [done|]. by apply Hl.
Qed.
End LsmEngine.

(** ** A store that meets the laws

    A map, the map a crash would leave, and a switch that makes writes fail. *)

Record memLsm := MkMemLsm { ml_map : gmap bytes bytes; ml_disk : gmap bytes bytes; ml_full : bool }.

Definition ml_set (db : memLsm) (sync : bool) (m : gmap bytes bytes) : memLsm * option serr :=
  if ml_full db then (db, Some (ErrStore "disk full"))
  else (MkMemLsm m (if sync then m else ml_disk db) false, None).

#[global] Instance memLsm_db : LsmDB memLsm := {
  ls_put db sync k v := ml_set db sync (<[k := v]> (ml_map db));
  ls_del db sync k := ml_set db sync (delete k (ml_map db));
  ls_write db sync ops := ml_set db sync (apply_ops (ml_map db) ops) }.

#[global] Instance memLsm_laws : LsmLaws memLsm.
Proof.
  refine {| ls_rep db m := ml_map db = m; ls_durable db m := ml_disk db = m;
            ls_ok db := ml_full db = false; ls_valid k v := True |};
    cbn; unfold ml_set; intros; subst; try (by destruct (ml_full db), sync);
    match goal with H : ml_full _ = false |- _ => by rewrite H end.
Defined.

#[global] Instance memLsm_get_err : GetErr memLsm :=
  fun db k => match ml_map db !! k with Some v => inl v | None => inr ErrNotFound end.
#[global] Instance memLsm_get_err_laws : GetErrLaws memLsm.
Proof.
  split; unfold ge_get, memLsm_get_err; cbn.
  - intros db m k <-. by destruct (ml_map db !! k).
  - intros db k v _ _ msg. by destruct (ml_map db !! k).
Defined.

#[global] Instance memLsm_get_opt : GetOpt memLsm := fun db k => inl (ml_map db !! k).
#[global] Instance memLsm_get_opt_laws : GetOptLaws memLsm.
Proof. split; unfold go_get, memLsm_get_opt; cbn; intros; by subst. Defined.

(** Rows still ahead, and the current one. *)
Record memIt := MkMemIt { me_rows : list (bytes * bytes); me_cur : bytes * bytes }.

Definition me_move (it : memIt) : bool * memIt :=
  match me_rows it with
  | [] => (false, it)
  | kv :: rows => (true, MkMemIt rows kv)
  end.

#[global] Instance memLsm_iter : BoundIter memLsm memIt := {
  bi_new db start := inl (MkMemIt (entries_from (ml_map db) start) ([], []));
  bi_first := me_move;
  bi_next := me_move;
  bi_key it := (me_cur it).1;
  bi_value it := (me_cur it).2 }.

#[global] Instance memLsm_iter_laws : BoundIterLaws memLsm memIt.
Proof.
  assert (forall it rows, me_rows it = rows ->
    match me_move it with
    | (true, it') => exists rows', rows = ((me_cur it').1, (me_cur it').2) :: rows' /\ me_rows it' = rows'
    | (false, _) => True -> rows = []
    end) as Hm.
  { intros it rows <-. unfold me_move. destruct (me_rows it) as [|[k v] rows]; [done|]. by exists rows. }
  refine {| bi_on it rows := me_rows it = rows; bi_at it rows := me_rows it = rows; bi_ok it := True |};
    cbn; try done.
  - by intros db m start <-.
  - intros db start _. by eexists.
Defined.

(** The same rows with the current one at their head, over the map they come
    from. *)
Record memSeek := MkMemSeek { ms_map : gmap bytes bytes; ms_rows : list (bytes * bytes) }.

#[global] Instance memLsm_seek : SeekIter memLsm memSeek := {
  si_new db := MkMemSeek (ml_map db) [];
  si_first it := MkMemSeek (ms_map it) (entries (ms_map it));
  si_seek it start := MkMemSeek (ms_map it) (entries_from (ms_map it) start);
  si_next it := MkMemSeek (ms_map it) (tail (ms_rows it));
  si_valid it := match ms_rows it with [] => false | _ => true end;
  si_key it := from_option fst [] (head (ms_rows it));
  si_value it := from_option snd [] (head (ms_rows it)) }.

#[global] Instance memLsm_seek_laws : SeekIterLaws memLsm memSeek.
Proof.
  refine {| si_view it m := ms_map it = m; si_at it rows := ms_rows it = rows; si_ok it := True |}; cbn; try done.
  - by intros it m <-.
  - by intros it m start <-.
  - intros [m rows] rs <-. cbn. destruct rows as [|[k v] rows]; [done|]. by exists rows.
Defined.

Definition demo_lsm : memLsm := MkMemLsm ∅ ∅ false.

Definition demo_lsm_requests : list areq :=
  let a := [Byte.x61] in let b := [Byte.x62] in let c := [Byte.x63] in
  [AWrite (PutOp b [Byte.x01]); AGet b; AGet a; ABatch [PutOp a [Byte.x03]; DelOp c; PutOp c []];
   AScan a 2; AWrite (DelOp b); AGet b; AScan [] 10].
