(* ===== verification/Goleveldb.v ===== *)
(** * The goleveldb adapter (adapters/goleveldb/goleveldb.go)

    Writes go through the write options [Open] chose, a batch through the
    store's own write batch, a scan through an iterator with a lower bound. *)

From S2P Require Import Prelude Codec Engine Ordered Adapter LsmStore.
Local Open Scope go_scope.

Definition engMeta : Meta :=
  MkMeta "goleveldb" FamilyLSM ModeInProc "" "v1.0" ""
    (MkCapabilities true true true false false false true)
    [MkAsterisk "default-durability" "the default WriteOptions leave Sync=false: the log is written but not fsynced per commit, so the out-of-box write number is the async path"]
    false.

(** An opened engine: the store and the Sync of its write options. *)
Record eng (DB It : Type) := MkEng { e_db : DB; e_sync : bool }.
Arguments MkEng {DB It}.
Arguments e_db {DB It}.
Arguments e_sync {DB It}.

(** The block cache capacity asked for: none unless it is positive. *)
Definition openCache (cfg : Config) : option Z :=
  if 0 <? CfgCacheBytes cfg then Some (CfgCacheBytes cfg) else None.

(** The Sync of the write options. *)
Definition openSync (cfg : Config) : bool := bool_decide (CfgSynchronous cfg = "FULL").

(** [Open], given what [leveldb.OpenFile] returns for the directory and the
    cache. *)
Definition Open {DB It} (openFile : string -> option Z -> DB + serr) (cfg : Config) : eng DB It + serr :=
  match openFile (CfgDir cfg) (openCache cfg) with
  | inr err => inr err
  | inl db => inl (MkEng db (openSync cfg))
  end.

(** The store's own batch: the writes it was given, in order. *)
Record batch := MkBatch { ops : list memOp }.
Definition NewBatch : batch := MkBatch [].
Definition batchPut (b : batch) (k v : bytes) : batch := MkBatch (ops b ++ [PutOp k v]).
Definition batchDelete (b : batch) (k : bytes) : batch := MkBatch (ops b ++ [DelOp k]).
Definition batchLen (b : batch) : Z := len (ops b).


Section Ops.
Context {DB It : Type} `{LsmDB DB, GetErr DB, BoundIter DB It}.

Definition Get (e : eng DB It) (key : bytes) : option bytes + serr :=
  match ge_get (e_db e) key with
  | inr ErrNotFound => inl None
  | inl v => inl (Some v)
  | inr err => inr err
  end.

Definition Put (e : eng DB It) (key value : bytes) : DB * option serr := ls_put (e_db e) (e_sync e) key value.
Definition Delete (e : eng DB It) (key : bytes) : DB * option serr := ls_del (e_db e) (e_sync e) key.

(** The batch is reset whatever the write returned. *)
Definition Commit (e : eng DB It) (b : batch) : DB * batch * option serr :=
  let '(db, err) := ls_write (e_db e) (e_sync e) (ops b) in (db, NewBatch, err).

Definition Scan (e : eng DB It) (start : bytes) : (It * bool) + serr :=
  match bi_new (e_db e) start with
  | inr err => inr err
  | inl it => inl (it, true)
  end.

Definition Next (i : It * bool) : bool * (It * bool) :=
  let '(it, first) := i in
  if first : bool then let '(more, it') := bi_first it in (more, (it', false))
  else let '(more, it') := bi_next it in (more, (it', false)).

Definition batchOf (l : list memOp) : batch := build_batch NewBatch batchPut batchDelete l.

Definition scanRows (e : eng DB It) (start : bytes) (n : nat) : list (bytes * bytes) + serr :=
  match Scan e start with
  | inr err => inr err
  | inl it => inl (read_rows Next (fun i => bi_key i.1) (fun i => bi_value i.1) n it)
  end.

#[global] Instance adapterOps : AdapterOps (eng DB It) := {
  ad_get e k := Get e k;
  ad_put e k v := let '(db, err) := Put e k v in (MkEng db (e_sync e), err);
  ad_delete e k := let '(db, err) := Delete e k in (MkEng db (e_sync e), err);
  ad_commit e l := let '(db, _, err) := Commit e (batchOf l) in (MkEng db (e_sync e), err);
  ad_scan := scanRows }.

Lemma goleveldb_Get_eq (e : eng DB It) k : Get e k = missIsNone (ge_get (e_db e) k).
Proof. unfold Get, missIsNone. by destruct (ge_get (e_db e) k) as [v|[|msg]]. Qed.
End Ops.

Definition Flush : option serr := None.

(** [Stats] leaves every field unknown. *)
Definition Stats : Engine.Stats := UnknownStats.

Definition Close {DB} (dbClose : DB -> option serr) (db : option DB) : option serr :=
  match db with Some d => dbClose d | None => None end.

Lemma goleveldb_batchOf_ops l : ops (batchOf l) = norm_op <$> l.
Proof. by apply (build_batch_ops ops). Qed.

Section Contract.
Context {DB It : Type} `{LsmLaws DB} `{!GetErr DB} `{!GetErrLaws DB} `{!BoundIter DB It} `{!BoundIterLaws DB It}.

#[global] Instance lsmEngine : LsmEngine (eng DB It) DB.
Proof.
  refine {| le_db e := e_db e; le_sync e := e_sync e |}.
  - intros e k v. cbn. unfold Put. by destruct (ls_put _ _ _ _).
  - intros e k. cbn. unfold Delete. by destruct (ls_del _ _ _).
  - intros e l. cbn. unfold Commit. rewrite goleveldb_batchOf_ops. by destruct (ls_write _ _ _).
  - intros e m k Hr. cbn. rewrite goleveldb_Get_eq. by apply missIsNone_spec.
  - intros e m k v Hr Hok Hv. cbn. rewrite goleveldb_Get_eq. by eapply missIsNone_ok.
  - intros e m start n Hr. cbn. unfold scanRows, Scan. pose proof (bi_new_law (e_db e) m start Hr) as Hl.
    destruct (bi_new (e_db e) start) as [it|err]; [|done]. by apply firstNext_prefix.
  - intros e m start n Hr Hok. cbn. unfold scanRows, Scan.
    destruct (bi_new_ok (e_db e) start Hok) as (it & Hit & Hiok).
    pose proof (bi_new_law (e_db e) m start Hr) as Hl. rewrite Hit in *. f_equal. by apply firstNext_all.
Defined.
End Contract.

(** The contract of [honours] for the goleveldb adapter; and an engine
    opened at FULL has every write it acknowledged on disk. *)
Lemma goleveldb_contract {DB It} `{LsmLaws DB} `{!GetErr DB} `{!GetErrLaws DB} `{!BoundIter DB It}
    `{!BoundIterLaws DB It} openFile cfg (e : eng DB It) m rs :
  Open openFile cfg = inl e -> ad_rep e m ->
  honours e m rs /\
  (CfgSynchronous cfg = "FULL" -> forall r, is_write r = true -> (run_request e r).1 = AAck None ->
   ls_durable (e_db (run_request e r).2) (map_request m r).2).
Proof.
  intros Ho Hr. split; [by apply adapter_honours|]. intros Hfull r Hw Ha. refine (write_durable e m r Hr _ Hw Ha).
  unfold Open in Ho. destruct (openFile _ _); simplify_eq. cbn. by apply bool_decide_eq_true_2.
Qed.
