(* ===== verification/Rocks.v ===== *)
(** * The RocksDB family adapter (adapters/rocksfamily/rocksfamily.go)

    One engine for RocksDB and Speedb: the two adapters differ in the name,
    version and notes they register with.  Writes carry the write options
    [Open] chose; an empty start key scans from the first row; the iterator is
    placed when the scan opens, so its first [Next] does not move it. *)

From S2P Require Import Prelude Codec Engine Ordered Adapter LsmStore.
Local Open Scope go_scope.

(** What [New] is given. *)
Record spec := MkSpec { s_name : string; s_version : string; s_extra : list Asterisk }.

Definition New (name version : string) (extra : list Asterisk) : spec := MkSpec name version extra.

Definition familyAsterisks : list Asterisk :=
  [MkAsterisk "default-durability" "the default write does not fsync per commit (WriteOptions.Sync=false): the WAL is buffered to the OS and fsynced in the background, the same async-WAL class as pebble, badger and goleveldb";
   MkAsterisk "cgo-tax" "reached via cgo into C++; the call-boundary cost is included, not subtracted";
   MkAsterisk "not-single-file" "a RocksDB-API store is a directory of SST files plus a WAL, not a single file, so it is not in the single-file class with kv, bbolt and the LMDB pair"].

Definition engMeta (e : spec) : Meta :=
  MkMeta (s_name e) FamilyLSM ModeCgo ClassEmbedded (s_version e) ""
    (MkCapabilities true true true false true false false)
    (familyAsterisks ++ s_extra e) false.

Definition rocksdb : spec :=
  New "rocksdb" "system-lib"
    [MkAsterisk "system-lib" "links the host librocksdb rather than a bundled copy, so the measured version is whatever the host installed (brew rocksdb on macOS, librocksdb-dev on Debian/Ubuntu)"].

Definition speedb : spec :=
  New "speedb" "speedb-system-lib"
    [MkAsterisk "rocksdb-compatible" "Speedb is a drop-in RocksDB fork reached through the same grocksdb binding as rocksdb; the API and on-disk format are RocksDB's, the internals (memtable, compaction, write flow) are Speedb's";
     MkAsterisk "system-lib" "links the host Speedb library exposed to the linker as librocksdb, so the measured version is whatever Speedb build the host provided";
     MkAsterisk "exclusive-build" "rocksdb and speedb share the one grocksdb binding that links a single librocksdb, so this adapter is built into its own binary under -tags speedb_engines, never alongside rocksdb"].

(** ** Opening and closing

    The native objects the engine owns; those of the options are made before
    the store is opened, so they are there when opening fails. *)

Inductive handle := HDb | HRo | HWo | HFo | HOpts.

#[global] Instance handle_eq_dec : EqDecision handle.
Proof. solve_decision. Defined.

Record eng (DB It : Type) := MkEng {
  e_db : option DB;
  e_opts : bool;
  e_ro : bool;
  e_wo : option bool;
  e_fo : bool }.
Arguments MkEng {DB It}.
Arguments e_db {DB It}.
Arguments e_opts {DB It}.
Arguments e_ro {DB It}.
Arguments e_wo {DB It}.
Arguments e_fo {DB It}.

(** The engine a factory returns. *)
Definition newEng {DB It} : eng DB It := MkEng None false false None false.

(** The Sync of the write options: only FULL sets it. *)
Definition openSync (cfg : Config) : bool := if bool_decide (CfgSynchronous cfg = "FULL") then true else false.

(** [Open], given what [grocksdb.OpenDb] returns for the directory. *)
Definition Open {DB It} (openDb : string -> DB + serr) (e : eng DB It) (cfg : Config) : eng DB It * option serr :=
  match openDb (CfgDir cfg) with
  | inr err => (MkEng (e_db e) true true (Some (openSync cfg)) true, Some err)
  | inl db => (MkEng (Some db) true true (Some (openSync cfg)) true, None)
  end.

(** [Close] releases what is there, in this order. *)
Definition Close {DB It} (e : eng DB It) : list handle :=
  (if e_db e is Some _ then [HDb] else []) ++ (if e_ro e then [HRo] else []) ++
  (if e_wo e is Some _ then [HWo] else []) ++ (if e_fo e then [HFo] else []) ++
  (if e_opts e then [HOpts] else []).

(** The native objects behind an engine. *)
Definition owned {DB It} (e : eng DB It) (h : handle) : bool :=
  match h with
  | HDb => bool_decide (is_Some (e_db e))
  | HRo => e_ro e
  | HWo => bool_decide (is_Some (e_wo e))
  | HFo => e_fo e
  | HOpts => e_opts e
  end.

(** Whatever state [Open] left, [Close] releases each object the engine owns
    exactly once. *)
Lemma close_releases {DB It} (e : eng DB It) :
  NoDup (Close e) /\ forall h, h ∈ Close e <-> owned e h = true.
Proof.
  destruct e as [[db|] [] [] [b|] []]; (split; [apply (bool_decide_unpack _); reflexivity|]);
    intros h; rewrite <- (bool_decide_eq_true (h ∈ _)); by destruct h.
Qed.

(** ** Operations on an opened store *)

Record store (DB It : Type) := MkStore { s_db : DB; s_sync : bool }.
Arguments MkStore {DB It}.
Arguments s_db {DB It}.
Arguments s_sync {DB It}.

(** The store and write options of an engine whose [Open] succeeded. *)
Definition opened {DB It} (e : eng DB It) : option (store DB It) :=
  db ← e_db e; sync ← e_wo e; Some (MkStore db sync).

(** The binding's own batch: the writes it was given, in order. *)
Record batch := MkBatch { ops : list memOp }.
Definition NewBatch : batch := MkBatch [].
Definition batchPut (b : batch) (k v : bytes) : batch := MkBatch (ops b ++ [PutOp k v]).
Definition batchDelete (b : batch) (k : bytes) : batch := MkBatch (ops b ++ [DelOp k]).
Definition batchLen (b : batch) : Z := len (ops b).

(** The iterator with the flag of its first call, and the copied row. *)
Record iter (It : Type) := MkIter { it_it : It; it_first : bool; it_k : bytes; it_v : bytes }.
Arguments MkIter {It}.
Arguments it_it {It}.
Arguments it_first {It}.
Arguments it_k {It}.
Arguments it_v {It}.

Section Ops.
Context {DB It : Type} `{LsmDB DB, GetOpt DB, SeekIter DB It}.

Definition Get (e : store DB It) (key : bytes) : option bytes + serr :=
  match go_get (s_db e) key with
  | inr err => inr err
  | inl None => inl None
  | inl (Some data) => inl (Some data)
  end.

Definition Put (e : store DB It) (key value : bytes) : DB * option serr := ls_put (s_db e) (s_sync e) key value.
Definition Delete (e : store DB It) (key : bytes) : DB * option serr := ls_del (s_db e) (s_sync e) key.

(** The batch is cleared whatever the write returned. *)
Definition Commit (e : store DB It) (b : batch) : DB * batch * option serr :=
  let '(db, err) := ls_write (s_db e) (s_sync e) (ops b) in (db, NewBatch, err).

Definition Scan (e : store DB It) (start : bytes) : iter It :=
  let it := si_new (s_db e) in
  let it := if len start =? 0 then si_first it else si_seek it start in
  MkIter it true [] [].

Definition Next (i : iter It) : bool * iter It :=
  let it := if negb (it_first i) then si_next (it_it i) else it_it i in
  if negb (si_valid it) then (false, MkIter it false (it_k i) (it_v i))
  else (true, MkIter it false (si_key it) (si_value it)).

Definition batchOf (l : list memOp) : batch := build_batch NewBatch batchPut batchDelete l.

#[global] Instance adapterOps : AdapterOps (store DB It) := {
  ad_get e k := Get e k;
  ad_put e k v := let '(db, err) := Put e k v in (MkStore db (s_sync e), err);
  ad_delete e k := let '(db, err) := Delete e k in (MkStore db (s_sync e), err);
  ad_commit e l := let '(db, _, err) := Commit e (batchOf l) in (MkStore db (s_sync e), err);
  ad_scan e start n := inl (read_rows Next it_k it_v n (Scan e start)) }.
End Ops.

(** [Flush], given the store's call. *)
Definition Flush {DB} (dbFlush : DB -> DB * option serr) (db : DB) : DB * option serr := dbFlush db.

Definition Stats : Engine.Stats := UnknownStats.

Lemma rocks_batchOf_ops l : ops (batchOf l) = norm_op <$> l.
Proof. by apply (build_batch_ops ops). Qed.

Section Contract.
Context {DB It : Type} `{LsmLaws DB} `{!GetOpt DB} `{!GetOptLaws DB} `{!SeekIter DB It} `{!SeekIterLaws DB It}.

(** The rows an iterator has still to give: before the first call it stands on
    the first of them, later on the row before them. *)
Definition iter_rows (i : iter It) (rows : list (bytes * bytes)) : Prop :=
  if it_first i then si_at (it_it i) rows else si_at (si_next (it_it i)) rows.

Lemma Scan_rows (e : store DB It) m start :
  ls_rep (s_db e) m -> iter_rows (Scan e start) (entries_from m start).
Proof.
  intros Hr. unfold Scan, iter_rows. cbn. pose proof (si_new_law (s_db e) m Hr) as Hv.
  destruct (Z.eqb_spec (len start) 0); [|by apply si_seek_law]. assert (start = []) as -> by (by destruct start).
  rewrite entries_from_nil. by apply si_first_law.
Qed.

Lemma Scan_ok (e : store DB It) start : ls_ok (s_db e) -> si_ok (it_it (Scan e start)).
Proof. intros Hok%si_new_ok. unfold Scan. cbn. destruct (Z.eqb_spec (len start) 0); [by apply si_first_ok|by apply si_seek_ok]. Qed.

Lemma rocks_Next_step i rows :
  iter_rows i rows ->
  match (Next i).1 with
  | true => exists rows', rows = (it_k (Next i).2, it_v (Next i).2) :: rows' /\ iter_rows (Next i).2 rows'
  | false => si_ok (it_it i) -> rows = []
  end /\ (si_ok (it_it i) -> si_ok (it_it (Next i).2)).
Proof.
  destruct i as [it first k v]; unfold iter_rows, Next; cbn. intros Hi.
  destruct first; cbn.
  - pose proof (si_valid_law it rows Hi) as Hl. by destruct (si_valid it).
  - pose proof (si_valid_law (si_next it) rows Hi) as Hl. pose proof (si_next_ok it) as Hn.
    destruct (si_valid (si_next it)); cbn; [done|]. split; [|done]. intros Hok. by apply Hl, Hn.
Qed.

#[global] Instance lsmEngine : LsmEngine (store DB It) DB.
Proof.
  refine {| le_db e := s_db e; le_sync e := s_sync e |}.
  - intros e k v. cbn. unfold Put. by destruct (ls_put _ _ _ _).
  - intros e k. cbn. unfold Delete. by destruct (ls_del _ _ _).
  - intros e l. cbn. unfold Commit. rewrite rocks_batchOf_ops. by destruct (ls_write _ _ _).
  - intros e m k Hr. cbn. unfold Get. pose proof (go_law (s_db e) m k Hr) as Hl.
    by destruct (go_get (s_db e) k) as [[v|]|].
  - intros e m k v Hr Hok Hv. cbn. unfold Get. rewrite (go_ok (s_db e) m k v Hr Hok Hv). by destruct (m !! k).
  - intros e m start n Hr. cbn. apply (read_rows_prefix _ _ _ iter_rows); [|by apply Scan_rows].
    intros i rows Hi Hmore. destruct (rocks_Next_step i rows Hi) as [Hn _]. rewrite Hmore in Hn.
    destruct Hn as (rows' & -> & Hi'). eauto.
  - intros e m start n Hr Hok. cbn. f_equal.
    apply (read_rows_all _ _ _ (fun i rs => iter_rows i rs /\ si_ok (it_it i)));
      [|split; [by apply Scan_rows|by apply Scan_ok]].
    intros i rs [Hi Hiok]. destruct (rocks_Next_step i rs Hi) as [Hn Hk]. exists (Next i).2.
    destruct (Next i) as [[] i']; cbn in *.
    + destruct Hn as (rows' & -> & Hr'). auto.
    + by rewrite Hn.
Defined.
End Contract.

(** The contract of [honours] for the RocksDB family adapter, whichever
    of its engines; an engine opened at FULL has every write it acknowledged on
    disk; and whether or not [Open] succeeded, [Close] releases each native
    object [Open] made exactly once. *)
Lemma rocks_contract {DB It} `{LsmLaws DB} `{!GetOpt DB} `{!GetOptLaws DB} `{!SeekIter DB It}
    `{!SeekIterLaws DB It} openDb cfg (e : eng DB It) err m rs :
  Open openDb newEng cfg = (e, err) ->
  (forall db, openDb (CfgDir cfg) = inl db -> ls_rep db m) ->
  (forall s, opened e = Some s ->
   honours s m rs /\
   (CfgSynchronous cfg = "FULL" -> forall r, is_write r = true -> (run_request s r).1 = AAck None ->
    ls_durable (s_db (run_request s r).2) (map_request m r).2)) /\
  (is_Some (opened e) <-> err = None) /\
  NoDup (Close e) /\ (forall h, h ∈ Close e <-> h <> HDb \/ err = None).
Proof.
  intros Ho Hr. destruct (close_releases e) as [Hnd Hcl]. unfold Open in Ho.
  destruct (openDb (CfgDir cfg)) as [db|msg]; simplify_eq; cbn in *.
  - split_and!; [|by eauto|done|].
    + intros s [= <-]. pose proof (Hr _ eq_refl) as Hdb. set (s := MkStore db (openSync cfg)).
      assert (ad_rep s m) as Hs by done. split; [by apply adapter_honours|]. intros Hfull r Hw Ha.
      refine (write_durable s m r Hs _ Hw Ha). cbn. unfold openSync. by rewrite bool_decide_eq_true_2.
    + intros h. rewrite Hcl; clear Hcl Hr; destruct h; cbn; naive_solver.
  - split_and!; [done| |done|].
    + split; [by intros []|done].
    + intros h. rewrite Hcl; clear Hcl Hr; destruct h; cbn; naive_solver.
Qed.
