(* ===== verification/Point.v ===== *)
(** * Point stores

    What the pogreb, badger and RESP adapters promise: reads and writes by key,
    and a batch that is not one transaction, so that one that fails may have
    taken effect in part.  The contract is that of
    [Adapter.Adapter] with this one freedom; it is enough for a caller who
    repeats a failed batch. *)

From S2P Require Import Prelude Codec Engine Ordered Adapter.
Local Open Scope go_scope.

(** Some of the writes of [ops] took effect, in order. *)
Definition partly (m : gmap bytes bytes) (ops : list memOp) (m' : gmap bytes bytes) : Prop :=
  exists l, l `sublist_of` ops /\ m' = apply_ops m l.

(** As [accounts1], but a write that reports an error may have taken effect,
    and a batch that does may have in part; of a scan only the keys are
    promised. *)
Definition loose1 (m : gmap bytes bytes) (r : areq) (a : answer) (m' : gmap bytes bytes) : Prop :=
  match r, a with
  | AWrite o, AAck (Some _) => partly m [o] m'
  | ABatch ops, AAck (Some _) => partly m ops m'
  | AScan start n, ARows (inl rows) => rows.*1 `prefix_of` (take n (entries_from m start)).*1 /\ m' = m
  | _, _ => accounts1 m r a m'
  end.

Fixpoint loosely (m : gmap bytes bytes) (rs : list areq) (ans : list answer) (m' : gmap bytes bytes) : Prop :=
  match rs, ans with
  | [], [] => m' = m
  | r :: rs', a :: ans' => exists m1, loose1 m r a m1 /\ loosely m1 rs' ans' m'
  | _, _ => False
  end.

(** ** Writes applied twice *)

Lemma apply_op_absorb o m k : op_k o = k -> apply_op m o !! k = if op_del o then None else Some (op_v o).
Proof. intros <-. unfold apply_op. destruct (op_del o); [apply lookup_delete_eq|apply lookup_insert_eq]. Qed.

Lemma apply_op_other o m k : op_k o <> k -> apply_op m o !! k = m !! k.
Proof. intros Hk. unfold apply_op. destruct (op_del o); [by apply lookup_delete_ne|by apply lookup_insert_ne]. Qed.

(** What a run of writes leaves at a key depends on the map only if none of
    them is to that key. *)
Lemma apply_ops_agree ops m1 m2 k :
  k ∈ (op_k <$> ops) \/ m1 !! k = m2 !! k -> apply_ops m1 ops !! k = apply_ops m2 ops !! k.
Proof.
  revert m1 m2. induction ops as [|o ops IH]; intros m1 m2 Hk; [by destruct Hk as [?%elem_of_nil|]|].
  unfold apply_ops in *. cbn. apply IH. destruct (decide (op_k o = k)) as [Ho|Ho].
  - right. by rewrite !apply_op_absorb.
  - rewrite !apply_op_other by done. cbn in Hk. rewrite elem_of_cons in Hk. naive_solver.
Qed.

Lemma apply_ops_other ops m k : k ∉ (op_k <$> ops) -> apply_ops m ops !! k = m !! k.
Proof.
  revert m. induction ops as [|o ops IH]; intros m Hk; [done|]. cbn in Hk. rewrite not_elem_of_cons in Hk.
  unfold apply_ops in *. cbn. rewrite IH by tauto. apply apply_op_other. naive_solver.
Qed.

(** A batch that took effect in part and is then applied whole leaves what it
    would have left the first time. *)
Lemma partly_retry m ops m' : partly m ops m' -> apply_ops m' ops = apply_ops m ops.
Proof.
  intros (l & Hl & ->). apply map_eq. intros k. apply apply_ops_agree.
  destruct (decide (k ∈ (op_k <$> ops))) as [|Hk]; [by left|right]. apply apply_ops_other.
  intros Hin. apply Hk. eapply sublist_subseteq; [by apply fmap_sublist|done].
Qed.

Lemma apply_ops_app m l1 l2 : apply_ops m (l1 ++ l2) = apply_ops (apply_ops m l1) l2.
Proof. apply foldl_app. Qed.

Lemma partly_none m ops : partly m ops m.
Proof. exists []. split; [apply sublist_nil_l|done]. Qed.

Lemma partly_all m ops : partly m ops (apply_ops m ops).
Proof. by exists ops. Qed.

Lemma partly_take m ops n : partly m ops (apply_ops m (take n ops)).
Proof. exists (take n ops). split; [apply sublist_take|done]. Qed.

(** A batch is recorded with its writes in normal form. *)
Lemma sublist_fmap_inv {A B} (f : A -> B) (l : list A) : forall k,
  k `sublist_of` (f <$> l) -> exists l', k = f <$> l' /\ l' `sublist_of` l.
Proof.
  induction l as [|x l IH]; intros k Hk; cbn in Hk.
  - apply sublist_nil_r in Hk as ->. by exists [].
  - apply sublist_cons_r in Hk as [Hk|(k' & -> & Hk)]; destruct (IH _ Hk) as (l' & -> & Hl').
    + exists l'. split; [done|]. by apply sublist_cons.
    + exists (x :: l'). split; [done|]. by apply sublist_skip.
Qed.

Lemma partly_norm m l m' : partly m (norm_op <$> l) m' -> partly m l m'.
Proof.
  intros (k & Hk & ->). apply sublist_fmap_inv in Hk as (l' & -> & Hl'). exists l'.
  by rewrite apply_norm_ops.
Qed.

(** ** The contract *)

Class PointAdapter (E : Type) `{AdapterOps E} := {
  pa_rep : E -> gmap bytes bytes -> Prop;
  pa_ok : E -> Prop;
  pa_valid : bytes -> bytes -> Prop;
  pa_get_spec e m k : pa_rep e m ->
    match ad_get e k with inl v => v = m !! k | inr _ => True end;
  pa_write_spec e m o : pa_rep e m ->
    let '(e', err) := (if op_del o then ad_delete e (op_k o) else ad_put e (op_k o) (op_v o)) in
    match err with
    | None => pa_rep e' (apply_op m o)
    | Some _ => exists m', partly m [o] m' /\ pa_rep e' m'
    end;
  pa_commit_spec e m ops : pa_rep e m ->
    let '(e', err) := ad_commit e ops in
    match err with
    | None => pa_rep e' (apply_ops m ops)
    | Some _ => exists m', partly m ops m' /\ pa_rep e' m'
    end;
  pa_scan_spec e m start n : pa_rep e m ->
    match ad_scan e start n with
    | inl rows => rows.*1 `prefix_of` (take n (entries_from m start)).*1
    | inr _ => True
    end;
  pa_get_ok e m k v : pa_rep e m -> pa_ok e -> pa_valid k v -> ad_get e k = inl (m !! k);
  pa_write_ok e o : pa_ok e -> op_valid pa_valid o ->
    let '(e', err) := (if op_del o then ad_delete e (op_k o) else ad_put e (op_k o) (op_v o)) in
    err = None /\ pa_ok e';
  pa_commit_ok e ops : pa_ok e -> Forall (op_valid pa_valid) ops ->
    (ad_commit e ops).2 = None /\ pa_ok (ad_commit e ops).1 }.

Section Client.
Context {E : Type} `{PointAdapter E}.

(** Anything but a scan, of an entry the store accepts. *)
Definition point_valid (r : areq) : Prop :=
  match r with
  | AGet k => exists v, pa_valid k v
  | AWrite o => op_valid pa_valid o
  | ABatch ops => Forall (op_valid pa_valid) ops
  | AScan _ _ => False
  end.

Lemma request_loose (e : E) m r :
  pa_rep e m -> exists m', loose1 m r (run_request e r).1 m' /\ pa_rep (run_request e r).2 m'.
Proof.
  intros Hr. destruct r as [k|o|ops|start n]; cbn.
  - pose proof (pa_get_spec e m k Hr) as Hg. exists m. by destruct (ad_get e k).
  - pose proof (pa_write_spec e m o Hr) as Hw.
    destruct (if op_del o then _ else _) as [e' [err|]]; cbn; [done|]. eexists. by split.
  - pose proof (pa_commit_spec e m ops Hr) as Hc. destruct (ad_commit e ops) as [e' [err|]]; cbn; [done|].
    eexists. by split.
  - pose proof (pa_scan_spec e m start n Hr) as Hs. exists m. by destruct (ad_scan e start n).
Qed.

Lemma requests_loose rs : forall (e : E) m,
  pa_rep e m -> exists m', loosely m rs (run_requests e rs).1 m' /\ pa_rep (run_requests e rs).2 m'.
Proof.
  induction rs as [|r rs IH]; intros e m Hr; cbn; [by exists m|].
  destruct (request_loose e m r Hr) as (m1 & Ha & Hr1). destruct (run_request e r) as [a e1].
  destruct (IH e1 m1 Hr1) as (m2 & Hacc & Hr2). destruct (run_requests e1 rs) as [ans e2]. cbn in *. eauto 6.
Qed.

Lemma point_request_ok (e : E) m r :
  pa_rep e m -> pa_ok e -> point_valid r ->
  (run_request e r).1 = (map_request m r).1 /\ pa_rep (run_request e r).2 (map_request m r).2 /\
  pa_ok (run_request e r).2.
Proof.
  intros Hr Hok Hv. destruct r as [k|o|ops|start n]; cbn in *; [| | |done].
  - destruct Hv as [v Hv]. by rewrite (pa_get_ok e m k v).
  - pose proof (pa_write_spec e m o Hr) as Hw. pose proof (pa_write_ok e o Hok Hv) as Hk.
    destruct (if op_del o then _ else _) as [e' err]. destruct Hk as [-> Hk]. done.
  - pose proof (pa_commit_spec e m ops Hr) as Hc. destruct (pa_commit_ok e ops Hok Hv) as [Hn Hk].
    destruct (ad_commit e ops) as [e' err]. cbn in *. by subst.
Qed.

Lemma point_requests_ok rs : forall (e : E) m,
  pa_rep e m -> pa_ok e -> Forall point_valid rs ->
  (run_requests e rs).1 = (map_requests m rs).1 /\
  pa_rep (run_requests e rs).2 (map_requests m rs).2.
Proof.
  induction rs as [|r rs IH]; intros e m Hr Hok Hv; cbn; [done|]. apply Forall_cons in Hv as [Hv Hvs].
  destruct (point_request_ok e m r Hr Hok Hv) as (Ha & Hr1 & Hok1).
  destruct (run_request e r) as [a e1], (map_request m r) as [a' m1]. cbn in *. subst a'.
  destruct (IH e1 m1 Hr1 Hok1 Hvs) as [Hans Hr2].
  destruct (run_requests e1 rs) as [ans e2], (map_requests m1 rs) as [ans' m2]. cbn in *. by subst.
Qed.

(** A failed batch that is committed again, and this time succeeds, leaves the
    map one successful commit would have left. *)
Lemma commit_retry (e : E) m ops e1 err e2 :
  pa_rep e m -> ad_commit e ops = (e1, Some err) -> ad_commit e1 ops = (e2, None) ->
  pa_rep e2 (apply_ops m ops).
Proof.
  intros Hr H1 H2. pose proof (pa_commit_spec e m ops Hr) as Hc. rewrite H1 in Hc.
  destruct Hc as (m' & Hp & Hr1). pose proof (pa_commit_spec e1 m' ops Hr1) as Hc. rewrite H2 in Hc.
  by rewrite (partly_retry m ops m' Hp) in Hc.
Qed.

Definition point_honours (e : E) (m : gmap bytes bytes) (rs : list areq) : Prop :=
  (exists m', loosely m rs (run_requests e rs).1 m' /\ pa_rep (run_requests e rs).2 m') /\
  (pa_ok e -> Forall point_valid rs ->
   (run_requests e rs).1 = (map_requests m rs).1 /\
   pa_rep (run_requests e rs).2 (map_requests m rs).2).

Lemma point_adapter_honours e m rs : pa_rep e m -> point_honours e m rs.
Proof. intros Hr. split; [by apply requests_loose|]. intros. by apply point_requests_ok. Qed.
End Client.
