(* ===== verification/Pogreb.v ===== *)
(** * The pogreb adapter (adapters/pogreb/pogreb.go)

    A hash store without order and without a batch of its own: the adapter
    buffers a batch and applies it write by write, stopping at the first that
    fails, and it makes FULL durable with a call of [Sync] after a put and
    after a batch.  The store is a parameter with the documented laws of its
    four calls. *)

From S2P Require Import Prelude Codec Engine Ordered Adapter Point.
Local Open Scope go_scope.

(** ** The store *)

Class PogrebDB (DB : Type) := {
  pg_get : DB -> bytes -> option bytes + serr;
  pg_put : DB -> bytes -> bytes -> DB * option serr;
  pg_del : DB -> bytes -> DB * option serr;
  pg_sync : DB -> DB * option serr }.

(** [pg_durable db m]: what a crash would leave is [m]. *)
Class PogrebLaws (DB : Type) `{PogrebDB DB} := {
  pg_rep : DB -> gmap bytes bytes -> Prop;
  pg_durable : DB -> gmap bytes bytes -> Prop;
  pg_ok : DB -> Prop;
  pg_valid : bytes -> bytes -> Prop;
  pg_get_law db m k : pg_rep db m -> match pg_get db k with inl v => v = m !! k | inr _ => True end;
  pg_put_law db m k v : pg_rep db m ->
    let '(db', err) := pg_put db k v in
    match err with None => pg_rep db' (<[k := v]> m) | Some _ => pg_rep db' m end;
  pg_del_law db m k : pg_rep db m ->
    let '(db', err) := pg_del db k in
    match err with None => pg_rep db' (delete k m) | Some _ => pg_rep db' m end;
  pg_sync_law db m : pg_rep db m ->
    pg_rep (pg_sync db).1 m /\ ((pg_sync db).2 = None -> pg_durable (pg_sync db).1 m);
  pg_get_ok db m k v : pg_rep db m -> pg_ok db -> pg_valid k v -> pg_get db k = inl (m !! k);
  pg_put_ok db k v : pg_ok db -> pg_valid k v -> (pg_put db k v).2 = None /\ pg_ok (pg_put db k v).1;
  pg_del_ok db k v : pg_ok db -> pg_valid k v -> (pg_del db k).2 = None /\ pg_ok (pg_del db k).1;
  pg_sync_ok db : pg_ok db -> (pg_sync db).2 = None /\ pg_ok (pg_sync db).1 }.

(** ** The adapter *)

Definition engMeta : Meta :=
  MkMeta "pogreb" FamilyHashLog ModeInProc "" "v0.10" ""
    (MkCapabilities false false true false false false true)
    [MkAsterisk "default-durability" "the default fsyncs the log on a background interval, not per put, so the out-of-box write number reflects deferred durability";
     MkAsterisk "unordered" "hash index, no sorted iteration; scan workloads are not supported and report an error instead of a number"]
    false.

Record eng (DB : Type) := MkEng { e_db : DB; e_sync : bool }.
Arguments MkEng {DB}.
Arguments e_db {DB}.
Arguments e_sync {DB}.

Definition openSync (cfg : Config) : bool := bool_decide (CfgSynchronous cfg = "FULL").

(** [Open], given what [pogreb.Open] returns for the directory. *)
Definition Open {DB} (open : string -> DB + serr) (cfg : Config) : eng DB + serr :=
  let sync := openSync cfg in
  match open (CfgDir cfg) with
  | inr err => inr err
  | inl db => inl (MkEng db sync)
  end.

Record batch := MkBatch { ops : list memOp }.
Definition NewBatch : batch := MkBatch [].
Definition batchPut (b : batch) (k v : bytes) : batch := MkBatch (ops b ++ [PutOp k v]).
Definition batchDelete (b : batch) (k : bytes) : batch := MkBatch (ops b ++ [DelOp k]).
Definition batchLen (b : batch) : Z := len (ops b).

Section Ops.
Context {DB : Type} `{PogrebDB DB}.

Definition Get (e : eng DB) (key : bytes) : option bytes + serr :=
  match pg_get (e_db e) key with
  | inr err => inr err
  | inl v => inl v
  end.

(** With the flag set a put that the store took but could not sync reports the
    error of the sync. *)
Definition Put (e : eng DB) (key value : bytes) : DB * option serr :=
  let '(db, err) := pg_put (e_db e) key value in
  match err with
  | Some _ => (db, err)
  | None => if e_sync e then pg_sync db else (db, None)
  end.

Definition Delete (e : eng DB) (key : bytes) : DB * option serr := pg_del (e_db e) key.

Definition Scan (e : eng DB) (_ : bytes) : list (bytes * bytes) + serr :=
  inr (ErrStore "pogreb is unordered: scan/range iteration is not supported").

Definition Flush (e : eng DB) : DB * option serr := pg_sync (e_db e).

(** The loop of [Commit]. *)
Fixpoint commitLoop (db : DB) (l : list memOp) : DB * option serr :=
  match l with
  | [] => (db, None)
  | o :: l' =>
      let '(db', err) := if op_del o then pg_del db (op_k o) else pg_put db (op_k o) (op_v o) in
      match err with Some _ => (db', err) | None => commitLoop db' l' end
  end.

(** A write that fails leaves the batch as it was; once every write is made
    the batch is emptied, and only then the store synced. *)
Definition Commit (e : eng DB) (b : batch) : DB * batch * option serr :=
  let '(db, err) := commitLoop (e_db e) (ops b) in
  match err with
  | Some _ => (db, b, err)
  | None => let '(db', err') := (if e_sync e then pg_sync db else (db, None)) in (db', NewBatch, err')
  end.

Definition batchOf (l : list memOp) : batch := build_batch NewBatch batchPut batchDelete l.

#[global] Instance adapterOps : AdapterOps (eng DB) := {
  ad_get e k := Get e k;
  ad_put e k v := let '(db, err) := Put e k v in (MkEng db (e_sync e), err);
  ad_delete e k := let '(db, err) := Delete e k in (MkEng db (e_sync e), err);
  ad_commit e l := let '(db, _, err) := Commit e (batchOf l) in (MkEng db (e_sync e), err);
  ad_scan e start _ := Scan e start }.
End Ops.

(** [Stats]: the size of the files when the store reports it. *)
Definition Stats (fileSize : Z + serr) : Engine.Stats :=
  match fileSize with
  | inl sz => MkStats (-1) (-1) sz (-1) (-1) (-1) (-1)
  | inr _ => UnknownStats
  end.

Definition Close {DB} (dbClose : DB -> option serr) (db : option DB) : option serr :=
  match db with Some d => dbClose d | None => None end.

Lemma pogreb_batchOf_ops l : ops (batchOf l) = norm_op <$> l.
Proof. by apply (build_batch_ops ops). Qed.

Section Contract.
Context {DB : Type} `{PogrebLaws DB}.

Lemma write_step (db : DB) m o : pg_rep db m ->
  let '(db', err) := if op_del o then pg_del db (op_k o) else pg_put db (op_k o) (op_v o) in
  match err with None => pg_rep db' (apply_op m o) | Some _ => pg_rep db' m end.
Proof.
  intros Hr. unfold apply_op. destruct (op_del o); [by apply pg_del_law|by apply pg_put_law].
Qed.

(** The loop makes the writes before the one that failed, and no others. *)
Lemma commitLoop_spec l : forall (db : DB) m, pg_rep db m ->
  let '(db', err) := commitLoop db l in
  match err with
  | None => pg_rep db' (apply_ops m l)
  | Some _ => exists n, (n < length l)%nat /\ pg_rep db' (apply_ops m (take n l))
  end.
Proof.
  induction l as [|o l IH]; intros db m Hr; [done|]. cbn [commitLoop].
  pose proof (write_step db m o Hr) as Hw. destruct (if op_del o then _ else _) as [db' [err|]].
  - exists 0%nat. cbn. split; [lia|done].
  - specialize (IH db' _ Hw). destruct (commitLoop db' l) as [db2 [err|]]; [|done].
    destruct IH as (n & Hn & Hr2). exists (S n). cbn. split; [lia|done].
Qed.

Lemma commitLoop_ok l : forall db : DB, pg_ok db -> Forall (op_valid pg_valid) l ->
  (commitLoop db l).2 = None /\ pg_ok (commitLoop db l).1.
Proof.
  induction l as [|o l IH]; intros db Hok Hv; [done|]. apply Forall_cons in Hv as [Ho Hv]. cbn [commitLoop].
  unfold op_valid in Ho. destruct (op_del o).
  - destruct Ho as [v Ho]. destruct (pg_del_ok db _ _ Hok Ho) as [Hn Hk].
    destruct (pg_del db (op_k o)) as [db' err]. cbn in *. subst. by apply IH.
  - destruct (pg_put_ok db _ _ Hok Ho) as [Hn Hk].
    destruct (pg_put db (op_k o) (op_v o)) as [db' err]. cbn in *. subst. by apply IH.
Qed.

(** The last step of a put and of a commit. *)
Lemma sync_step (db : DB) m (sync : bool) : pg_rep db m ->
  let '(db', err) := (if sync then pg_sync db else (db, None)) in
  pg_rep db' m /\ (sync = true -> err = None -> pg_durable db' m).
Proof.
  intros Hr. destruct sync; [|done]. destruct (pg_sync_law db m Hr) as [Hr' Hd].
  destruct (pg_sync db) as [db' err]. cbn in *. auto.
Qed.

Lemma sync_step_ok (db : DB) (sync : bool) : pg_ok db ->
  (if sync then pg_sync db else (db, None)).2 = None /\ pg_ok (if sync then pg_sync db else (db, None)).1.
Proof. intros Hok. destruct sync; [by apply pg_sync_ok|done]. Qed.

Lemma Put_spec (e : eng DB) m k v : pg_rep (e_db e) m ->
  let '(db, err) := Put e k v in
  match err with
  | None => pg_rep db (<[k := v]> m) /\ (e_sync e = true -> pg_durable db (<[k := v]> m))
  | Some _ => exists m', partly m [PutOp k v] m' /\ pg_rep db m'
  end.
Proof.
  intros Hr. unfold Put. pose proof (pg_put_law (e_db e) m k v Hr) as Hl.
  destruct (pg_put (e_db e) k v) as [db [err|]].
  - exists m. split; [apply partly_none|done].
  - pose proof (sync_step db _ (e_sync e) Hl) as Hs. destruct (if e_sync e then _ else _) as [db' [err|]].
    + exists (<[k := v]> m). split; [apply partly_all|apply Hs].
    + split; [apply Hs|]. intros. by apply Hs.
Qed.

(** A batch that returns an error took effect in part: a proper prefix of it,
    and the batch still holds every write, or all of it with the sync missing,
    and the batch is empty. *)
Lemma Commit_spec (e : eng DB) m b : pg_rep (e_db e) m ->
  let '(db, b', err) := Commit e b in
  match err with
  | None => pg_rep db (apply_ops m (ops b)) /\ b' = NewBatch /\
      (e_sync e = true -> pg_durable db (apply_ops m (ops b)))
  | Some _ =>
      (b' = b /\ exists n, (n < length (ops b))%nat /\ pg_rep db (apply_ops m (take n (ops b)))) \/
      (b' = NewBatch /\ e_sync e = true /\ pg_rep db (apply_ops m (ops b)))
  end.
Proof.
  intros Hr. unfold Commit. pose proof (commitLoop_spec (ops b) (e_db e) m Hr) as Hl.
  destruct (commitLoop (e_db e) (ops b)) as [db [err|]]; [by left|].
  pose proof (sync_step db _ (e_sync e) Hl) as Hs. destruct (e_sync e).
  - destruct (pg_sync db) as [db' [err|]]; [right; naive_solver|naive_solver].
  - naive_solver.
Qed.

#[global] Instance adapter : PointAdapter (eng DB).
Proof.
  refine {| pa_rep e m := pg_rep (e_db e) m; pa_ok e := pg_ok (e_db e); pa_valid := pg_valid |}.
  - intros e m k Hr. cbn. unfold Get. pose proof (pg_get_law (e_db e) m k Hr) as Hl. by destruct (pg_get _ _).
  - intros e m o Hr. unfold apply_op. destruct (op_del o) eqn:Hd; cbn.
    + unfold Delete. pose proof (pg_del_law (e_db e) m (op_k o) Hr) as Hl.
      destruct (pg_del _ _) as [db [err|]]; [|done]. exists m. split; [apply partly_none|done].
    + pose proof (Put_spec e m (op_k o) (op_v o) Hr) as Hl.
      destruct (Put e (op_k o) (op_v o)) as [db [err|]]; [|apply Hl].
      assert (PutOp (op_k o) (op_v o) = o) as Ho by (destruct o; cbn in *; by subst). by rewrite Ho in Hl.
  - intros e m l Hr. cbn. pose proof (Commit_spec e m (batchOf l) Hr) as Hl. rewrite pogreb_batchOf_ops in Hl.
    rewrite apply_norm_ops in Hl.
    destruct (Commit e (batchOf l)) as [[db b'] [err|]]; [|apply Hl].
    destruct Hl as [(_ & n & _ & Hl)|(_ & _ & Hl)].
    + rewrite <- fmap_take, apply_norm_ops in Hl. eexists. split; [apply (partly_take m l n)|done].
    + eexists. split; [apply partly_all|done].
  - done.
  - intros e m k v Hr Hok Hv. cbn. unfold Get. by rewrite (pg_get_ok (e_db e) m k v).
  - intros e o Hok Hv. unfold op_valid in Hv. destruct (op_del o); cbn.
    + destruct Hv as [v Hv]. unfold Delete. pose proof (pg_del_ok (e_db e) _ _ Hok Hv) as Hl.
      by destruct (pg_del _ _).
    + unfold Put. destruct (pg_put_ok (e_db e) _ _ Hok Hv) as [Hn Hk]. destruct (pg_put _ _ _) as [db err].
      cbn in *. subst. pose proof (sync_step_ok db (e_sync e) Hk) as Hs. by destruct (if e_sync e then _ else _).
  - intros e l Hok Hv. cbn. unfold Commit. rewrite pogreb_batchOf_ops.
    destruct (commitLoop_ok _ (e_db e) Hok (norm_ops_valid _ _ Hv)) as [Hn Hk].
    destruct (commitLoop _ _) as [db err]. cbn in *. subst.
    pose proof (sync_step_ok db (e_sync e) Hk) as Hs. by destruct (if e_sync e then _ else _).
Defined.
End Contract.

(** C29: the contract of [point_honours] for the pogreb adapter: no answer is
    wrong, a write that reports an error may have taken effect and a batch that
    does took effect in part.  An engine opened at FULL has every acknowledged
    put and batch on disk; and a batch that fails and is committed again with
    success leaves what one successful commit would have left. *)
Theorem pogreb_honours {DB} `{PogrebLaws DB} open cfg (e : eng DB) m rs :
  Open open cfg = inl e -> pg_rep (e_db e) m ->
  point_honours e m rs /\
  (CfgSynchronous cfg = "FULL" ->
   (forall k v, (Put e k v).2 = None -> pg_durable (Put e k v).1 (<[k := v]> m)) /\
   (forall b db b', Commit e b = (db, b', None) -> pg_durable db (apply_ops m (ops b)))) /\
  (forall b db b' err db2 b2, Commit e b = (db, b', Some err) -> Commit (MkEng db (e_sync e)) b' = (db2, b2, None) ->
   pg_rep db2 (apply_ops m (ops b))).
Proof.
  intros Ho Hr. split_and!; [by apply point_adapter_honours| |].
  - intros Hf. assert (e_sync e = true) as Hs.
    { unfold Open in Ho. destruct (open _); simplify_eq. cbn. by apply bool_decide_eq_true_2. }
    split.
    + intros k v Hn. pose proof (Put_spec e m k v Hr) as Hl. destruct (Put e k v) as [db err]. cbn in *.
      subst. by apply Hl.
    + intros b db b' Hc. pose proof (Commit_spec e m b Hr) as Hl. rewrite Hc in Hl. by apply Hl.
  - intros b db b' err db2 b2 H1 H2. pose proof (Commit_spec e m b Hr) as Hl. rewrite H1 in Hl.
    destruct Hl as [(Hb & n & _ & Hl)|(Hb & _ & Hl)];
      (pose proof (Commit_spec (MkEng db (e_sync e)) _ b' Hl) as Hl2; rewrite H2 in Hl2; destruct Hl2 as [Hl2 _];
       subst b').
    + by rewrite (partly_retry m (ops b)) in Hl2 by apply partly_take.
    + done.
Qed.

(** ** A store that meets the laws

    A map, the map a crash would leave, and how many more writes fit. *)

Record memPog := MkMemPog { mp_map : gmap bytes bytes; mp_disk : gmap bytes bytes; mp_room : option nat }.

Definition mp_write (db : memPog) (m : gmap bytes bytes) : memPog * option serr :=
  match mp_room db with
  | None => (MkMemPog m (mp_disk db) None, None)
  | Some O => (db, Some (ErrStore "disk full"))
  | Some (S n) => (MkMemPog m (mp_disk db) (Some n), None)
  end.

#[global] Instance memPog_db : PogrebDB memPog := {
  pg_get db k := inl (mp_map db !! k);
  pg_put db k v := mp_write db (<[k := v]> (mp_map db));
  pg_del db k := mp_write db (delete k (mp_map db));
  pg_sync db := (MkMemPog (mp_map db) (mp_map db) (mp_room db), None) }.

#[global] Instance memPog_laws : PogrebLaws memPog.
Proof.
  refine {| pg_rep db m := mp_map db = m; pg_durable db m := mp_disk db = m;
            pg_ok db := mp_room db = None; pg_valid k v := True |};
    cbn; unfold mp_write; intros; subst; try done;
    try (destruct db as [m d [[|n]|]]; cbn in *; done);
    match goal with H : mp_room _ = None |- _ => by rewrite H end.
Defined.

Definition demo_pog : memPog := MkMemPog ∅ ∅ (Some 2%nat).
Definition demo_pog_requests : list areq :=
  let a := [Byte.x61] in let b := [Byte.x62] in
  [AWrite (PutOp a [Byte.x01]); AGet a; AGet b; ABatch [PutOp b []; DelOp a]; AGet b; AScan [] 3].

Lemma pogreb_honours_witness :
  let cfg := MkConfig "d" "" "" "FULL" 0 0 0 "" ∅ in
  let e := MkEng demo_pog true in
  (run_requests e demo_pog_requests).1 =
    [AAck None; AVal (inl (Some [Byte.x01])); AVal (inl None); AAck (Some (ErrStore "disk full"));
     AVal (inl (Some [])); ARows (inr (ErrStore "pogreb is unordered: scan/range iteration is not supported"))] /\
  point_honours e ∅ demo_pog_requests /\
  (CfgSynchronous cfg = "FULL" ->
   (forall k v, (Put e k v).2 = None -> pg_durable (Put e k v).1 (<[k := v]> ∅)) /\
   (forall b db b', Commit e b = (db, b', None) -> pg_durable db (apply_ops ∅ (ops b)))) /\
  (forall b db b' err db2 b2, Commit e b = (db, b', Some err) -> Commit (MkEng db (e_sync e)) b' = (db2, b2, None) ->
   pg_rep db2 (apply_ops ∅ (ops b))).
Proof.
  split; [vm_compute; reflexivity|].
  apply (pogreb_honours (fun _ => inl demo_pog) (MkConfig "d" "" "" "FULL" 0 0 0 "" ∅)); reflexivity.
Defined.

(** ** A delete is not synced

    FULL syncs a put and a batch; a delete by key reports success with the
    entry still on disk, where a crash would bring it back. *)

Theorem pogreb_delete_unsynced :
  exists (db db' : memPog) (k v : bytes),
    Open (fun _ => inl db) (MkConfig "d" "" "" "FULL" 0 0 0 "" ∅) = inl (MkEng db true) /\
    Put (MkEng (MkMemPog ∅ ∅ None) true) k v = (db, None) /\
    Delete (MkEng db true) k = (db', None) /\
    Get (MkEng db' true) k = inl None /\
    pg_durable db' {[k := v]}.
Proof.
  exists (MkMemPog {[ [] := [] ]} {[ [] := [] ]} None), (MkMemPog ∅ {[ [] := [] ]} None), [], [].
  split_and!; reflexivity.
Qed.
