(* ===== verification/Badger.v ===== *)
(** * The badger adapter (adapters/badger/badger.go)

    Reads and single writes are closures in badger transactions.  A batch is
    badger's WriteBatch, which commits on its way when it outgrows a
    transaction and remembers the first error for [Flush].  A scan walks an
    iterator of a read transaction and drops the error of a value that cannot
    be read. *)

From S2P Require Import Prelude Codec Engine Ordered Adapter TxStore Point.
Local Open Scope go_scope.

(** ** The store *)

(** A key of a transaction is an item, whose value is read apart. *)
Class BadgerTx (Tx Item : Type) := {
  bt_get : Tx -> bytes -> Item + serr;
  bt_value : Item -> bytes + serr;
  bt_set : Tx -> bytes -> bytes -> Tx * option serr;
  bt_delete : Tx -> bytes -> Tx * option serr }.

Class BadgerTxLaws (DB Tx Item : Type) `{TxnDBLaws DB Tx} `{BadgerTx Tx Item} := {
  bt_valid : bytes -> bytes -> Prop;
  bt_get_law t m k : tx_rep t m ->
    match bt_get t k with
    | inl item => exists v, m !! k = Some v /\ match bt_value item with inl w => w = v | inr _ => True end
    | inr ErrNotFound => m !! k = None
    | inr (ErrStore _) => True
    end;
  bt_set_law t m k v : tx_rep t m ->
    let '(t', err) := bt_set t k v in
    match err with None => tx_rep t' (<[k := v]> m) | Some _ => True end;
  bt_delete_law t m k : tx_rep t m ->
    let '(t', err) := bt_delete t k in
    match err with None => tx_rep t' (delete k m) | Some _ => True end;
  bt_get_ok t k v : tx_ok t -> bt_valid k v ->
    match bt_get t k with inl item => exists w, bt_value item = inl w | inr err => err = ErrNotFound end;
  bt_set_ok t k v : tx_ok t -> bt_valid k v -> (bt_set t k v).2 = None;
  bt_delete_ok t k v : tx_ok t -> bt_valid k v -> (bt_delete t k).2 = None }.

(** The write batch; the store changes under it as it grows. *)
Class WriteBatch (DB WB : Type) := {
  wb_new : DB -> WB;
  wb_set : DB -> WB -> bytes -> bytes -> DB * WB * option serr;
  wb_delete : DB -> WB -> bytes -> DB * WB * option serr;
  wb_flush : DB -> WB -> DB * option serr }.

(** [wb_on db wb m l]: made when the store held [m], and given [l] since.  What
    its calls returned does not matter: [Flush] reports it. *)
Class WriteBatchLaws (DB Tx WB : Type) `{TxnDBLaws DB Tx} `{WriteBatch DB WB} := {
  wb_on : DB -> WB -> gmap bytes bytes -> list memOp -> Prop;
  wb_ok : DB -> WB -> Prop;
  wb_valid : bytes -> bytes -> Prop;
  wb_new_law db m : db_rep db m -> wb_on db (wb_new db) m [];
  wb_set_law db wb m l k v : wb_on db wb m l ->
    wb_on (wb_set db wb k v).1.1 (wb_set db wb k v).1.2 m (l ++ [PutOp k v]);
  wb_delete_law db wb m l k : wb_on db wb m l ->
    wb_on (wb_delete db wb k).1.1 (wb_delete db wb k).1.2 m (l ++ [DelOp k]);
  wb_flush_law db wb m l : wb_on db wb m l ->
    let '(db', err) := wb_flush db wb in
    match err with
    | None => db_rep db' (apply_ops m l)
    | Some _ => exists m', partly m l m' /\ db_rep db' m'
    end;
  wb_new_ok db : db_ok db -> wb_ok db (wb_new db);
  wb_set_ok db wb k v : wb_ok db wb -> wb_valid k v -> wb_ok (wb_set db wb k v).1.1 (wb_set db wb k v).1.2;
  wb_delete_ok db wb k v : wb_ok db wb -> wb_valid k v -> wb_ok (wb_delete db wb k).1.1 (wb_delete db wb k).1.2;
  wb_flush_ok db wb : wb_ok db wb -> (wb_flush db wb).2 = None /\ db_ok (wb_flush db wb).1 }.

(** An iterator of a read transaction. *)
Class ItemIter (DB It : Type) := {
  ii_new : DB -> It;
  ii_seek : It -> bytes -> It;
  ii_next : It -> It;
  ii_valid : It -> bool;
  ii_key : It -> bytes;
  ii_value : It -> bytes + serr }.

Class ItemIterLaws (DB Tx It : Type) `{TxnDBLaws DB Tx} `{ItemIter DB It} := {
  ii_view : It -> gmap bytes bytes -> Prop;
  ii_at : It -> list (bytes * bytes) -> Prop;
  ii_ok : It -> Prop;
  ii_new_law db m : db_rep db m -> ii_view (ii_new db) m;
  ii_new_ok db : db_ok db -> ii_ok (ii_new db);
  ii_seek_law it m start : ii_view it m -> ii_at (ii_seek it start) (entries_from m start);
  ii_valid_law it rows : ii_at it rows ->
    match ii_valid it with
    | true => exists v rows', rows = (ii_key it, v) :: rows' /\ ii_at (ii_next it) rows' /\
        match ii_value it with inl w => w = v | inr _ => ~ ii_ok it end
    | false => ii_ok it -> rows = []
    end;
  ii_seek_ok it start : ii_ok it -> ii_ok (ii_seek it start);
  ii_next_ok it : ii_ok it -> ii_ok (ii_next it) }.

(** ** The adapter *)

Definition engMeta : Meta :=
  MkMeta "badger" FamilyLSM ModeInProc "" "v4" ""
    (MkCapabilities true true true true false false true)
    [MkAsterisk "default-durability" "DefaultOptions ship SyncWrites=false: the default writes to the value log and fsyncs in the background, not per commit, so its out-of-box write number stays fast"]
    false.

Record eng (DB Tx Item WB It : Type) := MkEng { e_db : DB; e_sync : bool }.
Arguments MkEng {DB Tx Item WB It}.
Arguments e_db {DB Tx Item WB It}.
Arguments e_sync {DB Tx Item WB It}.

Definition openSync (cfg : Config) : bool := bool_decide (CfgSynchronous cfg = "FULL").

(** [Open], given what [badger.Open] returns for the directory and SyncWrites. *)
Definition Open {DB Tx Item WB It} (open : string -> bool -> DB + serr) (cfg : Config)
    : eng DB Tx Item WB It + serr :=
  let sync := openSync cfg in
  match open (CfgDir cfg) sync with
  | inr err => inr err
  | inl db => inl (MkEng db sync)
  end.

(** The batch: badger's, and the writes it was given. *)
Record batch (WB : Type) := MkBatch { b_wb : WB; b_n : Z }.
Arguments MkBatch {WB}.
Arguments b_wb {WB}.
Arguments b_n {WB}.

Record iter (It : Type) := MkIter { i_it : It; i_start : bytes; i_first : bool; i_k : bytes; i_v : bytes }.
Arguments MkIter {It}.
Arguments i_it {It}.
Arguments i_start {It}.
Arguments i_first {It}.
Arguments i_k {It}.
Arguments i_v {It}.

Section Ops.
Context {DB Tx Item WB It : Type} `{TxnDB DB Tx, BadgerTx Tx Item, WriteBatch DB WB, ItemIter DB It}.

Definition getRead (key : bytes) (txn : Tx) : (bytes * bool) * option serr :=
  match bt_get txn key with
  | inr ErrNotFound => (([], false), None)
  | inr err => (([], false), Some err)
  | inl item =>
      match bt_value item with
      | inl out => ((out, true), None)
      | inr err => (([], true), Some err)
      end
  end.

Definition Get (db : DB) (key : bytes) : option bytes + serr :=
  getReturn (txn_view db ([], false) (getRead key)).

Definition Put (db : DB) (key value : bytes) : DB * option serr :=
  txn_update db (fun txn : Tx => bt_set txn key value).

Definition Delete (db : DB) (key : bytes) : DB * option serr :=
  txn_update db (fun txn : Tx => bt_delete txn key).

Definition NewBatch (db : DB) : batch WB := MkBatch (wb_new db) 0.

(** The error of the call is dropped. *)
Definition batchPut (db : DB) (b : batch WB) (k v : bytes) : DB * batch WB :=
  let '(db', wb, _) := wb_set db (b_wb b) (copyBytes k) (copyBytes v) in (db', MkBatch wb (b_n b + 1)).
Definition batchDelete (db : DB) (b : batch WB) (k : bytes) : DB * batch WB :=
  let '(db', wb, _) := wb_delete db (b_wb b) (copyBytes k) in (db', MkBatch wb (b_n b + 1)).
Definition batchLen (b : batch WB) : Z := b_n b.

(** The write batch cannot be used again. *)
Definition Commit (db : DB) (b : batch WB) : DB * Z * option serr :=
  let '(db', err) := wb_flush db (b_wb b) in (db', 0, err).

Definition Scan (db : DB) (start : bytes) : iter It := MkIter (ii_new db) start true [] [].

(** A value that cannot be read is an empty one. *)
Definition Next (i : iter It) : bool * iter It :=
  let it := if i_first i then ii_seek (i_it i) (i_start i) else ii_next (i_it i) in
  if negb (ii_valid it) then (false, MkIter it (i_start i) false (i_k i) (i_v i))
  else (true, MkIter it (i_start i) false (ii_key it) (match ii_value it with inl v => v | inr _ => [] end)).

(** The calls of a client that puts [l] into a new batch. *)
Definition batchOf (db : DB) (l : list memOp) : DB * batch WB :=
  foldl (fun '(db, b) o => if op_del o then batchDelete db b (op_k o) else batchPut db b (op_k o) (op_v o))
    (db, NewBatch db) l.

#[global] Instance adapterOps : AdapterOps (eng DB Tx Item WB It) := {
  ad_get e k := Get (e_db e) k;
  ad_put e k v := let '(db, err) := Put (e_db e) k v in (MkEng db (e_sync e), err);
  ad_delete e k := let '(db, err) := Delete (e_db e) k in (MkEng db (e_sync e), err);
  ad_commit e l :=
    let '(db, b) := batchOf (e_db e) l in
    let '(db', _, err) := Commit db b in (MkEng db' (e_sync e), err);
  ad_scan e start n := inl (read_rows Next i_k i_v n (Scan (e_db e) start)) }.
End Ops.

(** [Stats]: the size of the tables and of the value log. *)
Definition Stats (lsm vlog : Z) : Engine.Stats := MkStats (-1) (-1) (swrap64 (lsm + vlog)) (-1) (-1) (-1) (-1).

(** [Flush], given the store's call. *)
Definition Flush {DB} (dbSync : DB -> DB * option serr) (db : DB) : DB * option serr := dbSync db.

Definition Close {DB} (dbClose : DB -> option serr) (db : option DB) : option serr :=
  match db with Some d => dbClose d | None => None end.

(** ** The contract *)

Section Contract.
Context {DB Tx Item WB It : Type} `{TxnDBLaws DB Tx} `{!BadgerTx Tx Item} `{!BadgerTxLaws DB Tx Item}
  `{!WriteBatch DB WB} `{!WriteBatchLaws DB Tx WB} `{!ItemIter DB It} `{!ItemIterLaws DB Tx It}.

(** The entries a transaction and a batch both accept. *)
Definition entry_valid (k v : bytes) : Prop := bt_valid k v /\ wb_valid k v.

Lemma badger_Get_spec (db : DB) m k :
  db_rep db m -> match Get db k with inl v => v = m !! k | inr _ => True end.
Proof.
  intros Hr. unfold Get. destruct (view_law _ db m ([], false) (getRead k) Hr) as [[err ->]|(t & Ht & ->)]; [done|].
  pose proof (bt_get_law t m k Ht) as Hl. unfold getRead. destruct (bt_get t k) as [item|[|msg]]; [|done..].
  destruct Hl as (v & Hv & Hw). destruct (bt_value item) as [w|err]; cbn; [by subst|done].
Qed.

Lemma badger_Get_ok (db : DB) m k v :
  db_rep db m -> db_ok db -> bt_valid k v -> Get db k = inl (m !! k).
Proof.
  intros Hr Hok Hv. unfold Get.
  destruct (view_ok _ db m ([], false) (getRead k) Hr Hok) as (t & Ht & Htok & ->).
  pose proof (bt_get_law t m k Ht) as Hl. pose proof (bt_get_ok t k v Htok Hv) as Hk. unfold getRead.
  destruct (bt_get t k) as [item|err]; [|subst err; cbn; by rewrite Hl].
  destruct Hl as (w & Hm & Hw), Hk as [x Hx]. rewrite Hx in *. subst. cbn. by rewrite Hm.
Qed.

(** A single write, in its transaction. *)
Definition writeOne (db : DB) (o : memOp) : DB * option serr :=
  if op_del o then Delete db (op_k o) else Put db (op_k o) (op_v o).

Lemma badger_write (db : DB) m o : db_rep db m ->
  let '(db', err) := writeOne db o in
  match err with None => db_rep db' (apply_op m o) | Some _ => db_rep db' m end.
Proof.
  intros Hr. unfold writeOne, apply_op, Delete, Put. destruct (op_del o).
  - apply (update_spec db m _ (delete (op_k o)) Hr). intros t t' Ht Hw.
    pose proof (bt_delete_law t m (op_k o) Ht) as Hl. by rewrite Hw in Hl.
  - apply (update_spec db m _ (insert (op_k o) (op_v o)) Hr). intros t t' Ht Hw.
    pose proof (bt_set_law t m (op_k o) (op_v o) Ht) as Hl. by rewrite Hw in Hl.
Qed.

Lemma badger_write_ok (db : DB) m o : db_rep db m -> db_ok db -> op_valid entry_valid o ->
  (writeOne db o).2 = None /\ db_ok (writeOne db o).1.
Proof.
  intros Hr Hok Hv. unfold op_valid in Hv. unfold writeOne, Delete, Put. destruct (op_del o).
  - destruct Hv as [v [Hv _]]. apply (update_ok db m); [done..|]. intros. by eapply bt_delete_ok.
  - destruct Hv as [Hv _]. apply (update_ok db m); [done..|]. intros. by eapply bt_set_ok.
Qed.

(** Building a batch keeps [wb_on], and its count is the number of writes. *)
Lemma badger_batchOf (db : DB) m l :
  db_rep db m ->
  wb_on (batchOf db l).1 (b_wb (batchOf db l).2) m (norm_op <$> l) /\ batchLen (batchOf db l).2 = len l.
Proof.
  intros Hr. unfold batchOf. induction l as [|o l IH] using rev_ind; [split; [by apply wb_new_law|done]|].
  rewrite foldl_app, fmap_app, len_app. cbn. destruct (foldl _ _ l) as [db1 b1]. cbn in *.
  destruct IH as [Hon Hn]. unfold batchLen, norm_op in *. destruct o as [[] k v]; cbn.
  - unfold batchDelete, copyBytes. pose proof (wb_delete_law _ _ _ _ k Hon) as Hl.
    destruct (wb_delete db1 (b_wb b1) k) as [[db2 wb2] err]. cbn in *. split; [done|by rewrite Hn].
  - unfold batchPut, copyBytes. pose proof (wb_set_law _ _ _ _ k v Hon) as Hl.
    destruct (wb_set db1 (b_wb b1) k v) as [[db2 wb2] err]. cbn in *. split; [done|by rewrite Hn].
Qed.

Lemma badger_batchOf_ok (db : DB) l :
  db_ok db -> Forall (op_valid wb_valid) l -> wb_ok (batchOf db l).1 (b_wb (batchOf db l).2).
Proof.
  intros Hok. unfold batchOf. induction l as [|o l IH] using rev_ind; [intros _; by apply wb_new_ok|].
  rewrite Forall_app, Forall_singleton, foldl_app. intros [Hl Ho]. specialize (IH Hl). cbn.
  destruct (foldl _ _ l) as [db1 b1]. cbn in *. unfold op_valid in Ho. destruct (op_del o); cbn.
  - destruct Ho as [v Ho]. unfold batchDelete, copyBytes. pose proof (wb_delete_ok _ _ _ _ IH Ho) as Hk.
    by destruct (wb_delete _ _ _) as [[db2 wb2] err].
  - unfold batchPut, copyBytes. pose proof (wb_set_ok _ _ _ _ IH Ho) as Hk.
    by destruct (wb_set _ _ _ _) as [[db2 wb2] err].
Qed.

(** The rows an iterator still has to give. *)
Definition iter_rows (i : iter It) (rows : list (bytes * bytes)) : Prop :=
  if i_first i then exists m, ii_view (i_it i) m /\ rows = entries_from m (i_start i)
  else ii_at (ii_next (i_it i)) rows.

Lemma badger_Next_step i rows :
  iter_rows i rows ->
  match (Next i).1 with
  | true => exists v rows', rows = (i_k (Next i).2, v) :: rows' /\ iter_rows (Next i).2 rows' /\
      (ii_ok (i_it i) -> i_v (Next i).2 = v)
  | false => ii_ok (i_it i) -> rows = []
  end /\ (ii_ok (i_it i) -> ii_ok (i_it (Next i).2)).
Proof.
  intros Hi. unfold Next.
  set (it := if i_first i then ii_seek (i_it i) (i_start i) else ii_next (i_it i)).
  assert (ii_at it rows /\ (ii_ok (i_it i) -> ii_ok it)) as [Hat Hok].
  { unfold iter_rows in Hi. subst it. destruct (i_first i).
    - destruct Hi as (m & Hv & ->). split; [by apply ii_seek_law|apply ii_seek_ok].
    - split; [done|apply ii_next_ok]. }
  pose proof (ii_valid_law it rows Hat) as Hl. destruct (ii_valid it); cbn; [|split; auto].
  destruct Hl as (v & rows' & -> & Hn & Hv). split; [|done]. exists v, rows'. split_and!; [done..|].
  intros Hk. destruct (ii_value it) as [w|err]; [done|]. by destruct Hv; apply Hok.
Qed.

Lemma badger_scan_keys n : forall i rows, iter_rows i rows ->
  (read_rows Next i_k i_v n i).*1 `prefix_of` (take n rows).*1.
Proof.
  induction n as [|n IH]; intros i rows Hi; [done|]. cbn [read_rows].
  destruct (badger_Next_step i rows Hi) as [Hn _]. destruct (Next i) as [[] i']; cbn in *; [|apply prefix_nil].
  destruct Hn as (v & rows' & -> & Hi' & _). cbn. apply prefix_cons. by apply IH.
Qed.

Lemma badger_scan_all n i rows : iter_rows i rows -> ii_ok (i_it i) -> read_rows Next i_k i_v n i = take n rows.
Proof.
  intros Hi Hok. apply (read_rows_all _ _ _ (fun i rs => iter_rows i rs /\ ii_ok (i_it i))); [|done].
  intros j rs [Hj Hjok]. destruct (badger_Next_step j rs Hj) as [Hn Hk]. exists (Next j).2.
  destruct (Next j) as [[] j']; cbn in *.
  - destruct Hn as (v & rows' & -> & Hr & Hv). rewrite Hv by done. auto.
  - by rewrite Hn.
Qed.

#[global] Instance adapter : PointAdapter (eng DB Tx Item WB It).
Proof.
  refine {| pa_rep e m := db_rep (e_db e) m; pa_ok e := db_ok (e_db e) /\ exists m, db_rep (e_db e) m;
            pa_valid := entry_valid |}.
  - intros e m k Hr. by apply badger_Get_spec.
  - intros e m o Hr. pose proof (badger_write (e_db e) m o Hr) as Hw. cbn. unfold writeOne in Hw.
    destruct (op_del o); [destruct (Delete _ _) as [db [err|]]|destruct (Put _ _ _) as [db [err|]]]; try done;
      exists m; (split; [apply partly_none|done]).
  - intros e m l Hr. cbn. destruct (badger_batchOf (e_db e) m l Hr) as [Hon _].
    destruct (batchOf (e_db e) l) as [db b]. cbn in *. unfold Commit. pose proof (wb_flush_law _ _ _ _ Hon) as Hl.
    rewrite apply_norm_ops in Hl. destruct (wb_flush db (b_wb b)) as [db' [err|]]; [|done].
    destruct Hl as (m' & Hp%partly_norm & Hl). by exists m'.
  - intros e m start n Hr. cbn. apply badger_scan_keys. exists m. split; [by apply ii_new_law|done].
  - intros e m k v Hr [Hok _] [Hv _]. cbn. by eapply badger_Get_ok.
  - intros e o [Hok [m Hr]] Hv. pose proof (badger_write (e_db e) m o Hr) as Hw.
    pose proof (badger_write_ok (e_db e) m o Hr Hok Hv) as [Hn Hk]. cbn. unfold writeOne in *.
    destruct (op_del o); [destruct (Delete _ _) as [db err]|destruct (Put _ _ _) as [db err]]; cbn in *; subst; eauto.
  - intros e l [Hok [m Hr]] Hv. cbn. destruct (badger_batchOf (e_db e) m l Hr) as [Hon _].
    assert (wb_ok (batchOf (e_db e) l).1 (b_wb (batchOf (e_db e) l).2)) as Hwok.
    { apply badger_batchOf_ok; [done|]. eapply Forall_impl; [exact Hv|]. intros o. unfold op_valid.
      destruct (op_del o); [intros [v [_ ?]]; by exists v|by intros [_ ?]]. }
    destruct (batchOf (e_db e) l) as [db b]. cbn in *. unfold Commit. pose proof (wb_flush_law _ _ _ _ Hon) as Hl.
    destruct (wb_flush_ok db (b_wb b) Hwok) as [Hn Hk]. destruct (wb_flush db (b_wb b)) as [db' err]. cbn in *.
    subst. eauto.
Defined.
End Contract.


(** ** A store that meets the laws

    The transactional store of the other adapters; a batch that commits after
    every two writes; an iterator that cannot read values when the store
    fails. *)

#[global] Instance memTx_badger : BadgerTx memTx bytes := {
  bt_get t k := match mt_map t !! k with Some v => inl v | None => inr ErrNotFound end;
  bt_value item := inl item;
  bt_set := memPut;
  bt_delete t k := (memDel t k, None) }.

#[global] Instance memTx_badger_laws : BadgerTxLaws memDB memTx bytes.
Proof.
  refine {| bt_valid k v := k <> [] |}; unfold tx_rep; cbn; try done.
  - intros t m k <-. destruct (mt_map t !! k) as [v|]; [|done]. by exists v.
  - intros t m k v <-. by destruct k.
  - by intros t m k <-.
  - intros t k v _ _. destruct (mt_map t !! k); [by eexists|done].
  - intros t k v _ Hk. by destruct k.
Defined.

Record memWB := MkMemWB { mw_pend : list memOp; mw_err : option serr }.

Definition mw_commit (db : memDB) (pend : list memOp) : memDB * option serr :=
  if md_full db then (db, Some (ErrStore "disk full")) else (MkMemDB (apply_ops (md_map db) pend) false, None).

Definition mw_add (db : memDB) (wb : memWB) (o : memOp) : memDB * memWB * option serr :=
  match mw_err wb with
  | Some err => (db, wb, Some err)
  | None =>
      match op_k o with
      | [] => (db, MkMemWB (mw_pend wb) (Some (ErrStore "empty key")), Some (ErrStore "empty key"))
      | _ =>
          match mw_pend wb with
          | [] => (db, MkMemWB [o] None, None)
          | pend => let '(db', err) := mw_commit db (pend ++ [o]) in (db', MkMemWB [] err, err)
          end
      end
  end.

#[global] Instance memWB_batch : WriteBatch memDB memWB := {
  wb_new db := MkMemWB [] None;
  wb_set db wb k v := mw_add db wb (PutOp k v);
  wb_delete db wb k := mw_add db wb (DelOp k);
  wb_flush db wb := match mw_err wb with Some err => (db, Some err) | None => mw_commit db (mw_pend wb) end }.

(** The writes before the pending ones are in the store; after an error, some
    prefix of the batch is. *)
Definition mw_on (db : memDB) (wb : memWB) (m : gmap bytes bytes) (l : list memOp) : Prop :=
  match mw_err wb with
  | None => exists done, l = done ++ mw_pend wb /\ md_map db = apply_ops m done
  | Some _ => exists done rest, l = done ++ rest /\ md_map db = apply_ops m done
  end.

Lemma mw_add_on db wb m l o :
  mw_on db wb m l -> mw_on (mw_add db wb o).1.1 (mw_add db wb o).1.2 m (l ++ [o]).
Proof.
  unfold mw_on, mw_add. destruct wb as [pend [err|]]; cbn.
  - intros (d & rest & -> & Hd). exists d, (rest ++ [o]). by rewrite <- app_assoc.
  - intros (d & -> & Hd). destruct (op_k o) as [|x k]; cbn; [exists d, (pend ++ [o]); by rewrite <- app_assoc|].
    destruct pend as [|p pend]; cbn; [exists d; by rewrite app_nil_r|]. unfold mw_commit.
    destruct (md_full db); cbn.
    + exists d, (p :: pend ++ [o]). by rewrite <- app_assoc.
    + exists (d ++ p :: pend ++ [o]). rewrite app_nil_r, <- app_assoc. split; [done|].
      rewrite Hd. symmetry. apply apply_ops_app.
Qed.

Lemma mw_add_ok db wb o :
  mw_err wb = None /\ md_full db = false -> op_k o <> [] ->
  mw_err (mw_add db wb o).1.2 = None /\ md_full (mw_add db wb o).1.1 = false.
Proof.
  intros [He Hf] Hk. unfold mw_add, mw_commit. rewrite He, Hf. destruct (op_k o); [done|].
  by destruct (mw_pend wb).
Qed.

#[global] Instance memWB_laws : WriteBatchLaws memDB memTx memWB.
Proof.
  refine {| wb_on := mw_on; wb_ok db wb := mw_err wb = None /\ md_full db = false; wb_valid k v := k <> [] |};
    unfold db_rep; cbn.
  - intros db m <-. by exists [].
  - intros db wb m l k v. apply mw_add_on.
  - intros db wb m l k. apply mw_add_on.
  - intros db wb m l Hon. unfold mw_on in Hon. destruct (mw_err wb) as [err|].
    + destruct Hon as (d & rest & -> & Hd). exists (apply_ops m d). split; [|done]. exists d.
      split; [by apply sublist_inserts_r|done].
    + destruct Hon as (d & -> & Hd). unfold mw_commit. destruct (md_full db); cbn.
      * exists (apply_ops m d). split; [|done]. exists d. split; [|done]. by apply sublist_inserts_r.
      * rewrite Hd. symmetry. apply apply_ops_app.
  - intros db Hok. done.
  - intros db wb k v Hok Hk. by apply mw_add_ok.
  - intros db wb k v Hok Hk. by apply mw_add_ok.
  - intros db wb [He Hf]. rewrite He. unfold mw_commit. by rewrite Hf.
Defined.

Record memBIt := MkMemBIt { mbi_map : gmap bytes bytes; mbi_rows : list (bytes * bytes); mbi_bad : bool }.

#[global] Instance memBIt_iter : ItemIter memDB memBIt := {
  ii_new db := MkMemBIt (md_map db) [] (md_full db);
  ii_seek it start := MkMemBIt (mbi_map it) (entries_from (mbi_map it) start) (mbi_bad it);
  ii_next it := MkMemBIt (mbi_map it) (tail (mbi_rows it)) (mbi_bad it);
  ii_valid it := match mbi_rows it with [] => false | _ => true end;
  ii_key it := from_option fst [] (head (mbi_rows it));
  ii_value it := if mbi_bad it then inr (ErrStore "value log") else inl (from_option snd [] (head (mbi_rows it))) }.

#[global] Instance memBIt_laws : ItemIterLaws memDB memTx memBIt.
Proof.
  refine {| ii_view it m := mbi_map it = m; ii_at it rows := mbi_rows it = rows; ii_ok it := mbi_bad it = false |};
    unfold db_rep, db_ok; cbn; try done.
  - by intros it m start <-.
  - intros [m rows bad] rs <-. cbn. destruct rows as [|[k v] rows]; [done|]. exists v, rows.
    split_and!; [done..|]. by destruct bad.
Defined.

(** An engine over it, and a batch whose third write is refused after the
    first two were committed. *)
Definition demo_badger (full : bool) (m : gmap bytes bytes) : eng memDB memTx bytes memWB memBIt :=
  MkEng (MkMemDB m full) false.
Definition demo_badger_batch : list memOp := [PutOp [Byte.x62] []; PutOp [Byte.x61] [Byte.x01]; PutOp [] []].
Definition demo_badger_requests : list areq :=
  [AWrite (PutOp [Byte.x63] [Byte.x03]); ABatch demo_badger_batch; AGet [Byte.x61]; AScan [Byte.x62] 4].


(** A value that cannot be read is scanned as an empty one, and the iterator
    reports no error. *)
Theorem badger_scan_drops_error :
  ad_scan (demo_badger true {[ [Byte.x61] := [Byte.x01] ]}) [] 2 = inl [([Byte.x61], [])] /\
  ad_get (demo_badger true {[ [Byte.x61] := [Byte.x01] ]}) [Byte.x61] = inl (Some [Byte.x01]).
Proof. split; vm_compute; reflexivity. Qed.

(** The adapter says that a batch is atomic; one that spans transactions is
    not. *)
Theorem badger_batch_torn :
  AtomicBatch (MetaCaps engMeta) = true /\
  exists err, (run_request (demo_badger false ∅) (ABatch demo_badger_batch)).1 = AAck (Some err) /\
    ad_get (run_request (demo_badger false ∅) (ABatch demo_badger_batch)).2 [Byte.x61] = inl (Some [Byte.x01]).
Proof. split; [reflexivity|]. eexists. split; vm_compute; reflexivity. Qed.
