(* ===== verification/Sqlite.v ===== *)
(** * The SQLite adapter (adapters/sqlite/sqlite.go)

    Every call is a statement of SQL on one table; a batch prepares its two
    statements in a transaction, executes them write by write and commits.
    [database/sql] with the driver is a parameter: its laws say what each of
    the statements the adapter sends does to the table. *)

From S2P Require Import Prelude Codec Engine Ordered Adapter TxStore Point.
Local Open Scope go_scope.

(** ** The statements *)

Definition createSQL : string := "CREATE TABLE IF NOT EXISTS kv (k BLOB PRIMARY KEY, v BLOB) WITHOUT ROWID".
Definition selectSQL : string := "SELECT v FROM kv WHERE k=?".
Definition upsertSQL : string := "INSERT INTO kv(k,v) VALUES(?,?) ON CONFLICT(k) DO UPDATE SET v=excluded.v".
Definition deleteSQL : string := "DELETE FROM kv WHERE k=?".
Definition scanSQL : string := "SELECT k,v FROM kv WHERE k>=? ORDER BY k".
Definition checkpointSQL : string := "PRAGMA wal_checkpoint(TRUNCATE)".

(** ** The database *)

(** [sq_queryRow]: the one column of the first row, [ErrNotFound] for
    [sql.ErrNoRows].  A transaction holds the one connection, so it carries
    the database until it ends. *)
Class SqlDB (DB Tx Rows : Type) := {
  sq_exec : DB -> string -> list bytes -> DB * option serr;
  sq_queryRow : DB -> string -> list bytes -> bytes + serr;
  sq_query : DB -> string -> list bytes -> Rows + serr;
  sq_next : Rows -> bool * Rows;
  sq_scan : Rows -> (bytes * bytes) + serr;
  sq_begin : DB -> Tx + serr;
  sq_prepare : Tx -> string -> option serr;
  sq_txExec : Tx -> string -> list bytes -> Tx * option serr;
  sq_rollback : Tx -> DB;
  sq_commit : Tx -> DB * option serr }.

(** What a statement with its arguments means for the table. *)
Definition statement (sql : string) (args : list bytes) : option memOp :=
  match args with
  | [k; v] => if bool_decide (sql = upsertSQL) then Some (PutOp k v) else None
  | [k] => if bool_decide (sql = deleteSQL) then Some (DelOp k) else None
  | _ => None
  end.

(** [sx_rep t m0 m]: the transaction started on [m0] and sees [m]. *)
Class SqlLaws (DB Tx Rows : Type) `{SqlDB DB Tx Rows} := {
  sq_rep : DB -> gmap bytes bytes -> Prop;
  sq_ok : DB -> Prop;
  sq_valid : bytes -> bytes -> Prop;
  sx_rep : Tx -> gmap bytes bytes -> gmap bytes bytes -> Prop;
  sx_ok : Tx -> Prop;
  rows_at : Rows -> list (bytes * bytes) -> Prop;
  rows_ok : Rows -> Prop;
  sq_exec_law db m sql args o : sq_rep db m -> statement sql args = Some o ->
    let '(db', err) := sq_exec db sql args in
    match err with None => sq_rep db' (apply_op m o) | Some _ => sq_rep db' m end;
  sq_select_law db m k : sq_rep db m ->
    match sq_queryRow db selectSQL [k] with
    | inl v => m !! k = Some v
    | inr ErrNotFound => m !! k = None
    | inr (ErrStore _) => True
    end;
  sq_scan_law db m start : sq_rep db m ->
    match sq_query db scanSQL [start] with inl rows => rows_at rows (entries_from m start) | inr _ => True end;
  sq_next_law r rows : rows_at r rows ->
    match sq_next r with
    | (true, r') => exists k v rows', rows = (k, v) :: rows' /\ rows_at r' rows' /\
        match sq_scan r' with inl kv => kv = (k, v) | inr _ => ~ rows_ok r end
    | (false, _) => rows_ok r -> rows = []
    end;
  sq_begin_law db m : sq_rep db m -> match sq_begin db with inl t => sx_rep t m m | inr _ => True end;
  sq_txExec_law t m0 m sql args o : sx_rep t m0 m -> statement sql args = Some o ->
    let '(t', err) := sq_txExec t sql args in
    match err with None => sx_rep t' m0 (apply_op m o) | Some _ => exists m', sx_rep t' m0 m' end;
  sq_rollback_law t m0 m : sx_rep t m0 m -> sq_rep (sq_rollback t) m0;
  sq_commit_law t m0 m : sx_rep t m0 m ->
    let '(db, err) := sq_commit t in
    match err with None => sq_rep db m | Some _ => sq_rep db m0 end;
  sq_exec_ok db sql args o : sq_ok db -> statement sql args = Some o -> op_valid sq_valid o ->
    (sq_exec db sql args).2 = None /\ sq_ok (sq_exec db sql args).1;
  sq_select_ok db k v : sq_ok db -> sq_valid k v -> forall msg, sq_queryRow db selectSQL [k] <> inr (ErrStore msg);
  sq_scan_ok db start : sq_ok db -> exists rows, sq_query db scanSQL [start] = inl rows /\ rows_ok rows;
  sq_next_ok r : rows_ok r -> rows_ok (sq_next r).2;
  sq_begin_ok db : sq_ok db -> exists t, sq_begin db = inl t /\ sx_ok t;
  sq_prepare_ok t sql : sx_ok t -> sql = upsertSQL \/ sql = deleteSQL -> sq_prepare t sql = None;
  sq_txExec_ok t sql args o : sx_ok t -> statement sql args = Some o -> op_valid sq_valid o ->
    (sq_txExec t sql args).2 = None /\ sx_ok (sq_txExec t sql args).1;
  sq_commit_ok t : sx_ok t -> (sq_commit t).2 = None /\ sq_ok (sq_commit t).1 }.

(** ** The adapter *)

Definition engMeta : Meta :=
  MkMeta "sqlite" FamilyBTree ModeInProc "" "modernc-pure-go" ""
    (MkCapabilities true true true true true true true)
    [MkAsterisk "default-durability" "opened in WAL with synchronous=NORMAL, the WAL-recommended default: the WAL is fsynced at checkpoints rather than on every commit, so the out-of-box write number is not fsync-per-commit";
     MkAsterisk "sql-overhead" "KV ops go through SQL prepared statements; reflects SQLite-as-KV, not raw btree"]
    false.

(** The value of the synchronous pragma. *)
Definition openSync (cfg : Config) : string :=
  if bool_decide (CfgSynchronous cfg = "OFF") then "OFF"
  else if bool_decide (CfgSynchronous cfg = "FULL") then "FULL" else "NORMAL".

(** The data source name, given the joined path. *)
Definition dsn (path : string) (cfg : Config) : string :=
  ("file:" +:+ path +:+ "?_pragma=journal_mode(WAL)&_pragma=synchronous(" +:+ openSync cfg +:+
   ")&_pragma=busy_timeout(5000)")%string.

(** In WAL mode only FULL syncs each commit; NORMAL syncs at checkpoints. *)
Definition openDurability (cfg : Config) : durability :=
  if bool_decide (openSync cfg = "OFF") then SyncNever
  else if bool_decide (openSync cfg = "FULL") then SyncCommit else SyncDeferred.

(** [Open]: a table that cannot be made closes the database again. *)
Inductive call :=
| SqlOpen (dsn : string)
| SetMaxOpenConns (n : Z)
| ExecDDL (sql : string)
| CloseDB.

Definition Open (join : string -> string -> string) (fails : call -> option serr) (cfg : Config)
    : list call * option serr :=
  run_steps fails [CloseDB]
    [(SqlOpen (dsn (join (CfgDir cfg) "data.sqlite") cfg), false);
     (SetMaxOpenConns 1, false);
     (ExecDDL createSQL, true)].

Record eng (DB Tx Rows : Type) := MkEng { e_db : DB }.
Arguments MkEng {DB Tx Rows}.
Arguments e_db {DB Tx Rows}.

Record batch := MkBatch { ops : list memOp }.
Definition NewBatch : batch := MkBatch [].
Definition batchPut (b : batch) (k v : bytes) : batch := MkBatch (ops b ++ [PutOp (copyBytes k) (copyBytes v)]).
Definition batchDelete (b : batch) (k : bytes) : batch := MkBatch (ops b ++ [DelOp (copyBytes k)]).
Definition batchLen (b : batch) : Z := len (ops b).

Record iter (Rows : Type) := MkIter { i_rows : Rows; i_k : bytes; i_v : bytes }.
Arguments MkIter {Rows}.
Arguments i_rows {Rows}.
Arguments i_k {Rows}.
Arguments i_v {Rows}.

Section Ops.
Context {DB Tx Rows : Type} `{SqlDB DB Tx Rows}.

Definition Get (db : DB) (key : bytes) : option bytes + serr :=
  match sq_queryRow db selectSQL [key] with
  | inr ErrNotFound => inl None
  | inl v => inl (Some v)
  | inr err => inr err
  end.

Definition Put (db : DB) (key value : bytes) : DB * option serr := sq_exec db upsertSQL [key; value].
Definition Delete (db : DB) (key : bytes) : DB * option serr := sq_exec db deleteSQL [key].

Definition Scan (db : DB) (start : bytes) : iter Rows + serr :=
  match sq_query db scanSQL [start] with
  | inr err => inr err
  | inl rows => inl (MkIter rows [] [])
  end.

(** The result of the checkpoint is dropped. *)
Definition Flush (db : DB) : DB * option serr := ((sq_exec db checkpointSQL []).1, None).

Definition Next (i : iter Rows) : bool * iter Rows :=
  let '(more, rows) := sq_next (i_rows i) in
  if negb more then (false, MkIter rows (i_k i) (i_v i))
  else
    match sq_scan rows with
    | inl (k, v) => (true, MkIter rows k v)
    | inr _ => (false, MkIter rows [] [])
    end.

Definition commitWrite (tx : Tx) (o : memOp) : Tx * option serr :=
  if op_del o then sq_txExec tx deleteSQL [op_k o] else sq_txExec tx upsertSQL [op_k o; op_v o].

(** [Commit]: every error before the commit rolls back and leaves the batch as
    it was; the batch is emptied before the commit. *)
Definition Commit (db : DB) (b : batch) : DB * batch * option serr :=
  match sq_begin db with
  | inr err => (db, b, Some err)
  | inl tx =>
      match sq_prepare tx upsertSQL with
      | Some err => (sq_rollback tx, b, Some err)
      | None =>
          match sq_prepare tx deleteSQL with
          | Some err => (sq_rollback tx, b, Some err)
          | None =>
              let '(tx', err) := writeAll commitWrite tx (ops b) in
              match err with
              | Some _ => (sq_rollback tx', b, err)
              | None => let '(db', err') := sq_commit tx' in (db', NewBatch, err')
              end
          end
      end
  end.

Definition batchOf (l : list memOp) : batch := build_batch NewBatch batchPut batchDelete l.

Definition scanRows (db : DB) (start : bytes) (n : nat) : list (bytes * bytes) + serr :=
  match Scan db start with
  | inr err => inr err
  | inl it => inl (read_rows Next i_k i_v n it)
  end.

#[global] Instance adapterOps : AdapterOps (eng DB Tx Rows) := {
  ad_get e k := Get (e_db e) k;
  ad_put e k v := let '(db, err) := Put (e_db e) k v in (MkEng db, err);
  ad_delete e k := let '(db, err) := Delete (e_db e) k in (MkEng db, err);
  ad_commit e l := let '(db, _, err) := Commit (e_db e) (batchOf l) in (MkEng db, err);
  ad_scan e start n := scanRows (e_db e) start n }.
End Ops.

Definition Stats : Engine.Stats := UnknownStats.

Definition Close {DB} (dbClose : DB -> option serr) (db : option DB) : option serr :=
  match db with Some d => dbClose d | None => None end.

(** ** The contract *)

Lemma sqlite_batchOf_ops l : ops (batchOf l) = norm_op <$> l.
Proof. by apply (build_batch_ops ops). Qed.

Section Contract.
Context {DB Tx Rows : Type} `{SqlLaws DB Tx Rows}.
Implicit Types (db : DB) (t : Tx).

(** The write as the adapter sends it, in a transaction. *)
Definition writeSQL (o : memOp) : string * list bytes :=
  if op_del o then (deleteSQL, [op_k o]) else (upsertSQL, [op_k o; op_v o]).

Lemma writeSQL_statement o : statement (writeSQL o).1 (writeSQL o).2 = Some (norm_op o).
Proof. unfold writeSQL, statement, norm_op. by destruct o as [[] k v]. Qed.

Lemma commitWrite_eq t o : commitWrite t o = sq_txExec t (writeSQL o).1 (writeSQL o).2.
Proof. unfold commitWrite, writeSQL. by destruct (op_del o). Qed.

Lemma sqlite_writeAll l : forall t m0 m, sx_rep t m0 m ->
  let '(t', err) := writeAll commitWrite t l in
  match err with None => sx_rep t' m0 (apply_ops m l) | Some _ => exists m', sx_rep t' m0 m' end.
Proof.
  induction l as [|o l IH]; intros t m0 m Ht; [done|]. cbn [writeAll]. rewrite commitWrite_eq.
  pose proof (sq_txExec_law t m0 m _ _ _ Ht (writeSQL_statement o)) as Hl.
  destruct (sq_txExec t _ _) as [t' [err|]]; [done|]. rewrite apply_norm_op in Hl. by apply (IH t' m0).
Qed.

Lemma sqlite_writeAll_ok l : forall t, sx_ok t -> Forall (op_valid sq_valid) l ->
  (writeAll commitWrite t l).2 = None /\ sx_ok (writeAll commitWrite t l).1.
Proof.
  induction l as [|o l IH]; intros t Ht Hv; [done|]. apply Forall_cons in Hv as [Ho Hv]. cbn [writeAll].
  rewrite commitWrite_eq. destruct (sq_txExec_ok t _ _ _ Ht (writeSQL_statement o)) as [Hn Hk].
  { by apply norm_op_valid. }
  destruct (sq_txExec t _ _) as [t' err]. cbn in *. subst. by apply IH.
Qed.

(** A batch is whole or not at all.  One that fails before its commit is left
    as it was; one whose commit fails is empty. *)
Lemma sqlite_Commit db m b : sq_rep db m ->
  let '(db', b', err) := Commit db b in
  match err with
  | None => sq_rep db' (apply_ops m (ops b)) /\ b' = NewBatch
  | Some _ => sq_rep db' m /\ (b' = b \/ b' = NewBatch)
  end.
Proof.
  intros Hr. unfold Commit. pose proof (sq_begin_law db m Hr) as Hb. destruct (sq_begin db) as [t|err]; [|by auto].
  destruct (sq_prepare t upsertSQL); [split; [by eapply sq_rollback_law|auto]|].
  destruct (sq_prepare t deleteSQL); [split; [by eapply sq_rollback_law|auto]|].
  pose proof (sqlite_writeAll (ops b) t m m Hb) as Hw. destruct (writeAll commitWrite t (ops b)) as [t' [err|]].
  - destruct Hw as [m' Hw]. split; [by eapply sq_rollback_law|auto].
  - pose proof (sq_commit_law t' _ _ Hw) as Hc. destruct (sq_commit t') as [db' [err|]]; auto.
Qed.

Lemma sqlite_Commit_ok db b : sq_ok db -> Forall (op_valid sq_valid) (ops b) ->
  (Commit db b).2 = None /\ sq_ok (Commit db b).1.1.
Proof.
  intros Hok Hv. unfold Commit. destruct (sq_begin_ok db Hok) as (t & -> & Ht).
  rewrite !sq_prepare_ok by auto. destruct (sqlite_writeAll_ok (ops b) t Ht Hv) as [Hn Hk].
  destruct (writeAll commitWrite t (ops b)) as [t' err]. cbn in *. subst.
  destruct (sq_commit_ok t' Hk) as [Hn Hk']. by destruct (sq_commit t').
Qed.

Lemma sqlite_Next_step (it : iter Rows) rows : rows_at (i_rows it) rows ->
  match (Next it).1 with
  | true => exists rows', rows = (i_k (Next it).2, i_v (Next it).2) :: rows' /\ rows_at (i_rows (Next it).2) rows'
  | false => rows_ok (i_rows it) -> rows = []
  end /\ (rows_ok (i_rows it) -> rows_ok (i_rows (Next it).2)).
Proof.
  intros Hat. unfold Next. pose proof (sq_next_law (i_rows it) rows Hat) as Hl.
  pose proof (sq_next_ok (i_rows it)) as Hok. destruct (sq_next (i_rows it)) as [[] r]; cbn in *; [|done].
  destruct Hl as (k & v & rows' & -> & Hr & Hs). destruct (sq_scan r) as [[k' v']|err]; cbn.
  - injection Hs as -> ->. eauto.
  - split; [|done]. intros Hk. by destruct Hs.
Qed.

Lemma sqlite_put db m k v : sq_rep db m ->
  let '(db', err) := Put db k v in match err with None => sq_rep db' (<[k := v]> m) | Some _ => sq_rep db' m end.
Proof. intros Hr. by apply (sq_exec_law db m upsertSQL [k; v] (PutOp k v)). Qed.

Lemma sqlite_delete db m k : sq_rep db m ->
  let '(db', err) := Delete db k in match err with None => sq_rep db' (delete k m) | Some _ => sq_rep db' m end.
Proof. intros Hr. by apply (sq_exec_law db m deleteSQL [k] (DelOp k)). Qed.

#[global] Instance adapter : Adapter (eng DB Tx Rows).
Proof.
  refine {| ad_rep e m := sq_rep (e_db e) m; ad_ok e := sq_ok (e_db e); ad_valid := sq_valid |}.
  - intros e m k Hr. cbn. unfold Get. pose proof (sq_select_law (e_db e) m k Hr) as Hl.
    by destruct (sq_queryRow _ _ _) as [v|[|msg]].
  - intros e m k v Hr. cbn. pose proof (sqlite_put (e_db e) m k v Hr) as Hl. by destruct (Put _ _ _).
  - intros e m k Hr. cbn. pose proof (sqlite_delete (e_db e) m k Hr) as Hl. by destruct (Delete _ _).
  - intros e m l Hr. cbn. pose proof (sqlite_Commit (e_db e) m (batchOf l) Hr) as Hl.
    rewrite sqlite_batchOf_ops, apply_norm_ops in Hl.
    destruct (Commit _ _) as [[db b'] [err|]]; apply Hl.
  - intros e m start n Hr. cbn. unfold scanRows, Scan. pose proof (sq_scan_law (e_db e) m start Hr) as Hl.
    destruct (sq_query _ _ _) as [rows|]; [|done].
    apply (read_rows_prefix _ _ _ (fun it rs => rows_at (i_rows it) rs)); [|done].
    intros it rs Hat Hmore. destruct (sqlite_Next_step it rs Hat) as [Hn _]. rewrite Hmore in Hn.
    destruct Hn as (rows' & -> & Hat'). eauto.
  - intros e m k v Hr Hok Hv. cbn. unfold Get. pose proof (sq_select_law (e_db e) m k Hr) as Hl.
    pose proof (sq_select_ok (e_db e) k v Hok Hv) as Hne.
    destruct (sq_queryRow _ _ _) as [w|[|msg]]; [by rewrite Hl..|]. by destruct (Hne msg).
  - intros e m k v Hr Hok Hv. cbn.
    pose proof (sq_exec_ok (e_db e) upsertSQL [k; v] (PutOp k v) Hok eq_refl Hv) as Hl. unfold Put.
    by destruct (sq_exec _ _ _).
  - intros e m k v Hr Hok Hv. cbn.
    pose proof (sq_exec_ok (e_db e) deleteSQL [k] (DelOp k) Hok eq_refl (ex_intro _ v Hv)) as Hl. unfold Delete.
    by destruct (sq_exec _ _ _).
  - intros e m l Hr Hok Hv. cbn. pose proof (sqlite_Commit_ok (e_db e) (batchOf l) Hok) as Hl.
    rewrite sqlite_batchOf_ops in Hl. specialize (Hl (norm_ops_valid _ _ Hv)).
    by destruct (Commit _ _) as [[db b'] err].
  - intros e m start n Hr Hok. cbn. unfold scanRows, Scan.
    destruct (sq_scan_ok (e_db e) start Hok) as (rows & Hq & Hrok).
    pose proof (sq_scan_law (e_db e) m start Hr) as Hl. rewrite Hq in *. f_equal.
    apply (read_rows_all _ _ _ (fun it rs => rows_at (i_rows it) rs /\ rows_ok (i_rows it))); [|done].
    intros it rs [Hat Hk]. destruct (sqlite_Next_step it rs Hat) as [Hn Hk']. exists (Next it).2.
    destruct (Next it) as [[] it']; cbn in *.
    + destruct Hn as (rows' & -> & Hat'). auto.
    + by rewrite Hn.
Defined.
End Contract.

(** C25: the contract of [honours] for the SQLite adapter: exactly the
    acknowledged writes are in the table, a batch whole or not at all, every
    answer is the map's or an error, and over a database that does not fail it
    answers as the map does.  A batch that failed before its commit can be
    committed again: when that succeeds the table has its writes. *)
Theorem sqlite_honours {DB Tx Rows} `{SqlLaws DB Tx Rows} (e : eng DB Tx Rows) m rs :
  sq_rep (e_db e) m ->
  honours e m rs /\
  (forall b db b' err db2 b2, Commit (e_db e) b = (db, b', Some err) -> b' = b ->
   Commit db b' = (db2, b2, None) -> sq_rep db2 (apply_ops m (ops b))).
Proof.
  intros Hr. split; [by apply adapter_honours|]. intros b db b' err db2 b2 H1 -> H2.
  pose proof (sqlite_Commit (e_db e) m b Hr) as Hl. rewrite H1 in Hl. destruct Hl as [Hr1 _].
  pose proof (sqlite_Commit db m b Hr1) as Hl. rewrite H2 in Hl. apply Hl.
Qed.

(** ** A database that meets the laws

    A map, whether statements fail, and whether commits do; a primary key is
    not empty. *)

Record memSql := MkMemSql { sm_map : gmap bytes bytes; sm_full : bool; sm_busy : bool }.
Record memSx := MkMemSx { sx_start : memSql; sx_map : gmap bytes bytes }.

(** One statement on a map. *)
Definition sm_run (full : bool) (m : gmap bytes bytes) (sql : string) (args : list bytes)
    : gmap bytes bytes * option serr :=
  match statement sql args with
  | Some o =>
      if full then (m, Some (ErrStore "database or disk is full"))
      else match op_k o with
           | [] => (m, Some (ErrStore "constraint failed"))
           | _ => (apply_op m o, None)
           end
  | None => (m, None)
  end.

#[global] Instance memSql_db : SqlDB memSql memSx (list (bytes * bytes) * (bytes * bytes)) := {
  sq_exec db sql args :=
    let '(m, err) := sm_run (sm_full db) (sm_map db) sql args in (MkMemSql m (sm_full db) (sm_busy db), err);
  sq_queryRow db sql args :=
    match args with
    | [k] => match sm_map db !! k with Some v => inl v | None => inr ErrNotFound end
    | _ => inr (ErrStore "arguments")
    end;
  sq_query db sql args :=
    match args with
    | [start] => inl (entries_from (sm_map db) start, ([], []))
    | _ => inr (ErrStore "arguments")
    end;
  sq_next r := match r.1 with [] => (false, r) | kv :: rows => (true, (rows, kv)) end;
  sq_scan r := inl r.2;
  sq_begin db := inl (MkMemSx db (sm_map db));
  sq_prepare t sql := None;
  sq_txExec t sql args :=
    let '(m, err) := sm_run (sm_full (sx_start t)) (sx_map t) sql args in (MkMemSx (sx_start t) m, err);
  sq_rollback t := sx_start t;
  sq_commit t :=
    if sm_busy (sx_start t) then (sx_start t, Some (ErrStore "database is locked"))
    else (MkMemSql (sx_map t) (sm_full (sx_start t)) false, None) }.

#[global] Instance memSql_laws : SqlLaws memSql memSx (list (bytes * bytes) * (bytes * bytes)).
Proof.
  refine {| sq_rep db m := sm_map db = m; sq_ok db := sm_full db = false /\ sm_busy db = false;
            sq_valid k v := k <> []; sx_rep t m0 m := sm_map (sx_start t) = m0 /\ sx_map t = m;
            sx_ok t := sm_full (sx_start t) = false /\ sm_busy (sx_start t) = false;
            rows_at r rows := r.1 = rows; rows_ok r := True |}; cbn; unfold sm_run; try done.
  - intros db m sql args o <- ->. destruct (sm_full db), (op_k o); done.
  - intros db m k <-. by destruct (sm_map db !! k).
  - by intros db m start <-.
  - intros [rows cur] rs <-. cbn. destruct rows as [|[k v] rows]; [done|]. by exists k, v, rows.
  - intros t m0 m sql args o [<- <-] ->. destruct (sm_full (sx_start t)), (op_k o); cbn; eauto.
  - by intros t m0 m [<- _].
  - intros t m0 m [<- <-]. by destruct (sm_busy (sx_start t)).
  - intros db sql args o [Hf Hb] -> Hv. rewrite Hf. unfold op_valid in Hv.
    destruct (op_k o) eqn:Hk; [|done]. destruct (op_del o); [by destruct Hv as [v Hv]|done].
  - intros db k v _ _ msg. by destruct (sm_map db !! k).
  - intros db start _. by eexists.
  - intros db Hok. by eexists.
  - intros t sql args o [Hf Hb] -> Hv. rewrite Hf. unfold op_valid in Hv.
    destruct (op_k o) eqn:Hk; [|done]. destruct (op_del o); [by destruct Hv as [v Hv]|done].
  - intros t [Hf Hb]. by rewrite Hb.
Defined.

Definition demo_sqlite (busy : bool) : eng memSql memSx (list (bytes * bytes) * (bytes * bytes)) :=
  MkEng (MkMemSql ∅ false busy).

Lemma sqlite_honours_witness :
  honours (demo_sqlite false) ∅ demo_requests /\
  (forall b db b' err db2 b2, Commit (e_db (demo_sqlite false)) b = (db, b', Some err) -> b' = b ->
   Commit db b' = (db2, b2, None) -> sq_rep db2 (apply_ops ∅ (ops b))).
Proof. apply (sqlite_honours (demo_sqlite false)). reflexivity. Defined.

(** A batch whose commit fails is empty: committing it again reports success
    and writes nothing. *)
Theorem sqlite_commit_loses_batch :
  let b := batchOf [PutOp [Byte.x61] [Byte.x01]] in
  exists db err, Commit (e_db (demo_sqlite true)) b = (db, NewBatch, Some err) /\
    Commit (MkMemSql (sm_map db) false false) NewBatch = (MkMemSql ∅ false false, NewBatch, None).
Proof. eexists _, _. split; reflexivity. Qed.
