(* ===== verification/OpenAddr.v ===== *)
(** * Linear probing with tombstones

    The open-addressing tables of adapters/inmem/inmem.go ([faster], [swiss],
    [f2]) and of cmd/locktax/main.go all walk an index the same way:

    [for i := h & mask; ; i = (i + 1) & mask { ... }]

    This file holds that loop as a combinator and the theory of the tables it
    walks: a view of a slot (empty, full with a key and a value, tombstone),
    the invariant that every full slot is reachable from its key's home slot
    without crossing an empty one, and the lemmas that say what a lookup, an
    insertion, an overwrite and a deletion do to the map a table represents. *)

From S2P Require Import Prelude.

(** ** The probe loop

    One iteration of the body either continues with a new accumulator or
    returns.  The budget is a number of iterations; a table of [n] slots has
    been seen whole after [n] of them. *)

Fixpoint probe_loop {A R} (fuel : nat) (mask i : Z) (acc : A)
    (body : A -> Z -> outcome (A + R)) : outcome R :=
  match fuel with
  | O => Spin
  | S fuel' =>
      obind (body acc i) (fun x =>
        match x with
        | inl acc' => probe_loop fuel' mask (Z.land (wrap64 (i + 1)) mask) acc' body
        | inr r => Ok r
        end)
  end.

(** The slot visited at step [t] from hash [h] in a table of [n] slots. *)
Definition pos (n : nat) (h : Z) (t : nat) : nat :=
  Z.to_nat ((h + Z.of_nat t) mod Z.of_nat n).

Lemma pos_lt n h t : (0 < n)%nat -> (pos n h t < n)%nat.
Proof. intros. unfold pos. pose proof (Z.mod_pos_bound (h + Z.of_nat t) (Z.of_nat n)). lia. Qed.

Lemma pos_surj n h j : (j < n)%nat -> exists t, (t < n)%nat /\ pos n h t = j.
Proof.
  intros Hj. exists (Z.to_nat ((Z.of_nat j - h) mod Z.of_nat n)).
  pose proof (Z.mod_pos_bound (Z.of_nat j - h) (Z.of_nat n)).
  split; [lia|]. unfold pos. rewrite Z2Nat.id by lia.
  rewrite Z.add_mod_idemp_r by lia.
  replace (h + (Z.of_nat j - h)) with (Z.of_nat j) by lia.
  rewrite Z.mod_small by lia. lia.
Qed.

Lemma pos_succ n k h t :
  Z.of_nat n = 2 ^ k -> 0 <= k <= 62 ->
  Z.land (wrap64 (Z.of_nat (pos n h t) + 1)) (Z.of_nat n - 1) = Z.of_nat (pos n h (S t)).
Proof.
  intros Hn Hk. assert (0 < 2 ^ k) by lia. assert (2 ^ k <= 2 ^ 62) by (apply Z.pow_le_mono_r; lia).
  pose proof (pos_lt n h t ltac:(lia)).
  rewrite wrap64_id by zlia. rewrite Hn, land_mask by lia. unfold pos. rewrite Hn.
  pose proof (Z.mod_pos_bound (h + Z.of_nat t) (2 ^ k)).
  pose proof (Z.mod_pos_bound (h + Z.of_nat (S t)) (2 ^ k)).
  rewrite !Z2Nat.id by lia. rewrite Z.add_mod_idemp_l by lia. f_equal. lia.
Qed.

Lemma pos_start n k h :
  Z.of_nat n = 2 ^ k -> 0 <= k -> Z.land h (Z.of_nat n - 1) = Z.of_nat (pos n h 0).
Proof.
  intros Hn Hk. rewrite Hn, land_mask by lia. unfold pos. rewrite Hn, Z.add_0_r.
  pose proof (Z.mod_pos_bound h (2 ^ k)). lia.
Qed.

(** Running the loop: [m] iterations that continue, then one that stops. *)
Lemma probe_loop_run {A R} n k h (body : A -> Z -> outcome (A + R)) (a : nat -> A) res :
  Z.of_nat n = 2 ^ k -> 0 <= k <= 62 ->
  forall m t fuel, (m < fuel)%nat ->
  (forall t', (t <= t' < t + m)%nat ->
     body (a t') (Z.of_nat (pos n h t')) = Ok (inl (a (S t')))) ->
  body (a (t + m)%nat) (Z.of_nat (pos n h (t + m))) = obind res (fun r => Ok (inr r)) ->
  probe_loop fuel (Z.of_nat n - 1) (Z.of_nat (pos n h t)) (a t) body = res.
Proof.
  intros Hn Hk. induction m as [|m IH]; intros t fuel Hf Hrun Hstop.
  - destruct fuel; [lia|]. simpl. rewrite Nat.add_0_r in Hstop. rewrite Hstop.
    by destruct res.
  - destruct fuel; [lia|]. simpl. rewrite (Hrun t) by lia. simpl.
    rewrite (pos_succ n k) by done. apply IH; [lia| |].
    + intros t' Ht'. apply Hrun. lia.
    + by rewrite Nat.add_succ_comm.
Qed.

(** The least step satisfying a decidable condition, if there is one. *)
Lemma least_nat (P : nat -> Prop) `{!forall t, Decision (P t)} n :
  (forall t, (t < n)%nat -> ~ P t) \/
  exists t, (t < n)%nat /\ P t /\ forall t', (t' < t)%nat -> ~ P t'.
Proof.
  induction n as [|n [IH|(t & Ht & HP & Hmin)]].
  - left. lia.
  - destruct (decide (P n)) as [HP|HP].
    + right. exists n. eauto with lia.
    + left. intros t Ht. destruct (decide (t = n)) as [->|]; [done|]. apply IH. lia.
  - right. exists t. eauto with lia.
Qed.

(** ** Slots and tables *)

Inductive slotview (K V : Type) : Type :=
| VEmpty
| VFull (k : K) (v : V)
| VTomb.
Arguments VEmpty {K V}.
Arguments VFull {K V} k v.
Arguments VTomb {K V}.

Section Tables.
Context {K V : Type} `{Countable K} (hash : K -> Z).
Implicit Types (vs : list (slotview K V)) (m : gmap K V) (k : K) (v : V).

Definition used1 (s : slotview K V) : nat := match s with VEmpty => 0 | _ => 1 end.
Definition live1 (s : slotview K V) : nat := match s with VFull _ _ => 1 | _ => 0 end.

(** Full and tombstone slots: what drives the load factor. *)
Definition used_count vs : nat := sum_list_with used1 vs.
Definition live_count vs : nat := sum_list_with live1 vs.

(** Slot [q] is on [k]'s probe path, with no empty slot before it. *)
Definition on_path vs k (q : nat) : Prop :=
  exists t, (t < length vs)%nat /\ pos (length vs) (hash k) t = q /\
    forall t', (t' < t)%nat -> vs !! pos (length vs) (hash k) t' <> Some VEmpty.

(** The table invariant: full slots are reachable, each key is stored once,
    and [m] is the map the full slots spell out. *)
Record table vs m : Prop := {
  tb_path : forall q k v, vs !! q = Some (VFull k v) -> on_path vs k q;
  tb_uniq : forall p q k v w, vs !! p = Some (VFull k v) -> vs !! q = Some (VFull k w) -> p = q;
  tb_map : forall k v, m !! k = Some v <-> exists q, vs !! q = Some (VFull k v) }.

Definition full_of (s : slotview K V) k : Prop := exists v, s = VFull k v.

#[global] Instance full_of_dec s k : Decision (full_of s k).
Proof.
  destruct s as [|k' v|]; [right; intros [? ?]; done| |right; intros [? ?]; done].
  destruct (decide (k' = k)) as [->|]; [left; by exists v|right; intros [? [= ? ?]]; done].
Defined.

Lemma table_absent vs m k :
  table vs m -> (forall q v, vs !! q <> Some (VFull k v)) -> m !! k = None.
Proof.
  intros Ht Hno. destruct (m !! k) as [v|] eqn:E; [|done].
  apply (tb_map _ _ Ht) in E as [q Hq]. by destruct (Hno q v).
Qed.

Lemma table_absent_inv vs m k q v : table vs m -> m !! k = None -> vs !! q <> Some (VFull k v).
Proof. intros Ht Hk Hq. assert (m !! k = Some v) by (apply (tb_map _ _ Ht); eauto). congruence. Qed.

(** ** Counting *)

Lemma sum_list_insert {A} (f : A -> nat) (l : list A) q x y :
  l !! q = Some x -> (sum_list_with f (<[q:=y]> l) + f x = sum_list_with f l + f y)%nat.
Proof.
  revert q. induction l as [|a l IH]; intros [|q]; simpl; intros Hq; try done.
  - injection Hq as ->. lia.
  - specialize (IH _ Hq). lia.
Qed.

Lemma used_count_insert vs q x y :
  vs !! q = Some x -> (used_count (<[q:=y]> vs) + used1 x = used_count vs + used1 y)%nat.
Proof. apply sum_list_insert. Qed.

Lemma live_count_insert vs q x y :
  vs !! q = Some x -> (live_count (<[q:=y]> vs) + live1 x = live_count vs + live1 y)%nat.
Proof. apply sum_list_insert. Qed.

Lemma used_count_le vs : (used_count vs <= length vs)%nat.
Proof. induction vs as [|[] vs IH]; unfold used_count in *; simpl; lia. Qed.

Lemma live_le_used vs : (live_count vs <= used_count vs)%nat.
Proof. induction vs as [|[] vs IH]; unfold used_count, live_count in *; simpl; lia. Qed.

Lemma used_count_room vs : (used_count vs < length vs)%nat -> exists q, vs !! q = Some VEmpty.
Proof.
  induction vs as [|s vs IH]; unfold used_count in *; simpl; [lia|]. intros Hlt.
  destruct s; [by exists 0%nat| |]; simpl in Hlt;
    (destruct IH as [q Hq]; [lia|]; by exists (S q)).
Qed.

Lemma used_count_replicate n : used_count (replicate n VEmpty) = 0%nat.
Proof. unfold used_count. by induction n. Qed.

Lemma live_count_replicate n : live_count (replicate n VEmpty) = 0%nat.
Proof. unfold live_count. by induction n. Qed.

(** ** The empty table and the four updates *)

Lemma table_empty n : table (replicate n VEmpty) ∅.
Proof.
  split.
  - intros q k v [? _]%lookup_replicate. done.
  - intros p q k v w [? _]%lookup_replicate. done.
  - intros k v. rewrite lookup_empty. split; [done|]. intros [q [? _]%lookup_replicate]. done.
Qed.

Lemma on_path_insert vs k q p s :
  s <> VEmpty -> on_path vs k q -> on_path (<[p:=s]> vs) k q.
Proof.
  intros Hs (t & Ht & Hq & Hne). exists t. rewrite length_insert. split_and!; [done..|].
  intros t' Ht' [[_ [? _]]|[_ ?]]%list_lookup_insert_Some; [done|]. by apply (Hne t').
Qed.

(** A free slot on the key's path takes a key the table does not hold. *)
Lemma table_insert vs m k v q :
  table vs m -> m !! k = None -> on_path vs k q ->
  (forall k' v', vs !! q <> Some (VFull k' v')) ->
  table (<[q:=VFull k v]> vs) (<[k:=v]> m).
Proof.
  intros Ht Hk Hq Hfree. assert (q < length vs)%nat as Hlt.
  { destruct Hq as (t & ? & <- & _). apply pos_lt. lia. }
  split.
  - intros p k' v' [(<- & [= -> ->] & _)|[_ Hp]]%list_lookup_insert_Some.
    + by apply on_path_insert.
    + apply on_path_insert; [done|]. by eapply tb_path.
  - intros p p' k' v' w' [(<- & [= -> ->] & _)|[Hn Hp]]%list_lookup_insert_Some
      [(<- & [= <-] & _)|[Hn' Hp']]%list_lookup_insert_Some; try done.
    + by destruct (table_absent_inv _ _ _ _ _ Ht Hk Hp').
    + subst. by destruct (table_absent_inv _ _ _ _ _ Ht Hk Hp).
    + by eapply tb_uniq.
  - intros k' v'. rewrite lookup_insert_Some, (tb_map _ _ Ht). split.
    + intros [[<- <-]|[Hne [p Hp]]].
      * exists q. by rewrite list_lookup_insert_eq.
      * exists p. rewrite list_lookup_insert_ne; [done|]. intros ->. by destruct (Hfree _ _ Hp).
    + intros [p [(<- & [= -> ->] & _)|[Hn Hp]]%list_lookup_insert_Some]; [by left|].
      right. split; [|eauto]. intros ->. by destruct (table_absent_inv _ _ _ _ _ Ht Hk Hp).
Qed.

Lemma table_overwrite vs m k v w q :
  table vs m -> vs !! q = Some (VFull k w) ->
  table (<[q:=VFull k v]> vs) (<[k:=v]> m).
Proof.
  intros Ht Hq. pose proof (lookup_lt_Some _ _ _ Hq) as Hlt. split.
  - intros p k' v' [(<- & [= -> ->] & _)|[_ Hp]]%list_lookup_insert_Some;
      (apply on_path_insert; [done|]; by eapply tb_path).
  - intros p p' k' v' w' [(<- & [= -> ->] & _)|[Hn Hp]]%list_lookup_insert_Some
      [(<- & [= <-] & _)|[Hn' Hp']]%list_lookup_insert_Some; try done.
    + by eapply tb_uniq.
    + subst. by eapply tb_uniq.
    + by eapply tb_uniq.
  - intros k' v'. rewrite lookup_insert_Some, (tb_map _ _ Ht). split.
    + intros [[<- <-]|[Hne [p Hp]]].
      * exists q. by rewrite list_lookup_insert_eq.
      * exists p. rewrite list_lookup_insert_ne; [done|]. intros ->. congruence.
    + intros [p [(<- & [= -> ->] & _)|[Hn Hp]]%list_lookup_insert_Some]; [by left|].
      right. split; [|eauto]. intros ->. destruct Hn. by eapply tb_uniq.
Qed.

Lemma table_delete vs m k w q :
  table vs m -> vs !! q = Some (VFull k w) -> table (<[q:=VTomb]> vs) (delete k m).
Proof.
  intros Ht Hq. pose proof (lookup_lt_Some _ _ _ Hq) as Hlt. split.
  - intros p k' v' [(_ & ? & _)|[_ Hp]]%list_lookup_insert_Some; [done|].
    apply on_path_insert; [done|]. by eapply tb_path.
  - intros p p' k' v' w' [(_ & ? & _)|[_ Hp]]%list_lookup_insert_Some
      [(_ & ? & _)|[_ Hp']]%list_lookup_insert_Some; try done. by eapply tb_uniq.
  - intros k' v'. rewrite lookup_delete_Some, (tb_map _ _ Ht). split.
    + intros [Hne [p Hp]]. exists p. rewrite list_lookup_insert_ne; [done|]. congruence.
    + intros [p [(_ & ? & _)|[Hn Hp]]%list_lookup_insert_Some]; [done|].
      split; [|eauto]. intros ->. destruct Hn. by eapply tb_uniq.
Qed.

(** ** Where a probe for a key ends *)

(** The steps before the end see neither an empty slot nor the key. *)
Definition passes (s : slotview K V) k : Prop := s <> VEmpty /\ ~ full_of s k.

Definition stops vs k (t : nat) : Prop :=
  exists s, vs !! pos (length vs) (hash k) t = Some s /\ (s = VEmpty \/ full_of s k).

#[local] Instance stops_dec vs k t : Decision (stops vs k t).
Proof.
  unfold stops. destruct (vs !! pos (length vs) (hash k) t) as [s|];
    [|right; by intros (? & ? & _)].
  destruct (decide (full_of s k)) as [|Hn]; [left; eauto|].
  destruct s; [left; eauto|right; intros (? & [= <-] & [?|?]); by try apply Hn..].
Qed.

Lemma probe_end vs m k :
  table vs m -> (used_count vs < length vs)%nat ->
  exists t, (t < length vs)%nat /\
    (forall t', (t' < t)%nat -> exists s,
        vs !! pos (length vs) (hash k) t' = Some s /\ passes s k) /\
    ((exists v, vs !! pos (length vs) (hash k) t = Some (VFull k v) /\ m !! k = Some v) \/
     (vs !! pos (length vs) (hash k) t = Some VEmpty /\ m !! k = None)).
Proof.
  intros Ht Hroom. destruct (used_count_room _ Hroom) as [q Hq].
  pose proof (lookup_lt_Some _ _ _ Hq) as Hlt.
  destruct (pos_surj (length vs) (hash k) q Hlt) as (t0 & Ht0 & Hp0).
  destruct (least_nat (stops vs k) (length vs)) as [Hno|(t & Htn & (s & Hs & Hstop) & Hmin)].
  { destruct (Hno t0 Ht0). exists VEmpty. rewrite Hp0. auto. }
  assert (forall t', (t' < t)%nat -> exists s',
        vs !! pos (length vs) (hash k) t' = Some s' /\ passes s' k) as Hpass.
  { intros t' Ht'. pose proof (pos_lt (length vs) (hash k) t' ltac:(lia)) as Hl.
    destruct (lookup_lt_is_Some_2 _ _ Hl) as [s' Hs']. exists s'. split; [done|].
    pose proof (Hmin t' Ht') as Hn. split; intros ?; apply Hn; exists s'; auto. }
  exists t. split_and!; [done..|]. destruct Hstop as [->|[v ->]].
  - right. split; [done|]. eapply table_absent; [done|]. intros p v Hp.
    destruct (tb_path _ _ Ht _ _ _ Hp) as (u & Hu & Hpu & Hne).
    destruct (decide (t < u)%nat) as [Hlt'|Hge]; [by destruct (Hne t Hlt')|].
    destruct (decide (t = u)) as [<-|Hneq]; [rewrite Hpu in Hs; congruence|].
    destruct (Hpass u ltac:(lia)) as (s' & Hs' & _ & Hnf). rewrite Hpu, Hp in Hs'.
    injection Hs' as <-. apply Hnf. by exists v.
  - left. exists v. split; [done|]. apply (tb_map _ _ Ht). eauto.
Qed.

(** ** What the probe loops return

    A table of [2^lg] slots with a free slot left; [h & mask] starts the walk. *)

Section Loops.
Context (vs : list (slotview K V)) (m : gmap K V) (k : K) (lg : Z).
Context (Hlg : Z.of_nat (length vs) = 2 ^ lg) (Hrange : 0 <= lg <= 62).
Context (Htab : table vs m) (Hroom : (used_count vs < length vs)%nat).

Abbreviation mask := (Z.of_nat (length vs) - 1).
Abbreviation start := (Z.land (hash k) (Z.of_nat (length vs) - 1)).

(** Lookup and deletion: stop at the key or at an empty slot. *)
Lemma loop_lookup {R} (body : unit -> Z -> outcome (unit + R))
    (found : nat -> V -> outcome R) (missing : outcome R) :
  (forall p s, vs !! p = Some s ->
     body tt (Z.of_nat p) =
       match s with
       | VEmpty => obind missing (fun r => Ok (inr r))
       | VTomb => Ok (inl tt)
       | VFull k' v =>
           if decide (k' = k) then obind (found p v) (fun r => Ok (inr r)) else Ok (inl tt)
       end) ->
  (exists p v, vs !! p = Some (VFull k v) /\ m !! k = Some v /\
     probe_loop (length vs) mask start tt body = found p v) \/
  (m !! k = None /\ probe_loop (length vs) mask start tt body = missing).
Proof using Hlg Hrange Htab Hroom.
  intros Hbody. destruct (probe_end _ _ k Htab Hroom) as (t & Ht & Hpass & Hend).
  assert (forall t', (0 <= t' < 0 + t)%nat ->
      body tt (Z.of_nat (pos (length vs) (hash k) t')) = Ok (inl tt)) as Hrun.
  { intros t' [_ Ht']. destruct (Hpass t' Ht') as (s & Hs & Hne & Hnf). rewrite (Hbody _ _ Hs).
    destruct s as [|k' v'|]; [done| |done]. rewrite decide_False; [done|].
    intros ->. apply Hnf. by exists v'. }
  rewrite (pos_start _ lg) by lia.
  destruct Hend as [(v & Hv & Hm)|[He Hm]].
  - left. exists (pos (length vs) (hash k) t), v. split_and!; [done..|].
    eapply (probe_loop_run _ lg (hash k) body (fun _ => tt)); [done|done|exact Ht|exact Hrun|].
    simpl. rewrite (Hbody _ _ Hv). by rewrite decide_True.
  - right. split; [done|].
    eapply (probe_loop_run _ lg (hash k) body (fun _ => tt)); [done|done|exact Ht|exact Hrun|].
    simpl. by rewrite (Hbody _ _ He).
Qed.

(** Insertion: as lookup, remembering the first tombstone passed. *)
Fixpoint first_tomb (t : nat) : Z :=
  match t with
  | O => -1
  | S t' =>
      match vs !! pos (length vs) (hash k) t' with
      | Some VTomb =>
          if first_tomb t' <? 0 then Z.of_nat (pos (length vs) (hash k) t') else first_tomb t'
      | _ => first_tomb t'
      end
  end.

Lemma first_tomb_spec t :
  first_tomb t = -1 \/
  exists t', (t' < t)%nat /\ first_tomb t = Z.of_nat (pos (length vs) (hash k) t') /\
    vs !! pos (length vs) (hash k) t' = Some VTomb.
Proof using Type.
  clear Hroom Htab Hrange Hlg lg. induction t as [|t IH]; [by left|]. simpl.
  destruct (vs !! pos (length vs) (hash k) t) as [[|k' v'|]|] eqn:E;
    try (destruct IH as [IH|(t' & ? & ? & ?)]; [by left|right; exists t'; split_and!; [lia|done..]]).
  destruct (Z.ltb_spec (first_tomb t) 0).
  - right. exists t. eauto with lia.
  - destruct IH as [IH|(t' & ? & ? & ?)]; [lia|]. right. exists t'. split_and!; [lia|done..].
Qed.

(** Where a new key goes: slot [q] is the first tombstone passed when there is
    one ([ft]), otherwise the empty slot [p] that ended the probe. *)
Definition insert_at (ft : Z) (p q : nat) : Prop :=
  on_path vs k q /\ vs !! p = Some VEmpty /\
  ((ft = -1 /\ q = p) \/ (ft = Z.of_nat q /\ vs !! q = Some VTomb)).

(** Storing there, in an array of slots as long as the table. *)
Lemma insert_at_update {S} (slots : list S) ft p q ns :
  length slots = length vs -> insert_at ft p q ->
  (0 <= ft /\ update slots ft ns = Ok (<[q:=ns]> slots)) \/
  (ft = -1 /\ update slots (Z.of_nat p) ns = Ok (<[q:=ns]> slots)).
Proof using Type.
  intros Hlen (_ & Hp & [[-> ->]|[-> Hq]]); [right|left].
  - split; [done|]. apply update_ok. rewrite Hlen. by eapply lookup_lt_Some.
  - split; [clear; lia|]. apply update_ok. rewrite Hlen. by eapply lookup_lt_Some.
Qed.

Lemma loop_insert {R} (body : Z -> Z -> outcome (Z + R))
    (hit : nat -> outcome R) (fresh : Z -> nat -> outcome R) :
  (forall ft p s, vs !! p = Some s ->
     body ft (Z.of_nat p) =
       match s with
       | VEmpty => obind (fresh ft p) (fun r => Ok (inr r))
       | VTomb => Ok (inl (if ft <? 0 then Z.of_nat p else ft))
       | VFull k' _ =>
           if decide (k' = k) then obind (hit p) (fun r => Ok (inr r)) else Ok (inl ft)
       end) ->
  (exists p v, vs !! p = Some (VFull k v) /\ m !! k = Some v /\
     probe_loop (length vs) mask start (-1) body = hit p) \/
  (exists ft p q, m !! k = None /\ insert_at ft p q /\
     probe_loop (length vs) mask start (-1) body = fresh ft p).
Proof using Hlg Hrange Htab Hroom.
  intros Hbody. destruct (probe_end _ _ k Htab Hroom) as (t & Ht & Hpass & Hend).
  assert (forall t', (0 <= t' < 0 + t)%nat ->
      body (first_tomb t') (Z.of_nat (pos (length vs) (hash k) t')) =
      Ok (inl (first_tomb (S t')))) as Hrun.
  { intros t' [_ Ht']. destruct (Hpass t' Ht') as (s & Hs & Hne & Hnf).
    rewrite (Hbody _ _ _ Hs). simpl. rewrite Hs.
    destruct s as [|k' v'|]; [done| |done]. rewrite decide_False; [done|].
    intros ->. apply Hnf. by exists v'. }
  rewrite (pos_start _ lg) by lia. change (-1) with (first_tomb 0) at 1 2.
  destruct Hend as [(v & Hv & Hm)|[He Hm]].
  - left. exists (pos (length vs) (hash k) t), v. split_and!; [done..|].
    eapply (probe_loop_run _ lg (hash k) body first_tomb); [done|done|exact Ht|exact Hrun|].
    simpl. rewrite (Hbody _ _ _ Hv). by rewrite decide_True.
  - right.
    assert (forall u, (u <= t)%nat -> on_path vs k (pos (length vs) (hash k) u)) as Hpath.
    { intros u Hu. exists u. split_and!; [lia|done|]. intros t' Ht'.
      destruct (Hpass t' ltac:(lia)) as (s & -> & Hne & _). congruence. }
    assert (probe_loop (length vs) mask (Z.of_nat (pos (length vs) (hash k) 0)) (first_tomb 0) body
            = fresh (first_tomb t) (pos (length vs) (hash k) t)) as Hres.
    { eapply (probe_loop_run _ lg (hash k) body first_tomb); [done|done|exact Ht|exact Hrun|].
      simpl. by rewrite (Hbody _ _ _ He). }
    destruct (first_tomb_spec t) as [E|(t' & Ht' & E & Htomb)].
    + exists (first_tomb t), (pos (length vs) (hash k) t), (pos (length vs) (hash k) t).
      split_and!; [done| |done]. split_and!; [auto|done|auto].
    + exists (first_tomb t), (pos (length vs) (hash k) t), (pos (length vs) (hash k) t').
      split_and!; [done| |done]. split_and!; [auto with lia|done|auto].
Qed.

(** Rehashing: stop at the first empty slot, whatever the others hold. *)
Lemma loop_first_empty {R} (body : unit -> Z -> outcome (unit + R)) (fresh : nat -> outcome R) :
  (forall p s, vs !! p = Some s ->
     body tt (Z.of_nat p) =
       match s with VEmpty => obind (fresh p) (fun r => Ok (inr r)) | _ => Ok (inl tt) end) ->
  exists q, vs !! q = Some VEmpty /\ on_path vs k q /\
    probe_loop (length vs) mask start tt body = fresh q.
Proof using Hlg Hrange Hroom.
  intros Hbody. destruct (used_count_room _ Hroom) as [q Hq].
  destruct (pos_surj _ (hash k) q (lookup_lt_Some _ _ _ Hq)) as (t0 & Ht0 & Hp0).
  assert (forall t, (t < length vs)%nat -> exists s, vs !! pos (length vs) (hash k) t = Some s) as Hin.
  { intros t Ht. apply lookup_lt_is_Some_2, pos_lt. lia. }
  destruct (least_nat (fun t => from_option used1 1%nat (vs !! pos (length vs) (hash k) t) = 0%nat)
      (length vs)) as [Hno|(t & Ht & Hs & Hmin)].
  { destruct (Hno t0 Ht0). by rewrite Hp0, Hq. }
  destruct (Hin t Ht) as [s Es]. rewrite Es in Hs. destruct s; [|done..].
  assert (forall t', (t' < t)%nat -> exists s,
      vs !! pos (length vs) (hash k) t' = Some s /\ s <> VEmpty) as Hpass.
  { intros t' Ht'. destruct (Hin t' ltac:(lia)) as [s' Es']. exists s'. split; [done|].
    intros ->. apply (Hmin t' Ht'). by rewrite Es'. }
  exists (pos (length vs) (hash k) t). split_and!; [done| |].
  { exists t. split_and!; [done..|]. intros t' Ht' ?. destruct (Hpass t' Ht') as (? & ? & ?). congruence. }
  rewrite (pos_start _ lg) by lia.
  eapply (probe_loop_run _ lg (hash k) body (fun _ => tt)); [done|done|exact Ht| |].
  - intros t' [_ Ht']. destruct (Hpass t' Ht') as (s' & Es' & Hne).
    rewrite (Hbody _ _ Es'). by destruct s'.
  - simpl. by rewrite (Hbody _ _ Es).
Qed.
End Loops.

(** ** Rehashing: the entries of a table, in slot order *)

Definition entry (s : slotview K V) : option (K * V) :=
  match s with VFull k v => Some (k, v) | _ => None end.

Definition entries vs : list (K * V) := omap entry vs.

(** Inserting a list of entries one after the other. *)
Definition insert_all m (es : list (K * V)) : gmap K V :=
  foldl (fun m '(k, v) => <[k:=v]> m) m es.

Lemma elem_of_entries vs k v : (k, v) ∈ entries vs <-> exists q, vs !! q = Some (VFull k v).
Proof.
  unfold entries. rewrite list_elem_of_omap. split.
  - intros (s & Hin & Hs). apply list_elem_of_lookup in Hin as [q Hq]. exists q.
    by destruct s; simplify_eq/=.
  - intros [q Hq]. exists (VFull k v). split; [|done]. by eapply list_elem_of_lookup_2.
Qed.

Lemma entries_cons s vs :
  entries (s :: vs) = match entry s with Some kv => kv :: entries vs | None => entries vs end.
Proof. done. Qed.

Lemma length_entries vs : length (entries vs) = live_count vs.
Proof. unfold entries, live_count. induction vs as [|[] vs IH]; simpl; auto. Qed.

Lemma nodup_entries vs :
  (forall p q k v w, vs !! p = Some (VFull k v) -> vs !! q = Some (VFull k w) -> p = q) ->
  NoDup (entries vs).*1.
Proof.
  induction vs as [|s vs IH]; intros Hu; [apply NoDup_nil_2|].
  assert (NoDup (entries vs).*1) as Hn.
  { apply IH. intros p q k v w Hp Hq. apply (Nat.succ_inj p q). by eapply (Hu (S p) (S q)). }
  destruct s as [|k v|]; [done| |done]. simpl. apply NoDup_cons. split; [|done].
  intros ([k' w] & -> & Hin)%list_elem_of_fmap. apply elem_of_entries in Hin as [q Hq].
  by specialize (Hu 0%nat (S q) _ _ _ eq_refl Hq).
Qed.

Lemma lookup_insert_all m es k v :
  NoDup es.*1 -> (forall k', k' ∈ es.*1 -> m !! k' = None) ->
  insert_all m es !! k = Some v <-> m !! k = Some v \/ (k, v) ∈ es.
Proof.
  revert m. induction es as [|[k0 v0] es IH]; intros m Hnd Hfresh.
  { simpl. rewrite elem_of_nil. tauto. }
  simpl in Hnd. apply NoDup_cons in Hnd as [Hk0 Hnd]. simpl. rewrite IH; [|done|].
  - rewrite elem_of_cons, lookup_insert_Some. split.
    + intros [[[<- <-]|[Hne Hm]]|Hin]; auto.
    + intros [Hm|[[= -> ->]|Hin]]; auto.
      left. right. split; [|done]. intros <-. rewrite Hfresh in Hm; [done|]. left.
  - intros k' Hk'. rewrite lookup_insert_ne; [|by intros ->]. apply Hfresh. by right.
Qed.

(** Reinserting the entries of a table into an empty one rebuilds its map. *)
Lemma insert_all_entries vs m : table vs m -> insert_all ∅ (entries vs) = m.
Proof.
  intros Ht. apply map_eq. intros k. apply option_eq. intros v.
  rewrite lookup_insert_all; [|apply nodup_entries, (tb_uniq _ _ Ht)|intros; apply lookup_empty].
  rewrite lookup_empty, elem_of_entries, (tb_map _ _ Ht). split; [intros [?|?]; done|by right].
Qed.

(** ** Tables with their counters and the bounds a byte budget gives

    [used] and [live] are the counters the code keeps; [b] is the number of
    bytes written so far.  Each write costs at least 24, so the budget bounds
    the counters and the table's size. *)

Record sized vs m (used live b : Z) : Prop := {
  sz_lg : exists lg, 0 <= lg /\ Z.of_nat (length vs) = 2 ^ lg;
  sz_table : table vs m;
  sz_used : used = Z.of_nat (used_count vs);
  sz_live : live = Z.of_nat (live_count vs);
  sz_room : (used_count vs < length vs)%nat;
  sz_spent : 24 * used <= b;
  sz_size : Z.of_nat (length vs) <= Z.max 1024 b }.

Lemma sized_lg vs m used live b :
  sized vs m used live b -> b <= 2 ^ 46 ->
  exists lg, 0 <= lg <= 46 /\ Z.of_nat (length vs) = 2 ^ lg.
Proof.
  intros Hs Hb. destruct (sz_lg _ _ _ _ _ Hs) as (lg & Hlg & Hlen). exists lg. split; [|done].
  split; [done|]. pose proof (sz_size _ _ _ _ _ Hs).
  apply (Z.pow_le_mono_r_iff 2); [lia..|]. lia.
Qed.

Lemma sized_mono vs m used live b b' :
  sized vs m used live b -> b <= b' -> sized vs m used live b'.
Proof. intros [] ?. split; try done; lia. Qed.

Lemma sized_empty n lg b :
  0 <= lg -> Z.of_nat n = 2 ^ lg -> Z.of_nat n <= Z.max 1024 b -> 0 <= b ->
  sized (replicate n VEmpty) ∅ 0 0 b.
Proof.
  intros Hlg Hn Hsz Hb. pose proof (pow2_pos lg Hlg).
  split; rewrite ?length_replicate, ?used_count_replicate, ?live_count_replicate; try lia.
  - eauto.
  - apply table_empty.
Qed.

Lemma sized_insert vs m used live b b' k v ft p q :
  sized vs m used live b -> used + 1 < Z.of_nat (length vs) ->
  m !! k = None -> insert_at vs k ft p q -> b <= b' -> 24 * (used + 1) <= b' ->
  sized (<[q:=VFull k v]> vs) (<[k:=v]> m) (if ft >=? 0 then used else used + 1) (live + 1) b'.
Proof.
  intros [Hlg Ht Hu Hl Hr Hsp Hsz] Hroom Hk (Hpath & Hp & Hft) Hb Hc.
  assert (forall k' v', vs !! q <> Some (VFull k' v')) as Hfree.
  { intros k' v' Hq. destruct Hft as [[_ ->]|[_ Hq']]; congruence. }
  assert (exists s, vs !! q = Some s /\ live1 s = 0%nat /\
    Z.of_nat (used1 s) = (if ft >=? 0 then 1 else 0)) as (s & Hs & Hl1 & Hu1).
  { rewrite Z.geb_leb. destruct Hft as [[-> ->]|[-> Hq]]; [by exists VEmpty|].
    exists VTomb. split_and!; [done..|]. case_zcmp; [done|lia]. }
  pose proof (used_count_insert _ _ _ (VFull k v) Hs) as Hcu.
  pose proof (live_count_insert _ _ _ (VFull k v) Hs) as Hcl. simpl in Hcu, Hcl.
  split; rewrite ?length_insert; try (destruct (ft >=? 0); lia); try done.
  by apply table_insert.
Qed.

Lemma sized_overwrite vs m used live b k v w q c :
  sized vs m used live b -> vs !! q = Some (VFull k w) -> 0 <= c ->
  sized (<[q:=VFull k v]> vs) (<[k:=v]> m) used live (b + c).
Proof.
  intros [Hlg Ht Hu Hl Hr Hsp Hsz] Hq Hc.
  pose proof (used_count_insert _ _ _ (VFull k v) Hq) as Hcu.
  pose proof (live_count_insert _ _ _ (VFull k v) Hq) as Hcl. simpl in Hcu, Hcl.
  split; rewrite ?length_insert; try lia; try done. by eapply table_overwrite.
Qed.

Lemma sized_delete vs m used live b k w q :
  sized vs m used live b -> vs !! q = Some (VFull k w) ->
  sized (<[q:=VTomb]> vs) (delete k m) used (live - 1) b.
Proof.
  intros [Hlg Ht Hu Hl Hr Hsp Hsz] Hq.
  pose proof (used_count_insert _ _ _ VTomb Hq) as Hcu.
  pose proof (live_count_insert _ _ _ VTomb Hq) as Hcl. simpl in Hcu, Hcl.
  split; rewrite ?length_insert; try lia; try done. by eapply table_delete.
Qed.
End Tables.

(** Deleting an absent key leaves the map unchanged. *)
Lemma delete_absent {K V} `{Countable K} (m : gmap K V) k : m !! k = None -> delete k m = m.
Proof. intros. by apply delete_id. Qed.
