(* ===== verification/Inmem.v ===== *)
(** * Shared parts of the in-memory engines (adapters/inmem/inmem.go)

    The key hash, the write batch every engine of the package hands out, the
    exhausted iterator, and [devnull], the engine that stores nothing. *)

From S2P Require Import Prelude Codec Engine.
Local Open Scope go_scope.

(** ** hash64 *)

Definition hash_k0 : Z := 0xff51afd7ed558ccd.
Definition hash_k1 : Z := 0xc4ceb9fe1a85ec53.

(** The folded multiply: the two halves of the 128-bit product, xor-ed. *)
Definition hash_mix (a c : Z) : Z :=
  let p := a * c in (p >>64 64) ^64 wrap64 p.

(** Eight bytes at a time while eight are left; returns the rest. *)
Fixpoint hash_words (h : Z) (b : bytes) : Z * bytes :=
  match b with
  | b0 :: b1 :: b2 :: b3 :: b4 :: b5 :: b6 :: b7 :: b' =>
      hash_words (hash_mix (h ^64 le_value [b0; b1; b2; b3; b4; b5; b6; b7]) hash_k0) b'
  | _ => (h, b)
  end.

(** [tail |= uint64(b[i]) << (8 * uint(i))]. *)
Fixpoint hash_tail (b : bytes) (i tail : Z) : Z :=
  match b with
  | [] => tail
  | x :: b' => hash_tail b' (i + 1) (tail |64 (b2z x <<64 (8 * i)))
  end.

Definition hash64 (b : bytes) : Z :=
  let h := (wrap64 (len b) *64 hash_k0) ^64 hash_k1 in
  let '(h, b) := hash_words h b in
  let h := hash_mix (h ^64 hash_tail b 0 0) hash_k1 in
  let h := h ^64 (h >>64 33) in
  let h := h *64 hash_k0 in
  let h := h ^64 (h >>64 29) in
  let h := h *64 hash_k1 in
  h ^64 (h >>64 32).

Lemma shiftr_u64 z n : is_u64 z -> 0 <= n -> is_u64 (Z.shiftr z n).
Proof.
  unfold is_u64. intros Hz Hn. rewrite Z.shiftr_div_pow2 by done. pose proof (pow2_pos n Hn).
  split; [apply Z.div_pos; lia|]. apply Z.le_lt_trans with z; [|lia].
  apply Z.div_le_upper_bound; nia.
Qed.

Lemma lxor_u64 a b : is_u64 a -> is_u64 b -> is_u64 (Z.lxor a b).
Proof. apply lxor_range. lia. Qed.

#[export] Hint Resolve shiftr_u64 lxor_u64 : go.

Lemma hash64_u64 b : is_u64 (hash64 b).
Proof.
  unfold hash64. destruct (hash_words _ _) as [h b'].
  apply lxor_u64; [apply wrap64_range|]. apply shiftr_u64; [apply wrap64_range|lia].
Qed.

(** ** memBatch *)

Record memBatch := MkMemBatch { batch_ops : list memOp }.

Definition newBatch : memBatch := MkMemBatch [].

Definition batchPut (b : memBatch) (k v : bytes) : memBatch :=
  MkMemBatch (batch_ops b ++ [PutOp k v]).

Definition batchDelete (b : memBatch) (k : bytes) : memBatch :=
  MkMemBatch (batch_ops b ++ [DelOp k]).

Definition batchLen (b : memBatch) : Z := len (batch_ops b).

(** Commit hands the buffered writes to the engine and empties the batch. *)
Definition batchCommit {E} `{KVOps E} (e : E) (b : memBatch) : outcome (E * memBatch) :=
  let* e' := kv_apply e (batch_ops b) in Ok (e', MkMemBatch []).

(** ** devnull *)

Definition devnullMeta : Meta :=
  MkMeta "devnull" FamilyInMemory ModeInProc "" "builtin" ""
    (MkCapabilities false false false false false false true)
    [MkAsterisk "no-op" "devnull stores nothing and reads nothing back; its cell is the harness and dispatch floor, not a store. Reads always report not-found and writes are dropped, so any read-heavy cell here measures the cost of generating the op and dispatching it, the overhead every real engine's number also carries."]
    true.

Record nullBatch := MkNullBatch { null_n : Z }.

Definition nullPut (b : nullBatch) (_ _ : bytes) : nullBatch := MkNullBatch (null_n b + 1).
Definition nullDelete (b : nullBatch) (_ : bytes) : nullBatch := MkNullBatch (null_n b + 1).
Definition nullLen (b : nullBatch) : Z := null_n b.
Definition nullCommit (b : nullBatch) : nullBatch := MkNullBatch 0.

#[global] Instance devnull_ops : KVOps unit := {
  kv_get _ _ := Ok None;
  kv_put e _ _ := Ok e;
  kv_delete e _ := Ok e;
  kv_apply e _ := Ok e }.

(** ** Log records: varint(keyLen) key varint(valLen) val *)

Definition record (k v : bytes) : bytes :=
  put_uvarint (wrap64 (len k)) ++ k ++ put_uvarint (wrap64 (len v)) ++ v.

(** The key and value of the record at [off]. *)
Definition recordAt (buf : bytes) (off : Z) : outcome (bytes * bytes) :=
  let* b := slice_from buf off in
  let '(kl, n) := uvarint b in
  let* b := slice_from b n in
  let* key := slice_to b kl in
  let* b := slice_from b kl in
  let '(vl, n) := uvarint b in
  let* b := slice_from b n in
  let* val := slice_to b vl in
  Ok (key, val).

(** A key or value Go can hold: its length is an [int]. *)
Definition holdable (l : bytes) : Prop := len l < 2 ^ 63.

Lemma recordAt_record pre k v post :
  holdable k -> holdable v -> recordAt (pre ++ record k v ++ post) (len pre) = Ok (k, v).
Proof.
  unfold holdable. intros Hk Hv. unfold recordAt, record.
  rewrite slice_from_ok by done. simpl. rewrite <- !app_assoc.
  rewrite !wrap64_id by zlia. rewrite uvarint_put by zlia.
  rewrite slice_from_ok by done. simpl. rewrite slice_to_ok by done. simpl.
  rewrite slice_from_ok by done. simpl. rewrite uvarint_put by zlia.
  rewrite slice_from_ok by done. simpl. by rewrite slice_to_ok by done.
Qed.

Lemma len_record k v : len k + len v + 2 <= len (record k v) <= len k + len v + 20.
Proof.
  unfold record. autorewrite with go.
  pose proof (put_uvarint_len (wrap64 (len k))). pose proof (put_uvarint_len (wrap64 (len v))). lia.
Qed.

(** [buf] holds the record of [k] and [v] at [off]. *)
Definition holds_record (buf : bytes) (off : Z) (k v : bytes) : Prop :=
  exists pre post, buf = pre ++ record k v ++ post /\ off = len pre /\ holdable k /\ holdable v.

Lemma holds_recordAt buf off k v : holds_record buf off k v -> recordAt buf off = Ok (k, v).
Proof. intros (pre & post & -> & -> & Hk & Hv). by apply recordAt_record. Qed.

Lemma holds_record_app buf off k v x :
  holds_record buf off k v -> holds_record (buf ++ x) off k v.
Proof.
  intros (pre & post & -> & -> & Hk & Hv). exists pre, (post ++ x).
  split_and!; [|done..]. by rewrite <- !app_assoc.
Qed.

Lemma holds_record_end buf k v :
  holdable k -> holdable v -> holds_record (buf ++ record k v) (len buf) k v.
Proof. intros. exists buf, []. by rewrite app_nil_r. Qed.

(** A record is read back wherever it was written: for any log, the
    record of a key and a value appended to it is decoded at its offset to that
    key and value, whatever follows, and takes at most 20 bytes more than
    them. *)
Theorem record_roundtrip pre k v post :
  holdable k -> holdable v ->
  recordAt (pre ++ record k v ++ post) (len pre) = Ok (k, v) /\
  len k + len v + 2 <= len (record k v) <= len k + len v + 20.
Proof. intros Hk Hv. split; [by apply recordAt_record|apply len_record]. Qed.

Lemma record_roundtrip_witness :
  recordAt ([Byte.x00] ++ record [Byte.x61] [Byte.x62; Byte.x63] ++ [Byte.xff]) (len [Byte.x00])
    = Ok ([Byte.x61], [Byte.x62; Byte.x63]) /\
  len [Byte.x61] + len [Byte.x62; Byte.x63] + 2 <= len (record [Byte.x61] [Byte.x62; Byte.x63])
    <= len [Byte.x61] + len [Byte.x62; Byte.x63] + 20.
Proof. apply (record_roundtrip [Byte.x00] [Byte.x61] [Byte.x62; Byte.x63] [Byte.xff]); reflexivity. Defined.
