(* ===== verification/Swiss.v ===== *)
(** * swiss: one open-addressing table (adapters/inmem/inmem.go)

    Keys and values live in the slots; a delete leaves a tombstone; the table
    doubles when full and tombstone slots together would pass three quarters
    of it.  The engine refines the map contract of [Engine]. *)

From S2P Require Import Prelude Float64 Codec Engine OpenAddr Inmem.
Local Open Scope go_scope.

Inductive slotState := stEmpty | stFull | stTomb.

Record swissSlot := MkSwissSlot {
  ss_hash : Z;
  ss_key : bytes;
  ss_val : bytes;
  ss_state : slotState }.

(** The zero value [make] fills a table with. *)
Definition swissZero : swissSlot := MkSwissSlot 0 [] [] stEmpty.

Record swiss := MkSwiss {
  sw_slots : list swissSlot;
  sw_live : Z;
  sw_used : Z }.

Definition swissMaxLoad : float64 := f64_0_75.

Definition newSwiss : swiss := MkSwiss (replicate (Z.to_nat (2 ^ 10)) swissZero) 0 0.

Definition sw_mask (e : swiss) : Z := wrap64 (len (sw_slots e) - 1).

(** The inner loop of [grow]: the first empty slot of the new table takes the
    old slot. *)
Definition growSlot (e : swiss) (s : swissSlot) : outcome swiss :=
  probe_loop (length (sw_slots e)) (sw_mask e) (ss_hash s &64 sw_mask e) tt (fun _ i =>
    let* t := index (sw_slots e) i in
    match ss_state t with
    | stEmpty =>
        let* slots := update (sw_slots e) i s in
        Ok (inr (MkSwiss slots (sw_live e + 1) (sw_used e + 1)))
    | _ => Ok (inl tt)
    end).

Fixpoint growLoop (old : list swissSlot) (e : swiss) : outcome swiss :=
  match old with
  | [] => Ok e
  | s :: old' =>
      match ss_state s with
      | stFull => let* e' := growSlot e s in growLoop old' e'
      | _ => growLoop old' e
      end
  end.

Definition grow (e : swiss) : outcome swiss :=
  let old := sw_slots e in
  growLoop old (MkSwiss (replicate (length old * 2) swissZero) 0 0).

Definition overLoad (e : swiss) : bool :=
  fgt (f64_of_Z (sw_used e + 1)) (fmul swissMaxLoad (f64_of_Z (len (sw_slots e)))).

Definition putLocked (e : swiss) (key val : bytes) : outcome swiss :=
  let* e := (if overLoad e then grow e else Ok e) in
  let h := hash64 key in
  let mask := sw_mask e in
  probe_loop (length (sw_slots e)) mask (h &64 mask) (-1) (fun firstTomb i =>
    let* s := index (sw_slots e) i in
    match ss_state s with
    | stEmpty =>
        let ns := MkSwissSlot h key val stFull in
        if firstTomb >=? 0
        then let* slots := update (sw_slots e) firstTomb ns in
             Ok (inr (MkSwiss slots (sw_live e + 1) (sw_used e)))
        else let* slots := update (sw_slots e) i ns in
             Ok (inr (MkSwiss slots (sw_live e + 1) (sw_used e + 1)))
    | stTomb => Ok (inl (if firstTomb <? 0 then i else firstTomb))
    | stFull =>
        if (ss_hash s =? h) && bool_decide (ss_key s = key)
        then let* slots := update (sw_slots e) i (MkSwissSlot (ss_hash s) (ss_key s) val stFull) in
             Ok (inr (MkSwiss slots (sw_live e) (sw_used e)))
        else Ok (inl firstTomb)
    end).

Definition Get (e : swiss) (key : bytes) : outcome (option bytes) :=
  let h := hash64 key in
  let mask := sw_mask e in
  probe_loop (length (sw_slots e)) mask (h &64 mask) tt (fun _ i =>
    let* s := index (sw_slots e) i in
    match ss_state s with
    | stEmpty => Ok (inr None)
    | stFull =>
        if (ss_hash s =? h) && bool_decide (ss_key s = key) then Ok (inr (Some (ss_val s)))
        else Ok (inl tt)
    | stTomb => Ok (inl tt)
    end).

Definition deleteLocked (e : swiss) (key : bytes) : outcome swiss :=
  let h := hash64 key in
  let mask := sw_mask e in
  probe_loop (length (sw_slots e)) mask (h &64 mask) tt (fun _ i =>
    let* s := index (sw_slots e) i in
    match ss_state s with
    | stEmpty => Ok (inr e)
    | stFull =>
        if (ss_hash s =? h) && bool_decide (ss_key s = key)
        then let* slots := update (sw_slots e) i (MkSwissSlot (ss_hash s) [] [] stTomb) in
             Ok (inr (MkSwiss slots (sw_live e - 1) (sw_used e)))
        else Ok (inl tt)
    | stTomb => Ok (inl tt)
    end).

Fixpoint applyBatch (e : swiss) (ops : list memOp) : outcome swiss :=
  match ops with
  | [] => Ok e
  | o :: ops' =>
      let* e' := (if op_del o then deleteLocked e (op_k o) else putLocked e (op_k o) (op_v o)) in
      applyBatch e' ops'
  end.

Definition swissMeta : Meta :=
  MkMeta "swiss" FamilyInMemory ModeInProc "" "builtin" ""
    (MkCapabilities false true false false false false true)
    [MkAsterisk "non-durable" "in-memory Swiss-table-shaped ceiling: one open-addressing table, linear probe, keys and values copied into slots, no persistence. Unordered, point cells only. Reads return a view into the slot value; conc=1 is the single-thread table cost, conc=N the single guard's scaling."]
    true.

#[global] Instance swiss_ops : KVOps swiss := {
  kv_get := Get;
  kv_put := putLocked;
  kv_delete := deleteLocked;
  kv_apply := applyBatch }.

(** ** The representation invariant *)

Definition view (s : swissSlot) : slotview bytes bytes :=
  match ss_state s with
  | stEmpty => VEmpty
  | stFull => VFull (ss_key s) (ss_val s)
  | stTomb => VTomb
  end.

(** A full slot stores the hash of its key. *)
Definition slot_ok (s : swissSlot) : Prop := ss_state s = stFull -> ss_hash s = hash64 (ss_key s).

Definition swiss_rep (e : swiss) (m : gmap bytes bytes) (b : Z) : Prop :=
  sized hash64 (view <$> sw_slots e) m (sw_used e) (sw_live e) b /\
  Forall slot_ok (sw_slots e) /\ 0 <= b <= kv_budget.

Lemma sw_mask_eq (e : swiss) (m : gmap bytes bytes) b :
  swiss_rep e m b -> sw_mask e = Z.of_nat (length (view <$> sw_slots e)) - 1.
Proof.
  intros (Hs & _ & Hb). unfold kv_budget in Hb.
  destruct (sized_lg _ _ _ _ _ _ Hs ltac:(lia)) as (lg & Hlg & Hn).
  rewrite length_fmap in *. unfold sw_mask, len. apply wrap64_id.
  assert (2 ^ lg <= 2 ^ 46) by (apply Z.pow_le_mono_r; lia). pose proof (pow2_pos lg). zlia.
Qed.

Lemma matches_iff s h key :
  slot_ok s -> ss_state s = stFull -> h = hash64 key ->
  (ss_hash s =? h) && bool_decide (ss_key s = key) = bool_decide (ss_key s = key).
Proof.
  intros Hok Hst ->. destruct (decide (ss_key s = key)) as [<-|Hne].
  - rewrite (Hok Hst), Z.eqb_refl. done.
  - by rewrite (bool_decide_eq_false_2 _ Hne), andb_false_r.
Qed.

(** Reading slot [p] through its view. *)
Lemma sw_view_lookup (e : swiss) p s :
  Forall slot_ok (sw_slots e) -> (view <$> sw_slots e) !! p = Some s ->
  exists r, index (sw_slots e) (Z.of_nat p) = Ok r /\ sw_slots e !! p = Some r /\ s = view r /\ slot_ok r.
Proof.
  intros Hok Hp. rewrite list_lookup_fmap in Hp.
  destruct (sw_slots e !! p) as [r|] eqn:E; simplify_eq/=. exists r.
  split_and!; [by apply index_ok|done|done|]. by eapply Forall_lookup_1.
Qed.

Section Ops.
Context (e : swiss) (m : gmap bytes bytes) (b : Z) (Hrep : swiss_rep e m b).

Lemma sw_rep_lg : exists lg, 0 <= lg <= 46 /\ Z.of_nat (length (view <$> sw_slots e)) = 2 ^ lg.
Proof using Hrep. destruct Hrep as (Hs & _ & Hb). unfold kv_budget in Hb. eapply sized_lg; [done|lia]. Qed.

Lemma sw_get_spec key : Get e key = Ok (m !! key).
Proof using Hrep.
  destruct sw_rep_lg as (lg & Hlg & Hn). pose proof (sw_mask_eq _ _ _ Hrep) as Hmask.
  destruct Hrep as (Hs & Hok & _). unfold Get. rewrite Hmask.
  rewrite <- (length_fmap view (sw_slots e)).
  match goal with |- probe_loop _ _ _ _ ?body = _ =>
    destruct (loop_lookup hash64 _ m key lg Hn ltac:(lia) (sz_table _ _ _ _ _ _ Hs)
      (sz_room _ _ _ _ _ _ Hs) body (fun _ v => Ok (Some v)) (Ok None))
      as [(p & v & _ & -> & ->)|[-> ->]] end; [|done..].
  intros p s Hp. destruct (sw_view_lookup _ _ _ Hok Hp) as (r & -> & _ & -> & Hr). simpl.
  unfold view. destruct (ss_state r) eqn:Est; [done| |done].
  rewrite matches_iff by done. apply if_bool_decide.
Qed.

Lemma sw_delete_spec key : exists e', deleteLocked e key = Ok e' /\ swiss_rep e' (delete key m) b.
Proof using Hrep.
  destruct sw_rep_lg as (lg & Hlg & Hn). pose proof (sw_mask_eq _ _ _ Hrep) as Hmask.
  destruct Hrep as (Hs & Hok & Hb). unfold deleteLocked. rewrite Hmask.
  rewrite <- (length_fmap view (sw_slots e)).
  match goal with |- context [probe_loop _ _ _ _ ?body] =>
    destruct (loop_lookup hash64 _ m key lg Hn ltac:(lia) (sz_table _ _ _ _ _ _ Hs)
      (sz_room _ _ _ _ _ _ Hs) body
      (fun p _ => Ok (MkSwiss (<[p:=MkSwissSlot (hash64 key) [] [] stTomb]> (sw_slots e))
         (sw_live e - 1) (sw_used e))) (Ok e))
      as [(p & v & Hp & _ & ->)|[Hm ->]] end.
  - intros p s Hp. destruct (sw_view_lookup _ _ _ Hok Hp) as (r & -> & Hr & -> & Hrok). simpl.
    unfold view. destruct (ss_state r) eqn:Est; [done| |done].
    rewrite matches_iff by done. erewrite if_bool_decide. case_decide as Hk; [|done].
    rewrite update_ok by (by eapply lookup_lt_Some). simpl. by rewrite (Hrok Est), Hk.
  - eexists. split; [done|]. split_and!; simpl; [|by apply Forall_insert|lia..].
    rewrite list_fmap_insert. by eapply sized_delete.
  - exists e. split; [done|]. by rewrite delete_absent.
Qed.
End Ops.

(** ** Growing *)

Lemma sw_growSlot_spec e m b s :
  swiss_rep e m b -> sw_used e + 1 < len (sw_slots e) -> ss_state s = stFull -> slot_ok s ->
  m !! ss_key s = None -> 24 * (sw_used e + 1) <= b ->
  exists e', growSlot e s = Ok e' /\ swiss_rep e' (<[ss_key s := ss_val s]> m) b /\
    length (sw_slots e') = length (sw_slots e) /\ sw_used e' = sw_used e + 1.
Proof.
  intros Hrep Hroom Hst Hsok Hm Hb. destruct (sw_rep_lg _ _ _ Hrep) as (lg & Hlg & Hn).
  pose proof (sw_mask_eq _ _ _ Hrep) as Hmask. destruct Hrep as (Hs & Hok & Hb').
  unfold growSlot. rewrite Hmask, (Hsok Hst). rewrite <- (length_fmap view (sw_slots e)).
  match goal with |- context [probe_loop _ _ _ _ ?body] =>
    destruct (loop_first_empty hash64 _ (ss_key s) lg Hn ltac:(lia)
      (sz_room _ _ _ _ _ _ Hs) body
      (fun p => Ok (MkSwiss (<[p:=s]> (sw_slots e)) (sw_live e + 1) (sw_used e + 1))))
      as (q & Hq & Hpath & ->) end.
  - intros p v Hp. destruct (sw_view_lookup _ _ _ Hok Hp) as (r & -> & Hr & -> & Hrok). simpl.
    unfold view. destruct (ss_state r) eqn:Est; [|done..].
    by rewrite update_ok by (by eapply lookup_lt_Some).
  - eexists. split; [done|]. simpl. rewrite length_insert, ?length_fmap. split_and!; [|done..].
    split_and!; simpl; [|by apply Forall_insert|lia..].
    rewrite list_fmap_insert. unfold view at 1. rewrite Hst.
    apply (sized_insert hash64 _ _ _ _ b b _ _ (-1) q q); try done.
    + rewrite length_fmap. unfold len in Hroom. lia.
    + split_and!; [done..|by left].
Qed.

Lemma sw_entry_view s :
  entry (view s) = match ss_state s with stFull => Some (ss_key s, ss_val s) | _ => None end.
Proof. unfold view. by destruct (ss_state s). Qed.

(** Reinserting the full slots of [old], in slot order. *)
Lemma sw_growLoop_spec old : forall e m b,
  swiss_rep e m b -> Forall slot_ok old ->
  NoDup (entries (view <$> old)).*1 ->
  (forall k, k ∈ (entries (view <$> old)).*1 -> m !! k = None) ->
  sw_used e + len (entries (view <$> old)) < len (sw_slots e) ->
  24 * (sw_used e + len (entries (view <$> old))) <= b ->
  exists e', growLoop old e = Ok e' /\ swiss_rep e' (insert_all m (entries (view <$> old))) b /\
    length (sw_slots e') = length (sw_slots e) /\
    sw_used e' = sw_used e + len (entries (view <$> old)).
Proof.
  induction old as [|s old IH]; intros e m b Hrep Hok Hnd Hfresh Hroom Hb.
  { exists e. simpl in *. rewrite len_nil. split_and!; [done..|lia]. }
  apply Forall_cons in Hok as [Hsok Hok]. revert Hnd Hfresh Hroom Hb.
  simpl growLoop. rewrite fmap_cons, entries_cons, sw_entry_view.
  destruct (ss_state s) eqn:Est; [by apply IH| |by apply IH].
  rewrite len_cons. intros [Hk Hnd]%NoDup_cons Hfresh Hroom Hb.
  pose proof (len_nonneg (entries (view <$> old))).
  destruct (sw_growSlot_spec e m b s) as (e1 & -> & Hrep1 & Hlen1 & Hu1); try done; try lia.
  { apply Hfresh. left. }
  simpl. destruct (IH e1 (<[ss_key s := ss_val s]> m) b) as (e2 & -> & Hrep2 & Hlen2 & Hu2); try done.
  - intros k Hin. rewrite lookup_insert_ne by (intros E; apply Hk; simpl; by rewrite E).
    apply Hfresh. by right.
  - unfold len in *. lia.
  - lia.
  - exists e2. split_and!; [done..|congruence|lia].
Qed.

Lemma sw_view_replicate n : view <$> replicate n swissZero = replicate n VEmpty.
Proof. by rewrite fmap_replicate. Qed.

(** Doubling keeps the map, drops the tombstones, and halves the load. *)
Lemma sw_grow_spec e m b b' :
  swiss_rep e m b -> b <= b' -> 2 * len (sw_slots e) <= b' -> b' <= kv_budget ->
  exists e', grow e = Ok e' /\ swiss_rep e' m b' /\
    len (sw_slots e') = 2 * len (sw_slots e) /\ sw_used e' = sw_live e.
Proof.
  intros (Hs & Hok & Hb) Hbb Hsz Hbud. unfold grow.
  destruct (sz_lg _ _ _ _ _ _ Hs) as (lg & Hlg & Hn). rewrite length_fmap in Hn.
  pose proof (sz_used _ _ _ _ _ _ Hs) as Hu. pose proof (sz_live _ _ _ _ _ _ Hs) as Hl.
  pose proof (sz_room _ _ _ _ _ _ Hs) as Hr. pose proof (sz_spent _ _ _ _ _ _ Hs) as Hsp.
  pose proof (live_le_used (view <$> sw_slots e)) as Hlu. rewrite length_fmap in Hr.
  assert (len (entries (view <$> sw_slots e)) = sw_live e) as Hent.
  { unfold len. by rewrite length_entries. }
  destruct (sw_growLoop_spec (sw_slots e) (MkSwiss (replicate (length (sw_slots e) * 2) swissZero) 0 0) ∅ b')
    as (e' & -> & Hrep' & Hlen' & Hu'); simpl in *; rewrite ?Hent in *.
  - split_and!; simpl; [|apply Forall_replicate; by intros ?|lia..].
    rewrite sw_view_replicate. apply (sized_empty _ _ (lg + 1)); [lia| | |lia].
    + rewrite Z.pow_add_r by lia. lia.
    + unfold len in Hsz. lia.
  - done.
  - apply nodup_entries, (tb_uniq _ _ _ (sz_table _ _ _ _ _ _ Hs)).
  - intros. apply lookup_empty.
  - unfold len. rewrite length_replicate. lia.
  - lia.
  - exists e'. split_and!; [done| |unfold len; rewrite Hlen', length_replicate; lia|lia].
    by rewrite <- (insert_all_entries hash64 _ _ (sz_table _ _ _ _ _ _ Hs)).
Qed.

(** ** Put *)

Lemma sw_overLoad_spec e m b :
  swiss_rep e m b -> overLoad e = (3 * len (sw_slots e) <? (sw_used e + 1) * 4).
Proof.
  intros Hrep. destruct (sw_rep_lg _ _ _ Hrep) as (lg & Hlg & Hn). destruct Hrep as (Hs & _ & Hb).
  pose proof (sz_used _ _ _ _ _ _ Hs). pose proof (sz_spent _ _ _ _ _ _ Hs).
  rewrite length_fmap in Hn. unfold overLoad, swissMaxLoad, len. rewrite Hn.
  apply load_test_0_75; unfold kv_budget in Hb; lia.
Qed.

(** After the load check there is room for one more full slot. *)
Lemma sw_make_room e m b c :
  swiss_rep e m b -> 24 <= c -> b + c <= kv_budget ->
  exists e1, (if overLoad e then grow e else Ok e) = Ok e1 /\ swiss_rep e1 m (b + c) /\
    sw_used e1 + 1 < len (sw_slots e1) /\ 24 * (sw_used e1 + 1) <= b + c.
Proof.
  intros Hrep Hc Hb. pose proof Hrep as (Hs & Hok & Hb').
  rewrite (sw_overLoad_spec _ _ _ Hrep).
  pose proof (sz_used _ _ _ _ _ _ Hs) as Hu. pose proof (sz_live _ _ _ _ _ _ Hs) as Hl.
  pose proof (sz_spent _ _ _ _ _ _ Hs). pose proof (live_le_used (view <$> sw_slots e)).
  pose proof (sz_room _ _ _ _ _ _ Hs) as Hr. rewrite length_fmap in Hr.
  destruct (Z.ltb_spec (3 * len (sw_slots e)) ((sw_used e + 1) * 4)) as [Hov|Hov].
  - destruct (sw_grow_spec e m b (b + c) Hrep) as (e1 & -> & Hrep1 & Hlen1 & Hu1); [lia..|].
    exists e1. split_and!; [done..| |lia]. unfold len in *. lia.
  - exists e. split_and!; [done| |unfold len in *; lia..].
    split_and!; [eapply sized_mono; [done|lia]|done|lia..].
Qed.

Lemma sw_put_spec e m b key val :
  swiss_rep e m b -> b + op_cost (PutOp key val) <= kv_budget ->
  exists e', putLocked e key val = Ok e' /\
    swiss_rep e' (<[key:=val]> m) (b + op_cost (PutOp key val)).
Proof.
  intros Hrep0 Hbud. pose proof (op_cost_pos (PutOp key val)) as Hc. unfold putLocked.
  destruct (sw_make_room e m b _ Hrep0 Hc Hbud) as (e1 & -> & Hrep & Hroom & Hsp). simpl obind.
  set (b' := b + op_cost (PutOp key val)) in *. clear Hrep0.
  destruct (sw_rep_lg _ _ _ Hrep) as (lg & Hlg & Hn). pose proof (sw_mask_eq _ _ _ Hrep) as Hmask.
  destruct Hrep as (Hs & Hok & Hb). rewrite Hmask, <- (length_fmap view (sw_slots e1)).
  set (ns := MkSwissSlot (hash64 key) key val stFull).
  match goal with |- context [probe_loop _ _ _ _ ?body] =>
    destruct (loop_insert hash64 _ m key lg Hn ltac:(lia) (sz_table _ _ _ _ _ _ Hs)
      (sz_room _ _ _ _ _ _ Hs) body
      (fun p => Ok (MkSwiss (<[p:=ns]> (sw_slots e1)) (sw_live e1) (sw_used e1)))
      (fun ft p => if ft >=? 0
        then obind (update (sw_slots e1) ft ns) (fun sl => Ok (MkSwiss sl (sw_live e1 + 1) (sw_used e1)))
        else obind (update (sw_slots e1) (Z.of_nat p) ns)
          (fun sl => Ok (MkSwiss sl (sw_live e1 + 1) (sw_used e1 + 1)))))
      as [(p & v & Hp & _ & ->)|(ft & p & q & Hm & Hins & ->)] end.
  - intros ft p s Hp. destruct (sw_view_lookup _ _ _ Hok Hp) as (r & -> & Hr & -> & Hrok). simpl.
    unfold view. destruct (ss_state r) eqn:Est; [|rewrite matches_iff by done|done].
    + by destruct (ft >=? 0), (update _ _ _).
    + erewrite if_bool_decide. case_decide as Hk; [|done].
      rewrite update_ok by (by eapply lookup_lt_Some). simpl. unfold ns. by rewrite (Hrok Est), Hk.
  - eexists. split; [done|]. split_and!; simpl; [|by apply Forall_insert|lia..].
    rewrite list_fmap_insert. rewrite <- (Z.add_0_r b'). by eapply sized_overwrite.
  - exists (MkSwiss (<[q:=ns]> (sw_slots e1)) (sw_live e1 + 1)
      (if ft >=? 0 then sw_used e1 else sw_used e1 + 1)). split.
    + rewrite Z.geb_leb.
      destruct (insert_at_update hash64 (view <$> sw_slots e1) key (sw_slots e1) ft p q ns)
        as [[? ->]|[-> ->]]; [by rewrite length_fmap|done| |done]. case_zcmp; [done|lia].
    + split_and!; simpl; [|by apply Forall_insert|lia..]. rewrite list_fmap_insert.
      eapply (sized_insert hash64 _ _ _ _ b' b' key val ft p q); try done.
      rewrite length_fmap. unfold len in Hroom. lia.
Qed.

Lemma swiss_rep_mono e m b b' : swiss_rep e m b -> b <= b' <= kv_budget -> swiss_rep e m b'.
Proof. intros (Hs & Hok & Hb) ?. split_and!; [eapply sized_mono; [done|lia]|done|lia..]. Qed.

#[global] Instance swiss_store : KVStore swiss.
Proof.
  refine {| kv_rep := swiss_rep |}.
  - intros. by eapply sw_get_spec.
  - intros. by apply sw_put_spec.
  - intros. by apply sw_delete_spec.
  - intros e m b ops. apply (apply_in_order swiss_rep putLocked deleteLocked); try done.
    + apply swiss_rep_mono.
    + apply sw_put_spec.
    + intros. by apply sw_delete_spec.
Defined.

Lemma newSwiss_rep : swiss_rep newSwiss ∅ 0.
Proof.
  split_and!; [|apply Forall_replicate; by intros ?|done..].
  change (view <$> sw_slots newSwiss) with (view <$> replicate (Z.to_nat (2 ^ 10)) swissZero).
  rewrite sw_view_replicate. by apply (sized_empty _ _ 10).
Qed.

(** C1: [swiss] refines a finite map.  Run any sequence of gets, puts, deletes
    and batches against a new engine, writing at most [kv_budget] bytes: no
    operation panics or loops, every get returns what the map returns, and the
    engine ends representing the map the session leaves. *)
Theorem swiss_refines_map rs :
  session_cost rs <= kv_budget ->
  exists e' b, run_session newSwiss rs = Ok ((map_session ∅ rs).1, e') /\
    swiss_rep e' (map_session ∅ rs).2 b.
Proof.
  intros Hc. assert (kv_rep newSwiss ∅ 0) as Hnew by exact newSwiss_rep.
  destruct (session_refines_map newSwiss ∅ 0 rs Hnew) as (e' & b & Hr & Hrep & _); [lia|].
  by exists e', b.
Qed.

Lemma swiss_refines_map_witness :
  exists e' b, run_session newSwiss demo_session = Ok ((map_session ∅ demo_session).1, e') /\
    swiss_rep e' (map_session ∅ demo_session).2 b.
Proof. apply (swiss_refines_map demo_session). vm_compute. discriminate. Defined.
