(* ===== verification/Faster.v ===== *)
(** * faster: append-only log behind an open-addressing index
    (adapters/inmem/inmem.go)

    A Put appends a record to the log and points the key's index slot at it;
    an overwrite strands the old record; a Get probes the index and reads the
    record back from the log.  The engine refines the map contract of
    [Engine]. *)

From S2P Require Import Prelude Float64 Codec Engine OpenAddr Inmem.
Local Open Scope go_scope.

Inductive slotState := stEmpty | stFull | stTomb.

Record fastSlot := MkFastSlot {
  fs_hash : Z;
  fs_off : Z;
  fs_state : slotState }.

Definition fastZero : fastSlot := MkFastSlot 0 0 stEmpty.

Record faster := MkFaster {
  fa_log : bytes;
  fa_idx : list fastSlot;
  fa_live : Z;
  fa_used : Z }.

Definition fasterMaxLoad : float64 := f64_0_7.

Definition newFaster : faster := MkFaster [] (replicate (Z.to_nat (2 ^ 10)) fastZero) 0 0.

Definition fa_mask (e : faster) : Z := wrap64 (len (fa_idx e) - 1).

(** The offset of the new record and the extended log. *)
Definition appendRecord (log key val : bytes) : Z * bytes :=
  (wrap64 (len log), log ++ record key val).

Definition growSlot (e : faster) (s : fastSlot) : outcome faster :=
  probe_loop (length (fa_idx e)) (fa_mask e) (fs_hash s &64 fa_mask e) tt (fun _ i =>
    let* t := index (fa_idx e) i in
    match fs_state t with
    | stEmpty =>
        let* idx := update (fa_idx e) i s in
        Ok (inr (MkFaster (fa_log e) idx (fa_live e + 1) (fa_used e + 1)))
    | _ => Ok (inl tt)
    end).

Fixpoint growLoop (old : list fastSlot) (e : faster) : outcome faster :=
  match old with
  | [] => Ok e
  | s :: old' =>
      match fs_state s with
      | stFull => let* e' := growSlot e s in growLoop old' e'
      | _ => growLoop old' e
      end
  end.

Definition grow (e : faster) : outcome faster :=
  let old := fa_idx e in
  growLoop old (MkFaster (fa_log e) (replicate (length old * 2) fastZero) 0 0).

Definition overLoad (e : faster) : bool :=
  fgt (f64_of_Z (fa_used e + 1)) (fmul fasterMaxLoad (f64_of_Z (len (fa_idx e)))).

Definition putLocked (e : faster) (key val : bytes) : outcome faster :=
  let* e := (if overLoad e then grow e else Ok e) in
  let h := hash64 key in
  let mask := fa_mask e in
  probe_loop (length (fa_idx e)) mask (h &64 mask) (-1) (fun firstTomb i =>
    let* s := index (fa_idx e) i in
    match fs_state s with
    | stEmpty =>
        let '(off, log) := appendRecord (fa_log e) key val in
        if firstTomb >=? 0
        then let* idx := update (fa_idx e) firstTomb (MkFastSlot h off stFull) in
             Ok (inr (MkFaster log idx (fa_live e + 1) (fa_used e)))
        else let* idx := update (fa_idx e) i (MkFastSlot h off stFull) in
             Ok (inr (MkFaster log idx (fa_live e + 1) (fa_used e + 1)))
    | stTomb => Ok (inl (if firstTomb <? 0 then i else firstTomb))
    | stFull =>
        if fs_hash s =? h
        then let* (k, _) := recordAt (fa_log e) (fs_off s) in
             if bool_decide (k = key)
             then let '(off, log) := appendRecord (fa_log e) key val in
                  let* idx := update (fa_idx e) i (MkFastSlot (fs_hash s) off stFull) in
                  Ok (inr (MkFaster log idx (fa_live e) (fa_used e)))
             else Ok (inl firstTomb)
        else Ok (inl firstTomb)
    end).

Definition Get (e : faster) (key : bytes) : outcome (option bytes) :=
  if len (fa_idx e) =? 0 then Ok None
  else
  let h := hash64 key in
  let mask := fa_mask e in
  probe_loop (length (fa_idx e)) mask (h &64 mask) tt (fun _ i =>
    let* s := index (fa_idx e) i in
    match fs_state s with
    | stEmpty => Ok (inr None)
    | stFull =>
        if fs_hash s =? h
        then let* (k, v) := recordAt (fa_log e) (fs_off s) in
             if bool_decide (k = key) then Ok (inr (Some v)) else Ok (inl tt)
        else Ok (inl tt)
    | stTomb => Ok (inl tt)
    end).

Definition deleteLocked (e : faster) (key : bytes) : outcome faster :=
  if len (fa_idx e) =? 0 then Ok e
  else
  let h := hash64 key in
  let mask := fa_mask e in
  probe_loop (length (fa_idx e)) mask (h &64 mask) tt (fun _ i =>
    let* s := index (fa_idx e) i in
    match fs_state s with
    | stEmpty => Ok (inr e)
    | stFull =>
        if fs_hash s =? h
        then let* (k, _) := recordAt (fa_log e) (fs_off s) in
             if bool_decide (k = key)
             then let* idx := update (fa_idx e) i (MkFastSlot (fs_hash s) (fs_off s) stTomb) in
                  Ok (inr (MkFaster (fa_log e) idx (fa_live e - 1) (fa_used e)))
             else Ok (inl tt)
        else Ok (inl tt)
    | stTomb => Ok (inl tt)
    end).

Fixpoint applyBatch (e : faster) (ops : list memOp) : outcome faster :=
  match ops with
  | [] => Ok e
  | o :: ops' =>
      let* e' := (if op_del o then deleteLocked e (op_k o) else putLocked e (op_k o) (op_v o)) in
      applyBatch e' ops'
  end.

Definition fasterMeta : Meta :=
  MkMeta "faster" FamilyInMemory ModeInProc "" "builtin" ""
    (MkCapabilities false true false false false false true)
    [MkAsterisk "non-durable" "in-memory FASTER/Garnet-shaped ceiling: append-only value log behind an open-addressing hash index, no persistence and no log trimming. Unordered, so it serves point cells only. Reads return a view into the log, the zero-copy read ceiling; the conc=1 cell is the single-thread structure cost and conc=N shows the single guard's scaling."]
    true.

#[global] Instance faster_ops : KVOps faster := {
  kv_get := Get;
  kv_put := putLocked;
  kv_delete := deleteLocked;
  kv_apply := applyBatch }.

(** ** The representation invariant *)

(** A slot read through the log. *)
Definition view (log : bytes) (s : fastSlot) : slotview bytes bytes :=
  match fs_state s with
  | stEmpty => VEmpty
  | stFull => match recordAt log (fs_off s) with Ok (k, v) => VFull k v | _ => VTomb end
  | stTomb => VTomb
  end.

(** A full slot points at a whole record and stores the hash of its key. *)
Definition slot_ok (log : bytes) (s : fastSlot) : Prop :=
  fs_state s = stFull ->
  exists k v, holds_record log (fs_off s) k v /\ fs_hash s = hash64 k.

Definition faster_rep (e : faster) (m : gmap bytes bytes) (b : Z) : Prop :=
  sized hash64 (view (fa_log e) <$> fa_idx e) m (fa_used e) (fa_live e) b /\
  Forall (slot_ok (fa_log e)) (fa_idx e) /\ len (fa_log e) <= b /\ 0 <= b <= kv_budget.

Lemma slot_ok_app log x s : slot_ok log s -> slot_ok (log ++ x) s.
Proof.
  intros Hok Hst. destruct (Hok Hst) as (k & v & Hh & Hhash). exists k, v.
  split; [by apply holds_record_app|done].
Qed.

(** Appending to the log does not change what the slots read. *)
Lemma view_app log x s : slot_ok log s -> view (log ++ x) s = view log s.
Proof.
  intros Hok. unfold view. destruct (fs_state s) eqn:Est; [done| |done].
  destruct (Hok Est) as (k & v & Hh & _).
  by rewrite (holds_recordAt _ _ _ _ Hh), (holds_recordAt _ _ _ _ (holds_record_app _ _ _ _ x Hh)).
Qed.

Lemma views_app log x idx :
  Forall (slot_ok log) idx -> view (log ++ x) <$> idx = view log <$> idx.
Proof. intros Hok. apply list_fmap_ext. intros i s Hs. apply view_app. by eapply Forall_lookup_1. Qed.

Lemma fa_rep_lg e m b : faster_rep e m b ->
  exists lg, 0 <= lg <= 46 /\ Z.of_nat (length (view (fa_log e) <$> fa_idx e)) = 2 ^ lg.
Proof. intros (Hs & _ & _ & Hb). unfold kv_budget in Hb. eapply sized_lg; [done|lia]. Qed.

Lemma fa_mask_eq e m b :
  faster_rep e m b -> fa_mask e = Z.of_nat (length (view (fa_log e) <$> fa_idx e)) - 1.
Proof.
  intros Hrep. destruct (fa_rep_lg _ _ _ Hrep) as (lg & Hlg & Hn).
  rewrite length_fmap in *. unfold fa_mask, len. apply wrap64_id.
  assert (2 ^ lg <= 2 ^ 46) by (apply Z.pow_le_mono_r; lia). pose proof (pow2_pos lg). zlia.
Qed.

(** Reading slot [p] through its view. *)
Lemma fa_view_lookup e p s :
  Forall (slot_ok (fa_log e)) (fa_idx e) -> (view (fa_log e) <$> fa_idx e) !! p = Some s ->
  exists r, index (fa_idx e) (Z.of_nat p) = Ok r /\ (p < length (fa_idx e))%nat /\
    s = view (fa_log e) r /\ slot_ok (fa_log e) r.
Proof.
  intros Hok Hp. rewrite list_lookup_fmap in Hp.
  destruct (fa_idx e !! p) as [r|] eqn:E; simplify_eq/=. exists r.
  split_and!; [by apply index_ok|by eapply lookup_lt_Some|done|]. by eapply Forall_lookup_1.
Qed.

(** The code's key test on a full slot: stored hash first, then the bytes of
    the record.  Equal keys have equal hashes, so the hash test never rejects
    the key itself. *)
Lemma key_test {A} log s key (f : bytes * bytes -> outcome A) (miss : outcome A) :
  slot_ok log s -> fs_state s = stFull ->
  exists k v, view log s = VFull k v /\ fs_hash s = hash64 k /\
    (if fs_hash s =? hash64 key
     then obind (recordAt log (fs_off s)) (fun '(k, v) => if bool_decide (k = key) then f (k, v) else miss)
     else miss) = (if decide (k = key) then f (k, v) else miss).
Proof.
  intros Hok Hst. destruct (Hok Hst) as (k & v & Hh & Hhash). exists k, v.
  unfold view. rewrite Hst, (holds_recordAt _ _ _ _ Hh). split_and!; [done..|]. simpl.
  erewrite if_bool_decide. case_decide as Hk; [subst; by rewrite Hhash, Z.eqb_refl|].
  by destruct (fs_hash s =? hash64 key).
Qed.

Lemma nonempty_idx e m b : faster_rep e m b -> (len (fa_idx e) =? 0) = false.
Proof.
  intros Hrep. destruct (fa_rep_lg _ _ _ Hrep) as (lg & Hlg & Hn). rewrite length_fmap in Hn.
  pose proof (pow2_pos lg ltac:(lia)). unfold len. apply Z.eqb_neq. lia.
Qed.

Lemma fa_get_spec e m b key : faster_rep e m b -> Get e key = Ok (m !! key).
Proof.
  intros Hrep. destruct (fa_rep_lg _ _ _ Hrep) as (lg & Hlg & Hn).
  pose proof (fa_mask_eq _ _ _ Hrep) as Hmask. unfold Get. rewrite (nonempty_idx _ _ _ Hrep).
  destruct Hrep as (Hs & Hok & _). rewrite Hmask.
  rewrite <- (length_fmap (view (fa_log e)) (fa_idx e)).
  match goal with |- probe_loop _ _ _ _ ?body = _ =>
    destruct (loop_lookup hash64 _ m key lg Hn ltac:(lia) (sz_table _ _ _ _ _ _ Hs)
      (sz_room _ _ _ _ _ _ Hs) body (fun _ v => Ok (Some v)) (Ok None))
      as [(p & v & _ & -> & ->)|[-> ->]] end; [|done..].
  intros p s Hp. destruct (fa_view_lookup _ _ _ Hok Hp) as (r & -> & _ & -> & Hr). simpl.
  destruct (fs_state r) eqn:Est; [by unfold view; rewrite Est| |by unfold view; rewrite Est].
  destruct (key_test (fa_log e) r key (fun '(_, v) => Ok (inr (Some v))) (Ok (inl tt)) Hr Est)
    as (k & v & -> & _ & ->). by case_decide.
Qed.

Lemma fa_delete_spec e m b key :
  faster_rep e m b -> exists e', deleteLocked e key = Ok e' /\ faster_rep e' (delete key m) b.
Proof.
  intros Hrep. destruct (fa_rep_lg _ _ _ Hrep) as (lg & Hlg & Hn).
  pose proof (fa_mask_eq _ _ _ Hrep) as Hmask. unfold deleteLocked. rewrite (nonempty_idx _ _ _ Hrep).
  destruct Hrep as (Hs & Hok & Hlog & Hb). rewrite Hmask.
  rewrite <- (length_fmap (view (fa_log e)) (fa_idx e)).
  set (tomb p := MkFastSlot (hash64 key) (default 0 (fs_off <$> fa_idx e !! p)) stTomb).
  match goal with |- context [probe_loop _ _ _ _ ?body] =>
    destruct (loop_lookup hash64 _ m key lg Hn ltac:(lia) (sz_table _ _ _ _ _ _ Hs)
      (sz_room _ _ _ _ _ _ Hs) body
      (fun p _ => Ok (MkFaster (fa_log e) (<[p:=tomb p]> (fa_idx e)) (fa_live e - 1) (fa_used e))) (Ok e))
      as [(p & v & Hp & _ & ->)|[Hm ->]] end.
  - intros p s Hp. destruct (fa_view_lookup _ _ _ Hok Hp) as (r & Hr & Hlt & -> & Hrok). rewrite Hr. simpl.
    destruct (fs_state r) eqn:Est; [by unfold view; rewrite Est| |by unfold view; rewrite Est].
    match goal with |- context [obind (update _ _ ?t) ?g] =>
      destruct (key_test (fa_log e) r key (fun _ => obind (update (fa_idx e) (Z.of_nat p) t) g)
        (Ok (inl tt)) Hrok Est) as (k & v & -> & Hh & ->) end.
    case_decide as Hk; [|done]. rewrite update_ok by done. simpl. unfold tomb. do 4 f_equal.
    unfold index in Hr. rewrite bool_decide_eq_true_2, Nat2Z.id in Hr by lia.
    destruct (fa_idx e !! p); simplify_eq/=. by rewrite Hh.
  - eexists. split; [done|]. split_and!; simpl; [|by apply Forall_insert|lia..].
    rewrite list_fmap_insert. by eapply sized_delete.
  - exists e. split; [done|]. by rewrite delete_absent.
Qed.

(** ** Growing *)

Lemma fa_growSlot_spec e m b s k v :
  faster_rep e m b -> fa_used e + 1 < len (fa_idx e) ->
  fs_state s = stFull -> slot_ok (fa_log e) s -> view (fa_log e) s = VFull k v ->
  m !! k = None -> 24 * (fa_used e + 1) <= b ->
  exists e', growSlot e s = Ok e' /\ faster_rep e' (<[k := v]> m) b /\ fa_log e' = fa_log e /\
    length (fa_idx e') = length (fa_idx e) /\ fa_used e' = fa_used e + 1.
Proof.
  intros Hrep Hroom Hst Hsok Hv Hm Hb. destruct (fa_rep_lg _ _ _ Hrep) as (lg & Hlg & Hn).
  pose proof (fa_mask_eq _ _ _ Hrep) as Hmask. destruct Hrep as (Hs & Hok & Hlog & Hb').
  unfold growSlot. rewrite Hmask. rewrite <- (length_fmap (view (fa_log e)) (fa_idx e)).
  assert (fs_hash s = hash64 k) as ->.
  { destruct (Hsok Hst) as (k' & v' & Hh & ->). unfold view in Hv.
    rewrite Hst, (holds_recordAt _ _ _ _ Hh) in Hv. congruence. }
  match goal with |- context [probe_loop _ _ _ _ ?body] =>
    destruct (loop_first_empty hash64 _ k lg Hn ltac:(lia)
      (sz_room _ _ _ _ _ _ Hs) body
      (fun p => Ok (MkFaster (fa_log e) (<[p:=s]> (fa_idx e)) (fa_live e + 1) (fa_used e + 1))))
      as (q & Hq & Hpath & ->) end.
  - intros p x Hp. destruct (fa_view_lookup _ _ _ Hok Hp) as (r & -> & Hlt & -> & Hrok). simpl.
    unfold view. destruct (fs_state r) eqn:Est; [by rewrite update_ok by done| |done].
    destruct (Hrok Est) as (k' & v' & Hh & _). by rewrite (holds_recordAt _ _ _ _ Hh).
  - eexists. split; [done|]. simpl. rewrite length_insert, ?length_fmap. split_and!; [|done..].
    split_and!; simpl; [|by apply Forall_insert|lia..].
    rewrite list_fmap_insert, Hv.
    apply (sized_insert hash64 _ _ _ _ b b _ _ (-1) q q); try done.
    + rewrite length_fmap. unfold len in Hroom. lia.
    + split_and!; [done..|by left].
Qed.

Lemma fa_entry_view log s :
  slot_ok log s ->
  (fs_state s = stFull /\ exists k v, view log s = VFull k v /\ entry (view log s) = Some (k, v)) \/
  (fs_state s <> stFull /\ entry (view log s) = None).
Proof.
  intros Hok. unfold view. destruct (fs_state s) eqn:Est; [by right| |by right].
  destruct (Hok Est) as (k & v & Hh & _). rewrite (holds_recordAt _ _ _ _ Hh). left. eauto.
Qed.

(** Reinserting the full slots of [old], in slot order; the log is not
    touched. *)
Lemma fa_growLoop_spec old : forall e m b,
  let es := entries (view (fa_log e) <$> old) in
  faster_rep e m b -> Forall (slot_ok (fa_log e)) old -> NoDup es.*1 ->
  (forall k, k ∈ es.*1 -> m !! k = None) ->
  fa_used e + len es < len (fa_idx e) -> 24 * (fa_used e + len es) <= b ->
  exists e', growLoop old e = Ok e' /\ faster_rep e' (insert_all m es) b /\ fa_log e' = fa_log e /\
    length (fa_idx e') = length (fa_idx e) /\ fa_used e' = fa_used e + len es.
Proof.
  induction old as [|s old IH]; intros e m b es Hrep Hok Hnd Hfresh Hroom Hb; unfold es in *.
  { exists e. simpl in *. rewrite len_nil. split_and!; [done..|lia]. }
  apply Forall_cons in Hok as [Hsok Hok]. simpl growLoop.
  revert Hnd Hfresh Hroom Hb. rewrite fmap_cons, entries_cons.
  destruct (fa_entry_view (fa_log e) s Hsok) as [(Hst & k & v & Hv & ->)|[Hst ->]].
  2:{ destruct (fs_state s); [by apply IH|done|by apply IH]. }
  rewrite Hst, len_cons. intros [Hk Hnd]%NoDup_cons Hfresh Hroom Hb.
  pose proof (len_nonneg (entries (view (fa_log e) <$> old))).
  destruct (fa_growSlot_spec e m b s k v) as (e1 & -> & Hrep1 & Hlog1 & Hlen1 & Hu1); try done; try lia.
  { apply Hfresh. left. }
  simpl. destruct (IH e1 (<[k := v]> m) b) as (e2 & -> & Hrep2 & Hlog2 & Hlen2 & Hu2);
    rewrite ?Hlog1 in *; try done.
  - intros k' Hin. rewrite lookup_insert_ne by (intros E; apply Hk; simpl; by rewrite E).
    apply Hfresh. by right.
  - unfold len in *. lia.
  - lia.
  - exists e2. split_and!; [done..|congruence|lia].
Qed.

Lemma fa_view_replicate log n : view log <$> replicate n fastZero = replicate n VEmpty.
Proof. by rewrite fmap_replicate. Qed.

Lemma fa_grow_spec e m b b' :
  faster_rep e m b -> b <= b' -> 2 * len (fa_idx e) <= b' -> b' <= kv_budget ->
  exists e', grow e = Ok e' /\ faster_rep e' m b' /\ fa_log e' = fa_log e /\
    len (fa_idx e') = 2 * len (fa_idx e) /\ fa_used e' = fa_live e.
Proof.
  intros (Hs & Hok & Hlog & Hb) Hbb Hsz Hbud. unfold grow.
  destruct (sz_lg _ _ _ _ _ _ Hs) as (lg & Hlg & Hn). rewrite length_fmap in Hn.
  pose proof (sz_used _ _ _ _ _ _ Hs) as Hu. pose proof (sz_live _ _ _ _ _ _ Hs) as Hl.
  pose proof (sz_room _ _ _ _ _ _ Hs) as Hr. pose proof (sz_spent _ _ _ _ _ _ Hs) as Hsp.
  pose proof (live_le_used (view (fa_log e) <$> fa_idx e)) as Hlu. rewrite length_fmap in Hr.
  assert (len (entries (view (fa_log e) <$> fa_idx e)) = fa_live e) as Hent.
  { unfold len. by rewrite length_entries. }
  destruct (fa_growLoop_spec (fa_idx e)
      (MkFaster (fa_log e) (replicate (length (fa_idx e) * 2) fastZero) 0 0) ∅ b')
    as (e' & -> & Hrep' & Hlog' & Hlen' & Hu'); simpl in *; rewrite ?Hent in *.
  - split_and!; simpl; [|apply Forall_replicate; by intros ?|lia..].
    rewrite fa_view_replicate. apply (sized_empty _ _ (lg + 1)); [lia| | |lia].
    + rewrite Z.pow_add_r by lia. lia.
    + unfold len in Hsz. lia.
  - done.
  - apply nodup_entries, (tb_uniq _ _ _ (sz_table _ _ _ _ _ _ Hs)).
  - intros. apply lookup_empty.
  - unfold len. rewrite length_replicate. lia.
  - lia.
  - exists e'. split_and!; [done| |done|unfold len; rewrite Hlen', length_replicate; lia|lia].
    by rewrite <- (insert_all_entries hash64 _ _ (sz_table _ _ _ _ _ _ Hs)).
Qed.

(** ** Put *)

Lemma fa_overLoad_spec e m b :
  faster_rep e m b -> overLoad e = (6305039478318694 * len (fa_idx e) <? (fa_used e + 1) * 2 ^ 53).
Proof.
  intros Hrep. destruct (fa_rep_lg _ _ _ Hrep) as (lg & Hlg & Hn). destruct Hrep as (Hs & _ & _ & Hb).
  pose proof (sz_used _ _ _ _ _ _ Hs). pose proof (sz_spent _ _ _ _ _ _ Hs).
  rewrite length_fmap in Hn. unfold overLoad, fasterMaxLoad, len. rewrite Hn.
  apply load_test_0_7; unfold kv_budget in Hb; lia.
Qed.

Lemma fa_make_room e m b c :
  faster_rep e m b -> 24 <= c -> b + c <= kv_budget ->
  exists e1, (if overLoad e then grow e else Ok e) = Ok e1 /\ faster_rep e1 m (b + c) /\
    fa_used e1 + 1 < len (fa_idx e1) /\ 24 * (fa_used e1 + 1) <= b + c /\ fa_log e1 = fa_log e.
Proof.
  intros Hrep Hc Hb. pose proof Hrep as (Hs & Hok & Hlog & Hb').
  rewrite (fa_overLoad_spec _ _ _ Hrep).
  pose proof (sz_used _ _ _ _ _ _ Hs) as Hu. pose proof (sz_live _ _ _ _ _ _ Hs) as Hl.
  pose proof (sz_spent _ _ _ _ _ _ Hs). pose proof (live_le_used (view (fa_log e) <$> fa_idx e)).
  pose proof (sz_room _ _ _ _ _ _ Hs) as Hr. rewrite length_fmap in Hr.
  destruct (Z.ltb_spec (6305039478318694 * len (fa_idx e)) ((fa_used e + 1) * 2 ^ 53)) as [Hov|Hov].
  - destruct (fa_grow_spec e m b (b + c) Hrep) as (e1 & -> & Hrep1 & Hlog1 & Hlen1 & Hu1); [lia..|].
    exists e1. split_and!; [done..|unfold len in *; lia|lia|done].
  - exists e. split_and!; [done| |unfold len in *; lia|lia|done].
    split_and!; [eapply sized_mono; [done|lia]|done|lia..].
Qed.

(** Storing the record of [key] at the end of the log and pointing slot [q]
    at it shows up as one update of the view. *)
Lemma view_store log idx q key val :
  Forall (slot_ok log) idx -> holdable key -> holdable val -> len log < 2 ^ 63 ->
  let s := MkFastSlot (hash64 key) (wrap64 (len log)) stFull in
  let log' := log ++ record key val in
  view log' <$> <[q:=s]> idx = <[q:=VFull key val]> (view log <$> idx) /\
  Forall (slot_ok log') (<[q:=s]> idx).
Proof.
  intros Hok Hk Hv Hlen. simpl.
  pose proof (holds_record_end log key val Hk Hv) as Hh.
  assert (wrap64 (len log) = len log) as Hw by (apply wrap64_id; zlia). split.
  - rewrite list_fmap_insert, views_app by done. f_equal. unfold view. simpl.
    by rewrite Hw, (holds_recordAt _ _ _ _ Hh).
  - apply Forall_insert.
    + eapply Forall_impl; [done|]. apply slot_ok_app.
    + intros _. exists key, val. simpl. by rewrite Hw.
Qed.

Section Store.
Context (e : faster) (m : gmap bytes bytes) (b : Z) (key val : bytes).
Context (Hrep : faster_rep e m b) (Hroom : fa_used e + 1 < len (fa_idx e)).
Context (Hsp : 24 * (fa_used e + 1) <= b) (Hlog : len (fa_log e) + len key + len val + 24 <= b).

Abbreviation log' := (fa_log e ++ record key val).
Abbreviation ns := (MkFastSlot (hash64 key) (wrap64 (len (fa_log e))) stFull).

Lemma store_bounds : holdable key /\ holdable val /\ len (fa_log e) < 2 ^ 63 /\ len log' <= b.
Proof using Hrep Hlog.
  destruct Hrep as (_ & _ & _ & Hb). unfold kv_budget in Hb. unfold holdable.
  pose proof (len_record key val). rewrite len_app. zlia.
Qed.

Lemma store_fresh ft p q :
  m !! key = None -> insert_at hash64 (view (fa_log e) <$> fa_idx e) key ft p q ->
  faster_rep (MkFaster log' (<[q:=ns]> (fa_idx e)) (fa_live e + 1)
    (if ft >=? 0 then fa_used e else fa_used e + 1)) (<[key:=val]> m) b.
Proof using Hrep Hroom Hsp Hlog.
  intros Hm Hins. destruct store_bounds as (Hk & Hv & Hl & Hl'). destruct Hrep as (Hs & Hok & _ & Hb).
  destruct (view_store (fa_log e) (fa_idx e) q key val Hok Hk Hv Hl) as [Hview Hf].
  split_and!; simpl; [|done|done|lia..]. rewrite Hview.
  eapply (sized_insert hash64 _ _ _ _ b b key val ft p q); try done.
  rewrite length_fmap. unfold len in Hroom. lia.
Qed.

Lemma store_over p w :
  (view (fa_log e) <$> fa_idx e) !! p = Some (VFull key w) ->
  faster_rep (MkFaster log' (<[p:=ns]> (fa_idx e)) (fa_live e) (fa_used e)) (<[key:=val]> m) b.
Proof using Hrep Hlog.
  intros Hp. destruct store_bounds as (Hk & Hv & Hl & Hl'). destruct Hrep as (Hs & Hok & _ & Hb).
  destruct (view_store (fa_log e) (fa_idx e) p key val Hok Hk Hv Hl) as [Hview Hf].
  split_and!; simpl; [|done|done|lia..]. rewrite Hview, <- (Z.add_0_r b). by eapply sized_overwrite.
Qed.
End Store.

Lemma fa_put_spec e m b key val :
  faster_rep e m b -> b + op_cost (PutOp key val) <= kv_budget ->
  exists e', putLocked e key val = Ok e' /\
    faster_rep e' (<[key:=val]> m) (b + op_cost (PutOp key val)).
Proof.
  intros Hrep0 Hbud. pose proof (op_cost_pos (PutOp key val)) as Hc. unfold putLocked.
  destruct (fa_make_room e m b _ Hrep0 Hc Hbud) as (e1 & -> & Hrep & Hroom & Hsp & Hlog1). simpl obind.
  assert (len (fa_log e1) + len key + len val + 24 <= b + op_cost (PutOp key val)) as Hlog'.
  { destruct Hrep0 as (_ & _ & ? & _). rewrite Hlog1. unfold op_cost. simpl. lia. }
  set (b' := b + op_cost (PutOp key val)) in *. clear Hrep0.
  destruct (fa_rep_lg _ _ _ Hrep) as (lg & Hlg & Hn). pose proof (fa_mask_eq _ _ _ Hrep) as Hmask.
  pose proof Hrep as (Hs & Hok & _). rewrite Hmask, <- (length_fmap (view (fa_log e1)) (fa_idx e1)).
  set (ns := MkFastSlot (hash64 key) (wrap64 (len (fa_log e1))) stFull).
  set (log' := fa_log e1 ++ record key val).
  match goal with |- context [probe_loop _ _ _ _ ?body] =>
    destruct (loop_insert hash64 _ m key lg Hn ltac:(lia) (sz_table _ _ _ _ _ _ Hs)
      (sz_room _ _ _ _ _ _ Hs) body
      (fun p => Ok (MkFaster log' (<[p:=ns]> (fa_idx e1)) (fa_live e1) (fa_used e1)))
      (fun ft p => if ft >=? 0
        then obind (update (fa_idx e1) ft ns) (fun sl => Ok (MkFaster log' sl (fa_live e1 + 1) (fa_used e1)))
        else obind (update (fa_idx e1) (Z.of_nat p) ns)
          (fun sl => Ok (MkFaster log' sl (fa_live e1 + 1) (fa_used e1 + 1)))))
      as [(p & v & Hp & _ & ->)|(ft & p & q & Hm & Hins & ->)] end.
  - intros ft p s Hp. destruct (fa_view_lookup _ _ _ Hok Hp) as (r & -> & Hlt & -> & Hrok). simpl.
    destruct (fs_state r) eqn:Est; [| |by unfold view; rewrite Est].
    { unfold view. rewrite Est. by destruct (ft >=? 0), (update _ _ _). }
    match goal with |- context [obind (update _ _ ?t) ?g] =>
      destruct (key_test (fa_log e1) r key (fun _ => obind (update (fa_idx e1) (Z.of_nat p) t) g)
        (Ok (inl ft)) Hrok Est) as (k & v & -> & Hh & ->) end.
    case_decide as Hk; [|done]. rewrite update_ok by done. simpl. by rewrite Hh, Hk.
  - eexists. split; [done|]. by eapply store_over.
  - eexists. split; [|by eapply store_fresh]. rewrite Z.geb_leb.
    destruct (insert_at_update hash64 (view (fa_log e1) <$> fa_idx e1) key (fa_idx e1) ft p q ns)
      as [[? ->]|[-> ->]]; [by rewrite length_fmap|done| |done]. case_zcmp; [done|lia].
Qed.

Lemma faster_rep_mono e m b b' : faster_rep e m b -> b <= b' <= kv_budget -> faster_rep e m b'.
Proof. intros (Hs & Hok & Hl & Hb) ?. split_and!; [eapply sized_mono; [done|lia]|done|lia..]. Qed.

#[global] Instance faster_store : KVStore faster.
Proof.
  refine {| kv_rep := faster_rep |}.
  - intros. by eapply fa_get_spec.
  - intros. by apply fa_put_spec.
  - intros. by apply fa_delete_spec.
  - intros e m b ops. apply (apply_in_order faster_rep putLocked deleteLocked); try done.
    + apply faster_rep_mono.
    + apply fa_put_spec.
    + intros. by apply fa_delete_spec.
Defined.

Lemma newFaster_rep : faster_rep newFaster ∅ 0.
Proof.
  split_and!; [|apply Forall_replicate; by intros ?|done..].
  change (view ?l <$> fa_idx newFaster) with (view l <$> replicate (Z.to_nat (2 ^ 10)) fastZero).
  rewrite fa_view_replicate. by apply (sized_empty _ _ 10).
Qed.

(** C2: [faster] refines a finite map, as [swiss] does: its log and its index
    of offsets answer every session of gets, puts, deletes and batches within
    the byte budget as the map does. *)
Theorem faster_refines_map rs :
  session_cost rs <= kv_budget ->
  exists e' b, run_session newFaster rs = Ok ((map_session ∅ rs).1, e') /\
    faster_rep e' (map_session ∅ rs).2 b.
Proof.
  intros Hc. assert (kv_rep newFaster ∅ 0) as Hnew by exact newFaster_rep.
  destruct (session_refines_map newFaster ∅ 0 rs Hnew) as (e' & b & Hr & Hrep & _); [lia|].
  by exists e', b.
Qed.

Lemma faster_refines_map_witness :
  exists e' b, run_session newFaster demo_session = Ok ((map_session ∅ demo_session).1, e') /\
    faster_rep e' (map_session ∅ demo_session).2 b.
Proof. apply (faster_refines_map demo_session). vm_compute. discriminate. Defined.
