(* ===== verification/F2.v ===== *)
(** * f2: sharded append log behind an index of packed words
    (adapters/inmem/inmem.go)

    The keyspace is split over 256 shards by the high hash bits.  A shard's
    table is an array of 64-bit words (0 empty, bit 63 a tombstone, otherwise
    a 15-bit tag over a 48-bit offset plus one) and a fixed arena of records
    filled from the front.  When the arena or the index fills up, [grow]
    replays the live records into a fresh table.  The engine refines the map
    contract of [Engine]; this file treats each operation as one step, the
    order in which a shard's lock serialises its writers. *)

From S2P Require Import Prelude Float64 Codec Engine OpenAddr Inmem.
Local Open Scope go_scope.

Definition f2Shards : Z := 256.
Definition f2MaxLoad : float64 := f64_0_7.
Definition f2TagShift : Z := 48.
Definition f2OffMask : Z := Z.shiftl 1 48 - 1.
Definition f2TagMask : Z := Z.shiftl 0x7fff f2TagShift.
Definition f2Tomb : Z := Z.shiftl 1 63.

Record f2tab := MkF2tab {
  ft_slots : list Z;
  ft_mask : Z;
  ft_buf : bytes;
  ft_tail : Z;
  ft_live : Z;
  ft_used : Z }.

Definition newF2tab (slots bufcap : Z) : f2tab :=
  MkF2tab (replicate (Z.to_nat slots) 0) (wrap64 (slots - 1))
    (replicate (Z.to_nat bufcap) Byte.x00) 0 0 0.

Record f2 := MkF2 { f2_shards : list f2tab; f2_mask : Z }.

Definition newF2 : f2 :=
  MkF2 (replicate (Z.to_nat f2Shards) (newF2tab (2 ^ 9) (2 ^ 16))) (f2Shards - 1).

(** The shard from the high hash bits, the tag from the middle ones. *)
Definition shardFor (e : f2) (h : Z) : Z := (h >>64 56) &64 f2_mask e.
Definition tagOf (h : Z) : Z := (h >>64 24) &64 0x7fff.

(** The index word of a record at [off]. *)
Definition packEntry (h off : Z) : Z := (tagOf h <<64 f2TagShift) |64 wrap64 (off + 1).

(** [int(e0 & f2OffMask) - 1]. *)
Definition entryOff (e0 : Z) : Z := (e0 &64 f2OffMask) - 1.

(** *** Records in the arena *)

Definition splice (buf : bytes) (off : Z) (d : bytes) : bytes :=
  take (Z.to_nat off) buf ++ d ++ drop (Z.to_nat off + length d) buf.

(** [binary.PutUvarint(buf[off:], x)] panics without room; [copy] writes what
    fits. *)
Definition putUvarintAt (buf : bytes) (off x : Z) : outcome (Z * bytes) :=
  let d := put_uvarint x in
  if off + len d <=? len buf then Ok (len d, splice buf off d) else Panic.

Definition copyAt (buf : bytes) (off : Z) (d : bytes) : Z * bytes :=
  let d' := take (Z.to_nat (len buf - off)) d in (len d', splice buf off d').

Definition appendRecord (buf : bytes) (off : Z) (key val : bytes) : outcome (Z * bytes) :=
  let* (n1, buf) := putUvarintAt buf off (wrap64 (len key)) in
  let (n2, buf) := copyAt buf (off + n1) key in
  let* (n3, buf) := putUvarintAt buf (off + (n1 + n2)) (wrap64 (len val)) in
  let (n4, buf) := copyAt buf (off + (n1 + n2 + n3)) val in
  Ok (n1 + n2 + n3 + n4, buf).

Fixpoint uvarintLen_loop (fuel : nat) (x c : Z) : Z :=
  match fuel with
  | O => c
  | S f => if x >=? 128 then uvarintLen_loop f (x >>64 7) (c + 1) else c
  end.

(** Nine shifts bring any [uint64] below 128. *)
Definition uvarintLen (n : Z) : Z := uvarintLen_loop 9 (wrap64 n) 1.

Definition recordSize (key val : bytes) : Z :=
  uvarintLen (len key) + len key + uvarintLen (len val) + len val.

(** *** The table operations *)

(** One iteration of the loop of [Get]: load the word at [i]; an empty word
    ends the search, a word whose tag and record match the key answers it. *)
Definition getBody (t : f2tab) (h : Z) (key : bytes) (_ : unit) (i : Z)
    : outcome (unit + option bytes) :=
  let want := tagOf h <<64 f2TagShift in
  let* e0 := index (ft_slots t) i in
  if e0 =? 0 then Ok (inr None)
  else if negb (e0 =? f2Tomb) && (e0 &64 f2TagMask =? want)
  then let* (k, v) := recordAt (ft_buf t) (entryOff e0) in
       if bool_decide (k = key) then Ok (inr (Some v)) else Ok (inl tt)
  else Ok (inl tt).

Definition tabGet (t : f2tab) (h : Z) (key : bytes) : outcome (option bytes) :=
  probe_loop (length (ft_slots t)) (ft_mask t) (h &64 ft_mask t) tt (getBody t h key).

(** The reinsertion of one live word of the old table into the new one. *)
Definition growSlot (oldbuf : bytes) (nt : f2tab) (e0 : Z) : outcome f2tab :=
  let* (k, v) := recordAt oldbuf (entryOff e0) in
  let h := hash64 k in
  let off := ft_tail nt in
  let* (n, buf) := appendRecord (ft_buf nt) off k v in
  let entry := packEntry h off in
  probe_loop (length (ft_slots nt)) (ft_mask nt) (h &64 ft_mask nt) tt (fun _ i =>
    let* w := index (ft_slots nt) i in
    if w =? 0
    then let* slots := update (ft_slots nt) i entry in
         Ok (inr (MkF2tab slots (ft_mask nt) buf (off + n) (ft_live nt + 1) (ft_used nt + 1)))
    else Ok (inl tt)).

Fixpoint growLoop (oldbuf : bytes) (old : list Z) (nt : f2tab) : outcome f2tab :=
  match old with
  | [] => Ok nt
  | e0 :: old' =>
      if (e0 =? 0) || (e0 =? f2Tomb) then growLoop oldbuf old' nt
      else let* nt' := growSlot oldbuf nt e0 in growLoop oldbuf old' nt'
  end.

Definition overLoad (n slots : Z) : bool :=
  fgt (f64_of_Z (n + 1)) (fmul f2MaxLoad (f64_of_Z slots)).

(** [for float64(old.live+1) > f2MaxLoad*float64(slots) { slots *= 2 }]; an
    [int] has at most 63 doublings in it. *)
Fixpoint growSize (fuel : nat) (live slots : Z) : outcome Z :=
  match fuel with
  | O => Spin
  | S f => if overLoad live slots then growSize f live (slots * 2) else Ok slots
  end.

Definition grow (old : f2tab) (need : Z) : outcome f2tab :=
  let* slots := growSize 64 (ft_live old) (len (ft_slots old)) in
  growLoop (ft_buf old) (ft_slots old) (newF2tab slots (ft_tail old * 2 + need + 2 ^ 12)).

(** [putLocked] first makes room, publishing a fresh table when the arena or
    the index is full, then appends the record and stores one word. *)
Definition noRoom (t : f2tab) (need : Z) : bool :=
  (ft_tail t + need >? len (ft_buf t)) || overLoad (ft_used t) (len (ft_slots t)).

Definition makeRoom (t : f2tab) (need : Z) : outcome f2tab :=
  if noRoom t need then grow t need else Ok t.

Definition install (t : f2tab) (h : Z) (key val : bytes) : outcome f2tab :=
  let off := ft_tail t in
  let* (n, buf) := appendRecord (ft_buf t) off key val in
  let tail := off + n in
  let entry := packEntry h off in
  let want := tagOf h <<64 f2TagShift in
  let mk slots live used := MkF2tab slots (ft_mask t) buf tail live used in
  probe_loop (length (ft_slots t)) (ft_mask t) (h &64 ft_mask t) (-1) (fun firstTomb i =>
    let* e0 := index (ft_slots t) i in
    if e0 =? 0
    then if firstTomb >=? 0
         then let* slots := update (ft_slots t) firstTomb entry in
              Ok (inr (mk slots (ft_live t + 1) (ft_used t)))
         else let* slots := update (ft_slots t) i entry in
              Ok (inr (mk slots (ft_live t + 1) (ft_used t + 1)))
    else if e0 =? f2Tomb
    then Ok (inl (if firstTomb <? 0 then i else firstTomb))
    else if e0 &64 f2TagMask =? want
    then let* (k, _) := recordAt buf (entryOff e0) in
         if bool_decide (k = key)
         then let* slots := update (ft_slots t) i entry in
              Ok (inr (mk slots (ft_live t) (ft_used t)))
         else Ok (inl firstTomb)
    else Ok (inl firstTomb)).

Definition putLocked (t : f2tab) (h : Z) (key val : bytes) : outcome f2tab :=
  let* t := makeRoom t (recordSize key val) in install t h key val.

Definition deleteLocked (t : f2tab) (h : Z) (key : bytes) : outcome f2tab :=
  let want := tagOf h <<64 f2TagShift in
  probe_loop (length (ft_slots t)) (ft_mask t) (h &64 ft_mask t) tt (fun _ i =>
    let* e0 := index (ft_slots t) i in
    if e0 =? 0 then Ok (inr t)
    else if negb (e0 =? f2Tomb) && (e0 &64 f2TagMask =? want)
    then let* (k, _) := recordAt (ft_buf t) (entryOff e0) in
         if bool_decide (k = key)
         then let* slots := update (ft_slots t) i f2Tomb in
              Ok (inr (MkF2tab slots (ft_mask t) (ft_buf t) (ft_tail t) (ft_live t - 1) (ft_used t)))
         else Ok (inl tt)
    else Ok (inl tt)).

(** *** The engine *)

Definition Get (e : f2) (key : bytes) : outcome (option bytes) :=
  let h := hash64 key in
  let* t := index (f2_shards e) (shardFor e h) in tabGet t h key.

(** Replace one shard's table. *)
Definition onShard (e : f2) (h : Z) (f : f2tab -> outcome f2tab) : outcome f2 :=
  let* t := index (f2_shards e) (shardFor e h) in
  let* t' := f t in
  let* shards := update (f2_shards e) (shardFor e h) t' in
  Ok (MkF2 shards (f2_mask e)).

Definition Put (e : f2) (key val : bytes) : outcome f2 :=
  let h := hash64 key in onShard e h (fun t => putLocked t h key val).

Definition Delete (e : f2) (key : bytes) : outcome f2 :=
  let h := hash64 key in onShard e h (fun t => deleteLocked t h key).

Fixpoint applyBatch (e : f2) (ops : list memOp) : outcome f2 :=
  match ops with
  | [] => Ok e
  | o :: ops' =>
      let h := hash64 (op_k o) in
      let* e' := onShard e h (fun t =>
        if op_del o then deleteLocked t h (op_k o) else putLocked t h (op_k o) (op_v o)) in
      applyBatch e' ops'
  end.

Definition f2Meta : Meta :=
  MkMeta "f2" FamilyInMemory ModeInProc "" "builtin" ""
    (MkCapabilities false true false false false false true)
    [MkAsterisk "non-durable" "in-memory FASTER v2-shaped ceiling: a latch-free hash index (each slot one atomic word) over a per-shard append-only log, no persistence. The read path takes no lock at all, an atomic load plus a tag probe; writers are serialized per shard. Unordered, point cells only. Reads return a view into the log, the zero-copy lock-free read ceiling; read its conc=N cell against the faster engine's to see the cost of faster's single RWMutex."]
    true.

#[global] Instance f2_ops : KVOps f2 := {
  kv_get := Get;
  kv_put := Put;
  kv_delete := Delete;
  kv_apply := applyBatch }.

(** ** Packed words *)

Lemma tagOf_range h : 0 <= tagOf h < 2 ^ 15.
Proof.
  unfold tagOf. change 0x7fff with (2 ^ 15 - 1). rewrite land_mask by lia.
  apply Z.mod_pos_bound. lia.
Qed.

(** Tag and offset do not overlap. *)
Lemma packEntry_eq h off :
  0 <= off < 2 ^ 48 - 1 -> packEntry h off = off + 1 + tagOf h * 2 ^ 48.
Proof.
  intros Hoff. pose proof (tagOf_range h). unfold packEntry, f2TagShift.
  rewrite (wrap64_id (Z.shiftl _ _)) by (rewrite Z.shiftl_mul_pow2 by lia; zlia).
  rewrite (wrap64_id (off + 1)) by zlia. by rewrite Z.lor_comm, lor_shiftl_add by lia.
Qed.

Lemma packEntry_off h off : 0 <= off < 2 ^ 48 - 1 -> entryOff (packEntry h off) = off.
Proof.
  intros Hoff. rewrite packEntry_eq by done. unfold entryOff, f2OffMask.
  rewrite Z.shiftl_mul_pow2, Z.mul_1_l, land_mask by lia.
  rewrite Z.mod_add, Z.mod_small by lia. lia.
Qed.

Lemma packEntry_tag h off :
  0 <= off < 2 ^ 48 - 1 -> Z.land (packEntry h off) f2TagMask = wrap64 (Z.shiftl (tagOf h) f2TagShift).
Proof.
  intros Hoff. pose proof (tagOf_range h). unfold f2TagMask, f2TagShift.
  rewrite wrap64_id by (rewrite Z.shiftl_mul_pow2 by lia; zlia).
  rewrite packEntry_eq by done. rewrite <- lor_shiftl_add by lia.
  apply Z.bits_inj_iff'. intros i Hi. rewrite Z.land_spec, Z.lor_spec.
  destruct (Z.lt_ge_cases i 48).
  - rewrite !(Z.shiftl_spec_low _ _ i) by lia. apply andb_false_r.
  - rewrite (testbit_high (off + 1) 48) by lia. rewrite !Z.shiftl_spec_high by lia. simpl.
    change 0x7fff with (Z.ones 15). destruct (Z.lt_ge_cases (i - 48) 15).
    + rewrite Z.ones_spec_low by lia. apply andb_true_r.
    + rewrite (testbit_high (tagOf h) 15) by lia. done.
Qed.

(** A word that names a record is neither the empty word nor the tombstone. *)
Lemma packEntry_full h off :
  0 <= off < 2 ^ 48 - 1 -> (packEntry h off =? 0) = false /\ (packEntry h off =? f2Tomb) = false.
Proof.
  intros Hoff. pose proof (tagOf_range h). rewrite packEntry_eq by done.
  split; apply Z.eqb_neq; [lia|]. unfold f2Tomb. rewrite Z.shiftl_mul_pow2 by lia. lia.
Qed.

(** ** Writing a record *)

Lemma len_splice buf off d :
  0 <= off -> off + len d <= len buf -> len (splice buf off d) = len buf.
Proof.
  intros Ho Hr. unfold splice, len in *. rewrite !length_app, length_take, length_drop. lia.
Qed.

Lemma splice_take buf off d :
  0 <= off -> off + len d <= len buf ->
  take (Z.to_nat (off + len d)) (splice buf off d) = take (Z.to_nat off) buf ++ d.
Proof.
  intros Ho Hr. unfold splice, len in *. rewrite app_assoc, take_app_length'; [done|].
  rewrite length_app, length_take. lia.
Qed.

Lemma splice_splice buf off d1 d2 :
  0 <= off -> off + len d1 + len d2 <= len buf ->
  splice (splice buf off d1) (off + len d1) d2 = splice buf off (d1 ++ d2).
Proof.
  intros Ho Hr. unfold splice at 1. rewrite splice_take by zlia. unfold splice, len in *.
  rewrite <- !app_assoc. do 3 f_equal. rewrite !drop_app_ge; rewrite ?length_take; [|lia..].
  rewrite drop_drop. f_equal. rewrite length_app. lia.
Qed.

Lemma copyAt_ok buf off d :
  0 <= off -> off + len d <= len buf -> copyAt buf off d = (len d, splice buf off d).
Proof. intros Ho Hr. unfold copyAt. rewrite take_ge; [done|]. unfold len in *. lia. Qed.

Lemma putUvarintAt_ok buf off x :
  off + len (put_uvarint x) <= len buf ->
  putUvarintAt buf off x = Ok (len (put_uvarint x), splice buf off (put_uvarint x)).
Proof. intros Hr. unfold putUvarintAt. case_zcmp; [done|lia]. Qed.

Lemma appendRecord_ok buf off k v :
  0 <= off -> off + len (record k v) <= len buf ->
  appendRecord buf off k v = Ok (len (record k v), splice buf off (record k v)).
Proof.
  intros Ho Hr. unfold appendRecord, record in *. autorewrite with go in Hr.
  set (pk := put_uvarint (wrap64 (len k))) in *. set (pv := put_uvarint (wrap64 (len v))) in *.
  pose_len_nonneg.
  rewrite putUvarintAt_ok by (fold pk; lia). fold pk. cbn [obind].
  rewrite copyAt_ok by (rewrite ?len_splice; lia). rewrite splice_splice by lia. cbv iota beta.
  rewrite <- (len_app pk k). rewrite putUvarintAt_ok by (rewrite len_splice; rewrite ?len_app; fold pv; lia).
  fold pv. cbn [obind]. rewrite splice_splice by (rewrite ?len_app; lia).
  rewrite <- (len_app (pk ++ k) pv). rewrite copyAt_ok by (rewrite ?len_splice; rewrite ?len_app; lia).
  rewrite splice_splice by (rewrite ?len_app; lia). rewrite <- (len_app ((pk ++ k) ++ pv) v).
  by rewrite <- !app_assoc.
Qed.

(** ** recordSize is the size of the record *)

Lemma uvarintLen_groups fuel x c :
  0 <= x < 2 ^ (7 * Z.of_nat (S fuel)) ->
  uvarintLen_loop fuel x c = c - 1 + len (uvarint_groups (S fuel) x).
Proof.
  revert x c. induction fuel as [|f IH]; intros x c Hx; simpl uvarintLen_loop.
  - simpl uvarint_groups. change (2 ^ (7 * Z.of_nat 1)) with 128 in Hx.
    rewrite Z.geb_leb. case_zcmp; [lia|]. rewrite len_cons, len_nil. lia.
  - simpl uvarint_groups. rewrite Z.geb_leb. destruct (Z.leb_spec 128 x).
    + rewrite IH, len_cons; [simpl uvarint_groups; lia|].
      rewrite Z.shiftr_div_pow2 by lia. split; [apply Z.div_pos; lia|].
      apply Z.div_lt_upper_bound; [lia|]. rewrite <- Z.pow_add_r by lia.
      replace (7 + 7 * Z.of_nat (S f)) with (7 * Z.of_nat (S (S f))) by lia. lia.
    + rewrite len_cons, len_nil. lia.
Qed.

Lemma recordSize_len k v : recordSize k v = len (record k v).
Proof.
  assert (forall n, uvarintLen n = len (put_uvarint (wrap64 n))) as Hu.
  { intros n. unfold uvarintLen, put_uvarint. pose proof (wrap64_range n) as Hw. unfold is_u64 in Hw.
    rewrite uvarintLen_groups; [unfold MaxVarintLen64; lia|]. change (7 * Z.of_nat 10) with 70. lia. }
  unfold recordSize, record. rewrite !Hu. autorewrite with go. lia.
Qed.

(** ** The representation of a shard's table *)

#[local] Arguments packEntry : simpl never.
#[local] Arguments entryOff : simpl never.
#[local] Arguments tagOf : simpl never.
#[local] Arguments hash64 : simpl never.
#[local] Arguments f2TagMask : simpl never.
#[local] Arguments f2Tomb : simpl never.
#[local] Arguments Z.land : simpl never.
#[local] Arguments Z.shiftl : simpl never.
#[local] Arguments wrap64 : simpl never.

(** The bytes written so far: the arena up to the tail. *)
Definition arena (t : f2tab) : bytes := take (Z.to_nat (ft_tail t)) (ft_buf t).

Definition view (log : bytes) (w : Z) : slotview bytes bytes :=
  if w =? 0 then VEmpty
  else if w =? f2Tomb then VTomb
  else match recordAt log (entryOff w) with Ok (k, v) => VFull k v | _ => VEmpty end.

(** The slots of a table as lookups see them. *)
Abbreviation slots_of t := (view (arena t) <$> ft_slots t).

(** A word is empty, a tombstone, or the packed tag and offset of a record. *)
Definition word_ok (log : bytes) (w : Z) : Prop :=
  w = 0 \/ w = f2Tomb \/
  exists k v off, holds_record log off k v /\ w = packEntry (hash64 k) off /\ 0 <= off < 2 ^ 48 - 1.

(** The arena is a sequence of records, and the live entries are among them. *)
Definition arena_ok (log : bytes) (es : list (bytes * bytes)) : Prop :=
  exists rs, log = concat (uncurry record <$> rs) /\ forall kv, kv ∈ es -> kv ∈ rs.

Record tab_rep (t : f2tab) (m : gmap bytes bytes) (b : Z) : Prop := {
  tr_sized : sized hash64 (view (arena t) <$> ft_slots t) m (ft_used t) (ft_live t) b;
  tr_words : Forall (word_ok (arena t)) (ft_slots t);
  tr_mask : ft_mask t = Z.of_nat (length (view (arena t) <$> ft_slots t)) - 1;
  tr_arena : arena_ok (arena t) (entries (view (arena t) <$> ft_slots t));
  tr_tail : 0 <= ft_tail t <= len (ft_buf t);
  tr_spent : ft_tail t <= b;
  tr_budget : 0 <= b <= kv_budget }.

Lemma word_cases log w :
  word_ok log w ->
  (w = 0 /\ view log w = VEmpty) \/ (w = f2Tomb /\ view log w = VTomb) \/
  (exists k v off, holds_record log off k v /\ w = packEntry (hash64 k) off /\ 0 <= off < 2 ^ 48 - 1 /\
    (w =? 0) = false /\ (w =? f2Tomb) = false /\ view log w = VFull k v).
Proof.
  intros [->|[->|(k & v & off & Hh & -> & Hoff)]]; [by left|by right; left|right; right].
  destruct (packEntry_full (hash64 k) off Hoff) as [H0 Ht]. exists k, v, off.
  split_and!; [done..|lia|lia|done|done|]. unfold view.
  by rewrite H0, Ht, packEntry_off, (holds_recordAt _ _ _ _ Hh).
Qed.

Lemma word_ok_app log x w : word_ok log w -> word_ok (log ++ x) w.
Proof.
  intros [->|[->|(k & v & off & Hh & -> & Hoff)]]; [by left|by right; left|right; right].
  exists k, v, off. split_and!; [by apply holds_record_app|done|lia..].
Qed.

Lemma word_view_app log x w : word_ok log w -> view (log ++ x) w = view log w.
Proof.
  intros Hok. destruct (word_cases _ _ Hok) as [[-> ->]|[[-> ->]|(k & v & off & Hh & -> & Hoff & H0 & Ht & ->)]];
    [done|done|]. unfold view. rewrite H0, Ht, packEntry_off by done.
  by rewrite (holds_recordAt _ _ _ _ (holds_record_app _ _ _ _ x Hh)).
Qed.

Lemma word_views_app log x ws : Forall (word_ok log) ws -> view (log ++ x) <$> ws = view log <$> ws.
Proof.
  intros Hok. apply list_fmap_ext. intros i w Hw. apply word_view_app. by eapply Forall_lookup_1.
Qed.

(** The whole buffer is the arena and free space. *)
Lemma buf_arena t : exists free, ft_buf t = arena t ++ free.
Proof. exists (drop (Z.to_nat (ft_tail t)) (ft_buf t)). unfold arena. by rewrite take_drop. Qed.

(** The code's key test on a word that names a record: the tag, then the
    record's key.  The tag never rejects the key itself. *)
Lemma word_key_test {A} log free k v off key (f : bytes * bytes -> outcome A) (miss : outcome A) :
  holds_record log off k v -> 0 <= off < 2 ^ 48 - 1 ->
  let w := packEntry (hash64 k) off in
  (if Z.land w f2TagMask =? wrap64 (Z.shiftl (tagOf (hash64 key)) f2TagShift)
   then obind (recordAt (log ++ free) (entryOff w))
     (fun '(k, v) => if bool_decide (k = key) then f (k, v) else miss)
   else miss) = (if decide (k = key) then f (k, v) else miss).
Proof.
  intros Hh Hoff w. subst w. rewrite packEntry_tag, packEntry_off by done.
  rewrite (holds_recordAt _ _ _ _ (holds_record_app _ _ _ _ free Hh)). cbn [obind].
  erewrite if_bool_decide. case_decide as Hk; [subst; by rewrite Z.eqb_refl|].
  by destruct (_ =? _).
Qed.

Lemma word_lookup log ws p s :
  Forall (word_ok log) ws -> (view log <$> ws) !! p = Some s ->
  exists w, index ws (Z.of_nat p) = Ok w /\ (p < length ws)%nat /\ s = view log w /\ word_ok log w.
Proof.
  intros Hok Hp. rewrite list_lookup_fmap in Hp. destruct (ws !! p) as [w|] eqn:E; simplify_eq/=.
  exists w. split_and!; [by apply index_ok|by eapply lookup_lt_Some|done|]. by eapply Forall_lookup_1.
Qed.

Lemma tab_lg t m b : tab_rep t m b ->
  exists lg, 0 <= lg <= 46 /\ Z.of_nat (length (view (arena t) <$> ft_slots t)) = 2 ^ lg.
Proof. intros [Hs _ _ _ _ _ Hb]. unfold kv_budget in Hb. eapply sized_lg; [done|lia]. Qed.

(** What an iteration of [Get] sees in a slot. *)
Lemma getBody_spec t key p s :
  Forall (word_ok (arena t)) (ft_slots t) -> (view (arena t) <$> ft_slots t) !! p = Some s ->
  getBody t (hash64 key) key tt (Z.of_nat p) =
    match s with
    | VEmpty => Ok (inr None)
    | VTomb => Ok (inl tt)
    | VFull k v => if decide (k = key) then Ok (inr (Some v)) else Ok (inl tt)
    end.
Proof.
  intros Hok Hp. destruct (buf_arena t) as [free Hbuf]. unfold getBody. rewrite Hbuf.
  destruct (word_lookup _ _ _ _ Hok Hp) as (w & -> & _ & -> & Hw). cbn [obind].
  destruct (word_cases _ _ Hw) as [[-> ->]|[[-> ->]|(k & v & off & Hh & -> & Hoff & -> & -> & ->)]];
    [done|done|]. cbn [negb andb].
  rewrite (word_key_test _ free k v off key (fun '(_, v) => Ok (inr (Some v))) (Ok (inl tt)) Hh Hoff).
  by case_decide.
Qed.

Lemma tabGet_spec t m b key : tab_rep t m b -> tabGet t (hash64 key) key = Ok (m !! key).
Proof.
  intros Hrep. destruct (tab_lg _ _ _ Hrep) as (lg & Hlg & Hn).
  destruct Hrep as [Hs Hok Hmask _ _ _ _]. unfold tabGet. rewrite Hmask.
  rewrite <- (length_fmap (view (arena t)) (ft_slots t)).
  match goal with |- probe_loop _ _ _ _ ?body = _ =>
    destruct (loop_lookup hash64 _ m key lg Hn ltac:(lia) (sz_table _ _ _ _ _ _ Hs)
      (sz_room _ _ _ _ _ _ Hs) body (fun _ v => Ok (Some v)) (Ok None))
      as [(p & v & _ & -> & ->)|[-> ->]] end; [|done..].
  intros p s Hp. rewrite (getBody_spec _ _ _ _ Hok Hp). by destruct s as [|? ?|]; [|case_decide|].
Qed.

(** Dropping entries keeps the arena in order. *)
Lemma arena_ok_sub log es es' : arena_ok log es -> (forall kv, kv ∈ es' -> kv ∈ es) -> arena_ok log es'.
Proof. intros (rs & -> & Hin) Hsub. exists rs. split; [done|]. auto. Qed.

Lemma entries_insert_sub (vs : list (slotview bytes bytes)) q s kv :
  kv ∈ entries (<[q:=s]> vs) -> kv ∈ entries vs \/ entry s = Some kv.
Proof.
  destruct kv as [k v]. rewrite !elem_of_entries.
  intros (p & [(-> & -> & _)|[_ Hp]]%list_lookup_insert_Some); [by right|left; eauto].
Qed.

(** Deleting writes at most one slot, the key's own, with a tombstone. *)
Lemma tab_delete_spec t m b key :
  tab_rep t m b ->
  exists t', deleteLocked t (hash64 key) key = Ok t' /\ tab_rep t' (delete key m) b /\
    (t' = t \/ exists q w, slots_of t !! q = Some (VFull key w) /\ slots_of t' = <[q:=VTomb]> (slots_of t)).
Proof.
  intros Hrep. destruct (tab_lg _ _ _ Hrep) as (lg & Hlg & Hn). destruct (buf_arena t) as [free Hbuf].
  pose proof Hrep as [Hs Hok Hmask Har Htl Hsp Hb]. unfold deleteLocked. rewrite Hmask, Hbuf.
  rewrite <- (length_fmap (view (arena t)) (ft_slots t)).
  set (del p := MkF2tab (<[p:=f2Tomb]> (ft_slots t)) (ft_mask t) (ft_buf t) (ft_tail t)
    (ft_live t - 1) (ft_used t)).
  match goal with |- context [probe_loop _ _ _ _ ?body] =>
    destruct (loop_lookup hash64 _ m key lg Hn ltac:(lia) (sz_table _ _ _ _ _ _ Hs)
      (sz_room _ _ _ _ _ _ Hs) body (fun p _ => Ok (del p)) (Ok t))
      as [(p & v & Hp & _ & ->)|[Hm ->]] end.
  - intros p s Hp. destruct (word_lookup _ _ _ _ Hok Hp) as (w & -> & Hlt & -> & Hw). cbn [obind].
    destruct (word_cases _ _ Hw) as [[-> ->]|[[-> ->]|(k & v & off & Hh & -> & Hoff & -> & -> & ->)]];
      [done|done|]. cbn [negb andb].
    match goal with |- context [obind (update _ _ ?x) ?g] =>
      rewrite (word_key_test _ free k v off key (fun _ => obind (update (ft_slots t) (Z.of_nat p) x) g)
        (Ok (inl tt)) Hh Hoff) end.
    case_decide as Hk; [|done]. rewrite update_ok by done. simpl.
    unfold del. by rewrite Hmask, Hbuf.
  - eexists. split; [done|]. unfold del.
    assert (arena (del p) = arena t) as Ha by done. unfold del in Ha.
    split; [|right; exists p, v; split; [done|]; rewrite Ha; simpl; by rewrite list_fmap_insert].
    split; rewrite ?Ha; simpl; rewrite ?list_fmap_insert, ?length_insert; try done.
    + by eapply sized_delete.
    + apply Forall_insert; [done|by right; left].
    + eapply arena_ok_sub; [done|]. intros kv Hkv. by apply entries_insert_sub in Hkv as [?|?].
  - exists t. split; [done|]. rewrite delete_absent by done. auto.
Qed.

(** ** Storing a record *)

(** Writing the record at the tail and pointing slot [q] at it is one update
    of the view. *)
Lemma tab_store t m b b' q k v m' live' used' :
  tab_rep t m b -> b <= b' <= kv_budget ->
  ft_tail t + len (record k v) <= len (ft_buf t) -> ft_tail t + len (record k v) <= b' ->
  sized hash64 (<[q:=VFull k v]> (view (arena t) <$> ft_slots t)) m' used' live' b' ->
  let t' := MkF2tab (<[q:=packEntry (hash64 k) (ft_tail t)]> (ft_slots t)) (ft_mask t)
    (splice (ft_buf t) (ft_tail t) (record k v)) (ft_tail t + len (record k v)) live' used' in
  tab_rep t' m' b' /\ slots_of t' = <[q:=VFull k v]> (slots_of t).
Proof.
  intros [Hs Hok Hmask Har Htl Hsp Hb] Hb' Hroom Hspent Hs' t'. pose proof (len_record k v) as Hlr.
  unfold kv_budget in Hb'.
  assert (arena t' = arena t ++ record k v) as Ha.
  { unfold arena, t'. simpl. rewrite splice_take by lia. done. }
  assert (len (arena t) = ft_tail t) as Hla.
  { unfold arena, len in *. rewrite length_take. lia. }
  assert (holds_record (arena t') (ft_tail t) k v) as Hh.
  { rewrite Ha, <- Hla. apply holds_record_end; unfold holdable; zlia. }
  assert (word_ok (arena t') (packEntry (hash64 k) (ft_tail t))) as Hw.
  { right; right. exists k, v, (ft_tail t). split_and!; [done..|lia|lia]. }
  assert (view (arena t') <$> ft_slots t' = <[q:=VFull k v]> (view (arena t) <$> ft_slots t)) as Hv.
  { unfold t' at 2. simpl ft_slots. rewrite list_fmap_insert, Ha, word_views_app by done. rewrite <- Ha.
    destruct (packEntry_full (hash64 k) (ft_tail t)) as [H0 H1]; [lia|].
    unfold view at 1. rewrite H0, H1, packEntry_off, (holds_recordAt _ _ _ _ Hh) by lia. done. }
  split; [|exact Hv]. split; rewrite ?Hv; try done.
  - apply Forall_insert; [|done]. rewrite Ha. eapply Forall_impl; [done|]. apply word_ok_app.
  - simpl. by rewrite length_insert.
  - destruct Har as (rs & Hrs & Hin). exists (rs ++ [(k, v)]). split.
    + rewrite Ha, Hrs, fmap_app, concat_app. simpl. by rewrite app_nil_r.
    + intros kv [Hkv|Hkv]%entries_insert_sub; apply elem_of_app; [left; by apply Hin|right].
      simpl in Hkv. simplify_eq. by left.
  - simpl. rewrite len_splice by lia. pose proof (len_nonneg (record k v)). lia.
  - unfold kv_budget. lia.
Qed.

(** ** Compaction *)

Lemma tab_growSlot_spec oldlog free nt m b w k v :
  tab_rep nt m b -> word_ok oldlog w -> view oldlog w = VFull k v ->
  m !! k = None -> ft_used nt + 1 < len (ft_slots nt) -> 24 * (ft_used nt + 1) <= b ->
  ft_tail nt + len (record k v) <= len (ft_buf nt) -> ft_tail nt + len (record k v) <= b ->
  exists nt', growSlot (oldlog ++ free) nt w = Ok nt' /\ tab_rep nt' (<[k:=v]> m) b /\
    length (ft_slots nt') = length (ft_slots nt) /\ len (ft_buf nt') = len (ft_buf nt) /\
    ft_used nt' = ft_used nt + 1 /\ ft_tail nt' = ft_tail nt + len (record k v).
Proof.
  intros Hrep Hw Hv Hm Hroom Hsp Hbuf Hb. destruct (tab_lg _ _ _ Hrep) as (lg & Hlg & Hn).
  pose proof Hrep as [Hs Hok Hmask Har Htl Hspent Hbud].
  destruct (word_cases _ _ Hw) as [[_ E]|[[_ E]|(k' & v' & off & Hh & -> & Hoff & _ & _ & E)]];
    rewrite Hv in E; [done..|]. injection E as <- <-.
  unfold growSlot. rewrite packEntry_off by done.
  rewrite (holds_recordAt _ _ _ _ (holds_record_app _ _ _ _ free Hh)). cbn [obind].
  rewrite appendRecord_ok by lia. cbn [obind].
  rewrite Hmask, <- (length_fmap (view (arena nt)) (ft_slots nt)).
  match goal with |- context [probe_loop _ _ _ _ ?body] =>
    destruct (loop_first_empty hash64 _ k lg Hn ltac:(lia) (sz_room _ _ _ _ _ _ Hs) body
      (fun p => Ok (MkF2tab (<[p:=packEntry (hash64 k) (ft_tail nt)]> (ft_slots nt)) (ft_mask nt)
         (splice (ft_buf nt) (ft_tail nt) (record k v)) (ft_tail nt + len (record k v))
         (ft_live nt + 1) (ft_used nt + 1))))
      as (q & Hq & Hpath & ->) end.
  - intros p s Hp. destruct (word_lookup _ _ _ _ Hok Hp) as (x & -> & Hlt & -> & Hx). cbn [obind].
    destruct (word_cases _ _ Hx) as [[-> ->]|[[-> ->]|(? & ? & ? & _ & _ & _ & -> & _ & ->)]]; [|done..].
    simpl (0 =? 0). cbv iota. rewrite update_ok by done. cbn [obind]. by rewrite Hmask.
  - eexists. split; [done|]. simpl. rewrite length_insert, len_splice, ?length_fmap by lia.
    split_and!; try done. eapply tab_store; try done; [lia|].
    apply (sized_insert hash64 _ _ _ _ b b _ _ (-1) q q); try done.
    + rewrite length_fmap. unfold len in Hroom. lia.
    + split_and!; [done..|by left].
Qed.

(** The bytes a list of entries takes. *)
Fixpoint entries_size (es : list (bytes * bytes)) : Z :=
  match es with [] => 0 | (k, v) :: es' => len (record k v) + entries_size es' end.

Lemma entries_size_nonneg es : 0 <= entries_size es.
Proof. induction es as [|[k v] es IH]; cbn [entries_size]; [done|]. zlia. Qed.

Lemma entries_size_concat rs : len (concat (uncurry record <$> rs)) = entries_size rs.
Proof.
  induction rs as [|[k v] rs IH]; [done|]. rewrite fmap_cons. cbn [concat entries_size].
  rewrite len_app, IH. done.
Qed.

Lemma entries_size_submseteq es rs : es ⊆+ rs -> entries_size es <= entries_size rs.
Proof.
  induction 1 as [|[k v] es rs _ IH|[k v] [k' v'] es|[k v] es rs _ IH|es rs qs _ IH1 _ IH2];
    simpl; pose_len_nonneg; lia.
Qed.

(** The live records fit in what was written. *)
Lemma live_fits t m b :
  tab_rep t m b -> entries_size (entries (view (arena t) <$> ft_slots t)) <= ft_tail t.
Proof.
  intros [Hs _ _ (rs & Ha & Hin) Htl _ _].
  assert (entries_size rs = ft_tail t) as <-.
  { rewrite <- entries_size_concat, <- Ha. unfold arena, len in *. rewrite length_take. lia. }
  apply entries_size_submseteq, NoDup_submseteq; [|done].
  apply (NoDup_fmap_1 fst), nodup_entries, (tb_uniq _ _ _ (sz_table _ _ _ _ _ _ Hs)).
Qed.

Lemma tab_growLoop_spec oldlog free old : forall nt m b,
  let es := entries (view oldlog <$> old) in
  tab_rep nt m b -> Forall (word_ok oldlog) old -> NoDup es.*1 ->
  (forall k, k ∈ es.*1 -> m !! k = None) ->
  ft_used nt + len es < len (ft_slots nt) -> 24 * (ft_used nt + len es) <= b ->
  ft_tail nt + entries_size es <= len (ft_buf nt) -> ft_tail nt + entries_size es <= b ->
  exists nt', growLoop (oldlog ++ free) old nt = Ok nt' /\ tab_rep nt' (insert_all m es) b /\
    length (ft_slots nt') = length (ft_slots nt) /\ len (ft_buf nt') = len (ft_buf nt) /\
    ft_used nt' = ft_used nt + len es /\ ft_tail nt' = ft_tail nt + entries_size es.
Proof.
  induction old as [|w old IH]; intros nt m b es Hrep Hok Hnd Hfresh Hroom Hsp Hbuf Hb; unfold es in *.
  { exists nt. simpl in *. rewrite len_nil. split_and!; [done..|lia|lia]. }
  apply Forall_cons in Hok as [Hw Hok]. cbn [growLoop].
  revert Hnd Hfresh Hroom Hsp Hbuf Hb. rewrite fmap_cons, entries_cons.
  destruct (word_cases _ _ Hw) as [[-> ->]|[[-> ->]|(k & v & off & _ & _ & _ & -> & -> & Hv)]];
    [by apply IH..|]. rewrite Hv. cbn [orb entry fmap list_fmap entries_size fst].
  rewrite len_cons. intros [Hk Hnd]%NoDup_cons Hfresh Hroom Hsp Hbuf Hb.
  pose proof (entries_size_nonneg (entries (view oldlog <$> old))).
  pose proof (len_nonneg (entries (view oldlog <$> old))).
  destruct (tab_growSlot_spec oldlog free nt m b w k v) as (n1 & -> & Hrep1 & Hlen1 & Hb1 & Hu1 & Ht1);
    try done; try lia. { apply Hfresh. left. }
  cbn [obind]. destruct (IH n1 (<[k := v]> m) b) as (n2 & -> & Hrep2 & Hlen2 & Hb2 & Hu2 & Ht2); try done.
  - intros k' Hin. rewrite lookup_insert_ne by (intros E; apply Hk; by rewrite E).
    apply Hfresh. by right.
  - unfold len in *. lia.
  - lia.
  - lia.
  - lia.
  - exists n2. split_and!; [done..|congruence|lia|lia|lia].
Qed.

Lemma tab_overLoad_spec n lg :
  0 <= lg <= 62 -> 0 <= n < 2 ^ 52 ->
  overLoad n (2 ^ lg) = (6305039478318694 * 2 ^ lg <? (n + 1) * 2 ^ 53).
Proof. intros. unfold overLoad, f2MaxLoad. apply load_test_0_7; lia. Qed.

(** The doubling loop ends with room for one more entry than are live. *)
Lemma growSize_spec live : 0 <= live < 2 ^ 45 ->
  forall fuel lg, 0 <= lg <= 46 -> 46 < lg + Z.of_nat fuel ->
  exists lg', growSize fuel live (2 ^ lg) = Ok (2 ^ lg') /\ lg <= lg' <= 46 /\
    (live + 1) * 2 ^ 53 <= 6305039478318694 * 2 ^ lg' /\ 2 ^ lg' <= Z.max (2 ^ lg) (3 * (live + 1)).
Proof.
  intros Hlive. induction fuel as [|f IH]; intros lg Hlg Hf; [lia|]. cbn [growSize].
  rewrite tab_overLoad_spec by lia. case_zcmp.
  - assert (lg < 46) as Hlt.
    { destruct (Z.lt_ge_cases lg 46); [done|]. assert (lg = 46) as -> by lia. lia. }
    replace (2 ^ lg * 2) with (2 ^ (lg + 1)) by (rewrite Z.pow_add_r by lia; lia).
    destruct (IH (lg + 1)) as (lg' & -> & Hlg' & Hfit & Hmax); [lia..|].
    exists lg'. split_and!; [done|lia..|]. rewrite Z.pow_add_r in Hmax by lia.
    pose proof (pow2_pos lg). lia.
  - exists lg. split_and!; [done|lia..].
Qed.

Lemma newF2tab_rep slots cap lg b :
  slots = 2 ^ lg -> 0 <= lg <= 46 -> slots <= Z.max 1024 b -> 0 <= b <= kv_budget -> 0 <= cap ->
  tab_rep (newF2tab slots cap) ∅ b.
Proof.
  intros -> Hlg Hsz Hb Hcap. pose proof (pow2_pos lg ltac:(lia)).
  assert (2 ^ lg <= 2 ^ 46) by (apply Z.pow_le_mono_r; lia).
  assert (forall log, view log <$> ft_slots (newF2tab (2 ^ lg) cap) =
    replicate (Z.to_nat (2 ^ lg)) VEmpty) as Hv by (intros; simpl; by rewrite fmap_replicate).
  split; rewrite ?Hv; simpl; try lia.
  - apply (sized_empty _ _ lg); lia.
  - apply Forall_replicate. by left.
  - rewrite length_replicate, wrap64_id by zlia. lia.
  - exists []. split; [done|]. intros kv. unfold arena. simpl.
    destruct kv as [k v]. rewrite elem_of_entries. intros (q & [? _]%lookup_replicate). done.
  - unfold len. rewrite length_replicate. lia.
Qed.

Lemma tab_grow_spec t m b b' need :
  tab_rep t m b -> b <= b' <= kv_budget -> 24 * (ft_live t + 1) <= b' -> 0 <= need ->
  exists t', grow t need = Ok t' /\ tab_rep t' m b' /\ ft_used t' = ft_live t /\
    (ft_live t + 1) * 2 ^ 53 <= 6305039478318694 * len (ft_slots t') /\
    ft_tail t' + need <= len (ft_buf t') /\ ft_tail t' <= ft_tail t.
Proof.
  intros Hrep Hb Hlive Hneed. pose proof (live_fits _ _ _ Hrep) as Hfit.
  destruct (tab_lg _ _ _ Hrep) as (lg & Hlg & Hn). destruct (buf_arena t) as [free Hbuf].
  pose proof Hrep as [Hs Hok _ _ Htl Hsp Hb0]. rewrite length_fmap in Hn.
  unfold kv_budget in *. pose proof (sz_live _ _ _ _ _ _ Hs) as Hl. pose proof (sz_size _ _ _ _ _ _ Hs) as Hsz.
  rewrite length_fmap in Hsz.
  unfold grow. unfold len at 1. rewrite Hn.
  destruct (growSize_spec (ft_live t) ltac:(lia) 64 lg) as (lg' & -> & Hlg' & Hload & Hmax); [lia..|].
  cbn [obind]. rewrite Hbuf.
  set (cap := ft_tail t * 2 + need + 2 ^ 12).
  assert (len (entries (view (arena t) <$> ft_slots t)) = ft_live t) as Hent.
  { unfold len. by rewrite length_entries. }
  assert (len (ft_slots (newF2tab (2 ^ lg') cap)) = 2 ^ lg') as Hnl.
  { simpl. unfold len. rewrite length_replicate. pose proof (pow2_pos lg'). lia. }
  assert (len (ft_buf (newF2tab (2 ^ lg') cap)) = cap) as Hnb.
  { simpl. unfold len. rewrite length_replicate. lia. }
  destruct (tab_growLoop_spec (arena t) free (ft_slots t) (newF2tab (2 ^ lg') cap) ∅ b')
    as (t' & -> & Hrep' & Hlen' & Hbuf' & Hu' & Ht'); rewrite ?Hent, ?Hnl, ?Hnb; cbn [newF2tab ft_used ft_tail].
  - apply (newF2tab_rep _ _ lg'); try done; unfold kv_budget; lia.
  - done.
  - apply nodup_entries, (tb_uniq _ _ _ (sz_table _ _ _ _ _ _ Hs)).
  - intros. apply lookup_empty.
  - lia.
  - lia.
  - unfold cap. lia.
  - lia.
  - rewrite (insert_all_entries hash64 _ _ (sz_table _ _ _ _ _ _ Hs)) in Hrep'.
    cbn [newF2tab ft_used ft_tail] in Hu', Ht'. exists t'. split_and!; [done|done|lia| | |lia].
    + rewrite <- Hnl in Hload. unfold len in *. rewrite Hlen'. lia.
    + rewrite Hbuf', Hnb. unfold cap. lia.
Qed.

(** ** Put *)

Lemma tab_rep_mono t m b b' : tab_rep t m b -> b <= b' <= kv_budget -> tab_rep t m b'.
Proof.
  intros [Hs Hok Hmask Har Htl Hsp Hb] ?. split; try done; [eapply sized_mono; [done|lia]|lia..].
Qed.

(** Room for a record of [need] bytes and for one more slot, within a budget
    of [b] bytes. *)
Definition has_room (t : f2tab) (b need : Z) : Prop :=
  ft_used t + 1 < len (ft_slots t) /\ 24 * (ft_used t + 1) <= b /\
  ft_tail t + need <= len (ft_buf t) /\ ft_tail t + need <= b.

(** After the check at the top of [putLocked] the arena has room for the
    record and the index for its slot. *)
Lemma tab_make_room t m b key val :
  tab_rep t m b -> let c := op_cost (PutOp key val) in b + c <= kv_budget ->
  let need := recordSize key val in
  exists t1, makeRoom t need = Ok t1 /\ tab_rep t1 m (b + c) /\ has_room t1 (b + c) need.
Proof.
  intros Hrep c Hc need. pose proof (op_cost_pos (PutOp key val)) as Hcp. fold c in Hcp.
  assert (0 <= need /\ need <= c) as [Hneed Hnc].
  { unfold need, c, op_cost. rewrite recordSize_len. pose proof (len_record key val). simpl. zlia. }
  assert (need <= c - 4) as Hnc4.
  { unfold need, c, op_cost. rewrite recordSize_len. pose proof (len_record key val). simpl. lia. }
  destruct (tab_lg _ _ _ Hrep) as (lg & Hlg & Hn). pose proof Hrep as [Hs _ _ _ Htl Hsp Hb].
  rewrite length_fmap in Hn. pose proof (sz_used _ _ _ _ _ _ Hs) as Hu.
  pose proof (sz_live _ _ _ _ _ _ Hs) as Hl. pose proof (sz_spent _ _ _ _ _ _ Hs) as Hsp24.
  pose proof (live_le_used (view (arena t) <$> ft_slots t)) as Hlu. unfold kv_budget, makeRoom, noRoom in *.
  destruct (_ || _) eqn:Ecase.
  - destruct (tab_grow_spec t m b (b + c) need Hrep) as (t1 & -> & Hrep1 & Hu1 & Hload & Hroom & Hle);
      [unfold kv_budget; lia|lia|done|].
    exists t1. unfold has_room. split_and!; [done|done| |lia|lia|lia]. lia.
  - apply orb_false_iff in Ecase as [Ebuf Eload]. unfold len in Eload. rewrite Hn in Eload.
    rewrite tab_overLoad_spec in Eload by lia. apply Z.ltb_ge in Eload.
    rewrite Z.gtb_ltb in Ebuf. apply Z.ltb_ge in Ebuf.
    exists t. unfold has_room. split_and!; [done| |unfold len; rewrite Hn; lia|lia|lia|lia].
    apply (tab_rep_mono _ _ _ _ Hrep). unfold kv_budget. lia.
Qed.

(** Installing is one slot write: over the key's own slot when the table holds
    the key, else into a slot that held none. *)
Lemma tab_install_spec t1 m b' key val :
  has_room t1 b' (recordSize key val) -> tab_rep t1 m b' ->
  exists t' q, install t1 (hash64 key) key val = Ok t' /\ tab_rep t' (<[key:=val]> m) b' /\
    slots_of t' = <[q:=VFull key val]> (slots_of t1) /\
    (m !! key = None \/ exists w, slots_of t1 !! q = Some (VFull key w)).
Proof.
  intros (Hroom & Hsp & Hbuf & Hb') Hrep. unfold install. rewrite recordSize_len in *. destruct (tab_lg _ _ _ Hrep) as (lg & Hlg & Hn).
  pose proof Hrep as [Hs Hok Hmask _ Htl _ Hb]. rewrite appendRecord_ok by lia. cbn [obind].
  assert (exists free, splice (ft_buf t1) (ft_tail t1) (record key val) = arena t1 ++ free) as [free Hfree].
  { by eexists. }
  rewrite Hmask, <- (length_fmap (view (arena t1)) (ft_slots t1)).
  set (e := packEntry (hash64 key) (ft_tail t1)).
  set (mk sl live used := MkF2tab sl (ft_mask t1) (splice (ft_buf t1) (ft_tail t1) (record key val))
    (ft_tail t1 + len (record key val)) live used).
  match goal with |- context [probe_loop _ _ _ _ ?body] =>
    destruct (loop_insert hash64 _ m key lg Hn ltac:(lia) (sz_table _ _ _ _ _ _ Hs)
      (sz_room _ _ _ _ _ _ Hs) body
      (fun p => Ok (mk (<[p:=e]> (ft_slots t1)) (ft_live t1) (ft_used t1)))
      (fun ft p => if ft >=? 0
        then obind (update (ft_slots t1) ft e) (fun sl => Ok (mk sl (ft_live t1 + 1) (ft_used t1)))
        else obind (update (ft_slots t1) (Z.of_nat p) e)
          (fun sl => Ok (mk sl (ft_live t1 + 1) (ft_used t1 + 1)))))
      as [(p & v & Hp & _ & ->)|(ft & p & q & Hm & Hins & ->)] end.
  - intros ft p s Hp. destruct (word_lookup _ _ _ _ Hok Hp) as (w & -> & Hlt & -> & Hw). cbn [obind].
    destruct (word_cases _ _ Hw) as [[-> ->]|[[-> ->]|(k & v & off & Hh & -> & Hoff & -> & -> & ->)]].
    + simpl (0 =? 0). cbv iota. rewrite <- Hmask. by destruct (ft >=? 0), (update _ _ _).
    + done.
    + rewrite Hfree.
      match goal with |- context [obind (update _ _ ?x) ?g] =>
        rewrite (word_key_test _ free k v off key
          (fun _ => obind (update (ft_slots t1) (Z.of_nat p) x) g) (Ok (inl ft)) Hh Hoff) end.
      case_decide as Hk; [|done]. rewrite update_ok by done. cbn [obind].
      unfold mk. by rewrite Hmask, Hfree.
  - destruct (tab_store t1 m b' b' p key val (<[key:=val]> m) (ft_live t1) (ft_used t1)) as [Hrep' Hv];
      try done; try lia; [rewrite <- (Z.add_0_r b'); by eapply sized_overwrite|].
    eexists _, p. split_and!; [done|exact Hrep'|exact Hv|eauto].
  - destruct (tab_store t1 m b' b' q key val (<[key:=val]> m) (ft_live t1 + 1)
      (if ft >=? 0 then ft_used t1 else ft_used t1 + 1)) as [Hrep' Hv]; try done; try lia.
    { eapply (sized_insert hash64 _ _ _ _ b' b' key val ft p q); try done.
      rewrite length_fmap. unfold len in Hroom. lia. }
    exists (mk (<[q:=e]> (ft_slots t1)) (ft_live t1 + 1) (if ft >=? 0 then ft_used t1 else ft_used t1 + 1)), q.
    split_and!; [|exact Hrep'|exact Hv|by left]. rewrite Z.geb_leb.
    destruct (insert_at_update hash64 (view (arena t1) <$> ft_slots t1) key (ft_slots t1) ft p q e)
      as [[? ->]|[-> ->]]; [by rewrite length_fmap|done| |done]. case_zcmp; [done|lia].
Qed.

Lemma tab_put_spec t m b key val :
  tab_rep t m b -> b + op_cost (PutOp key val) <= kv_budget ->
  exists t', putLocked t (hash64 key) key val = Ok t' /\
    tab_rep t' (<[key:=val]> m) (b + op_cost (PutOp key val)).
Proof.
  intros Hrep Hbud. unfold putLocked.
  destruct (tab_make_room t m b key val Hrep Hbud) as (t1 & -> & Hrep1 & Hroom). cbn [obind].
  destruct (tab_install_spec _ _ _ _ _ Hroom Hrep1) as (t' & _ & -> & Hrep' & _). eauto.
Qed.

(** ** The engine: 256 tables, each agreeing with the map on its own keys *)

Definition shardIx (key : bytes) : nat := Z.to_nat (Z.shiftr (hash64 key) 56 mod 256).

Record f2_rep (e : f2) (m : gmap bytes bytes) (b : Z) : Prop := {
  fr_mask : f2_mask e = 255;
  fr_len : length (f2_shards e) = 256%nat;
  fr_budget : 0 <= b <= kv_budget;
  fr_tab : forall i t, f2_shards e !! i = Some t ->
    exists mi, tab_rep t mi b /\ forall k, shardIx k = i -> mi !! k = m !! k }.

Lemma f2_shard e m b key :
  f2_rep e m b ->
  exists t mi, shardFor e (hash64 key) = Z.of_nat (shardIx key) /\
    f2_shards e !! shardIx key = Some t /\ tab_rep t mi b /\
    forall k, shardIx k = shardIx key -> mi !! k = m !! k.
Proof.
  intros [Hmask Hlen _ Htab]. assert (shardIx key < 256)%nat as Hlt.
  { unfold shardIx. pose proof (Z.mod_pos_bound (Z.shiftr (hash64 key) 56) 256). lia. }
  destruct (lookup_lt_is_Some_2 (f2_shards e) (shardIx key) ltac:(lia)) as [t Ht].
  destruct (Htab _ _ Ht) as (mi & Hrep & Hm). exists t, mi. split_and!; [|done..].
  unfold shardFor. rewrite Hmask. change 255 with (2 ^ 8 - 1). rewrite land_mask by lia.
  unfold shardIx. change (2 ^ 8) with 256. pose proof (Z.mod_pos_bound (Z.shiftr (hash64 key) 56) 256). lia.
Qed.

Lemma f2_get_spec e m b key : f2_rep e m b -> Get e key = Ok (m !! key).
Proof.
  intros Hrep. destruct (f2_shard e m b key Hrep) as (t & mi & Hs & Ht & Htr & Hm).
  unfold Get. rewrite Hs, (index_ok _ _ _ Ht). cbn [obind].
  by rewrite (tabGet_spec _ _ _ key Htr), Hm.
Qed.

(** Updating the table of [key]'s shard by a write of [key] updates the map. *)
Lemma onShard_spec e m b b' key f g :
  f2_rep e m b -> b <= b' <= kv_budget ->
  (forall mi, (g mi : gmap bytes bytes) !! key = g m !! key) ->
  (forall mi k, k <> key -> g mi !! k = mi !! k) ->
  (forall t mi, tab_rep t mi b -> exists t', f t = Ok t' /\ tab_rep t' (g mi) b') ->
  exists e', onShard e (hash64 key) f = Ok e' /\ f2_rep e' (g m) b'.
Proof.
  intros Hrep Hb Hg Hne Hf. destruct (f2_shard e m b key Hrep) as (t & mi & Hs & Ht & Htr & Hm).
  pose proof Hrep as [Hmask Hlen Hbud Htab]. unfold onShard. rewrite Hs, (index_ok _ _ _ Ht). cbn [obind].
  destruct (Hf t mi Htr) as (t' & -> & Htr'). cbn [obind].
  rewrite update_ok by (by eapply lookup_lt_Some). cbn [obind]. eexists. split; [done|].
  split; cbn [f2_mask f2_shards]; [exact Hmask|rewrite length_insert; exact Hlen|lia|].
  intros i x [(<- & <- & _)|[Hni Hx]]%list_lookup_insert_Some.
  - exists (g mi). split; [done|]. intros k Hk. destruct (decide (k = key)) as [->|Hkn]; [done|].
    rewrite !Hne by done. by apply Hm.
  - destruct (Htab _ _ Hx) as (mx & Hx' & Hmx). exists mx.
    split; [by eapply tab_rep_mono|]. intros k Hk. rewrite Hne by (by intros ->). by apply Hmx.
Qed.

Lemma f2_put_spec e m b key val :
  f2_rep e m b -> b + op_cost (PutOp key val) <= kv_budget ->
  exists e', Put e key val = Ok e' /\ f2_rep e' (<[key:=val]> m) (b + op_cost (PutOp key val)).
Proof.
  intros Hrep Hb. pose proof (op_cost_pos (PutOp key val)).
  apply (onShard_spec e m b _ key _ (fun m => <[key:=val]> m) Hrep); [lia| | |].
  - intros. by rewrite !lookup_insert_eq.
  - intros. by rewrite lookup_insert_ne.
  - intros. by apply tab_put_spec.
Qed.

Lemma f2_delete_spec e m b key :
  f2_rep e m b -> exists e', Delete e key = Ok e' /\ f2_rep e' (delete key m) b.
Proof.
  intros Hrep. pose proof (fr_budget _ _ _ Hrep).
  apply (onShard_spec e m b b key _ (fun m => delete key m) Hrep); [lia| | |].
  - intros. by rewrite !lookup_delete_eq.
  - intros. by rewrite lookup_delete_ne.
  - intros. destruct (tab_delete_spec t mi b key) as (t' & ? & ? & _); eauto.
Qed.

Lemma f2_rep_mono e m b b' : f2_rep e m b -> b <= b' <= kv_budget -> f2_rep e m b'.
Proof.
  intros [Hmask Hlen Hb Htab] ?. split; [exact Hmask|exact Hlen|lia|]. intros i t Ht.
  destruct (Htab _ _ Ht) as (mi & ? & ?). exists mi. split; [by eapply tab_rep_mono|done].
Qed.

#[global] Instance f2_store : KVStore f2.
Proof.
  refine {| kv_rep := f2_rep |}.
  - intros. by eapply f2_get_spec.
  - intros. by apply f2_put_spec.
  - intros. by apply f2_delete_spec.
  - intros e m b ops. apply (apply_in_order f2_rep Put Delete).
    + apply f2_rep_mono.
    + apply f2_put_spec.
    + intros. by apply f2_delete_spec.
    + done.
    + intros ? [[] ? ?] ?; reflexivity.
Defined.

Lemma newF2_rep : f2_rep newF2 ∅ 0.
Proof.
  split; [done| |done|].
  - unfold newF2. cbn [f2_shards]. by rewrite length_replicate.
  - unfold newF2. cbn [f2_shards]. intros i t [-> _]%lookup_replicate. exists ∅.
    split; [|done]. apply (newF2tab_rep _ _ 9); unfold kv_budget; lia.
Qed.

(** C3: [f2] refines a finite map: sharding, tags packed with offsets, the
    arena and its compaction keep every session of gets, puts, deletes and
    batches within the byte budget in step with the map. *)
Theorem f2_refines_map rs :
  session_cost rs <= kv_budget ->
  exists e' b, run_session newF2 rs = Ok ((map_session ∅ rs).1, e') /\
    f2_rep e' (map_session ∅ rs).2 b.
Proof.
  intros Hc. assert (kv_rep newF2 ∅ 0) as Hnew by exact newF2_rep.
  destruct (session_refines_map newF2 ∅ 0 rs Hnew) as (e' & b & Hr & Hrep & _); [lia|].
  exists e', b. split; [exact Hr|exact Hrep].
Qed.

Lemma f2_refines_map_witness :
  exists e' b, run_session newF2 demo_session = Ok ((map_session ∅ demo_session).1, e') /\
    f2_rep e' (map_session ∅ demo_session).2 b.
Proof. apply (f2_refines_map demo_session). vm_compute. discriminate. Defined.
