(* ===== verification/F2Readers.v ===== *)
(** * f2's lock-free readers (adapters/inmem/inmem.go)

    [f2.Get] takes no lock: it loads the pointer to its shard's table once and
    then loads one index word after the other, while a writer that holds the
    shard's lock may be at work.  A writer does at most two things a reader can
    see: it publishes a fresh table ([grow]), and it stores one index word.
    This file runs one reader against the writers of its shard, one visible
    step at a time and in any order, and shows that the reader always returns
    and that what it returns is what the shard held at some moment of the run.

    The bytes of a record are written past the tail, where no installed word
    points, before its word is stored, so appending the record and storing the
    word are one step here.  Tables that were replaced stay readable: a reader
    that loaded the old pointer goes on in the old table. *)

From S2P Require Import Prelude Codec Engine OpenAddr Inmem F2.
Local Open Scope go_scope.

(** ** The shard, its writer and the reader *)

Inductive reader :=
| Probing (tab : nat) (i : Z)
| Returned (res : option bytes).

(** [sy_old] holds the tables that were replaced, oldest first; a table is
    named by its place in [sy_old ++ [sy_cur]].  [sy_pending] is the write of
    the lock holder that has made room but not stored its word yet. *)
Record system := MkSystem {
  sy_old : list f2tab;
  sy_cur : f2tab;
  sy_pending : option (bytes * bytes);
  sy_reader : reader }.

Definition tables (s : system) : list f2tab := sy_old s ++ [sy_cur s].

(** Whose turn it is: a writer takes the lock and makes room for a put, the
    lock holder stores its word, a writer deletes, or the reader loads a word. *)
Inductive event :=
| EPut (key val : bytes)
| EInstall
| EDelete (key : bytes)
| ERead.

(** [grow] publishes the fresh table; the old one is never written again. *)
Definition publish (s : system) (need : Z) (pending : option (bytes * bytes)) : outcome system :=
  let t := sy_cur s in
  if noRoom t need
  then let* nt := grow t need in Ok (MkSystem (sy_old s ++ [t]) nt pending (sy_reader s))
  else Ok (MkSystem (sy_old s) t pending (sy_reader s)).

(** The reader's iteration, on the table it started with. *)
Definition readStep (key : bytes) (s : system) : outcome system :=
  match sy_reader s with
  | Returned _ => Ok s
  | Probing j i =>
      let* t := index (tables s) (Z.of_nat j) in
      let* x := getBody t (hash64 key) key tt i in
      let r := match x with
               | inl _ => Probing j ((i +64 1) &64 ft_mask t)
               | inr res => Returned res
               end in
      Ok (MkSystem (sy_old s) (sy_cur s) (sy_pending s) r)
  end.

(** A writer that finds the lock taken waits, and one with nothing pending has
    nothing to store: such a turn changes nothing. *)
Definition sysStep (rkey : bytes) (s : system) (e : event) : outcome system :=
  match e, sy_pending s with
  | EPut key val, None => publish s (recordSize key val) (Some (key, val))
  | EInstall, Some (key, val) =>
      let* t := install (sy_cur s) (hash64 key) key val in
      Ok (MkSystem (sy_old s) t None (sy_reader s))
  | EDelete key, None =>
      let* t := deleteLocked (sy_cur s) (hash64 key) key in
      Ok (MkSystem (sy_old s) t None (sy_reader s))
  | ERead, _ => readStep rkey s
  | _, _ => Ok s
  end.

Fixpoint runEvents (rkey : bytes) (s : system) (es : list event) : outcome system :=
  match es with
  | [] => Ok s
  | e :: es' => let* s' := sysStep rkey s e in runEvents rkey s' es'
  end.

(** The reader starts: it has loaded the pointer to the current table. *)
Definition startGet (rkey : bytes) (t : f2tab) : system :=
  MkSystem [] t None (Probing 0 (hash64 rkey &64 ft_mask t)).

(** ** What the shard means: the map the stored words spell out *)

Definition absStep (a : gmap bytes bytes * option (bytes * bytes)) (e : event)
    : gmap bytes bytes * option (bytes * bytes) :=
  let (m, p) := a in
  match e, p with
  | EPut key val, None => (m, Some (key, val))
  | EInstall, Some (key, val) => (<[key:=val]> m, None)
  | EDelete key, None => (delete key m, None)
  | _, _ => (m, p)
  end.

Definition absRun (m : gmap bytes bytes) (es : list event) : gmap bytes bytes * option (bytes * bytes) :=
  foldl absStep (m, None) es.

Definition event_cost (e : event) : Z :=
  match e with EPut key val => op_cost (PutOp key val) | _ => 0 end.
Definition events_cost (es : list event) : Z := foldr (fun e c => event_cost e + c) 0 es.

#[local] Instance event_eq_dec : EqDecision event.
Proof. solve_decision. Defined.

(** The turns the reader got. *)
Definition reads (es : list event) : nat := length (filter (fun e => e = ERead) es).

(** [m] was the map of the shard after some prefix of the events. *)
Definition seen (m0 : gmap bytes bytes) (es : list event) (m : gmap bytes bytes) : Prop :=
  exists es1 es2, es = es1 ++ es2 /\ (absRun m0 es1).1 = m.

(** ** Bookkeeping *)

Lemma runEvents_snoc rkey s es e :
  runEvents rkey s (es ++ [e]) = obind (runEvents rkey s es) (fun s' => sysStep rkey s' e).
Proof.
  revert s. induction es as [|x es IH]; intros s; cbn [runEvents app].
  - cbn [obind]. by destruct (sysStep rkey s e).
  - destruct (sysStep rkey s x); cbn [obind]; [apply IH|done..].
Qed.

Lemma absRun_snoc m0 es e : absRun m0 (es ++ [e]) = absStep (absRun m0 es) e.
Proof. unfold absRun. by rewrite foldl_snoc. Qed.

Lemma events_cost_snoc es e : events_cost (es ++ [e]) = events_cost es + event_cost e.
Proof. unfold events_cost. induction es as [|x es IH]; simpl; lia. Qed.

Lemma event_cost_nonneg e : 0 <= event_cost e.
Proof. destruct e as [k v| | |]; simpl; try lia. pose proof (op_cost_pos (PutOp k v)). lia. Qed.

Lemma events_cost_nonneg es : 0 <= events_cost es.
Proof. induction es as [|e es IH]; simpl; [lia|]. pose proof (event_cost_nonneg e). lia. Qed.

Lemma reads_snoc es e : reads (es ++ [e]) = (reads es + if decide (e = ERead) then 1 else 0)%nat.
Proof. unfold reads. rewrite filter_app, length_app, filter_cons. by destruct (decide (e = ERead)). Qed.

Lemma seen_snoc m0 es e m : seen m0 es m -> seen m0 (es ++ [e]) m.
Proof. intros (es1 & es2 & -> & Hm). exists es1, (es2 ++ [e]). by rewrite app_assoc. Qed.

Lemma seen_now m0 es : seen m0 es (absRun m0 es).1.
Proof. exists es, []. by rewrite app_nil_r. Qed.

(** ** The reader's invariant

    The words passed so far are not empty, and either the key was absent at
    some moment or none of them holds the key. *)

Section Reader.
Context (m0 : gmap bytes bytes) (rkey : bytes).

Definition absent (es : list event) : Prop := exists m, seen m0 es m /\ m !! rkey = None.

Definition passed (es : list event) (vs : list (slotview bytes bytes)) (n : nat) : Prop :=
  (forall t, (t < n)%nat -> vs !! pos (length vs) (hash64 rkey) t <> Some VEmpty) /\
  (absent es \/ forall t v, (t < n)%nat -> vs !! pos (length vs) (hash64 rkey) t <> Some (VFull rkey v)).

(** The reader's table, frozen or current, holds a map the shard had. *)
Definition probing (es : list event) (s : system) (size j : nat) (i : Z) : Prop :=
  exists t m b, tables s !! j = Some t /\ tab_rep t m b /\ seen m0 es m /\
    (j = length (sy_old s) -> m = (absRun m0 es).1) /\ length (slots_of t) = size /\
    i = Z.of_nat (pos size (hash64 rkey) (reads es)) /\ passed es (slots_of t) (reads es).

Record sysinv (size : nat) (es : list event) (s : system) (b : Z) : Prop := {
  si_cur : tab_rep (sy_cur s) (absRun m0 es).1 b;
  si_pending : sy_pending s = (absRun m0 es).2;
  si_room : forall k v, sy_pending s = Some (k, v) -> has_room (sy_cur s) b (recordSize k v);
  si_reader :
    match sy_reader s with
    | Probing j i => probing es s size j i
    | Returned res => exists m, seen m0 es m /\ m !! rkey = res
    end }.

Lemma passed_snoc es e vs n : passed es vs n -> passed (es ++ [e]) vs n.
Proof.
  intros [Hne [(m & Hm & Ha)|Hno]]; (split; [done|]); [left|by right].
  exists m. split; [by apply seen_snoc|done].
Qed.

(** A slot write moves no word the reader passed back to empty, and puts the
    key behind the reader only if the key was absent. *)
Lemma passed_write es e vs n q x m :
  passed es vs n -> x <> VEmpty -> seen m0 es m ->
  (forall v, x = VFull rkey v -> m !! rkey = None \/ exists w, vs !! q = Some (VFull rkey w)) ->
  passed (es ++ [e]) (<[q:=x]> vs) n.
Proof.
  intros [Hne Hold] Hx Hm Hkey. unfold passed. rewrite length_insert. split.
  { intros t Ht [(_ & ? & _)|[_ Hp]]%list_lookup_insert_Some; [done|]. by apply (Hne t). }
  destruct Hold as [(m' & Hm' & Ha)|Hno]; [left; exists m'; split; [by apply seen_snoc|done]|].
  destruct (decide (m !! rkey = None)) as [Ha|Hpres]; [left; exists m; split; [by apply seen_snoc|done]|].
  right. intros t v Ht [(Hq & Hxv & _)|[_ Hp]]%list_lookup_insert_Some; [|by apply (Hno t v)].
  destruct (Hkey v Hxv) as [?|[w Hw]]; [done|]. apply (Hno t w Ht). by rewrite <- Hq.
Qed.

(** The current table is rewritten in place. *)
Lemma probing_write es e s size j i t' m' b' pend :
  probing es s size j i -> tab_rep t' m' b' -> (absRun m0 (es ++ [e])).1 = m' -> e <> ERead ->
  (slots_of t' = slots_of (sy_cur s) \/ exists q x, slots_of t' = <[q:=x]> (slots_of (sy_cur s)) /\
     x <> VEmpty /\ (forall v, x = VFull rkey v ->
       (absRun m0 es).1 !! rkey = None \/ exists w, slots_of (sy_cur s) !! q = Some (VFull rkey w))) ->
  probing (es ++ [e]) (MkSystem (sy_old s) t' pend (Probing j i)) size j i.
Proof.
  intros (t & m & b & Ht & Hrep & Hseen & Hcur & Hsz & Hi & Hp) Hrep' Hm' He Hshape.
  assert (reads (es ++ [e]) = reads es) as Hr by (rewrite reads_snoc, decide_False by done; lia).
  unfold probing. rewrite Hr. unfold tables in *. cbn [sy_old sy_cur].
  destruct (decide (j = length (sy_old s))) as [->|Hj].
  - rewrite lookup_app_r, Nat.sub_diag in Ht by lia. injection Ht as <-.
    exists t', m', b'. rewrite lookup_app_r, Nat.sub_diag by lia. subst m'.
    split_and!; [done|done|apply seen_now|done| |done|];
      destruct Hshape as [->|(q & x & -> & Hx & Hk)]; rewrite ?length_insert; try done.
    + by apply passed_snoc.
    + eapply passed_write; [done|done|apply seen_now|done].
  - pose proof (lookup_lt_Some _ _ _ Ht) as Hlt. rewrite length_app in Hlt. simpl in Hlt.
    rewrite lookup_app_l in Ht by lia. exists t, m, b. rewrite lookup_app_l by lia.
    split_and!; [done|done|by apply seen_snoc|done|done|done|by apply passed_snoc].
Qed.

(** A fresh table is published; the reader's stays as it was. *)
Lemma probing_publish es e s size j i nt pend :
  probing es s size j i -> e <> ERead ->
  probing (es ++ [e]) (MkSystem (sy_old s ++ [sy_cur s]) nt pend (Probing j i)) size j i.
Proof.
  intros (t & m & b & Ht & Hrep & Hseen & _ & Hsz & Hi & Hp) He.
  assert (reads (es ++ [e]) = reads es) as Hr by (rewrite reads_snoc, decide_False by done; lia).
  unfold probing. rewrite Hr. unfold tables in *. cbn [sy_old sy_cur].
  pose proof (lookup_lt_Some _ _ _ Ht) as Hlt. exists t, m, b. rewrite lookup_app_l by done.
  split_and!; [done|done|by apply seen_snoc| |done|done|by apply passed_snoc]. lia.
Qed.

Lemma absRun_read es : absRun m0 (es ++ [ERead]) = absRun m0 es.
Proof. rewrite absRun_snoc. by destruct (absRun m0 es) as [m [[]|]]. Qed.

(** The table has an empty word, which the reader has not passed. *)
Lemma probing_bound es s size j i : probing es s size j i -> (reads es < size)%nat.
Proof.
  intros (t & m & b & _ & Hrep & _ & _ & <- & _ & Hne & _). destruct Hrep as [Hs _ _ _ _ _ _].
  destruct (used_count_room _ (sz_room _ _ _ _ _ _ Hs)) as [q Hq].
  destruct (pos_surj _ (hash64 rkey) q (lookup_lt_Some _ _ _ Hq)) as (u & Hu & Hpu).
  destruct (decide (u < reads es)%nat) as [Hlt|]; [|lia]. destruct (Hne u Hlt). by rewrite Hpu.
Qed.

(** An empty word ends the search only when the key was absent. *)
Lemma passed_empty es t m b n :
  tab_rep t m b -> seen m0 es m -> passed es (slots_of t) n ->
  slots_of t !! pos (length (slots_of t)) (hash64 rkey) n = Some VEmpty -> absent es.
Proof.
  intros Hrep Hseen [_ [Ha|Hno]] He; [done|]. exists m. split; [done|].
  destruct Hrep as [[_ Htab _ _ _ _ _] _ _ _ _ _ _]. eapply table_absent; [done|]. intros q v Hq.
  destruct (tb_path _ _ _ Htab _ _ _ Hq) as (u & Hu & Hpu & Hpath).
  destruct (decide (u < n)%nat) as [Hlt|]; [apply (Hno u v Hlt); by rewrite Hpu|].
  destruct (decide (u = n)) as [->|]; [rewrite Hpu in He; congruence|].
  apply (Hpath n); [lia|done].
Qed.

Lemma probing_read es s size j i :
  probing es s size j i -> sy_reader s = Probing j i ->
  exists r, readStep rkey s = Ok (MkSystem (sy_old s) (sy_cur s) (sy_pending s) r) /\
    match r with
    | Probing j' i' => probing (es ++ [ERead]) (MkSystem (sy_old s) (sy_cur s) (sy_pending s) r) size j' i'
    | Returned res => exists m, seen m0 (es ++ [ERead]) m /\ m !! rkey = res
    end.
Proof.
  intros Hpr Hr. pose proof (probing_bound _ _ _ _ _ Hpr) as Hlt.
  destruct Hpr as (t & m & b & Ht & Hrep & Hseen & Hcur & <- & -> & Hp).
  destruct (tab_lg _ _ _ Hrep) as (lg & Hlg & Hn). pose proof Hrep as [Hs Hok Hmask _ _ _ _].
  unfold readStep. rewrite Hr, (index_ok _ _ _ Ht). cbn [obind].
  destruct (lookup_lt_is_Some_2 (slots_of t) (pos (length (slots_of t)) (hash64 rkey) (reads es))) as [x Hx].
  { apply pos_lt. lia. }
  rewrite (getBody_spec _ _ _ _ Hok Hx).
  assert (~ full_of x rkey -> x <> VEmpty ->
    probing (es ++ [ERead]) (MkSystem (sy_old s) (sy_cur s) (sy_pending s)
      (Probing j ((Z.of_nat (pos (length (slots_of t)) (hash64 rkey) (reads es)) +64 1) &64 ft_mask t)%go))
      (length (slots_of t)) j
      ((Z.of_nat (pos (length (slots_of t)) (hash64 rkey) (reads es)) +64 1) &64 ft_mask t)%go) as Hgo.
  { intros Hnf Hne. exists t, m, b. rewrite absRun_read, reads_snoc, decide_True, Nat.add_1_r by done.
    split_and!; [done|done|by apply seen_snoc|done|done|rewrite Hmask; by rewrite (pos_succ _ lg) by lia|].
    apply (passed_snoc _ ERead) in Hp as [Hpe Hpk]. split; [|destruct Hpk as [?|Hpk]; [by left|right]].
    - intros u Hu Hv. destruct (decide (u = reads es)) as [->|]; [congruence|]. apply (Hpe u); [lia|done].
    - intros u v Hu Hv. destruct (decide (u = reads es)) as [->|]; [|by apply (Hpk u v); [lia|]].
      apply Hnf. exists v. congruence. }
  destruct x as [|k v|]; [| |].
  - exists (Returned None). split; [done|]. destruct (passed_empty _ _ _ _ _ Hrep Hseen Hp Hx) as (m' & ? & ?).
    exists m'. split; [by apply seen_snoc|done].
  - case_decide as Hk; cbn [obind].
    + subst k. exists (Returned (Some v)). split; [done|]. exists m. split; [by apply seen_snoc|].
      apply (tb_map _ _ _ (sz_table _ _ _ _ _ _ Hs)). eauto.
    + eexists. split; [done|]. apply Hgo; [intros [? [= ? ?]]; done|done].
  - eexists. split; [done|]. apply Hgo; [by intros [? ?]|done].
Qed.

(** ** Every step keeps the invariant *)

Lemma reader_kept es e s size b r s' :
  sysinv size es s b -> sy_reader s = r ->
  (forall j i, r = Probing j i -> probing (es ++ [e]) s' size j i) ->
  match r with
  | Probing j i => probing (es ++ [e]) s' size j i
  | Returned res => exists m, seen m0 (es ++ [e]) m /\ m !! rkey = res
  end.
Proof.
  intros [_ _ _ Hrd] Hr Hkeep. rewrite Hr in Hrd. destruct r as [j i|res]; [by apply Hkeep|].
  destruct Hrd as (m & Hm & Hres). exists m. split; [by apply seen_snoc|done].
Qed.

(** A turn without effect. *)
Lemma sysinv_idle size es e s b :
  sysinv size es s b -> absStep (absRun m0 es) e = absRun m0 es -> e <> ERead ->
  sysinv size (es ++ [e]) s b.
Proof.
  intros Hinv Habs He. pose proof Hinv as [Hcur Hpend Hroom Hrd]. split; rewrite ?absRun_snoc, ?Habs; try done.
  eapply reader_kept; [done|done|]. intros j i Hj. rewrite Hj in Hrd.
  destruct s as [old cur pend r]. simpl in Hj. subst r.
  apply (probing_write es e (MkSystem old cur pend (Probing j i)) size j i cur (absRun m0 es).1 b pend);
    [done|done|by rewrite absRun_snoc, Habs|done|by left].
Qed.

Lemma sysinv_put size es s b key val :
  sysinv size es s b -> sy_pending s = None -> b + op_cost (PutOp key val) <= kv_budget ->
  exists s', publish s (recordSize key val) (Some (key, val)) = Ok s' /\
    sysinv size (es ++ [EPut key val]) s' (b + op_cost (PutOp key val)).
Proof.
  intros Hinv Hnone Hb. pose proof Hinv as [Hcur Hpend Hroom Hrd].
  assert (absRun m0 (es ++ [EPut key val]) = ((absRun m0 es).1, Some (key, val))) as Habs.
  { rewrite absRun_snoc. rewrite Hnone in Hpend. destruct (absRun m0 es); simpl in *. by subst. }
  destruct (tab_make_room _ _ _ key val Hcur Hb) as (t1 & Hmk & Hrep1 & Hhas).
  unfold publish. unfold makeRoom in Hmk. destruct (noRoom _ _).
  - rewrite Hmk. cbn [obind]. eexists. split; [done|]. split; cbn [sy_cur sy_pending sy_reader];
      rewrite ?Habs; [done|done|by intros ? ? [= <- <-]|].
    eapply reader_kept; [done|done|]. intros j i Hj. rewrite Hj in *. by apply probing_publish.
  - injection Hmk as <-. eexists. split; [done|]. split; cbn [sy_cur sy_pending sy_reader];
      rewrite ?Habs; [done|done|by intros ? ? [= <- <-]|].
    eapply reader_kept; [done|done|]. intros j i Hj. rewrite Hj in *.
    eapply probing_write; [done|done|by rewrite Habs|done|by left].
Qed.

Lemma sysinv_install size es s b key val :
  sysinv size es s b -> sy_pending s = Some (key, val) ->
  exists s', sysStep rkey s EInstall = Ok s' /\ sysinv size (es ++ [EInstall]) s' b.
Proof.
  intros Hinv Hsome. pose proof Hinv as [Hcur Hpend Hroom Hrd].
  assert (absRun m0 (es ++ [EInstall]) = (<[key:=val]> (absRun m0 es).1, None)) as Habs.
  { rewrite absRun_snoc. rewrite Hsome in Hpend. destruct (absRun m0 es); simpl in *. by subst. }
  destruct (tab_install_spec _ _ _ key val (Hroom _ _ Hsome) Hcur) as (t' & q & Hin & Hrep' & Hv & Hkey).
  unfold sysStep. rewrite Hsome, Hin. cbn [obind]. eexists. split; [done|].
  split; cbn [sy_cur sy_pending sy_reader]; rewrite ?Habs; [done|done|done|].
  eapply reader_kept; [done|done|]. intros j i Hj. rewrite Hj in *.
  eapply probing_write; [done|done|by rewrite Habs|done|]. right. exists q, (VFull key val).
  split_and!; [done|done|]. intros v [= -> _]. done.
Qed.

Lemma sysinv_delete size es s b key :
  sysinv size es s b -> sy_pending s = None ->
  exists s', sysStep rkey s (EDelete key) = Ok s' /\ sysinv size (es ++ [EDelete key]) s' b.
Proof.
  intros Hinv Hnone. pose proof Hinv as [Hcur Hpend Hroom Hrd].
  assert (absRun m0 (es ++ [EDelete key]) = (delete key (absRun m0 es).1, None)) as Habs.
  { rewrite absRun_snoc. rewrite Hnone in Hpend. destruct (absRun m0 es); simpl in *. by subst. }
  destruct (tab_delete_spec _ _ _ key Hcur) as (t' & Hdel & Hrep' & Hv).
  unfold sysStep. rewrite Hnone, Hdel. cbn [obind]. eexists. split; [done|].
  split; cbn [sy_cur sy_pending sy_reader]; rewrite ?Habs; [done|done|done|].
  eapply reader_kept; [done|done|]. intros j i Hj. rewrite Hj in *.
  eapply probing_write; [done|done|by rewrite Habs|done|].
  destruct Hv as [->|(q & w & _ & Hv)]; [by left|right]. by exists q, VTomb.
Qed.

Lemma sysinv_read size es s b :
  sysinv size es s b -> exists s', readStep rkey s = Ok s' /\ sysinv size (es ++ [ERead]) s' b.
Proof.
  intros [Hcur Hpend Hroom Hrd]. destruct (sy_reader s) as [j i|res] eqn:Hr.
  - destruct (probing_read _ _ _ _ _ Hrd Hr) as (r & -> & Hr'). eexists. split; [done|].
    split; cbn [sy_cur sy_pending sy_reader]; rewrite ?absRun_read; done.
  - unfold readStep. rewrite Hr. exists s. split; [done|].
    split; rewrite ?absRun_read; try done. rewrite Hr. destruct Hrd as (m & Hm & ?).
    exists m. split; [by apply seen_snoc|done].
Qed.

Lemma sysinv_step size es e s b :
  sysinv size es s b -> b + event_cost e <= kv_budget ->
  exists s' b', sysStep rkey s e = Ok s' /\ sysinv size (es ++ [e]) s' b' /\ b' <= b + event_cost e.
Proof.
  intros Hinv Hb. pose proof (event_cost_nonneg e) as Hc. pose proof (si_pending _ _ _ _ Hinv) as Hpend.
  assert (absRun m0 es = ((absRun m0 es).1, (absRun m0 es).2)) as Hpair by by destruct (absRun m0 es).
  destruct e as [key val| |key|]; cbn [sysStep]; destruct (sy_pending s) as [[pk pv]|] eqn:Hp.
  all: try (exists s, b; split_and!; [done| |lia]; apply sysinv_idle; [done| |done];
            rewrite Hpair, <- Hpend; done).
  - destruct (sysinv_put _ _ _ _ key val Hinv Hp Hb) as (s' & -> & Hinv').
    exists s', (b + op_cost (PutOp key val)). split_and!; [done|done|simpl; lia].
  - destruct (sysinv_install _ _ _ _ _ _ Hinv Hp) as (s' & Hst & Hinv'). exists s', b.
    unfold sysStep in Hst. rewrite Hp in Hst. split_and!; [done|done|lia].
  - destruct (sysinv_delete _ _ _ _ key Hinv Hp) as (s' & Hst & Hinv'). exists s', b.
    unfold sysStep in Hst. rewrite Hp in Hst. split_and!; [done|done|lia].
  - destruct (sysinv_read _ _ _ _ Hinv) as (s' & -> & Hinv'). exists s', b. split_and!; [done|done|lia].
  - destruct (sysinv_read _ _ _ _ Hinv) as (s' & -> & Hinv'). exists s', b. split_and!; [done|done|lia].
Qed.

Lemma sysinv_run t b0 es :
  tab_rep t m0 b0 -> b0 + events_cost es <= kv_budget ->
  exists s b, runEvents rkey (startGet rkey t) es = Ok s /\
    sysinv (length (ft_slots t)) es s b /\ b <= b0 + events_cost es.
Proof.
  intros Hrep. induction es as [|e es IH] using rev_ind; intros Hb.
  - exists (startGet rkey t), b0. split_and!; [done| |simpl; lia]. split; [done..|].
    cbn [sy_reader startGet]. destruct (tab_lg _ _ _ Hrep) as (lg & Hlg & Hn).
    pose proof (tr_mask _ _ _ Hrep) as Hmask. exists t, m0, b0.
    split_and!; [done|done|exact (seen_now m0 [])|done|by rewrite length_fmap| |].
    + rewrite Hmask, (pos_start _ lg) by lia. by rewrite length_fmap.
    + split; [intros u Hu; exfalso; unfold reads in Hu; simpl in Hu; lia|right].
      intros u v Hu. exfalso. unfold reads in Hu. simpl in Hu. lia.
  - rewrite events_cost_snoc in *. pose proof (event_cost_nonneg e).
    destruct IH as (s & b & Hrun & Hinv & Hle); [lia|]. rewrite runEvents_snoc, Hrun. cbn [obind].
    destruct (sysinv_step _ _ e _ _ Hinv) as (s' & b' & -> & Hinv' & Hle'); [lia|].
    exists s', b'. split_and!; [done|done|lia].
Qed.
End Reader.

(** C4: lock-free reads of [f2] are linearizable and wait-free.  Start a get of
    [rkey] on a shard that holds [m0] and let the shard's writers and the reader
    take turns in any order (within the byte budget).  Nothing panics; if the
    reader has returned, its answer is what the shard held for the key after
    some prefix of those turns, however many tables were published and slots
    reused meanwhile; and it has returned once it got as many turns as its
    table has slots. *)
Theorem f2_get_linearizable rkey t m0 b0 es :
  tab_rep t m0 b0 -> b0 + events_cost es <= kv_budget ->
  exists s, runEvents rkey (startGet rkey t) es = Ok s /\
    (forall res, sy_reader s = Returned res ->
       exists es1 es2, es = es1 ++ es2 /\ (absRun m0 es1).1 !! rkey = res) /\
    ((length (ft_slots t) <= reads es)%nat -> exists res, sy_reader s = Returned res).
Proof.
  intros Hrep Hb. destruct (sysinv_run m0 rkey t b0 es Hrep Hb) as (s & b & Hrun & [_ _ _ Hrd] & _).
  exists s. split_and!; [done| |].
  - intros res Hr. rewrite Hr in Hrd. destruct Hrd as (m & (es1 & es2 & -> & <-) & Hm). eauto.
  - intros Hn. destruct (sy_reader s) as [j i|res]; [|by exists res].
    apply probing_bound in Hrd. lia.
Qed.

Definition demo_events : list event :=
  [ERead; EPut [Byte.x61] [Byte.x31]; ERead; EInstall; EDelete [Byte.x61]; ERead].

Lemma f2_get_linearizable_witness :
  exists s, runEvents [Byte.x61] (startGet [Byte.x61] (newF2tab (2 ^ 9) (2 ^ 16))) demo_events = Ok s /\
    (forall res, sy_reader s = Returned res ->
       exists es1 es2, demo_events = es1 ++ es2 /\ (absRun ∅ es1).1 !! [Byte.x61] = res) /\
    ((length (ft_slots (newF2tab (2 ^ 9) (2 ^ 16))) <= reads demo_events)%nat ->
     exists res, sy_reader s = Returned res).
Proof.
  apply (f2_get_linearizable [Byte.x61] (newF2tab (2 ^ 9) (2 ^ 16)) ∅ 0 demo_events).
  - apply (newF2tab_rep _ _ 9); unfold kv_budget; lia.
  - vm_compute. discriminate.
Defined.
