(* ===== verification/Otter.v ===== *)
(** * otter: a sharded Go map (adapters/inmem/inmem.go)

    64 shards picked by the low hash bits, each a map under its own lock.  One
    operation is one critical section; a batch takes a shard's lock once per
    buffered write, so its writes are separate steps ([batch_step]) between
    which another client may run. *)

From S2P Require Import Prelude Codec Engine Inmem.
Local Open Scope go_scope.

Record otter := MkOtter { ot_shards : list (gmap bytes bytes); ot_mask : Z }.

Definition otterShards : Z := 64.

Definition newOtter : otter := MkOtter (replicate (Z.to_nat otterShards) ∅) (otterShards - 1).

Definition shardFor (e : otter) (key : bytes) : Z := hash64 key &64 ot_mask e.

Definition Get (e : otter) (key : bytes) : outcome (option bytes) :=
  let* s := index (ot_shards e) (shardFor e key) in Ok (s !! key).

(** One critical section: the shard's map is replaced. *)
Definition onShard (e : otter) (key : bytes) (f : gmap bytes bytes -> gmap bytes bytes) : outcome otter :=
  let* s := index (ot_shards e) (shardFor e key) in
  let* shards := update (ot_shards e) (shardFor e key) (f s) in
  Ok (MkOtter shards (ot_mask e)).

Definition Put (e : otter) (key val : bytes) : outcome otter := onShard e key (fun s => <[key := val]> s).

Definition Delete (e : otter) (key : bytes) : outcome otter := onShard e key (fun s => delete key s).

Definition applyOp (e : otter) (o : memOp) : outcome otter :=
  if op_del o then Delete e (op_k o) else Put e (op_k o) (op_v o).

Fixpoint applyBatch (e : otter) (ops : list memOp) : outcome otter :=
  match ops with
  | [] => Ok e
  | o :: ops' => let* e' := applyOp e o in applyBatch e' ops'
  end.

(** A batch in flight: the engine and the writes still to be applied.  Every
    lock is released between two steps. *)
Inductive batch_step : otter * list memOp -> otter * list memOp -> Prop :=
| batch_step_op e e' o ops : applyOp e o = Ok e' -> batch_step (e, o :: ops) (e', ops).

Definition otterMeta : Meta :=
  MkMeta "otter" FamilyInMemory ModeInProc "" "builtin" ""
    (MkCapabilities false true false false false false true)
    [MkAsterisk "non-durable" "in-memory otter-shaped ceiling: 64 map shards, each under its own RWMutex, no persistence and no eviction. Unordered, point cells only. It isolates what sharding alone buys a map under concurrent clients, so the conc=N cell is the interesting one here."]
    true.

#[global] Instance otter_ops : KVOps otter := {
  kv_get := Get;
  kv_put := Put;
  kv_delete := Delete;
  kv_apply := applyBatch }.

(** ** The map contract *)

Definition shardIx (key : bytes) : nat := Z.to_nat (hash64 key mod 64).

(** Each shard agrees with the map on the keys that hash to it. *)
Record otter_rep (e : otter) (m : gmap bytes bytes) (b : Z) : Prop := {
  or_mask : ot_mask e = 63;
  or_len : length (ot_shards e) = 64%nat;
  or_budget : 0 <= b <= kv_budget;
  or_shard : forall k s, ot_shards e !! shardIx k = Some s -> s !! k = m !! k }.

Lemma otter_shard e m b key :
  otter_rep e m b ->
  exists s, shardFor e key = Z.of_nat (shardIx key) /\ ot_shards e !! shardIx key = Some s.
Proof.
  intros [Hmask Hlen _ _]. pose proof (Z.mod_pos_bound (hash64 key) 64 ltac:(lia)) as Hr.
  destruct (lookup_lt_is_Some_2 (ot_shards e) (shardIx key)) as [s Hs].
  { unfold shardIx. lia. }
  exists s. split; [|done]. unfold shardFor. rewrite Hmask. change 63 with (2 ^ 6 - 1).
  rewrite land_mask by lia. unfold shardIx. change (2 ^ 6) with 64. lia.
Qed.

Lemma otter_get_spec e m b key : otter_rep e m b -> Get e key = Ok (m !! key).
Proof.
  intros Hrep. destruct (otter_shard _ _ _ key Hrep) as (s & Hs & Hl).
  unfold Get. rewrite Hs, (index_ok _ _ _ Hl). cbn [obind]. by rewrite (or_shard _ _ _ Hrep _ _ Hl).
Qed.

Lemma otter_onShard_spec e m b b' key f :
  otter_rep e m b -> b <= b' <= kv_budget ->
  (forall s : gmap bytes bytes, f s !! key = f m !! key) ->
  (forall s k, k <> key -> f s !! k = s !! k) ->
  exists e', onShard e key f = Ok e' /\ otter_rep e' (f m) b'.
Proof.
  intros Hrep Hb Heq Hne. destruct (otter_shard _ _ _ key Hrep) as (s & Hs & Hl).
  destruct Hrep as [Hmask Hlen Hbud Hsh]. unfold onShard. rewrite Hs, (index_ok _ _ _ Hl). cbn [obind].
  rewrite update_ok by (by eapply lookup_lt_Some). cbn [obind]. eexists. split; [done|].
  split; cbn [ot_mask ot_shards]; [exact Hmask|rewrite length_insert; exact Hlen|lia|].
  intros k s' [(Hk & <- & _)|[Hk Hs']]%list_lookup_insert_Some.
  - destruct (decide (k = key)) as [->|Hn]; [done|]. rewrite !Hne by done.
    apply Hsh. by rewrite <- Hk.
  - rewrite Hne by (by intros ->). by apply Hsh.
Qed.

Lemma otter_put_spec e m b key val :
  otter_rep e m b -> b + op_cost (PutOp key val) <= kv_budget ->
  exists e', Put e key val = Ok e' /\ otter_rep e' (<[key:=val]> m) (b + op_cost (PutOp key val)).
Proof.
  intros Hrep Hb. pose proof (op_cost_pos (PutOp key val)).
  apply (otter_onShard_spec e m b _ key (fun s => <[key:=val]> s) Hrep); [lia|intros; by rewrite !lookup_insert_eq|].
  intros. by rewrite lookup_insert_ne.
Qed.

Lemma otter_delete_spec e m b key :
  otter_rep e m b -> exists e', Delete e key = Ok e' /\ otter_rep e' (delete key m) b.
Proof.
  intros Hrep. pose proof (or_budget _ _ _ Hrep).
  apply (otter_onShard_spec e m b b key (fun s => delete key s) Hrep); [lia|intros; by rewrite !lookup_delete_eq|].
  intros. by rewrite lookup_delete_ne.
Qed.

#[global] Instance otter_store : KVStore otter.
Proof.
  refine {| kv_rep := otter_rep |}.
  - intros. by eapply otter_get_spec.
  - intros. by apply otter_put_spec.
  - intros. by apply otter_delete_spec.
  - intros e m b ops. apply (apply_in_order otter_rep Put Delete).
    + intros ? ? ? ? [] ?. split; [assumption..|lia|assumption].
    + apply otter_put_spec.
    + intros. by apply otter_delete_spec.
    + done.
    + done.
Defined.

Lemma newOtter_rep : otter_rep newOtter ∅ 0.
Proof.
  split; [done|done|done|]. intros k s. unfold newOtter. cbn [ot_shards].
  intros [-> _]%lookup_replicate. by rewrite lookup_empty.
Qed.

(** The steps of a batch, run without interruption, are [applyBatch]. *)
Lemma batch_steps_apply e ops e' : applyBatch e ops = Ok e' -> rtc batch_step (e, ops) (e', []).
Proof.
  revert e. induction ops as [|o ops IH]; intros e H; simpl in H; [injection H as ->; done|].
  apply obind_ok in H as (e1 & H1 & H2). eapply rtc_l; [by constructor|by apply IH].
Qed.

(** [otter] refines a finite map: 64 shards answer every session as one
    map would. *)
Theorem otter_refines_map rs :
  session_cost rs <= kv_budget ->
  exists e' b, run_session newOtter rs = Ok ((map_session ∅ rs).1, e') /\
    otter_rep e' (map_session ∅ rs).2 b.
Proof.
  intros Hc. assert (kv_rep newOtter ∅ 0) as Hnew by exact newOtter_rep.
  destruct (session_refines_map newOtter ∅ 0 rs Hnew) as (e' & b & Hr & Hrep & _); [lia|].
  by exists e', b.
Qed.

Lemma otter_refines_map_witness :
  exists e' b, run_session newOtter demo_session = Ok ((map_session ∅ demo_session).1, e') /\
    otter_rep e' (map_session ∅ demo_session).2 b.
Proof. apply (otter_refines_map demo_session). vm_compute. discriminate. Defined.

(** A batch of [otter] is not atomic, although its capabilities declare
    [AtomicBatch].  Between two of its critical sections another client can
    read: there is a two-write batch and a state it passes through in which
    the first write is visible and the second is not. *)
Theorem otter_batch_torn :
  exists k1 k2 v e1 rest,
    let ops := [PutOp k1 v; PutOp k2 v] in
    rtc batch_step (newOtter, ops) (e1, rest) /\ rest <> [] /\
    Get newOtter k1 = Ok None /\ Get e1 k1 = Ok (Some v) /\ Get e1 k2 = Ok None /\
    exists e2, rtc batch_step (e1, rest) (e2, []) /\ Get e2 k1 = Ok (Some v) /\ Get e2 k2 = Ok (Some v).
Proof.
  pose (k1 := [Byte.x61] : bytes). pose (k2 := [Byte.x62] : bytes). pose (v := [Byte.x01] : bytes).
  destruct (otter_put_spec newOtter ∅ 0 k1 v newOtter_rep) as (e1 & Hp1 & Hr1); [by vm_compute|].
  destruct (otter_put_spec e1 _ _ k2 v Hr1) as (e2 & Hp2 & Hr2); [by vm_compute|].
  exists k1, k2, v, e1, [PutOp k2 v]. cbn zeta.
  rewrite (otter_get_spec _ _ _ k1 newOtter_rep), !(otter_get_spec _ _ _ _ Hr1).
  rewrite lookup_empty, lookup_insert_eq, lookup_insert_ne, lookup_empty by discriminate.
  split_and!; [apply rtc_once; by constructor|discriminate|reflexivity..|].
  exists e2. rewrite !(otter_get_spec _ _ _ _ Hr2), lookup_insert_eq, lookup_insert_ne, lookup_insert_eq
    by discriminate.
  split_and!; [apply rtc_once; by constructor|reflexivity..].
Qed.
