(* ===== verification/Memory.v ===== *)
(** * The memory reference engine (adapters/memory/memory.go)

    A Go map under one lock: nil before [Open] and after [Close].  A scan takes
    a sorted snapshot of the keys and reads the values as it advances. *)

From stdpp Require Import sorting.
From S2P Require Import Prelude Codec Engine.
Local Open Scope go_scope.

(** [None] is the nil map: readable as empty, a write to it panics. *)
Record eng := MkEng { en_m : option (gmap bytes bytes) }.

Definition newEng : eng := MkEng None.

Definition Open (e : eng) : eng := MkEng (Some ∅).

Definition Get (e : eng) (key : bytes) : option bytes :=
  match en_m e with Some m => m !! key | None => None end.

Definition Put (e : eng) (key value : bytes) : outcome eng :=
  match en_m e with Some m => Ok (MkEng (Some (<[key := value]> m))) | None => Panic end.

(** [delete] on a nil map does nothing. *)
Definition Delete (e : eng) (key : bytes) : eng := MkEng (delete key <$> en_m e).

Definition Close (e : eng) : eng := MkEng None.

Record batch := MkBatch { ba_ops : list memOp }.

Definition NewBatch : batch := MkBatch [].
Definition batchPut (b : batch) (k v : bytes) : batch := MkBatch (ba_ops b ++ [PutOp k v]).
Definition batchDelete (b : batch) (k : bytes) : batch := MkBatch (ba_ops b ++ [DelOp k]).
Definition batchLen (b : batch) : Z := len (ba_ops b).

Fixpoint commitLoop (e : eng) (ops : list memOp) : outcome eng :=
  match ops with
  | [] => Ok e
  | o :: ops' =>
      let* e' := (if op_del o then Ok (Delete e (op_k o)) else Put e (op_k o) (op_v o)) in
      commitLoop e' ops'
  end.

Definition Commit (e : eng) (b : batch) : outcome (eng * batch) :=
  let* e' := commitLoop e (ba_ops b) in Ok (e', MkBatch []).

(** ** Scan *)

Record iter := MkIter { it_keys : list bytes; it_idx : Z; it_k : bytes; it_v : bytes }.

(** [order] is the order in which [range e.m] produced the keys. *)
Definition Scan (order : list bytes) (start : bytes) : iter :=
  MkIter (merge_sort bytes_le (filter (bytes_le start) order)) (-1) [] [].

(** [Next] against the engine as it is now; a key deleted since the snapshot
    is still produced, with a nil value. *)
Definition Next (e : eng) (i : iter) : outcome (bool * iter) :=
  let idx := it_idx i + 1 in
  if idx >=? len (it_keys i) then Ok (false, MkIter (it_keys i) idx (it_k i) (it_v i))
  else let* k := index (it_keys i) idx in
       Ok (true, MkIter (it_keys i) idx k (default [] (Get e k))).

(** [for it.Next() { ... it.Key() ... it.Value() ... }] over a quiescent
    engine, for at most [fuel] calls. *)
Fixpoint drain (fuel : nat) (e : eng) (i : iter) : outcome (list (bytes * bytes)) :=
  match fuel with
  | O => Spin
  | S f =>
      let* (more, i') := Next e i in
      if more : bool
      then let* rest := drain f e i' in Ok ((it_k i', it_v i') :: rest)
      else Ok []
  end.

Definition memoryMeta : Meta :=
  MkMeta "memory" FamilyInMemory ModeInProc "" "builtin" ""
    (MkCapabilities true true false false false false true)
    [MkAsterisk "non-durable" "in-memory reference, no persistence; speed-of-light ceiling only"]
    true.

#[global] Instance eng_ops : KVOps eng := {
  kv_get e k := Ok (Get e k);
  kv_put := Put;
  kv_delete e k := Ok (Delete e k);
  kv_apply := commitLoop }.

(** ** The map contract *)

Definition eng_rep (e : eng) (m : gmap bytes bytes) (b : Z) : Prop := en_m e = Some m.

#[global] Instance eng_store : KVStore eng.
Proof.
  refine {| kv_rep := eng_rep |}; unfold eng_rep.
  - intros e m b k He. cbn. unfold Get. by rewrite He.
  - intros e m b k v He _. cbn. unfold Put. rewrite He. eauto.
  - intros e m b k He. cbn. unfold Delete. rewrite He. eauto.
  - intros e m b ops He _. revert e m He. cbn [kv_apply eng_ops].
    induction ops as [|o ops IH]; intros e m He; [by exists e|].
    assert (exists e', (if op_del o then Ok (Delete e (op_k o)) else Put e (op_k o) (op_v o)) = Ok e' /\
      en_m e' = Some (apply_op m o)) as (e1 & H1 & He1).
    { unfold apply_op, Delete, Put. rewrite He. destruct (op_del o); eauto. }
    cbn [commitLoop]. rewrite H1. cbn [obind]. by apply IH.
Defined.

(** ** Scanning a quiescent engine *)

Lemma Scan_keys order start : it_keys (Scan order start) ≡ₚ filter (bytes_le start) order.
Proof. apply merge_sort_Permutation. Qed.

Lemma drain_from e ks : forall fuel pre k v,
  (length ks < fuel)%nat ->
  drain fuel e (MkIter (pre ++ ks) (len pre - 1) k v) =
  Ok ((fun k => (k, default [] (Get e k))) <$> ks).
Proof.
  induction ks as [|x ks IH]; intros fuel pre k v Hf; (destruct fuel as [|f]; simpl in Hf; [lia|]);
    cbn [drain]; unfold Next; cbn [it_idx it_keys]; rewrite Z.sub_add, Z.geb_leb, len_app.
  - rewrite len_nil. case_zcmp; [done|lia].
  - rewrite len_cons. pose proof (len_nonneg ks). case_zcmp; [lia|].
    assert (index (pre ++ x :: ks) (len pre) = Ok x) as ->.
    { apply index_ok. by rewrite lookup_app_r, Nat.sub_diag by lia. }
    cbn [obind]. replace (pre ++ x :: ks) with ((pre ++ [x]) ++ ks) by (by rewrite <- app_assoc).
    replace (len pre) with (len (pre ++ [x]) - 1) by (rewrite len_app, len_cons, len_nil; lia).
    rewrite IH by lia. done.
Qed.

(** The memory engine, once opened, refines a finite map; before [Open]
    and after [Close] the map is nil, so a get finds nothing, a delete does
    nothing and a put panics. *)
Theorem memory_refines_map rs e k v :
  session_cost rs <= kv_budget ->
  (exists e', run_session (Open e) rs = Ok ((map_session ∅ rs).1, e') /\ en_m e' = Some (map_session ∅ rs).2) /\
  Get (Close e) k = None /\ Put (Close e) k v = Panic /\ Delete (Close e) k = Close e /\ Close e = newEng.
Proof.
  intros Hc. split; [|done].
  destruct (session_refines_map (Open e) ∅ 0 rs) as (e' & b & Hr & Hrep & _); [done|lia|]. by exists e'.
Qed.

Lemma memory_refines_map_witness :
  (exists e', run_session (Open newEng) demo_session = Ok ((map_session ∅ demo_session).1, e') /\
    en_m e' = Some (map_session ∅ demo_session).2) /\
  Get (Close newEng) [] = None /\ Put (Close newEng) [] [] = Panic /\
  Delete (Close newEng) [] = Close newEng /\ Close newEng = newEng.
Proof. apply (memory_refines_map demo_session newEng [] []). vm_compute. discriminate. Defined.

(** Scanning the memory engine.  Whatever order the map iterates in,
    draining a scan of an engine holding [m] gives each key of [m] that is not
    below [start] exactly once, in byte order, with its value. *)
Theorem memory_scan_sorted m order start :
  order ≡ₚ (map_to_list m).*1 ->
  exists kvs, drain (S (length order)) (MkEng (Some m)) (Scan order start) = Ok kvs /\
    StronglySorted bytes_le kvs.*1 /\ NoDup kvs.*1 /\
    forall k v, (k, v) ∈ kvs <-> m !! k = Some v /\ bytes_le start k.
Proof.
  intros Hord. pose proof (Scan_keys order start) as Hp.
  set (ks := it_keys (Scan order start)) in *.
  assert (NoDup ks) as Hnd.
  { rewrite Hp. apply NoDup_filter. rewrite Hord. apply NoDup_fst_map_to_list. }
  assert (length ks < S (length order))%nat as Hlen.
  { rewrite Hp. pose proof (length_filter (bytes_le start) order). lia. }
  pose proof (drain_from (MkEng (Some m)) ks (S (length order)) [] [] [] Hlen) as Hd. cbn [app] in Hd.
  eexists. split; [exact Hd|]. rewrite <- list_fmap_compose. unfold compose. cbn [fst]. rewrite list_fmap_id.
  split_and!; [apply (StronglySorted_merge_sort _)|done|]. intros k v. rewrite list_elem_of_fmap.
  assert (forall k', k' ∈ ks <-> bytes_le start k' /\ is_Some (m !! k')) as Hin.
  { intros k'. rewrite Hp, list_elem_of_filter, Hord, list_elem_of_fmap. split.
    - intros [? ([a b] & -> & Hab%elem_of_map_to_list)]. split; [done|by exists b].
    - intros [? [b Hb]]. split; [done|]. exists (k', b). split; [done|]. by apply elem_of_map_to_list. }
  unfold Get. cbn [en_m]. split.
  - intros (k' & [= -> ->] & [Hle [w Hw]]%Hin). by rewrite Hw.
  - intros [Hm Hle]. exists k. rewrite Hm. split; [done|]. apply Hin. by split; [|exists v].
Qed.

Lemma memory_scan_sorted_witness :
  exists kvs, drain 3 (MkEng (Some (<[[Byte.x02]:=[Byte.x07]]> {[ [Byte.x01] := [Byte.x08] ]})))
      (Scan [[Byte.x01]; [Byte.x02]] [Byte.x02]) = Ok kvs /\
    StronglySorted bytes_le kvs.*1 /\ NoDup kvs.*1 /\
    forall k v, (k, v) ∈ kvs <->
      (<[[Byte.x02]:=[Byte.x07]]> {[ [Byte.x01] := [Byte.x08] ]} : gmap bytes bytes) !! k = Some v /\
      bytes_le [Byte.x02] k.
Proof.
  apply (memory_scan_sorted _ [[Byte.x01]; [Byte.x02]]). vm_compute.
  first [reflexivity | apply perm_swap].
Defined.
