(* ===== verification/RustKv.v ===== *)
(** * Rust engines over a pipe: the wire
      (adapters/rustkv/rustkv_subprocess.go and rust/src/main.rs)

    The Go client frames each request onto the helper's stdin and the helper
    frames each response onto its stdout.  This file has the payloads and the
    frames both sides write, the functions that read them back, the helper's
    request handler over its [Kv] trait, and the client's operations over one
    round trip.  RustKvPipe.v has the multiplexing of concurrent calls. *)

From S2P Require Import Prelude Codec Engine Ordered.
Local Open Scope go_scope.

Definition opPut : Z := 1.
Definition opGet : Z := 2.
Definition opDel : Z := 3.
Definition opScan : Z := 4.
Definition opFlush : Z := 5.
Definition opBatch : Z := 6.

(** ** Registration, metadata and the command line *)

Record eng := MkEng { eng_name : string }.

Definition registered : list string := ["redb"; "sled"; "fjall"].

Definition register (registry : gmap string (unit -> eng)) (name : string)
    : outcome (gmap string (unit -> eng)) :=
  Register registry name (fun _ => MkEng name).

(** [init]. *)
Definition initRegistry (registry : gmap string (unit -> eng)) : outcome (gmap string (unit -> eng)) :=
  let* r1 := register registry "redb" in
  let* r2 := register r1 "sled" in
  register r2 "fjall".

Definition engMeta (e : eng) : Meta :=
  let fam := if bool_decide (eng_name e = "redb") then FamilyCOWBTree else FamilyLSM in
  let redb := bool_decide (eng_name e = "redb") in
  MkMeta (eng_name e) fam ModeSubprocess "" "kvbench-rs" ""
    (MkCapabilities true true true redb false redb false)
    [MkAsterisk "default-durability" "the helper opens each Rust store at its NORMAL profile for the default, which leaves per-commit fsync to the store's own batching rather than forcing a sync on every write";
     MkAsterisk "subprocess-hop" "every op crosses a pipe to a separate Rust process; the framing and round-trip cost is in the number, which is the honest cost of driving a non-Go engine this way"]
    false.

(** The durability level the helper is started with. *)
Definition openSync (cfg : Config) : string :=
  let sync := CfgSynchronous cfg in
  if bool_decide (sync = "" \/ sync = "DEFAULT") then "NORMAL" else sync.

Definition openArgs (e : eng) (cfg : Config) : list string :=
  ["--engine"; eng_name e; "--dir"; CfgDir cfg; "--sync"; openSync cfg].

(** What the operating system answers while [Open] starts the helper. *)
Record os_answers := MkOs {
  os_lookPath : option string;
  os_stdinPipe : option string;
  os_stdoutPipe : option string;
  os_start : option string }.

(** [Open]: the command started, or the error.  [os_lookPath] is the path of
    the binary; the other three are the errors of the calls, if any. *)
Definition Open (e : eng) (cfg : Config) (o : os_answers) : (string * list string) + string :=
  match os_lookPath o with
  | None => inr "kvbench-rs not found on PATH"
  | Some bin =>
      match os_stdinPipe o, os_stdoutPipe o, os_start o with
      | Some err, _, _ => inr err
      | None, Some err, _ => inr err
      | None, None, Some err => inr err
      | None, None, None => inl (bin, openArgs e cfg)
      end
  end.

Definition Stats : Engine.Stats := UnknownStats.

(** [Close]: closing the helper's input ends its reader, and the process is
    waited for; both errors are dropped. *)
Inductive closeCall := StdinClose | ProcessWait.

Definition Close (stdin process : bool) : list closeCall :=
  (if stdin then [StdinClose] else []) ++ (if process then [ProcessWait] else []).

(** The helper's reading of its arguments (main.rs); [args] is what follows
    the program's name, and a flag with no value panics. *)
Fixpoint helperArgs (fuel : nat) (args : list string) (engine dir sync : string)
    : outcome (string * string * string) :=
  match fuel with
  | O => Spin
  | S fuel' =>
      match args with
      | [] => Ok (engine, dir, sync)
      | a :: rest =>
          if bool_decide (a = "--engine") then
            match rest with [] => Panic | v :: rest' => helperArgs fuel' rest' v dir sync end
          else if bool_decide (a = "--dir") then
            match rest with [] => Panic | v :: rest' => helperArgs fuel' rest' engine v sync end
          else if bool_decide (a = "--sync") then
            match rest with [] => Panic | v :: rest' => helperArgs fuel' rest' engine dir v end
          else helperArgs fuel' rest engine dir sync
      end
  end.

Definition helperMain (args : list string) : outcome (string * string * string) :=
  helperArgs (S (length args)) args "redb" "." "NORMAL".

Lemma helper_reads_open e cfg :
  helperMain (openArgs e cfg) = Ok (eng_name e, CfgDir cfg, openSync cfg).
Proof. reflexivity. Qed.

(** ** Requests and responses *)

Record response := MkResponse { r_status : Z; r_body : bytes }.

(** [PutUint32(p, uint32(n))]. *)
Definition u32le (n : Z) : bytes := le_bytes 4 (wrap32 n).

(** A length-prefixed byte string. *)
Definition prefixed (b : bytes) : bytes := u32le (len b) ++ b.

(** ** Client: payloads *)

Definition keyPayload (key : bytes) : bytes := prefixed key.
Definition putPayload (key value : bytes) : bytes := prefixed key ++ prefixed value.
Definition scanCap : Z := 512.
Definition scanPayload (start : bytes) : bytes := prefixed start ++ u32le scanCap.

Record batch := MkBatch { b_buf : bytes; b_n : Z }.

Definition NewBatch : batch := MkBatch [] 0.
Definition batchPut (b : batch) (k v : bytes) : batch :=
  MkBatch (b_buf b ++ z2b opPut :: prefixed k ++ prefixed v) (b_n b + 1).
Definition batchDelete (b : batch) (k : bytes) : batch :=
  MkBatch (b_buf b ++ z2b opDel :: prefixed k) (b_n b + 1).
Definition batchLen (b : batch) : Z := b_n b.
Definition batchPayload (b : batch) : bytes := u32le (b_n b) ++ b_buf b.

(** ** Frames *)

(** Request: op u8, id u64, plen u32, payload. *)
Definition requestFrame (op id : Z) (payload : bytes) : bytes :=
  z2b op :: le_bytes 8 id ++ prefixed payload.

(** Response, as the helper writes it: id u64, status u8, blen u32, body. *)
Definition write_response (id status : Z) (body : bytes) : bytes :=
  le_bytes 8 id ++ z2b status :: prefixed body.

(** [io.ReadFull] and [read_exact] of [n] bytes from what a pipe holds:
    [None] when the pipe holds fewer. *)
Definition readFull (n : Z) (pipe : bytes) : option (bytes * bytes) :=
  if n <=? len pipe then Some (take (Z.to_nat n) pipe, drop (Z.to_nat n) pipe) else None.

(** One iteration of the client's [reader], up to the delivery. *)
Definition readResponse (out : bytes) : option (Z * response * bytes) :=
  match readFull 13 out with
  | None => None
  | Some (hdr, out1) =>
      let id := le_value (take 8 hdr) in
      let status := b2z (default Byte.x00 (hdr !! 8%nat)) in
      let blen := le_value (drop 9 hdr) in
      if blen >? 0 then
        match readFull blen out1 with
        | None => None
        | Some (body, out2) => Some (id, MkResponse status body, out2)
        end
      else Some (id, MkResponse status [], out1)
  end.

Record Request := MkRequest { q_op : Z; q_id : Z; q_payload : bytes }.

(** One iteration of the helper's reader loop, up to the send. *)
Definition readRequest (inp : bytes) : option (Request * bytes) :=
  match readFull 13 inp with
  | None => None
  | Some (hdr, in1) =>
      let op := b2z (default Byte.x00 (hdr !! 0%nat)) in
      let id := le_value (take 8 (drop 1 hdr)) in
      let plen := le_value (drop 9 hdr) in
      if plen >? 0 then
        match readFull plen in1 with
        | None => None
        | Some (payload, in2) => Some (MkRequest op id payload, in2)
        end
      else Some (MkRequest op id [], in1)
  end.

(** ** Helper: the handler *)

Inductive BatchOp :=
| BPut (k v : bytes)
| BDel (k : bytes).

(** The trait [Kv]: one of the Rust stores.  A method whose store call fails
    inside an [unwrap] panics. *)
Class Kv (S : Type) := {
  k_get : S -> bytes -> option bytes;
  k_put : S -> bytes -> bytes -> outcome S;
  k_del : S -> bytes -> outcome S;
  k_scan : S -> bytes -> Z -> list (bytes * bytes);
  k_flush : S -> outcome S;
  k_batch : S -> list BatchOp -> outcome S }.

(** [u32::from_le_bytes(p[off..off + 4])]. *)
Definition read_u32 (p : bytes) (off : Z) : outcome Z :=
  let* b := slice p off (off + 4) in Ok (le_value b).

Definition read_bytes (p : bytes) (off : Z) : outcome (bytes * Z) :=
  let* n := read_u32 p off in
  let start := off + 4 in
  let* b := slice p start (start + n) in
  Ok (b, start + n).

(** The loop of the BATCH arm: [count] more operations from [off]. *)
Fixpoint read_ops (count : nat) (p : bytes) (off : Z) (ops : list BatchOp) : outcome (list BatchOp) :=
  match count with
  | O => Ok ops
  | S count' =>
      let* kind := index p off in
      let* (k, no) := read_bytes p (off + 1) in
      if b2z kind =? opPut then
        let* (v, no2) := read_bytes p no in
        read_ops count' p no2 (ops ++ [BPut k v])
      else read_ops count' p no (ops ++ [BDel k])
  end.

(** The body of a SCAN response. *)
Definition scanBody (rows : list (bytes * bytes)) : bytes :=
  foldl (fun body kv => body ++ prefixed kv.1 ++ prefixed kv.2) [] rows.

Section Handle.
Context {S : Type} `{Kv S}.

Definition handle (kv : S) (op : Z) (p : bytes) : outcome (response * S) :=
  if op =? opGet then
    let* (k, _) := read_bytes p 0 in
    match k_get kv k with
    | Some v => Ok (MkResponse 1 v, kv)
    | None => Ok (MkResponse 0 [], kv)
    end
  else if op =? opPut then
    let* (k, off) := read_bytes p 0 in
    let* (v, _) := read_bytes p off in
    let* kv' := k_put kv k v in
    Ok (MkResponse 0 [], kv')
  else if op =? opDel then
    let* (k, _) := read_bytes p 0 in
    let* kv' := k_del kv k in
    Ok (MkResponse 0 [], kv')
  else if op =? opScan then
    let* (start, off) := read_bytes p 0 in
    let* limit := read_u32 p off in
    Ok (MkResponse 0 (scanBody (k_scan kv start limit)), kv)
  else if op =? opFlush then
    let* kv' := k_flush kv in
    Ok (MkResponse 0 [], kv')
  else if op =? opBatch then
    let* count := read_u32 p 0 in
    let* ops := read_ops (Z.to_nat count) p 4 [] in
    let* kv' := k_batch kv ops in
    Ok (MkResponse 0 [], kv')
  else Ok (MkResponse 255 [], kv).
End Handle.

(** ** Client: reading responses *)

(** What [Get] returns for a response. *)
Definition getResult (r : response) : option bytes :=
  if r_status r =? 0 then None else Some (r_body r).

(** [Put] and [Commit]: the status of a failed write, if it failed. *)
Definition writeResult (r : response) : option Z :=
  if r_status r =? 0 then None else Some (r_status r).

Record iter := MkIter { it_body : bytes; it_off : Z; it_k : bytes; it_v : bytes }.

Definition newIter (r : response) : iter := MkIter (r_body r) 0 [] [].

Definition Next (i : iter) : outcome (bool * iter) :=
  let body := it_body i in
  if it_off i + 4 >? len body then Ok (false, i)
  else
    let* kl := read_u32 body (it_off i) in
    let off := it_off i + 4 in
    if off + kl + 4 >? len body then Ok (false, MkIter body off (it_k i) (it_v i))
    else
      let* k := slice body off (off + kl) in
      let off := off + kl in
      let* vl := read_u32 body off in
      let off := off + 4 in
      if off + vl >? len body then Ok (false, MkIter body off k (it_v i))
      else
        let* v := slice body off (off + vl) in
        Ok (true, MkIter body (off + vl) k v).

(** [for it.Next() { ... it.Key() ... it.Value() ... }], for at most [fuel]
    calls. *)
Fixpoint drain (fuel : nat) (i : iter) : outcome (list (bytes * bytes)) :=
  match fuel with
  | O => Spin
  | S f =>
      let* (more, i') := Next i in
      if more : bool
      then let* rest := drain f i' in Ok ((it_k i', it_v i') :: rest)
      else Ok []
  end.

(** ** Round trips on the wire

    Every lemma has the bytes it reads between an arbitrary prefix and an
    arbitrary tail, so that they chain by rewriting. *)

Lemma len_u32le n : len (u32le n) = 4.
Proof. unfold len, u32le. by rewrite length_le_bytes. Qed.

Lemma len_prefixed b : len (prefixed b) = 4 + len b.
Proof. unfold prefixed. by rewrite len_app, len_u32le. Qed.

#[export] Hint Rewrite len_u32le len_prefixed : go.

Lemma le_value_u32le n : is_u32 n -> le_value (u32le n) = n.
Proof.
  intros Hn. unfold u32le. rewrite le_roundtrip, (wrap32_id n) by done.
  apply Z.mod_small. exact Hn.
Qed.

Lemma len_u32 (b : bytes) : len b < 2 ^ 32 -> is_u32 (len b).
Proof. zlia. Qed.

#[export] Hint Resolve len_u32 : go.

Lemma read_u32_at pre n post off :
  off = len pre -> is_u32 n -> read_u32 (pre ++ u32le n ++ post) off = Ok n.
Proof.
  intros -> Hn. unfold read_u32. rewrite slice_mid by (rewrite ?len_u32le; done).
  cbn [obind]. by rewrite le_value_u32le.
Qed.

Lemma read_bytes_at pre b post off :
  off = len pre -> len b < 2 ^ 32 ->
  read_bytes (pre ++ prefixed b ++ post) off = Ok (b, off + len (prefixed b)).
Proof.
  intros -> Hb. unfold read_bytes, prefixed. rewrite <- !app_assoc.
  rewrite read_u32_at by auto with go. cbn [obind].
  rewrite (app_assoc pre), slice_mid by (rewrite ?len_app, ?len_u32le; lia).
  cbn [obind]. rewrite !len_app, len_u32le. do 2 f_equal. lia.
Qed.

(** A batch payload is its count and the records of its operations. *)
Definition opRecord (o : memOp) : bytes :=
  if op_del o then z2b opDel :: prefixed (op_k o)
  else z2b opPut :: prefixed (op_k o) ++ prefixed (op_v o).

Definition opsRecords (ops : list memOp) : bytes := mjoin (opRecord <$> ops).

Definition to_batchOp (o : memOp) : BatchOp :=
  if op_del o then BDel (op_k o) else BPut (op_k o) (op_v o).

(** The client's calls on a batch. *)
Definition batchAdd (b : batch) (o : memOp) : batch :=
  if op_del o then batchDelete b (op_k o) else batchPut b (op_k o) (op_v o).

Definition batchOf (ops : list memOp) : batch := foldl batchAdd NewBatch ops.

Lemma batchOf_records ops : batchOf ops = MkBatch (opsRecords ops) (len ops).
Proof.
  induction ops as [|o ops IH] using rev_ind; [done|].
  unfold batchOf in *. rewrite foldl_app, IH. cbn [foldl]. unfold opsRecords.
  rewrite fmap_app, join_app, len_app, len_cons, len_nil. cbn. rewrite app_nil_r.
  unfold batchAdd, batchPut, batchDelete, opRecord. by destruct (op_del o).
Qed.

(** The operation fits the u32 lengths of its record. *)
Definition op_fits (o : memOp) : Prop := len (op_k o) < 2 ^ 32 /\ len (op_v o) < 2 ^ 32.

Lemma index_mid {A} (pre : list A) x post off : off = len pre -> index (pre ++ x :: post) off = Ok x.
Proof. intros ->. apply index_ok. by rewrite lookup_app_r, Nat.sub_diag by lia. Qed.

Lemma read_op_step n pre o post acc :
  op_fits o ->
  read_ops (S n) (pre ++ opRecord o ++ post) (len pre) acc =
  read_ops n (pre ++ opRecord o ++ post) (len (pre ++ opRecord o)) (acc ++ [to_batchOp o]).
Proof.
  intros [Hk Hv]. unfold opRecord, to_batchOp. destruct (op_del o); cbn [read_ops];
    rewrite <- !app_comm_cons, <- ?app_assoc, index_mid by done; cbn [obind].
  - rewrite cons_middle, (app_assoc pre), (read_bytes_at (pre ++ [z2b opDel]) (op_k o) post)
      by (rewrite ?len_app; done).
    cbn [obind]. change (b2z (z2b opDel) =? opPut) with false. cbn iota. f_equal.
    rewrite ?len_app, ?len_cons, ?len_nil, ?len_app. lia.
  - rewrite cons_middle, (app_assoc pre),
      (read_bytes_at (pre ++ [z2b opPut]) (op_k o) (prefixed (op_v o) ++ post)) by (rewrite ?len_app; done).
    cbn [obind]. change (b2z (z2b opPut) =? opPut) with true. cbn iota.
    rewrite (app_assoc (pre ++ _)), (read_bytes_at _ (op_v o) post)
      by (rewrite ?len_app, ?len_cons, ?len_nil; lia).
    cbn [obind]. f_equal. rewrite ?len_app, ?len_cons, ?len_nil, ?len_app. lia.
Qed.

Lemma read_ops_records ops : forall pre acc,
  Forall op_fits ops ->
  read_ops (length ops) (pre ++ opsRecords ops) (len pre) acc = Ok (acc ++ (to_batchOp <$> ops)).
Proof.
  induction ops as [|o ops IH]; intros pre acc Hf; [cbn; by rewrite app_nil_r|].
  apply Forall_cons in Hf as [Ho Hf].
  change (opsRecords (o :: ops)) with (opRecord o ++ opsRecords ops). cbn [length].
  rewrite read_op_step, app_assoc, IH by done. by rewrite <- app_assoc.
Qed.

(** *** Frames *)

Lemma readFull_app a b n : n = len a -> readFull n (a ++ b) = Some (a, b).
Proof.
  intros ->. unfold readFull. rewrite len_app. pose proof (len_nonneg b). case_zcmp; [|lia].
  unfold len. by rewrite Nat2Z.id, take_app_length, drop_app_length.
Qed.

Lemma le_value_le8 id : is_u64 id -> le_value (le_bytes 8 id) = id.
Proof. intros Hid. rewrite le_roundtrip. by apply Z.mod_small. Qed.

(** The payload half of a frame, shared by both directions. *)
Lemma read_tail {A} (b rest : bytes) (f : bytes -> bytes -> A) (none : A) :
  len b < 2 ^ 32 ->
  (if le_value (u32le (len b)) >? 0 then
     match readFull (le_value (u32le (len b))) (b ++ rest) with
     | None => none
     | Some (x, y) => f x y
     end
   else f [] (b ++ rest)) = f b rest.
Proof.
  intros Hb. rewrite le_value_u32le by auto with go. case_zcmp; [by rewrite readFull_app|].
  destruct b; [done|]. rewrite len_cons in *. pose proof (len_nonneg b0). lia.
Qed.

Lemma requestFrame_split op id payload rest :
  requestFrame op id payload ++ rest =
  (z2b op :: le_bytes 8 id ++ u32le (len payload)) ++ payload ++ rest.
Proof. unfold requestFrame, prefixed. cbn [app]. by rewrite <- !app_assoc. Qed.

Lemma write_response_split id status body rest :
  write_response id status body ++ rest =
  (le_bytes 8 id ++ z2b status :: u32le (len body)) ++ body ++ rest.
Proof. unfold write_response, prefixed. by rewrite <- !app_assoc, <- !app_comm_cons, <- app_assoc. Qed.

Lemma readRequest_frame op id payload rest :
  0 <= op < 256 -> is_u64 id -> len payload < 2 ^ 32 ->
  readRequest (requestFrame op id payload ++ rest) = Some (MkRequest op id payload, rest).
Proof.
  intros Hop Hid Hp. unfold readRequest. rewrite requestFrame_split.
  rewrite readFull_app by (rewrite len_cons, len_app, len_u32le; unfold len; rewrite length_le_bytes; done).
  change ((z2b op :: le_bytes 8 id ++ u32le (len payload)) !! 0%nat) with (Some (z2b op)).
  change (drop 1 (z2b op :: ?l)) with l. cbn [from_option drop].
  replace (drop 8 (le_bytes 8 id ++ u32le (len payload))) with (u32le (len payload)) by done.
  replace (take 8 (le_bytes 8 id ++ u32le (len payload))) with (le_bytes 8 id) by done.
  rewrite (read_tail payload rest (fun x y => Some (MkRequest _ _ x, y)) None) by done.
  unfold Datatypes.id. rewrite b2z_z2b, Z.mod_small, le_value_le8 by done. done.
Qed.

Lemma readResponse_frame id r rest :
  is_u64 id -> 0 <= r_status r < 256 -> len (r_body r) < 2 ^ 32 ->
  readResponse (write_response id (r_status r) (r_body r) ++ rest) = Some (id, r, rest).
Proof.
  intros Hid Hs Hb. unfold readResponse. rewrite write_response_split.
  rewrite readFull_app by (rewrite len_app, len_cons, len_u32le; unfold len; rewrite length_le_bytes; done).
  change ((le_bytes 8 id ++ z2b (r_status r) :: u32le (len (r_body r))) !! 8%nat) with (Some (z2b (r_status r))).
  cbn [from_option].
  replace (drop 9 (le_bytes 8 id ++ z2b (r_status r) :: u32le (len (r_body r))))
    with (u32le (len (r_body r))) by done.
  replace (take 8 (le_bytes 8 id ++ z2b (r_status r) :: u32le (len (r_body r)))) with (le_bytes 8 id) by done.
  rewrite (read_tail (r_body r) rest (fun x y => Some (_, MkResponse _ x, y)) None) by done.
  unfold Datatypes.id. rewrite b2z_z2b, Z.mod_small, le_value_le8 by done. by destruct r.
Qed.

(** *** Scan bodies *)

Definition rowRecord (kv : bytes * bytes) : bytes := prefixed kv.1 ++ prefixed kv.2.

Lemma scanBody_records rows : scanBody rows = mjoin (rowRecord <$> rows).
Proof.
  unfold scanBody. induction rows as [|kv rows IH] using rev_ind; [done|].
  rewrite foldl_app, IH, fmap_app, join_app. cbn. by rewrite app_nil_r.
Qed.

Definition row_fits (kv : bytes * bytes) : Prop := len kv.1 < 2 ^ 32 /\ len kv.2 < 2 ^ 32.

Lemma Next_row pre kv post k v :
  row_fits kv ->
  Next (MkIter (pre ++ rowRecord kv ++ post) (len pre) k v) =
  Ok (true, MkIter (pre ++ rowRecord kv ++ post) (len (pre ++ rowRecord kv)) kv.1 kv.2).
Proof.
  intros [Hk Hv]. unfold Next, rowRecord, prefixed. cbn [it_body it_off it_k it_v].
  rewrite <- !app_assoc.
  assert (len (pre ++ u32le (len kv.1) ++ kv.1 ++ u32le (len kv.2) ++ kv.2 ++ post) =
    len pre + 4 + len kv.1 + 4 + len kv.2 + len post) as Hlen
    by (rewrite !len_app, !len_u32le; lia).
  rewrite Hlen. pose_len_nonneg. case_zcmp; [lia|].
  rewrite read_u32_at by auto with go. cbn [obind]. case_zcmp; [lia|].
  rewrite (app_assoc pre), slice_mid by (rewrite ?len_app, ?len_u32le; lia). cbn [obind].
  rewrite (app_assoc (pre ++ _)), read_u32_at by (rewrite ?len_app, ?len_u32le; auto with go; lia).
  cbn [obind]. case_zcmp; [lia|].
  rewrite (app_assoc ((pre ++ _) ++ _)), slice_mid by (rewrite ?len_app, ?len_u32le; lia). cbn [obind].
  do 3 f_equal. rewrite !len_app, !len_u32le. lia.
Qed.

Lemma drain_rows rows : forall fuel pre k v,
  Forall row_fits rows -> (length rows < fuel)%nat ->
  drain fuel (MkIter (pre ++ mjoin (rowRecord <$> rows)) (len pre) k v) = Ok rows.
Proof.
  induction rows as [|kv rows IH]; intros fuel pre k v Hf Hl; (destruct fuel as [|f]; simpl in Hl; [lia|]);
    cbn [drain].
  - unfold Next. cbn. rewrite app_nil_r. case_zcmp; [done|lia].
  - apply Forall_cons in Hf as [Hkv Hf].
    change (mjoin (rowRecord <$> kv :: rows)) with (rowRecord kv ++ mjoin (rowRecord <$> rows)).
    rewrite Next_row by done. cbn [obind]. rewrite app_assoc, IH by (done || lia).
    cbn [obind]. by destruct kv.
Qed.

(** ** The contract of the trait

    What the helper relies on: a store that represents a map, whose calls do
    not fail, and whose scan lists the entries from a key in byte order. *)

Definition apply_batchOp (m : gmap bytes bytes) (o : BatchOp) : gmap bytes bytes :=
  match o with BPut k v => <[k := v]> m | BDel k => delete k m end.

Class KvLaws (S : Type) `{Kv S} := {
  k_rep : S -> gmap bytes bytes -> Prop;
  k_get_law s m k : k_rep s m -> k_get s k = m !! k;
  k_put_law s m k v : k_rep s m -> exists s', k_put s k v = Ok s' /\ k_rep s' (<[k := v]> m);
  k_del_law s m k : k_rep s m -> exists s', k_del s k = Ok s' /\ k_rep s' (delete k m);
  k_scan_law s m start limit : k_rep s m -> 0 < limit ->
    k_scan s start limit = take (Z.to_nat limit) (entries_from m start);
  k_flush_law s m : k_rep s m -> exists s', k_flush s = Ok s' /\ k_rep s' m;
  k_batch_law s m ops : k_rep s m ->
    exists s', k_batch s ops = Ok s' /\ k_rep s' (foldl apply_batchOp m ops) }.

(** The map itself meets the contract. *)
#[global] Instance gmap_kv : Kv (gmap bytes bytes) := {
  k_get m k := m !! k;
  k_put m k v := Ok (<[k := v]> m);
  k_del m k := Ok (delete k m);
  k_scan m start limit := take (Z.to_nat limit) (entries_from m start);
  k_flush m := Ok m;
  k_batch m ops := Ok (foldl apply_batchOp m ops) }.

#[global] Instance gmap_kv_laws : KvLaws (gmap bytes bytes).
Proof. refine {| k_rep := eq |}; intros; subst; cbn; eauto. Defined.

(** ** The client over one round trip *)

Inductive cop :=
| CGet (k : bytes)
| CPut (k v : bytes)
| CDelete (k : bytes)
| CBatch (ops : list memOp)
| CScan (start : bytes)
| CFlush.

(** What an operation gives its caller: a lookup, the status of a failed
    write (none on success), or the rows of a drained scan. *)
Inductive cres :=
| RVal (v : option bytes)
| RErr (status : option Z)
| RRows (rows : list (bytes * bytes)).

Record client (S : Type) := MkClient { c_nextID : Z; c_store : S }.
Arguments MkClient {S}.
Arguments c_nextID {S}.
Arguments c_store {S}.

Section Client.
Context {S : Type} `{Kv S}.

(** One call with nothing else in flight: the frame crosses the pipe, the
    helper reads it and handles it, and its response crosses back. *)
Definition call (c : client S) (op : Z) (payload : bytes) : outcome (response * client S) :=
  let id := c_nextID c in
  match readRequest (requestFrame op id payload) with
  | None => Spin
  | Some (q, _) =>
      let* (r, s') := handle (c_store c) (q_op q) (q_payload q) in
      match readResponse (write_response (q_id q) (r_status r) (r_body r)) with
      | None => Spin
      | Some (id', r', _) =>
          if id' =? id then Ok (r', MkClient (id +64 1) s') else Spin
      end
  end.

Definition Get (c : client S) (key : bytes) : outcome (option bytes * client S) :=
  let* (r, c') := call c opGet (keyPayload key) in Ok (getResult r, c').
Definition Put (c : client S) (key value : bytes) : outcome (option Z * client S) :=
  let* (r, c') := call c opPut (putPayload key value) in Ok (writeResult r, c').

(** [Delete], [Scan] and [Flush] do not look at the status. *)
Definition Delete (c : client S) (key : bytes) : outcome (client S) :=
  let* (_, c') := call c opDel (keyPayload key) in Ok c'.
Definition Scan (c : client S) (start : bytes) : outcome (iter * client S) :=
  let* (r, c') := call c opScan (scanPayload start) in Ok (newIter r, c').
Definition Flush (c : client S) : outcome (client S) :=
  let* (_, c') := call c opFlush [] in Ok c'.

(** The batch is emptied whatever the response is. *)
Definition Commit (c : client S) (b : batch) : outcome (option Z * batch * client S) :=
  let* (r, c') := call c opBatch (batchPayload b) in Ok (writeResult r, NewBatch, c').

(** The operation of a caller, a scan drained to its end. *)
Definition client_op (c : client S) (o : cop) : outcome (cres * client S) :=
  match o with
  | CGet k => let* (v, c') := Get c k in Ok (RVal v, c')
  | CPut k v => let* (e, c') := Put c k v in Ok (RErr e, c')
  | CDelete k => let* c' := Delete c k in Ok (RErr None, c')
  | CBatch ops => let* (e, _, c') := Commit c (batchOf ops) in Ok (RErr e, c')
  | CScan start =>
      let* (it, c') := Scan c start in
      let* rows := drain (Z.to_nat scanCap + 1) it in Ok (RRows rows, c')
  | CFlush => let* c' := Flush c in Ok (RErr None, c')
  end.

Fixpoint client_run (c : client S) (os : list cop) : outcome (list cres * client S) :=
  match os with
  | [] => Ok ([], c)
  | o :: os' =>
      let* (r, c1) := client_op c o in
      let* (rs, c2) := client_run c1 os' in Ok (r :: rs, c2)
  end.
End Client.

(** The same operations on the map: the specification. *)
Definition map_op (m : gmap bytes bytes) (o : cop) : cres * gmap bytes bytes :=
  match o with
  | CGet k => (RVal (m !! k), m)
  | CPut k v => (RErr None, <[k := v]> m)
  | CDelete k => (RErr None, delete k m)
  | CBatch ops => (RErr None, apply_ops m ops)
  | CScan start => (RRows (take (Z.to_nat scanCap) (entries_from m start)), m)
  | CFlush => (RErr None, m)
  end.

Fixpoint map_run (m : gmap bytes bytes) (os : list cop) : list cres * gmap bytes bytes :=
  match os with
  | [] => ([], m)
  | o :: os' =>
      let '(r, m1) := map_op m o in
      let '(rs, m2) := map_run m1 os' in (r :: rs, m2)
  end.

(** The request an operation sends and how it reads the response. *)
Definition encodeOp (o : cop) : Z * bytes :=
  match o with
  | CGet k => (opGet, keyPayload k)
  | CPut k v => (opPut, putPayload k v)
  | CDelete k => (opDel, keyPayload k)
  | CBatch ops => (opBatch, batchPayload (batchOf ops))
  | CScan start => (opScan, scanPayload start)
  | CFlush => (opFlush, [])
  end.

Definition decodeOp (o : cop) (r : response) : outcome cres :=
  match o with
  | CGet _ => Ok (RVal (getResult r))
  | CPut _ _ | CBatch _ => Ok (RErr (writeResult r))
  | CDelete _ | CFlush => Ok (RErr None)
  | CScan _ => let* rows := drain (Z.to_nat scanCap + 1) (newIter r) in Ok (RRows rows)
  end.

Lemma client_op_call {S} `{Kv S} (c : client S) o :
  client_op c o =
  let* (r, c') := call c (encodeOp o).1 (encodeOp o).2 in
  let* x := decodeOp o r in Ok (x, c').
Proof.
  destruct o; cbn [client_op encodeOp decodeOp fst snd]; unfold Get, Put, Delete, Commit, Scan, Flush;
    match goal with |- context [call ?c ?op ?p] => destruct (call c op p) as [[r c']| |] end;
    cbn [obind]; try done. by destruct (drain _ _).
Qed.

(** ** Sizes

    A frame's lengths are 32-bit.  An entry of at most 4 MiB leaves room for
    the 512 rows of a scan in one response. *)

Definition entry_max : Z := 2 ^ 22.
Definition small (k v : bytes) : Prop := len k + len v <= entry_max.
Definition map_small (m : gmap bytes bytes) : Prop := map_Forall small m.

Definition cop_fits (o : cop) : Prop :=
  match o with
  | CGet k | CDelete k => len (keyPayload k) < 2 ^ 32
  | CPut k v => small k v
  | CBatch ops =>
      Forall (fun o => small (op_k o) (op_v o)) ops /\ len (batchPayload (batchOf ops)) < 2 ^ 32
  | CScan start => len (scanPayload start) < 2 ^ 32
  | CFlush => True
  end.

Lemma small_lens k v : small k v -> len k < 2 ^ 32 /\ len v < 2 ^ 32.
Proof. unfold small, entry_max. zlia. Qed.

Lemma apply_op_small m o : map_small m -> small (op_k o) (op_v o) -> map_small (apply_op m o).
Proof.
  unfold map_small, apply_op. intros Hm Ho. destruct (op_del o).
  - by apply map_Forall_delete.
  - by apply map_Forall_insert_2.
Qed.

Lemma apply_ops_small ops : forall m,
  map_small m -> Forall (fun o => small (op_k o) (op_v o)) ops -> map_small (apply_ops m ops).
Proof.
  induction ops as [|o ops IH]; intros m Hm Ho; [done|]. apply Forall_cons in Ho as [Ho Hos].
  apply IH; [by apply apply_op_small|done].
Qed.

Lemma map_op_small m o : map_small m -> cop_fits o -> map_small (map_op m o).2.
Proof.
  intros Hm Ho. destruct o as [k|k v|k|ops|start|]; cbn in *; try done.
  - by apply map_Forall_insert_2.
  - by apply map_Forall_delete.
  - apply apply_ops_small; [done|apply Ho].
Qed.

Lemma len_records ops : len ops <= len (opsRecords ops).
Proof.
  induction ops as [|o ops IH]; [done|].
  change (opsRecords (o :: ops)) with (opRecord o ++ opsRecords ops).
  rewrite len_app, len_cons. assert (1 <= len (opRecord o)); [|lia].
  unfold opRecord. destruct (op_del o); rewrite len_cons; zlia.
Qed.

Lemma foldl_batchOp ops m : foldl apply_batchOp m (to_batchOp <$> ops) = apply_ops m ops.
Proof.
  revert m. induction ops as [|o ops IH]; intros m; [done|]. cbn. unfold apply_ops in *. cbn.
  rewrite <- IH. f_equal. unfold to_batchOp, apply_op. by destruct (op_del o).
Qed.

Lemma rows_small m start n :
  map_small m -> Forall (fun kv => small kv.1 kv.2) (take n (entries_from m start)).
Proof.
  intros Hm. apply Forall_take, Forall_forall. intros [k v] [Hkv _]%elem_of_entries_from.
  by apply (Hm k v).
Qed.

Lemma len_rows rows :
  Forall (fun kv => small kv.1 kv.2) rows ->
  len (mjoin (rowRecord <$> rows)) <= len rows * (8 + entry_max).
Proof.
  induction 1 as [|kv rows Hkv _ IH]; [done|].
  change (mjoin (rowRecord <$> kv :: rows)) with (rowRecord kv ++ mjoin (rowRecord <$> rows)).
  rewrite len_app, len_cons. unfold rowRecord, small in *. rewrite len_app, !len_prefixed. lia.
Qed.

(** ** The handler on what the client sends *)

Lemma read_bytes_0 b post :
  len b < 2 ^ 32 -> read_bytes (prefixed b ++ post) 0 = Ok (b, len (prefixed b)).
Proof. intros Hb. apply (read_bytes_at [] b post 0); done. Qed.

Lemma read_bytes_only b : len b < 2 ^ 32 -> read_bytes (prefixed b) 0 = Ok (b, len (prefixed b)).
Proof. intros Hb. rewrite <- (app_nil_r (prefixed b)) at 1. by apply read_bytes_0. Qed.

Lemma read_bytes_end pre b :
  len b < 2 ^ 32 -> read_bytes (pre ++ prefixed b) (len pre) = Ok (b, len pre + len (prefixed b)).
Proof. intros Hb. rewrite <- (app_nil_r (prefixed b)) at 1. by apply read_bytes_at. Qed.

Lemma read_u32_end pre n : is_u32 n -> read_u32 (pre ++ u32le n) (len pre) = Ok n.
Proof. intros Hn. rewrite <- (app_nil_r (u32le n)). by apply read_u32_at. Qed.

(** A response the frame can carry. *)
Definition resp_fits (r : response) : Prop := 0 <= r_status r < 256 /\ len (r_body r) < 2 ^ 32.

Section HandleSpec.
Context {S : Type} `{KvLaws S}.

Lemma handle_scan (s : S) m start :
  k_rep s m -> map_small m -> len (scanPayload start) < 2 ^ 32 ->
  exists r, handle s opScan (scanPayload start) = Ok (r, s) /\ resp_fits r /\
    drain (Z.to_nat scanCap + 1) (newIter r) = Ok (take (Z.to_nat scanCap) (entries_from m start)).
Proof.
  intros Hs Hm Hp. unfold handle, scanPayload in *. rewrite len_app, len_prefixed, len_u32le in Hp.
  pose proof (len_nonneg start).
  cbn [Z.eqb opScan opGet opPut opDel Pos.eqb]. rewrite read_bytes_0 by lia. cbn [obind].
  rewrite read_u32_end by (unfold scanCap; zlia). cbn [obind].
  rewrite (k_scan_law s m) by (done || (unfold scanCap; lia)).
  pose proof (rows_small m start (Z.to_nat scanCap) Hm) as Hrows.
  set (rows := take (Z.to_nat scanCap) (entries_from m start)) in *.
  assert (length rows <= Z.to_nat scanCap)%nat as Hl by (unfold rows; rewrite length_take; lia).
  eexists. split; [done|]. unfold newIter, resp_fits. cbn [r_status r_body]. rewrite scanBody_records. split.
  - split; [lia|]. pose proof (len_rows rows Hrows). unfold len, entry_max in *.
    change (Z.to_nat scanCap) with 512%nat in Hl. lia.
  - apply (drain_rows rows _ [] [] []); [|lia].
    eapply Forall_impl; [exact Hrows|]. intros kv. apply small_lens.
Qed.

Lemma handle_batch (s : S) m ops :
  k_rep s m -> cop_fits (CBatch ops) ->
  exists s', handle s opBatch (batchPayload (batchOf ops)) = Ok (MkResponse 0 [], s') /\
    k_rep s' (apply_ops m ops).
Proof.
  intros Hs [Hops Hp]. rewrite batchOf_records in *. unfold batchPayload, handle in *.
  cbn [b_n b_buf] in *. rewrite len_app, len_u32le in Hp.
  pose proof (len_records ops). pose proof (len_nonneg ops).
  cbn [Z.eqb opBatch opFlush opScan opGet opPut opDel Pos.eqb].
  pose proof (read_u32_at [] (len ops) (opsRecords ops) 0 eq_refl ltac:(zlia)) as Hc. cbn [app] in Hc.
  rewrite Hc. cbn [obind].
  replace (Z.to_nat (len ops)) with (length ops) by (unfold len; lia).
  change 4 with (len (u32le (len ops))) at 1.
  rewrite read_ops_records by (eapply Forall_impl; [exact Hops|]; intros o; apply small_lens).
  cbn [obind app]. destruct (k_batch_law s m (to_batchOp <$> ops) Hs) as (s' & -> & Hs').
  exists s'. split; [done|]. by rewrite foldl_batchOp in Hs'.
Qed.

(** The helper handles every request the client frames: it does not panic,
    its response fits a frame, and the client reads in it what the map gives. *)
Lemma handle_spec (s : S) m o :
  k_rep s m -> map_small m -> cop_fits o ->
  exists r s', handle s (encodeOp o).1 (encodeOp o).2 = Ok (r, s') /\ resp_fits r /\
    k_rep s' (map_op m o).2 /\ decodeOp o r = Ok (map_op m o).1.
Proof.
  intros Hs Hm Ho. destruct o as [k|k v|k|ops|start|]; cbn [encodeOp fst snd decodeOp map_op].
  - unfold handle, keyPayload. cbn [cop_fits] in Ho. unfold keyPayload in Ho. rewrite len_prefixed in Ho.
    cbn [Z.eqb opGet Pos.eqb]. rewrite read_bytes_only by lia. cbn [obind].
    rewrite (k_get_law s m) by done. destruct (m !! k) as [v|] eqn:Ek; (eexists _, s; split; [done|]);
      (split; [|done]); (split; cbn [r_status r_body]; [lia|]); [|done].
    specialize (Hm k v Ek). apply small_lens in Hm. lia.
  - pose proof (small_lens k v Ho) as [Hk Hv]. unfold handle, putPayload.
    cbn [Z.eqb opGet opPut Pos.eqb]. rewrite read_bytes_0 by lia. cbn [obind].
    rewrite read_bytes_end by done. cbn [obind].
    destruct (k_put_law s m k v Hs) as (s' & -> & Hs'). cbn [obind]. by exists (MkResponse 0 []), s'.
  - unfold handle, keyPayload. cbn [cop_fits] in Ho. unfold keyPayload in Ho. rewrite len_prefixed in Ho.
    cbn [Z.eqb opGet opPut opDel Pos.eqb]. rewrite read_bytes_only by lia. cbn [obind].
    destruct (k_del_law s m k Hs) as (s' & -> & Hs'). cbn [obind]. by exists (MkResponse 0 []), s'.
  - destruct (handle_batch s m ops Hs Ho) as (s' & -> & Hs'). by exists (MkResponse 0 []), s'.
  - destruct (handle_scan s m start Hs Hm Ho) as (r & -> & Hr & Hd). exists r, s.
    split_and!; [done|apply Hr..|done|]. by rewrite Hd.
  - unfold handle. cbn [Z.eqb opGet opPut opDel opScan opFlush Pos.eqb].
    destruct (k_flush_law s m Hs) as (s' & -> & Hs'). cbn [obind]. by exists (MkResponse 0 []), s'.
Qed.

Lemma encodeOp_fits o : cop_fits o -> 0 <= (encodeOp o).1 < 256 /\ len (encodeOp o).2 < 2 ^ 32.
Proof.
  destruct o as [k|k v|k|ops|start|]; cbn [encodeOp cop_fits fst snd]; intros Ho; (split; [done|]);
    try done; try apply Ho.
  unfold putPayload, small, entry_max in *. rewrite len_app, !len_prefixed. lia.
Qed.

Lemma call_ok (c : client S) op p r s' :
  is_u64 (c_nextID c) -> 0 <= op < 256 -> len p < 2 ^ 32 ->
  handle (c_store c) op p = Ok (r, s') -> resp_fits r ->
  call c op p = Ok (r, MkClient (wrap64 (c_nextID c + 1)) s').
Proof.
  intros Hid Hop Hp Hh [Hst Hb]. unfold call.
  rewrite <- (app_nil_r (requestFrame _ _ _)), readRequest_frame by done. cbn [q_op q_payload q_id].
  rewrite Hh. cbn [obind].
  rewrite <- (app_nil_r (write_response _ _ _)), readResponse_frame by done. by rewrite Z.eqb_refl.
Qed.

Lemma client_run_map os : forall (c : client S) m,
  k_rep (c_store c) m -> map_small m -> is_u64 (c_nextID c) -> Forall cop_fits os ->
  exists c', client_run c os = Ok ((map_run m os).1, c') /\
    k_rep (c_store c') (map_run m os).2 /\ is_u64 (c_nextID c').
Proof.
  induction os as [|o os IH]; intros c m Hr Hm Hid Hf; [by exists c|].
  apply Forall_cons in Hf as [Ho Hf]. destruct (encodeOp_fits o Ho) as [Hop Hp].
  destruct (handle_spec (c_store c) m o Hr Hm Ho) as (r & s' & Hh & Hrf & Hr' & Hd).
  cbn [client_run map_run]. rewrite client_op_call, (call_ok c _ _ r s') by done. cbn [obind].
  rewrite Hd. cbn [obind]. pose proof (map_op_small m o Hm Ho) as Hm'.
  destruct (map_op m o) as [x m1]. cbn [fst snd] in *.
  destruct (IH (MkClient (wrap64 (c_nextID c + 1)) s') m1) as (c' & -> & Hr2 & Hid');
    cbn [c_store c_nextID]; auto with go.
  cbn [obind]. destruct (map_run m1 os) as [xs m2]. by exists c'.
Qed.
End HandleSpec.

(** *** A frame that has only partly arrived *)

Definition reqBytes (q : Request) : bytes := requestFrame (q_op q) (q_id q) (q_payload q).

Definition req_wf (q : Request) : Prop :=
  0 <= q_op q < 256 /\ is_u64 (q_id q) /\ len (q_payload q) < 2 ^ 32.

Lemma readFull_short n s : len s < n -> readFull n s = None.
Proof. intros Hn. unfold readFull. case_zcmp; [lia|done]. Qed.

(** A strict part of a frame is not read. *)
Lemma readRequest_partial q s t :
  req_wf q -> reqBytes q = s ++ t -> t <> [] -> readRequest s = None.
Proof.
  intros (Hop & Hid & Hp) Hs Ht. unfold reqBytes in Hs.
  rewrite <- (app_nil_r (requestFrame _ _ _)), requestFrame_split, app_nil_r in Hs.
  set (hdr := z2b (q_op q) :: le_bytes 8 (q_id q) ++ u32le (len (q_payload q))) in *.
  assert (len hdr = 13) as Hh.
  { unfold hdr. rewrite len_cons, len_app, len_u32le. unfold len. by rewrite length_le_bytes. }
  destruct (Z.lt_ge_cases (len s) 13) as [Hl|Hl]; [unfold readRequest; by rewrite readFull_short|].
  assert (exists u, s = hdr ++ u) as [u ->].
  { destruct (prefix_weak_total hdr s (hdr ++ q_payload q)) as [[u ->]|[u Hu]];
      [by exists (q_payload q)|by exists t|by exists u|]. exists u.
    assert (u = []) as -> by (destruct u; [done|]; rewrite Hu, len_app, len_cons in Hh; zlia).
    by rewrite Hu, !app_nil_r. }
  rewrite <- app_assoc in Hs. apply app_inv_head in Hs.
  unfold readRequest. rewrite readFull_app by done.
  replace (drop 9 hdr) with (u32le (len (q_payload q))) by done.
  rewrite le_value_u32le by auto with go.
  assert (0 < len t) by (destruct t; [done|]; rewrite len_cons; zlia).
  assert (len (q_payload q) = len u + len t) as Hpl by (by rewrite Hs, len_app).
  pose proof (len_nonneg u). case_zcmp; [|lia]. by rewrite readFull_short by lia.
Qed.

(** Reading from what a writer of whole frames has got through so far: either
    the next frame is not complete, or it is the next request. *)
Lemma readRequest_prefix q qs s :
  req_wf q -> s `prefix_of` reqBytes q ++ mjoin (reqBytes <$> qs) ->
  readRequest s = None \/
  exists rest, readRequest s = Some (q, rest) /\ s = reqBytes q ++ rest /\
    rest `prefix_of` mjoin (reqBytes <$> qs).
Proof.
  intros Hq Hs. assert (reqBytes q `prefix_of` reqBytes q ++ mjoin (reqBytes <$> qs)) as Hf by (by eexists).
  destruct (prefix_weak_total _ _ _ Hs Hf) as [[t Ht]|[rest ->]].
  - destruct (decide (t = [])) as [->|Hne]; [|left; by eapply readRequest_partial].
    rewrite app_nil_r in Ht. right. exists []. rewrite <- Ht, app_nil_r. split_and!; [|done|apply prefix_nil].
    rewrite <- (app_nil_r (reqBytes q)). destruct q, Hq as (? & ? & ?). by apply readRequest_frame.
  - right. exists rest. split_and!; [|done|by apply prefix_app_inv in Hs].
    destruct q, Hq as (? & ? & ?). by apply readRequest_frame.
Qed.


Definition demo_cops : list cop :=
  [CPut [Byte.x61] [Byte.x01; Byte.x02]; CGet [Byte.x61]; CGet [Byte.x62];
   CBatch [PutOp [Byte.x62] []; PutOp [Byte.x63] [Byte.x09]; DelOp [Byte.x61]];
   CScan [Byte.x62]; CDelete [Byte.x63]; CFlush; CScan []].

