(* ===== verification/RustKvPipe.v ===== *)
(** * Rust engines over a pipe: concurrent calls
      (eng.call, eng.reader and eng.failAll of adapters/rustkv/rustkv_subprocess.go,
      the reader loop and the worker pool of rust/src/main.rs)

    Many goroutines call one engine.  A call registers a channel under a fresh
    id, writes its frame under the write lock and receives on the channel; the
    helper's reader queues the requests, eight workers handle them and write
    the responses in whatever order they finish; one reader goroutine hands
    each response to the channel registered under its id, or closes every
    channel when the pipe fails.  The machine below has one label per atomic
    section of the code; a run is any sequence of labels. *)

From S2P Require Import Prelude Codec Engine Ordered RustKv.
Local Open Scope go_scope.

(** ** The machine *)

Inductive ioerr :=
| ErrRead (e : string)
| ErrWrite.

(** A goroutine in [call]: before it, after the id is taken, blocked on the
    channel, returned.  A call refused because the reader has failed has no
    id. *)
Inductive cstate :=
| CNew
| CReg (id : Z)
| CWait (id : Z)
| CDone (id : option Z) (res : response + ioerr).

(** [make(chan response, 1)]. *)
Inductive chan :=
| ChEmpty
| ChFull (r : response)
| ChClosed.

Inductive worker :=
| WIdle
| WGot (q : Request)
| WResp (id : Z) (r : response)
| WDead.

Record sys (S : Type) := MkSys {
  s_calls : list cstate;
  s_chans : gmap nat chan;
  s_nextID : Z;
  s_wait : gmap Z nat;
  s_readErr : option ioerr;
  s_wbroken : bool;
  s_in : bytes;
  s_queue : list Request;
  s_workers : list worker;
  s_store : S;
  s_out : bytes;
  s_log : list (Request * response) }.
Arguments MkSys {S}.
Arguments s_calls {S}.
Arguments s_chans {S}.
Arguments s_nextID {S}.
Arguments s_wait {S}.
Arguments s_readErr {S}.
Arguments s_wbroken {S}.
Arguments s_in {S}.
Arguments s_queue {S}.
Arguments s_workers {S}.
Arguments s_store {S}.
Arguments s_out {S}.
Arguments s_log {S}.

Inductive label :=
| LStart (c : nat)
| LWrite (c : nat)
| LWriteFail (c n : nat)
| LRecv (c : nat)
| LHelperRead
| LTake (w : nat)
| LHandle (w : nat)
| LRespond (w : nat)
| LDeliver
| LReadFail (e : string).

(** [failAll] closes the channel of every waiter. *)
Definition closeAll (wait : gmap Z nat) (chans : gmap nat chan) : gmap nat chan :=
  foldr (fun '(_, c) acc => <[c := ChClosed]> acc) chans (map_to_list wait).

Definition nworkers : nat := 8.

Section Machine.
Context {S : Type} (h : S -> Z -> bytes -> outcome (response * S)).
(** The request each goroutine makes: op and payload. *)
Context (reqs : list (Z * bytes)).

Definition init (s0 : S) : sys S :=
  MkSys (replicate (length reqs) CNew) ∅ 0 ∅ None false [] [] (replicate nworkers WIdle) s0 [] [].

(** First critical section of [call]. *)
Definition callStart (s : sys S) (c : nat) : option (sys S) :=
  match s_calls s !! c with
  | Some CNew =>
      match s_readErr s with
      | Some e =>
          Some (MkSys (<[c := CDone None (inr e)]> (s_calls s)) (s_chans s) (s_nextID s) (s_wait s)
                  (s_readErr s) (s_wbroken s) (s_in s) (s_queue s) (s_workers s) (s_store s) (s_out s) (s_log s))
      | None =>
          let id := s_nextID s in
          Some (MkSys (<[c := CReg id]> (s_calls s)) (<[c := ChEmpty]> (s_chans s)) (id +64 1)
                  (<[id := c]> (s_wait s))
                  (s_readErr s) (s_wbroken s) (s_in s) (s_queue s) (s_workers s) (s_store s) (s_out s) (s_log s))
      end
  | _ => None
  end.

(** Second critical section: the frame is written and flushed, or an error
    comes back after [n] bytes of it.  The buffered writer keeps its error. *)
Definition callWrite (s : sys S) (c : nat) : option (sys S) :=
  match s_calls s !! c, reqs !! c with
  | Some (CReg id), Some (op, payload) =>
      if s_wbroken s then None else
      Some (MkSys (<[c := CWait id]> (s_calls s)) (s_chans s) (s_nextID s) (s_wait s)
              (s_readErr s) (s_wbroken s) (s_in s ++ requestFrame op id payload) (s_queue s)
              (s_workers s) (s_store s) (s_out s) (s_log s))
  | _, _ => None
  end.

Definition callWriteFail (s : sys S) (c n : nat) : option (sys S) :=
  match s_calls s !! c, reqs !! c with
  | Some (CReg id), Some (op, payload) =>
      Some (MkSys (<[c := CDone (Some id) (inr ErrWrite)]> (s_calls s)) (s_chans s) (s_nextID s) (s_wait s)
              (s_readErr s) true
              (s_in s ++ if s_wbroken s then [] else take n (requestFrame op id payload)) (s_queue s)
              (s_workers s) (s_store s) (s_out s) (s_log s))
  | _, _ => None
  end.

(** [r, ok := <-ch]. *)
Definition callRecv (s : sys S) (c : nat) : option (sys S) :=
  let ret id res :=
    Some (MkSys (<[c := CDone (Some id) res]> (s_calls s)) (s_chans s) (s_nextID s) (s_wait s)
            (s_readErr s) (s_wbroken s) (s_in s) (s_queue s) (s_workers s) (s_store s) (s_out s) (s_log s)) in
  match s_calls s !! c, s_chans s !! c with
  | Some (CWait id), Some (ChFull r) => ret id (inl r)
  | Some (CWait id), Some ChClosed =>
      match s_readErr s with Some e => ret id (inr e) | None => ret id (inl (MkResponse 0 [])) end
  | _, _ => None
  end.

(** The helper's reader loop: one request onto the queue. *)
Definition helperRead (s : sys S) : option (sys S) :=
  match readRequest (s_in s) with
  | Some (q, rest) =>
      Some (MkSys (s_calls s) (s_chans s) (s_nextID s) (s_wait s) (s_readErr s) (s_wbroken s)
              rest (s_queue s ++ [q]) (s_workers s) (s_store s) (s_out s) (s_log s))
  | None => None
  end.

(** A worker's loop: receive from the queue, handle, respond.  A panic in the
    handler ends the thread. *)
Definition workerTake (s : sys S) (w : nat) : option (sys S) :=
  match s_workers s !! w, s_queue s with
  | Some WIdle, q :: qs =>
      Some (MkSys (s_calls s) (s_chans s) (s_nextID s) (s_wait s) (s_readErr s) (s_wbroken s)
              (s_in s) qs (<[w := WGot q]> (s_workers s)) (s_store s) (s_out s) (s_log s))
  | _, _ => None
  end.

Definition workerHandle (s : sys S) (w : nat) : option (sys S) :=
  match s_workers s !! w with
  | Some (WGot q) =>
      match h (s_store s) (q_op q) (q_payload q) with
      | Ok (r, st) =>
          Some (MkSys (s_calls s) (s_chans s) (s_nextID s) (s_wait s) (s_readErr s) (s_wbroken s)
                  (s_in s) (s_queue s) (<[w := WResp (q_id q) r]> (s_workers s)) st (s_out s)
                  (s_log s ++ [(q, r)]))
      | _ =>
          Some (MkSys (s_calls s) (s_chans s) (s_nextID s) (s_wait s) (s_readErr s) (s_wbroken s)
                  (s_in s) (s_queue s) (<[w := WDead]> (s_workers s)) (s_store s) (s_out s) (s_log s))
      end
  | _ => None
  end.

Definition workerRespond (s : sys S) (w : nat) : option (sys S) :=
  match s_workers s !! w with
  | Some (WResp id r) =>
      Some (MkSys (s_calls s) (s_chans s) (s_nextID s) (s_wait s) (s_readErr s) (s_wbroken s)
              (s_in s) (s_queue s) (<[w := WIdle]> (s_workers s)) (s_store s)
              (s_out s ++ write_response id (r_status r) (r_body r)) (s_log s))
  | _ => None
  end.

(** The reader: look the id up, forget it, send on its channel.  The send
    would block on a channel that is not empty. *)
Definition deliver (s : sys S) : option (sys S) :=
  match s_readErr s, readResponse (s_out s) with
  | None, Some (id, r, rest) =>
      let put chans :=
        Some (MkSys (s_calls s) chans (s_nextID s) (delete id (s_wait s)) (s_readErr s) (s_wbroken s)
                (s_in s) (s_queue s) (s_workers s) (s_store s) rest (s_log s)) in
      match s_wait s !! id with
      | None => put (s_chans s)
      | Some c =>
          match s_chans s !! c with
          | Some ChEmpty => put (<[c := ChFull r]> (s_chans s))
          | _ => None
          end
      end
  | _, _ => None
  end.

Definition failAll (s : sys S) (e : string) : option (sys S) :=
  match s_readErr s with
  | None =>
      Some (MkSys (s_calls s) (closeAll (s_wait s) (s_chans s)) (s_nextID s) ∅ (Some (ErrRead e))
              (s_wbroken s) (s_in s) (s_queue s) (s_workers s) (s_store s) (s_out s) (s_log s))
  | Some _ => None
  end.

Definition exec (l : label) (s : sys S) : option (sys S) :=
  match l with
  | LStart c => callStart s c
  | LWrite c => callWrite s c
  | LWriteFail c n => callWriteFail s c n
  | LRecv c => callRecv s c
  | LHelperRead => helperRead s
  | LTake w => workerTake s w
  | LHandle w => workerHandle s w
  | LRespond w => workerRespond s w
  | LDeliver => deliver s
  | LReadFail e => failAll s e
  end.

Definition step (s s' : sys S) : Prop := exists l, exec l s = Some s'.

(** A label of a run in which the pipe does not fail. *)
Definition ok_label (l : label) : bool :=
  match l with LWriteFail _ _ | LReadFail _ => false | _ => true end.

Definition ok_step (s s' : sys S) : Prop := exists l, ok_label l = true /\ exec l s = Some s'.

Fixpoint execs (ls : list label) (s : sys S) : option (sys S) :=
  match ls with
  | [] => Some s
  | l :: ls' => match exec l s with Some s' => execs ls' s' | None => None end
  end.
End Machine.

(** A closed channel under a nil [readErr] would give the zero response: that
    the code never gets there is part of the invariant below. *)

(** ** The invariant *)

Definition call_id (st : cstate) : option Z :=
  match st with
  | CNew => None
  | CReg id | CWait id => Some id
  | CDone id _ => id
  end.

Definition written (st : cstate) : bool :=
  match st with CNew | CReg _ => false | CWait _ | CDone _ _ => true end.

(** The id of call [c], if it has one, and whether its frame was written. *)
Definition id_at (calls : list cstate) (c : nat) : option Z := calls !! c ≫= call_id.
Definition written_at (calls : list cstate) (c : nat) : bool := from_option written false (calls !! c).

Definition is_new (st : cstate) : bool := match st with CNew => true | _ => false end.
Definition blocked (st : cstate) : bool := match st with CReg _ | CWait _ => true | _ => false end.

Definition got (w : worker) : option Request := match w with WGot q => Some q | _ => None end.
Definition resp (w : worker) : option (Z * response) := match w with WResp id r => Some (id, r) | _ => None end.

Definition respBytes (x : Z * response) : bytes := write_response x.1 (r_status x.2) (r_body x.2).

(** Membership in concatenations, down to the pieces. *)
Ltac mem_tauto :=
  rewrite ?fmap_app, ?elem_of_app; cbn [fmap list_fmap]; rewrite ?fmap_app, ?elem_of_app;
  repeat first [rewrite elem_of_cons | rewrite fmap_app | rewrite elem_of_app | rewrite elem_of_nil];
  tauto.

Section Invariant.
Context {S : Type} (h : S -> Z -> bytes -> outcome (response * S)) (reqs : list (Z * bytes)).
Context (good : S -> Prop) (wfq : Z -> bytes -> Prop).
Context (h_ok : forall s op p, good s -> wfq op p ->
  exists r s', h s op p = Ok (r, s') /\ resp_fits r /\ good s').
Context (reqs_wf : Forall (fun x => 0 <= x.1 < 256 /\ len x.2 < 2 ^ 32 /\ wfq x.1 x.2) reqs).
Context (reqs_count : len reqs < 2 ^ 64).

(** The request is the one a call made, with the id of that call. *)
Definition owned (s : sys S) (q : Request) : Prop :=
  exists c, id_at (s_calls s) c = Some (q_id q) /\ written_at (s_calls s) c = true /\
    reqs !! c = Some (q_op q, q_payload q).

(** The response was computed for the request of call [c]. *)
Definition answered (s : sys S) (c : nat) (id : Z) (r : response) : Prop :=
  exists q, (q, r) ∈ s_log s /\ q_id q = id /\ reqs !! c = Some (q_op q, q_payload q).

(** Running the handler over the log. *)
Fixpoint replays (st : S) (log : list (Request * response)) (st' : S) : Prop :=
  match log with
  | [] => st' = st
  | (q, r) :: log' => exists st1, h st (q_op q) (q_payload q) = Ok (r, st1) /\ replays st1 log' st'
  end.

(** Requests not yet handled and responses not yet delivered; [sin] and [sout]
    are the frames in the two pipes. *)
Definition pending (s : sys S) (sin : list Request) : list Request :=
  sin ++ s_queue s ++ omap got (s_workers s).
Definition answers (s : sys S) (sout : list (Z * response)) : list (Z * response) :=
  omap resp (s_workers s) ++ sout.

Definition started (calls : list cstate) : Z := len (filter (fun st => is_new st = false) calls).

Record Inv (s0 : S) (s : sys S) (sin : list Request) (sout : list (Z * response)) : Prop := MkInv {
  i_calls : length (s_calls s) = length reqs;
  i_workers : length (s_workers s) = nworkers /\ (WDead ∉ s_workers s);
  i_in : s_in s `prefix_of` mjoin (reqBytes <$> sin) /\
         (s_wbroken s = false -> s_in s = mjoin (reqBytes <$> sin));
  i_out : s_out s = mjoin (respBytes <$> sout);
  i_nodup : NoDup (q_id <$> pending s sin ++ (s_log s).*1);
  i_owned : Forall (owned s) (pending s sin ++ (s_log s).*1);
  i_answers : Forall (fun x => resp_fits x.2 /\ exists q, (q, x.2) ∈ s_log s /\ q_id q = x.1) (answers s sout);
  i_next : 0 <= s_nextID s <= started (s_calls s);
  i_ids : forall c id, id_at (s_calls s) c = Some id -> 0 <= id < s_nextID s;
  i_inj : forall c1 c2 id,
    id_at (s_calls s) c1 = Some id -> id_at (s_calls s) c2 = Some id -> c1 = c2;
  i_wait : forall id c, s_wait s !! id = Some c ->
    s_chans s !! c = Some ChEmpty /\ id_at (s_calls s) c = Some id;
  i_full : forall c r id, s_chans s !! c = Some (ChFull r) -> id_at (s_calls s) c = Some id ->
    answered s c id r;
  i_done : forall c oid r, s_calls s !! c = Some (CDone oid (inl r)) ->
    exists id, oid = Some id /\ answered s c id r;
  i_blocked : forall c st id, s_calls s !! c = Some st -> blocked st = true -> call_id st = Some id ->
    exists ch, s_chans s !! c = Some ch /\
      (ch = ChEmpty -> s_wait s !! id = Some c) /\ (ch = ChClosed -> is_Some (s_readErr s));
  i_err : is_Some (s_readErr s) -> s_wait s = ∅;
  i_store : replays s0 (s_log s) (s_store s) /\ good (s_store s);
  i_live : s_wbroken s = false -> forall c id,
    s_calls s !! c = Some (CWait id) -> s_chans s !! c = Some ChEmpty ->
    id ∈ q_id <$> pending s sin \/ id ∈ (answers s sout).*1 }.

(** Steps left before every call has returned. *)
Definition call_weight (st : cstate) : nat :=
  match st with CNew => 8 | CReg _ => 7 | CWait _ => 1 | CDone _ _ => 0 end.
Definition worker_weight (w : worker) : nat :=
  match w with WGot _ => 3 | WResp _ _ => 2 | WIdle | WDead => 0 end.
Definition weight (s : sys S) (sin : list Request) (sout : list (Z * response)) : nat :=
  sum_list_with call_weight (s_calls s) + 5 * length sin + 4 * length (s_queue s) +
  sum_list_with worker_weight (s_workers s) + length sout.

(** *** Updating one call or one worker *)

Lemma id_at_same calls c st st' c' :
  calls !! c = Some st -> call_id st' = call_id st -> id_at (<[c := st']> calls) c' = id_at calls c'.
Proof.
  intros Hc Hi. unfold id_at. destruct (decide (c' = c)) as [->|Hne].
  - rewrite list_lookup_insert_eq by (by eapply lookup_lt_Some). by rewrite Hc.
  - by rewrite list_lookup_insert_ne.
Qed.

Lemma written_at_mono calls c st st' c' :
  calls !! c = Some st -> (written st = true -> written st' = true) ->
  written_at calls c' = true -> written_at (<[c := st']> calls) c' = true.
Proof.
  intros Hc Hw. unfold written_at. destruct (decide (c' = c)) as [->|Hne].
  - rewrite list_lookup_insert_eq by (by eapply lookup_lt_Some). rewrite Hc. apply Hw.
  - by rewrite list_lookup_insert_ne.
Qed.

Lemma weight_insert {A} (f : A -> nat) (l : list A) i x y :
  l !! i = Some x -> (sum_list_with f (<[i := y]> l) + f x = sum_list_with f l + f y)%nat.
Proof.
  revert i. induction l as [|a l IH]; intros [|i] Hi; try done; simpl in *.
  - injection Hi as ->. lia.
  - specialize (IH i Hi). lia.
Qed.

Lemma omap_insert_perm {A B} (f : A -> option B) (l : list A) i x y :
  l !! i = Some x ->
  option_list (f x) ++ omap f (<[i := y]> l) ≡ₚ option_list (f y) ++ omap f l.
Proof.
  revert i. induction l as [|a l IH]; intros [|i] Hi; try done; simpl in *.
  - injection Hi as ->. destruct (f x), (f y); cbn; try done. apply perm_swap.
  - specialize (IH i Hi). destruct (f a) as [b|]; cbn; [|done].
    rewrite <- !Permutation_middle. by f_equiv.
Qed.

Lemma started_insert calls c st st' :
  calls !! c = Some st ->
  started (<[c := st']> calls) + (if is_new st then 0 else 1) = started calls + (if is_new st' then 0 else 1).
Proof.
  unfold started, len. revert c. induction calls as [|a calls IH]; intros [|c] Hc; try done; simpl in *.
  - injection Hc as ->. rewrite !filter_cons. destruct (is_new st), (is_new st'); simpl; lia.
  - specialize (IH c Hc). rewrite !filter_cons. destruct (is_new a); simpl; lia.
Qed.

Lemma started_bound calls : started calls <= len calls.
Proof. unfold started, len. pose proof (length_filter (fun st => is_new st = false) calls). lia. Qed.

(** What [Inv] keeps of the calls when one of them moves on and keeps its id. *)
Lemma owned_same s s' c st st' q :
  s_calls s !! c = Some st -> call_id st' = call_id st -> (written st = true -> written st' = true) ->
  s_calls s' = <[c := st']> (s_calls s) -> owned s q -> owned s' q.
Proof.
  intros Hc Hi Hw Hs (c0 & Hid & Hwr & Hq). exists c0. rewrite Hs. split_and!; [|by eapply written_at_mono|done].
  by rewrite (id_at_same _ _ st).
Qed.

Lemma id_at_start calls c id c' :
  calls !! c = Some CNew ->
  id_at (<[c := CReg id]> calls) c' = if decide (c' = c) then Some id else id_at calls c'.
Proof.
  intros Hc. unfold id_at. case_decide as Hd.
  - subst. by rewrite list_lookup_insert_eq by (by eapply lookup_lt_Some).
  - by rewrite list_lookup_insert_ne.
Qed.

Lemma id_at_new calls c : calls !! c = Some CNew -> id_at calls c = None.
Proof. intros Hc. unfold id_at. by rewrite Hc. Qed.

Lemma lookup_insert_case {A} (l : list A) i j x y :
  <[i := x]> l !! j = Some y -> (i = j /\ x = y) \/ (i <> j /\ l !! j = Some y).
Proof. intros [(-> & -> & _)|[Hn Hy]]%list_lookup_insert_Some; auto. Qed.

Lemma alive_insert ws w x :
  length ws = nworkers /\ (WDead ∉ ws) -> x <> WDead ->
  length (<[w := x]> ws) = nworkers /\ (WDead ∉ <[w := x]> ws).
Proof.
  intros [Hl Hd] Hx. rewrite length_insert. split; [done|]. intros [i Hi]%list_elem_of_lookup.
  apply lookup_insert_case in Hi as [[_ ?]|[_ Hi]]; [done|]. by apply Hd, (list_elem_of_lookup_2 _ i).
Qed.

(** A call takes an id. *)
Lemma inv_start s0 s sin sout c s' :
  Inv s0 s sin sout -> callStart s c = Some s' ->
  Inv s0 s' sin sout /\ (weight s' sin sout < weight s sin sout)%nat.
Proof.
  intros HI Hex. unfold callStart in Hex. destruct (s_calls s !! c) as [[]|] eqn:Hc; try done.
  assert (forall st', weight (MkSys (<[c := st']> (s_calls s)) (s_chans s) (s_nextID s) (s_wait s)
    (s_readErr s) (s_wbroken s) (s_in s) (s_queue s) (s_workers s) (s_store s) (s_out s) (s_log s)) sin sout
    + 8 = weight s sin sout + call_weight st')%nat as Hwt.
  { intros st'. unfold weight. cbn. pose proof (weight_insert call_weight _ _ _ st' Hc) as Hw. cbn in Hw. lia. }
  destruct HI as [HC HW HIn HOut HN HO HA HNx HId HInj HWt HF HD HB HE HS HL].
  destruct (s_readErr s) as [e|] eqn:He; injection Hex as <-.
  - split; [|specialize (Hwt (CDone None (inr e))); cbn in *; lia].
    assert (forall c', id_at (<[c := CDone None (inr e)]> (s_calls s)) c' = id_at (s_calls s) c') as Hsame
      by (intros; by rewrite (id_at_same _ _ CNew)).
    constructor; cbn; try done.
    + by rewrite length_insert.
    + eapply Forall_impl; [exact HO|]. intros q Hq.
      eapply (owned_same s _ c CNew (CDone None (inr e))); [done..|exact Hq].
    + pose proof (started_insert _ _ _ (CDone None (inr e)) Hc) as Hst. cbn in Hst. lia.
    + intros c' id. rewrite Hsame. apply HId.
    + intros c1 c2 id. rewrite !Hsame. apply HInj.
    + intros id c' Hw. rewrite Hsame. by apply HWt.
    + intros c' r id. rewrite Hsame. apply HF.
    + intros c' oid r [[_ [=]]|[_ Hd]]%lookup_insert_case. by apply HD in Hd.
    + intros c' st id [[_ <-]|[_ Hd]]%lookup_insert_case; [done|]. by apply HB.
    + intros Hb c' id [[_ [=]]|[_ Hd]]%lookup_insert_case. by apply HL.
  - assert (s_nextID s + 1 <= started (<[c := CReg (s_nextID s)]> (s_calls s))) as Hst.
    { pose proof (started_insert _ _ _ (CReg (s_nextID s)) Hc) as Hst. cbn in Hst. lia. }
    assert (wrap64 (s_nextID s + 1) = s_nextID s + 1) as Hwrap.
    { apply wrap64_id. pose proof (started_bound (<[c := CReg (s_nextID s)]> (s_calls s))) as Hb.
      unfold len in *. rewrite length_insert, HC in Hb. split; [lia|]. lia. }
    pose proof (id_at_new _ _ Hc) as Hnone.
    split; [|specialize (Hwt (CReg (s_nextID s))); unfold weight in *; cbn in *; lia].
    constructor; cbn; try done; rewrite ?Hwrap.
    + by rewrite length_insert.
    + eapply Forall_impl; [exact HO|]. intros q (c0 & Hid & Hwr & Hq). exists c0. cbn.
      assert (c0 <> c) by (intros ->; congruence).
      rewrite id_at_start by done. rewrite decide_False by done. split_and!; [done| |done].
      unfold written_at in *. by rewrite list_lookup_insert_ne.
    + lia.
    + intros c' id. rewrite id_at_start by done. case_decide; [intros [= <-]; lia|].
      intros Hid%HId. lia.
    + intros c1 c2 id. rewrite !id_at_start by done.
      repeat case_decide; subst; try done; try apply HInj.
      * intros [= <-] Hid%HId. lia.
      * intros Hid%HId [= <-]. lia.
    + intros id c'. rewrite id_at_start by done. intros [[<- <-]|[Hne Hw]]%lookup_insert_Some.
      * rewrite lookup_insert_eq, decide_True by done. done.
      * apply HWt in Hw as [Hch Hid]. assert (c' <> c) by (intros ->; congruence).
        rewrite lookup_insert_ne, decide_False by done. done.
    + intros c' r id. rewrite id_at_start by done. intros [[<- [=]]|[Hne Hf]]%lookup_insert_Some.
      rewrite decide_False by done. by apply HF.
    + intros c' oid r [[_ [=]]|[_ Hd]]%lookup_insert_case. by apply HD in Hd.
    + intros c' st id [[<- <-]|[Hne Hd]]%lookup_insert_case; cbn.
      * intros _ [= <-]. exists ChEmpty. rewrite !lookup_insert_eq. by split_and!.
      * intros Hbl Hid. destruct (HB c' st id Hd Hbl Hid) as (ch & Hch & H1 & H2).
        exists ch. rewrite lookup_insert_ne by done. split_and!; [done| |done].
        intros Hemp. rewrite lookup_insert_ne; [by apply H1|].
        assert (id_at (s_calls s) c' = Some id) as Hi by (unfold id_at; by rewrite Hd).
        apply HId in Hi. lia.
    + intros Hb c' id [[_ [=]]|[Hne Hd]]%lookup_insert_case. rewrite lookup_insert_ne by done. by apply HL.
Qed.

Definition with_call (s : sys S) (c : nat) (st : cstate) (wb : bool) (inp : bytes) : sys S :=
  MkSys (<[c := st]> (s_calls s)) (s_chans s) (s_nextID s) (s_wait s) (s_readErr s) wb inp
    (s_queue s) (s_workers s) (s_store s) (s_out s) (s_log s).

(** A call moves on with its id; [extra] is the frame it put on the pipe, if
    any. *)
Lemma inv_call s0 s sin sout c st st' wb inp extra :
  Inv s0 s sin sout -> s_calls s !! c = Some st ->
  call_id st' = call_id st -> is_new st = false -> is_new st' = false -> written st' = true ->
  (blocked st' = true -> blocked st = true) ->
  (forall oid r, st' = CDone oid (inl r) -> exists id, oid = Some id /\ answered s c id r) ->
  (wb = false -> s_wbroken s = false) ->
  inp `prefix_of` mjoin (reqBytes <$> sin ++ extra) /\ (wb = false -> inp = mjoin (reqBytes <$> sin ++ extra)) ->
  (forall id, wb = false -> st' = CWait id -> id ∈ q_id <$> extra) ->
  (extra = [] \/ exists q, extra = [q] /\ written st = false /\
     call_id st = Some (q_id q) /\ reqs !! c = Some (q_op q, q_payload q)) ->
  Inv s0 (with_call s c st' wb inp) (sin ++ extra) sout.
Proof.
  intros HI Hc Hi Hn Hn' Hw Hbl Hres Hwb Hin Hlv Hex.
  destruct HI as [HC HW HIn HOut HN HO HA HNx HId HInj HWt HF HD HB HE HS HL].
  assert (forall c', id_at (<[c := st']> (s_calls s)) c' = id_at (s_calls s) c') as Hsame
    by (intros; by rewrite (id_at_same _ _ st)).
  set (s' := with_call s c st' wb inp).
  assert (((sin ++ extra) ++ s_queue s ++ omap got (s_workers s)) ++ (s_log s).*1 ≡ₚ
    extra ++ pending s sin ++ (s_log s).*1) as Hperm.
  { unfold pending. rewrite (Permutation_app_comm sin extra). by rewrite <- !app_assoc. }
  assert (Forall (owned s') (pending s sin ++ (s_log s).*1)) as HO'.
  { eapply Forall_impl; [exact HO|]. intros q Hq. by eapply (owned_same s s' c st st'). }
  constructor; cbn [s_calls s_chans s_nextID s_wait s_readErr s_wbroken s_in s_queue s_workers s_store
    s_out s_log s' with_call]; try done.
  + by rewrite length_insert.
  + unfold pending at 1. cbn. rewrite Hperm. destruct Hex as [->|(q & -> & Hnw & Hid & Hq)]; [done|].
    cbn [app fmap list_fmap]. apply NoDup_cons. split; [|done]. intros (q' & Heq & Hin')%list_elem_of_fmap.
    rewrite Forall_forall in HO. destruct (HO q' Hin') as (c0 & Hid0 & Hw0 & _).
    assert (id_at (s_calls s) c = Some (q_id q)) as Hidc by (unfold id_at; by rewrite Hc).
    rewrite <- Heq in Hid0. pose proof (HInj _ _ _ Hid0 Hidc) as ->.
    unfold written_at in Hw0. rewrite Hc in Hw0. cbn in Hw0. congruence.
  + unfold pending at 1. cbn. rewrite Hperm. apply Forall_app. split; [|done].
    destruct Hex as [->|(q & -> & Hnw & Hid & Hq)]; [done|]. apply Forall_singleton. exists c. cbn.
    rewrite Hsame. unfold id_at, written_at. rewrite Hc, list_lookup_insert_eq by (by eapply lookup_lt_Some).
    done.
  + pose proof (started_insert _ _ _ st' Hc) as Hst. rewrite Hn, Hn' in Hst. lia.
  + intros c' id. rewrite Hsame. apply HId.
  + intros c1 c2 id. rewrite !Hsame. apply HInj.
  + intros id c' Hw'. rewrite Hsame. by apply HWt.
  + intros c' r id. rewrite Hsame. apply HF.
  + intros c' oid r [[<- ->]|[_ Hd]]%lookup_insert_case; [by apply Hres|by apply HD in Hd].
  + intros c' st0 id [[<- <-]|[_ Hd]]%lookup_insert_case; [|by apply HB].
    intros Hb Hid. rewrite Hi in Hid. by apply (HB c st id Hc (Hbl Hb)).
  + intros Hb c' id Hc' Hch.
    assert (id ∈ q_id <$> pending s sin ++ extra \/ id ∈ (answers s sout).*1) as Hor.
    { rewrite fmap_app, elem_of_app. apply lookup_insert_case in Hc' as [[<- ->]|[_ Hd]].
      - left. right. by apply Hlv.
      - destruct (HL (Hwb Hb) c' id Hd Hch); auto. }
    destruct Hor as [Hor|Hor]; [left|by right].
    unfold pending in *. cbn. rewrite !fmap_app, !elem_of_app in *. tauto.
Qed.

Lemma weight_call s c st st' wb inp sin extra sout :
  s_calls s !! c = Some st ->
  (weight (with_call s c st' wb inp) (sin ++ extra) sout + call_weight st =
   weight s sin sout + call_weight st' + 5 * length extra)%nat.
Proof.
  intros Hc. unfold weight, with_call. cbn. pose proof (weight_insert call_weight _ _ _ st' Hc) as Hw.
  rewrite length_app. lia.
Qed.

Lemma inv_write s0 s sin sout c s' :
  Inv s0 s sin sout -> callWrite reqs s c = Some s' ->
  exists q, Inv s0 s' (sin ++ [q]) sout /\ (weight s' (sin ++ [q]) sout < weight s sin sout)%nat.
Proof.
  intros HI Hex. unfold callWrite in Hex. destruct (s_calls s !! c) as [[]|] eqn:Hc; try done.
  destruct (reqs !! c) as [[op payload]|] eqn:Hq; [|done]. destruct (s_wbroken s) eqn:Hwb; [done|].
  injection Hex as <-. exists (MkRequest op id payload). split.
  - apply (inv_call s0 s sin sout c (CReg id) (CWait id) false _ [MkRequest op id payload]); try done.
    + destruct (i_in _ _ _ _ HI) as [_ Heq]. specialize (Heq Hwb). rewrite fmap_app, join_app, <- Heq. cbn.
      rewrite app_nil_r. done.
    + intros id' _ [= <-]. by left.
    + right. by eexists.
  - pose proof (weight_call s c (CReg id) (CWait id) false (s_in s ++ requestFrame op id payload) sin
      [MkRequest op id payload] sout Hc) as Hw. cbn [call_weight length] in Hw. unfold with_call in Hw. lia.
Qed.

Lemma inv_write_fail s0 s sin sout c n s' :
  Inv s0 s sin sout -> callWriteFail reqs s c n = Some s' -> exists sin', Inv s0 s' sin' sout.
Proof.
  intros HI Hex. unfold callWriteFail in Hex. destruct (s_calls s !! c) as [[]|] eqn:Hc; try done.
  destruct (reqs !! c) as [[op payload]|] eqn:Hq; [|done]. injection Hex as <-.
  destruct (i_in _ _ _ _ HI) as [Hpre Heq].
  exists (sin ++ if s_wbroken s then [] else [MkRequest op id payload]).
  eapply (inv_call s0 s sin sout c (CReg id) (CDone (Some id) (inr ErrWrite)) true); try done.
  - split; [|done]. destruct (s_wbroken s); [by rewrite !app_nil_r|].
    rewrite fmap_app, join_app, <- Heq by done. apply prefix_app. cbn. rewrite app_nil_r. apply prefix_take.
  - destruct (s_wbroken s); [by left|]. right. by eexists.
Qed.

Lemma inv_recv s0 s sin sout c s' :
  Inv s0 s sin sout -> callRecv s c = Some s' ->
  Inv s0 s' sin sout /\ (weight s' sin sout < weight s sin sout)%nat.
Proof.
  intros HI Hex. unfold callRecv in Hex. destruct (s_calls s !! c) as [[]|] eqn:Hc; try done.
  assert (forall res, (forall r, res = inl r -> answered s c id r) ->
    Inv s0 (with_call s c (CDone (Some id) res) (s_wbroken s) (s_in s)) sin sout /\
    (weight (with_call s c (CDone (Some id) res) (s_wbroken s) (s_in s)) sin sout < weight s sin sout)%nat)
    as Hgo.
  { intros res Hres. rewrite <- (app_nil_r sin) at 1 2. split.
    - apply (inv_call s0 s sin sout c (CWait id) (CDone (Some id) res)); try done; try (by left).
      + intros oid r [= <- ->]. exists id. auto.
      + rewrite app_nil_r. apply (i_in _ _ _ _ HI).
    - pose proof (weight_call s c (CWait id) (CDone (Some id) res) (s_wbroken s) (s_in s) sin [] sout Hc) as Hw.
      cbn [call_weight length] in Hw. lia. }
  destruct (s_chans s !! c) as [[|r|]|] eqn:Hch; try done.
  - injection Hex as <-. apply Hgo. intros r' [= <-].
    apply (i_full _ _ _ _ HI c r id Hch). unfold id_at. by rewrite Hc.
  - destruct (i_blocked _ _ _ _ HI c (CWait id) id Hc eq_refl eq_refl) as (ch & Hch' & _ & Hcl).
    rewrite Hch in Hch'. injection Hch' as <-. destruct (Hcl eq_refl) as [e He]. rewrite He in Hex.
    injection Hex as <-. rewrite <- He. by apply Hgo.
Qed.

Lemma owned_wf s0 s sin sout q : Inv s0 s sin sout -> owned s q -> req_wf q /\ wfq (q_op q) (q_payload q).
Proof.
  intros HI (c & Hid & _ & Hq). pose proof (i_ids _ _ _ _ HI c _ Hid) as Hr.
  pose proof (i_next _ _ _ _ HI). pose proof (started_bound (s_calls s)) as Hb.
  pose proof (i_calls _ _ _ _ HI) as HC. pose proof reqs_count as Hn. unfold len in Hb, Hn. rewrite HC in Hb.
  rewrite Forall_forall in reqs_wf.
  destruct (reqs_wf _ (list_elem_of_lookup_2 _ _ _ Hq)) as (Hop & Hlen & Hwf).
  cbn [fst snd] in *. split; [|done]. unfold req_wf, is_u64. lia.
Qed.

Definition with_helper (s : sys S) (inp : bytes) (queue : list Request) (workers : list worker) (st : S)
    (out : bytes) (log : list (Request * response)) : sys S :=
  MkSys (s_calls s) (s_chans s) (s_nextID s) (s_wait s) (s_readErr s) (s_wbroken s)
    inp queue workers st out log.

(** A step of the helper moves requests towards the log and answers towards
    the pipe. *)
Lemma inv_helper s0 s sin sout sin' sout' inp queue workers st out log :
  Inv s0 s sin sout ->
  let s' := with_helper s inp queue workers st out log in
  length workers = nworkers /\ (WDead ∉ workers) ->
  inp `prefix_of` mjoin (reqBytes <$> sin') /\ (s_wbroken s = false -> inp = mjoin (reqBytes <$> sin')) ->
  out = mjoin (respBytes <$> sout') ->
  pending s' sin' ++ log.*1 ≡ₚ pending s sin ++ (s_log s).*1 ->
  (forall e, e ∈ s_log s -> e ∈ log) ->
  Forall (fun x => resp_fits x.2 /\ exists q, (q, x.2) ∈ log /\ q_id q = x.1) (answers s' sout') ->
  replays s0 log st /\ good st ->
  (forall id, id ∈ q_id <$> pending s sin \/ id ∈ (answers s sout).*1 ->
     id ∈ q_id <$> pending s' sin' \/ id ∈ (answers s' sout').*1) ->
  Inv s0 s' sin' sout'.
Proof.
  intros HI s' Hw Hin Hout Hperm Hlog Hans Hst Hlive.
  destruct HI as [HC HW HIn HOut HN HO HA HNx HId HInj HWt HF HD HB HE HS HL].
  assert (forall c id r, answered s c id r -> answered s' c id r) as Hansw.
  { intros c id r (q & Hq & Hid & Hr). exists q. split_and!; [by apply Hlog|done..]. }
  constructor; try done.
  - cbn [s_log s' with_helper]. by rewrite Hperm.
  - cbn [s_log s' with_helper]. rewrite Hperm. exact HO.
  - intros c r id Hc Hid. apply Hansw. by apply HF.
  - intros c oid r Hd. destruct (HD c oid r Hd) as (id & -> & Ha). exists id. auto.
  - intros Hb c id Hc Hch. apply Hlive. by apply (HL Hb c id).
Qed.

Lemma inv_read s0 s sin sout s' :
  Inv s0 s sin sout -> helperRead s = Some s' ->
  exists sin', Inv s0 s' sin' sout /\ (weight s' sin' sout < weight s sin sout)%nat.
Proof.
  intros HI Hex. unfold helperRead in Hex. destruct (i_in _ _ _ _ HI) as [Hpre Heq].
  destruct (readRequest (s_in s)) as [[q' rest]|] eqn:Hrd; [|done]. injection Hex as <-.
  destruct sin as [|q sin].
  { cbn in Hpre. apply prefix_nil_inv in Hpre. rewrite Hpre in Hrd. done. }
  assert (owned s q) as Hown.
  { pose proof (i_owned _ _ _ _ HI) as HO. unfold pending in HO. cbn in HO. by apply Forall_cons in HO as [? _]. }
  destruct (owned_wf _ _ _ _ _ HI Hown) as [Hwf _].
  destruct (readRequest_prefix q sin (s_in s) Hwf Hpre) as [Hn|(rest' & Hs & Hin & Hrest)]; [congruence|].
  rewrite Hs in Hrd. injection Hrd as <- <-. exists sin. split.
  - apply (inv_helper s0 s (q :: sin) sout sin sout); try done.
    + apply (i_workers _ _ _ _ HI).
    + split; [done|]. intros Hb. specialize (Heq Hb). rewrite Hin in Heq.
      change (mjoin (reqBytes <$> q :: sin)) with (reqBytes q ++ mjoin (reqBytes <$> sin)) in Heq.
      by apply app_inv_head in Heq.
    + apply (i_out _ _ _ _ HI).
    + unfold pending. cbn. rewrite <- !app_assoc. cbn. by rewrite !Permutation_middle.
    + apply (i_answers _ _ _ _ HI).
    + apply (i_store _ _ _ _ HI).
    + intros id. unfold pending, answers. cbn. mem_tauto.
  - unfold weight. cbn. rewrite length_app. cbn. lia.
Qed.

Lemma inv_take s0 s sin sout w s' :
  Inv s0 s sin sout -> workerTake s w = Some s' ->
  Inv s0 s' sin sout /\ (weight s' sin sout < weight s sin sout)%nat.
Proof.
  intros HI Hex. unfold workerTake in Hex. destruct (s_workers s !! w) as [[]|] eqn:Hw; try done.
  destruct (s_queue s) as [|q qs] eqn:Hq; [done|]. injection Hex as <-.
  pose proof (omap_insert_perm got _ w _ (WGot q) Hw) as Hg. cbn in Hg.
  pose proof (omap_insert_perm resp _ w _ (WGot q) Hw) as Hr. cbn in Hr.
  split.
  - apply (inv_helper s0 s sin sout sin sout); try done.
    + by apply alive_insert; [apply (i_workers _ _ _ _ HI)|].
    + apply (i_in _ _ _ _ HI).
    + apply (i_out _ _ _ _ HI).
    + unfold pending. cbn. rewrite Hg, Hq. cbn. by rewrite <- Permutation_middle.
    + unfold answers. cbn. rewrite Hr. apply (i_answers _ _ _ _ HI).
    + apply (i_store _ _ _ _ HI).
    + intros id. unfold pending, answers. cbn. rewrite Hg, Hr, Hq. mem_tauto.
  - unfold weight. cbn. rewrite Hq. pose proof (weight_insert worker_weight _ _ _ (WGot q) Hw). cbn in *. lia.
Qed.

Lemma replays_app log1 log2 : forall st st1 st2,
  replays st log1 st1 -> replays st1 log2 st2 -> replays st (log1 ++ log2) st2.
Proof.
  induction log1 as [|[q r] log1 IH]; intros st st1 st2; cbn; [by intros ->|].
  intros (st' & Hh & H1) H2. exists st'. split; [done|]. by eapply IH.
Qed.

Lemma inv_handle s0 s sin sout w s' :
  Inv s0 s sin sout -> workerHandle h s w = Some s' ->
  Inv s0 s' sin sout /\ (weight s' sin sout < weight s sin sout)%nat.
Proof using h_ok reqs_wf reqs_count.
  intros HI Hex. unfold workerHandle in Hex. destruct (s_workers s !! w) as [[|q|id r|]|] eqn:Hw; try done.
  assert (owned s q) as Hown.
  { pose proof (i_owned _ _ _ _ HI) as HO. rewrite Forall_forall in HO. apply HO. unfold pending.
    rewrite !elem_of_app. left. right. right. apply list_elem_of_omap. exists (WGot q).
    split; [by apply (list_elem_of_lookup_2 _ w)|done]. }
  destruct (owned_wf _ _ _ _ _ HI Hown) as [_ Hwf]. destruct (i_store _ _ _ _ HI) as [Hrep Hgood].
  destruct (h_ok _ _ _ Hgood Hwf) as (r & st & Hh & Hfit & Hgood'). rewrite Hh in Hex. injection Hex as <-.
  pose proof (omap_insert_perm got _ w _ (WResp (q_id q) r) Hw) as Hg. cbn in Hg.
  pose proof (omap_insert_perm resp _ w _ (WResp (q_id q) r) Hw) as Hr. cbn in Hr.
  split.
  - apply (inv_helper s0 s sin sout sin sout); try done.
    + by apply alive_insert; [apply (i_workers _ _ _ _ HI)|].
    + apply (i_in _ _ _ _ HI).
    + apply (i_out _ _ _ _ HI).
    + unfold pending. cbn. rewrite fmap_app. cbn. rewrite <- Hg. rewrite <- !app_assoc. do 2 f_equiv.
      rewrite <- !Permutation_middle, app_nil_r. done.
    + intros e He. by apply elem_of_app; left.
    + unfold answers. cbn. rewrite Hr. cbn. constructor.
      * split; [done|]. exists q. split; [|done]. apply elem_of_app. right. by left.
      * eapply Forall_impl; [apply (i_answers _ _ _ _ HI)|]. intros [id' r'] [Hf (q' & Hq' & Hid')].
        split; [done|]. exists q'. split; [|done]. by apply elem_of_app; left.
    + split; [|done]. eapply replays_app; [exact Hrep|]. cbn. eauto.
    + intros id. unfold pending, answers. cbn. rewrite Hr, <- Hg. mem_tauto.
  - unfold weight. cbn. pose proof (weight_insert worker_weight _ _ _ (WResp (q_id q) r) Hw). cbn in *. lia.
Qed.

Lemma inv_respond s0 s sin sout w s' :
  Inv s0 s sin sout -> workerRespond s w = Some s' ->
  exists sout', Inv s0 s' sin sout' /\ (weight s' sin sout' < weight s sin sout)%nat.
Proof.
  intros HI Hex. unfold workerRespond in Hex. destruct (s_workers s !! w) as [[|q|id r|]|] eqn:Hw; try done.
  injection Hex as <-. exists (sout ++ [(id, r)]).
  pose proof (omap_insert_perm got _ w _ WIdle Hw) as Hg. cbn in Hg.
  pose proof (omap_insert_perm resp _ w _ WIdle Hw) as Hr. cbn in Hr.
  split.
  - apply (inv_helper s0 s sin sout sin (sout ++ [(id, r)])); try done.
    + by apply alive_insert; [apply (i_workers _ _ _ _ HI)|].
    + apply (i_in _ _ _ _ HI).
    + rewrite fmap_app, join_app, (i_out _ _ _ _ HI). cbn [fmap list_fmap mjoin list_join].
      by rewrite app_nil_r.
    + unfold pending. cbn. by rewrite Hg.
    + unfold answers. cbn. pose proof (i_answers _ _ _ _ HI) as HA. unfold answers in HA.
      rewrite <- Hr in HA. rewrite app_assoc, (Permutation_app_comm _ [_]). exact HA.
    + apply (i_store _ _ _ _ HI).
    + intros id'. unfold pending, answers. cbn. rewrite Hg, <- Hr. mem_tauto.
  - unfold weight. cbn. rewrite length_app. pose proof (weight_insert worker_weight _ _ _ WIdle Hw).
    cbn in *. lia.
Qed.

(** The next response on the pipe is read whole, and belongs to the call that
    has its id. *)
Lemma next_response s0 s sin sout id r rest :
  Inv s0 s sin sout -> readResponse (s_out s) = Some (id, r, rest) ->
  exists t, sout = (id, r) :: t /\ rest = mjoin (respBytes <$> t) /\
    forall c, id_at (s_calls s) c = Some id -> answered s c id r.
Proof using reqs_wf reqs_count.
  intros HI Hrd. rewrite (i_out _ _ _ _ HI) in Hrd. destruct sout as [|[id0 r0] t]; [done|].
  pose proof (i_answers _ _ _ _ HI) as HA. unfold answers in HA.
  apply Forall_app in HA as [_ [[Hfit (q & Hq & Hid)] _]%Forall_cons]. cbn [fst snd] in *.
  assert (owned s q) as Hown.
  { pose proof (i_owned _ _ _ _ HI) as HO. rewrite Forall_forall in HO. apply HO. apply elem_of_app. right.
    apply list_elem_of_fmap. by exists (q, r0). }
  destruct (owned_wf _ _ _ _ _ HI Hown) as [(_ & Hu & _) _]. rewrite Hid in Hu. destruct Hfit as [Hst Hb].
  change (mjoin (respBytes <$> (id0, r0) :: t))
    with (write_response id0 (r_status r0) (r_body r0) ++ mjoin (respBytes <$> t)) in Hrd.
  rewrite readResponse_frame in Hrd by done. injection Hrd as <- <- <-. exists t. split_and!; [done..|].
  intros c Hc. exists q. destruct Hown as (c0 & Hid0 & _ & Hreq). rewrite Hid in Hid0.
  by rewrite (i_inj _ _ _ _ HI c c0 id0 Hc Hid0).
Qed.

Lemma blocked_wait s0 s sin sout c id :
  Inv s0 s sin sout -> s_calls s !! c = Some (CWait id) -> s_chans s !! c = Some ChEmpty ->
  s_wait s !! id = Some c.
Proof.
  intros HI Hc Hch. destruct (i_blocked _ _ _ _ HI c _ id Hc eq_refl eq_refl) as (ch & Hch' & Hw & _).
  rewrite Hch in Hch'. injection Hch' as <-. by apply Hw.
Qed.

Lemma inv_deliver s0 s sin sout s' :
  Inv s0 s sin sout -> deliver s = Some s' ->
  exists sout', Inv s0 s' sin sout' /\ (weight s' sin sout' < weight s sin sout)%nat.
Proof using reqs_wf reqs_count.
  intros HI Hex. unfold deliver in Hex. destruct (s_readErr s) eqn:He; [done|].
  destruct (readResponse (s_out s)) as [[[id r] rest]|] eqn:Hrd; [|done].
  destruct (next_response _ _ _ _ _ _ _ HI Hrd) as (t & -> & -> & Hansw).
  pose proof (fun c id => blocked_wait _ _ _ _ c id HI) as Hbw.
  destruct HI as [HC HW HIn HOut HN HO HA HNx HId HInj HWt HF HD HB HE HS HL].
  assert (Forall (fun x => resp_fits x.2 /\ exists q, (q, x.2) ∈ s_log s /\ q_id q = x.1)
    (omap resp (s_workers s) ++ t)) as HA'.
  { unfold answers in HA. rewrite Forall_app, Forall_cons in HA. apply Forall_app. tauto. }
  assert (forall id', id' <> id -> id' ∈ q_id <$> pending s sin \/ id' ∈ (answers s ((id, r) :: t)).*1 ->
    id' ∈ q_id <$> pending s sin \/ id' ∈ (omap resp (s_workers s) ++ t).*1) as Hlv.
  { intros id' Hne. unfold answers. rewrite !fmap_app, !elem_of_app. cbn. rewrite elem_of_cons. tauto. }
  exists t. destruct (s_wait s !! id) as [c|] eqn:Hwid.
  - destruct (HWt id c Hwid) as [Hemp Hid]. rewrite Hemp in Hex. injection Hex as <-.
    split; [|unfold weight; cbn; lia].
    constructor; cbn; try done.
    + intros id' c'. rewrite lookup_delete_Some. intros [Hne Hw]. destruct (HWt id' c' Hw) as [Hch' Hid'].
      assert (c' <> c) by (intros ->; congruence). by rewrite lookup_insert_ne.
    + intros c' r' id'. intros [[<- [= <-]]|[Hne Hf]]%lookup_insert_Some Hid'; [|by apply (HF c' r' id')].
      rewrite Hid in Hid'. injection Hid' as <-. by apply Hansw.
    + intros c' st id' Hc' Hbl Hid'. destruct (HB c' st id' Hc' Hbl Hid') as (ch & Hch & H1 & H2).
      destruct (decide (c' = c)) as [->|Hne].
      * rewrite lookup_insert_eq. by eexists.
      * exists ch. rewrite lookup_insert_ne by done. split_and!; [done| |by rewrite <- He].
        intros Hem. specialize (H1 Hem). rewrite lookup_delete_ne; [done|]. intros ->. congruence.
    + intros Hb c' id' Hc' [[<- [=]]|[Hne Hch]]%lookup_insert_Some.
      apply Hlv; [|by apply (HL Hb c')]. intros ->. specialize (Hbw _ _ Hc' Hch). congruence.
  - injection Hex as <-. split; [|unfold weight; cbn; lia].
    rewrite delete_id by done. constructor; cbn; try done.
    + by rewrite He in HB.
    + intros Hb c' id' Hc' Hch. apply Hlv; [|by apply (HL Hb c')].
      intros ->. specialize (Hbw _ _ Hc' Hch). congruence.
Qed.

Lemma closeAll_in wait chans id c : wait !! id = Some c -> closeAll wait chans !! c = Some ChClosed.
Proof.
  intros Hin%elem_of_map_to_list. unfold closeAll. induction (map_to_list wait) as [|[i c'] l IH]; [by apply not_elem_of_nil in Hin|].
  cbn. destruct (decide (c' = c)) as [->|Hne]; [by rewrite lookup_insert_eq|].
  rewrite lookup_insert_ne by done. apply IH. apply elem_of_cons in Hin as [[= <- <-]|Hin]; done.
Qed.

Lemma closeAll_inv wait chans c :
  closeAll wait chans !! c = Some ChClosed \/ closeAll wait chans !! c = chans !! c.
Proof.
  unfold closeAll. induction (map_to_list wait) as [|[i c'] l IH]; cbn; [by right|].
  destruct (decide (c' = c)) as [->|Hne]; [left; by rewrite lookup_insert_eq|by rewrite lookup_insert_ne].
Qed.

Lemma inv_fail s0 s sin sout e s' :
  Inv s0 s sin sout -> failAll s e = Some s' -> Inv s0 s' sin sout.
Proof.
  intros HI Hex. unfold failAll in Hex. destruct (s_readErr s) eqn:He; [done|]. injection Hex as <-.
  pose proof (fun c id => blocked_wait _ _ _ _ c id HI) as Hbw.
  destruct HI as [HC HW HIn HOut HN HO HA HNx HId HInj HWt HF HD HB HE HS HL].
  constructor; cbn; try done.
  - intros c r id Hf Hid. destruct (closeAll_inv (s_wait s) (s_chans s) c) as [Hcl|Hcl]; [congruence|].
    apply (HF c r id); [congruence|done].
  - intros c st id Hc Hbl Hid. destruct (HB c st id Hc Hbl Hid) as (ch & Hch & H1 & H2).
    destruct (closeAll_inv (s_wait s) (s_chans s) c) as [Hcl|Hcl].
    { exists ChClosed. by split_and!. }
    exists ch. rewrite Hcl. split_and!; [done| |by eauto]. intros ->. specialize (H1 eq_refl).
    apply (closeAll_in _ (s_chans s)) in H1. congruence.
  - intros Hb c id Hc Hch. destruct (closeAll_inv (s_wait s) (s_chans s) c) as [Hcl|Hcl]; [congruence|].
    specialize (Hbw c id Hc). rewrite <- Hcl in Hbw. specialize (Hbw Hch).
    apply (closeAll_in _ (s_chans s)) in Hbw. congruence.
Qed.

Lemma inv_init s0 : good s0 -> Inv s0 (init reqs s0) [] [].
Proof.
  intros Hg. assert (forall c st, replicate (length reqs) CNew !! c = Some st -> st = CNew) as Hnew
    by (by intros c st [-> _]%lookup_replicate_1).
  assert (forall c, id_at (replicate (length reqs) CNew) c = None) as Hid.
  { intros c. unfold id_at. destruct (replicate _ _ !! c) as [st|] eqn:Hc; [|done]. by rewrite (Hnew c st Hc). }
  constructor; cbn; try done.
  - by rewrite length_replicate.
  - split; [done|]. intros Hd. repeat (apply elem_of_cons in Hd as [[=]|Hd]). by apply not_elem_of_nil in Hd.
  - constructor.
  - unfold started. zlia.
  - intros c id. by rewrite Hid.
  - intros c1 c2 id. by rewrite Hid.
  - intros c oid r Hc. by apply Hnew in Hc.
  - intros c st id Hc. apply Hnew in Hc as ->. done.
Qed.

Lemma inv_exec s0 s sin sout l s' :
  Inv s0 s sin sout -> exec h reqs l s = Some s' ->
  exists sin' sout', Inv s0 s' sin' sout' /\
    (ok_label l = true -> (weight s' sin' sout' < weight s sin sout)%nat).
Proof using h_ok reqs_wf reqs_count.
  intros HI Hex. destruct l as [c|c|c n|c| |w|w|w| |e]; cbn [exec ok_label] in *.
  - destruct (inv_start _ _ _ _ _ _ HI Hex). eauto.
  - destruct (inv_write _ _ _ _ _ _ HI Hex) as (q & ? & ?). eauto.
  - destruct (inv_write_fail _ _ _ _ _ _ _ HI Hex) as (sin' & ?). by exists sin', sout.
  - destruct (inv_recv _ _ _ _ _ _ HI Hex). eauto.
  - destruct (inv_read _ _ _ _ _ HI Hex) as (sin' & ? & ?). eauto.
  - destruct (inv_take _ _ _ _ _ _ HI Hex). eauto.
  - destruct (inv_handle _ _ _ _ _ _ HI Hex). eauto.
  - destruct (inv_respond _ _ _ _ _ _ HI Hex) as (sout' & ? & ?). eauto.
  - destruct (inv_deliver _ _ _ _ _ HI Hex) as (sout' & ? & ?). eauto.
  - exists sin, sout. split; [by eapply inv_fail|done].
Qed.

Lemma inv_reachable s0 s :
  good s0 -> rtc (step h reqs) (init reqs s0) s -> exists sin sout, Inv s0 s sin sout.
Proof using h_ok reqs_wf reqs_count.
  intros Hg. revert s. apply (rtc_ind_r (fun s => exists sin sout, Inv s0 s sin sout)).
  - exists [], []. by apply inv_init.
  - intros s s' _ [l Hl] (sin & sout & HI). destruct (inv_exec _ _ _ _ _ _ HI Hl) as (sin' & sout' & ? & _).
    eauto.
Qed.

(** *** What every step keeps *)

Lemma exec_log l s s' : exec h reqs l s = Some s' -> exists tl, s_log s' = s_log s ++ tl.
Proof.
  destruct l; cbn; unfold callStart, callWrite, callWriteFail, callRecv, helperRead, workerTake,
    workerHandle, workerRespond, deliver, failAll; intros Hex; repeat case_match; simplify_eq; cbn;
    try (exists []; by rewrite app_nil_r); eauto.
Qed.

Lemma exec_ids l s s' c id :
  exec h reqs l s = Some s' -> id_at (s_calls s) c = Some id -> id_at (s_calls s') c = Some id.
Proof.
  assert (forall c0 st st', s_calls s !! c0 = Some st -> st = CNew \/ call_id st' = call_id st ->
    id_at (s_calls s) c = Some id -> id_at (<[c0 := st']> (s_calls s)) c = Some id) as Hup.
  { intros c0 st st' Hc [->|Hi] Hid; [|by rewrite (id_at_same _ _ st)].
    unfold id_at in *. rewrite list_lookup_insert_ne; [done|]. intros ->. by rewrite Hc in Hid. }
  destruct l; cbn; unfold callStart, callWrite, callWriteFail, callRecv, helperRead, workerTake,
    workerHandle, workerRespond, deliver, failAll; intros Hex; repeat case_match; simplify_eq; cbn;
    try done; eapply Hup; eauto.
Qed.

(** *** Progress *)

Definition clean (s : sys S) : Prop :=
  s_wbroken s = false /\ s_readErr s = None /\
  forall c oid e, s_calls s !! c <> Some (CDone oid (inr e)).

Lemma clean_step l s s' : clean s -> ok_label l = true -> exec h reqs l s = Some s' -> clean s'.
Proof.
  intros (Hw & He & Hd) Hl.
  assert (forall c st, (forall oid e, st <> CDone oid (inr e)) ->
    forall c' oid e, <[c := st]> (s_calls s) !! c' <> Some (CDone oid (inr e))) as Hup.
  { intros c st Hst c' oid e [[_ ->]|[_ Hc]]%lookup_insert_case; [by eapply Hst|by eapply Hd]. }
  unfold clean. destruct l; try done; cbn; unfold callStart, callWrite, callRecv, helperRead, workerTake,
    workerHandle, workerRespond, deliver; rewrite ?He, ?Hw; intros Hex; repeat case_match; simplify_eq; cbn;
    (split_and!; [done..|]); try done; by apply Hup.
Qed.

Definition finished (s : sys S) : Prop :=
  forall c st, s_calls s !! c = Some st -> exists id r, st = CDone (Some id) (inl r).

Lemma readRequest_next s0 s sin sout :
  Inv s0 s sin sout -> s_wbroken s = false -> sin <> [] -> is_Some (helperRead s).
Proof using reqs_wf reqs_count.
  intros HI Hb Hne. destruct sin as [|q sin]; [done|]. unfold helperRead.
  destruct (i_in _ _ _ _ HI) as [_ Hin]. rewrite (Hin Hb).
  assert (owned s q) as Hown.
  { pose proof (i_owned _ _ _ _ HI) as HO. unfold pending in HO. cbn in HO. by apply Forall_cons in HO as [? _]. }
  destruct (owned_wf _ _ _ _ _ HI Hown) as [(? & ? & ?) _].
  change (mjoin (reqBytes <$> q :: sin)) with (reqBytes q ++ mjoin (reqBytes <$> sin)).
  unfold reqBytes at 1. rewrite readRequest_frame by done. eauto.
Qed.

Lemma deliver_next s0 s sin sout :
  Inv s0 s sin sout -> s_readErr s = None -> sout <> [] -> is_Some (deliver s).
Proof using reqs_wf reqs_count.
  intros HI He Hne. destruct sout as [|[id r] sout]; [done|]. unfold deliver. rewrite He.
  assert (is_Some (readResponse (s_out s))) as [[[id' r'] rest] ->].
  { rewrite (i_out _ _ _ _ HI).
    pose proof (i_answers _ _ _ _ HI) as HA. unfold answers in HA.
    apply Forall_app in HA as [_ [[Hfit (q & Hq & Hid)] _]%Forall_cons]. cbn [fst snd] in *.
    assert (owned s q) as Hown.
    { pose proof (i_owned _ _ _ _ HI) as HO. rewrite Forall_forall in HO. apply HO. apply elem_of_app. right.
      apply list_elem_of_fmap. by exists (q, r). }
    destruct (owned_wf _ _ _ _ _ HI Hown) as [(_ & Hu & _) _]. rewrite Hid in Hu. destruct Hfit.
    change (mjoin (respBytes <$> (id, r) :: sout))
      with (write_response id (r_status r) (r_body r) ++ mjoin (respBytes <$> sout)).
    rewrite readResponse_frame by done. eauto. }
  destruct (s_wait s !! id') as [c|] eqn:Hw; [|eauto].
  destruct (i_wait _ _ _ _ HI id' c Hw) as [-> _]. eauto.
Qed.

Lemma worker_next s w :
  s_workers s !! w <> None -> WDead ∉ s_workers s -> s_queue s <> [] ->
  exists l s', ok_label l = true /\ exec h reqs l s = Some s'.
Proof.
  intros Hw Hd Hq. destruct (s_workers s !! w) as [[|q|id r|]|] eqn:Ew; try done.
  - destruct (s_queue s) as [|q qs] eqn:Eq; [done|]. exists (LTake w). cbn. unfold workerTake. rewrite Ew, Eq. eauto.
  - exists (LHandle w). cbn. unfold workerHandle. rewrite Ew. repeat case_match; eauto.
  - exists (LRespond w). cbn. unfold workerRespond. rewrite Ew. eauto.
  - by apply list_elem_of_lookup_2 in Ew.
Qed.

Lemma got_next s q : q ∈ omap got (s_workers s) -> exists l s', ok_label l = true /\ exec h reqs l s = Some s'.
Proof.
  intros (wk & [w Hw]%list_elem_of_lookup & Hg)%list_elem_of_omap. destruct wk; try done.
  exists (LHandle w). cbn. unfold workerHandle. rewrite Hw. repeat case_match; eauto.
Qed.

Lemma resp_next s x : x ∈ omap resp (s_workers s) -> exists l s', ok_label l = true /\ exec h reqs l s = Some s'.
Proof.
  intros (wk & [w Hw]%list_elem_of_lookup & Hg)%list_elem_of_omap. destruct wk; try done.
  exists (LRespond w). cbn. unfold workerRespond. rewrite Hw. eauto.
Qed.

(** A call blocked on its channel: whatever holds its request or its response
    can move. *)
Lemma wait_next s0 s sin sout id :
  Inv s0 s sin sout -> clean s ->
  id ∈ q_id <$> pending s sin \/ id ∈ (answers s sout).*1 ->
  exists l s', ok_label l = true /\ exec h reqs l s = Some s'.
Proof using reqs_wf reqs_count.
  intros HI (Hwb & He & _) [Hin|Hin]; apply list_elem_of_fmap in Hin as (x & _ & Hin);
    [unfold pending in Hin; rewrite !elem_of_app in Hin; destruct Hin as [Hin|[Hin|Hin]]
    |unfold answers in Hin; apply elem_of_app in Hin as [Hin|Hin]].
  - destruct (readRequest_next _ _ _ _ HI Hwb) as [s' Hs']; [by intros ->; apply not_elem_of_nil in Hin|].
    by exists LHelperRead, s'.
  - destruct (i_workers _ _ _ _ HI) as [Hl Hd]. apply (worker_next s 0); [|done|by intros Hn; rewrite Hn in Hin; apply not_elem_of_nil in Hin].
    by rewrite lookup_ge_None, Hl; unfold nworkers; lia.
  - by eapply got_next.
  - by eapply resp_next.
  - destruct (deliver_next _ _ _ _ HI He) as [s' Hs']; [by intros ->; apply not_elem_of_nil in Hin|].
    by exists LDeliver, s'.
Qed.

Lemma progress s0 s sin sout :
  Inv s0 s sin sout -> clean s -> finished s \/ exists l s', ok_label l = true /\ exec h reqs l s = Some s'.
Proof using reqs_wf reqs_count.
  intros HI Hcl. destruct (decide (Forall (fun st => call_weight st = 0%nat) (s_calls s))) as [Hall|Hall].
  - left. intros c st Hc. rewrite Forall_lookup in Hall. specialize (Hall c st Hc).
    destruct st as [| | |oid [r|e]]; try done.
    + destruct (i_done _ _ _ _ HI c oid r Hc) as (id & -> & _). eauto.
    + destruct Hcl as (_ & _ & Hd). by apply Hd in Hc.
  - right. apply not_Forall_Exists in Hall; [|apply _].
    apply Exists_exists in Hall as (st & [c Hc]%list_elem_of_lookup & Hw).
    pose proof Hcl as (Hwb & He & _). destruct st as [|id|id|]; try done.
    + exists (LStart c). cbn. unfold callStart. rewrite Hc, He. eauto.
    + destruct (lookup_lt_is_Some_2 reqs c) as [[op p] Hq].
      { rewrite <- (i_calls _ _ _ _ HI). by eapply lookup_lt_Some. }
      exists (LWrite c). cbn. unfold callWrite. rewrite Hc, Hq, Hwb. eauto.
    + destruct (i_blocked _ _ _ _ HI c _ id Hc eq_refl eq_refl) as ([|r|] & Hch & _ & _).
      * apply (wait_next s0 s sin sout id HI Hcl). by apply (i_live _ _ _ _ HI Hwb c).
      * exists (LRecv c). cbn. unfold callRecv. rewrite Hc, Hch. eauto.
      * exists (LRecv c). cbn. unfold callRecv. rewrite Hc, Hch, He. eauto.
    + by destruct Hw.
Qed.
End Invariant.

(** ** Calls of the engine's operations *)

Section Calls.
Context {S : Type} `{KvLaws S}.
Context (os : list cop).
Context (os_fit : Forall cop_fits os) (os_count : len os < 2 ^ 64).

Definition requests : list (Z * bytes) := encodeOp <$> os.

Definition store_ok (s : S) : Prop := exists m, k_rep s m /\ map_small m.
Definition op_request (op : Z) (p : bytes) : Prop := exists o, cop_fits o /\ encodeOp o = (op, p).

Lemma requests_wf :
  Forall (fun x => 0 <= x.1 < 256 /\ len x.2 < 2 ^ 32 /\ op_request x.1 x.2) requests.
Proof using os_fit.
  apply Forall_fmap. eapply Forall_impl; [exact os_fit|]. intros o Ho. cbn.
  destruct (encodeOp_fits o Ho). split_and!; try done; try lia. exists o. by destruct (encodeOp o).
Qed.

Lemma requests_count : len requests < 2 ^ 64.
Proof using os_count. unfold len, requests. by rewrite length_fmap. Qed.

Lemma handle_ok s op p :
  store_ok s -> op_request op p -> exists r s', handle s op p = Ok (r, s') /\ resp_fits r /\ store_ok s'.
Proof.
  intros (m & Hr & Hm) (o & Ho & He). destruct (handle_spec s m o Hr Hm Ho) as (r & s' & Hh & Hf & Hr' & _).
  rewrite He in Hh. exists r, s'. split_and!; [done..|]. exists (map_op m o).2. split; [done|].
  by apply map_op_small.
Qed.

Abbreviation run_step := (step handle requests).
Abbreviation run_ok := (ok_step handle requests).
Abbreviation start := (init requests).

(** The calls whose requests the helper has handled, in the order it handled
    them. *)
Definition handled (s : sys S) (order : list nat) : Prop :=
  Forall2 (fun c e => id_at (s_calls s) c = Some (q_id e.1) /\
    requests !! c = Some (q_op e.1, q_payload e.1)) order (s_log s).

Definition ops_of (order : list nat) : list cop := omap (fun c => os !! c) order.

(** [order] explains the state [s] reached from a store that held [m0]: each
    call is handled at most once, only calls that have started are, a call
    that returned got what the map gives at its place in the order, and the
    store holds the map at the end of it. *)
Record explains (m0 : gmap bytes bytes) (s : sys S) (order : list nat) : Prop := MkExplains {
  x_nodup : NoDup order;
  x_started : forall c, c ∈ order -> exists st, s_calls s !! c = Some st /\ st <> CNew;
  x_result : forall c oid r, s_calls s !! c = Some (CDone oid (inl r)) ->
    exists i o x, order !! i = Some c /\ os !! c = Some o /\
      (map_run m0 (ops_of order)).1 !! i = Some x /\ decodeOp o r = Ok x;
  x_store : k_rep (s_store s) (map_run m0 (ops_of order)).2 }.

Lemma handled_extend s s' order :
  rtc run_step s s' -> handled s order ->
  (forall t, rtc run_step s t -> Forall (owned requests t) (s_log t).*1) ->
  exists more, handled s' (order ++ more).
Proof.
  intros Hrun Hh. induction Hrun as [s|s s1 s' [l Hl] Hrun IH] in order, Hh |- *; intros Hown.
  { exists []. by rewrite app_nil_r. }
  destruct (exec_log _ _ _ _ _ Hl) as [tl Htl].
  assert (Forall (owned requests s1) (s_log s1).*1) as Ho by (apply Hown, rtc_once; by exists l).
  assert (exists more, Forall2 (fun c e => id_at (s_calls s1) c = Some (q_id e.1) /\
    requests !! c = Some (q_op e.1, q_payload e.1)) more tl) as [more Hmore].
  { rewrite Htl, fmap_app in Ho. apply Forall_app in Ho as [_ Ho]. clear -Ho.
    induction tl as [|e tl IH]; [by exists []|]. apply Forall_cons in Ho as [(c & Hid & _ & Hq) Ho].
    destruct (IH Ho) as [more Hm]. exists (c :: more). by constructor. }
  destruct (IH (order ++ more)) as [more' Hm'].
  - unfold handled. rewrite Htl. apply Forall2_app; [|done].
    eapply Forall2_impl; [exact Hh|]. intros c e [Hid Hq]. split; [|done]. by eapply exec_ids.
  - intros t Ht. apply Hown. eapply rtc_l; [by exists l|done].
  - exists (more ++ more'). by rewrite app_assoc.
Qed.

Lemma replay_map order log : forall st m st',
  Forall2 (fun c e => requests !! c = Some (q_op e.1, q_payload e.1)) order log ->
  k_rep st m -> map_small m -> replays handle st log st' ->
  length (ops_of order) = length order /\ k_rep st' (map_run m (ops_of order)).2 /\
  forall i c q r, order !! i = Some c -> log !! i = Some (q, r) ->
    exists o x, os !! c = Some o /\ (map_run m (ops_of order)).1 !! i = Some x /\ decodeOp o r = Ok x.
Proof using os_fit.
  intros st m st' Hf. revert st m. induction Hf as [|c [q r] order log Hq Hf IH]; intros st m Hr Hm Hrep.
  { cbn in *. by subst. }
  cbn [fst snd] in *. unfold requests in Hq. rewrite list_lookup_fmap_Some in Hq. destruct Hq as (o & Ho & Hoq).
  pose proof (Forall_lookup_1 _ _ _ _ os_fit Hoq) as Hfit.
  destruct Hrep as (st1 & Hh & Hrep). destruct (handle_spec st m o Hr Hm Hfit) as (r' & s' & Hh' & _ & Hr' & Hd).
  rewrite <- Ho in Hh'. cbn [fst snd] in Hh'. rewrite Hh in Hh'. injection Hh' as <- <-.
  pose proof (map_op_small m o Hm Hfit) as Hm'.
  unfold ops_of. cbn [omap list_omap]. rewrite Hoq. fold (ops_of order). cbn [map_run].
  destruct (map_op m o) as [x m1]. cbn [fst snd] in *.
  destruct (IH st1 m1 Hr' Hm' Hrep) as (Hlen & Hst & Hres).
  destruct (map_run m1 (ops_of order)) as [xs m2]. cbn [fst snd] in *.
  split_and!; [cbn; by rewrite Hlen|done|]. intros [|i] c' q' r' Hi Hl; cbn in *; simplify_eq; eauto.
Qed.

Lemma explain s0 m0 s sin sout order :
  Inv handle requests store_ok s0 s sin sout -> k_rep s0 m0 -> map_small m0 -> handled s order ->
  explains m0 s order.
Proof using os_fit.
  intros HI Hr Hm Hh. destruct (i_store _ _ _ _ _ _ _ HI) as [Hrep _].
  assert (Forall2 (fun c e => requests !! c = Some (q_op e.1, q_payload e.1)) order (s_log s)) as Hq.
  { eapply Forall2_impl; [exact Hh|]. by intros c e [_ ?]. }
  destruct (replay_map _ _ _ _ _ Hq Hr Hm Hrep) as (_ & Hst & Hres).
  pose proof (i_nodup _ _ _ _ _ _ _ HI) as Hnd. rewrite fmap_app in Hnd. apply NoDup_app in Hnd as (_ & _ & Hnd).
  constructor; [| | |done].
  - apply NoDup_alt. intros i j c Hi Hj.
    destruct (Forall2_lookup_l _ _ _ _ _ Hh Hi) as (ei & Hei & Hidi & _).
    destruct (Forall2_lookup_l _ _ _ _ _ Hh Hj) as (ej & Hej & Hidj & _).
    apply (NoDup_lookup _ i j (q_id ei.1) Hnd); rewrite <- list_fmap_compose, list_lookup_fmap.
    + by rewrite Hei.
    + rewrite Hej. cbn. congruence.
  - intros c [i Hi]%list_elem_of_lookup. destruct (Forall2_lookup_l _ _ _ _ _ Hh Hi) as (e & _ & Hid & _).
    unfold id_at in Hid. destruct (s_calls s !! c) as [st|]; [|done]. exists st. split; [done|]. by intros ->.
  - intros c oid r Hd. destruct (i_done _ _ _ _ _ _ _ HI c oid r Hd) as (id & -> & (q & Hin & Hid & Hrq)).
    apply list_elem_of_lookup in Hin as [i Hi].
    destruct (Forall2_lookup_r _ _ _ _ _ Hh Hi) as (c' & Hc' & Hid' & _). cbn in Hid'.
    assert (c' = c) as ->.
    { apply (i_inj _ _ _ _ _ _ _ HI c' c (q_id q)); [done|]. unfold id_at. rewrite Hd. cbn. congruence. }
    destruct (Hres i c q r Hc' Hi) as (o & x & ? & ? & ?). by exists i, o, x.
Qed.
End Calls.

Lemma execs_steps {S} (h : S -> Z -> bytes -> outcome (response * S)) reqs ls : forall s s',
  execs h reqs ls s = Some s' -> rtc (step h reqs) s s'.
Proof.
  induction ls as [|l ls IH]; intros s s' He; cbn in He; [by simplify_eq|].
  destruct (exec h reqs l s) as [s1|] eqn:Hl; [|done]. eapply rtc_l; [by exists l|by apply IH].
Qed.


(** Two writers and a reader; the response to the second request comes back
    first. *)
Definition demo_calls : list cop := [CPut [Byte.x61] [Byte.x01]; CGet [Byte.x61]; CPut [Byte.x61] [Byte.x02]].
Definition demo_labels : list label :=
  [LStart 2; LStart 0; LWrite 0; LStart 1; LWrite 2; LHelperRead; LWrite 1; LHelperRead; LHelperRead;
   LTake 3; LTake 0; LTake 1; LHandle 0; LHandle 1; LRespond 1; LDeliver; LRecv 1; LHandle 3;
   LRespond 3; LRespond 0; LDeliver; LDeliver; LRecv 0; LRecv 2].
Definition demo_start : sys (gmap bytes bytes) := init (requests demo_calls) ∅.
Definition demo_end : sys (gmap bytes bytes) :=
  default demo_start (execs handle (requests demo_calls) demo_labels demo_start).

Lemma demo_calls_fit : Forall cop_fits demo_calls.
Proof. repeat constructor; vm_compute; try discriminate; reflexivity. Qed.


(** C6: every call returns.  While the pipe does not fail, a run over [n]
    calls has at most [8n] steps, no call has returned an error, and as long
    as one call has not returned its response some step is possible: the
    machine neither runs for ever nor gets stuck. *)
Theorem pipe_calls_return {S} `{KvLaws S} (os : list cop) s0 m0 n s :
  Forall cop_fits os -> len os < 2 ^ 64 -> k_rep s0 m0 -> map_small m0 ->
  nsteps (ok_step handle (requests os)) n (init (requests os) s0) s ->
  (n <= 8 * length os)%nat /\
  (forall c oid e, s_calls s !! c <> Some (CDone oid (inr e))) /\
  (finished s \/ exists s', ok_step handle (requests os) s s').
Proof.
  intros Hfit Hcount Hr Hm Hrun. assert (store_ok s0) as Hg by (by exists m0).
  assert (forall k t t', nsteps (ok_step handle (requests os)) k t t' -> forall sin sout,
    Inv handle (requests os) store_ok s0 t sin sout -> clean t ->
    exists sin' sout', Inv handle (requests os) store_ok s0 t' sin' sout' /\ clean t' /\
      (k + weight t' sin' sout' <= weight t sin sout)%nat) as Hgo.
  { intros k t t'. induction 1 as [t|k t t1 t' (l & Hok & Hl) _ IH]; intros sin sout HI Hc; [eauto|].
    destruct (inv_exec handle (requests os) store_ok op_request handle_ok (requests_wf os Hfit)
      (requests_count os Hcount) _ _ _ _ _ _ HI Hl) as (sin1 & sout1 & HI1 & Hw). specialize (Hw Hok).
    destruct (IH sin1 sout1 HI1) as (sin' & sout' & HI' & Hc' & Hle); [by eapply clean_step|].
    exists sin', sout'. split_and!; [done..|lia]. }
  destruct (Hgo _ _ _ Hrun [] []) as (sin & sout & HI & Hc & Hle).
  { by apply inv_init. }
  { split_and!; [done..|]. intros c oid e [[=] _]%lookup_replicate_1. }
  split_and!.
  - unfold weight in Hle at 2. cbn in Hle. 
    assert (sum_list_with call_weight (replicate (length (requests os)) CNew) = 8 * length os)%nat as Hsum.
    { unfold requests. rewrite length_fmap. clear. induction (length os) as [|k IH]; [done|].
      cbn [replicate sum_list_with call_weight]. lia. }
    lia.
  - apply Hc.
  - destruct (progress handle (requests os) store_ok op_request (requests_wf os Hfit) (requests_count os Hcount)
      _ _ _ _ HI Hc) as [?|(l & s' & Hok & Hl)]; [by left|]. right. exists s'. by exists l.
Qed.

Lemma pipe_calls_return_witness :
  (0 <= 8 * length demo_calls)%nat /\
  (forall c oid e, s_calls demo_start !! c <> Some (CDone oid (inr e))) /\
  (finished demo_start \/ exists s', ok_step handle (requests demo_calls) demo_start s').
Proof.
  apply (pipe_calls_return demo_calls ∅ ∅ 0 demo_start);
    [apply demo_calls_fit|reflexivity|reflexivity|apply map_Forall_empty|constructor].
Defined.

(** C15: a failed pipe leaves no caller waiting.  Once the reader has recorded
    its error no id is registered; a call that starts afterwards is refused
    with that error, a call that has not yet written finds its channel filled
    or closed once it has, and a call that is receiving can return: with the
    response that arrived before the failure, or with the error. *)
Theorem pipe_failure_releases {S} `{KvLaws S} (os : list cop) s0 m0 s e :
  Forall cop_fits os -> len os < 2 ^ 64 -> k_rep s0 m0 -> map_small m0 ->
  rtc (step handle (requests os)) (init (requests os) s0) s ->
  s_readErr s = Some e ->
  s_wait s = ∅ /\ forall c st, s_calls s !! c = Some st ->
  match st with
  | CNew => exists s', callStart s c = Some s' /\ s_calls s' !! c = Some (CDone None (inr e))
  | CReg _ => exists ch, s_chans s !! c = Some ch /\ ch <> ChEmpty
  | CWait id => exists s' res, callRecv s c = Some s' /\ s_calls s' !! c = Some (CDone (Some id) res) /\
      match res with
      | inl r => answered (requests os) s c id r
      | inr e' => e' = e
      end
  | CDone _ _ => True
  end.
Proof.
  intros Hfit Hcount Hr Hm Hrun He. assert (store_ok s0) as Hg by (by exists m0).
  destruct (inv_reachable handle (requests os) store_ok op_request handle_ok (requests_wf os Hfit)
    (requests_count os Hcount) s0 s Hg Hrun) as (sin & sout & HI).
  assert (s_wait s = ∅) as Hw by (apply (i_err _ _ _ _ _ _ _ HI); by rewrite He). split; [done|].
  assert (forall c st id, s_calls s !! c = Some st -> blocked st = true -> call_id st = Some id ->
    exists ch, s_chans s !! c = Some ch /\ ch <> ChEmpty) as Hbl.
  { intros c st id Hc Hb Hid. destruct (i_blocked _ _ _ _ _ _ _ HI c st id Hc Hb Hid) as (ch & Hch & Hem & _).
    exists ch. split; [done|]. intros ->. specialize (Hem eq_refl). by rewrite Hw in Hem. }
  intros c st Hc. pose proof (lookup_lt_Some _ _ _ Hc) as Hlt. destruct st as [|id|id|]; [| | |done].
  - unfold callStart. rewrite Hc, He. eexists. split; [done|]. cbn. by rewrite list_lookup_insert_eq.
  - by apply (Hbl c (CReg id) id).
  - destruct (Hbl c (CWait id) id Hc eq_refl eq_refl) as ([|r|] & Hch & Hne); [done| |];
      unfold callRecv; rewrite Hc, Hch, ?He; [eexists _, (inl r)|eexists _, (inr e)];
      (split_and!; [done|cbn [s_calls]; by rewrite list_lookup_insert_eq|]); [|done].
    apply (i_full _ _ _ _ _ _ _ HI c r id Hch). unfold id_at. by rewrite Hc.
Qed.

(** The reader fails after one response was delivered, with one call still to
    receive it, one waiting, and one not started. *)
Definition demo_fail_labels : list label :=
  [LStart 2; LStart 0; LWrite 0; LWrite 2; LHelperRead; LTake 0; LHandle 0; LRespond 0; LDeliver; LReadFail "EOF"].
Definition demo_failed : sys (gmap bytes bytes) :=
  default demo_start (execs handle (requests demo_calls) demo_fail_labels demo_start).

Lemma pipe_failure_releases_witness :
  s_wait demo_failed = ∅ /\ forall c st, s_calls demo_failed !! c = Some st ->
  match st with
  | CNew => exists s', callStart demo_failed c = Some s' /\
      s_calls s' !! c = Some (CDone None (inr (ErrRead "EOF")))
  | CReg _ => exists ch, s_chans demo_failed !! c = Some ch /\ ch <> ChEmpty
  | CWait id => exists s' res, callRecv demo_failed c = Some s' /\
      s_calls s' !! c = Some (CDone (Some id) res) /\
      match res with
      | inl r => answered (requests demo_calls) demo_failed c id r
      | inr e' => e' = ErrRead "EOF"
      end
  | CDone _ _ => True
  end.
Proof.
  apply (pipe_failure_releases demo_calls ∅ ∅ demo_failed (ErrRead "EOF"));
    [apply demo_calls_fit|reflexivity|reflexivity|apply map_Forall_empty| |vm_compute; reflexivity].
  apply (execs_steps _ _ demo_fail_labels). vm_compute. reflexivity.
Defined.

(** ** A store error inside the helper

    The trait methods unwrap the store's errors, so an error is a panic of the
    worker: no response is written, the process stays up, and the call that
    sent the request stays blocked with nothing left to run. *)
Theorem helper_panic_blocks_caller {S} (s0 : S) op payload :
  let reqs := [(op, payload)] in
  let panics (_ : S) (_ : Z) (_ : bytes) : outcome (response * S) := Panic in
  0 <= op < 256 -> len payload < 2 ^ 32 ->
  exists s, rtc (ok_step panics reqs) (init reqs s0) s /\ s_calls s = [CWait 0] /\
    s_readErr s = None /\ forall s', ~ ok_step panics reqs s s'.
Proof.
  intros reqs panics Hop Hp.
  set (final := MkSys [CWait 0] {[0%nat := ChEmpty]} 1 {[0 := 0%nat]} None false [] []
    (WDead :: replicate 7 WIdle) s0 [] []).
  exists final. split_and!; [|done..|].
  - set (st calls inp queue w := MkSys [calls] {[0%nat := ChEmpty]} 1 {[0 := 0%nat]} None false inp queue
      (w :: replicate 7 WIdle) s0 [] []).
    set (q := MkRequest op 0 payload).
    assert (readRequest (requestFrame op 0 payload) = Some (q, [])) as Hrd.
    { rewrite <- (app_nil_r (requestFrame _ _ _)). apply readRequest_frame; [done|zlia|done]. }
    eapply rtc_l; [exists (LStart 0); split; [done|]; by change (wrap64 (0 + 1)) with 1|].
    apply (rtc_l _ _ (st (CWait 0) (requestFrame op 0 payload) [] WIdle)); [by exists (LWrite 0)|].
    apply (rtc_l _ _ (st (CWait 0) [] [q] WIdle)).
    { exists LHelperRead. split; [done|]. cbn [exec]. unfold helperRead. cbn [s_in st]. by rewrite Hrd. }
    apply (rtc_l _ _ (st (CWait 0) [] [] (WGot q))); [by exists (LTake 0)|].
    apply rtc_once. by exists (LHandle 0).
  - intros s' (l & Hok & Hl). destruct l as [[|c]|[|c]|[|c] n|[|c]| |w|w|w| |e]; try done; cbn in Hl.
    + unfold workerTake in Hl. cbn in Hl. by destruct (_ !! w) as [[]|].
    + unfold workerHandle in Hl. do 8 (destruct w as [|w]; [done|]). done.
    + unfold workerRespond in Hl. do 8 (destruct w as [|w]; [done|]). done.
Qed.
