(* ===== verification/Locktax.v ===== *)
(** * The lock-cost microbenchmark (cmd/locktax/main.go)

    Every row of the program probes an open-addressed table of uint64 keys; the
    rows differ in the guard around the probe.  The model has the tables, the
    generator and the loops of each row with the guard left out (a goroutine
    only reads, so it sees the table as it was built); the theorems say that
    the tables are sets, that building and probing them ends, and that every
    timed probe finds its key, which is what makes the rows comparable. *)

From S2P Require Import Prelude Codec OpenAddr Inmem.
Local Open Scope go_scope.

Definition totalKeys : Z := Z.shiftl 1 20.
Definition shards : Z := 256.

(** ** The table *)

Record tab := MkTab { t_slot : list Z; t_mask : Z }.

(** [for sz < n*2 { sz <<= 1 }]: 64 doublings empty a uint64. *)
Fixpoint newTabSize (fuel : nat) (sz n : Z) : outcome Z :=
  match fuel with
  | O => Spin
  | S f => if sz <? n *64 2 then newTabSize f (sz <<64 1) n else Ok sz
  end.

Definition newTab (n : Z) : outcome tab :=
  let* sz := newTabSize 64 1024 n in
  Ok (MkTab (replicate (Z.to_nat sz) 0) (sz -64 1)).

(** The splitmix64 finalizer. *)
Definition mix (x : Z) : Z :=
  let x := x ^64 (x >>64 30) in
  let x := x *64 0xbf58476d1ce4e5b9 in
  let x := x ^64 (x >>64 27) in
  let x := x *64 0x94d049bb133111eb in
  x ^64 (x >>64 31).

Definition put (t : tab) (key : Z) : outcome tab :=
  probe_loop (length (t_slot t)) (t_mask t) (mix key &64 t_mask t) tt (fun _ i =>
    let* s := index (t_slot t) i in
    if negb (s =? 0) && negb (s =? key) then Ok (inl tt)
    else let* slot := update (t_slot t) i key in Ok (inr (MkTab slot (t_mask t)))).

Definition get (t : tab) (key : Z) : outcome bool :=
  probe_loop (length (t_slot t)) (t_mask t) (mix key &64 t_mask t) tt (fun _ i =>
    let* k := index (t_slot t) i in
    if k =? 0 then Ok (inr false)
    else if k =? key then Ok (inr true)
    else Ok (inl tt)).

(** The same probe through [atomic.LoadUint64]. *)
Definition getAtomic (t : tab) (key : Z) : outcome bool :=
  probe_loop (length (t_slot t)) (t_mask t) (mix key &64 t_mask t) tt (fun _ i =>
    let* k := index (t_slot t) i in
    if k =? 0 then Ok (inr false)
    else if k =? key then Ok (inr true)
    else Ok (inl tt)).

(** [for k := lo; k < lo+n; k++ { t.put(base + k) }]. *)
Fixpoint putAll (t : tab) (keys : list Z) : outcome tab :=
  match keys with
  | [] => Ok t
  | k :: keys' => let* t' := put t k in putAll t' keys'
  end.

(** ** The generator *)

Definition xorshift (x : Z) : Z :=
  let x := Z.lxor x (wrap32 (Z.shiftl x 13)) in
  let x := Z.lxor x (Z.shiftr x 17) in
  Z.lxor x (wrap32 (Z.shiftl x 5)).

(** [n] iterations of a row: draw, make the key, probe. *)
Fixpoint drawLoop (n : nat) (x : Z) (key_of : Z -> Z) (body : Z -> outcome bool) : outcome (list bool) :=
  match n with
  | O => Ok []
  | S n' =>
      let x' := xorshift x in
      let* hit := body (key_of x') in
      let* rest := drawLoop n' x' key_of body in Ok (hit :: rest)
  end.

Definition serialSeed : Z := 2463534242.

(** The single table of the serial rows, for a keyspace of [total] keys (the
    program runs with [totalKeys]). *)
Definition oneTab (total : Z) : outcome tab :=
  let* t := newTab total in putAll t (seqZ 1 total).

Definition serial (total : Z) (iters : nat) (body : Z -> outcome bool) : outcome (list bool) :=
  drawLoop iters serialSeed (fun x => x mod total + 1) body.

(** The seed of goroutine [gi]. *)
Definition seedOf (gi : Z) : Z := wrap32 (2463534242 + gi * 2654435761).

(** ** The sharded rows *)

Definition shardOf (k : Z) : Z := (mix k >>64 40) &64 (shards - 1).

Fixpoint makeTabs (n : nat) (size : Z) : outcome (list tab) :=
  match n with
  | O => Ok []
  | S n' => let* t := newTab size in let* ts := makeTabs n' size in Ok (t :: ts)
  end.

Fixpoint fillShards (sh : list tab) (keys : list Z) : outcome (list tab) :=
  match keys with
  | [] => Ok sh
  | k :: keys' =>
      let* t := index sh (shardOf k) in
      let* t' := put t k in
      let* sh' := update sh (shardOf k) t' in
      fillShards sh' keys'
  end.

(** [buildShards], for a keyspace of [total] keys. *)
Definition buildShards (total : Z) : outcome (list tab) :=
  let* sh := makeTabs (Z.to_nat shards) (total / shards + 16) in
  fillShards sh (seqZ 1 total).

(** What goroutine [gi] of a sharded row does. *)
Definition shardedWorker (total : Z) (sh : list tab) (iters : nat) (op : tab -> Z -> outcome bool) (gi : Z)
    : outcome (list bool) :=
  drawLoop iters (seedOf gi) (fun x => x mod total + 1) (fun key =>
    let* t := index sh (shardOf key) in op t key).

(** ** The shared-nothing row *)

Definition ownTab (total g i : Z) : outcome tab :=
  let* t := newTab (total / g + 16) in
  putAll t ((fun k => i * total +64 k) <$> seqZ 1 (total / g)).

(** [xorshift(&x) % uint32(nlocal)] panics when a goroutine owns no key. *)
Definition ownWorker (total g : Z) (iters : nat) (gi : Z) : outcome (list bool) :=
  let* t := ownTab total g gi in
  let nlocal := total / g in
  drawLoop iters (seedOf gi) (fun x => x) (fun x =>
    if wrap32 nlocal =? 0 then Panic
    else get t (wrap64 (wrap64 (gi * total) + x mod wrap32 nlocal + 1))).

(** ** Tables are sets *)

Definition view (s : Z) : slotview Z unit := if s =? 0 then VEmpty else VFull s tt.

(** Table [t] holds the keys of [m], with at most [c] slots taken. *)
Record tab_rep (t : tab) (m : gmap Z unit) (c : Z) : Prop := {
  tr_lg : exists lg, 0 <= lg <= 62 /\ len (t_slot t) = 2 ^ lg;
  tr_mask : t_mask t = len (t_slot t) - 1;
  tr_table : table mix (view <$> t_slot t) m;
  tr_used : Z.of_nat (used_count (view <$> t_slot t)) <= c;
  tr_room : c < len (t_slot t) }.

Lemma view_full s k : k <> 0 -> view s = VFull k tt <-> s = k.
Proof. intros Hk. unfold view. case_zcmp; naive_solver. Qed.

Lemma lookup_view (l : list Z) p s :
  (view <$> l) !! p = Some s -> exists x, l !! p = Some x /\ s = view x.
Proof. rewrite list_lookup_fmap. destruct (l !! p) as [x|]; cbn; naive_solver. Qed.

(** The two branches of a probe, on the view of a slot. *)
Lemma view_cases {A} x key (e f o : A) : key <> 0 ->
  (if x =? 0 then e else if x =? key then f else o) =
  match view x with
  | VEmpty => e
  | VFull k' _ => if decide (k' = key) then f else o
  | VTomb => o
  end.
Proof.
  intros Hk. unfold view. case_zcmp; [done|]. case_zcmp; [by rewrite decide_True|by rewrite decide_False].
Qed.

(** The facts of [tab_rep] in the form the probe theory takes. *)
Lemma tab_view t m c :
  tab_rep t m c -> exists lg, 0 <= lg <= 62 /\
    Z.of_nat (length (view <$> t_slot t)) = 2 ^ lg /\
    length (view <$> t_slot t) = length (t_slot t) /\
    t_mask t = Z.of_nat (length (view <$> t_slot t)) - 1 /\
    (used_count (view <$> t_slot t) < length (view <$> t_slot t))%nat.
Proof.
  intros [(lg & Hlg & Hlen) Hmask _ Hused Hroom]. exists lg.
  assert (length (view <$> t_slot t) = length (t_slot t)) as Hl by apply length_fmap.
  rewrite Hl. unfold len in *. split_and!; [lia|lia|done|done|done|lia].
Qed.

Lemma get_spec t m c key :
  tab_rep t m c -> key <> 0 -> get t key = Ok (bool_decide (is_Some (m !! key))).
Proof.
  intros Hrep Hk. destruct (tab_view _ _ _ Hrep) as (lg & Hlg & Hn & Hl & Hmask & Hroom).
  unfold get. rewrite Hmask, <- Hl.
  destruct (loop_lookup mix (view <$> t_slot t) m key lg Hn Hlg (tr_table _ _ _ Hrep) Hroom
    (fun _ i => let* k := index (t_slot t) i in
       if k =? 0 then Ok (inr false) else if k =? key then Ok (inr true) else Ok (inl tt))
    (fun _ _ => Ok true) (Ok false)) as [(p & v & _ & Hm & ->)|[Hm ->]].
  - intros p s (x & Hx & ->)%lookup_view. rewrite (index_ok _ _ _ Hx). cbn [obind].
    rewrite view_cases by done. unfold view. case_zcmp; [done|]. by case_decide.
  - rewrite Hm. by rewrite bool_decide_eq_true_2.
  - rewrite Hm. rewrite bool_decide_eq_false_2; [done|]. by intros [? ?].
Qed.

Lemma getAtomic_get t key : getAtomic t key = get t key.
Proof. reflexivity. Qed.

(** The probe of a put stops at the key's slot or at the first empty one, and
    stores the key there. *)
Lemma put_where t m c key :
  tab_rep t m c -> key <> 0 ->
  exists p, put t key = Ok (MkTab (<[p := key]> (t_slot t)) (t_mask t)) /\
    ((view <$> t_slot t) !! p = Some (VFull key tt) \/
     (view <$> t_slot t) !! p = Some VEmpty /\ m !! key = None /\ on_path mix (view <$> t_slot t) key p).
Proof.
  intros Hrep Hk. destruct (tab_view _ _ _ Hrep) as (lg & Hlg & Hn & Hl & Hmask & Hroom).
  destruct (probe_end mix _ _ key (tr_table _ _ _ Hrep) Hroom) as (u & Hu & Hpass & Hend).
  set (n := length (view <$> t_slot t)) in *. exists (pos n (mix key) u). split.
  - unfold put. rewrite Hmask, <- Hl. fold n. rewrite (pos_start n lg) by lia.
    eapply (probe_loop_run n lg (mix key) _ (fun _ => tt)); [done|done|exact Hu| |].
    + intros u' [_ Hu']. destruct (Hpass u' Hu') as (s & (x & Hx & ->)%lookup_view & Hne & Hnf).
      rewrite (index_ok _ _ _ Hx). cbn [obind].
      assert (x <> 0) by (intros ->; by apply Hne).
      assert (x <> key) by (intros ->; apply Hnf; exists tt; by apply view_full).
      destruct (Z.eqb_spec x 0), (Z.eqb_spec x key); done.
    + cbn [Nat.add].
      assert (exists x, t_slot t !! pos n (mix key) u = Some x /\ (x = 0 \/ x = key)) as (x & Hx & Hor).
      { destruct Hend as [([] & (x & Hx & Hv)%lookup_view & _)|[(x & Hx & Hv)%lookup_view _]]; exists x.
        - split; [done|]. right. symmetry in Hv. by apply view_full in Hv.
        - split; [done|]. left. unfold view in Hv. destruct (Z.eqb_spec x 0); done. }
      rewrite (index_ok _ _ _ Hx). cbn [obind].
      rewrite update_ok by (by eapply lookup_lt_Some). destruct Hor as [->| ->]; [done|].
      rewrite Z.eqb_refl, andb_false_r. done.
  - destruct Hend as [([] & Hv & _)|[He Hm]]; [by left|]. right. split_and!; [done..|].
    exists u. split_and!; [done..|]. intros u' Hu'. destruct (Hpass u' Hu') as (s & Hs & Hne & _).
    intros Hv. fold n in Hv. congruence.
Qed.

Lemma put_spec t m c key :
  tab_rep t m c -> key <> 0 -> c + 1 < len (t_slot t) ->
  exists t', put t key = Ok t' /\ tab_rep t' (<[key := tt]> m) (c + 1) /\ len (t_slot t') = len (t_slot t).
Proof.
  intros Hrep Hk Hc. destruct (put_where t m c key Hrep Hk) as (p & -> & Hp).
  eexists. split; [done|]. cbn [t_slot t_mask]. rewrite len_insert. split; [|done].
  destruct Hrep as [Hlg Hmask Htab Hused Hroom].
  assert (view <$> <[p := key]> (t_slot t) = <[p := VFull key tt]> (view <$> t_slot t)) as Hins.
  { rewrite list_fmap_insert. f_equal. by apply view_full. }
  constructor; cbn [t_slot t_mask]; rewrite ?len_insert, ?Hins; try done.
  - destruct Hp as [Hp|(Hp & Hm & Hpath)].
    + by eapply table_overwrite.
    + apply table_insert; [done..|]. congruence.
  - destruct Hp as [Hp|(Hp & _)];
      pose proof (used_count_insert _ _ _ (VFull key tt) Hp) as Hcu; cbn in Hcu; lia.
Qed.

(** ** Building tables *)

Lemma newTabSize_spec n : 0 <= n <= 2 ^ 60 -> forall fuel j,
  10 <= j <= 62 -> 62 - j < Z.of_nat fuel ->
  exists lg, 10 <= lg <= 62 /\ newTabSize fuel (2 ^ j) n = Ok (2 ^ lg) /\ 2 * n <= 2 ^ lg.
Proof.
  intros Hn. induction fuel as [|f IH]; intros j Hj Hf; [lia|]. cbn [newTabSize].
  rewrite wrap64_id by zlia. case_zcmp.
  - assert (j <> 62) by (intros ->; lia).
    rewrite Z.shiftl_mul_pow2, <- Z.pow_add_r by lia.
    assert (2 ^ (j + 1) <= 2 ^ 62) by (apply Z.pow_le_mono_r; lia).
    assert (0 < 2 ^ (j + 1)) by (apply pow2_pos; lia). rewrite wrap64_id by zlia. apply IH; lia.
  - exists j. split_and!; [lia..|done|lia].
Qed.

Lemma newTab_spec n :
  0 <= n <= 2 ^ 60 ->
  exists t, newTab n = Ok t /\ tab_rep t ∅ 0 /\ 2 * n <= len (t_slot t) /\ 1024 <= len (t_slot t).
Proof.
  intros Hn. unfold newTab. change 1024 with (2 ^ 10) at 1.
  destruct (newTabSize_spec n Hn 64 10) as (lg & Hlg & -> & Hsz); [lia..|]. cbn [obind].
  assert (2 ^ 10 <= 2 ^ lg <= 2 ^ 62) as Hb by (split; apply Z.pow_le_mono_r; lia).
  rewrite wrap64_id by zlia. eexists. split; [done|].
  assert (len (replicate (Z.to_nat (2 ^ lg)) 0) = 2 ^ lg) as Hl by (unfold len; rewrite length_replicate; lia).
  cbn [t_slot t_mask]. rewrite Hl. split; [|lia].
  assert (view <$> replicate (Z.to_nat (2 ^ lg)) 0 = replicate (Z.to_nat (2 ^ lg)) VEmpty) as Hv
    by (by rewrite fmap_replicate).
  constructor; cbn [t_slot t_mask]; rewrite ?Hl, ?Hv, ?used_count_replicate; try done; try lia.
  - exists lg. lia.
  - apply table_empty.
Qed.

(** The set after putting a list of keys. *)
Definition add_keys (m : gmap Z unit) (keys : list Z) : gmap Z unit :=
  foldl (fun m k => <[k := tt]> m) m keys.

Lemma add_keys_lookup keys : forall m k, is_Some (add_keys m keys !! k) <-> k ∈ keys \/ is_Some (m !! k).
Proof.
  induction keys as [|x keys IH]; intros m k; cbn; [rewrite elem_of_nil; tauto|].
  rewrite IH, elem_of_cons. destruct (decide (x = k)) as [->|Hne].
  - rewrite lookup_insert_eq. split; [auto|]. intros _. right. by eexists.
  - rewrite lookup_insert_ne by done. split; [intros [?|?]; auto|intros [[?|?]|?]; auto]. by subst.
Qed.

Lemma putAll_spec keys : forall t m c,
  tab_rep t m c -> Forall (fun k => k <> 0) keys -> c + len keys < len (t_slot t) ->
  exists t', putAll t keys = Ok t' /\ tab_rep t' (add_keys m keys) (c + len keys).
Proof.
  induction keys as [|k keys IH]; intros t m c Hrep Hnz Hroom.
  { exists t. by rewrite len_nil, Z.add_0_r. }
  apply Forall_cons in Hnz as [Hk Hnz]. rewrite len_cons in *. pose proof (len_nonneg keys).
  destruct (put_spec t m c k Hrep Hk ltac:(lia)) as (t1 & Hp & Hrep1 & Hl1). cbn [putAll]. rewrite Hp.
  cbn [obind]. destruct (IH t1 _ _ Hrep1 Hnz ltac:(lia)) as (t' & -> & Hrep'). exists t'. split; [done|].
  by rewrite Z.add_assoc.
Qed.

(** ** The generator *)

(** A left shift by [k] bits fixes only 0: [2^k - 1] is odd. *)
Lemma wrap32_shift_fix x k :
  is_u32 x -> 0 <= k -> Z.gcd (2 ^ 32) (2 ^ k - 1) = 1 -> wrap32 (Z.shiftl x k) = x -> x = 0.
Proof.
  intros Hx Hk Hg Hfix. unfold wrap32 in Hfix. rewrite Z.shiftl_mul_pow2 in Hfix by lia.
  assert (2 ^ 32 | (2 ^ k - 1) * x)%Z as Hd.
  { exists (x * 2 ^ k / 2 ^ 32). pose proof (Z.div_mod (x * 2 ^ k) (2 ^ 32)). lia. }
  apply Z.gauss in Hd; [|done]. destruct Hd as [q ->]. unfold is_u32 in Hx. nia.
Qed.

Lemma shiftr_fix x k : 0 <= x -> 0 < k -> Z.shiftr x k = x -> x = 0.
Proof.
  intros Hx Hk Hfix. rewrite Z.shiftr_div_pow2 in Hfix by lia. pose proof (Z.pow_gt_1 2 k).
  destruct (Z.eq_dec x 0) as [|Hn]; [done|]. pose proof (Z.div_lt x (2 ^ k)). lia.
Qed.

Lemma lxor_u32 a b : is_u32 a -> is_u32 b -> is_u32 (Z.lxor a b).
Proof. apply lxor_range. lia. Qed.

Lemma shiftr_u32 a k : 0 <= k -> is_u32 a -> is_u32 (Z.shiftr a k).
Proof.
  intros Hk Ha. rewrite Z.shiftr_div_pow2 by done. pose proof (pow2_pos k Hk).
  unfold is_u32 in *. split; [apply Z.div_pos; lia|]. apply Z.le_lt_trans with a; [|lia].
  apply Z.div_le_upper_bound; nia.
Qed.

#[local] Hint Resolve lxor_u32 shiftr_u32 : go.

Lemma xorshift_range x : is_u32 x -> is_u32 (xorshift x).
Proof.
  intros Hx. unfold xorshift. repeat (apply lxor_u32 || apply shiftr_u32 || apply wrap32_range || done || lia).
Qed.

(** The generator never falls into its fixed point 0. *)
Lemma xorshift_nonzero x : is_u32 x -> x <> 0 -> xorshift x <> 0.
Proof.
  intros Hx Hn. unfold xorshift.
  set (a := Z.lxor x (wrap32 (Z.shiftl x 13))).
  assert (is_u32 a) as Ha by (apply lxor_u32; auto with go).
  assert (a <> 0) as Han.
  { intros Heq%Z.lxor_eq. apply Hn, (wrap32_shift_fix x 13); [done|lia|reflexivity|done]. }
  set (b := Z.lxor a (Z.shiftr a 17)).
  assert (is_u32 b) as Hb by (apply lxor_u32; [done|apply shiftr_u32; [lia|done]]).
  assert (b <> 0) as Hbn.
  { intros Heq%Z.lxor_eq. apply Han, (shiftr_fix a 17); [apply Ha|lia|done]. }
  intros Heq%Z.lxor_eq. apply Hbn, (wrap32_shift_fix b 5); [done|lia|reflexivity|done].
Qed.

(** The seeds of a million goroutines are not 0 either. *)
Lemma seedOf_nonzero gi : 0 <= gi < 2 ^ 20 -> seedOf gi <> 0.
Proof.
  intros Hg Hz. unfold seedOf, wrap32 in Hz. apply Z.mod_divide in Hz as [q Hq]; [|lia]. lia.
Qed.

Lemma drawLoop_hits n : forall x key_of body,
  is_u32 x -> (forall y, is_u32 y -> body (key_of y) = Ok true) ->
  drawLoop n x key_of body = Ok (replicate n true).
Proof.
  induction n as [|n IH]; intros x key_of body Hx Hb; [done|]. cbn [drawLoop].
  pose proof (xorshift_range x Hx) as Hx'. rewrite Hb by done. cbn [obind]. rewrite IH by done. done.
Qed.

Lemma drawLoop_ext n : forall x key_of body body',
  (forall k, body k = body' k) -> drawLoop n x key_of body = drawLoop n x key_of body'.
Proof. induction n as [|n IH]; intros x key_of body body' Hb; [done|]. cbn [drawLoop]. by rewrite Hb, (IH _ _ _ _ Hb). Qed.

(** ** The shards *)

(** How many keys go to shard [i]. *)
Definition shardLoad (keys : list Z) (i : nat) : Z := len (filter (fun k => shardOf k = Z.of_nat i) keys).

Lemma shardOf_range k : 0 <= shardOf k < shards.
Proof.
  unfold shardOf. change (shards - 1) with (2 ^ 8 - 1). rewrite land_mask by lia.
  apply (Z.mod_pos_bound _ 256). lia.
Qed.

Record shards_ok (size : Z) (sh : list tab) (keys : list Z) : Prop := {
  so_len : len sh = shards;
  so_tabs : forall i t, sh !! i = Some t -> exists m,
    tab_rep t m (shardLoad keys i) /\ len (t_slot t) = size /\
    forall k, is_Some (m !! k) <-> k ∈ keys /\ shardOf k = Z.of_nat i }.

Lemma shardLoad_snoc keys k i :
  shardLoad (keys ++ [k]) i = shardLoad keys i + if decide (shardOf k = Z.of_nat i) then 1 else 0.
Proof.
  unfold shardLoad. rewrite filter_app, len_app, filter_cons, filter_nil.
  case_decide; rewrite ?len_cons, ?len_nil; lia.
Qed.

Lemma shardLoad_app keys keys' i : shardLoad keys i <= shardLoad (keys ++ keys') i.
Proof. unfold shardLoad. rewrite filter_app, len_app. pose_len_nonneg. lia. Qed.

Lemma fillShards_step size sh keys k :
  shards_ok size sh keys -> k <> 0 -> (forall i, shardLoad (keys ++ [k]) i < size) ->
  exists t t' sh', index sh (shardOf k) = Ok t /\ put t k = Ok t' /\ update sh (shardOf k) t' = Ok sh' /\
    shards_ok size sh' (keys ++ [k]).
Proof.
  intros [Hl Htabs] Hk Hload. pose proof (shardOf_range k) as Hr.
  destruct (index_in sh (shardOf k) ltac:(lia)) as [t Ht]. pose proof (index_lookup _ _ _ Ht) as Hlk.
  set (i := Z.to_nat (shardOf k)) in *. assert (shardOf k = Z.of_nat i) as Hi by (unfold i; lia).
  destruct (Htabs i t Hlk) as (m & Hrep & Hsz & Hm).
  pose proof (Hload i) as Hli. rewrite shardLoad_snoc, decide_True in Hli by done.
  destruct (put_spec t m _ k Hrep Hk ltac:(lia)) as (t' & Hp & Hrep' & Hsz').
  exists t, t', (<[i := t']> sh). split_and!; [done..| |].
  { rewrite Hi. apply update_ok. by eapply lookup_lt_Some. }
  split; [by rewrite len_insert|]. intros j u [(<- & -> & _)|[Hne Hj]]%list_lookup_insert_Some.
  - exists (<[k := tt]> m). rewrite shardLoad_snoc, decide_True by done. split_and!; [done|congruence|].
    intros k'. rewrite elem_of_app, list_elem_of_singleton. destruct (decide (k = k')) as [<-|Hkn].
    + rewrite lookup_insert_eq. split; [auto|]. intros _. by eexists.
    + rewrite lookup_insert_ne, Hm by done. split; [tauto|]. intros [[?|?] ?]; [done|congruence].
  - destruct (Htabs j u Hj) as (mj & Hrj & Hsj & Hmj). exists mj.
    rewrite shardLoad_snoc, decide_False, Z.add_0_r by (rewrite Hi; lia). split_and!; [done..|].
    intros k'. rewrite Hmj, elem_of_app, list_elem_of_singleton. split; [tauto|].
    intros [[?| ->] Hs]; [done|]. lia.
Qed.

Lemma fillShards_spec size keys' : forall sh keys,
  shards_ok size sh keys -> Forall (fun k => k <> 0) keys' ->
  (forall i, shardLoad (keys ++ keys') i < size) ->
  exists sh', fillShards sh keys' = Ok sh' /\ shards_ok size sh' (keys ++ keys').
Proof.
  induction keys' as [|k keys' IH]; intros sh keys Hok Hnz Hload.
  { exists sh. by rewrite app_nil_r. }
  apply Forall_cons in Hnz as [Hk Hnz]. rewrite cons_middle, app_assoc in Hload.
  destruct (fillShards_step size sh keys k Hok Hk) as (t & t' & sh' & Ht & Hp & Hu & Hok').
  { intros i. specialize (Hload i). pose proof (shardLoad_app (keys ++ [k]) keys' i). lia. }
  cbn [fillShards]. rewrite Ht. cbn [obind]. rewrite Hp. cbn [obind]. rewrite Hu. cbn [obind].
  destruct (IH sh' (keys ++ [k]) Hok' Hnz Hload) as (sh2 & -> & Hok2). exists sh2. split; [done|].
  by rewrite <- app_assoc in Hok2.
Qed.

Lemma makeTabs_spec n size t : newTab size = Ok t -> makeTabs n size = Ok (replicate n t).
Proof. intros Ht. induction n as [|n IH]; [done|]. cbn [makeTabs]. rewrite Ht. cbn [obind]. by rewrite IH. Qed.

Lemma seqZ_nonzero n : Forall (fun k => k <> 0) (seqZ 1 n).
Proof. apply Forall_forall. intros k Hk%elem_of_seqZ. lia. Qed.

Lemma len_seqZ n : 0 <= n -> len (seqZ 1 n) = n.
Proof. intros Hn. unfold len. rewrite length_seqZ. lia. Qed.

Lemma oneTab_spec total :
  0 <= total <= 2 ^ 60 ->
  exists t m c, oneTab total = Ok t /\ tab_rep t m c /\ forall k, is_Some (m !! k) <-> 1 <= k <= total.
Proof.
  intros Ht. unfold oneTab. destruct (newTab_spec total ltac:(lia)) as (t & -> & Hrep & Hsz & H1024).
  cbn [obind]. destruct (putAll_spec (seqZ 1 total) t ∅ 0 Hrep (seqZ_nonzero _)) as (t' & -> & Hrep').
  { rewrite len_seqZ by lia. lia. }
  eexists t', _, _. split_and!; [done|exact Hrep'|]. intros k. rewrite add_keys_lookup, elem_of_seqZ, lookup_empty.
  split; [intros [?|[? ?]]; [lia|done]|left; lia].
Qed.

Lemma buildShards_spec total :
  0 <= total <= 2 ^ 60 ->
  Forall (fun i => shardLoad (seqZ 1 total) (Z.to_nat i) < 2 * (total / shards + 16)) (seqZ 0 shards) ->
  exists sh, buildShards total = Ok sh /\ len sh = shards /\ forall k, 1 <= k <= total ->
    exists t, index sh (shardOf k) = Ok t /\ get t k = Ok true.
Proof.
  intros Ht Hload. unfold buildShards.
  assert (0 <= total / shards <= total) as Hq.
  { unfold shards. split; [apply Z.div_pos; lia|]. apply Z.div_le_upper_bound; lia. }
  destruct (newTab_spec (total / shards + 16)) as (t & Hnew & Hrep & Hsz & H1024).
  { split; [lia|]. unfold shards in *. assert (total / 256 <= 2 ^ 60 / 256) by (apply Z.div_le_mono; lia).
    change (2 ^ 60 / 256) with (2 ^ 52) in *. lia. }
  rewrite (makeTabs_spec _ _ t Hnew). cbn [obind].
  assert (shards_ok (len (t_slot t)) (replicate (Z.to_nat shards) t) []) as Hok.
  { split; [done|]. intros i u [-> _]%lookup_replicate_1. exists ∅. split_and!; [done|done|].
    intros k. rewrite lookup_empty, elem_of_nil. split; [by intros [? ?]|tauto]. }
  destruct (fillShards_spec _ (seqZ 1 total) _ [] Hok (seqZ_nonzero _)) as (sh & Hfill & Hok').
  { intros i. cbn [app]. destruct (decide (Z.of_nat i < shards)) as [Hi|Hi].
    - rewrite Forall_forall in Hload. specialize (Hload (Z.of_nat i)). rewrite Nat2Z.id in Hload.
      rewrite elem_of_seqZ in Hload. lia.
    - unfold shardLoad. rewrite filter_none; [rewrite len_nil; lia|]. apply Forall_forall. intros k _ Hs.
      pose proof (shardOf_range k). lia. }
  destruct Hok' as [Hl Htabs]. exists sh. split_and!; [done..|]. intros k Hk. pose proof (shardOf_range k) as Hr.
  destruct (index_in sh (shardOf k) ltac:(lia)) as [u Hu]. exists u. split; [done|].
  destruct (Htabs _ _ (index_lookup _ _ _ Hu)) as (m & Hrepu & _ & Hm).
  rewrite (get_spec _ _ _ _ Hrepu) by lia. f_equal. apply bool_decide_eq_true_2, Hm.
  cbn [app]. rewrite elem_of_seqZ. lia.
Qed.

Lemma ownTab_spec total g i :
  1 <= g <= total -> total <= 2 ^ 30 -> 0 <= i < g ->
  exists t m c, ownTab total g i = Ok t /\ tab_rep t m c /\
    forall k, 1 <= k <= total / g -> is_Some (m !! (i * total + k)).
Proof.
  intros Hg Htot Hi. unfold ownTab.
  assert (0 < total / g <= total) as Hq.
  { split; [apply Z.div_str_pos; lia|]. apply Z.div_le_upper_bound; nia. }
  destruct (newTab_spec (total / g + 16) ltac:(lia)) as (t & -> & Hrep & Hsz & H1024). cbn [obind].
  assert (forall k, 1 <= k <= total / g -> wrap64 (i * total + k) = i * total + k) as Hw.
  { intros k Hk. apply wrap64_id. unfold is_u64. nia. }
  destruct (putAll_spec ((fun k => i * total +64 k) <$> seqZ 1 (total / g)) t ∅ 0 Hrep) as (t' & -> & Hrep').
  { apply Forall_fmap, Forall_forall. intros k Hk%elem_of_seqZ. cbn. rewrite Hw by lia. nia. }
  { unfold len at 1. rewrite length_fmap, length_seqZ. lia. }
  eexists t', _, _. split_and!; [done|exact Hrep'|]. intros k Hk. apply add_keys_lookup. left.
  apply list_elem_of_fmap. exists k. rewrite Hw by lia. split; [done|]. apply elem_of_seqZ. lia.
Qed.

(** A key drawn from [total] keys. *)
Lemma draw_range total x : 1 <= total -> 1 <= x mod total + 1 <= total.
Proof. intros Ht. pose proof (Z.mod_pos_bound x total). lia. Qed.

Lemma serial_hits total iters t m c :
  1 <= total -> tab_rep t m c -> (forall k, is_Some (m !! k) <-> 1 <= k <= total) ->
  serial total iters (get t) = Ok (replicate iters true).
Proof.
  intros Ht Hrep Hm. apply drawLoop_hits; [done|]. intros x _. pose proof (draw_range total x Ht).
  rewrite (get_spec _ _ _ _ Hrep) by lia. f_equal. by apply bool_decide_eq_true_2, Hm.
Qed.

Lemma shardedWorker_hits total sh iters gi :
  1 <= total -> (forall k, 1 <= k <= total -> exists t, index sh (shardOf k) = Ok t /\ get t k = Ok true) ->
  shardedWorker total sh iters get gi = Ok (replicate iters true).
Proof.
  intros Ht Hhit. apply drawLoop_hits; [apply wrap32_range|]. intros x _.
  destruct (Hhit _ (draw_range total x Ht)) as (t & -> & Hget). exact Hget.
Qed.

Lemma ownWorker_hits total g gi iters :
  1 <= g <= total -> total <= 2 ^ 20 -> 0 <= gi < g ->
  ownWorker total g iters gi = Ok (replicate iters true).
Proof.
  intros Hg Htot Hgi.
  destruct (ownTab_spec total g gi Hg ltac:(lia) Hgi) as (own & mo & co & Hown & Hrepo & Hmo).
  unfold ownWorker. rewrite Hown. cbn [obind]. apply drawLoop_hits; [apply wrap32_range|]. intros x Hx.
  assert (0 < total / g <= total) as Hq.
  { split; [apply Z.div_str_pos; lia|]. apply Z.div_le_upper_bound; nia. }
  rewrite wrap32_id by zlia. case_zcmp; [lia|]. pose proof (Z.mod_pos_bound x (total / g)).
  assert (0 <= gi * total <= 2 ^ 40) by nia.
  rewrite (wrap64_id (gi * total)), wrap64_id by zlia. rewrite <- Z.add_assoc.
  assert (is_Some (mo !! (gi * total + (x mod (total / g) + 1)))) as Hin by (apply Hmo; lia).
  rewrite (get_spec _ _ _ _ Hrepo) by nia. f_equal. by apply bool_decide_eq_true_2.
Qed.

(** Every timed probe of the microbenchmark is a hit.  For a keyspace of
    [total] keys (the program uses 2^20) over [g] goroutines the tables are
    built without a probe running for ever, whatever the hash does, and each
    iteration of each row looks up a key its table holds: the single table of
    the serial rows (plain or atomic), the shard a key maps to, as long as no
    shard is given more keys than the slots it has at load factor one, and
    the private tables of the shared-nothing row.  The generators behind the
    rows never reach 0, where they would draw one key for ever. *)
Theorem timed_probes_hit total g gi iters :
  1 <= g <= total -> total <= 2 ^ 20 -> 0 <= gi < g ->
  Forall (fun i => shardLoad (seqZ 1 total) (Z.to_nat i) < 2 * (total / shards + 16)) (seqZ 0 shards) ->
  seedOf gi <> 0 /\ (forall x, is_u32 x -> x <> 0 -> xorshift x <> 0) /\
  exists one sh, oneTab total = Ok one /\ buildShards total = Ok sh /\
    serial total iters (get one) = Ok (replicate iters true) /\
    serial total iters (getAtomic one) = Ok (replicate iters true) /\
    shardedWorker total sh iters get gi = Ok (replicate iters true) /\
    shardedWorker total sh iters getAtomic gi = Ok (replicate iters true) /\
    ownWorker total g iters gi = Ok (replicate iters true).
Proof.
  intros Hg Htot Hgi Hload.
  split; [apply seedOf_nonzero; lia|]. split; [apply xorshift_nonzero|].
  destruct (oneTab_spec total ltac:(lia)) as (one & m & c & Hone & Hrep & Hm).
  destruct (buildShards_spec total ltac:(lia) Hload) as (sh & Hsh & _ & Hhit).
  exists one, sh. split_and!; [done|done|..].
  1-2: apply (serial_hits total iters one m c); [lia|done|done].
  1-2: apply shardedWorker_hits; [lia|done].
  by apply ownWorker_hits.
Qed.

Lemma timed_probes_hit_witness :
  seedOf 3 <> 0 /\ (forall x, is_u32 x -> x <> 0 -> xorshift x <> 0) /\
  exists one sh, oneTab 30 = Ok one /\ buildShards 30 = Ok sh /\
    serial 30 20 (get one) = Ok (replicate 20 true) /\
    serial 30 20 (getAtomic one) = Ok (replicate 20 true) /\
    shardedWorker 30 sh 20 get 3 = Ok (replicate 20 true) /\
    shardedWorker 30 sh 20 getAtomic 3 = Ok (replicate 20 true) /\
    ownWorker 30 4 20 3 = Ok (replicate 20 true).
Proof.
  apply (timed_probes_hit 30 4 3 20); [lia..|].
  apply Forall_forall. intros i _. unfold shardLoad, len.
  pose proof (length_filter (fun k => shardOf k = Z.of_nat (Z.to_nat i)) (seqZ 1 30)) as Hl.
  change (length (seqZ 1 30)) with 30%nat in Hl. change (30 / shards) with 0. lia.
Defined.
