(* ===== verification/Hdr.v ===== *)
(** * The latency histogram (hdr/hdr.go)

    Buckets are laid out by magnitude and then linearly.  [hist_of xs] says
    what the histogram is after recording the samples [xs]; the operations are
    proved to compute it, and the percentile to be the representative value of
    the order statistic it names. *)

From Stdlib Require Import SpecFloat.
From stdpp Require Import sorting.
From S2P Require Import Prelude Float64.
Local Open Scope go_scope.

Record Histogram := MkHistogram {
  subBits : Z;
  subCount : Z;
  counts : list Z;
  hmin : Z;
  hmax : Z;
  total : Z;
  sum : float64 }.

Definition MaxUint64 : Z := 2 ^ 64 - 1.

Definition New : Histogram :=
  MkHistogram 7 (Z.shiftl 1 7) (replicate (Z.to_nat (64 * Z.shiftl 1 7)) 0) MaxUint64 0 0 f64_zero.

(** The loop of [bitsLeadingZeros], for bits [i], [i-1], ..., 0. *)
Fixpoint clz_loop (i : nat) (v n : Z) : Z :=
  let next := match i with O => 64 | S i' => clz_loop i' v (n + 1) end in
  if negb (v &64 (1 <<64 Z.of_nat i) =? 0) then n else next.

Definition bitsLeadingZeros (v : Z) : Z := clz_loop 63 v 0.

Definition index (h : Histogram) (v : Z) : Z :=
  if v <? wrap64 (subCount h) then v
  else
    let mag := 63 - bitsLeadingZeros v in
    let shift := wrap64 (wrap64 mag - subBits h + 1) in
    let sub := (v >>64 shift) &64 wrap64 (subCount h - 1) in
    mag * subCount h + sub.

Definition Record_ (h : Histogram) (ns : Z) : outcome Histogram :=
  let i := index h ns in
  let i := if i >=? len (counts h) then len (counts h) - 1 else i in
  let* c := Prelude.index (counts h) i in
  let* cs := update (counts h) i (c +64 1) in
  Ok (MkHistogram (subBits h) (subCount h) cs
        (if ns <? hmin h then ns else hmin h) (if ns >? hmax h then ns else hmax h)
        (total h +64 1) (fadd (sum h) (f64_of_Z ns))).

(** The backfill loop; [missing] falls by [interval] at each turn. *)
Fixpoint backfill (fuel : nat) (h : Histogram) (missing interval : Z) : outcome Histogram :=
  match fuel with
  | O => Spin
  | S f =>
      if missing >=? interval
      then let* h' := Record_ h missing in backfill f h' (missing -64 interval) interval
      else Ok h
  end.

(** [ns/interval + 1] turns are enough. *)
Definition RecordCorrected (h : Histogram) (ns expectedIntervalNs : Z) : outcome Histogram :=
  let* h := Record_ h ns in
  if (expectedIntervalNs =? 0) || (ns <=? expectedIntervalNs) then Ok h
  else backfill (S (Z.to_nat (ns / expectedIntervalNs))) h (ns -64 expectedIntervalNs) expectedIntervalNs.

Definition valueAt (h : Histogram) (i : Z) : Z :=
  if i <? subCount h then wrap64 i
  else
    let mag := Z.quot i (subCount h) in
    let sub := Z.rem i (subCount h) in
    let shift := wrap64 (wrap64 mag - subBits h + 1) in
    (wrap64 (subCount h) +64 wrap64 sub) <<64 shift.

Definition f64_50 : float64 := f64_of_Z 50.
Definition f64_90 : float64 := f64_of_Z 90.
Definition f64_99 : float64 := f64_of_Z 99.
Definition f64_99_9 : float64 := S754_finite false 7029837543348634 (-46).
Definition f64_99_99 : float64 := S754_finite false 7036170730324623 (-46).

Record Snapshot := MkSnapshot {
  Count_ : Z; P50 : Z; P90 : Z; P99 : Z; P999 : Z; P9999 : Z; Max_ : Z; Mean_ : Z }.

Fixpoint percentile_loop (h : Histogram) (cs : list Z) (i cum target : Z) : Z :=
  match cs with
  | [] => hmax h
  | c :: cs' =>
      let cum := cum +64 c in
      if cum >=? target then valueAt h i else percentile_loop h cs' (i + 1) cum target
  end.

Section Conversion.
(** What the platform gives for [uint64(x)] when [x] does not fit. *)
Context (oob : float64 -> Z).

Definition to_u64 (x : float64) : Z := default (oob x) (u64_of_f64 x).

Definition rank (p : float64) (n : Z) : Z :=
  let target := to_u64 (fceil (fmul (fdiv p (f64_of_Z 100)) (f64_of_Z n))) in
  if target =? 0 then 1 else target.

Definition Percentile (h : Histogram) (p : float64) : Z :=
  if total h =? 0 then 0
  else percentile_loop h (counts h) 0 0 (rank p (total h)).

Definition Count (h : Histogram) : Z := total h.
Definition Min (h : Histogram) : Z := if total h =? 0 then 0 else hmin h.
Definition Max (h : Histogram) : Z := hmax h.
Definition Mean (h : Histogram) : Z :=
  if total h =? 0 then 0 else to_u64 (fdiv (sum h) (f64_of_Z (total h))).

Definition snapshot (h : Histogram) : Snapshot :=
  MkSnapshot (total h) (Percentile h f64_50) (Percentile h f64_90) (Percentile h f64_99)
    (Percentile h f64_99_9) (Percentile h f64_99_99) (Max h) (Mean h).
End Conversion.

(** [for i, c := range o.counts { h.counts[i] += c }]. *)
Fixpoint merge_counts (hc oc : list Z) (i : Z) : outcome (list Z) :=
  match oc with
  | [] => Ok hc
  | c :: oc' =>
      let* x := Prelude.index hc i in
      let* hc' := update hc i (x +64 c) in
      merge_counts hc' oc' (i + 1)
  end.

Definition Merge (h o : Histogram) : outcome Histogram :=
  let* cs := merge_counts (counts h) (counts o) 0 in
  Ok (MkHistogram (subBits h) (subCount h) cs
        (if (total o >? 0) && (hmin o <? hmin h) then hmin o else hmin h)
        (if (total o >? 0) && (hmax o >? hmax h) then hmax o else hmax h)
        (total h +64 total o) (fadd (sum h) (sum o))).

(** [sort.Float64s] puts NaNs first. *)
Definition is_nan (x : float64) : bool := match x with S754_nan => true | _ => false end.
Definition f64_before (x y : float64) : Prop :=
  (fle x y || is_nan x) = true.

#[global] Instance f64_before_dec : RelDecision f64_before.
Proof. intros x y. unfold f64_before. apply _. Defined.

Definition MedianOf (xs : list float64) : outcome float64 :=
  if len xs =? 0 then Ok f64_zero
  else
    let c := merge_sort f64_before xs in
    let n := len c in
    if Z.rem n 2 =? 1 then Prelude.index c (Z.quot n 2)
    else
      let* a := Prelude.index c (Z.quot n 2 - 1) in
      let* b := Prelude.index c (Z.quot n 2) in
      Ok (fdiv (fadd a b) (f64_of_Z 2)).

(** ** The bucket of a value *)

#[local] Arguments Z.shiftl : simpl never.
#[local] Arguments Z.land : simpl never.
#[local] Arguments wrap64 : simpl never.

Lemma clz_test v i : 0 <= i < 64 -> negb (v &64 (1 <<64 i) =? 0) = Z.testbit v i.
Proof.
  intros Hi. rewrite Z.shiftl_mul_pow2, Z.mul_1_l by lia.
  rewrite wrap64_id by (unfold is_u64; split; [lia|apply Z.pow_lt_mono_r; lia]).
  destruct (Z.testbit v i) eqn:E.
  - destruct (Z.eqb_spec (Z.land v (2 ^ i)) 0) as [H|]; [|done].
    apply (f_equal (fun z => Z.testbit z i)) in H.
    rewrite Z.land_spec, E, Z.pow2_bits_true, Z.bits_0 in H by lia. done.
  - replace (Z.land v (2 ^ i)) with 0; [done|]. symmetry. apply Z.bits_inj_iff'. intros j Hj.
    rewrite Z.land_spec, Z.bits_0. destruct (decide (i = j)) as [<-|]; [by rewrite E|].
    by rewrite Z.pow2_bits_false, andb_false_r by lia.
Qed.

Lemma clz_loop_spec i v n :
  (i < 64)%nat -> 0 < v < 2 ^ (Z.of_nat i + 1) -> clz_loop i v n = n + Z.of_nat i - Z.log2 v.
Proof.
  revert n. induction i as [|i IH]; intros n Hi Hv; cbn [clz_loop]; rewrite clz_test by lia.
  - assert (v = 1) as -> by (simpl in Hv; lia). simpl. lia.
  - destruct (Z.lt_ge_cases v (2 ^ Z.of_nat (S i))) as [Hlt|Hge].
    + rewrite (testbit_high v (Z.of_nat (S i))) by lia.
      rewrite IH; [lia|lia|]. replace (Z.of_nat i + 1) with (Z.of_nat (S i)) by lia. lia.
    + assert (Z.log2 v = Z.of_nat (S i)) as Hl by (apply Z.log2_unique; lia).
      rewrite <- Hl, Z.bit_log2 by lia. lia.
Qed.

Lemma bitsLeadingZeros_eq v : 0 < v < 2 ^ 64 -> bitsLeadingZeros v = 63 - Z.log2 v.
Proof. intros Hv. unfold bitsLeadingZeros. rewrite clz_loop_spec by (simpl; lia). lia. Qed.

(** A histogram with the geometry [New] gives. *)
Definition geometry (h : Histogram) : Prop := subBits h = 7 /\ subCount h = 128.

(** The bucket in closed form. *)
Definition bucket (v : Z) : Z :=
  if v <? 128 then v else Z.log2 v * 128 + v / 2 ^ (Z.log2 v - 6).

Lemma log2_128 v : 128 <= v -> 7 <= Z.log2 v.
Proof. intros. apply (Z.log2_le_mono 128) in H. done. Qed.

(** The leading seven bits of a value of 128 or more: 64 to 127. *)
Lemma mantissa_range v : 128 <= v -> 64 <= v / 2 ^ (Z.log2 v - 6) < 128.
Proof.
  intros Hv. pose proof (log2_128 v Hv) as Hl. pose proof (Z.log2_spec v ltac:(lia)) as [Hlo Hhi].
  pose proof (pow2_pos (Z.log2 v - 6) ltac:(lia)). split.
  - apply Z.div_le_lower_bound; [lia|]. change 64 with (2 ^ 6). rewrite <- Z.pow_add_r by lia.
    by replace (Z.log2 v - 6 + 6) with (Z.log2 v) by lia.
  - apply Z.div_lt_upper_bound; [lia|]. change 128 with (2 ^ 7). rewrite <- Z.pow_add_r by lia.
    by replace (Z.log2 v - 6 + 7) with (Z.succ (Z.log2 v)) by lia.
Qed.

Lemma log2_u64 v : 0 < v -> is_u64 v -> Z.log2 v < 64.
Proof. intros ? [_ ?]. apply Z.log2_lt_pow2; lia. Qed.

Lemma index_bucket h v : geometry h -> is_u64 v -> index h v = bucket v.
Proof.
  intros [Hb Hc] Hv. unfold index, bucket. rewrite Hb, Hc.
  change (wrap64 128) with 128. change (wrap64 (128 - 1)) with (2 ^ 7 - 1).
  case_zcmp; [done|]. pose proof (log2_128 v ltac:(lia)). pose proof (log2_u64 v ltac:(lia) Hv).
  rewrite bitsLeadingZeros_eq by zlia. replace (63 - (63 - Z.log2 v)) with (Z.log2 v) by lia.
  rewrite (wrap64_id (Z.log2 v)) by zlia. replace (Z.log2 v - 7 + 1) with (Z.log2 v - 6) by lia.
  rewrite wrap64_id by zlia. rewrite land_mask by lia. rewrite Z.shiftr_div_pow2 by lia.
  pose proof (mantissa_range v ltac:(lia)). rewrite Z.mod_small by lia. done.
Qed.

Lemma bucket_range v : is_u64 v -> 0 <= bucket v < 8192.
Proof.
  intros Hv. unfold bucket. case_zcmp; [zlia|]. pose proof (log2_128 v ltac:(lia)).
  pose proof (log2_u64 v ltac:(lia) Hv). pose proof (mantissa_range v ltac:(lia)). lia.
Qed.

Lemma bucket_mono v w : 0 <= v -> v <= w -> bucket v <= bucket w.
Proof.
  intros H0 Hvw. unfold bucket. destruct (Z.ltb_spec v 128), (Z.ltb_spec w 128); [lia| |lia|].
  - pose proof (log2_128 w ltac:(lia)). pose proof (mantissa_range w ltac:(lia)). lia.
  - pose proof (mantissa_range v ltac:(lia)). pose proof (mantissa_range w ltac:(lia)).
    destruct (Z.eq_dec (Z.log2 v) (Z.log2 w)) as [->|Hne].
    + pose proof (pow2_pos (Z.log2 w - 6)). pose proof (log2_128 w ltac:(lia)).
      assert (v / 2 ^ (Z.log2 w - 6) <= w / 2 ^ (Z.log2 w - 6)) by (apply Z.div_le_mono; lia). lia.
    + pose proof (Z.log2_le_mono v w Hvw). lia.
Qed.

(** Two values of one bucket differ by less than 1/64 of either. *)
Lemma bucket_precision v w :
  0 <= v -> v <= w -> bucket v = bucket w -> 64 * (w - v) <= v.
Proof.
  intros H0 Hvw E. unfold bucket in E. destruct (Z.ltb_spec v 128), (Z.ltb_spec w 128); [lia| |lia|].
  - pose proof (log2_128 w ltac:(lia)). pose proof (mantissa_range w ltac:(lia)). lia.
  - pose proof (mantissa_range v ltac:(lia)) as Hmv. pose proof (mantissa_range w ltac:(lia)) as Hmw.
    pose proof (Z.log2_le_mono v w Hvw).
    assert (Z.log2 v = Z.log2 w) as Hl by lia. rewrite Hl in *.
    assert (v / 2 ^ (Z.log2 w - 6) = w / 2 ^ (Z.log2 w - 6)) as Hq by lia.
    pose proof (log2_128 w ltac:(lia)). pose proof (pow2_pos (Z.log2 w - 6) ltac:(lia)) as Hp.
    pose proof (Z.div_mod v (2 ^ (Z.log2 w - 6)) ltac:(lia)).
    pose proof (Z.div_mod w (2 ^ (Z.log2 w - 6)) ltac:(lia)).
    pose proof (Z.mod_pos_bound v (2 ^ (Z.log2 w - 6)) Hp).
    pose proof (Z.mod_pos_bound w (2 ^ (Z.log2 w - 6)) Hp). nia.
Qed.

(** The value a bucket is reported as: for 128 and above, the low end of the
    bucket plus [2^(log2 v + 1)]. *)
Lemma valueAt_bucket h v :
  geometry h -> 128 <= v < 2 ^ 63 ->
  valueAt h (bucket v) =
    v / 2 ^ (Z.log2 v - 6) * 2 ^ (Z.log2 v - 6) + 2 ^ (Z.log2 v + 1).
Proof.
  intros [Hb Hc] Hv. unfold valueAt, bucket. rewrite Hb, Hc. destruct (Z.ltb_spec v 128); [lia|].
  pose proof (log2_128 v ltac:(lia)) as Hl. pose proof (mantissa_range v ltac:(lia)) as Hm.
  assert (Z.log2 v < 63) as Hu by (apply Z.log2_lt_pow2; lia).
  set (q := v / 2 ^ (Z.log2 v - 6)) in *. case_zcmp; [lia|].
  rewrite Z.quot_div_nonneg, Z.rem_mod_nonneg by lia.
  rewrite (Z.add_comm _ q), Z.div_add, Z.mod_add by lia. rewrite Z.div_small, Z.mod_small by lia. rewrite Z.add_0_l.
  rewrite (wrap64_id (Z.log2 v)) by zlia. replace (Z.log2 v - 7 + 1) with (Z.log2 v - 6) by lia.
  rewrite (wrap64_id (Z.log2 v - 6)) by zlia. change (wrap64 128) with 128.
  rewrite (wrap64_id q) by zlia. rewrite (wrap64_id (128 + q)) by zlia.
  rewrite Z.shiftl_mul_pow2 by lia.
  assert (2 ^ (Z.log2 v + 1) = 128 * 2 ^ (Z.log2 v - 6)) as ->.
  { change 128 with (2 ^ 7). rewrite <- Z.pow_add_r by lia. f_equal. lia. }
  assert (2 ^ (Z.log2 v - 6) <= 2 ^ 56) by (apply Z.pow_le_mono_r; lia).
  rewrite wrap64_id by (unfold is_u64; nia). lia.
Qed.

Lemma valueAt_small h v : geometry h -> 0 <= v < 128 -> valueAt h (bucket v) = v.
Proof.
  intros [Hb Hc] Hv. unfold valueAt, bucket. rewrite Hc. destruct (Z.ltb_spec v 128); [|lia].
  case_zcmp; [|lia].
  apply wrap64_id. zlia.
Qed.

Lemma valueAt_bounds h v :
  geometry h -> 128 <= v < 2 ^ 63 -> 127 * v < 64 * valueAt h (bucket v) /\ valueAt h (bucket v) <= 3 * v.
Proof.
  intros Hg Hv. rewrite valueAt_bucket by done. pose proof (log2_128 v ltac:(lia)).
  pose proof (Z.log2_spec v ltac:(lia)) as [Hlo Hhi]. rewrite Z.pow_succ_r in Hhi by lia.
  rewrite Z.pow_add_r by lia. change (2 ^ 1) with 2.
  pose proof (pow2_pos (Z.log2 v - 6) ltac:(lia)) as Hp.
  pose proof (Z.div_mod v (2 ^ (Z.log2 v - 6)) ltac:(lia)).
  pose proof (Z.mod_pos_bound v (2 ^ (Z.log2 v - 6)) Hp).
  assert (2 ^ Z.log2 v = 64 * 2 ^ (Z.log2 v - 6)) as Hs.
  { change 64 with (2 ^ 6). rewrite <- Z.pow_add_r by lia. f_equal. lia. }
  nia.
Qed.

(** ** What the histogram is after a list of samples *)

Definition bucket_count (xs : list Z) (i : Z) : Z := len (filter (fun x => bucket x = i) xs).

(** 64 magnitudes of 128 sub-buckets. *)
Definition numBuckets : nat := Z.to_nat 8192.

Lemma numBuckets_eq : Z.of_nat numBuckets = 8192.
Proof. unfold numBuckets. lia. Qed.

Definition hist_of (xs : list Z) : Histogram :=
  MkHistogram 7 128 ((fun i => wrap64 (bucket_count xs (Z.of_nat i))) <$> seq 0 numBuckets)
    (foldr Z.min MaxUint64 xs) (foldr Z.max 0 xs) (wrap64 (len xs))
    (foldl fadd f64_zero (f64_of_Z <$> xs)).

Definition samples (xs : list Z) : Prop := Forall is_u64 xs.

Lemma hist_of_geometry xs : geometry (hist_of xs).
Proof. done. Qed.

Lemma wrap64_add a b : wrap64 (wrap64 a + wrap64 b) = wrap64 (a + b).
Proof. unfold wrap64. by rewrite <- Z.add_mod by lia. Qed.

Lemma wrap64_add_l a b : wrap64 (wrap64 a + b) = wrap64 (a + b).
Proof. unfold wrap64. by rewrite Z.add_mod_idemp_l by lia. Qed.

Lemma bucket_count_app xs ys i : bucket_count (xs ++ ys) i = bucket_count xs i + bucket_count ys i.
Proof. unfold bucket_count. by rewrite filter_app, len_app. Qed.

Lemma bucket_count_one x i : bucket_count [x] i = if decide (bucket x = i) then 1 else 0.
Proof. unfold bucket_count. rewrite filter_cons. by case_decide. Qed.

Lemma hist_of_counts_len xs : len (counts (hist_of xs)) = 8192.
Proof. unfold len, hist_of. cbn [counts]. rewrite length_fmap, length_seq. apply numBuckets_eq. Qed.

Lemma hist_of_lookup xs i : (i < numBuckets)%nat ->
  counts (hist_of xs) !! i = Some (wrap64 (bucket_count xs (Z.of_nat i))).
Proof.
  intros Hi. unfold hist_of. cbn [counts]. rewrite list_lookup_fmap, lookup_seq_lt by done. done.
Qed.

Lemma New_hist : New = hist_of [].
Proof. vm_compute. reflexivity. Qed.

#[local] Opaque numBuckets.

Lemma foldr_min_snoc xs x :
  x <= MaxUint64 ->
  foldr Z.min MaxUint64 (xs ++ [x]) =
  if x <? foldr Z.min MaxUint64 xs then x else foldr Z.min MaxUint64 xs.
Proof.
  intros. induction xs as [|y xs IH]; simpl; [|rewrite IH]; repeat case_zcmp; lia.
Qed.

Lemma foldr_max_snoc xs x :
  0 <= x -> foldr Z.max 0 (xs ++ [x]) = if x >? foldr Z.max 0 xs then x else foldr Z.max 0 xs.
Proof.
  intros. induction xs as [|y xs IH]; simpl; [|rewrite IH]; repeat case_zcmp; lia.
Qed.

Lemma Record_hist xs x : is_u64 x -> Record_ (hist_of xs) x = Ok (hist_of (xs ++ [x])).
Proof.
  intros Hx. pose proof numBuckets_eq as HN. unfold Record_. rewrite index_bucket by done.
  rewrite hist_of_counts_len.
  pose proof (bucket_range x Hx) as Hb. rewrite Z.geb_leb.
  destruct (Z.leb_spec 8192 (bucket x)); [lia|]. rewrite <- (Z2Nat.id (bucket x)) by lia.
  erewrite index_ok by (apply hist_of_lookup; lia). cbn [obind].
  rewrite update_ok by (pose proof (hist_of_counts_len xs); unfold len in *; lia). cbn [obind].
  f_equal. set (h := hist_of xs). unfold hist_of. subst h. f_equal; try done.
  - apply list_eq. intros i. destruct (decide (i < numBuckets)%nat) as [Hi|Hi].
    + rewrite list_lookup_fmap, lookup_seq_lt by done. cbn [fmap option_fmap option_map].
      rewrite bucket_count_app, bucket_count_one.
      destruct (decide (Z.to_nat (bucket x) = i)) as [<-|Hn].
      * rewrite list_lookup_insert_eq by (pose proof (hist_of_counts_len xs); unfold len in *; lia).
        rewrite wrap64_add_l. simpl. rewrite decide_True by lia. done.
      * rewrite list_lookup_insert_ne by done. rewrite hist_of_lookup by done.
        rewrite decide_False by lia. by rewrite Z.add_0_r.
    + rewrite !lookup_ge_None_2; [done|rewrite length_fmap, length_seq; lia|].
      rewrite length_insert. pose proof (hist_of_counts_len xs). unfold len in *. lia.
  - cbn [hist_of hmin]. rewrite foldr_min_snoc by (unfold MaxUint64; zlia). done.
  - cbn [hist_of hmax]. rewrite foldr_max_snoc by zlia. done.
  - cbn [hist_of total]. rewrite wrap64_add_l, len_app. done.
  - cbn [hist_of sum]. by rewrite fmap_app, foldl_app.
Qed.

(** Recording a list of samples one after the other. *)
Fixpoint record_all (h : Histogram) (xs : list Z) : outcome Histogram :=
  match xs with
  | [] => Ok h
  | x :: xs' => let* h' := Record_ h x in record_all h' xs'
  end.

Lemma record_all_hist xs ys : samples ys -> record_all (hist_of xs) ys = Ok (hist_of (xs ++ ys)).
Proof.
  revert xs. induction ys as [|y ys IH]; intros xs Hy; [by rewrite app_nil_r|].
  apply Forall_cons in Hy as [Hy Hys]. cbn [record_all]. rewrite Record_hist by done. cbn [obind].
  by rewrite IH, <- app_assoc.
Qed.

(** ** Coordinated-omission correction *)

(** [m], [m-e], [m-2e], ... down to the last one that is at least [e]. *)
Definition steps_down (m e : Z) : list Z := (fun j => m - e * Z.of_nat j) <$> seq 0 (Z.to_nat (m / e)).

Lemma steps_down_cons m e :
  0 < e <= m -> steps_down m e = m :: steps_down (m - e) e.
Proof.
  intros He. unfold steps_down. assert (1 <= m / e) by (apply Z.div_le_lower_bound; lia).
  replace ((m - e) / e) with (m / e - 1)
    by (replace (m - e) with (m + -1 * e) by lia; rewrite Z.div_add by lia; lia).
  replace (Z.to_nat (m / e)) with (S (Z.to_nat (m / e - 1))) by lia.
  rewrite <- cons_seq, fmap_cons, <- fmap_S_seq, <- list_fmap_compose. f_equal; [lia|].
  apply list_fmap_ext. intros i x Hx. simpl. lia.
Qed.

Lemma steps_down_nil m e : 0 <= m < e -> steps_down m e = [].
Proof. intros. unfold steps_down. by rewrite Z.div_small by lia. Qed.

Lemma backfill_hist e : 0 < e -> forall fuel m xs,
  is_u64 m -> m / e < Z.of_nat fuel ->
  backfill fuel (hist_of xs) m e = Ok (hist_of (xs ++ steps_down m e)).
Proof.
  intros He. induction fuel as [|f IH]; intros m xs Hm Hf.
  { pose proof (Z.div_pos m e). zlia. }
  cbn [backfill]. rewrite Z.geb_leb. case_zcmp.
  - rewrite Record_hist by done. cbn [obind]. rewrite wrap64_id by zlia. rewrite IH.
    + by rewrite <- app_assoc, (steps_down_cons m e) by lia.
    + zlia.
    + replace (m - e) with (m + -1 * e) by lia. rewrite Z.div_add by lia. lia.
  - rewrite steps_down_nil by zlia. by rewrite app_nil_r.
Qed.

Definition corrected (ns e : Z) : list Z :=
  ns :: (if (e =? 0) || (ns <=? e) then [] else steps_down (ns - e) e).

Lemma RecordCorrected_hist xs ns e :
  is_u64 ns -> is_u64 e -> RecordCorrected (hist_of xs) ns e = Ok (hist_of (xs ++ corrected ns e)).
Proof.
  intros Hns He. unfold RecordCorrected, corrected. rewrite Record_hist by done. cbn [obind].
  destruct (Z.eqb_spec e 0) as [->|Hne]; [done|]. destruct (Z.leb_spec ns e); [done|]. cbn [orb].
  rewrite wrap64_id by zlia. rewrite backfill_hist; [by rewrite <- app_assoc|zlia|zlia|].
  assert ((ns - e) / e <= ns / e) by (apply Z.div_le_mono; zlia).
  pose proof (Z.div_pos ns e). zlia.
Qed.

(** ** Merging *)

Lemma merge_counts_zip oc : forall pre hc,
  length hc = length oc ->
  merge_counts (pre ++ hc) oc (len pre) = Ok (pre ++ zip_with (fun a b => wrap64 (a + b)) hc oc).
Proof.
  induction oc as [|c oc IH]; intros pre [|x hc] Hlen; simpl in Hlen; try done.
  cbn [merge_counts zip_with]. change (len pre) with (Z.of_nat (length pre)).
  erewrite index_ok by (by rewrite lookup_app_r, Nat.sub_diag by lia). cbn [obind].
  rewrite update_ok by (rewrite length_app; simpl; lia). cbn [obind].
  rewrite insert_app_r_alt, Nat.sub_diag by lia. cbn [insert list_insert].
  replace (Z.of_nat (length pre) + 1) with (len (pre ++ [wrap64 (x + c)]))
    by (rewrite len_app, len_cons, len_nil; unfold len; lia).
  rewrite cons_middle, app_assoc, IH by lia. by rewrite <- app_assoc.
Qed.

Lemma merge_counts_hist xs ys :
  merge_counts (counts (hist_of xs)) (counts (hist_of ys)) 0 = Ok (counts (hist_of (xs ++ ys))).
Proof.
  etrans.
  { apply (merge_counts_zip (counts (hist_of ys)) [] (counts (hist_of xs))).
    unfold hist_of. cbn [counts]. by rewrite !length_fmap. }
  rewrite app_nil_l. f_equal. unfold hist_of. cbn [counts]. rewrite zip_with_fmap_l, zip_with_fmap_r, zip_with_diag.
  apply list_fmap_ext. intros i x _. by rewrite wrap64_add, bucket_count_app.
Qed.

Lemma foldr_min_app xs ys :
  foldr Z.min MaxUint64 (xs ++ ys) = Z.min (foldr Z.min MaxUint64 xs) (foldr Z.min MaxUint64 ys).
Proof.
  assert (foldr Z.min MaxUint64 ys <= MaxUint64) by (clear; induction ys; simpl; lia).
  induction xs as [|x xs IH]; simpl; lia.
Qed.

Lemma foldr_max_app xs ys : foldr Z.max 0 (xs ++ ys) = Z.max (foldr Z.max 0 xs) (foldr Z.max 0 ys).
Proof.
  assert (0 <= foldr Z.max 0 ys) by (clear; induction ys; simpl; lia).
  induction xs as [|x xs IH]; simpl; lia.
Qed.

(** Equality up to the floating-point sum, whose value depends on the order of
    the additions. *)
Definition same_but_sum (h g : Histogram) : Prop :=
  subBits h = subBits g /\ subCount h = subCount g /\ counts h = counts g /\
  hmin h = hmin g /\ hmax h = hmax g /\ total h = total g.

#[global] Instance same_but_sum_equiv : Equivalence same_but_sum.
Proof.
  split; unfold same_but_sum.
  - done.
  - intros ? ? (? & ? & ? & ? & ? & ?). split_and!; congruence.
  - intros ? ? ? (? & ? & ? & ? & ? & ?) (? & ? & ? & ? & ? & ?). split_and!; congruence.
Qed.

Lemma Merge_hist xs ys :
  len ys < 2 ^ 64 ->
  exists h, Merge (hist_of xs) (hist_of ys) = Ok h /\ same_but_sum h (hist_of (xs ++ ys)).
Proof.
  intros Hlen. unfold Merge. rewrite merge_counts_hist. cbn [obind]. eexists. split; [done|].
  unfold same_but_sum. cbn [subBits subCount counts hmin hmax total hist_of].
  rewrite foldr_min_app, foldr_max_app, wrap64_add, len_app. split_and!; try done.
  - rewrite (wrap64_id (len ys)) by zlia. destruct (Z.gtb_spec (len ys) 0); cbn [andb].
    + case_zcmp; lia.
    + destruct ys; [|rewrite len_cons in *; zlia]. simpl.
      assert (foldr Z.min MaxUint64 xs <= MaxUint64) by (clear; induction xs; simpl; lia). lia.
  - rewrite (wrap64_id (len ys)) by zlia. destruct (Z.gtb_spec (len ys) 0); cbn [andb].
    + case_zcmp; lia.
    + destruct ys; [|rewrite len_cons in *; zlia]. simpl.
      assert (0 <= foldr Z.max 0 xs) by (clear; induction xs; simpl; lia). lia.
Qed.

(** ** Percentiles are order statistics *)

(** How many samples fall in the buckets before [i]. *)
Definition below (xs : list Z) (i : Z) : Z := len (filter (fun x => bucket x < i) xs).

Lemma below_succ xs i : below xs (i + 1) = below xs i + bucket_count xs i.
Proof.
  unfold below, bucket_count. induction xs as [|x xs IH]; [done|].
  rewrite !filter_cons. repeat case_decide; rewrite ?len_cons; lia.
Qed.

Lemma below_mono xs i j : i <= j -> below xs i <= below xs j.
Proof.
  intros. unfold below. induction xs as [|x xs IH]; [done|].
  rewrite !filter_cons. repeat case_decide; rewrite ?len_cons; lia.
Qed.

Lemma below_le xs i : 0 <= below xs i <= len xs.
Proof.
  split; [apply len_nonneg|]. unfold below, len.
  pose proof (length_filter (fun x => bucket x < i) xs). lia.
Qed.

Lemma below_perm xs ys i : xs ≡ₚ ys -> below xs i = below ys i.
Proof. intros E. unfold below, len. by rewrite E. Qed.

(** The walk over the counters stops at the bucket where the running total
    reaches the target. *)
Lemma percentile_loop_spec h xs target j : len xs < 2 ^ 64 ->
  below xs (Z.of_nat j) < target <= below xs (Z.of_nat j + 1) ->
  forall n i, (i <= j < i + n)%nat ->
  percentile_loop h ((fun i => wrap64 (bucket_count xs (Z.of_nat i))) <$> seq i n)
    (Z.of_nat i) (below xs (Z.of_nat i)) target = valueAt h (Z.of_nat j).
Proof.
  intros Hlen Ht. induction n as [|n IH]; intros i Hi; [lia|].
  cbn [seq fmap list_fmap percentile_loop].
  pose proof (below_le xs (Z.of_nat i)). pose proof (below_le xs (Z.of_nat i + 1)).
  pose proof (below_succ xs (Z.of_nat i)) as Hs.
  assert (0 <= bucket_count xs (Z.of_nat i)) by apply len_nonneg.
  rewrite (wrap64_id (bucket_count _ _)) by zlia. rewrite <- Hs, wrap64_id by zlia.
  destruct (decide (i = j)) as [->|Hn].
  - rewrite Z.geb_leb. case_zcmp; [done|lia].
  - pose proof (below_mono xs (Z.of_nat i + 1) (Z.of_nat j) ltac:(lia)).
    rewrite Z.geb_leb. case_zcmp; [lia|]. replace (Z.of_nat i + 1) with (Z.of_nat (S i)) by lia.
    apply IH. lia.
Qed.

Lemma below_app xs ys i : below (xs ++ ys) i = below xs i + below ys i.
Proof. unfold below. by rewrite filter_app, len_app. Qed.

Lemma below_all xs i : Forall (fun x => bucket x < i) xs -> below xs i = len xs.
Proof. intros H. unfold below. by rewrite filter_all. Qed.

Lemma below_none xs i : Forall (fun x => i <= bucket x) xs -> below xs i = 0.
Proof.
  intros H. unfold below. rewrite filter_none; [done|].
  eapply Forall_impl; [done|]. simpl. lia.
Qed.

(** In a sorted list, the bucket of element [t] is where [t+1] is reached. *)
Lemma below_sorted (s : list Z) (t : nat) x :
  Forall is_u64 s -> StronglySorted Z.le s -> s !! t = Some x ->
  below s (bucket x) < Z.of_nat t + 1 <= below s (bucket x + 1).
Proof.
  intros Hu Hs Ht. pose proof (lookup_lt_Some _ _ _ Ht) as Hlt.
  assert (len (take t s) = Z.of_nat t) as Hla by (unfold len; rewrite length_take; lia).
  rewrite <- (take_drop_middle _ _ _ Ht) in Hs, Hu |- *.
  apply StronglySorted_app in Hs as (Hax & _ & Hz). apply Forall_app in Hu as [Hua Hux].
  apply Forall_cons in Hux as [Hx _]. apply StronglySorted_cons in Hz as [Hxz _].
  rewrite !below_app. split.
  - rewrite (below_none (x :: _)); [pose proof (below_le (take t s) (bucket x)); lia|].
    constructor; [lia|]. eapply Forall_impl; [exact Hxz|]. intros y Hy. simpl.
    apply bucket_mono; zlia.
  - rewrite below_all; [pose proof (below_le (drop (S t) s) (bucket x + 1))|].
    + change (x :: drop (S t) s) with ([x] ++ drop (S t) s). rewrite below_app.
      rewrite (below_all [x]) by (repeat constructor; lia). rewrite len_cons, len_nil. lia.
    + apply Forall_forall. intros y Hy. rewrite Forall_forall in Hua.
      assert (bucket y <= bucket x); [|lia]. apply bucket_mono; [by destruct (Hua y Hy)|].
      apply Hax; [done|]. by left.
Qed.

Lemma Percentile_hist oob xs p x :
  samples xs -> len xs < 2 ^ 64 -> 1 <= rank oob p (len xs) ->
  merge_sort Z.le xs !! Z.to_nat (rank oob p (len xs) - 1) = Some x ->
  Percentile oob (hist_of xs) p = valueAt (hist_of xs) (bucket x).
Proof.
  intros Hu Hlen Hr Hx. set (t := Z.to_nat (rank oob p (len xs) - 1)) in *.
  pose proof (merge_sort_Permutation Z.le xs) as Hp.
  assert (Forall is_u64 (merge_sort Z.le xs)) as Hus by (by rewrite Hp).
  assert (1 <= len xs) as Hne.
  { apply lookup_lt_Some in Hx. rewrite Hp in Hx. unfold len. lia. }
  pose proof (Forall_lookup_1 _ _ _ _ Hus Hx) as Hxu. simpl in Hxu. pose proof (bucket_range x Hxu).
  pose proof (below_sorted _ _ _ Hus (StronglySorted_merge_sort _ _) Hx) as Hb.
  rewrite !(below_perm _ _ _ Hp) in Hb.
  unfold Percentile. cbn [total hist_of]. rewrite wrap64_id by zlia. case_zcmp; [lia|].
  cbn [counts hist_of]. rewrite <- (Z2Nat.id (bucket x)) in Hb |- * by lia.
  assert (below xs (Z.of_nat 0) = 0) as H0.
  { apply below_none. eapply Forall_impl; [exact Hu|]. intros y Hy. apply bucket_range in Hy. lia. }
  pose proof (percentile_loop_spec (hist_of xs) xs (rank oob p (len xs)) (Z.to_nat (bucket x)) Hlen)
    as Hloop. specialize (Hloop ltac:(lia) numBuckets 0%nat). rewrite H0 in Hloop. apply Hloop.
  pose proof numBuckets_eq. lia.
Qed.

Lemma Merge_same h h' o r :
  same_but_sum h h' -> Merge h' o = Ok r -> exists r', Merge h o = Ok r' /\ same_but_sum r' r.
Proof.
  intros (Hb & Hc & Hcs & Hmin & Hmax & Ht) Hm. unfold Merge in *. rewrite Hcs.
  apply obind_ok in Hm as (cs & -> & [= <-]). eexists. split; [done|].
  unfold same_but_sum. cbn [subBits subCount counts hmin hmax total]. by rewrite Hb, Hc, Hmin, Hmax, Ht.
Qed.

(** Percentiles do not read the sum. *)
Lemma Percentile_same oob h g p : same_but_sum h g -> Percentile oob h p = Percentile oob g p.
Proof.
  intros (Hb & Hc & Hcs & _ & Hmax & Ht). unfold Percentile. rewrite Ht, Hcs.
  assert (forall i, valueAt h i = valueAt g i) as Hv by (intros; unfold valueAt; by rewrite Hb, Hc).
  assert (forall cs i cum target, percentile_loop h cs i cum target = percentile_loop g cs i cum target) as Hl.
  { induction cs as [|c cs IH]; intros; cbn [percentile_loop]; [done|]. by rewrite Hv, IH. }
  by rewrite Hl.
Qed.

(** ** Claims *)

(** C16: a percentile is an order statistic.  After recording [xs] (fewer than
    [2^64] samples), a percentile whose rank is the position of [x] in the
    sorted samples is reported as the representative value of [x]'s bucket. *)
Theorem percentile_order_statistic oob xs h p x :
  samples xs -> len xs < 2 ^ 64 -> record_all New xs = Ok h -> 1 <= rank oob p (len xs) ->
  merge_sort Z.le xs !! Z.to_nat (rank oob p (len xs) - 1) = Some x ->
  Percentile oob h p = valueAt h (index h x).
Proof.
  intros Hs Hlen Hrec Hr Hx. rewrite New_hist, record_all_hist in Hrec by done.
  injection Hrec as <-. cbn [app].
  assert (is_u64 x) as Hxu.
  { eapply (Forall_lookup_1 is_u64); [|exact Hx]. by rewrite merge_sort_Permutation. }
  rewrite index_bucket by done. by apply Percentile_hist.
Qed.

Lemma percentile_order_statistic_witness :
  Percentile (fun _ => 0) (hist_of [5; 3; 9]) f64_50 = valueAt (hist_of [5; 3; 9]) (index (hist_of [5; 3; 9]) 5).
Proof.
  apply (percentile_order_statistic (fun _ => 0) [5; 3; 9] (hist_of [5; 3; 9]) f64_50 5).
  - repeat constructor; vm_compute; congruence.
  - reflexivity.
  - rewrite New_hist. apply (record_all_hist [] [5; 3; 9]). repeat constructor; vm_compute; congruence.
  - vm_compute. congruence.
  - vm_compute. reflexivity.
Defined.

(** Recording never panics and counts exactly: after recording [xs] every
    bucket holds the number of samples that fall in it, the total is the number
    of samples (counters are modulo [2^64]), and the minimum and maximum are
    those of the samples. *)
Theorem record_counts xs :
  samples xs -> xs <> [] ->
  exists h, record_all New xs = Ok h /\
    (forall i, (i < numBuckets)%nat ->
       counts h !! i = Some (wrap64 (len (filter (fun x => index h x = Z.of_nat i) xs)))) /\
    Count h = wrap64 (len xs) /\ hmin h ∈ xs /\ hmax h ∈ xs /\
    Forall (fun x => hmin h <= x <= hmax h) xs.
Proof.
  intros Hs Hne. rewrite New_hist, record_all_hist by done. eexists. split; [done|]. cbn [app].
  split_and!.
  - intros i Hi. rewrite hist_of_lookup by done. do 2 f_equal. unfold bucket_count. f_equal.
    apply list_filter_iff'. intros x Hx. rewrite index_bucket; [done|done|].
    by eapply (proj1 (Forall_forall _ _)) in Hx.
  - done.
  - cbn [hmin hist_of]. clear -Hs Hne. induction Hs as [|x xs Hx Hs IH]; [done|]. simpl.
    destruct xs as [|y xs]; [simpl; rewrite Z.min_l by (unfold MaxUint64, is_u64 in *; lia); left|].
    destruct (Z.min_spec x (foldr Z.min MaxUint64 (y :: xs))) as [[_ ->]|[_ ->]]; [left|right; by apply IH].
  - cbn [hmax hist_of]. clear -Hs Hne. induction Hs as [|x xs Hx Hs IH]; [done|]. simpl.
    destruct xs as [|y xs]; [simpl; rewrite Z.max_l by (unfold is_u64 in *; lia); left|].
    destruct (Z.max_spec x (foldr Z.max 0 (y :: xs))) as [[_ ->]|[_ ->]]; [right; by apply IH|left].
  - cbn [hmin hmax hist_of]. clear. apply Forall_forall. intros x Hx.
    induction xs as [|y xs IH]; [by apply elem_of_nil in Hx|].
    apply elem_of_cons in Hx as [->|Hx]; simpl; [lia|]. specialize (IH Hx). lia.
Qed.

Lemma record_counts_witness :
  exists h, record_all New [7; 200] = Ok h /\
    (forall i, (i < numBuckets)%nat ->
       counts h !! i = Some (wrap64 (len (filter (fun x => index h x = Z.of_nat i) [7; 200])))) /\
    Count h = wrap64 (len [7; 200]) /\ hmin h ∈ [7; 200] /\ hmax h ∈ [7; 200] /\
    Forall (fun x => hmin h <= x <= hmax h) [7; 200].
Proof. apply (record_counts [7; 200]); [repeat constructor; vm_compute; congruence|discriminate]. Defined.

(** C17: merging is recording the concatenation.  Merging the histogram of
    [ys] into that of [xs] gives, in every field but the floating-point sum,
    the histogram of [xs ++ ys]; so every percentile of the merge is that of
    the samples taken together. *)
Theorem merge_concat oob xs ys h g :
  samples xs -> samples ys -> len ys < 2 ^ 64 ->
  record_all New xs = Ok h -> record_all New ys = Ok g ->
  exists r c, Merge h g = Ok r /\ record_all New (xs ++ ys) = Ok c /\ same_but_sum r c /\
    forall p, Percentile oob r p = Percentile oob c p.
Proof.
  intros Hx Hy Hlen Hh Hg. rewrite New_hist in *. rewrite record_all_hist in Hh, Hg by done.
  injection Hh as <-. injection Hg as <-.
  destruct (Merge_hist xs ys Hlen) as (r & Hm & Hs). exists r, (hist_of (xs ++ ys)). split_and!; [exact Hm| |exact Hs|].
  - rewrite record_all_hist; [reflexivity|]. unfold samples. rewrite Forall_app. split; assumption.
  - intros p. by apply Percentile_same.
Qed.

Lemma merge_concat_witness :
  exists r c, Merge (hist_of [1]) (hist_of [300; 2]) = Ok r /\ record_all New ([1] ++ [300; 2]) = Ok c /\
    same_but_sum r c /\ forall p, Percentile (fun _ => 0) r p = Percentile (fun _ => 0) c p.
Proof.
  apply (merge_concat (fun _ => 0) [1] [300; 2]);
    [repeat constructor; vm_compute; congruence..|reflexivity| |];
    rewrite New_hist; apply (record_all_hist []); repeat constructor; vm_compute; congruence.
Defined.

(** C18: the coordinated-omission correction terminates and records exactly
    the sample and the values [ns - e], [ns - 2e], ... that are at least [e]:
    [ns / e] samples in all when [ns] exceeds [e], one otherwise. *)
Theorem corrected_backfill xs ns e :
  samples xs -> is_u64 ns -> is_u64 e ->
  RecordCorrected (hist_of xs) ns e = record_all (hist_of xs) (corrected ns e) /\
  len (corrected ns e) = (if (0 <? e) && (e <? ns) then ns / e else 1) /\
  Forall (fun x => x = ns \/ (e <= x < ns /\ (ns - x) mod e = 0)) (corrected ns e).
Proof.
  intros Hx Hns He. split_and!.
  - rewrite RecordCorrected_hist, record_all_hist; [done| |done..]. unfold corrected.
    constructor; [done|]. destruct (_ || _) eqn:E; [constructor|]. apply orb_false_iff in E as [E1%Z.eqb_neq E2%Z.leb_gt].
    apply Forall_fmap, Forall_forall. intros j [_ Hj]%elem_of_seq. unfold is_u64 in *. simpl.
    pose proof (Z.mul_div_le (ns - e) e). nia.
  - unfold corrected. rewrite len_cons. unfold is_u64 in *.
    destruct (Z.eqb_spec e 0) as [->|]; [done|]. destruct (Z.leb_spec ns e), (Z.ltb_spec 0 e), (Z.ltb_spec e ns);
      try lia; try done. cbn [orb andb]. unfold steps_down, len. rewrite length_fmap, length_seq.
    replace (ns - e) with (ns + -1 * e) by lia. rewrite Z.div_add by lia.
    assert (1 <= ns / e) by (apply Z.div_le_lower_bound; lia). lia.
  - unfold corrected. constructor; [by left|]. destruct (_ || _) eqn:E; [constructor|].
    apply orb_false_iff in E as [E1%Z.eqb_neq E2%Z.leb_gt]. unfold is_u64 in *.
    apply Forall_fmap, Forall_forall. intros j [_ Hj]%elem_of_seq. right. simpl.
    pose proof (Z.mul_div_le (ns - e) e ltac:(lia)).
    replace (ns - (ns - e - e * Z.of_nat j)) with ((Z.of_nat j + 1) * e) by lia. rewrite Z.mod_mul by lia.
    split; [|done]. nia.
Qed.

Lemma corrected_backfill_witness :
  RecordCorrected (hist_of []) 10 3 = record_all (hist_of []) (corrected 10 3) /\
  len (corrected 10 3) = (if (0 <? 3) && (3 <? 10) then 10 / 3 else 1) /\
  Forall (fun x => x = 10 \/ (3 <= x < 10 /\ (10 - x) mod 3 = 0)) (corrected 10 3).
Proof. apply (corrected_backfill [] 10 3); [constructor|split; vm_compute; congruence..]. Defined.

(** C19: the bucket of a value is in range, grows with the value, and is
    precise: the two ends of a bucket are within 1/64 of each other. *)
Theorem index_monotone_precise h v w :
  geometry h -> is_u64 v -> is_u64 w -> v <= w ->
  0 <= index h v <= index h w /\ index h w < 8192 /\
  (index h v = index h w -> 64 * (w - v) <= v).
Proof.
  intros Hg Hv Hw Hvw. rewrite !index_bucket by done. pose proof (bucket_range v Hv).
  pose proof (bucket_range w Hw). unfold is_u64 in *.
  pose proof (bucket_mono v w ltac:(lia) Hvw). split_and!; try lia.
  apply bucket_precision; lia.
Qed.

Lemma index_monotone_precise_witness :
  0 <= index New 1000 <= index New 1001 /\ index New 1001 < 8192 /\
  (index New 1000 = index New 1001 -> 64 * (1001 - 1000) <= 1000).
Proof. apply (index_monotone_precise New 1000 1001); [done|split; vm_compute; congruence..|lia]. Defined.

(** The reported value of a bucket is not a value of the bucket.  A
    sample below 128 ns is reported as itself, but a sample of 128 ns or more
    (below [2^63]) is reported as between 127/64 and 3 times the sample, so a
    percentile can exceed the recorded maximum. *)
Theorem reported_latency_inflated h v :
  geometry h -> 0 <= v < 2 ^ 63 ->
  (v < 128 -> valueAt h (index h v) = v) /\
  (128 <= v -> 127 * v < 64 * valueAt h (index h v) /\ valueAt h (index h v) <= 3 * v) /\
  (exists g, record_all New [128] = Ok g /\
     Max g = 128 /\ forall oob, Percentile oob g f64_50 = 384).
Proof.
  intros Hg Hv. rewrite index_bucket by (done || (unfold is_u64; lia)). split_and!.
  - intros. apply valueAt_small; [done|lia].
  - intros. apply valueAt_bounds; [done|lia].
  - exists (hist_of [128]). split_and!.
    + rewrite New_hist. apply (record_all_hist []). repeat constructor; vm_compute; congruence.
    + reflexivity.
    + intros oob. rewrite (Percentile_hist oob [128] f64_50 128); try reflexivity.
      repeat constructor; vm_compute; congruence.
Qed.

Lemma reported_latency_inflated_witness :
  (1000 < 128 -> valueAt New (index New 1000) = 1000) /\
  (128 <= 1000 -> 127 * 1000 < 64 * valueAt New (index New 1000) /\ valueAt New (index New 1000) <= 3 * 1000) /\
  (exists g, record_all New [128] = Ok g /\
     Max g = 128 /\ forall oob, Percentile oob g f64_50 = 384).
Proof. apply (reported_latency_inflated New 1000); [done|lia]. Defined.
