(* ===== verification/Workload.v ===== *)
(** * The operation generator (workload/workload.go)

    A generator is a state passed from call to call; the zipf sampler draws
    from the generator's own random source, so the two share one state.
    [math.Pow] is a parameter of the model, as is what a platform makes of a
    float that does not fit a [uint64]. *)

From Stdlib Require Import SpecFloat Znumtheory.
From S2P Require Import Prelude Float64 Codec.
Local Open Scope go_scope.

Inductive OpKind := OpRead | OpUpdate | OpInsert | OpScan | OpRMW | OpDelete.

#[global] Instance OpKind_eq_dec : EqDecision OpKind.
Proof. solve_decision. Defined.

Record Op := MkOp { Kind : OpKind; Key : bytes; Value : bytes; ScanLen : Z }.

Inductive Dist := DistUniform | DistZipfian | DistLatest.

Record Spec := MkSpec {
  Name : string;
  ReadPct : Z;
  UpdatePct : Z;
  InsertPct : Z;
  ScanPct : Z;
  RMWPct : Z;
  DeletePct : Z;
  SpecDist : Dist;
  NeedsScan : bool;
  WriteOnly : bool;
  Sequential : bool }.

(** The catalogue; Go's zero value of [Dist] is [DistUniform]. *)
Definition Catalog : list (string * Spec) :=
  [("ycsb-a", MkSpec "ycsb-a" 50 50 0 0 0 0 DistZipfian false false false);
   ("ycsb-b", MkSpec "ycsb-b" 95 5 0 0 0 0 DistZipfian false false false);
   ("ycsb-c", MkSpec "ycsb-c" 100 0 0 0 0 0 DistZipfian false false false);
   ("ycsb-d", MkSpec "ycsb-d" 95 0 5 0 0 0 DistLatest false false false);
   ("ycsb-e", MkSpec "ycsb-e" 0 0 5 95 0 0 DistZipfian true false false);
   ("ycsb-f", MkSpec "ycsb-f" 50 0 0 0 50 0 DistZipfian false false false);
   ("fillseq", MkSpec "fillseq" 0 0 100 0 0 0 DistUniform false true true);
   ("fillrandom", MkSpec "fillrandom" 0 0 100 0 0 0 DistUniform false true false);
   ("overwrite", MkSpec "overwrite" 0 100 0 0 0 0 DistUniform false true false);
   ("readrandom", MkSpec "readrandom" 100 0 0 0 0 0 DistUniform false false false);
   ("readseq", MkSpec "readseq" 0 0 0 100 0 0 DistUniform true false false);
   ("deleterandom", MkSpec "deleterandom" 0 0 0 0 0 100 DistUniform false true false)]%string.

(** ** splitmix64 *)

Definition golden : Z := 0x9E3779B97F4A7C15.

Definition mix1 : Z := 0xBF58476D1CE4E5B9.
Definition mix2 : Z := 0x94D049BB133111EB.

(** The output function of the state, and the step. *)
Definition scramble (z : Z) : Z :=
  let z := (z ^64 (z >>64 30)) *64 mix1 in
  let z := (z ^64 (z >>64 27)) *64 mix2 in
  z ^64 (z >>64 31).

Definition rng_next (s : Z) : Z * Z :=
  let s := s +64 golden in (scramble s, s).

Definition rng_float64 (s : Z) : float64 * Z :=
  let (x, s) := rng_next s in
  (fdiv (f64_of_Z (x >>64 11)) (f64_of_Z (1 <<64 53)), s).

(** ** Keys *)

Definition key_pad : bytes := replicate 8 (z2b 48).

Definition EncodeKey (idx : Z) : bytes := be_bytes 8 idx ++ key_pad.

(** ** The zipf sampler *)

Record zipf := MkZipf {
  zn : Z; theta : float64; alpha : float64; zeta2 : float64; zetan : float64; eta : float64 }.

Definition f64_one : float64 := f64_of_Z 1.
Definition f64_two : float64 := f64_of_Z 2.
Definition f64_half : float64 := S754_finite false 4503599627370496 (-53).
Definition f64_0_99 : float64 := S754_finite false 8917127262193582 (-53).

Record Generator := MkGenerator {
  gspec : Spec;
  grng : Z;
  gzipf : option zipf;
  keyspace : Z;
  valBytes : Z;
  keyBytes : Z;
  valTmpl : bytes;
  insertHead : Z;
  seqCursor : Z }.

Definition with_rng (g : Generator) (s : Z) : Generator :=
  MkGenerator (gspec g) s (gzipf g) (keyspace g) (valBytes g) (keyBytes g) (valTmpl g)
    (insertHead g) (seqCursor g).

Definition with_cursor (g : Generator) (c : Z) : Generator :=
  MkGenerator (gspec g) (grng g) (gzipf g) (keyspace g) (valBytes g) (keyBytes g) (valTmpl g)
    (insertHead g) c.

(** [x % n] on [uint64]. *)
Definition umod (x n : Z) : outcome Z := if n =? 0 then Panic else Ok (x mod n).

Definition draw (g : Generator) : Z * Generator :=
  let (x, s) := rng_next (grng g) in (x, with_rng g s).

Definition tmpl_byte (i : nat) : Byte.byte := z2b (97 + Z.of_nat i mod 26).

Section Generation.
Context (pow : float64 -> float64 -> float64) (oob : float64 -> Z).

(** [for i := uint64(1); i <= limit; i++ { sum += 1.0 / math.Pow(float64(i), theta) }]. *)
Fixpoint zeta_loop (n : nat) (i : Z) (th sum : float64) : float64 :=
  match n with
  | O => sum
  | S n' => zeta_loop n' (i + 1) th (fadd sum (fdiv f64_one (pow (f64_of_Z i) th)))
  end.

Definition zetaStatic (n : Z) (th : float64) : float64 :=
  let limit := if n >? 5000000 then 5000000 else n in
  zeta_loop (Z.to_nat limit) 1 th f64_zero.

Definition newZipf (n : Z) (th : float64) : zipf :=
  let z2 := zetaStatic 2 th in
  let zn := zetaStatic n th in
  MkZipf n th (fdiv f64_one (fsub f64_one th)) z2 zn
    (fdiv (fsub f64_one (pow (fdiv f64_two (f64_of_Z n)) (fsub f64_one th)))
          (fsub f64_one (fdiv z2 zn))).

Definition zipf_next (z : zipf) (s : Z) : outcome (Z * Z) :=
  let (u, s) := rng_float64 s in
  let uz := fmul u (zetan z) in
  if flt uz f64_one then Ok (0, s)
  else if flt uz (fadd f64_one (pow f64_half (theta z))) then Ok (1, s)
  else
    let x := fmul (f64_of_Z (zn z))
               (pow (fadd (fsub (fmul (eta z) u) (eta z)) f64_one) (alpha z)) in
    let idx := wrap64 (default (oob x) (u64_of_f64 x)) in
    let idx := if idx >=? zn z then zn z -64 1 else idx in
    let* r := umod ((idx *64 2654435761) +64 0x5bd1e995) (zn z) in
    Ok (r, s).

(** [make] panics on a negative length. *)
Definition NewGenerator (spec : Spec) (seed clientID ks vb : Z) : outcome Generator :=
  if vb <? 0 then Panic
  else
    let rng := seed ^64 (wrap64 (clientID + 1) *64 golden) in
    let z := match SpecDist spec with DistZipfian => Some (newZipf ks f64_0_99) | _ => None end in
    Ok (MkGenerator spec rng z ks vb 16 (tmpl_byte <$> seq 0 (Z.to_nat vb)) ks (wrap64 clientID)).

Definition selectKey (g : Generator) : outcome (bytes * Generator) :=
  match SpecDist (gspec g) with
  | DistZipfian =>
      match gzipf g with
      | Some z => let* (idx, s) := zipf_next z (grng g) in Ok (EncodeKey idx, with_rng g s)
      | None => Panic
      end
  | DistLatest =>
      let span := if insertHead g =? 0 then 1 else insertHead g in
      let (x, g) := draw g in
      let* z := umod x span in
      Ok (EncodeKey ((span -64 1) -64 ((z *64 z) / span)), g)
  | DistUniform =>
      let (x, g) := draw g in
      let* idx := umod x (keyspace g) in
      Ok (EncodeKey idx, g)
  end.

Definition nextInsertKey (g : Generator) : outcome (bytes * Generator) :=
  if Sequential (gspec g)
  then Ok (EncodeKey (seqCursor g), with_cursor g (seqCursor g +64 1))
  else let (x, g) := draw g in
       let* idx := umod x (keyspace g) in
       Ok (EncodeKey idx, g).

(** [copy(v, d)]: as much of [d] as fits. *)
Definition copy_to (v d : bytes) : bytes := take (length v) d ++ drop (length d) v.

Definition makeValue (g : Generator) (key : bytes) : outcome (bytes * Generator) :=
  if valBytes g <? 0 then Panic
  else
    let v := copy_to (replicate (Z.to_nat (valBytes g)) Byte.x00) (valTmpl g) in
    let (v, g) := (if len v >=? 8
      then let (x, g) := draw g in (copy_to v (le_bytes 8 x), g)
      else (v, g)) in
    let v := if len v >=? 16
      then take 8 v ++ copy_to (take 8 (drop 8 v)) key ++ drop 16 v
      else v in
    Ok (v, g).

(** The cascade on the draw [r]. *)
Definition pick_at (s : Spec) (r : Z) : OpKind :=
  let c := ReadPct s in
  if r <? c then OpRead else
  let c := c + UpdatePct s in
  if r <? c then OpUpdate else
  let c := c + InsertPct s in
  if r <? c then OpInsert else
  let c := c + ScanPct s in
  if r <? c then OpScan else
  let c := c + RMWPct s in
  if r <? c then OpRMW else
  let c := c + DeletePct s in
  if r <? c then OpDelete else OpRead.

Definition pick_draw (g : Generator) : OpKind * Generator :=
  let (x, g) := draw g in (pick_at (gspec g) (x mod 100), g).

Definition pick (g : Generator) : OpKind * Generator :=
  if WriteOnly (gspec g)
  then
    if InsertPct (gspec g) =? 100 then (OpInsert, g)
    else if UpdatePct (gspec g) =? 100 then (OpUpdate, g)
    else if DeletePct (gspec g) =? 100 then (OpDelete, g)
    else pick_draw g
  else pick_draw g.

Definition Next (g : Generator) : outcome (Op * Generator) :=
  let (kind, g) := pick g in
  match kind with
  | OpScan =>
      let* (k, g) := selectKey g in
      let (x, g) := draw g in
      Ok (MkOp OpScan k [] (1 + x mod 100), g)
  | OpInsert =>
      let* (k, g) := nextInsertKey g in
      let* (v, g) := makeValue g k in
      Ok (MkOp OpInsert k v 0, g)
  | OpUpdate =>
      let* (k, g) := selectKey g in
      let* (v, g) := makeValue g k in
      Ok (MkOp OpUpdate k v 0, g)
  | OpRMW =>
      let* (k, g) := selectKey g in
      let* (v, g) := makeValue g k in
      Ok (MkOp OpRMW k v 0, g)
  | OpDelete =>
      let* (k, g) := selectKey g in Ok (MkOp OpDelete k [] 0, g)
  | OpRead =>
      let* (k, g) := selectKey g in Ok (MkOp OpRead k [] 0, g)
  end.

(** The first [n] operations of the stream. *)
Fixpoint stream (n : nat) (g : Generator) : outcome (list Op * Generator) :=
  match n with
  | O => Ok ([], g)
  | S n' =>
      let* (op, g) := Next g in
      let* (ops, g) := stream n' g in
      Ok (op :: ops, g)
  end.
End Generation.

(** ** The random source visits every value once per period *)

Lemma xorshift_inj k x y :
  0 < k -> 0 <= x -> 0 <= y ->
  Z.lxor x (Z.shiftr x k) = Z.lxor y (Z.shiftr y k) -> x = y.
Proof.
  intros Hk Hx Hy H. apply Z.lxor_eq. set (d := Z.lxor x y).
  assert (0 <= d) by (apply Z.lxor_nonneg; lia).
  assert (Z.lxor d (Z.shiftr d k) = 0) as Hd.
  { unfold d. rewrite Z.shiftr_lxor, Z.lxor_assoc, (Z.lxor_comm y), <- !Z.lxor_assoc.
    rewrite H, Z.lxor_assoc, (Z.lxor_comm _ y), <- Z.lxor_assoc.
    rewrite (Z.lxor_comm (Z.lxor y _) y), <- Z.lxor_assoc, Z.lxor_nilpotent, Z.lxor_0_l.
    apply Z.lxor_nilpotent. }
  apply Z.lxor_eq in Hd. rewrite Z.shiftr_div_pow2 in Hd by lia.
  destruct (Z.eq_dec d 0) as [|Hn]; [done|]. exfalso.
  assert (2 ^ 1 <= 2 ^ k) by (apply Z.pow_le_mono_r; lia).
  assert (d / 2 ^ k < d); [|lia]. apply Z.div_lt; lia.
Qed.

(** Multiplication by a number with an inverse modulo [2^64]. *)
Lemma mul_inj m inv a b :
  wrap64 (m * inv) = 1 -> is_u64 a -> is_u64 b -> wrap64 (a * m) = wrap64 (b * m) -> a = b.
Proof.
  intros Hm Ha Hb H.
  assert (forall x, is_u64 x -> wrap64 (wrap64 (x * m) * inv) = x) as Hinv.
  { intros x Hx. unfold wrap64 in *. rewrite Z.mul_mod_idemp_l, <- Z.mul_assoc by lia.
    rewrite <- Z.mul_mod_idemp_r, Hm, Z.mul_1_r by lia. by apply wrap64_id. }
  by rewrite <- (Hinv a Ha), H, Hinv.
Qed.

Lemma xorshift_u64 k x : 0 <= k -> is_u64 x -> is_u64 (Z.lxor x (Z.shiftr x k)).
Proof.
  intros Hk Hx. apply lxor_range; [lia|done|]. rewrite Z.shiftr_div_pow2 by done.
  pose proof (pow2_pos k Hk). unfold is_u64 in Hx. split; [apply Z.div_pos; lia|].
  apply Z.div_lt_upper_bound; [lia|]. nia.
Qed.

Lemma scramble_u64 z : is_u64 z -> is_u64 (scramble z).
Proof. intros. unfold scramble. apply xorshift_u64; [lia|]. apply wrap64_range. Qed.

Lemma scramble_inj x y : is_u64 x -> is_u64 y -> scramble x = scramble y -> x = y.
Proof.
  intros Hx Hy H. unfold scramble in H.
  apply xorshift_inj in H; [|lia|apply wrap64_range..].
  apply (mul_inj mix2 0x319642b2d24d8ec3) in H;
    [|done|apply xorshift_u64; [lia|apply wrap64_range]..].
  apply xorshift_inj in H; [|lia|apply wrap64_range..].
  apply (mul_inj mix1 0x96de1b173f119089) in H; [|done|by apply xorshift_u64..].
  unfold is_u64 in *. apply xorshift_inj in H; lia.
Qed.

(** The state after [n] draws. *)
Fixpoint rng_skip (n : nat) (s : Z) : Z :=
  match n with O => s | S n' => (rng_next (rng_skip n' s)).2 end.

Lemma rng_skip_eq n s : is_u64 s -> rng_skip n s = wrap64 (s + Z.of_nat n * golden).
Proof.
  intros Hs. induction n as [|n IH]; cbn [rng_skip rng_next snd].
  - by rewrite Z.mul_0_l, Z.add_0_r, wrap64_id.
  - rewrite IH. unfold wrap64. rewrite Z.add_mod_idemp_l by lia. f_equal. lia.
Qed.

Lemma rng_outputs_distinct s i j :
  is_u64 s -> Z.of_nat i < 2 ^ 64 -> Z.of_nat j < 2 ^ 64 ->
  (rng_next (rng_skip i s)).1 = (rng_next (rng_skip j s)).1 -> i = j.
Proof.
  intros Hs Hi Hj H. cbn [rng_next fst] in H. apply scramble_inj in H; [|apply wrap64_range..].
  rewrite !rng_skip_eq in H by done.
  assert (Z.of_nat i = Z.of_nat j); [|lia].
  apply (mul_inj golden 0xf1de83e19937733d); [done|unfold is_u64; lia..|].
  unfold wrap64 in *. rewrite !Z.add_mod_idemp_l in H by lia.
  apply (f_equal (fun z => (z - (s + golden)) mod 2 ^ 64)) in H.
  rewrite !Zminus_mod_idemp_l in H.
  replace (s + Z.of_nat i * golden + golden - (s + golden)) with (Z.of_nat i * golden) in H by lia.
  replace (s + Z.of_nat j * golden + golden - (s + golden)) with (Z.of_nat j * golden) in H by lia.
  done.
Qed.

(** ** Keys *)

Lemma bytes_compare_app_same x y t :
  length x = length y -> bytes_compare (x ++ t) (y ++ t) = bytes_compare x y.
Proof.
  revert y. induction x as [|a x IH]; intros [|b y] Hl; simpl in Hl; try done.
  - by rewrite bytes_compare_refl.
  - cbn [app bytes_compare]. destruct (b2z a ?= b2z b); [|done..]. apply IH. lia.
Qed.

Lemma EncodeKey_compare a b :
  is_u64 a -> is_u64 b -> bytes_compare (EncodeKey a) (EncodeKey b) = (a ?= b).
Proof.
  intros Ha Hb. unfold EncodeKey.
  rewrite bytes_compare_app_same by (by rewrite !length_be_bytes).
  rewrite be_bytes_compare. change (8 * Z.of_nat 8) with 64.
  by rewrite !Z.mod_small.
Qed.

Lemma EncodeKey_inj a b : is_u64 a -> is_u64 b -> EncodeKey a = EncodeKey b -> a = b.
Proof.
  intros Ha Hb H. apply Z.compare_eq_iff. rewrite <- EncodeKey_compare by done.
  rewrite H. apply bytes_compare_refl.
Qed.

Lemma EncodeKey_len idx : len (EncodeKey idx) = 16.
Proof. unfold EncodeKey, len. by rewrite length_app, length_be_bytes. Qed.

(** ** Well-formed generators *)

(** What [NewGenerator] establishes and [Next] keeps, for a keyspace the
    sampler can serve. *)
Record gen_ok (g : Generator) : Prop := {
  go_keyspace : 1 <= keyspace g < 2 ^ 64;
  go_head : insertHead g = keyspace g;
  go_zipf : SpecDist (gspec g) = DistZipfian ->
    2 <= keyspace g /\ exists z, gzipf g = Some z /\ zn z = keyspace g;
  go_vals : 0 <= valBytes g;
  go_tmpl : valTmpl g = tmpl_byte <$> seq 0 (Z.to_nat (valBytes g)) }.

(** What a call of [Next] may change. *)
Definition advanced (g g' : Generator) : Prop := exists s c, g' = with_cursor (with_rng g s) c.

#[global] Instance advanced_preorder : PreOrder advanced.
Proof.
  split.
  - intros []. by eexists _, _.
  - intros g1 g2 g3 (s & c & ->) (s' & c' & ->). by eexists s', c'.
Qed.

Lemma advanced_rng g s : advanced g (with_rng g s).
Proof. by exists s, (seqCursor g). Qed.

Lemma advanced_ok g g' : advanced g g' -> gen_ok g -> gen_ok g'.
Proof. intros (s & c & ->) []. by split. Qed.

Lemma advanced_spec g g' : advanced g g' -> gspec g' = gspec g.
Proof. by intros (s & c & ->). Qed.

Lemma advanced_keyspace g g' : advanced g g' -> keyspace g' = keyspace g.
Proof. by intros (s & c & ->). Qed.

Lemma advanced_valBytes g g' : advanced g g' -> valBytes g' = valBytes g.
Proof. by intros (s & c & ->). Qed.

Lemma draw_advanced g x g' : draw g = (x, g') -> advanced g g'.
Proof. unfold draw. destruct (rng_next (grng g)) as [y s]. intros [= _ <-]. apply advanced_rng. Qed.

Lemma umod_ok x n : 0 < n -> exists r, umod x n = Ok r /\ 0 <= r < n.
Proof.
  intros Hn. unfold umod. case_zcmp; [lia|]. eexists. split; [done|]. apply Z.mod_pos_bound. lia.
Qed.

Section Generated.
Context (pow : float64 -> float64 -> float64) (oob : float64 -> Z).

(** The sampler stays below its [n], whatever [math.Pow] returns. *)
Lemma zipf_next_range z s :
  2 <= zn z -> exists idx s', zipf_next pow oob z s = Ok (idx, s') /\ 0 <= idx < zn z.
Proof.
  intros Hn. unfold zipf_next. destruct (rng_float64 s) as [u s'].
  destruct (flt _ f64_one); [exists 0, s'; split; [done|lia]|].
  destruct (flt _ _); [exists 1, s'; split; [done|lia]|].
  match goal with |- context [umod ?x (zn z)] => destruct (umod_ok x (zn z)) as (r & -> & Hr); [lia|] end.
  by exists r, s'.
Qed.

(** The [DistLatest] index stays below its span even when the square wraps. *)
Lemma latest_range span x :
  1 <= span < 2 ^ 64 -> 0 <= x < span ->
  0 <= wrap64 (wrap64 (span - 1) - wrap64 (x * x) / span) < span.
Proof.
  intros Hs Hx. rewrite (wrap64_id (span - 1)) by zlia.
  pose proof (wrap64_range (x * x)) as Hw. unfold is_u64 in Hw.
  assert (wrap64 (x * x) <= x * x) by (apply Z.mod_le; nia).
  assert (0 <= wrap64 (x * x) / span) by (apply Z.div_pos; lia).
  assert (wrap64 (x * x) / span < span) by (apply Z.div_lt_upper_bound; nia).
  rewrite wrap64_id by zlia. lia.
Qed.

Lemma selectKey_spec g :
  gen_ok g -> exists idx g', selectKey pow oob g = Ok (EncodeKey idx, g') /\
    0 <= idx < keyspace g /\ advanced g g'.
Proof.
  intros [Hk Hh Hz _ _]. unfold selectKey. destruct (SpecDist (gspec g)) eqn:Ed.
  - destruct (draw g) as [x g'] eqn:Edr. apply draw_advanced in Edr.
    rewrite (advanced_keyspace _ _ Edr). destruct (umod_ok x (keyspace g)) as (r & -> & Hr); [lia|].
    by exists r, g'.
  - destruct (Hz eq_refl) as (Hk2 & z & -> & Hzn).
    destruct (zipf_next_range z (grng g)) as (idx & s & -> & Hi); [lia|].
    exists idx, (with_rng g s). split_and!; [done|lia..|apply advanced_rng].
  - rewrite Hh. case_zcmp; [lia|]. destruct (draw g) as [x g'] eqn:Edr. apply draw_advanced in Edr.
    destruct (umod_ok x (keyspace g)) as (r & -> & Hr); [lia|]. cbn [obind].
    eexists _, g'. split; [done|]. split; [by apply latest_range|done].
Qed.

Lemma nextInsertKey_spec g :
  gen_ok g -> exists idx g', nextInsertKey g = Ok (EncodeKey idx, g') /\ advanced g g' /\
    (if Sequential (gspec g) then idx = seqCursor g /\ seqCursor g' = wrap64 (seqCursor g + 1)
     else 0 <= idx < keyspace g).
Proof.
  intros [Hk _ _ _ _]. unfold nextInsertKey. destruct (Sequential (gspec g)) eqn:Es.
  - eexists _, _. split; [done|]. split; [|done].
    exists (grng g), (wrap64 (seqCursor g + 1)). by destruct g.
  - destruct (draw g) as [x g'] eqn:Edr. apply draw_advanced in Edr.
    rewrite (advanced_keyspace _ _ Edr). destruct (umod_ok x (keyspace g)) as (r & -> & Hr); [lia|].
    by exists r, g'.
Qed.

Lemma copy_to_length v d : length (copy_to v d) = length v.
Proof. unfold copy_to. rewrite length_app, length_take, length_drop. lia. Qed.

(** A value of [valBytes] bytes: eight from the random source, eight from the
    key, the rest of the template. *)
Definition value_of (vb x : Z) (key : bytes) : bytes :=
  let tmpl := tmpl_byte <$> seq 0 (Z.to_nat vb) in
  if vb <? 8 then tmpl
  else if vb <? 16 then le_bytes 8 x ++ drop 8 tmpl
  else le_bytes 8 x ++ take 8 key ++ drop 16 tmpl.

Lemma copy_to_full v d : length d = length v -> copy_to v d = d.
Proof. intros E. unfold copy_to. rewrite drop_ge, app_nil_r by lia. rewrite <- E. apply take_ge. lia. Qed.

Lemma copy_to_head v d : (length d <= length v)%nat -> copy_to v d = d ++ drop (length d) v.
Proof. intros. unfold copy_to. by rewrite take_ge. Qed.

Lemma makeValue_spec g key :
  gen_ok g -> (8 <= length key)%nat ->
  exists x g', makeValue g key = Ok (value_of (valBytes g) x key, g') /\ advanced g g' /\
    seqCursor g' = seqCursor g.
Proof.
  intros [_ _ _ Hv Ht] Hkey. unfold makeValue, value_of. case_zcmp; [lia|]. rewrite Ht.
  set (tmpl := tmpl_byte <$> seq 0 (Z.to_nat (valBytes g))).
  assert (length tmpl = Z.to_nat (valBytes g)) as Hl by (unfold tmpl; by rewrite length_fmap, length_seq).
  rewrite copy_to_full by (by rewrite length_replicate). unfold len at 1. rewrite Hl, Z.geb_leb.
  destruct (Z.leb_spec 8 (Z.of_nat (Z.to_nat (valBytes g)))) as [H8|H8].
  - destruct (draw g) as [x g'] eqn:Edr. pose proof (draw_advanced _ _ _ Edr) as Hadv.
    assert (seqCursor g' = seqCursor g) as Hc.
    { unfold draw in Edr. destruct (rng_next (grng g)). by injection Edr as _ <-. }
    assert (copy_to tmpl (le_bytes 8 x) = le_bytes 8 x ++ drop 8 tmpl) as ->
      by (rewrite copy_to_head; rewrite length_le_bytes; [done|lia]).
    assert (len (le_bytes 8 x ++ drop 8 tmpl) = valBytes g) as Hlen
      by (unfold len; rewrite length_app, length_le_bytes, length_drop; lia).
    exists x, g'. destruct (Z.ltb_spec (valBytes g) 8); [lia|]. rewrite Hlen, Z.geb_leb.
    destruct (Z.leb_spec 16 (valBytes g)), (Z.ltb_spec (valBytes g) 16); try lia; split_and!; try done.
    do 2 f_equal. rewrite take_app_length' by (by rewrite length_le_bytes). f_equal.
    rewrite drop_app_length' by (by rewrite length_le_bytes).
    replace 16%nat with (8 + 8)%nat by done. rewrite <- drop_drop.
    rewrite drop_app_length' by (by rewrite length_le_bytes).
    rewrite drop_drop. f_equal. unfold copy_to.
    rewrite length_take, length_drop. replace (8 `min` (length tmpl - 8))%nat with 8%nat by lia.
    rewrite (drop_ge (take 8 _)), app_nil_r; [done|]. rewrite length_take. lia.
  - exists 0, g. cbv iota beta.
    destruct (Z.geb_spec (len tmpl) 16) as [Hg|]; [unfold len in Hg; lia|].
    destruct (Z.ltb_spec (valBytes g) 8); [|lia]. split_and!; done.
Qed.

Lemma value_of_len vb x key : 0 <= vb -> (8 <= length key)%nat -> len (value_of vb x key) = vb.
Proof.
  intros Hv Hk. unfold value_of, len. repeat case_zcmp;
    rewrite ?length_app, ?length_drop, ?length_le_bytes, ?length_take, ?length_fmap, ?length_seq; lia.
Qed.

(** An operation the generator may produce. *)
Record op_ok (s : Spec) (ks vb : Z) (op : Op) : Prop := {
  oo_key : exists idx, Key op = EncodeKey idx /\
    (0 <= idx < ks \/ (Sequential s = true /\ Kind op = OpInsert));
  oo_value : len (Value op) =
    match Kind op with OpInsert | OpUpdate | OpRMW => vb | _ => 0 end;
  oo_scan : match Kind op with OpScan => 1 <= ScanLen op <= 100 | _ => ScanLen op = 0 end }.

Lemma pick_advanced g k g' : pick g = (k, g') -> advanced g g'.
Proof.
  unfold pick, pick_draw. destruct (draw g) as [x g1] eqn:E. apply draw_advanced in E.
  repeat case_match; intros [= _ <-]; done.
Qed.

(** A key chosen by [selectKey] with a value made for it. *)
Lemma write_op_spec kd g g0 :
  gen_ok g -> kd = OpUpdate \/ kd = OpRMW -> keyspace g = keyspace g0 -> valBytes g = valBytes g0 ->
  exists op g',
    obind (selectKey pow oob g) (fun '(k, g) => obind (makeValue g k) (fun '(v, g) => Ok (MkOp kd k v 0, g)))
      = Ok (op, g') /\ advanced g g' /\ op_ok (gspec g0) (keyspace g0) (valBytes g0) op.
Proof.
  intros Hg Hkd Hk Hv. destruct (selectKey_spec g Hg) as (idx & g1 & -> & Hi & Ha1). cbn [obind].
  pose proof (advanced_ok _ _ Ha1 Hg) as Hg1. pose proof (EncodeKey_len idx) as Hlen. unfold len in Hlen.
  destruct (makeValue_spec g1 (EncodeKey idx) Hg1) as (x & g2 & -> & Ha2 & _); [lia|]. cbn [obind].
  eexists _, g2. split; [done|]. split; [by etrans|].
  rewrite (advanced_valBytes _ _ Ha1), Hv. pose proof (go_vals _ Hg). split; cbn [Key Value Kind ScanLen].
  - exists idx. split; [done|]. left. lia.
  - rewrite value_of_len by lia. by destruct Hkd as [-> | ->].
  - by destruct Hkd as [-> | ->].
Qed.

Lemma Next_spec g :
  gen_ok g -> exists op g', Next pow oob g = Ok (op, g') /\ advanced g g' /\
    op_ok (gspec g) (keyspace g) (valBytes g) op.
Proof.
  intros Hg0. unfold Next. destruct (pick g) as [kind g1] eqn:Ep. pose proof (pick_advanced _ _ _ Ep) as Ha.
  pose proof (advanced_ok _ _ Ha Hg0) as Hg. pose proof (advanced_keyspace _ _ Ha) as Hk.
  pose proof (advanced_valBytes _ _ Ha) as Hv. destruct (selectKey_spec g1 Hg) as (idx & g2 & Hsel & Hi & Ha2).
  destruct kind.
  - rewrite Hsel. cbn [obind]. eexists _, g2. split; [done|]. split; [by etrans|]. split; [|done..].
    exists idx. split; [done|]. left. lia.
  - destruct (write_op_spec OpUpdate g1 g Hg ltac:(by left) Hk Hv) as (op & g3 & -> & ? & ?).
    exists op, g3. split_and!; [done|by etrans|done].
  - clear idx g2 Hsel Hi Ha2. destruct (nextInsertKey_spec g1 Hg) as (idx & g2 & -> & Ha2 & Hi). cbn [obind].
    pose proof (EncodeKey_len idx) as Hlen. unfold len in Hlen.
    destruct (makeValue_spec g2 (EncodeKey idx) (advanced_ok _ _ Ha2 Hg)) as (x & g3 & -> & Ha3 & _); [lia|].
    cbn [obind]. eexists _, g3. split; [done|]. split; [by do 2 (etrans; [done|])|].
    rewrite (advanced_valBytes _ _ Ha2), Hv. pose proof (go_vals _ Hg0). split; cbn [Key Value Kind ScanLen].
    + exists idx. split; [done|]. rewrite (advanced_spec _ _ Ha) in Hi.
      destruct (Sequential (gspec g)); [by right|left; lia].
    + rewrite value_of_len by lia. done.
    + done.
  - rewrite Hsel. cbn [obind]. destruct (draw g2) as [x g3] eqn:Ed. pose proof (draw_advanced _ _ _ Ed).
    eexists _, g3. split; [done|]. split; [by do 2 (etrans; [done|])|]. split; cbn [Key Value Kind ScanLen].
    + exists idx. split; [done|]. left. lia.
    + done.
    + pose proof (Z.mod_pos_bound x 100). lia.
  - destruct (write_op_spec OpRMW g1 g Hg ltac:(by right) Hk Hv) as (op & g3 & -> & ? & ?).
    exists op, g3. split_and!; [done|by etrans|done].
  - rewrite Hsel. cbn [obind]. eexists _, g2. split; [done|]. split; [by etrans|]. split; [|done..].
    exists idx. split; [done|]. left. lia.
Qed.

Lemma stream_spec n g :
  gen_ok g -> exists ops g', stream pow oob n g = Ok (ops, g') /\ length ops = n /\ advanced g g' /\
    Forall (op_ok (gspec g) (keyspace g) (valBytes g)) ops.
Proof.
  revert g. induction n as [|n IH]; intros g Hg; [by exists [], g|].
  destruct (Next_spec g Hg) as (op & g1 & Hn & Ha & Hop). cbn [stream]. rewrite Hn. cbn [obind].
  destruct (IH g1 (advanced_ok _ _ Ha Hg)) as (ops & g2 & -> & Hl & Ha2 & Hops). cbn [obind].
  exists (op :: ops), g2. split_and!; [done|simpl; lia|by etrans|].
  rewrite (advanced_spec _ _ Ha), (advanced_keyspace _ _ Ha), (advanced_valBytes _ _ Ha) in Hops.
  by constructor.
Qed.

Lemma NewGenerator_ok spec seed cl ks vb :
  1 <= ks < 2 ^ 64 -> (SpecDist spec = DistZipfian -> 2 <= ks) -> 0 <= vb ->
  exists g, NewGenerator pow spec seed cl ks vb = Ok g /\ gen_ok g /\ gspec g = spec /\
    keyspace g = ks /\ valBytes g = vb /\ seqCursor g = wrap64 cl.
Proof.
  intros Hk Hz Hv. unfold NewGenerator. case_zcmp; [lia|]. eexists. split; [done|].
  split_and!; try done. split; simpl; try done.
  intros Hd. split; [auto|]. rewrite Hd. eauto.
Qed.
End Generated.

(** ** Sequential fills *)

(** The spec of fillseq and of the loader: inserts only, keys in order. *)
Definition sequential_fill (s : Spec) : Prop :=
  WriteOnly s = true /\ InsertPct s = 100 /\ Sequential s = true.

(** The insert of key number [idx]. *)
Definition fill_op (vb : Z) (idx : Z) (op : Op) : Prop :=
  Kind op = OpInsert /\ Key op = EncodeKey idx /\ len (Value op) = vb.

Section SequentialFill.
Context (pow : float64 -> float64 -> float64) (oob : float64 -> Z).

Lemma Next_sequential g :
  gen_ok g -> sequential_fill (gspec g) ->
  exists op g', Next pow oob g = Ok (op, g') /\ advanced g g' /\
    fill_op (valBytes g) (seqCursor g) op /\ seqCursor g' = wrap64 (seqCursor g + 1).
Proof.
  intros Hg (Hw & Hi & Hs). unfold Next, pick. rewrite Hw, Hi, Z.eqb_refl.
  destruct (nextInsertKey_spec g Hg) as (idx & g1 & -> & Ha & Hidx). rewrite Hs in Hidx.
  destruct Hidx as [-> Hc]. cbn [obind]. pose proof (EncodeKey_len (seqCursor g)) as Hlen. unfold len in Hlen.
  destruct (makeValue_spec g1 (EncodeKey (seqCursor g)) (advanced_ok _ _ Ha Hg)) as (x & g2 & -> & Ha2 & Hc2);
    [lia|]. cbn [obind]. pose proof (go_vals _ Hg). eexists _, g2. split; [done|]. split; [by etrans|].
  split; [|congruence]. split_and!; [done..|]. cbn [Value].
  rewrite value_of_len, (advanced_valBytes _ _ Ha); [done|rewrite (advanced_valBytes _ _ Ha); lia|lia].
Qed.

Lemma stream_sequential n : forall g,
  gen_ok g -> sequential_fill (gspec g) -> 0 <= seqCursor g -> seqCursor g + Z.of_nat n <= 2 ^ 64 ->
  exists ops g', stream pow oob n g = Ok (ops, g') /\
    Forall2 (fill_op (valBytes g)) ((fun i => seqCursor g + Z.of_nat i) <$> seq 0 n) ops.
Proof.
  induction n as [|n IH]; intros g Hg Hs H0 Hn; [exists [], g; by split|].
  destruct (Next_sequential g Hg Hs) as (op & g1 & Hnx & Ha & Hop & Hc). cbn [stream]. rewrite Hnx. cbn [obind].
  destruct (decide (n = 0%nat)) as [->|Hn0].
  { cbn [stream obind]. eexists _, _. split; [done|]. simpl. constructor; [by rewrite Z.add_0_r|constructor]. }
  rewrite wrap64_id in Hc by zlia.
  destruct (IH g1) as (ops & g2 & -> & Hops).
  { by eapply advanced_ok. } { by rewrite (advanced_spec _ _ Ha). } { lia. } { lia. }
  cbn [obind]. eexists _, _. split; [done|]. rewrite (advanced_valBytes _ _ Ha) in Hops.
  rewrite <- cons_seq, fmap_cons, <- fmap_S_seq, <- list_fmap_compose. constructor; [by rewrite Z.add_0_r|].
  erewrite list_fmap_ext; [exact Hops|]. intros i x _. simpl. lia.
Qed.
End SequentialFill.

(** ** The operation mix *)

Definition pct (s : Spec) (k : OpKind) : Z :=
  match k with
  | OpRead => ReadPct s | OpUpdate => UpdatePct s | OpInsert => InsertPct s
  | OpScan => ScanPct s | OpRMW => RMWPct s | OpDelete => DeletePct s
  end.

(** Percentages that are non-negative and sum to 100. *)
Definition mix_ok (s : Spec) : Prop :=
  0 <= ReadPct s /\ 0 <= UpdatePct s /\ 0 <= InsertPct s /\ 0 <= ScanPct s /\ 0 <= RMWPct s /\
  0 <= DeletePct s /\
  ReadPct s + UpdatePct s + InsertPct s + ScanPct s + RMWPct s + DeletePct s = 100.

#[global] Instance mix_ok_dec s : Decision (mix_ok s).
Proof. unfold mix_ok. apply _. Defined.

Lemma count_range a b n :
  0 <= a <= b -> b <= Z.of_nat n ->
  Z.of_nat (length (filter (fun r => a <= Z.of_nat r < b) (seq 0 n))) = b - a.
Proof.
  revert b. induction n as [|n IH]; intros b Ha Hb; [simpl; lia|].
  rewrite seq_S, filter_app, length_app. simpl. rewrite filter_cons, filter_nil.
  destruct (decide (b = Z.of_nat (S n))) as [->|Hne].
  - destruct (decide (a = Z.of_nat (S n))) as [->|Hna].
    + rewrite decide_False by lia. rewrite filter_none; [simpl; lia|].
      apply Forall_forall. intros r [_ ?]%elem_of_seq. lia.
    + rewrite decide_True by lia.
      rewrite (list_filter_iff' _ (fun r => a <= Z.of_nat r < Z.of_nat n)).
      * specialize (IH (Z.of_nat n)). simpl. lia.
      * intros r [_ ?]%elem_of_seq. lia.
  - rewrite decide_False by lia. specialize (IH b). simpl. lia.
Qed.

(** Where each kind sits on the scale of the draw. *)
Definition pct_before (s : Spec) (k : OpKind) : Z :=
  match k with
  | OpRead => 0
  | OpUpdate => ReadPct s
  | OpInsert => ReadPct s + UpdatePct s
  | OpScan => ReadPct s + UpdatePct s + InsertPct s
  | OpRMW => ReadPct s + UpdatePct s + InsertPct s + ScanPct s
  | OpDelete => ReadPct s + UpdatePct s + InsertPct s + ScanPct s + RMWPct s
  end.

Lemma pick_at_interval s k r :
  mix_ok s -> 0 <= r < 100 -> pick_at s r = k <-> pct_before s k <= r < pct_before s k + pct s k.
Proof.
  intros Hm Hr. unfold mix_ok in Hm. unfold pick_at. destruct k; simpl;
    repeat case_zcmp; split; intros; try done; lia.
Qed.

(** ** Claims *)

(** The random source has full period: from any state, draws number [i]
    and [j] with [i <> j] below [2^64] give different outputs, so every 64-bit
    value comes up exactly once per period. *)
Theorem rng_full_period s i j :
  is_u64 s -> Z.of_nat i < 2 ^ 64 -> Z.of_nat j < 2 ^ 64 -> i <> j ->
  (rng_next (rng_skip i s)).1 <> (rng_next (rng_skip j s)).1.
Proof. intros Hs Hi Hj Hne H. by apply Hne, (rng_outputs_distinct s). Qed.

Lemma rng_full_period_witness : (rng_next (rng_skip 0 1)).1 <> (rng_next (rng_skip 1 1)).1.
Proof. apply (rng_full_period 1 0 1); [split; vm_compute; congruence|lia|lia|discriminate]. Defined.

(** C20: encoded keys are 16 bytes long, compare as the indices they encode,
    and decode to them: the first eight bytes are the index, big endian. *)
Theorem encode_key_order a b :
  is_u64 a -> is_u64 b ->
  len (EncodeKey a) = 16 /\ bytes_compare (EncodeKey a) (EncodeKey b) = (a ?= b) /\
  (EncodeKey a = EncodeKey b -> a = b) /\ be_value (take 8 (EncodeKey a)) = a.
Proof.
  intros Ha Hb. split_and!; [apply EncodeKey_len|by apply EncodeKey_compare|by apply EncodeKey_inj|].
  unfold EncodeKey. rewrite take_app_length' by (by rewrite length_be_bytes). rewrite be_roundtrip.
  change (8 * Z.of_nat 8) with 64. by rewrite Z.mod_small.
Qed.

Lemma encode_key_order_witness :
  len (EncodeKey 255) = 16 /\ bytes_compare (EncodeKey 255) (EncodeKey 256) = (255 ?= 256) /\
  (EncodeKey 255 = EncodeKey 256 -> 255 = 256) /\ be_value (take 8 (EncodeKey 255)) = 255.
Proof. apply (encode_key_order 255 256); split; vm_compute; congruence. Defined.



(** The operation mix is exact: of the hundred values of the draw, as
    many pick a kind as the spec's percentage says, for percentages that are
    not negative and sum to 100. *)
Theorem pick_exact_mix s k :
  mix_ok s ->
  Z.of_nat (length (filter (fun r => pick_at s (Z.of_nat r) = k) (seq 0 100))) = pct s k.
Proof.
  intros Hm. rewrite (list_filter_iff' _ (fun r => pct_before s k <= Z.of_nat r < pct_before s k + pct s k)).
  - rewrite count_range; [lia| |]; unfold mix_ok in Hm; destruct k; simpl; lia.
  - intros r [_ Hr]%elem_of_seq. apply pick_at_interval; [done|lia].
Qed.

Lemma pick_exact_mix_witness :
  Z.of_nat (length (filter (fun r =>
    pick_at (MkSpec "ycsb-b" 95 5 0 0 0 0 DistZipfian false false false) (Z.of_nat r) = OpUpdate) (seq 0 100)))
  = pct (MkSpec "ycsb-b" 95 5 0 0 0 0 DistZipfian false false false) OpUpdate.
Proof. apply pick_exact_mix. unfold mix_ok. simpl. lia. Defined.

(** Every workload of the catalogue is well formed: it is filed under its
    own name, names are distinct, percentages sum to 100, it needs an ordered
    engine exactly when it scans, and a write-only one has a single kind. *)
Theorem catalog_well_formed :
  NoDup Catalog.*1 /\
  Forall (fun '(n, s) => Name s = n /\ mix_ok s /\ (NeedsScan s = true <-> 0 < ScanPct s) /\
    (WriteOnly s = true -> InsertPct s = 100 \/ UpdatePct s = 100 \/ DeletePct s = 100)) Catalog.
Proof.
  split; [apply (bool_decide_unpack _); by vm_compute|].
  unfold Catalog, mix_ok. rewrite !Forall_cons. cbn.
  split_and!; try done; try lia; intros; (done || lia || (split; (done || lia))).
Qed.

(** Sequential clients overlap.  A sequential client starts at its own id
    and counts up by one, so its operation [i + 1] has the key of operation [i]
    of the next client: the clients of a fillseq run do not partition the
    keyspace, they write the same keys. *)
Theorem fillseq_clients_overlap pow oob spec seed cl ks vb n :
  sequential_fill spec -> 1 <= ks < 2 ^ 64 -> (SpecDist spec = DistZipfian -> 2 <= ks) -> 0 <= vb ->
  0 <= cl -> cl + 1 + Z.of_nat (S n) <= 2 ^ 64 ->
  exists g1 g2 ops1 ops2 g1' g2',
    NewGenerator pow spec seed cl ks vb = Ok g1 /\ NewGenerator pow spec seed (cl + 1) ks vb = Ok g2 /\
    stream pow oob (S n) g1 = Ok (ops1, g1') /\ stream pow oob n g2 = Ok (ops2, g2') /\
    tail (Key <$> ops1) = Key <$> ops2.
Proof.
  intros Hsf Hk Hz Hv Hcl Hn.
  destruct (NewGenerator_ok pow spec seed cl ks vb Hk Hz Hv) as (g1 & H1 & Hg1 & Hs1 & _ & _ & Hc1).
  destruct (NewGenerator_ok pow spec seed (cl + 1) ks vb Hk Hz Hv) as (g2 & H2 & Hg2 & Hs2 & _ & _ & Hc2).
  rewrite wrap64_id in Hc1, Hc2 by zlia.
  destruct (stream_sequential pow oob (S n) g1 Hg1) as (ops1 & g1' & Hst1 & Hf1); [by rewrite Hs1|lia|lia|].
  destruct (stream_sequential pow oob n g2 Hg2) as (ops2 & g2' & Hst2 & Hf2); [by rewrite Hs2|lia|lia|].
  assert (forall vb ids ops, Forall2 (fill_op vb) ids ops -> Key <$> ops = EncodeKey <$> ids) as Hkeys.
  { intros vb' ids ops HF. induction HF as [|i op ids ops (_ & Hi & _) _ IH]; [done|].
    rewrite !fmap_cons, IH. by rewrite Hi. }
  exists g1, g2, ops1, ops2, g1', g2'. split_and!; [done..|].
  rewrite (Hkeys _ _ _ Hf1), (Hkeys _ _ _ Hf2), Hc1, Hc2. rewrite <- cons_seq, !fmap_cons. cbn [tail].
  rewrite <- fmap_S_seq, <- !list_fmap_compose. apply list_fmap_ext. intros i x _. simpl. f_equal. lia.
Qed.

Lemma fillseq_clients_overlap_witness :
  exists g1 g2 ops1 ops2 g1' g2',
    NewGenerator (fun x _ => x) (MkSpec "fillseq" 0 0 100 0 0 0 DistUniform false true true) 1 0 100 8 = Ok g1 /\
    NewGenerator (fun x _ => x) (MkSpec "fillseq" 0 0 100 0 0 0 DistUniform false true true) 1 1 100 8 = Ok g2 /\
    stream (fun x _ => x) (fun _ => 0) 3 g1 = Ok (ops1, g1') /\ stream (fun x _ => x) (fun _ => 0) 2 g2 = Ok (ops2, g2') /\
    tail (Key <$> ops1) = Key <$> ops2.
Proof.
  apply (fillseq_clients_overlap (fun x _ => x) (fun _ => 0) (MkSpec "fillseq" 0 0 100 0 0 0 DistUniform false true true) 1 0 100 8 2);
    [done|lia|discriminate|lia|lia|simpl; lia].
Defined.

(** Inserts do not extend the keyspace.  No operation moves the head the
    latest distribution is skewed towards, so its draws stay below the loaded
    keyspace and the keys inserted during a run are never favoured. *)
Theorem insert_head_fixed pow oob n g ops g' :
  gen_ok g -> stream pow oob n g = Ok (ops, g') ->
  insertHead g' = insertHead g /\ insertHead g' = keyspace g' /\ keyspace g' = keyspace g.
Proof.
  intros Hg Hst. destruct (stream_spec pow oob n g Hg) as (ops' & g1 & Hst' & _ & Ha & _).
  rewrite Hst in Hst'. injection Hst' as <- <-. pose proof (go_head _ (advanced_ok _ _ Ha Hg)) as Hh.
  destruct Ha as (s & c & ->). by split_and!.
Qed.

Definition demo_gen : Generator :=
  MkGenerator (MkSpec "ycsb-d" 50 0 50 0 0 0 DistLatest false false false) 1 None 5 0 16 [] 5 0.

Lemma insert_head_fixed_witness :
  exists ops g', stream (fun x _ => x) (fun _ => 0) 4 demo_gen = Ok (ops, g') /\ len ops = 4 /\
    insertHead g' = insertHead demo_gen /\ insertHead g' = keyspace g' /\ keyspace g' = keyspace demo_gen.
Proof.
  eexists _, _. split; [vm_compute; reflexivity|]. split; [reflexivity|].
  eapply (insert_head_fixed (fun x _ => x) (fun _ => 0) 4 demo_gen); [|vm_compute; reflexivity].
  split; simpl; done || lia.
Defined.
