(* ===== verification/Kv.v ===== *)
(** * The kv adapter (adapters/kv/kv.go)

    [Open] sizes the store from the cell: its key index from the number of
    keys, its hot tier from the size of a value.  The writes of the store
    return nothing, so neither do those of the adapter, and a write of a key
    the index has no room for is dropped.  The store is a parameter; its laws
    say what a write does while the distinct keys written fit the index, and
    nothing about the writes past it. *)

From S2P Require Import Prelude Float64 Codec Engine Ordered Adapter Workload.
Local Open Scope go_scope.

Record Options := MkOptions {
  KeyCapacity : Z;
  HotBytes : Z;
  HotKeys : Z;
  ResidentBytes : Z;
  ReadCacheCells : Z;
  SyncWrites : bool }.

(** ** The store *)

(** [kv_get]: the value, whether the key was there, and an error. *)
Class KvDB (DB : Type) := {
  kv_get : DB -> bytes -> bytes * bool * option serr;
  kv_set : DB -> bytes -> bytes -> DB;
  kv_del : DB -> bytes -> DB;
  kv_sync : DB -> DB * option serr }.

(** [kv_holds db m ks]: the store holds [m], and [ks] are the keys it was given
    so far.  [kv_cap]: the keys its index has room for.  [kv_syncs]: opened to
    fsync before a write returns.  [kv_durable]: what a crash would leave. *)
Class KvLaws (DB : Type) `{KvDB DB} := {
  kv_holds : DB -> gmap bytes bytes -> gset bytes -> Prop;
  kv_durable : DB -> gmap bytes bytes -> Prop;
  kv_cap : DB -> Z;
  kv_syncs : DB -> bool;
  kv_get_law db m ks k : kv_holds db m ks ->
    match kv_get db k with
    | (v, ok, None) => m !! k = if ok : bool then Some v else None
    | (_, _, Some _) => True
    end;
  kv_set_law db m ks k v : kv_holds db m ks -> Z.of_nat (size (ks ∪ {[k]})) <= kv_cap db ->
    kv_holds (kv_set db k v) (<[k := v]> m) (ks ∪ {[k]}) /\
    (kv_syncs db = true -> kv_durable (kv_set db k v) (<[k := v]> m));
  kv_del_law db m ks k : kv_holds db m ks -> Z.of_nat (size (ks ∪ {[k]})) <= kv_cap db ->
    kv_holds (kv_del db k) (delete k m) (ks ∪ {[k]}) /\
    (kv_syncs db = true -> kv_durable (kv_del db k) (delete k m));
  kv_set_mode db k v : kv_cap (kv_set db k v) = kv_cap db /\ kv_syncs (kv_set db k v) = kv_syncs db;
  kv_del_mode db k : kv_cap (kv_del db k) = kv_cap db /\ kv_syncs (kv_del db k) = kv_syncs db }.

(** Opening a file that is not there: an empty store with the room and the
    mode that were asked for. *)
Definition fresh_open {DB} `{KvLaws DB} (open : string -> Options -> DB + serr) : Prop :=
  forall path o db, open path o = inl db -> 0 < KeyCapacity o ->
  kv_holds db ∅ ∅ /\ kv_durable db ∅ /\ kv_cap db = KeyCapacity o /\ kv_syncs db = SyncWrites o.

(** ** The adapter *)

Definition engMeta : Meta :=
  MkMeta "kv" FamilyHashLog ModeInProc ClassEmbedded "kv" ""
    (MkCapabilities false false true false false true true)
    [MkAsterisk "group-commit" "durable in both modes, the difference is only when the fsync lands. DEFAULT is background group commit: a write acks from the in-memory hot tier and the flusher fsyncs it a moment later, so a crash loses only the sub-second unflushed tail, at most two segments, the Redis appendfsync-everysec contract. FULL waits for the group-commit fsync before the write returns, so an acked write survives a crash with zero loss, and concurrent writers coalesce onto one shared fsync rather than paying one each. Neither mode is durability off.";
     MkAsterisk "no-mvcc" "this cell measures kv's bare hash-log storage core through its Set/Get/Delete surface, the durable peer to bbolt and badger's point path, with no transaction type.";
     MkAsterisk "unordered" "the index is a hash table with no key order, so there is no sorted scan; range and scan workloads (readseq, ycsb-e) do not apply and are skipped."]
    false.

Record eng (DB : Type) := MkEng { e_db : DB; e_sync : bool }.
Arguments MkEng {DB}.
Arguments e_db {DB}.
Arguments e_sync {DB}.

Definition hotRecords : Z := 32768.
Definition maxHotBytes : Z := Z.shiftl 64 20.

Definition recordBytes (cfg : Config) : Z :=
  let r := swrap64 (CfgValueBytes cfg + 32) in
  if r <=? 0 then 1056 else r.

Definition hotBytes (cfg : Config) : Z := Z.min (swrap64 (hotRecords * recordBytes cfg)) maxHotBytes.

Definition openOptions (cfg : Config) : Options :=
  MkOptions (swrap64 (CfgCardinality cfg)) (hotBytes cfg) (hotRecords + Z.quot hotRecords 4)
    (CfgCacheBytes cfg) 4096 (bool_decide (CfgSynchronous cfg = "FULL")).

Definition Open {DB} (open : string -> Options -> DB + serr) (cfg : Config) : eng DB + serr :=
  match open (CfgDir cfg +:+ "/data.kv")%string (openOptions cfg) with
  | inr err => inr err
  | inl db => inl (MkEng db (SyncWrites (openOptions cfg)))
  end.

Record batch := MkBatch { ops : list memOp }.
Definition NewBatch : batch := MkBatch [].
Definition batchPut (b : batch) (k v : bytes) : batch := MkBatch (ops b ++ [PutOp k v]).
Definition batchDelete (b : batch) (k : bytes) : batch := MkBatch (ops b ++ [DelOp k]).
Definition batchLen (b : batch) : Z := len (ops b).

Section Ops.
Context {DB : Type} `{KvDB DB}.

Definition Get (e : eng DB) (key : bytes) : option bytes + serr :=
  let '(v, ok, err) := kv_get (e_db e) key in
  match err with
  | Some err => inr err
  | None => if negb ok then inl None else inl (Some v)
  end.

Definition Put (e : eng DB) (key value : bytes) : DB * option serr := (kv_set (e_db e) key value, None).
Definition Delete (e : eng DB) (key : bytes) : DB * option serr := (kv_del (e_db e) key, None).

(** The empty iterator. *)
Definition Scan (e : eng DB) (_ : bytes) : list (bytes * bytes) + serr := inl [].

Definition Flush (e : eng DB) : DB * option serr := if negb (e_sync e) then (e_db e, None) else kv_sync (e_db e).

(** The loop of [Commit]: the writes one at a time. *)
Definition commitLoop (db : DB) (l : list memOp) : DB :=
  foldl (fun db o => if op_del o then kv_del db (op_k o) else kv_set db (op_k o) (op_v o)) db l.

Definition Commit (e : eng DB) (b : batch) : DB * batch * option serr :=
  (commitLoop (e_db e) (ops b), NewBatch, None).

Definition batchOf (l : list memOp) : batch := build_batch NewBatch batchPut batchDelete l.

#[global] Instance adapterOps : AdapterOps (eng DB) := {
  ad_get e k := Get e k;
  ad_put e k v := let '(db, err) := Put e k v in (MkEng db (e_sync e), err);
  ad_delete e k := let '(db, err) := Delete e k in (MkEng db (e_sync e), err);
  ad_commit e l := let '(db, _, err) := Commit e (batchOf l) in (MkEng db (e_sync e), err);
  ad_scan e start n := match Scan e start with inl rows => inl (take n rows) | inr err => inr err end }.
End Ops.

Lemma kv_batchOf_ops l : ops (batchOf l) = norm_op <$> l.
Proof. by apply (build_batch_ops ops). Qed.

Definition Stats : Engine.Stats := UnknownStats.

Definition Close {DB} (dbClose : DB -> option serr) (db : option DB) : option serr :=
  match db with Some d => dbClose d | None => None end.

(** ** Sizing *)

(** A segment has room for [hotRecords] records of the cell's value size, up
    to the cap, and is never empty, for values below 128 TiB. *)
Lemma hotBytes_bounds cfg :
  - 2 ^ 63 + 32 <= CfgValueBytes cfg < 2 ^ 47 ->
  0 < hotBytes cfg <= maxHotBytes /\
  (hotBytes cfg < maxHotBytes -> hotBytes cfg = hotRecords * recordBytes cfg) /\
  (0 <= CfgValueBytes cfg -> recordBytes cfg = CfgValueBytes cfg + 32).
Proof.
  intros Hv. unfold hotBytes, recordBytes, hotRecords. change maxHotBytes with 67108864.
  rewrite (swrap64_id (CfgValueBytes cfg + 32)) by (unfold is_i64; lia).
  case_zcmp; rewrite swrap64_id by (unfold is_i64; lia); lia.
Qed.

(** ** The contract *)

(** The keys a run of requests writes. *)
Definition op_keys (l : list memOp) : gset bytes := list_to_set (op_k <$> l).

Definition req_ops (r : areq) : list memOp :=
  match r with AWrite o => [o] | ABatch l => l | _ => [] end.

Definition written (rs : list areq) : gset bytes := op_keys (rs ≫= req_ops).

Lemma op_keys_app l1 l2 : op_keys (l1 ++ l2) = op_keys l1 ∪ op_keys l2.
Proof. unfold op_keys. by rewrite fmap_app, list_to_set_app_L. Qed.

Section Contract.
Context {DB : Type} `{KvLaws DB}.

(** The state of a session: the store holds and keeps [m], and the keys given
    so far, with those still to come, fit the index. *)
Definition fits (db : DB) (m : gmap bytes bytes) (ks todo : gset bytes) : Prop :=
  kv_holds db m ks /\ Z.of_nat (size (ks ∪ todo)) <= kv_cap db /\ (kv_syncs db = true -> kv_durable db m).

Lemma commitLoop_norm l : forall db : DB, commitLoop db (norm_op <$> l) = commitLoop db l.
Proof. induction l as [|[[] k v] l IH]; intros db; cbn; [done|apply IH..]. Qed.

Lemma commitLoop_fits l : forall (db : DB) m ks todo,
  fits db m ks (op_keys l ∪ todo) ->
  fits (commitLoop db l) (apply_ops m l) (ks ∪ op_keys l) todo /\
  kv_cap (commitLoop db l) = kv_cap db /\ kv_syncs (commitLoop db l) = kv_syncs db.
Proof.
  induction l as [|o l IH]; intros db m ks todo (Hh & Hc & Hd).
  - change (op_keys []) with (∅ : gset bytes) in *. rewrite union_empty_r_L, union_empty_l_L in *. done.
  - change (o :: l) with ([o] ++ l) in *. rewrite op_keys_app in *.
    assert (op_keys [o] = {[op_k o]}) as Ho by (unfold op_keys; cbn; set_solver). rewrite Ho in *.
    assert (Z.of_nat (size (ks ∪ {[op_k o]})) <= kv_cap db) as Hs.
    { etrans; [|exact Hc]. apply inj_le, subseteq_size. set_solver. }
    set (db' := if op_del o then kv_del db (op_k o) else kv_set db (op_k o) (op_v o)).
    assert (kv_holds db' (apply_op m o) (ks ∪ {[op_k o]}) /\
            (kv_syncs db = true -> kv_durable db' (apply_op m o)) /\
            kv_cap db' = kv_cap db /\ kv_syncs db' = kv_syncs db) as (Hh' & Hd' & Hcap & Hsync).
    { subst db'. unfold apply_op. destruct (op_del o).
      - destruct (kv_del_law db m ks (op_k o) Hh Hs), (kv_del_mode db (op_k o)). by split_and!.
      - destruct (kv_set_law db m ks (op_k o) (op_v o) Hh Hs), (kv_set_mode db (op_k o) (op_v o)). by split_and!. }
    destruct (IH db' (apply_op m o) (ks ∪ {[op_k o]}) todo) as (Hf & Hcap2 & Hsync2).
    + split_and!; [done| |by rewrite Hsync]. rewrite Hcap. by rewrite <- !(assoc_L (∪)) in *.
    + rewrite <- Hcap, <- Hsync. rewrite (assoc_L (∪)). done.
Qed.

Lemma kv_requests rs : forall (e : eng DB) m ks,
  fits (e_db e) m ks (written rs) ->
  accounts m rs (run_requests e rs).1 (map_requests m rs).2 /\
  (forall r err, (r, AAck err) ∈ zip rs (run_requests e rs).1 -> err = None) /\
  kv_holds (e_db (run_requests e rs).2) (map_requests m rs).2 (ks ∪ written rs) /\
  (kv_syncs (e_db e) = true -> kv_durable (e_db (run_requests e rs).2) (map_requests m rs).2).
Proof.
  induction rs as [|r rs IH]; intros e m ks Hf.
  - destruct Hf as (Hh & _ & Hd). change (written []) with (∅ : gset bytes). rewrite union_empty_r_L.
    split_and!; [done| |done|done]. intros r err Hin. by apply elem_of_nil in Hin.
  - assert (written (r :: rs) = op_keys (req_ops r) ∪ written rs) as Hw
      by (unfold written; cbn; apply op_keys_app). rewrite Hw in *.
    destruct (commitLoop_fits (req_ops r) (e_db e) m ks (written rs) Hf) as (Hf' & _ & Hsync).
    assert (accounts1 m r (run_request e r).1 (map_request m r).2 /\
            (forall err, (run_request e r).1 = AAck err -> err = None) /\
            e_db (run_request e r).2 = commitLoop (e_db e) (req_ops r) /\
            (map_request m r).2 = apply_ops m (req_ops r)) as (Ha & Herr & He & Hm).
    { destruct r as [k|o|l|start n]; cbn.
      - destruct Hf as (Hh & _). pose proof (kv_get_law (e_db e) m ks k Hh) as Hg. unfold Get.
        destruct (kv_get (e_db e) k) as [[v []] [err|]]; by cbn.
      - unfold apply_ops. cbn. destruct o as [[] k v]; cbn; (split_and!; [done| |done|done]); by intros ? [= <-].
      - rewrite kv_batchOf_ops. split_and!; [done|by intros ? [= <-]| |done].
        apply commitLoop_norm.
      - rewrite take_nil. split_and!; [apply prefix_nil|done..]. }
    rewrite <- He, <- Hm in Hf'. cbn. destruct (run_request e r) as [a e1], (map_request m r) as [a' m1]. cbn in *.
    destruct (IH e1 m1 _ Hf') as (Hacc & Hacks & Hh & Hd).
    destruct (run_requests e1 rs) as [ans e2], (map_requests m1 rs) as [ans' m2]. cbn in *.
    split_and!; [by eauto| |by rewrite (assoc_L (∪))|].
    + intros r' err. rewrite elem_of_cons. intros [[= -> <-]|Hin]; [by apply Herr|by eapply Hacks].
    + intros Hs. apply Hd. rewrite He. congruence.
Qed.
End Contract.

(** C23: a cell whose requests write no more distinct keys than its cardinality
    gets the map's behaviour from the kv adapter: every write is acknowledged
    and took effect, every read that does not report an error is the map's
    value, and at FULL what a crash would leave is the whole map.  The hot
    tier [Open] asks for is positive and at most 64 MiB. *)
Theorem kv_honours {DB} `{KvLaws DB} open cfg (e : eng DB) rs :
  fresh_open open -> Open open cfg = inl e ->
  0 < CfgCardinality cfg < 2 ^ 63 -> Z.of_nat (size (written rs)) <= CfgCardinality cfg ->
  0 <= CfgValueBytes cfg < 2 ^ 47 ->
  accounts ∅ rs (run_requests e rs).1 (map_requests ∅ rs).2 /\
  (forall r err, (r, AAck err) ∈ zip rs (run_requests e rs).1 -> err = None) /\
  kv_holds (e_db (run_requests e rs).2) (map_requests ∅ rs).2 (written rs) /\
  (CfgSynchronous cfg = "FULL" -> kv_durable (e_db (run_requests e rs).2) (map_requests ∅ rs).2) /\
  0 < HotBytes (openOptions cfg) <= 64 * 1024 * 1024.
Proof.
  intros Hfresh Ho Hcard Hw Hv. unfold Open in Ho.
  destruct (open _ (openOptions cfg)) as [db|err] eqn:Hop; simplify_eq.
  assert (KeyCapacity (openOptions cfg) = CfgCardinality cfg) as Hkc by (cbn; apply swrap64_id; unfold is_i64; lia).
  destruct (Hfresh _ _ _ Hop) as (Hh & Hd & Hcap & Hsync); [lia|].
  destruct (kv_requests rs (MkEng db (SyncWrites (openOptions cfg))) ∅ ∅) as (Ha & Hk & Hh' & Hd').
  { split_and!; [done| |done]. cbn. rewrite union_empty_l_L. lia. }
  rewrite union_empty_l_L in Hh'. split_and!; [done|done|done| | |].
  - intros Hf. apply Hd'. cbn. rewrite Hsync. cbn. by apply bool_decide_eq_true_2.
  - apply (hotBytes_bounds cfg); lia.
  - apply (hotBytes_bounds cfg); lia.
Qed.

(** ** A store that meets the laws

    A map, the keys it was given, the room of its index and its mode; a write
    of a new key into a full index is dropped. *)

Record memKv := MkMemKv {
  mk_map : gmap bytes bytes;
  mk_keys : gset bytes;
  mk_disk : gmap bytes bytes;
  mk_cap : Z;
  mk_sync : bool }.

Definition mk_write (db : memKv) (k : bytes) (m : gmap bytes bytes) : memKv :=
  if Z.of_nat (size (mk_keys db ∪ {[k]})) <=? mk_cap db
  then MkMemKv m (mk_keys db ∪ {[k]}) (if mk_sync db then m else mk_disk db) (mk_cap db) (mk_sync db)
  else db.

#[global] Instance memKv_db : KvDB memKv := {
  kv_get db k := match mk_map db !! k with Some v => (v, true, None) | None => ([], false, None) end;
  kv_set db k v := mk_write db k (<[k := v]> (mk_map db));
  kv_del db k := mk_write db k (delete k (mk_map db));
  kv_sync db := (MkMemKv (mk_map db) (mk_keys db) (mk_map db) (mk_cap db) (mk_sync db), None) }.

#[global] Instance memKv_laws : KvLaws memKv.
Proof.
  refine {| kv_holds db m ks := mk_map db = m /\ mk_keys db = ks; kv_durable db m := mk_disk db = m;
            kv_cap := mk_cap; kv_syncs := mk_sync |}; cbn; unfold mk_write.
  - intros db m ks k [<- <-]. by destruct (mk_map db !! k).
  - intros db m ks k v [<- <-] Hs. rewrite (proj2 (Z.leb_le _ _) Hs). cbn. split; [done|by intros ->].
  - intros db m ks k [<- <-] Hs. rewrite (proj2 (Z.leb_le _ _) Hs). cbn. split; [done|by intros ->].
  - intros db k v. by case_zcmp.
  - intros db k. by case_zcmp.
Defined.

Definition memKv_open (path : string) (o : Options) : memKv + serr :=
  inl (MkMemKv ∅ ∅ ∅ (KeyCapacity o) (SyncWrites o)).

Definition demo_kv_requests : list areq :=
  let a := [Byte.x61] in let b := [Byte.x62] in
  [AWrite (PutOp a [Byte.x01]); AGet a; AGet b; ABatch [PutOp b []; DelOp a]; AGet b; AGet a; AScan [] 3].

Lemma kv_honours_witness :
  let cfg := MkConfig "d" "" "" "FULL" 0 100 2 "" ∅ in
  let e := MkEng (MkMemKv ∅ ∅ ∅ 2 true) true in
  Open memKv_open cfg = inl e /\
  accounts ∅ demo_kv_requests (run_requests e demo_kv_requests).1 (map_requests ∅ demo_kv_requests).2 /\
  (forall r err, (r, AAck err) ∈ zip demo_kv_requests (run_requests e demo_kv_requests).1 -> err = None) /\
  kv_holds (e_db (run_requests e demo_kv_requests).2) (map_requests ∅ demo_kv_requests).2 (written demo_kv_requests) /\
  (CfgSynchronous cfg = "FULL" ->
   kv_durable (e_db (run_requests e demo_kv_requests).2) (map_requests ∅ demo_kv_requests).2) /\
  0 < HotBytes (openOptions cfg) <= 64 * 1024 * 1024.
Proof.
  split; [reflexivity|].
  apply (kv_honours memKv_open (MkConfig "d" "" "" "FULL" 0 100 2 "" ∅)).
  - intros path o db [= <-] _. done.
  - reflexivity.
  - cbn. lia.
  - vm_compute. done.
  - cbn. lia.
Defined.

(** ** A sequential fill outgrows the index

    The sequential fill of a client does not stop at the number of keys of the
    cell, which is what [Open] sizes the index for: its puts past it are
    acknowledged, and the keys are not there. *)

Theorem kv_fillseq_drops :
  exists (g g' : Generator) (o : list Op) (e : eng memKv),
    NewGenerator (fun x _ => x) (MkSpec "fillseq" 0 0 100 0 0 0 DistUniform false true true) 1 0 2 8 = Ok g /\
    stream (fun x _ => x) (fun _ => 0) 3 g = Ok (o, g') /\
    Open memKv_open (MkConfig "d" "" "" "FULL" 0 8 2 "" ∅) = inl e /\
    let puts := (fun op => AWrite (PutOp (Key op) (Value op))) <$> o in
    (run_requests e puts).1 = [AAck None; AAck None; AAck None] /\
    (run_requests e (puts ++ [AGet (EncodeKey 2)])).1 = [AAck None; AAck None; AAck None; AVal (inl None)] /\
    EncodeKey 2 ∈ (Key <$> o).
Proof.
  eexists _, _, _, _. split; [vm_compute; reflexivity|]. split; [vm_compute; reflexivity|].
  split; [reflexivity|]. split_and!; [vm_compute; reflexivity|vm_compute; reflexivity|].
  apply (bool_decide_unpack _). vm_compute. reflexivity.
Qed.
