(* ===== verification/Adapters.v ===== *)
(** * The embedded adapters side by side

    What is the same of adapters that share a store's interface, and how the
    durability level of a cell reaches each store. *)

From S2P Require Import Prelude Codec Engine Ordered Adapter TxStore LsmStore.
From S2P Require Bbolt Lmdb Libmdbx Buntdb Goleveldb Pebble Rocks Pogreb Badger Sqlite Kv.
Local Open Scope go_scope.

(** C26: the contract of [honours] for the LMDB and the libmdbx adapter, over
    any environment that keeps the documented laws: exactly the acknowledged
    writes are in the store, a batch whole or not at all, where a delete of an
    absent key is the store's not-found error and does not fail it; every
    answer is the map's or an error, except that a cursor error ends a scan
    early; and over an environment that does not fail they answer as the map
    does. *)
Theorem mdb_adapters_honour {DB Tx Cur} `{TxnDBLaws DB Tx} `{!KeyTx Tx} `{!KeyTxLaws DB Tx}
    `{!MdbCursor DB Cur} `{!MdbCursorLaws DB Tx Cur} (env : DB) m rs :
  db_rep env m ->
  honours (Lmdb.MkEng env : Lmdb.eng DB Tx Cur) m rs /\
  honours (Libmdbx.MkEng env : Libmdbx.eng DB Tx Cur) m rs.
Proof. intros Hr. split; [by apply Lmdb.lmdb_contract|by apply Libmdbx.libmdbx_contract]. Qed.

Lemma mdb_adapters_honour_witness :
  let env := MkMemDB ∅ false in
  honours (Lmdb.MkEng env : Lmdb.eng memDB memTx memCur) ∅ demo_requests /\
  honours (Libmdbx.MkEng env : Libmdbx.eng memDB memTx memCur) ∅ demo_requests.
Proof. apply (mdb_adapters_honour (MkMemDB ∅ false)). reflexivity. Defined.

(** Every write the engine acknowledges is on disk. *)
Definition durable_writes {E DB} `{LsmEngine E DB} (e : E) (m : gmap bytes bytes) : Prop :=
  forall r, is_write r = true -> (run_request e r).1 = AAck None ->
  ls_durable (le_db (run_request e r).2) (map_request m r).2.



(** ** Durability levels *)

(** A store that fsyncs each write, or writes to its log and lets a background
    task fsync it. *)
Definition flushing (sync : bool) : durability := if sync then SyncCommit else SyncDeferred.

(** What each embedded store is asked for. *)
Definition levels (cfg : Config) : list (string * durability) :=
  [("bbolt", Bbolt.openDurability cfg); ("lmdb", Lmdb.openDurability cfg);
   ("libmdbx", Libmdbx.openDurability cfg); ("buntdb", Buntdb.openDurability cfg);
   ("sqlite", Sqlite.openDurability cfg); ("goleveldb", flushing (Goleveldb.openSync cfg));
   ("pebble", flushing (Pebble.openSync cfg)); ("rocksdb", flushing (Rocks.openSync cfg));
   ("pogreb", flushing (Pogreb.openSync cfg)); ("badger", flushing (Badger.openSync cfg));
   ("kv", flushing (Kv.SyncWrites (Kv.openOptions cfg)))].

(** A cell at FULL asks every embedded store to fsync before a write
    returns, and a cell at OFF asks none to; at any level that is neither FULL,
    OFF nor NORMAL, each store is left at the level it ships with: bbolt, LMDB
    and libmdbx fsync each commit, the others defer it. *)
Theorem durability_levels cfg :
  (CfgSynchronous cfg = "FULL" -> Forall (fun l => l.2 = SyncCommit) (levels cfg)) /\
  (CfgSynchronous cfg = "OFF" -> Forall (fun l => l.2 <> SyncCommit) (levels cfg)) /\
  (CfgSynchronous cfg ∉ ["FULL"; "OFF"; "NORMAL"] ->
   forall name l, (name, l) ∈ levels cfg ->
   l = if bool_decide (name ∈ ["bbolt"; "lmdb"; "libmdbx"]) then SyncCommit else SyncDeferred).
Proof.
  unfold levels, Bbolt.openDurability, Bbolt.openNoSync, Lmdb.openDurability, Lmdb.openFlags,
    Libmdbx.openDurability, Libmdbx.openFlags, Buntdb.openDurability, Buntdb.openPolicy, Sqlite.openDurability,
    Sqlite.openSync, Goleveldb.openSync, Pebble.openSync, Rocks.openSync, Pogreb.openSync, Badger.openSync,
    Kv.openOptions, Kv.SyncWrites.
  split_and!.
  - intros ->. apply (bool_decide_unpack _). vm_compute. reflexivity.
  - intros ->. apply (bool_decide_unpack _). vm_compute. reflexivity.
  - rewrite !not_elem_of_cons. intros (Hf & Ho & Hn & _).
    rewrite !(bool_decide_eq_false_2 (CfgSynchronous cfg = "FULL")), !(bool_decide_eq_false_2 (CfgSynchronous cfg = "OFF")),
      ?(bool_decide_eq_false_2 (CfgSynchronous cfg = "NORMAL")) by done.
    intros name l Hin.
    repeat (apply elem_of_cons in Hin as [[= -> ->]|Hin]; [vm_compute; reflexivity|]). by apply elem_of_nil in Hin.
Qed.

Lemma durability_levels_witness :
  let cfg := MkConfig "d" "" "" "FULL" 0 0 0 "" ∅ in
  Forall (fun l => l.2 = SyncCommit) (levels cfg) /\ len (levels cfg) = 11.
Proof.
  split; [|reflexivity]. apply (durability_levels (MkConfig "d" "" "" "FULL" 0 0 0 "" ∅)). reflexivity.
Defined.
