(* ===== verification/Harness.v ===== *)
(** * The cell driver (harness/driver.go, harness/result.go)

    [RunCell] loads a dataset into a fresh engine, runs the measured workload
    over it and fills a [Result].  What the driver gets from outside the
    repository (the clock, the runtime's memory statistics, the file system,
    the order in which the scheduler runs the client goroutines) is the
    argument [world].  An engine is an instance of [Engine]; a client goroutine
    is a small state machine whose step is one engine call, and a schedule is
    any sequence of client steps. *)

From Stdlib Require Import SpecFloat.
From S2P Require Import Prelude Float64 Codec Engine Workload Hdr.
Local Open Scope go_scope.

Definition Version : string := "0.1.0".

Record CellConfig := MkCellConfig {
  EngineName : string;
  CellWorkload : Spec;
  Regime : string;
  Profile : string;
  Durability : string;
  Concurrency : Z;
  ValueBytes : Z;
  Cardinality : Z;
  Operations : Z;
  CellSeed : Z;
  RunID : string;
  DataRoot : string;
  CacheBytes : Z;
  ServerCPUList : string }.

(** ** result.go *)

Record ResEngine := MkResEngine {
  re_Name : string; re_Family : string; re_Mode : string; re_Class : string;
  re_Version : string; re_Profile : string; re_Caps : Capabilities }.

Record ResWorkload := MkResWorkload {
  rw_Name : string; rw_Regime : string; rw_Durability : string; rw_Concurrency : Z;
  rw_ValueBytes : Z; rw_Cardinality : Z; rw_Operations : Z }.

Record ResThroughput := MkResThroughput {
  rt_SustainedOps : float64; rt_Min : float64; rt_Max : float64;
  rt_ReadOps : float64; rt_WriteOps : float64 }.

Record ResLoad := MkResLoad { rl_Ops : Z; rl_Seconds : float64; rl_OpsPerSec : float64 }.

Record ResAmp := MkResAmp {
  ra_SpaceAmp : float64; ra_OnDiskBytes : Z; ra_LogicalBytes : Z;
  ra_WriteAmp : float64; ra_Tier : string }.

Record ResGo := MkResGo {
  rg_GCPauseP99Ns : Z; rg_GCPauseMaxNs : Z; rg_GCCPUFrac : float64;
  rg_AllocPerOp : float64; rg_NumGC : Z }.

(** env.Manifest, as captured from the host. *)
Record Manifest := MkManifest {
  OS : string; Arch : string; NumCPU : Z; GoVersion : string; GOMAXPROCS : Z;
  CPUModel : string; MemBytes : Z; Hostname : string }.

Definition zeroManifest : Manifest := MkManifest "" "" 0 "" 0 "" 0 "".

Record Result := MkResult {
  Schema : string;
  Kvbench : string;
  ResRunID : string;
  Seed : Z;
  REngine : ResEngine;
  RWorkload : ResWorkload;
  Repetitions : Z;
  Throughput : ResThroughput;
  LatencyNs : Snapshot;
  Load_ : ResLoad;
  Amplification : ResAmp;
  GoRuntime : ResGo;
  Asterisks : list Asterisk;
  SteadyState : bool;
  Error : string;
  Environment : Manifest }.

(** Go's zero value of the struct. *)
Definition zeroResult : Result :=
  MkResult "" "" "" 0 (MkResEngine "" "" "" "" "" "" NoCaps) (MkResWorkload "" "" "" 0 0 0 0) 0
    (MkResThroughput f64_zero f64_zero f64_zero f64_zero f64_zero)
    (MkSnapshot 0 0 0 0 0 0 0 0) (MkResLoad 0 f64_zero f64_zero)
    (MkResAmp f64_zero 0 0 f64_zero "") (MkResGo 0 0 f64_zero f64_zero 0) [] false "" zeroManifest.

Definition set_error (r : Result) (e : string) : Result :=
  MkResult (Schema r) (Kvbench r) (ResRunID r) (Seed r) (REngine r) (RWorkload r) (Repetitions r)
    (Throughput r) (LatencyNs r) (Load_ r) (Amplification r) (GoRuntime r) (Asterisks r)
    (SteadyState r) e (Environment r).
Definition set_engine (r : Result) (e : ResEngine) (a : list Asterisk) : Result :=
  MkResult (Schema r) (Kvbench r) (ResRunID r) (Seed r) e (RWorkload r) (Repetitions r)
    (Throughput r) (LatencyNs r) (Load_ r) (Amplification r) (GoRuntime r) a
    (SteadyState r) (Error r) (Environment r).
Definition set_load (r : Result) (l : ResLoad) : Result :=
  MkResult (Schema r) (Kvbench r) (ResRunID r) (Seed r) (REngine r) (RWorkload r) (Repetitions r)
    (Throughput r) (LatencyNs r) l (Amplification r) (GoRuntime r) (Asterisks r)
    (SteadyState r) (Error r) (Environment r).
Definition set_throughput (r : Result) (t : ResThroughput) : Result :=
  MkResult (Schema r) (Kvbench r) (ResRunID r) (Seed r) (REngine r) (RWorkload r) (Repetitions r)
    t (LatencyNs r) (Load_ r) (Amplification r) (GoRuntime r) (Asterisks r)
    (SteadyState r) (Error r) (Environment r).
Definition set_latency (r : Result) (s : Snapshot) : Result :=
  MkResult (Schema r) (Kvbench r) (ResRunID r) (Seed r) (REngine r) (RWorkload r) (Repetitions r)
    (Throughput r) s (Load_ r) (Amplification r) (GoRuntime r) (Asterisks r)
    (SteadyState r) (Error r) (Environment r).
Definition set_amp (r : Result) (a : ResAmp) : Result :=
  MkResult (Schema r) (Kvbench r) (ResRunID r) (Seed r) (REngine r) (RWorkload r) (Repetitions r)
    (Throughput r) (LatencyNs r) (Load_ r) a (GoRuntime r) (Asterisks r)
    (SteadyState r) (Error r) (Environment r).
Definition set_go (r : Result) (g : ResGo) : Result :=
  MkResult (Schema r) (Kvbench r) (ResRunID r) (Seed r) (REngine r) (RWorkload r) (Repetitions r)
    (Throughput r) (LatencyNs r) (Load_ r) (Amplification r) g (Asterisks r)
    (SteadyState r) (Error r) (Environment r).
Definition set_asterisks (r : Result) (a : list Asterisk) : Result :=
  MkResult (Schema r) (Kvbench r) (ResRunID r) (Seed r) (REngine r) (RWorkload r) (Repetitions r)
    (Throughput r) (LatencyNs r) (Load_ r) (Amplification r) (GoRuntime r) a
    (SteadyState r) (Error r) (Environment r).

(** ** Engines as the driver sees them

    The interface of engine/engine.go with errors as optional messages, those of
    [Get], [Put], [Delete], [Scan] and [Flush] left out because the driver drops
    them; [B] is the engine's batch and [I] its iterator. *)

Class Engine (E B I : Type) := {
  e_meta : E -> Meta;
  e_open : E -> Config -> outcome (E * option string);
  e_get : E -> bytes -> outcome (E * option bytes);
  e_put : E -> bytes -> bytes -> outcome E;
  e_delete : E -> bytes -> outcome E;
  e_newBatch : E -> B;
  e_batchPut : E -> B -> bytes -> bytes -> E * B;
  e_batchLen : B -> Z;
  e_commit : E -> B -> outcome (E * option string);
  e_scan : E -> bytes -> outcome (E * option I);
  e_next : E -> I -> outcome (bool * I);
  e_flush : E -> outcome E;
  e_stats : E -> option Stats }.

(** ** The load phase *)

Definition loadSpec : Spec := MkSpec "load" 0 0 100 0 0 0 DistUniform false true true.

Section Driver.
Context {E B I : Type} `{Engine E B I}.
Context (pow : float64 -> float64 -> float64) (oob : float64 -> Z).

Definition batchSize : Z := 1000.

(** [n] turns of the loop; the result is the engine, the open batch and the
    error that ended it early. *)
Fixpoint loadLoop (n : nat) (e : E) (b : B) (g : Generator) : outcome (E * B * option string) :=
  match n with
  | O => Ok (e, b, None)
  | S n' =>
      let* (op, g) := Next pow oob g in
      let '(e, b) := e_batchPut e b (Key op) (Workload.Value op) in
      if e_batchLen b >=? batchSize
      then let* (e, err) := e_commit e b in
           match err with
           | Some m => Ok (e, b, Some m)
           | None => loadLoop n' e (e_newBatch e) g
           end
      else loadLoop n' e b g
  end.

Definition loadDataset (e : E) (c : CellConfig) : outcome (E * option string) :=
  let* g := NewGenerator pow loadSpec (CellSeed c) 0 (Cardinality c) (ValueBytes c) in
  let* (e, b, err) := loadLoop (Z.to_nat (Cardinality c)) e (e_newBatch e) g in
  match err with
  | Some m => Ok (e, Some m)
  | None => if e_batchLen b >? 0 then e_commit e b else Ok (e, None)
  end.

(** ** The measured phase *)

(** A client goroutine: what it still has to do, and the put of a
    read-modify-write whose read is done. *)
Record client := MkClient {
  cl_gen : Generator;
  cl_left : nat;
  cl_hist : Histogram;
  cl_pending : option (bytes * bytes) }.

Record mstate := MkMstate {
  ms_eng : E;
  ms_reads : Z;
  ms_writes : Z;
  ms_clients : list client }.

(** The scratch buffer of a read-modify-write. *)
Definition rmwValue (v : option bytes) (val : bytes) : bytes :=
  match v, val with
  | Some (b0 :: _), x :: rest => z2b (b2z x ^64 b2z b0) :: rest
  | _, _ => val
  end.

(** [for it.Next() && n < op.ScanLen { ... n++ }], with [left = ScanLen - n]. *)
Fixpoint scanLoop (left : nat) (e : E) (it : I) : outcome unit :=
  let* (more, it) := e_next e it in
  if more : bool
  then match left with O => Ok tt | S left' => scanLoop left' e it end
  else Ok tt.

(** The end of an operation: the latency is recorded and the loop advances. *)
Definition finish (c : client) (g : Generator) (ns : Z) : outcome client :=
  let* h := Record_ (cl_hist c) ns in
  Ok (MkClient g (pred (cl_left c)) h None).

(** One step of a client, [ns] being the latency the clock shows if the
    operation ends here. *)
Definition clientStep (e : E) (c : client) (ns : Z) : outcome (E * client * Z * Z) :=
  match cl_pending c with
  | Some (k, v) =>
      let* e := e_put e k v in
      let* c := finish c (cl_gen c) ns in Ok (e, c, 1, 1)
  | None =>
      match cl_left c with
      | O => Ok (e, c, 0, 0)
      | S _ =>
          let* (op, g) := Next pow oob (cl_gen c) in
          match Kind op with
          | OpRead =>
              let* (e, _) := e_get e (Key op) in
              let* c := finish c g ns in Ok (e, c, 1, 0)
          | OpUpdate | OpInsert =>
              let* e := e_put e (Key op) (Workload.Value op) in
              let* c := finish c g ns in Ok (e, c, 0, 1)
          | OpDelete =>
              let* e := e_delete e (Key op) in
              let* c := finish c g ns in Ok (e, c, 0, 1)
          | OpRMW =>
              let* (e, v) := e_get e (Key op) in
              Ok (e, MkClient g (cl_left c) (cl_hist c)
                       (Some (Key op, rmwValue v (Workload.Value op))), 0, 0)
          | OpScan =>
              let* (e, it) := e_scan e (Key op) in
              let* _ := match it with
                        | Some it => scanLoop (Z.to_nat (ScanLen op)) e it
                        | None => Ok tt
                        end in
              let* c := finish c g ns in Ok (e, c, 1, 0)
          end
      end
  end.

Definition stepAt (s : mstate) (i : nat) (ns : Z) : outcome mstate :=
  match ms_clients s !! i with
  | None => Ok s
  | Some c =>
      let* (e, c', r, w) := clientStep (ms_eng s) c ns in
      Ok (MkMstate e (ms_reads s +64 r) (ms_writes s +64 w) (<[i := c']> (ms_clients s)))
  end.

(** A schedule names, step by step, the client that runs and the latency its
    clock shows. *)
Fixpoint runSchedule (s : mstate) (sched : list (nat * Z)) : outcome mstate :=
  match sched with
  | [] => Ok s
  | (i, ns) :: sched' => let* s := stepAt s i ns in runSchedule s sched'
  end.

Definition clientDone (c : client) : bool :=
  match cl_left c, cl_pending c with O, None => true | _, _ => false end.

(** [wg.Wait()] returns once every client is done. *)
Definition allDone (s : mstate) : bool := forallb clientDone (ms_clients s).

Definition newClient (c : CellConfig) (perClient : Z) (cl : nat) : outcome client :=
  let* g := NewGenerator pow (CellWorkload c) (CellSeed c +64 1) (Z.of_nat cl)
              (Cardinality c) (ValueBytes c) in
  Ok (MkClient g (Z.to_nat perClient) New None).

Fixpoint newClients (c : CellConfig) (perClient : Z) (ids : list nat) : outcome (list client) :=
  match ids with
  | [] => Ok []
  | i :: ids' =>
      let* cl := newClient c perClient i in
      let* rest := newClients c perClient ids' in
      Ok (cl :: rest)
  end.

Fixpoint mergeAll (h : Histogram) (hs : list Histogram) : outcome Histogram :=
  match hs with
  | [] => Ok h
  | o :: hs' => let* h := Merge h o in mergeAll h hs'
  end.

(** The number of operations each client runs. *)
Definition perClientOps (c : CellConfig) : outcome Z :=
  if wrap64 (Concurrency c) =? 0 then Panic
  else let q := Operations c / wrap64 (Concurrency c) in Ok (if q =? 0 then 1 else q).

(** What a phase of the driver can end in: a value, a panic of the driver's own
    goroutine, a panic of a client goroutine (which ends the process), or a
    wait that does not end under the given schedule. *)
Inductive phase (A : Type) :=
| Done (a : A)
| Recoverable
| Crash
| Waiting.
Arguments Done {A} a.
Arguments Recoverable {A}.
Arguments Crash {A}.
Arguments Waiting {A}.

Definition runMeasured (e : E) (c : CellConfig) (sched : list (nat * Z))
    : phase (E * (Histogram * Z * Z)) :=
  match perClientOps c with
  | Ok per =>
      if Concurrency c <? 0 then Recoverable
      else
        match newClients c per (seq 0 (Z.to_nat (Concurrency c))) with
        | Ok cls =>
            match runSchedule (MkMstate e 0 0 cls) sched with
            | Ok s =>
                if allDone s then
                  match mergeAll New (cl_hist <$> ms_clients s) with
                  | Ok h => Done (ms_eng s, (h, ms_reads s, ms_writes s))
                  | _ => Recoverable
                  end
                else Waiting
            | Panic => Crash
            | Spin => Waiting
            end
        | Panic => Crash
        | Spin => Waiting
        end
  | _ => Recoverable
  end.
End Driver.
Arguments Done {A} a.
Arguments Recoverable {A}.
Arguments Crash {A}.
Arguments Waiting {A}.

(** ** GC pauses *)

Record gcSnap := MkGcSnap { pauseP99 : Z; pauseMax : Z }.

(** A runtime metrics histogram: [Buckets] holds the bounds. *)
Record gcHistogram := MkGcHistogram { gh_Counts : list Z; gh_Buckets : list float64 }.

Section GC.
Context (oob : float64 -> Z).

(** [uint64(b * 1e9)]. *)
Definition secsToNs (x : float64) : Z := to_u64 oob (fmul x (f64_of_Z 1000000000)).

(** The first bucket whose running total reaches the target. *)
Fixpoint gcP99Loop (cs : list Z) (bs : list float64) (i cum target : Z) : outcome Z :=
  match cs with
  | [] => Ok 0
  | c :: cs' =>
      let cum := cum +64 c in
      if (cum >=? target) && (i <? len bs)
      then let* b := Prelude.index bs (i + 1) in Ok (secsToNs b)
      else gcP99Loop cs' bs (i + 1) cum target
  end.

(** The loop from the last bucket down; [rs] is the counts reversed. *)
Fixpoint gcMaxLoop (rs : list Z) (bs : list float64) (i : Z) : outcome Z :=
  match rs with
  | [] => Ok 0
  | c :: rs' =>
      if (c >? 0) && (i + 1 <? len bs)
      then let* b := Prelude.index bs (i + 1) in Ok (secsToNs b)
      else gcMaxLoop rs' bs (i - 1)
  end.

Definition readGC (sample : option gcHistogram) : outcome gcSnap :=
  match sample with
  | None => Ok (MkGcSnap 0 0)
  | Some h =>
      let total := foldl (fun t c => t +64 c) 0 (gh_Counts h) in
      if total >? 0
      then
        let target := to_u64 oob (fmul (f64_of_Z total) f64_0_99) in
        let* p := gcP99Loop (gh_Counts h) (gh_Buckets h) 0 0 target in
        let* m := gcMaxLoop (reverse (gh_Counts h)) (gh_Buckets h) (len (gh_Counts h) - 1) in
        Ok (MkGcSnap p m)
      else Ok (MkGcSnap 0 0)
  end.
End GC.

(** ** The size of a directory *)

(** What [filepath.Walk] meets under a name: an entry [Lstat] fails on, a file, or
    a directory with its entries in the order of their names, or the error of
    reading it. *)
Inductive entry :=
| Unstatable (err : string)
| File (size : Z)
| Dir (ls : list entry + string).

(** The walk, [total] being the sum so far; the visitor returns the first error
    it is given, which ends the walk. *)
Fixpoint walk (total : Z) (t : entry) : Z * option string :=
  match t with
  | Unstatable err => (total, Some err)
  | File size => (swrap64 (total + size), None)
  | Dir (inr err) => (total, Some err)
  | Dir (inl ts) =>
      (fix entries (total : Z) (ts : list entry) : Z * option string :=
         match ts with
         | [] => (total, None)
         | t :: ts' =>
             match walk total t with
             | (total, Some err) => (total, Some err)
             | (total, None) => entries total ts'
             end
         end) total ts
  end.

Definition dirSize (t : entry) : Z * option string := walk 0 t.

(** ** RunCell *)

Record memStats := MkMemStats { NumGC : Z; GCCPUFraction : float64; TotalAlloc : Z }.

(** What one run of a cell gets from outside. *)
Record world := MkWorld {
  w_env : Manifest;
  w_mkdir : option string;
  w_loadSecs : float64;
  w_sched : list (nat * Z);
  w_elapsed : float64;
  w_gcBefore : option gcHistogram;
  w_gcAfter : option gcHistogram;
  w_memBefore : memStats;
  w_memAfter : memStats;
  w_dir : entry }.

Definition f64_minus1 : float64 := fneg (f64_of_Z 1).

Section RunCell.
Context {E B I : Type} `{Engine E B I}.
Context (pow : float64 -> float64 -> float64) (oob : float64 -> Z).
Context (engineNew : string -> E + string).

(** The fields set before anything can fail. *)
Definition initResult (c : CellConfig) (w : world) : Result :=
  MkResult "kvbench/result/v1" Version (RunID c) (CellSeed c)
    (MkResEngine "" "" "" "" "" "" NoCaps)
    (MkResWorkload (Name (CellWorkload c)) (Regime c) (Durability c) (Concurrency c) (ValueBytes c)
       (Cardinality c) (Operations c))
    1 (MkResThroughput f64_zero f64_zero f64_zero f64_zero f64_zero)
    (MkSnapshot 0 0 0 0 0 0 0 0) (MkResLoad 0 f64_zero f64_zero)
    (MkResAmp f64_minus1 (-1) 0 f64_minus1 "unavailable")
    (MkResGo 0 0 f64_zero f64_zero 0) [] true "" (w_env w).

Definition needsScanError : string := "unsupported: workload needs ordered scan, engine is unordered".
Definition fullNetworkError : string :=
  "unsupported: FULL per-commit fsync is not measured over the network; the RESP class runs everysec (DEFAULT)".

Definition networkClass (cl : string) : bool :=
  bool_decide (cl = ClassRedisMemory) || bool_decide (cl = ClassRedisPersistent)
  || bool_decide (cl = ClassDistributed).

(** The configuration the driver opens the engine with. *)
Definition cellConfig (c : CellConfig) (dir : string) : Config :=
  MkConfig dir "" (Profile c) (Durability c) (CacheBytes c) (ValueBytes c) (Cardinality c) "" ∅.

(** [filepath.Join] of names that need no cleaning; the name only reaches the
    engine and the size walk. *)
Definition cellDir (c : CellConfig) : string :=
  DataRoot c +:+ "/" +:+ RunID c +:+ "/" +:+
  EngineName c +:+ "_" +:+ Name (CellWorkload c) +:+ "_" +:+ Regime c.

Definition logicalBytes (c : CellConfig) : Z :=
  swrap64 (swrap64 (Cardinality c) * swrap64 (16 + ValueBytes c)).

Definition throughputOf (elapsed : float64) (reads writes : Z) (t0 : ResThroughput) : ResThroughput :=
  if fgt elapsed f64_zero
  then let t := fdiv (f64_of_Z (reads +64 writes)) elapsed in
       MkResThroughput t t t (fdiv (f64_of_Z reads) elapsed) (fdiv (f64_of_Z writes) elapsed)
  else t0.

Definition goRuntimeOf (w : world) (gc : gcSnap) (totalOps : Z) : ResGo :=
  let alloc := swrap64 (TotalAlloc (w_memAfter w) - TotalAlloc (w_memBefore w)) in
  MkResGo (pauseP99 gc) (pauseMax gc) (GCCPUFraction (w_memAfter w))
    (if totalOps >? 0 then fdiv (f64_of_Z alloc) (f64_of_Z totalOps) else f64_zero)
    (wrap32 (NumGC (w_memAfter w) - NumGC (w_memBefore w))).

Definition spaceAmp (a : ResAmp) (onDisk : Z * option string) (logical : Z) : ResAmp :=
  match onDisk with
  | (n, None) =>
      if logical >? 0
      then MkResAmp (fdiv (f64_of_Z n) (f64_of_Z logical)) n (ra_LogicalBytes a) (ra_WriteAmp a) "filesystem"
      else a
  | (_, Some _) => a
  end.

Definition writeAmp (a : ResAmp) (st : option Stats) (logical : Z) : ResAmp :=
  match st with
  | Some s =>
      if (BytesWritten s >? 0) && (logical >? 0)
      then MkResAmp (ra_SpaceAmp a) (ra_OnDiskBytes a) (ra_LogicalBytes a)
             (fdiv (f64_of_Z (BytesWritten s)) (f64_of_Z logical))
             (if bool_decide (ra_Tier a = "filesystem")
              then "engine-reported+filesystem" else "engine-reported")
      else a
  | None => a
  end.

Definition noFsync : Asterisk :=
  MkAsterisk "no-fsync" "engine cannot fsync; durability requested but not delivered".

(** The part after the engine is open: load, measure, report. *)
Definition measureCell (c : CellConfig) (w : world) (m : Meta) (r : Result) (e : E) : phase Result :=
  match loadDataset pow oob e c with
  | Ok (e, Some err) => Done (set_error r ("load: " +:+ err))
  | Ok (e, None) =>
      match e_flush e with
      | Ok e =>
          let secs := w_loadSecs w in
          let r := set_load r (MkResLoad (Cardinality c) secs
                     (if fgt secs f64_zero then fdiv (f64_of_Z (Cardinality c)) secs else f64_zero)) in
          let logical := logicalBytes c in
          let a0 := Amplification r in
          let amp := MkResAmp (ra_SpaceAmp a0) (ra_OnDiskBytes a0) logical (ra_WriteAmp a0) (ra_Tier a0) in
          match readGC oob (w_gcBefore w), runMeasured pow oob e c (w_sched w), readGC oob (w_gcAfter w) with
          | Ok _, Done (e, (hist, reads, writes)), Ok gc =>
              let r := set_throughput r (throughputOf (w_elapsed w) reads writes (Throughput r)) in
              let r := set_latency r (snapshot oob hist) in
              let r := if bool_decide (MetaMode m = ModeInProc)
                       then set_go r (goRuntimeOf w gc (reads +64 writes)) else r in
              match e_flush e with
              | Ok e =>
                  let amp := writeAmp (spaceAmp amp (dirSize (w_dir w)) logical) (e_stats e) logical in
                  let r := set_amp r amp in
                  Done (if negb (Durable (MetaCaps m)) && bool_decide (Durability c = "FULL")
                        then set_asterisks r (Asterisks r ++ [noFsync]) else r)
              | Panic => Recoverable
              | Spin => Waiting
              end
          | Ok _, Crash, _ => Crash
          | Ok _, Waiting, _ => Waiting
          | _, _, _ => Recoverable
          end
      | Panic => Recoverable
      | Spin => Waiting
      end
  | Panic => Recoverable
  | Spin => Waiting
  end.

(** The body of [RunCell], up to its deferred calls. *)
Definition runCellBody (c : CellConfig) (w : world) : phase Result :=
  let r := initResult c w in
  match engineNew (EngineName c) with
  | inr err => Done (set_error r err)
  | inl e =>
      let m := e_meta e in
      let r := set_engine r (MkResEngine (MetaName m) (MetaFamily m) (MetaMode m) (ClassOf m)
                 (MetaVersion m) (Profile c) (MetaCaps m)) (MetaAsterisks m) in
      if NeedsScan (CellWorkload c) && negb (Ordered (MetaCaps m)) then Done (set_error r needsScanError)
      else if bool_decide (Durability c = "FULL") && networkClass (ClassOf m)
      then Done (set_error r fullNetworkError)
      else
        match w_mkdir w with
        | Some err => Done (set_error r ("mkdir: " +:+ err))
        | None =>
            match e_open e (cellConfig c (cellDir c)) with
            | Ok (e, Some err) => Done (set_error r ("open: " +:+ err))
            | Ok (e, None) => measureCell c w m r e
            | Panic => Recoverable
            | Spin => Waiting
            end
        end
  end.

(** The deferred [recover] assigns to the local [r]; the function's result is
    not named, so a recovered panic returns the zero [Result]. *)
Definition RunCell (c : CellConfig) (w : world) : phase Result :=
  match runCellBody c w with
  | Recoverable => Done zeroResult
  | p => p
  end.
End RunCell.
