(* ===== verification/HarnessProofs.v ===== *)
(** * The cell driver: what it does with an engine that keeps its contract

    [Loads] is what the load phase needs of an engine and [Sustains] says that
    every call of the measured phase returns; [StoreEngine] ties the driver's
    view of an engine to the map contract of [Engine] (batches buffer their
    writes and commit them in order) and gives both.  The load phase fills the keyspace exactly; the measured phase never crashes, ends
    under every fair schedule, and counts the same operations under all of
    them. *)

From S2P Require Import Prelude Float64 Codec Engine Inmem Swiss Workload Hdr Harness.
Local Open Scope go_scope.

(** [se_ops] are the writes a batch has buffered, [se_iter] an invariant of the
    iterators the engine hands out. *)
Class StoreEngine (E B I : Type) `{Engine E B I} `{KVStore E} := {
  se_ops : B -> list memOp;
  se_newBatch e : se_ops (e_newBatch e) = [];
  se_batchPut e b k v : exists b', e_batchPut e b k v = (e, b') /\ se_ops b' = se_ops b ++ [PutOp k v];
  se_batchLen b : e_batchLen b = len (se_ops b);
  se_commit e b : e_commit e b = obind (kv_apply e (se_ops b)) (fun e' => Ok (e', None));
  se_get e k : e_get e k = obind (kv_get e k) (fun v => Ok (e, v));
  se_put e k v : e_put e k v = kv_put e k v;
  se_delete e k : e_delete e k = kv_delete e k;
  se_iter : I -> Prop;
  se_scan e k : exists it, e_scan e k = Ok (e, it) /\ from_option se_iter True it;
  se_next e it : se_iter it -> exists more it', e_next e it = Ok (more, it') /\ se_iter it' }.

(** The engines of adapters/inmem/inmem.go as the driver sees them: [Open],
    [Flush] and [Close] do nothing, a batch is a [memBatch], a scan is the
    exhausted iterator and the statistics are unknown. *)
Definition inmemEngine {E} `{KVOps E} (m : Meta) : Engine E memBatch unit := {|
  e_meta _ := m;
  e_open e _ := Ok (e, None);
  e_get e k := obind (kv_get e k) (fun v => Ok (e, v));
  e_put := kv_put;
  e_delete := kv_delete;
  e_newBatch _ := newBatch;
  e_batchPut e b k v := (e, batchPut b k v);
  e_batchLen := batchLen;
  e_commit e b := obind (batchCommit e b) (fun '(e', _) => Ok (e', None));
  e_scan e _ := Ok (e, Some tt);
  e_next _ _ := Ok (false, tt);
  e_flush := Ok;
  e_stats _ := Some UnknownStats |}.

#[global] Instance inmemStore {E} `{KVStore E} (m : Meta) :
  @StoreEngine E memBatch unit (inmemEngine m) _ _.
Proof.
  refine (@Build_StoreEngine E memBatch unit (inmemEngine m) _ _ batch_ops _ _ _ _ _ _ _ (fun _ => True) _ _);
    try done.
  - intros e b k v. by eexists.
  - intros e b. cbn. unfold batchCommit. by destruct (kv_apply e (batch_ops b)).
  - intros e k. by exists (Some tt).
  - intros e it _. by exists false, tt.
Defined.

(** ** The load phase *)

(** [m] holds exactly the keys below [n], each with a value of [vb] bytes. *)
Definition filled (vb n : Z) (m : gmap bytes bytes) : Prop :=
  (forall k, is_Some (m !! k) <-> exists i, 0 <= i < n /\ k = EncodeKey i) /\
  (forall k v, m !! k = Some v -> len v = vb).

Lemma filled_empty vb : filled vb 0 ∅.
Proof.
  split; [|intros k v; by rewrite lookup_empty].
  intros k. rewrite lookup_empty, is_Some_alt. split; [done|]. intros (i & ? & _). lia.
Qed.

Lemma filled_insert vb n m v :
  0 <= n -> filled vb n m -> len v = vb -> filled vb (n + 1) (<[EncodeKey n := v]> m).
Proof.
  intros Hn [Hk Hv] Hl. split.
  - intros k. rewrite lookup_insert_is_Some'. rewrite Hk. split.
    + intros [<-|(i & Hi & ->)]; [exists n; split; [lia|done]|exists i; split; [lia|done]].
    + intros (i & Hi & ->). destruct (decide (i = n)) as [->|]; [by left|].
      right. exists i. split; [lia|done].
  - intros k w [[_ <-]|[_ Hw]]%lookup_insert_Some; [done|by eapply Hv].
Qed.

Lemma apply_ops_snoc m ops o : apply_ops m (ops ++ [o]) = apply_op (apply_ops m ops) o.
Proof. unfold apply_ops. by rewrite foldl_app. Qed.

(** The writes of a list of entries. *)
Definition put_ops (kvs : list (bytes * bytes)) : list memOp := (fun kv => PutOp kv.1 kv.2) <$> kvs.

Lemma put_ops_snoc kvs k v : put_ops (kvs ++ [(k, v)]) = put_ops kvs ++ [PutOp k v].
Proof. unfold put_ops. by rewrite fmap_app. Qed.

(** What the load phase asks of an engine.  [lo_rep n e m]: it holds [m] and has
    room for [n] more entries of a key of 16 bytes and a value of [vb] bytes;
    [lo_batch n e m b kvs]: it holds [m], with an open batch [b] of [kvs];
    [lo_err]: the errors a commit can report. *)
Class Loads (vb : Z) (E B I : Type) `{Engine E B I} := {
  lo_rep : nat -> E -> gmap bytes bytes -> Prop;
  lo_batch : nat -> E -> gmap bytes bytes -> B -> list (bytes * bytes) -> Prop;
  lo_err : string -> Prop;
  lo_new n e m : lo_rep n e m -> lo_batch n e m (e_newBatch e) [];
  lo_put n e m b kvs k v : lo_batch (S n) e m b kvs -> len k = 16 -> len v = vb ->
    let '(e', b') := e_batchPut e b k v in lo_batch n e' m b' (kvs ++ [(k, v)]);
  lo_len n e m b kvs : lo_batch n e m b kvs -> e_batchLen b = len kvs;
  lo_drop n e m b : lo_batch n e m b [] -> lo_rep n e m;
  lo_commit n e m b kvs : lo_batch n e m b kvs -> len kvs <= batchSize ->
    exists e' err, e_commit e b = Ok (e', err) /\
      match err with None => lo_rep n e' (apply_ops m (put_ops kvs)) | Some msg => lo_err msg end }.

Section Load.
Context (vb : Z) {E B I : Type} `{Loads vb E B I}.
Context (pow : float64 -> float64 -> float64) (oob : float64 -> Z).

(** The outcome of a phase that ends in [P] or in an error. *)
Definition or_err (P : Prop) (err : option string) : Prop :=
  match err with None => P | Some msg => lo_err msg end.

Lemma loadLoop_spec n : forall k (e : E) (b : B) g m kvs i,
  gen_ok g -> sequential_fill (gspec g) -> valBytes g = vb -> seqCursor g = i -> 0 <= i ->
  i + Z.of_nat n < 2 ^ 64 -> lo_batch (n + k) e m b kvs -> len kvs < batchSize ->
  filled vb i (apply_ops m (put_ops kvs)) ->
  exists e' b' err, loadLoop pow oob n e b g = Ok (e', b', err) /\
    or_err (exists m' kvs', lo_batch k e' m' b' kvs' /\ len kvs' < batchSize /\
      filled vb (i + Z.of_nat n) (apply_ops m' (put_ops kvs'))) err.
Proof using All.
  induction n as [|n IH]; intros k e b g m kvs i Hg Hs Hvb Hc Hi Hn Hb Hlen Hf.
  { exists e, b, None. split; [done|]. rewrite Z.add_0_r. by exists m, kvs. }
  destruct (Next_sequential pow oob g Hg Hs) as (op & g' & Hnx & Ha & Hop & Hc').
  rewrite Hc in Hop, Hc'. rewrite Hvb in Hop. rewrite wrap64_id in Hc' by zlia.
  destruct Hop as (_ & Hk & Hl). cbn [loadLoop]. rewrite Hnx. cbn [obind].
  pose proof (lo_put (n + k) e m b kvs (Key op) (Workload.Value op) Hb ltac:(by rewrite Hk, EncodeKey_len) Hl) as Hb1.
  destruct (e_batchPut e b (Key op) (Workload.Value op)) as [e1 b1].
  set (kvs1 := kvs ++ [(Key op, Workload.Value op)]) in *.
  assert (filled vb (i + 1) (apply_ops m (put_ops kvs1))) as Hf1.
  { unfold kvs1. rewrite put_ops_snoc, apply_ops_snoc. unfold apply_op. cbn. rewrite Hk. by apply filled_insert. }
  assert (len kvs1 = len kvs + 1) as Hlen1 by (unfold kvs1; by rewrite len_app).
  pose proof (advanced_ok _ _ Ha Hg) as Hg'. pose proof (advanced_valBytes _ _ Ha) as Hvb'.
  assert (sequential_fill (gspec g')) as Hs' by (by rewrite (advanced_spec _ _ Ha)).
  replace (i + Z.of_nat (S n)) with (i + 1 + Z.of_nat n) in * by lia.
  rewrite (lo_len _ _ _ _ _ Hb1). destruct (Z.geb_spec (len kvs1) batchSize).
  - destruct (lo_commit _ _ _ _ _ Hb1) as (e2 & err & -> & Hc2); [lia|]. cbn [obind].
    destruct err as [msg|]; [by eexists _, _, _|].
    apply (IH k e2 _ g' (apply_ops m (put_ops kvs1)) [] (i + 1)); try done; try congruence; try lia.
    by apply lo_new.
  - apply (IH k e1 b1 g' m kvs1 (i + 1)); try done; try congruence; lia.
Qed.

(** The load commits the whole keyspace, or ends with an error of a commit. *)
Lemma loadDataset_loads k (e : E) c :
  ValueBytes c = vb -> lo_rep (Z.to_nat (Cardinality c) + k) e ∅ -> 1 <= Cardinality c < 2 ^ 64 -> 0 <= ValueBytes c ->
  exists e' err, loadDataset pow oob e c = Ok (e', err) /\
    or_err (exists m, lo_rep k e' m /\ filled vb (Cardinality c) m) err.
Proof using All.
  intros Hcv Hrep Hc Hv. unfold loadDataset.
  destruct (NewGenerator_ok pow loadSpec (CellSeed c) 0 (Cardinality c) (ValueBytes c))
    as (g & -> & Hg & Hs & _ & Hvb & Hcur); [lia|done|lia|]. cbn [obind].
  destruct (loadLoop_spec (Z.to_nat (Cardinality c)) k e (e_newBatch e) g ∅ [] 0)
    as (e1 & b1 & err & -> & Hl); try done; try lia.
  - by rewrite Hs.
  - by apply lo_new.
  - apply filled_empty.
  - cbn [obind]. destruct err as [msg|]; [by eexists _, _|]. destruct Hl as (m & kvs & Hb & Hlen & Hf).
    rewrite Z.add_0_l, Z2Nat.id in Hf by lia. rewrite (lo_len _ _ _ _ _ Hb).
    destruct (Z.gtb_spec (len kvs) 0) as [Hpos|Hz].
    + destruct (lo_commit _ _ _ _ _ Hb) as (e2 & err & -> & Hc2); [lia|]. eexists _, _. split; [done|].
      destruct err; [done|]. eexists. by split.
    + destruct kvs as [|kv kvs]; [|rewrite len_cons in Hz; zlia]. exists e1, None. split; [done|].
      exists m. split; [by eapply lo_drop|done].
Qed.
End Load.

(** What one entry costs a store. *)
Definition loadCost (vb : Z) : Z := 40 + vb.

Definition entry_sized (vb : Z) (kv : bytes * bytes) : Prop := len kv.1 = 16 /\ len kv.2 = vb.

Lemma put_ops_cost vb kvs : Forall (entry_sized vb) kvs -> ops_cost (put_ops kvs) = len kvs * loadCost vb.
Proof.
  induction 1 as [|[k v] kvs [Hk Hv] _ IH]; [done|].
  change (put_ops ((k, v) :: kvs)) with (PutOp k v :: put_ops kvs). cbn [ops_cost foldr]. unfold ops_cost in IH.
  rewrite IH, len_cons. unfold op_cost, loadCost. cbn in *. lia.
Qed.

(** A store loads as many entries as its byte budget has room for. *)
#[global] Instance store_loads {E B I} `{StoreEngine E B I} vb : Loads vb E B I.
Proof.
  refine {| lo_rep n e m := 0 <= vb /\ exists b, kv_rep e m b /\ b + Z.of_nat n * loadCost vb <= kv_budget;
            lo_batch n e m b kvs := se_ops b = put_ops kvs /\ Forall (entry_sized vb) kvs /\ 0 <= vb /\
              exists spent, kv_rep e m spent /\ spent + (len kvs + Z.of_nat n) * loadCost vb <= kv_budget;
            lo_err _ := False |}.
  - intros n e m (Hv & b & Hr & Hb). rewrite se_newBatch. split_and!; [done|constructor|done|]. eauto.
  - intros n e m b kvs k v (Ho & Hf & Hv & sp & Hr & Hb) Hk Hl.
    destruct (se_batchPut e b k v) as (b' & -> & Hb'). rewrite Hb', Ho, put_ops_snoc. split_and!; [done| |done|].
    + apply Forall_app. split; [done|]. by repeat constructor.
    + exists sp. split; [done|]. rewrite len_app. change (len [(k, v)]) with 1. lia.
  - intros n e m b kvs (Ho & _). rewrite se_batchLen, Ho. unfold put_ops, len. by rewrite length_fmap.
  - intros n e m b (_ & _ & Hv & sp & Hr & Hb). split; [done|]. exists sp. split; [done|]. change (len []) with 0 in Hb. lia.
  - intros n e m b kvs (Ho & Hf & Hv & sp & Hr & Hb) _. rewrite se_commit, Ho.
    pose proof (put_ops_cost vb kvs Hf) as Hcost. assert (0 <= loadCost vb) by (unfold loadCost; lia).
    destruct (kv_apply_spec e m sp (put_ops kvs) Hr) as (e' & -> & Hr'); [nia|].
    cbn [obind]. exists e', None. split; [done|]. split; [done|]. eexists. split; [exact Hr'|]. nia.
Defined.

Lemma loadDataset_spec {E B I} `{StoreEngine E B I} pow oob k (e : E) c :
  kv_rep e ∅ 0 -> 1 <= Cardinality c -> 0 <= ValueBytes c ->
  (Cardinality c + Z.of_nat k) * loadCost (ValueBytes c) <= kv_budget ->
  exists e' m b, loadDataset pow oob e c = Ok (e', None) /\ kv_rep e' m b /\
    filled (ValueBytes c) (Cardinality c) m /\ b + Z.of_nat k * loadCost (ValueBytes c) <= kv_budget.
Proof.
  intros Hrep Hc Hv Hbud. assert (Cardinality c < 2 ^ 64) by (unfold loadCost, kv_budget in Hbud; nia).
  destruct (loadDataset_loads (ValueBytes c) pow oob k e c) as (e' & err & Hl & He); try done.
  { split; [done|]. exists 0. split; [done|]. rewrite Nat2Z.inj_add, Z2Nat.id by lia. lia. }
  destruct err; [done|]. destruct He as (m & (_ & b & Hr & Hb) & Hf). by exists e', m, b.
Qed.

(** ** The measured phase: accounting *)

Definition op_reads (op : Op) : Z :=
  match Kind op with OpRead | OpScan | OpRMW => 1 | _ => 0 end.
Definition op_writes (op : Op) : Z :=
  match Kind op with OpUpdate | OpInsert | OpDelete | OpRMW => 1 | _ => 0 end.

Definition sumZ (l : list Z) : Z := foldr Z.add 0 l.

Lemma sumZ_app a b : sumZ (a ++ b) = sumZ a + sumZ b.
Proof. induction a as [|x a IH]; simpl; lia. Qed.

Lemma sumZ_insert {A} (f : A -> Z) l i x y :
  l !! i = Some x -> sumZ (f <$> <[i:=y]> l) = sumZ (f <$> l) + f y - f x.
Proof.
  revert i. induction l as [|a l IH]; intros [|i] Hi; simpl in *; try done.
  - injection Hi as ->. lia.
  - change (f a + sumZ (f <$> <[i:=y]> l) = f a + sumZ (f <$> l) + f y - f x). rewrite (IH i Hi). lia.
Qed.

Definition reads_of (ops : list Op) : Z := sumZ (op_reads <$> ops).
Definition writes_of (ops : list Op) : Z := sumZ (op_writes <$> ops).

Lemma reads_of_snoc ops op : reads_of (ops ++ [op]) = reads_of ops + op_reads op.
Proof. unfold reads_of. rewrite fmap_app, sumZ_app. simpl. lia. Qed.
Lemma writes_of_snoc ops op : writes_of (ops ++ [op]) = writes_of ops + op_writes op.
Proof. unfold writes_of. rewrite fmap_app, sumZ_app. simpl. lia. Qed.

Section Measured.
Context {E B I : Type} `{Engine E B I}.
Context (pow : float64 -> float64 -> float64) (oob : float64 -> Z).

Lemma stream_snoc n : forall g0 ops g op g',
  stream pow oob n g0 = Ok (ops, g) -> Next pow oob g = Ok (op, g') ->
  stream pow oob (S n) g0 = Ok (ops ++ [op], g').
Proof.
  induction n as [|n IH]; intros g0 ops g op g' Hs Hn.
  - cbn [stream] in Hs. injection Hs as <- <-. cbn [stream]. by rewrite Hn.
  - cbn [stream] in Hs. apply obind_ok in Hs as ([op0 g1] & H1 & Hs).
    apply obind_ok in Hs as ([ops1 g2] & H2 & [= <- <-]).
    specialize (IH _ _ _ _ _ H2 Hn). remember (S n) as n1. cbn [stream]. rewrite H1. cbn [obind].
    by rewrite IH.
Qed.

(** A client that has run [ops], with latencies [xs]. *)
Record cinv (per : nat) (g0 : Generator) (ops : list Op) (xs : list Z) (c : client) : Prop := {
  ci_left : (length ops + cl_left c)%nat = per;
  ci_hist : cl_hist c = hist_of xs;
  ci_len : length xs = length ops;
  ci_samples : samples xs;
  ci_stream : exists g, stream pow oob (length ops) g0 = Ok (ops, g) /\
    match cl_pending c with
    | None => cl_gen c = g
    | Some _ => (0 < cl_left c)%nat /\
        exists op, Kind op = OpRMW /\ Next pow oob g = Ok (op, cl_gen c)
    end }.

(** The end of an operation adds it and its latency. *)
Lemma cinv_finish per g0 ops xs c g op g' c' ns :
  cinv per g0 ops xs c -> (0 < cl_left c)%nat -> stream pow oob (length ops) g0 = Ok (ops, g) ->
  Next pow oob g = Ok (op, g') -> is_u64 ns -> finish c g' ns = Ok c' ->
  cinv per g0 (ops ++ [op]) (xs ++ [ns]) c'.
Proof.
  intros [Hl Hh Hx Hsm _] Hpos Hs Hn Hns Hf. unfold finish in Hf. rewrite Hh, Record_hist in Hf by done.
  cbn [obind] in Hf. injection Hf as <-. split; cbn [cl_left cl_hist cl_pending cl_gen].
  - rewrite length_app. simpl. lia.
  - done.
  - rewrite !length_app. simpl. lia.
  - apply Forall_app. split; [done|]. by constructor.
  - exists g'. split; [|done]. rewrite length_app, Nat.add_1_r. by eapply stream_snoc.
Qed.

Lemma clientStep_inv per g0 ops xs (e e' : E) c c' ns r w :
  cinv per g0 ops xs c -> is_u64 ns -> clientStep pow oob e c ns = Ok (e', c', r, w) ->
  exists ops' xs', cinv per g0 ops' xs' c' /\
    reads_of ops' = reads_of ops + r /\ writes_of ops' = writes_of ops + w.
Proof.
  intros Hc Hns Hst. unfold clientStep in Hst. pose proof Hc as [_ _ _ _ (g & Hs & Hp)].
  destruct (cl_pending c) as [[k v]|] eqn:Ep.
  - destruct Hp as (Hpos & op & Hk & Hn).
    apply obind_ok in Hst as (e1 & _ & Hst). apply obind_ok in Hst as (c1 & Hf & [= <- <- <- <-]).
    exists (ops ++ [op]), (xs ++ [ns]). split; [by eapply cinv_finish|].
    rewrite reads_of_snoc, writes_of_snoc. unfold op_reads, op_writes. by rewrite Hk.
  - destruct (cl_left c) as [|left] eqn:El.
    { injection Hst as <- <- <- <-. exists ops, xs. split; [done|]. lia. }
    apply obind_ok in Hst as ([op g'] & Hn & Hst). rewrite Hp in Hn.
    assert (forall c1, finish c g' ns = Ok c1 -> cinv per g0 (ops ++ [op]) (xs ++ [ns]) c1) as Hfin.
    { intros c1 Hf. eapply cinv_finish; try done. lia. }
    assert (reads_of (ops ++ [op]) = reads_of ops + op_reads op /\
            writes_of (ops ++ [op]) = writes_of ops + op_writes op) as [Hr Hw]
      by (split; [apply reads_of_snoc|apply writes_of_snoc]).
    unfold op_reads, op_writes in Hr, Hw. destruct (Kind op) eqn:Ek;
      apply obind_ok in Hst as (x & _ & Hst); try destruct x as [e1 x];
      try (apply obind_ok in Hst as (c1 & Hf & [= <- <- <- <-]); exists (ops ++ [op]), (xs ++ [ns]); eauto).
    + apply obind_ok in Hst as (y & _ & Hst). apply obind_ok in Hst as (c1 & Hf & [= <- <- <- <-]).
      exists (ops ++ [op]), (xs ++ [ns]); eauto.
    + injection Hst as <- <- <- <-. exists ops, xs. split; [|lia].
      destruct Hc as [Hl Hh Hx Hsm _]. split; cbn [cl_left cl_hist cl_pending cl_gen]; try done.
      { by rewrite El in Hl. }
      exists g. split; [done|]. split; [lia|]. by exists op.
Qed.

(** The whole state: what each client has run, and the shared counters. *)
Definition track : Type := Generator * list Op * list Z.
Definition tr_gen (t : track) : Generator := t.1.1.
Definition tr_ops (t : track) : list Op := t.1.2.
Definition tr_lat (t : track) : list Z := t.2.

Definition tracks (per : nat) (ts : list track) (s : mstate (E := E)) : Prop :=
  Forall2 (fun t c => cinv per (tr_gen t) (tr_ops t) (tr_lat t) c) ts (ms_clients s) /\
  ms_reads s = wrap64 (sumZ ((fun t => reads_of (tr_ops t)) <$> ts)) /\
  ms_writes s = wrap64 (sumZ ((fun t => writes_of (tr_ops t)) <$> ts)).

Lemma stepAt_tracks per ts s s' i ns :
  tracks per ts s -> is_u64 ns -> stepAt pow oob s i ns = Ok s' ->
  exists ts', tracks per ts' s' /\ tr_gen <$> ts' = tr_gen <$> ts.
Proof.
  intros (Hc & Hr & Hw) Hns Hst. unfold stepAt in Hst.
  destruct (ms_clients s !! i) as [c|] eqn:Ei; [|injection Hst as <-; by exists ts].
  apply obind_ok in Hst as ([[[e' c'] r] w] & Hcs & [= <-]).
  destruct (Forall2_lookup_r _ _ _ _ _ Hc Ei) as (t & Hti & Hinv).
  destruct (clientStep_inv _ _ _ _ _ _ _ _ _ _ _ Hinv Hns Hcs) as (ops' & xs' & Hinv' & Hr' & Hw').
  exists (<[i := (tr_gen t, ops', xs')]> ts). split.
  - unfold tracks. cbn [ms_clients ms_reads ms_writes].
    rewrite !(sumZ_insert _ _ _ _ _ Hti), Hr, Hw, !wrap64_add_l.
    change (tr_ops (tr_gen t, ops', xs')) with ops'.
    rewrite Hr', Hw'. split_and!; [by apply Forall2_insert|f_equal; lia|f_equal; lia].
  - rewrite list_fmap_insert. apply list_insert_id. by rewrite list_lookup_fmap, Hti.
Qed.

Lemma runSchedule_tracks per sched : forall ts s s',
  tracks per ts s -> Forall (fun '(_, ns) => is_u64 ns) sched -> runSchedule pow oob s sched = Ok s' ->
  exists ts', tracks per ts' s' /\ tr_gen <$> ts' = tr_gen <$> ts.
Proof.
  induction sched as [|[i ns] sched IH]; intros ts s s' Ht Hs Hrun; cbn [runSchedule] in Hrun.
  { injection Hrun as <-. by exists ts. }
  apply Forall_cons in Hs as [Hns Hs]. apply obind_ok in Hrun as (s1 & H1 & Hrun).
  destruct (stepAt_tracks _ _ _ _ _ _ Ht Hns H1) as (ts1 & Ht1 & Hg1).
  destruct (IH _ _ _ Ht1 Hs Hrun) as (ts2 & Ht2 & Hg2). exists ts2. split; [done|congruence].
Qed.
End Measured.

Lemma mergeAll_hist xss : forall h ys,
  Forall (fun xs => len xs < 2 ^ 64) xss -> same_but_sum h (hist_of ys) ->
  exists h', mergeAll h (hist_of <$> xss) = Ok h' /\ same_but_sum h' (hist_of (ys ++ concat xss)).
Proof.
  induction xss as [|xs xss IH]; intros h ys Hl Hh.
  { exists h. split; [done|]. cbn [concat]. by rewrite app_nil_r. }
  apply Forall_cons in Hl as [Hx Hl]. rewrite fmap_cons. cbn [mergeAll].
  destruct (Merge_hist ys xs Hx) as (h1 & Hm1 & Hs1).
  destruct (Merge_same _ _ _ _ Hh Hm1) as (h2 & -> & Hs2). cbn [obind].
  destruct (IH h2 (ys ++ xs) Hl) as (h3 & -> & Hs3); [by etrans|].
  exists h3. split; [done|]. cbn [concat]. by rewrite app_assoc.
Qed.

Section Accounting.
Context {E B I : Type} `{Engine E B I}.
Context (pow : float64 -> float64 -> float64) (oob : float64 -> Z).

(** What client [i] of a cell runs: the whole of its stream. *)
Definition client_ran (c : CellConfig) (per : Z) (i : nat) (t : track) : Prop :=
  NewGenerator pow (CellWorkload c) (CellSeed c +64 1) (Z.of_nat i) (Cardinality c) (ValueBytes c)
    = Ok (tr_gen t) /\
  (exists g', stream pow oob (Z.to_nat per) (tr_gen t) = Ok (tr_ops t, g')) /\
  length (tr_lat t) = Z.to_nat per.

Lemma newClients_tracks c per ids cls :
  newClients pow c per ids = Ok cls ->
  exists ts, Forall2 (fun t cl => cinv pow oob (Z.to_nat per) (tr_gen t) (tr_ops t) (tr_lat t) cl) ts cls /\
    Forall (fun t => tr_ops t = []) ts /\
    Forall2 (fun i t => NewGenerator pow (CellWorkload c) (CellSeed c +64 1) (Z.of_nat i) (Cardinality c)
      (ValueBytes c) = Ok (tr_gen t)) ids ts.
Proof.
  revert cls. induction ids as [|i ids IH]; intros cls Hn; cbn [newClients] in Hn.
  { injection Hn as <-. exists []. split_and!; constructor. }
  apply obind_ok in Hn as (cl & Hc & Hn). apply obind_ok in Hn as (rest & Hr & [= <-]).
  unfold newClient in Hc. apply obind_ok in Hc as (g & Hg & [= <-]).
  destruct (IH _ Hr) as (ts & H1 & H2 & H3). exists ((g, [], []) :: ts).
  split_and!; constructor; try assumption; try reflexivity.
  split; [reflexivity|exact New_hist|reflexivity|constructor|by exists g].
Qed.

Lemma perClientOps_range c per :
  is_u64 (Operations c) -> perClientOps c = Ok per -> 1 <= per < 2 ^ 64.
Proof.
  intros Ho. unfold perClientOps. destruct (Z.eqb_spec (wrap64 (Concurrency c)) 0); [done|].
  pose proof (wrap64_range (Concurrency c)) as Hw. unfold is_u64 in *. intros [= <-].
  assert (0 <= Operations c / wrap64 (Concurrency c)) by (apply Z.div_pos; lia).
  assert (Operations c / wrap64 (Concurrency c) <= Operations c) by (apply Z.div_le_upper_bound; nia).
  case_zcmp; lia.
Qed.

Lemma sumZ_zero {A} (f : A -> Z) l : Forall (fun x => f x = 0) l -> sumZ (f <$> l) = 0.
Proof. induction 1 as [|x l Hx _ IH]; [done|]. rewrite fmap_cons. simpl. rewrite Hx, IH. done. Qed.

Lemma tracks_init (e : E) c per ids cls :
  newClients pow c per ids = Ok cls ->
  exists ts, tracks pow oob (Z.to_nat per) ts (MkMstate e 0 0 cls) /\
    Forall2 (fun i t => NewGenerator pow (CellWorkload c) (CellSeed c +64 1) (Z.of_nat i) (Cardinality c)
      (ValueBytes c) = Ok (tr_gen t)) ids ts.
Proof.
  intros Hn. destruct (newClients_tracks _ _ _ _ Hn) as (ts & Hinv & Hnil & Hgen). exists ts. split; [|done].
  split_and!; [done|..]; cbn [ms_reads ms_writes]; rewrite sumZ_zero; try done;
    (eapply Forall_impl; [exact Hnil|]; simpl; by intros t ->).
Qed.

(** Merging the clients' histograms. *)
Lemma tracks_merge per ts (s : mstate (E := E)) :
  tracks pow oob per ts s -> Z.of_nat per < 2 ^ 64 ->
  exists h, mergeAll New (cl_hist <$> ms_clients s) = Ok h /\
    same_but_sum h (hist_of (concat (tr_lat <$> ts))).
Proof.
  intros (Hinv & _ & _) Hper.
  assert (cl_hist <$> ms_clients s = hist_of <$> (tr_lat <$> ts)) as ->.
  { clear -Hinv. induction Hinv as [|t cl ts cls Hc _ IH]; [done|]. rewrite !fmap_cons, IH. f_equal. apply Hc. }
  apply (mergeAll_hist (tr_lat <$> ts) New []).
  - apply Forall_fmap. eapply Forall2_Forall_l; [exact Hinv|]. apply Forall_forall. intros cl _ t Hc.
    destruct Hc as [Hl _ Hx _ _]. unfold len. simpl. lia.
  - by rewrite New_hist.
Qed.

Lemma runMeasured_accounting (e e' : E) c sched h reads writes :
  is_u64 (Operations c) -> Forall (fun '(_, ns) => is_u64 ns) sched ->
  runMeasured pow oob e c sched = Done (e', (h, reads, writes)) ->
  exists per ts, perClientOps c = Ok per /\
    Forall2 (client_ran c per) (seq 0 (Z.to_nat (Concurrency c))) ts /\
    reads = wrap64 (sumZ ((fun t => reads_of (tr_ops t)) <$> ts)) /\
    writes = wrap64 (sumZ ((fun t => writes_of (tr_ops t)) <$> ts)) /\
    same_but_sum h (hist_of (concat (tr_lat <$> ts))).
Proof.
  intros Ho Hsch Hrun. unfold runMeasured in Hrun. destruct (perClientOps c) as [per| |] eqn:Eper; [|done..].
  pose proof (perClientOps_range _ _ Ho Eper) as Hper.
  destruct (Concurrency c <? 0); [done|].
  destruct (newClients pow c per _) as [cls| |] eqn:Ecl; [|done..].
  destruct (tracks_init e _ _ _ _ Ecl) as (ts0 & Ht0 & Hgen0).
  destruct (runSchedule pow oob _ sched) as [s| |] eqn:Erun; [|done..].
  destruct (runSchedule_tracks _ _ _ _ _ _ _ Ht0 Hsch Erun) as (ts & Hts & Hgen).
  pose proof Hts as (Hinv & Hr & Hw). destruct (allDone s) eqn:Ed; [|done].
  apply Is_true_true, forallb_True in Ed.
  assert (Forall2 (fun t cl => cinv pow oob (Z.to_nat per) (tr_gen t) (tr_ops t) (tr_lat t) cl /\
    clientDone cl = true) ts (ms_clients s)) as Hall.
  { clear -Hinv Ed. induction Hinv as [|t cl ts cls Hc _ IH]; constructor.
    - apply Forall_cons in Ed as [Ed _]. split; [done|by apply Is_true_true].
    - apply IH. by apply Forall_cons in Ed as [_ Ed]. }
  destruct (tracks_merge _ _ _ Hts) as (h' & Hm & Hs); [lia|].
  rewrite Hm in Hrun. injection Hrun as <- <- <- <-. exists per, ts. split_and!; [done| |done..].
  assert (Forall2 (fun i t => NewGenerator pow (CellWorkload c) (CellSeed c +64 1) (Z.of_nat i) (Cardinality c)
      (ValueBytes c) = Ok (tr_gen t)) (seq 0 (Z.to_nat (Concurrency c))) ts) as Hgen1.
  { clear -Hgen0 Hgen. revert ts Hgen. induction Hgen0 as [|i t0 ids ts0 Ht _ IH]; intros [|t ts] Hg; try done.
    rewrite !fmap_cons in Hg. injection Hg as Hg1 Hg2. constructor; [by rewrite Hg1|by apply IH]. }
  apply Forall2_same_length_lookup_2; [by apply Forall2_length in Hgen1|].
  intros i j t Hi Hti. destruct (Forall2_lookup_l _ _ _ _ _ Hall Hti) as (cl & Hcl & [Hle Hhi Hx _ (g & Hst & Hp)] & Hd).
  split_and!; [by eapply Forall2_lookup_lr in Hgen1| |].
  - unfold clientDone in Hd. destruct (cl_left cl); [|done]. rewrite Nat.add_0_r in Hle. subst. rewrite <- Hle. eauto.
  - unfold clientDone in Hd. destruct (cl_left cl); [|done]. lia.
Qed.
End Accounting.

(** ** The measured phase: progress *)

(** What the measured phase asks of an engine: while [su_ok n e] it can take [n]
    more writes of a key of 16 bytes and a value of [vb] bytes, and its calls
    return. *)
Class Sustains (vb : Z) (E B I : Type) `{Engine E B I} := {
  su_ok : nat -> E -> Prop;
  su_less n e : su_ok (S n) e -> su_ok n e;
  su_get n e k : su_ok n e -> len k = 16 -> exists e' v, e_get e k = Ok (e', v) /\ su_ok n e';
  su_put n e k v : su_ok (S n) e -> len k = 16 -> len v = vb -> exists e', e_put e k v = Ok e' /\ su_ok n e';
  su_delete n e k : su_ok n e -> len k = 16 -> exists e', e_delete e k = Ok e' /\ su_ok n e';
  su_iter : I -> Prop;
  su_scan n e k : su_ok n e -> len k = 16 -> exists e' it, e_scan e k = Ok (e', it) /\ su_ok n e' /\ from_option su_iter True it;
  su_next n e it : su_ok n e -> su_iter it -> exists more it', e_next e it = Ok (more, it') /\ su_iter it' }.

(** A store sustains as many writes as its byte budget has room for. *)
#[global] Instance store_sustains {E B I} `{StoreEngine E B I} vb : Sustains vb E B I.
Proof.
  refine {| su_ok n e := 0 <= vb /\ exists m b, kv_rep e m b /\ b + Z.of_nat n * loadCost vb <= kv_budget;
            su_iter := se_iter |}.
  - intros n e (Hvb & m & b & Hr & Hb). split; [done|]. exists m, b. split; [done|]. unfold loadCost in *. nia.
  - intros n e k (Hvb & m & b & Hr & Hb) _. rewrite se_get, (kv_get_spec _ _ _ _ Hr). cbn [obind]. eauto 8.
  - intros n e k v (Hvb & m & b & Hr & Hb) Hk Hv. rewrite se_put.
    assert (op_cost (PutOp k v) = loadCost vb) as Hcost by (unfold op_cost, loadCost; simpl; lia).
    rewrite Nat2Z.inj_succ in Hb. unfold loadCost in *.
    destruct (kv_put_spec e m b k v Hr) as (e' & He & Hr'); [nia|].
    exists e'. split; [done|]. split; [done|]. eexists _, _. split; [exact Hr'|nia].
  - intros n e k (Hvb & m & b & Hr & Hb) _. rewrite se_delete.
    destruct (kv_delete_spec e m b k Hr) as (e' & He & Hr'). exists e'. split; [done|]. split; [done|]. eauto.
  - intros n e k He _. destruct (se_scan e k) as (it & -> & Hit). eauto.
  - intros n e it _. apply se_next.
Defined.

Section Progress.
Context (vb : Z) {E B I : Type} `{Sustains vb E B I}.
Context (pow : float64 -> float64 -> float64) (oob : float64 -> Z).

(** A client between two steps. *)
Record cl_ok (c : client) : Prop := {
  co_gen : gen_ok (cl_gen c);
  co_vals : valBytes (cl_gen c) = vb;
  co_hist : exists xs, cl_hist c = hist_of xs;
  co_pending : forall k v, cl_pending c = Some (k, v) ->
    (0 < cl_left c)%nat /\ len k = 16 /\ len v = vb }.

(** Steps left, at most. *)
Definition todo (c : client) : nat :=
  match cl_pending c with None => 2 * cl_left c | Some _ => 2 * cl_left c - 1 end.

Lemma rmwValue_len v val : len (rmwValue v val) = len val.
Proof. by destruct v as [[|b v]|], val. Qed.

Lemma scanLoop_ok n (e : E) left : su_ok n e -> forall it, su_iter it -> scanLoop left e it = Ok tt.
Proof using All.
  intros He. induction left as [|left IH]; intros it Hit; cbn [scanLoop];
    destruct (su_next n e it He Hit) as (more & it' & -> & Hit'); cbn [obind]; destruct more; auto.
Qed.

Lemma finish_ok c g ns :
  cl_ok c -> is_u64 ns -> gen_ok g -> valBytes g = vb -> (0 < cl_left c)%nat ->
  exists c', finish c g ns = Ok c' /\ cl_ok c' /\ cl_left c' = pred (cl_left c) /\ cl_pending c' = None.
Proof.
  intros [_ _ [xs Hh] _] Hns Hg Hv Hl. unfold finish. rewrite Hh, Record_hist by done. cbn [obind].
  eexists. split; [done|]. split; [|done]. split; try done. by eexists.
Qed.

Lemma clientStep_ok n (e : E) c ns :
  su_ok (S n) e -> cl_ok c -> is_u64 ns ->
  exists e' c' r w, clientStep pow oob e c ns = Ok (e', c', r, w) /\ su_ok n e' /\
    cl_ok c' /\ (todo c' <= pred (todo c))%nat.
Proof using All.
  intros Hrep Hc Hns. pose proof Hc as [Hg Hv Hh Hp]. pose proof (su_less n e Hrep) as Hless.
  unfold clientStep, todo. destruct (cl_pending c) as [[k v]|] eqn:Ep.
  - destruct (Hp k v eq_refl) as (Hl & Hk & Hvl).
    destruct (su_put n e k v Hrep Hk Hvl) as (e' & -> & Hr). cbn [obind].
    destruct (finish_ok c (cl_gen c) ns Hc Hns Hg Hv Hl) as (c' & -> & Hc' & Hl' & Hp'). cbn [obind].
    eexists _, _, _, _. split; [done|]. split_and!; [done..|]. rewrite Hp'. lia.
  - destruct (cl_left c) as [|left] eqn:El.
    { eexists _, _, _, _. split; [done|]. split_and!; [done..|]. rewrite Ep, El. done. }
    destruct (Next_spec pow oob (cl_gen c) Hg) as (op & g & -> & Ha & [(idx & Hk & _) Hvl Hsc]). cbn [obind].
    assert (len (Key op) = 16) as Hk16 by (by rewrite Hk, EncodeKey_len). rewrite Hv in Hvl.
    pose proof (advanced_ok _ _ Ha Hg) as Hg'. pose proof (advanced_valBytes _ _ Ha) as Hv'. rewrite Hv in Hv'.
    destruct (finish_ok c g ns Hc Hns Hg' Hv' ltac:(lia)) as (c' & Hf & Hc' & Hl' & Hp').
    rewrite El in Hl'. cbn [pred] in Hl'.
    destruct (Kind op).
    + destruct (su_get n e (Key op) Hless Hk16) as (e' & v & -> & He'). cbn [obind]. rewrite Hf. cbn [obind].
      eexists _, _, _, _. split; [done|]. split_and!; [done..|]. rewrite Hp'. lia.
    + destruct (su_put n e _ _ Hrep Hk16 Hvl) as (e' & -> & Hr). cbn [obind].
      rewrite Hf. cbn [obind]. eexists _, _, _, _. split; [done|]. split_and!; [done..|]. rewrite Hp'. lia.
    + destruct (su_put n e _ _ Hrep Hk16 Hvl) as (e' & -> & Hr). cbn [obind].
      rewrite Hf. cbn [obind]. eexists _, _, _, _. split; [done|]. split_and!; [done..|]. rewrite Hp'. lia.
    + destruct (su_scan n e (Key op) Hless Hk16) as (e' & it & -> & He' & Hit). cbn [obind].
      assert (match it with Some it => scanLoop (Z.to_nat (ScanLen op)) e' it | None => Ok tt end = Ok tt) as ->
        by (destruct it; [by eapply scanLoop_ok|done]).
      cbn [obind]. rewrite Hf. cbn [obind]. eexists _, _, _, _. split; [done|].
      split_and!; [done..|]. rewrite Hp'. lia.
    + destruct (su_get n e (Key op) Hless Hk16) as (e' & x & -> & He'). cbn [obind].
      eexists _, _, _, _. split; [done|]. split_and!; [done| |].
      * split; try done. cbn [cl_pending cl_left]. intros k v [= <- <-]. rewrite rmwValue_len. split_and!; [lia|done..].
      * cbn [cl_pending cl_left]. lia.
    + destruct (su_delete n e (Key op) Hless Hk16) as (e' & -> & Hr). cbn [obind].
      rewrite Hf. cbn [obind]. eexists _, _, _, _. split; [done|]. split_and!; [done..|]. rewrite Hp'. lia.
Qed.

(** How often a schedule runs client [i]. *)
Definition turns (i : nat) (sched : list (nat * Z)) : nat := length (filter (fun p => p.1 = i) sched).

Lemma turns_cons i j ns sched :
  turns i ((j, ns) :: sched) = ((if decide (j = i) then 1 else 0) + turns i sched)%nat.
Proof. unfold turns. rewrite filter_cons. simpl. by case_decide. Qed.

Lemma runSchedule_ok sched : forall (s : mstate (E := E)),
  su_ok (length sched) (ms_eng s) -> Forall cl_ok (ms_clients s) ->
  Forall (fun '(_, ns) => is_u64 ns) sched ->
  exists s', runSchedule pow oob s sched = Ok s' /\ su_ok 0 (ms_eng s') /\
    Forall cl_ok (ms_clients s') /\ length (ms_clients s') = length (ms_clients s) /\
    forall i c', ms_clients s' !! i = Some c' -> exists c, ms_clients s !! i = Some c /\
      (todo c' <= todo c - turns i sched)%nat.
Proof using All.
  induction sched as [|[j ns] sched IH]; intros s Hrep Hcl Hns.
  { exists s. split_and!; [done..|]. intros i c' Hc'. exists c'. split; [done|]. unfold turns. simpl. lia. }
  apply Forall_cons in Hns as [Hn Hns]. cbn [length] in Hrep.
  cbn [runSchedule]. unfold stepAt. destruct (ms_clients s !! j) as [c|] eqn:Ej.
  - pose proof (Forall_lookup_1 _ _ _ _ Hcl Ej) as Hc.
    destruct (clientStep_ok _ (ms_eng s) c ns Hrep Hc Hn) as
      (e' & c' & r & w & -> & Hrep1 & Hc1 & Htodo). cbn [obind].
    destruct (IH (MkMstate e' (ms_reads s +64 r) (ms_writes s +64 w) (<[j:=c']> (ms_clients s))))
      as (s2 & -> & Hrep2 & Hcl2 & Hlen2 & Htodo2); cbn [ms_eng ms_clients] in *; try done.
    { by apply Forall_insert. }
    exists s2. rewrite length_insert in Hlen2. split_and!; [done..|].
    intros i x Hx. destruct (Htodo2 i x Hx) as (y & Hy & Hle). rewrite turns_cons.
    apply list_lookup_insert_Some in Hy as [(-> & <- & _)|[Hne Hy]].
    + exists c. split; [done|]. rewrite decide_True by done. lia.
    + exists y. split; [done|]. rewrite decide_False by done. lia.
  - cbn [obind]. destruct (IH s (su_less _ _ Hrep) Hcl Hns) as (s2 & -> & Hr2 & Hc2 & Hl2 & Ht2).
    exists s2. split_and!; [done..|]. intros i x Hx. destruct (Ht2 i x Hx) as (y & Hy & Hle).
    exists y. split; [done|]. rewrite turns_cons, decide_False; [done|]. intros ->. congruence.
Qed.

Lemma newClients_ok c per ids :
  ValueBytes c = vb -> 1 <= Cardinality c < 2 ^ 64 -> (SpecDist (CellWorkload c) = DistZipfian -> 2 <= Cardinality c) ->
  0 <= ValueBytes c ->
  exists cls, newClients pow c per ids = Ok cls /\ Forall cl_ok cls /\
    length cls = length ids /\ Forall (fun cl => todo cl = (2 * Z.to_nat per)%nat) cls.
Proof.
  intros Hcv Hk Hz Hv. induction ids as [|i ids (cls & Hn & Hcl & Hl & Ht)]; cbn [newClients].
  { exists []. split_and!; try done; constructor. }
  unfold newClient.
  destruct (NewGenerator_ok pow (CellWorkload c) (CellSeed c +64 1) (Z.of_nat i) (Cardinality c) (ValueBytes c))
    as (g & -> & Hg & _ & _ & Hvb & _); [done..|]. cbn [obind]. rewrite Hn. cbn [obind].
  eexists. split; [done|]. split_and!; [|simpl; lia|]; constructor; try done.
  split; try done; [by rewrite <- Hcv|]. exists []. apply New_hist.
Qed.

(** Every client gets as many turns as it can need. *)
Definition fair (c : CellConfig) (per : Z) (sched : list (nat * Z)) : Prop :=
  forall i, (i < Z.to_nat (Concurrency c))%nat -> (2 * Z.to_nat per <= turns i sched)%nat.

Lemma runMeasured_live (e : E) c per sched :
  ValueBytes c = vb -> su_ok (length sched) e -> 1 <= Cardinality c < 2 ^ 64 ->
  (SpecDist (CellWorkload c) = DistZipfian -> 2 <= Cardinality c) -> 0 <= ValueBytes c ->
  1 <= Concurrency c -> is_u64 (Operations c) -> perClientOps c = Ok per ->
  Forall (fun '(_, ns) => is_u64 ns) sched -> fair c per sched ->
  exists e' h reads writes, runMeasured pow oob e c sched = Done (e', (h, reads, writes)) /\ su_ok 0 e'.
Proof using All.
  intros Hcv Hrep Hk Hz Hv Hconc Ho Hper Hns Hfair.
  pose proof (perClientOps_range _ _ Ho Hper) as Hpr. unfold runMeasured. rewrite Hper.
  destruct (Z.ltb_spec (Concurrency c) 0); [lia|].
  destruct (newClients_ok c per (seq 0 (Z.to_nat (Concurrency c))) Hcv Hk Hz Hv) as (cls & Hn & Hcl & Hl & Ht).
  rewrite Hn. rewrite length_seq in Hl.
  destruct (runSchedule_ok sched (MkMstate e 0 0 cls)) as (s & Hrun & Hrep' & Hcl' & Hl' & Ht'); try done.
  cbn [ms_clients] in *. rewrite Hrun.
  assert (allDone s = true) as Hd.
  { unfold allDone. apply forallb_forall. intros x Hin%list_elem_of_In.
    apply list_elem_of_lookup in Hin as [i Hi]. destruct (Ht' i x Hi) as (y & Hy & Hle).
    pose proof (Forall_lookup_1 _ _ _ _ Ht Hy) as Hty. simpl in Hty.
    pose proof (Forall_lookup_1 _ _ _ _ Hcl' Hi) as [_ _ _ Hpend].
    assert (todo x = 0)%nat as Hz0.
    { specialize (Hfair i). apply lookup_lt_Some in Hy. lia. }
    unfold todo in Hz0. unfold clientDone. destruct (cl_pending x) as [[k v]|].
    - destruct (Hpend k v eq_refl) as (? & _). lia.
    - by destruct (cl_left x). }
  rewrite Hd.
  destruct (tracks_init pow oob e _ _ _ _ Hn) as (ts0 & Ht0 & _).
  destruct (runSchedule_tracks _ _ _ _ _ _ _ Ht0 Hns Hrun) as (ts & Ht1 & _).
  destruct (tracks_merge pow oob _ _ _ Ht1) as (h' & -> & _); [lia|].
  eexists _, _, _, _. by split.
Qed.
End Progress.

(** ** The size of a directory *)

(** The sizes of the files of a tree and the errors of its walk, in the walk's
    order. *)
Fixpoint files (t : entry) : list Z :=
  match t with File size => [size] | Dir (inl ts) => ts ≫= files | _ => [] end.
Fixpoint errors (t : entry) : list string :=
  match t with Unstatable err | Dir (inr err) => [err] | Dir (inl ts) => ts ≫= errors | File _ => [] end.

Section EntryInd.
Context (P : entry -> Prop).
Context (Hu : forall err, P (Unstatable err)) (Hf : forall size, P (File size)) (He : forall err, P (Dir (inr err))).
Context (Hd : forall ts, Forall P ts -> P (Dir (inl ts))).

Fixpoint entry_ind' (t : entry) : P t :=
  match t with
  | Unstatable err => Hu err
  | File size => Hf size
  | Dir (inr err) => He err
  | Dir (inl ts) =>
      Hd ts ((fix all (ts : list entry) : Forall P ts :=
        match ts with
        | [] => Forall_nil_2 P
        | t :: ts' => Forall_cons_2 P t ts' (entry_ind' t) (all ts')
        end) ts)
  end.
End EntryInd.

Lemma walk_spec t : forall total, exists n,
  walk total t = (n, head (errors t)) /\
  (errors t = [] -> n = foldl (fun a size => swrap64 (a + size)) total (files t)).
Proof.
  induction t as [err|size|err|ts IH] using entry_ind'; intros total; [by eexists..|].
  cbn [walk files errors]. revert total. induction IH as [|t ts Ht _ IHts]; intros total; [by eexists|].
  destruct (Ht total) as (n & -> & Hn). destruct (errors t) as [|err es] eqn:Ee; cbn [head].
  - destruct (IHts n) as (n' & -> & Hn'). exists n'. cbn. rewrite Ee. split; [done|]. intros Hes.
    rewrite (Hn' Hes), foldl_app. f_equal. by apply Hn.
  - exists n. cbn. rewrite Ee. done.
Qed.

Lemma swrap64_add_l a b : swrap64 (swrap64 a + b) = swrap64 (a + b).
Proof.
  unfold swrap64. replace ((a + 2 ^ 63) mod 2 ^ 64 - 2 ^ 63 + b + 2 ^ 63) with ((a + 2 ^ 63) mod 2 ^ 64 + b) by lia.
  rewrite Z.add_mod_idemp_l by lia. do 2 f_equal. lia.
Qed.

Lemma foldl_swrap l : forall total,
  is_i64 total -> foldl (fun a size => swrap64 (a + size)) total l = swrap64 (total + sumZ l).
Proof.
  induction l as [|x l IH]; intros total Ht; cbn [foldl];
    [change (sumZ []) with 0; by rewrite Z.add_0_r, swrap64_id|change (sumZ (x :: l)) with (x + sumZ l)].
  rewrite IH by apply swrap64_range. rewrite swrap64_add_l. f_equal. lia.
Qed.

(** [dirSize] is the sum of the sizes of all the files below, or the first error
    the walk meets. *)
Lemma dirSize_spec t :
  match errors t with
  | [] => dirSize t = (swrap64 (sumZ (files t)), None)
  | err :: _ => (dirSize t).2 = Some err
  end.
Proof.
  destruct (walk_spec t 0) as (n & Hw & Hn). unfold dirSize. rewrite Hw. destruct (errors t); [|done]. cbn.
  rewrite Hn by done. by rewrite foldl_swrap.
Qed.

(** ** RunCell *)

(** The layout runtime/metrics documents: one more bound than counts. *)
Definition gc_layout (sample : option gcHistogram) : Prop :=
  forall h, sample = Some h -> len (gh_Buckets h) = len (gh_Counts h) + 1.

Lemma gcP99Loop_ok oob bs target cs : forall i cum,
  0 <= i -> i + len cs + 1 <= len bs -> exists x, gcP99Loop oob cs bs i cum target = Ok x.
Proof.
  induction cs as [|c cs IH]; intros i cum Hi Hlen; cbn [gcP99Loop]; [by exists 0|].
  rewrite len_cons in Hlen. pose proof (len_nonneg cs). destruct (_ && _); [|apply IH; lia].
  destruct (index_in bs (i + 1)) as [x ->]; [lia|]. by eexists.
Qed.

Lemma gcMaxLoop_ok oob bs rs : forall i, i = len rs - 1 -> exists x, gcMaxLoop oob rs bs i = Ok x.
Proof.
  induction rs as [|c rs IH]; intros i Hi; cbn [gcMaxLoop]; [by exists 0|].
  rewrite len_cons in Hi. pose proof (len_nonneg rs). destruct (_ && _) eqn:Ec; [|apply IH; lia].
  apply andb_true_iff in Ec as [_ Hlt%Z.ltb_lt].
  destruct (index_in bs (i + 1)) as [x ->]; [lia|]. by eexists.
Qed.

Lemma readGC_ok oob sample : gc_layout sample -> exists s, readGC oob sample = Ok s.
Proof.
  intros Hl. destruct sample as [h|]; [|by eexists]. unfold readGC. specialize (Hl h eq_refl).
  destruct (_ >? _); [|by eexists].
  match goal with |- context [gcP99Loop _ _ _ _ _ ?t] =>
    destruct (gcP99Loop_ok oob (gh_Buckets h) t (gh_Counts h) 0 0) as [p ->]; [lia..|] end. cbn [obind].
  destruct (gcMaxLoop_ok oob (gh_Buckets h) (reverse (gh_Counts h)) (len (gh_Counts h) - 1)) as [q ->].
  { unfold len. by rewrite length_reverse. }
  cbn [obind]. by eexists.
Qed.

Section Supported.
Context (m : Meta).

(** The cell is one the driver runs rather than marks unsupported. *)
Definition supported (c : CellConfig) : Prop :=
  (NeedsScan (CellWorkload c) = true -> Ordered (MetaCaps m) = true) /\
  (Durability c = "FULL" -> networkClass (ClassOf m) = false).

Lemma supported_tests c :
  supported c ->
  NeedsScan (CellWorkload c) && negb (Ordered (MetaCaps m)) = false /\
  bool_decide (Durability c = "FULL") && networkClass (ClassOf m) = false.
Proof.
  intros [Hscan Hfull]. split.
  - destruct (NeedsScan (CellWorkload c)); [|done]. by rewrite Hscan.
  - case_bool_decide as Hd; [|done]. by rewrite Hfull.
Qed.

(** The hypotheses of a run, on the configuration and on the world. *)
Record playable (c : CellConfig) (w : world) (per : Z) : Prop := {
  rn_supported : supported c;
  rn_card : 1 <= Cardinality c < 2 ^ 64;
  rn_zipf : SpecDist (CellWorkload c) = DistZipfian -> 2 <= Cardinality c;
  rn_vals : 0 <= ValueBytes c;
  rn_conc : 1 <= Concurrency c;
  rn_ops : is_u64 (Operations c);
  rn_per : perClientOps c = Ok per;
  rn_lat : Forall (fun '(_, ns) => is_u64 ns) (w_sched w);
  rn_fair : fair c per (w_sched w);
  rn_mkdir : w_mkdir w = None;
  rn_gc : gc_layout (w_gcBefore w) /\ gc_layout (w_gcAfter w) }.

(** A run whose load and writes fit a store's byte budget. *)
Record runnable (c : CellConfig) (w : world) (per : Z) : Prop := {
  rn_playable : playable c w per;
  rn_budget : (Cardinality c + len (w_sched w)) * loadCost (ValueBytes c) <= kv_budget }.
End Supported.

Lemma concat_lengths per (ts : list (list Z)) :
  Forall (fun l => length l = per) ts -> length (concat ts) = (length ts * per)%nat.
Proof. induction 1 as [|l ts Hl _ IH]; [done|]. simpl. rewrite length_app, IH, Hl. done. Qed.

(** What a result says of its engine. *)
Definition cellEngine (c : CellConfig) (m : Meta) : ResEngine :=
  MkResEngine (MetaName m) (MetaFamily m) (MetaMode m) (ClassOf m) (MetaVersion m) (Profile c) (MetaCaps m).

(** The bytes on disk a result reports: the sum of the file sizes when the walk
    meets no error and the dataset is not empty, otherwise -1 for unknown. *)
Definition onDiskBytes (c : CellConfig) (t : entry) : Z :=
  match errors t with
  | [] => if logicalBytes c >? 0 then swrap64 (sumZ (files t)) else -1
  | _ => -1
  end.

Lemma amp_onDisk a st c t :
  ra_OnDiskBytes a = -1 ->
  ra_OnDiskBytes (writeAmp (spaceAmp a (dirSize t) (logicalBytes c)) st (logicalBytes c)) = onDiskBytes c t.
Proof.
  intros Ha. assert (ra_OnDiskBytes (spaceAmp a (dirSize t) (logicalBytes c)) = onDiskBytes c t) as Hs.
  { unfold onDiskBytes. pose proof (dirSize_spec t) as Hd. destruct (errors t).
    - rewrite Hd. unfold spaceAmp. by destruct (logicalBytes c >? 0).
    - destruct (dirSize t) as [n e]. cbn in Hd. by subst e. }
  unfold writeAmp. destruct st as [s|]; [|done]. by destruct (_ && _).
Qed.

(** The result of a cell that ran to its end. *)
Definition ran (c : CellConfig) (w : world) (per : Z) (m : Meta) (r : Result) : Prop :=
  Error r = "" /\ Count_ (LatencyNs r) = wrap64 (Concurrency c * per) /\ rl_Ops (Load_ r) = Cardinality c /\
  REngine r = cellEngine c m /\ RWorkload r = RWorkload (initResult c w) /\ Environment r = w_env w /\
  ra_OnDiskBytes (Amplification r) = onDiskBytes c (w_dir w).

Section Played.
Context {E B I : Type} `{Engine E B I}.
Context (pow : float64 -> float64 -> float64) (oob : float64 -> Z).
Context (engineNew : string -> E + string).

Lemma measured_count (e e' : E) c per sched h reads writes :
  is_u64 (Operations c) -> Forall (fun '(_, ns) => is_u64 ns) sched -> perClientOps c = Ok per ->
  runMeasured pow oob e c sched = Done (e', (h, reads, writes)) -> total h = wrap64 (Concurrency c * per).
Proof.
  intros Ho Hlat Hper Hrun.
  destruct (runMeasured_accounting pow oob _ _ _ _ _ _ _ Ho Hlat Hrun)
    as (per' & ts & Hper' & Hran & _ & _ & _ & _ & _ & _ & _ & Htot). rewrite Hper in Hper'. injection Hper' as <-.
  rewrite Htot. cbn [total hist_of]. f_equal. unfold len. rewrite (concat_lengths (Z.to_nat per)).
  - rewrite length_fmap, <- (Forall2_length _ _ _ Hran), length_seq.
    pose proof (perClientOps_range _ _ Ho Hper). unfold runMeasured in Hrun. rewrite Hper in Hrun.
    destruct (Z.ltb_spec (Concurrency c) 0); [done|]. lia.
  - apply Forall_fmap. eapply Forall2_Forall_r; [exact Hran|]. apply Forall_forall. by intros i _ t (_ & _ & Hl).
Qed.

(** A cell whose engine opens, loads and then returns from every call. *)
Lemma RunCell_played c (S0 : Sustains (ValueBytes c) E B I) (e e0 e1 : E) w per :
  engineNew (EngineName c) = inl e -> e_open e (cellConfig c (cellDir c)) = Ok (e0, None) ->
  loadDataset pow oob e0 c = Ok (e1, None) -> su_ok (length (w_sched w)) e1 ->
  (forall n e, su_ok n e -> exists e', e_flush e = Ok e' /\ su_ok n e') -> playable (e_meta e) c w per ->
  exists r, RunCell pow oob engineNew c w = Done r /\ ran c w per (e_meta e) r.
Proof.
  intros Hnew Hopen Hload Hsu Hflush [Hsup Hcard Hz Hv Hc Ho Hper Hlat Hfair Hmk [Hg1 Hg2]].
  destruct (readGC_ok oob _ Hg1) as [s1 Hs1]. destruct (readGC_ok oob _ Hg2) as [s2 Hs2].
  destruct (Hflush _ _ Hsu) as (e2 & Hf2 & Hsu2).
  destruct (runMeasured_live (ValueBytes c) pow oob e2 c per (w_sched w))
    as (e3 & h & reads & writes & Hrun & Hsu3); try done.
  destruct (Hflush _ _ Hsu3) as (e4 & Hf4 & _).
  pose proof (measured_count _ _ _ _ _ _ _ _ Ho Hlat Hper Hrun) as Ht.
  unfold RunCell, runCellBody. rewrite Hnew.
  rewrite (proj1 (supported_tests _ c Hsup)), (proj2 (supported_tests _ c Hsup)), Hmk, Hopen.
  unfold measureCell. rewrite Hload, Hf2, Hs1, Hrun, Hs2, Hf4. cbv zeta. eexists. split; [done|]. unfold ran.
  destruct (_ && _), (bool_decide (MetaMode (e_meta e) = ModeInProc)); cbn -[writeAmp spaceAmp]; rewrite amp_onDisk, ?Ht; done.
Qed.
End Played.

Section Cell.
Context {E B I : Type} `{StoreEngine E B I}.
Context (pow : float64 -> float64 -> float64) (oob : float64 -> Z).

Lemma store_live (e : E) c per sched m b :
  kv_rep e m b -> 1 <= Cardinality c < 2 ^ 64 ->
  (SpecDist (CellWorkload c) = DistZipfian -> 2 <= Cardinality c) -> 0 <= ValueBytes c ->
  1 <= Concurrency c -> is_u64 (Operations c) -> perClientOps c = Ok per ->
  Forall (fun '(_, ns) => is_u64 ns) sched -> b + len sched * loadCost (ValueBytes c) <= kv_budget ->
  fair c per sched ->
  exists e' h reads writes m' b', runMeasured pow oob e c sched = Done (e', (h, reads, writes)) /\
    kv_rep e' m' b'.
Proof using All.
  intros Hrep Hk Hz Hv Hconc Ho Hper Hns Hb Hfair.
  destruct (runMeasured_live (ValueBytes c) pow oob e c per sched)
    as (e' & h & reads & writes & Hrun & _ & m' & b' & Hrep' & _); try done.
  { split; [done|]. by exists m, b. }
  by exists e', h, reads, writes, m', b'.
Qed.

Context (engineNew : string -> E + string).

(** An engine that opens empty and has nothing to flush. *)
Lemma RunCell_success e e0 c w per :
  engineNew (EngineName c) = inl e -> (forall cfg, e_open e cfg = Ok (e0, None)) -> kv_rep e0 ∅ 0 ->
  (forall e, e_flush e = Ok e) -> runnable (e_meta e) c w per ->
  exists r, RunCell pow oob engineNew c w = Done r /\ ran c w per (e_meta e) r.
Proof using All.
  intros Hnew Hopen Hrep Hflush [Hplay Hbud]. pose proof Hplay as [_ Hcard _ Hv _ _ _ _ _ _ _].
  assert (0 <= loadCost (ValueBytes c)) by (unfold loadCost; lia). pose proof (len_nonneg (w_sched w)).
  destruct (loadDataset_spec pow oob (length (w_sched w)) e0 c Hrep) as (e1 & m1 & b1 & Hload & Hrep1 & _ & Hb1);
    [lia|done|unfold len in *; nia|].
  apply (RunCell_played pow oob engineNew c (store_sustains (ValueBytes c)) e e0 e1); try done.
  - split; [done|]. by exists m1, b1.
  - intros n e'. rewrite Hflush. eauto.
Qed.
End Cell.

(** ** Claims *)

(** The driver's view of [swiss], and a small cell to try it on: one client,
    one uniform read of a one-key dataset. *)
#[local] Instance demoEngine : Engine swiss memBatch unit := inmemEngine swissMeta.

Definition demoCell : CellConfig :=
  MkCellConfig "swiss" (MkSpec "readrandom" 100 0 0 0 0 0 DistUniform false false false)
    "cache-resident" "tuned" "DEFAULT" 1 8 1 1 1 "run-1" "/tmp" 0 "0-1".

Definition demoWorld : world :=
  MkWorld zeroManifest None f64_one [(0%nat, 5); (0%nat, 7)] f64_one None None
    (MkMemStats 0 f64_zero 0) (MkMemStats 0 f64_zero 0) (Dir (inl [])).

Definition demoPow (x _ : float64) : float64 := x.
Definition demoOob (_ : float64) : Z := 0.


Lemma demo_runnable : runnable swissMeta demoCell demoWorld 1.
Proof.
  split; [|vm_compute; discriminate].
  split; [split; discriminate|simpl; lia|discriminate|simpl; lia|simpl; lia|split; vm_compute; congruence
    |reflexivity|repeat constructor; vm_compute; congruence| |reflexivity|by split].
  intros [|i] Hi; [vm_compute; lia|simpl in Hi; lia].
Qed.


(** C12: the load phase fills the keyspace exactly.  Loading an empty engine
    that keeps the contract commits without error and leaves it holding the
    keys [EncodeKey 0] to [EncodeKey (Cardinality - 1)] and no others, each
    with a value of the configured size. *)
Theorem load_fills_keyspace {E B I} `{StoreEngine E B I} pow oob (e : E) c :
  kv_rep e ∅ 0 -> 1 <= Cardinality c -> 0 <= ValueBytes c ->
  Cardinality c * (40 + ValueBytes c) <= kv_budget ->
  exists e' m b, loadDataset pow oob e c = Ok (e', None) /\ kv_rep e' m b /\
    (forall k, is_Some (m !! k) <-> exists i, 0 <= i < Cardinality c /\ k = EncodeKey i) /\
    (forall k v, m !! k = Some v -> len v = ValueBytes c).
Proof.
  intros Hrep Hc Hv Hb. destruct (loadDataset_spec pow oob 0 e c Hrep Hc Hv) as (e' & m & b & Hl & Hr & [Hk Hvl] & _).
  { unfold loadCost. lia. }
  by exists e', m, b.
Qed.

Lemma load_fills_keyspace_witness :
  exists e' m b, loadDataset demoPow demoOob newSwiss demoCell = Ok (e', None) /\ kv_rep e' m b /\
    (forall k, is_Some (m !! k) <-> exists i, 0 <= i < Cardinality demoCell /\ k = EncodeKey i) /\
    (forall k v, m !! k = Some v -> len v = ValueBytes demoCell).
Proof.
  apply (load_fills_keyspace demoPow demoOob newSwiss demoCell); [exact newSwiss_rep|simpl; lia|simpl; lia|].
  vm_compute. discriminate.
Defined.

Lemma concat_same_lengths {A} (xs ys : list (list A)) :
  length <$> xs = length <$> ys -> length (concat xs) = length (concat ys).
Proof.
  revert ys. induction xs as [|x xs IH]; intros [|y ys] Hl; try done.
  rewrite !fmap_cons in Hl. injection Hl as Hx Hl. cbn [concat]. rewrite !length_app, Hx. by rewrite (IH ys).
Qed.

(** C13: what is counted does not depend on the interleaving.  Two complete runs
    of a cell's measured phase, from any two engine states and under any two
    schedules, report the same numbers of reads and writes and the same number of
    latencies. *)
Theorem counts_schedule_independent {E B I} `{Engine E B I} pow oob (e1 e2 e1' e2' : E) c s1 s2 h1 r1 w1 h2 r2 w2 :
  is_u64 (Operations c) ->
  Forall (fun '(_, ns) => is_u64 ns) s1 -> Forall (fun '(_, ns) => is_u64 ns) s2 ->
  runMeasured pow oob e1 c s1 = Done (e1', (h1, r1, w1)) ->
  runMeasured pow oob e2 c s2 = Done (e2', (h2, r2, w2)) ->
  r1 = r2 /\ w1 = w2 /\ Count h1 = Count h2.
Proof.
  intros Ho Hs1 Hs2 H1 H2.
  destruct (runMeasured_accounting pow oob _ _ _ _ _ _ _ Ho Hs1 H1) as (p1 & ts1 & Hp1 & Hf1 & -> & -> & Hh1).
  destruct (runMeasured_accounting pow oob _ _ _ _ _ _ _ Ho Hs2 H2) as (p2 & ts2 & Hp2 & Hf2 & -> & -> & Hh2).
  rewrite Hp1 in Hp2. injection Hp2 as <-.
  assert (tr_ops <$> ts1 = tr_ops <$> ts2 /\ (length <$> (tr_lat <$> ts1) = length <$> (tr_lat <$> ts2)))
    as [Hops Hlat].
  { clear -Hf1 Hf2. revert ts2 Hf2. induction Hf1 as [|i t1 ids ts1 (Hg1 & (g1' & Hst1) & Hl1) _ IH]; intros ts2 Hf2.
    - apply Forall2_nil_inv_l in Hf2 as ->. done.
    - apply Forall2_cons_inv_l in Hf2 as (t2 & ts2' & (Hg2 & (g2' & Hst2) & Hl2) & Hf2 & ->).
      destruct (IH _ Hf2) as [IH1 IH2]. rewrite Hg1 in Hg2. injection Hg2 as Hg. rewrite <- Hg in Hst2.
      rewrite Hst1 in Hst2. injection Hst2 as Ho _. rewrite !fmap_cons, IH1, IH2, Ho, Hl1, Hl2. done. }
  assert (forall f : list Op -> Z, (fun t : track => f (tr_ops t)) <$> ts1 = (fun t : track => f (tr_ops t)) <$> ts2) as Hf.
  { intros f. pose proof (f_equal (fmap (M := list) f) Hops) as Hff. rewrite <- !list_fmap_compose in Hff. exact Hff. }
  rewrite !Hf. split_and!; [done..|]. unfold Count.
  destruct Hh1 as (_ & _ & _ & _ & _ & ->). destruct Hh2 as (_ & _ & _ & _ & _ & ->).
  cbn [total hist_of]. f_equal. unfold len. f_equal. by apply concat_same_lengths.
Qed.

Lemma counts_schedule_independent_witness :
  exists e1' e2' h1 h2 r1 w1 r2 w2,
    runMeasured demoPow demoOob newSwiss demoCell [(0%nat, 5); (0%nat, 7)] = Done (e1', (h1, r1, w1)) /\
    runMeasured demoPow demoOob newSwiss demoCell [(1%nat, 1); (0%nat, 6); (0%nat, 2)] = Done (e2', (h2, r2, w2)) /\
    r1 = r2 /\ w1 = w2 /\ Count h1 = Count h2.
Proof.
  assert (forall s, Forall (fun '(_, ns) => is_u64 ns) s -> fair demoCell 1 s -> len s * 48 <= kv_budget ->
    exists e' h r w, runMeasured demoPow demoOob newSwiss demoCell s = Done (e', (h, r, w))) as Hlive.
  { intros s Hs Hf Hb. destruct (store_live demoPow demoOob newSwiss demoCell 1 s ∅ 0)
      as (e' & h & r & w & m & b & Hrun & _);
      [exact newSwiss_rep|simpl; lia|discriminate|simpl; lia|simpl; lia|split; vm_compute; congruence|reflexivity
      |exact Hs|simpl; unfold loadCost; lia|exact Hf|]. eauto. }
  destruct (Hlive [(0%nat, 5); (0%nat, 7)]) as (e1' & h1 & r1 & w1 & H1);
    [repeat constructor; vm_compute; congruence|intros [|i] Hi; [vm_compute; lia|simpl in Hi; lia]|vm_compute; discriminate|].
  destruct (Hlive [(1%nat, 1); (0%nat, 6); (0%nat, 2)]) as (e2' & h2 & r2 & w2 & H2);
    [repeat constructor; vm_compute; congruence|intros [|i] Hi; [vm_compute; lia|simpl in Hi; lia]|vm_compute; discriminate|].
  exists e1', e2', h1, h2, r1, w1, r2, w2. split; [exact H1|]. split; [exact H2|].
  apply (counts_schedule_independent demoPow demoOob newSwiss newSwiss e1' e2' demoCell
    [(0%nat, 5); (0%nat, 7)] [(1%nat, 1); (0%nat, 6); (0%nat, 2)] h1 r1 w1 h2 r2 w2);
    [split; vm_compute; congruence|repeat constructor; vm_compute; congruence
    |repeat constructor; vm_compute; congruence|exact H1|exact H2].
Defined.

(** The measured phase ends under every fair schedule, and no client
    crashes the process: when each of the [Concurrency] clients gets at least
    twice as many turns as it has operations, the phase returns, and the engine
    still keeps its contract. *)
Theorem measured_phase_ends {E B I} `{StoreEngine E B I} pow oob (e : E) c per sched m b :
  kv_rep e m b -> 1 <= Cardinality c < 2 ^ 64 ->
  (SpecDist (CellWorkload c) = DistZipfian -> 2 <= Cardinality c) -> 0 <= ValueBytes c ->
  1 <= Concurrency c -> is_u64 (Operations c) -> perClientOps c = Ok per ->
  Forall (fun '(_, ns) => is_u64 ns) sched -> b + len sched * loadCost (ValueBytes c) <= kv_budget ->
  fair c per sched ->
  exists e' h reads writes m' b', runMeasured pow oob e c sched = Done (e', (h, reads, writes)) /\
    kv_rep e' m' b'.
Proof. apply store_live. Qed.

Lemma measured_phase_ends_witness :
  exists e' h reads writes m' b',
    runMeasured demoPow demoOob newSwiss demoCell [(0%nat, 5); (0%nat, 7)] = Done (e', (h, reads, writes)) /\
    kv_rep e' m' b'.
Proof.
  apply (measured_phase_ends demoPow demoOob newSwiss demoCell 1 [(0%nat, 5); (0%nat, 7)] ∅ 0);
    [exact newSwiss_rep|simpl; lia|discriminate|simpl; lia|simpl; lia|split; vm_compute; congruence|reflexivity
    |repeat constructor; vm_compute; congruence|vm_compute; discriminate|].
  intros [|i] Hi; [vm_compute; lia|simpl in Hi; lia].
Defined.

(** A recovered panic is lost.  The deferred handler writes the message to
    a local variable, not to the result, so when the body of [RunCell] panics
    the caller gets the zero [Result], whose empty error reads as success with
    a throughput of zero.  A concurrency of 0, which divides by zero after the
    load, is such a run on every in-memory engine. *)
Theorem recovered_panic_lost {E} `{KVStore E} m pow oob (engineNew : string -> E + string) e c w :
  engineNew (EngineName c) = inl e -> kv_rep e ∅ 0 -> supported m c -> w_mkdir w = None ->
  gc_layout (w_gcBefore w) -> 1 <= Cardinality c -> 0 <= ValueBytes c ->
  Cardinality c * loadCost (ValueBytes c) <= kv_budget -> Concurrency c = 0 ->
  @RunCell E memBatch unit (inmemEngine m) pow oob engineNew c w = Done zeroResult /\
  Error zeroResult = ""%string /\ re_Name (REngine zeroResult) = ""%string.
Proof.
  intros Hnew Hrep Hsup Hmk Hgc Hc Hv Hb Hconc. split; [|done].
  pose (i := @inmemEngine E _ m).
  destruct (@loadDataset_spec E memBatch unit i _ _ _ pow oob 0 e c Hrep Hc Hv) as (e1 & m1 & b1 & Hload & _); [lia|].
  destruct (readGC_ok oob _ Hgc) as [s1 Hs1].
  unfold RunCell, runCellBody. rewrite Hnew. change (e_meta e) with m.
  rewrite (proj1 (supported_tests m c Hsup)), (proj2 (supported_tests m c Hsup)), Hmk.
  change (e_open e (cellConfig c (cellDir c))) with (Ok (e, @None string)). cbv iota.
  unfold measureCell. fold i. rewrite Hload. change (e_flush e1) with (Ok e1). cbv iota.
  rewrite Hs1. unfold runMeasured, perClientOps. by rewrite Hconc.
Qed.

Lemma recovered_panic_lost_witness :
  @RunCell swiss memBatch unit (inmemEngine swissMeta) demoPow demoOob (fun _ => inl newSwiss)
    (MkCellConfig "swiss" (CellWorkload demoCell) "cache-resident" "tuned" "DEFAULT" 0 8 1 1 1 "run-1" "/tmp" 0 "")
    demoWorld = Done zeroResult /\
  Error zeroResult = ""%string /\ re_Name (REngine zeroResult) = ""%string.
Proof.
  apply (recovered_panic_lost swissMeta demoPow demoOob (fun _ => inl newSwiss) newSwiss);
    [reflexivity|exact newSwiss_rep|split; discriminate|reflexivity|discriminate|simpl; lia|simpl; lia
    |vm_compute; discriminate|reflexivity].
Defined.

(** The cell with another server core list. *)
Definition withCPUs (c : CellConfig) (cpus : string) : CellConfig :=
  MkCellConfig (EngineName c) (CellWorkload c) (Regime c) (Profile c) (Durability c) (Concurrency c)
    (ValueBytes c) (Cardinality c) (Operations c) (CellSeed c) (RunID c) (DataRoot c) (CacheBytes c) cpus.

Lemma runMeasured_withCPUs {E B I} `{Engine E B I} pow oob (e : E) c cpus sched :
  runMeasured pow oob e (withCPUs c cpus) sched = runMeasured pow oob e c sched.
Proof.
  assert (forall per ids, newClients pow (withCPUs c cpus) per ids = newClients pow c per ids) as Hn.
  { intros per ids. induction ids as [|i ids IH]; [done|]. cbn [newClients]. by rewrite IH. }
  unfold runMeasured. change (perClientOps (withCPUs c cpus)) with (perClientOps c).
  destruct (perClientOps c) as [per| |]; [|done..]. by rewrite Hn.
Qed.

(** The server core list never reaches an engine.  The configuration
    [RunCell] opens the engine with has an empty [ServerCPUList] whatever the
    cell says, so two cells that differ only in it run identically. *)
Theorem server_cpu_list_dropped {E B I} `{Engine E B I} pow oob (engineNew : string -> E + string) c w cpus :
  CfgServerCPUList (cellConfig c (cellDir c)) = ""%string /\
  RunCell pow oob engineNew (withCPUs c cpus) w = RunCell pow oob engineNew c w.
Proof.
  split; [done|]. unfold RunCell, runCellBody. change (EngineName (withCPUs c cpus)) with (EngineName c).
  destruct (engineNew (EngineName c)) as [e|err]; [|done].
  change (cellConfig (withCPUs c cpus) (cellDir (withCPUs c cpus))) with (cellConfig c (cellDir c)).
  destruct (e_open e (cellConfig c (cellDir c))) as [[e1 [err|]]| |]; [reflexivity| |reflexivity..]. unfold measureCell.
  change (loadDataset pow oob e1 (withCPUs c cpus)) with (loadDataset pow oob e1 c).
  destruct (loadDataset pow oob e1 c) as [[e2 [err|]]| |]; [reflexivity| |reflexivity..].
  destruct (e_flush e2) as [e3| |]; [|reflexivity..]. rewrite runMeasured_withCPUs. reflexivity.
Qed.

(** A cell the engine cannot serve is marked, not run.  A scanning
    workload on an unordered engine, and FULL durability on a networked one,
    return a result that carries the reason and the engine's identity, with no
    load, no throughput and no latencies, and without opening the engine. *)
Theorem unsupported_cell_marked {E B I} `{Engine E B I} pow oob (engineNew : string -> E + string) c w e :
  engineNew (EngineName c) = inl e ->
  (NeedsScan (CellWorkload c) = true /\ Ordered (MetaCaps (e_meta e)) = false) \/
  (Durability c = "FULL"%string /\ networkClass (ClassOf (e_meta e)) = true) ->
  exists r, RunCell pow oob engineNew c w = Done r /\
    (Error r = needsScanError \/ Error r = fullNetworkError) /\
    re_Name (REngine r) = MetaName (e_meta e) /\ rl_Ops (Load_ r) = 0 /\ Count_ (LatencyNs r) = 0.
Proof.
  intros Hnew Hun. unfold RunCell, runCellBody. rewrite Hnew.
  destruct (NeedsScan (CellWorkload c) && negb (Ordered (MetaCaps (e_meta e)))) eqn:Escan.
  { eexists. split; [done|]. split; [by left|done]. }
  destruct Hun as [[H1 H2]|[H1 H2]]; [by rewrite H1, H2 in Escan|].
  rewrite H2, bool_decide_eq_true_2 by done. eexists. split; [done|]. split; [by right|done].
Qed.

Definition demoScanCell : CellConfig :=
  MkCellConfig "swiss" (MkSpec "readseq" 0 0 0 100 0 0 DistUniform true false false)
    "cache-resident" "tuned" "DEFAULT" 1 8 1 1 1 "run-1" "/tmp" 0 "".

Lemma unsupported_cell_marked_witness :
  exists r, RunCell demoPow demoOob (fun _ => inl newSwiss) demoScanCell demoWorld = Done r /\
    (Error r = needsScanError \/ Error r = fullNetworkError) /\
    re_Name (REngine r) = MetaName (e_meta newSwiss) /\ rl_Ops (Load_ r) = 0 /\ Count_ (LatencyNs r) = 0.
Proof.
  apply (unsupported_cell_marked demoPow demoOob (fun _ => inl newSwiss) demoScanCell demoWorld newSwiss);
    [reflexivity|left; by split].
Defined.
