(* ===== verification/Driven.v ===== *)
(** * The third-party engines under the driver

    What the cell driver (harness/driver.go) makes of an adapter whose store
    can fail.  [View] collects the methods of an adapter, [drive] is the
    adapter as a value of engine.Engine, with the errors the driver drops
    dropped; the theorems are about every view, so about every adapter of
    adapters/ that wraps a store outside the repository. *)

From S2P Require Import Prelude Float64 Codec Engine Ordered Adapter Point Workload Hdr Harness HarnessProofs.
Local Open Scope go_scope.

(** The methods of an adapter beyond those of [AdapterOps]; [E] is its state
    once opened, [B] its batch and [I] its iterator.  The batch calls can reach
    the store. *)
Record View (E B I : Type) := MkView {
  v_meta : Meta;
  v_open : Config -> outcome (E + serr);
  v_newBatch : E -> B;
  v_batchPut : E -> B -> bytes -> bytes -> E * B;
  v_batchLen : B -> Z;
  v_commit : E -> B -> E * option serr;
  v_scan : E -> bytes -> I + serr;
  v_next : I -> bool * I;
  v_flush : E -> E * option serr;
  v_stats : E -> Stats }.
Arguments MkView {E B I}.
Arguments v_meta {E B I}.
Arguments v_open {E B I}.
Arguments v_newBatch {E B I}.
Arguments v_batchPut {E B I}.
Arguments v_batchLen {E B I}.
Arguments v_commit {E B I}.
Arguments v_scan {E B I}.
Arguments v_next {E B I}.
Arguments v_flush {E B I}.
Arguments v_stats {E B I}.

Section Drive.
Context {E B I : Type} `{AdapterOps E} (show : serr -> string) (v : View E B I).

(** A call on the open engine; one on an engine that was not opened reaches a
    nil store. *)
Definition onOpen {A} (o : option E) (f : E -> A) : outcome A :=
  match o with Some e => Ok (f e) | None => Panic end.

(** The adapter as the driver calls it. *)
Definition drive : Engine (option E) (option B) I := {|
  e_meta _ := v_meta v;
  e_open _ cfg :=
    let* r := v_open v cfg in
    match r with inl e => Ok (Some e, None) | inr err => Ok (None, Some (show err)) end;
  e_get o k := onOpen o (fun e => (Some e, match ad_get e k with inl x => x | inr _ => None end));
  e_put o k x := onOpen o (fun e => Some (ad_put e k x).1);
  e_delete o k := onOpen o (fun e => Some (ad_delete e k).1);
  e_newBatch o := v_newBatch v <$> o;
  e_batchPut o b k x :=
    match o, b with
    | Some e, Some b => let '(e', b') := v_batchPut v e b k x in (Some e', Some b')
    | _, _ => (o, b)
    end;
  e_batchLen b := from_option (v_batchLen v) 0 b;
  e_commit o b :=
    match o, b with
    | Some e, Some b => let '(e', err) := v_commit v e b in Ok (Some e', show <$> err)
    | _, _ => Panic
    end;
  e_scan o k := onOpen o (fun e => (Some e, match v_scan v e k with inl it => Some it | inr _ => None end));
  e_next _ it := Ok (v_next v it);
  e_flush o := onOpen o (fun e => Some (v_flush v e).1);
  e_stats o := v_stats v <$> o |}.
#[local] Existing Instance drive.

(** An open adapter answers every call, whatever its store does. *)
#[global] Instance drive_sustains vb : Sustains vb (option E) (option B) I.
Proof.
  refine {| su_ok (_ : nat) (o : option E) := is_Some o; su_iter (_ : I) := True |}; cbn; try done.
  - intros n o k [e ->] _. eexists _, _. split; [done|by eexists].
  - intros n o k x [e ->] _ _. eexists. split; [done|by eexists].
  - intros n o k [e ->] _. eexists. split; [done|by eexists].
  - intros n o k [e ->] _. cbn. eexists _, _. split; [done|]. split; [by eexists|by destruct (v_scan v e k)].
  - intros n o it _ _. destruct (v_next v it) as [more it']. by eexists _, _.
Defined.

Context (pow : float64 -> float64 -> float64) (oob : float64 -> Z).

(** The load loop over an open adapter returns, with an open engine and batch. *)
Lemma loadLoop_drive n : forall (e : E) (b : B) g,
  gen_ok g -> exists e' b' err, loadLoop pow oob n (Some e) (Some b) g = Ok (Some e', Some b', err).
Proof.
  induction n as [|n IH]; intros e b g Hg; cbn [loadLoop]; [by eexists _, _, _|].
  destruct (Next_spec pow oob g Hg) as (op & g' & -> & Ha & _). cbn [obind].
  pose proof (advanced_ok _ _ Ha Hg) as Hg'. cbn.
  destruct (v_batchPut v e b (Key op) (Workload.Value op)) as [e1 b1]. cbn.
  destruct (v_batchLen v b1 >=? batchSize); [|by apply IH].
  destruct (v_commit v e1 b1) as [e2 [err|]]; cbn; [by eexists _, _, _|]. apply IH. done.
Qed.

Lemma loadDataset_drive (e : E) c :
  1 <= Cardinality c < 2 ^ 64 -> 0 <= ValueBytes c ->
  exists e' err, loadDataset pow oob (Some e) c = Ok (Some e', err).
Proof.
  intros Hc Hv. unfold loadDataset.
  destruct (NewGenerator_ok pow loadSpec (CellSeed c) 0 (Cardinality c) (ValueBytes c))
    as (g & -> & Hg & _); [done..|]. cbn [obind].
  destruct (loadLoop_drive (Z.to_nat (Cardinality c)) e (v_newBatch v e) g Hg) as (e1 & b1 & err & Hl).
  cbn [e_newBatch drive fmap option_fmap option_map]. rewrite Hl. cbn [obind]. destruct err as [err|]; [by eexists _, _|].
  cbn. destruct (v_batchLen v b1 >? 0); [|by eexists _, _]. destruct (v_commit v e1 b1) as [e2 err]. by eexists _, _.
Qed.
End Drive.

(** ** Any adapter *)

(** A cell over an adapter, up to its outcome: what opening and loading gave. *)
Section Outcome.
Context {E B I : Type} `{AdapterOps E} (show : serr -> string) (v : View E B I).
Context (pow : float64 -> float64 -> float64) (oob : float64 -> Z).

(** [RunCell] on the adapter's fresh engine. *)
Definition cellOn (c : CellConfig) (w : world) : phase Result :=
  @RunCell _ _ _ (drive show v) pow oob (fun _ => inl None) c w.

Definition loadOn (e : E) (c : CellConfig) : outcome (option E * option string) :=
  @loadDataset _ _ _ (drive show v) pow oob (Some e) c.

Lemma cellOn_open_failed c w per err :
  playable (v_meta v) c w per -> v_open v (cellConfig c (cellDir c)) = Ok (inr err) ->
  exists r, cellOn c w = Done r /\ Error r = "open: " +:+ show err.
Proof.
  intros [Hsup _ _ _ _ _ _ _ _ Hmk _] Ho. unfold cellOn, RunCell, runCellBody. cbn [e_meta drive].
  rewrite (proj1 (supported_tests _ c Hsup)), (proj2 (supported_tests _ c Hsup)), Hmk. cbn [e_open drive].
  rewrite Ho. cbn [obind]. by eexists.
Qed.

Lemma cellOn_opened c w per e :
  playable (v_meta v) c w per -> v_open v (cellConfig c (cellDir c)) = Ok (inl e) ->
  exists r e' err, cellOn c w = Done r /\ loadOn e c = Ok (Some e', err) /\
    match err with
    | Some msg => Error r = "load: " +:+ msg
    | None => ran c w per (v_meta v) r
    end.
Proof.
  intros Hp Ho. pose proof Hp as [Hsup Hc _ Hv _ _ _ _ _ Hmk _].
  destruct (loadDataset_drive show v pow oob e c Hc Hv) as (e' & err & Hl).
  assert (e_open (Engine := drive show v) None (cellConfig c (cellDir c)) = Ok (Some e, None)) as Hopen
    by (cbn [e_open drive]; by rewrite Ho).
  destruct err as [msg|].
  - unfold cellOn, RunCell, runCellBody. rewrite Hopen. cbn [e_meta drive].
    rewrite (proj1 (supported_tests _ c Hsup)), (proj2 (supported_tests _ c Hsup)), Hmk.
    unfold measureCell, loadOn. rewrite Hl. by eexists _, _, _.
  - destruct (@RunCell_played _ _ _ (drive show v) pow oob (fun _ => inl None) c
      (drive_sustains show v (ValueBytes c)) None (Some e) (Some e') w per) as (r & Hr & Hran); try done.
    + by eexists.
    + intros n o [e0 ->]. eexists. split; [done|by eexists].
    + exists r, e', None. done.
Qed.
End Outcome.

(** ** Adapters that keep their contract *)

(** What both contracts say of a batch: one that is acknowledged has taken
    effect, and a store that does not fail acknowledges the batches it accepts. *)
Class BatchContract (E : Type) `{AdapterOps E} := {
  bc_rep : E -> gmap bytes bytes -> Prop;
  bc_ok : E -> Prop;
  bc_valid : bytes -> bytes -> Prop;
  bc_commit_spec e m ops e' : bc_rep e m -> ad_commit e ops = (e', None) -> bc_rep e' (apply_ops m ops);
  bc_commit_ok e m ops : bc_rep e m -> bc_ok e -> Forall (op_valid bc_valid) ops ->
    (ad_commit e ops).2 = None /\ bc_ok (ad_commit e ops).1 }.

#[global] Instance adapter_batches {E} `{Adapter E} : BatchContract E.
Proof.
  refine {| bc_rep := ad_rep; bc_ok := ad_ok; bc_valid := ad_valid |}; [|exact ad_commit_ok].
  intros e m ops e' Hr Hc. pose proof (ad_commit_spec e m ops Hr) as Hs. by rewrite Hc in Hs.
Defined.

#[global] Instance point_batches {E} `{PointAdapter E} : BatchContract E.
Proof.
  refine {| bc_rep := pa_rep; bc_ok := pa_ok; bc_valid := pa_valid |}.
  - intros e m ops e' Hr Hc. pose proof (pa_commit_spec e m ops Hr) as Hs. by rewrite Hc in Hs.
  - intros e m ops _. apply pa_commit_ok.
Defined.

Section Puts.
Context {E B I : Type} (v : View E B I).

(** Entries put one by one into a new batch. *)
Definition puts (e : E) (kvs : list (bytes * bytes)) : E * B :=
  foldl (fun '(e, b) kv => v_batchPut v e b kv.1 kv.2) (e, v_newBatch v e) kvs.

Lemma puts_snoc e kvs k x :
  puts e (kvs ++ [(k, x)]) = let '(e', b) := puts e kvs in v_batchPut v e' b k x.
Proof. unfold puts. rewrite foldl_app. cbn. by destruct (foldl _ _ _). Qed.
End Puts.

(** The view's batch calls build what [ad_commit] commits. *)
Class Batched {E B I} `{AdapterOps E} (v : View E B I) : Prop := {
  bv_len e kvs : v_batchLen v (puts v e kvs).2 = len kvs;
  bv_commit e kvs : v_commit v (puts v e kvs).1 (puts v e kvs).2 = ad_commit e (put_ops kvs) }.

Section Loaded.
Context {E B I : Type} `{BatchContract E} (show : serr -> string) (v : View E B I) `{!Batched v}.
#[local] Instance driven : Engine (option E) (option B) I := drive show v.

(** The store accepts what the load writes. *)
Definition accepts (vb : Z) : Prop := forall k x, len k = 16 -> len x = vb -> bc_valid k x.

Lemma put_ops_valid vb kvs :
  accepts vb -> Forall (entry_sized vb) kvs -> Forall (op_valid bc_valid) (put_ops kvs).
Proof.
  intros Ha Hs. apply Forall_fmap. eapply Forall_impl; [exact Hs|]. intros [k x] [Hk Hx]. by apply Ha.
Qed.

(** The store does not fail and accepts the entries, when that is asked for. *)
Definition reliable (safe : bool) (vb : Z) (e : E) : Prop := safe = true -> bc_ok e /\ accepts vb.

Lemma puts_commit safe vb e m kvs :
  bc_rep e m -> reliable safe vb e -> Forall (entry_sized vb) kvs ->
  exists e' err, v_commit v (puts v e kvs).1 (puts v e kvs).2 = (e', err) /\
    match err with
    | None => bc_rep e' (apply_ops m (put_ops kvs)) /\ reliable safe vb e'
    | Some _ => safe = false
    end.
Proof using All.
  intros Hr Hok Hs. rewrite bv_commit. destruct (ad_commit e (put_ops kvs)) as [e' err] eqn:Ec.
  assert (safe = true -> err = None /\ bc_ok e') as Hsafe.
  { intros Ht. destruct (Hok Ht) as [Hk Ha].
    destruct (bc_commit_ok e m (put_ops kvs) Hr Hk (put_ops_valid vb kvs Ha Hs)) as [Hn Hk'].
    rewrite Ec in Hn, Hk'. done. }
  exists e', err. split; [done|]. destruct err as [err|].
  - destruct safe; [|done]. by destruct Hsafe.
  - split; [by eapply bc_commit_spec|]. intros Ht. split; [by apply Hsafe|by apply Hok].
Qed.

(** The load over an adapter; with [safe] no commit can fail. *)
#[global] Instance drive_loads (safe : bool) vb : Loads vb (option E) (option B) I.
Proof using All.
  refine {|
    lo_rep (_ : nat) o m := exists e, o = Some e /\ bc_rep e m /\ reliable safe vb e;
    lo_batch (_ : nat) o m b kvs := exists e, (o, b) = (Some (puts v e kvs).1, Some (puts v e kvs).2) /\
      bc_rep e m /\ reliable safe vb e /\ Forall (entry_sized vb) kvs;
    lo_err _ := safe = false |}.
  - intros _ o m (e & -> & Hr & Hok). by exists e.
  - intros _ o m b kvs k x (e & [= -> ->] & Hr & Hok & Hs) Hk Hx. cbn. pose proof (puts_snoc v e kvs k x) as Hp.
    destruct (puts v e kvs) as [e1 b1]. cbn. destruct (v_batchPut v e1 b1 k x) as [e2 b2]. exists e. rewrite Hp.
    split_and!; [done..|]. apply Forall_app. split; [done|]. by repeat constructor.
  - intros _ o m b kvs (e & [= -> ->] & _). cbn. apply bv_len.
  - intros _ o m b (e & [= -> ->] & Hr & Hok & _). by exists e.
  - intros _ o m b kvs (e & [= -> ->] & Hr & Hok & Hs) _.
    destruct (puts_commit safe vb e m kvs Hr Hok Hs) as (e' & err & Hc & He). cbn. rewrite Hc.
    eexists _, _. split; [done|]. destruct err; cbn; [done|]. exists e'. by split.
Defined.

(** A load that reports no error left exactly the keyspace in the store, and a
    store that does not fail reports none. *)
Lemma loadOn_spec pow oob e c e' err :
  bc_rep e ∅ -> 1 <= Cardinality c < 2 ^ 64 -> 0 <= ValueBytes c ->
  loadOn show v pow oob e c = Ok (Some e', err) ->
  (err = None -> exists m, bc_rep e' m /\ filled (ValueBytes c) (Cardinality c) m) /\
  (bc_ok e -> accepts (ValueBytes c) -> err = None).
Proof using All.
  intros Hr Hc Hv Hl. unfold loadOn in Hl. fold driven in Hl.
  assert (forall safe, reliable safe (ValueBytes c) e -> @or_err (ValueBytes c) _ _ _ driven (drive_loads safe (ValueBytes c))
    (exists m, lo_rep (Loads := drive_loads safe (ValueBytes c)) 0 (Some e') m /\ filled (ValueBytes c) (Cardinality c) m)
    err) as Hload.
  { intros safe Hok.
    destruct (@loadDataset_loads (ValueBytes c) _ _ _ driven (drive_loads safe (ValueBytes c)) pow oob 0 (Some e) c)
      as (o & err' & Hl' & He); try done; [by exists e|].
    rewrite Hl in Hl'. by injection Hl' as <- <-. }
  split.
  - intros ->. destruct (Hload false) as (m & (e1 & [= <-] & Hr' & _) & Hf); [done|]. by exists m.
  - intros Hok Ha. specialize (Hload true ltac:(by intros _)). by destruct err.
Qed.
End Loaded.
