(* ===== verification/Text.v ===== *)
(** * Text: the parts of strings and strconv the commands use

    Texts are byte lists; [str] and [txt] convert to and from the strings that
    name engines and workloads.  Spaces are the UTF-8 encodings of the runes
    [unicode.IsSpace] accepts. *)

From S2P Require Import Prelude Codec.
Local Open Scope go_scope.

Definition txt (s : string) : bytes := String.list_byte_of_string s.
Definition str (b : bytes) : string := String.string_of_list_byte b.

Lemma str_txt s : str (txt s) = s.
Proof. apply String.string_of_list_byte_of_string. Qed.

(** ** strings.TrimSpace *)

Definition enc (l : list Z) : bytes := z2b <$> l.

Definition space_runes : list bytes :=
  (enc <$> [[9]; [10]; [11]; [12]; [13]; [32]; [0xC2; 0x85]; [0xC2; 0xA0]; [0xE1; 0x9A; 0x80]]) ++
  ((fun i => enc [0xE2; 0x80; 0x80 + Z.of_nat i]) <$> seq 0 11) ++
  (enc <$> [[0xE2; 0x80; 0xA8]; [0xE2; 0x80; 0xA9]; [0xE2; 0x80; 0xAF]; [0xE2; 0x81; 0x9F]; [0xE3; 0x80; 0x80]]).

(** Remove one of the prefixes [ps], if one is there. *)
Fixpoint strip_prefix (p l : bytes) : option bytes :=
  match p, l with
  | [], _ => Some l
  | x :: p', y :: l' => if bool_decide (x = y) then strip_prefix p' l' else None
  | _ :: _, [] => None
  end.

Fixpoint strip_any (ps : list bytes) (l : bytes) : option bytes :=
  match ps with
  | [] => None
  | p :: ps' => match strip_prefix p l with Some r => Some r | None => strip_any ps' l end
  end.

Fixpoint trim_start (fuel : nat) (ps : list bytes) (l : bytes) : bytes :=
  match fuel with
  | O => l
  | S f => match strip_any ps l with Some r => trim_start f ps r | None => l end
  end.

Definition TrimLeft (l : bytes) : bytes := trim_start (length l) space_runes l.
Definition TrimRight (l : bytes) : bytes :=
  reverse (trim_start (length l) (reverse <$> space_runes) (reverse l)).
Definition TrimSpace (l : bytes) : bytes := TrimRight (TrimLeft l).

(** ** strings.Split on one byte, strings.Cut, strings.Join *)

Fixpoint split_at (sep : Byte.byte) (l cur : bytes) : list bytes :=
  match l with
  | [] => [cur]
  | x :: l' => if bool_decide (x = sep) then cur :: split_at sep l' [] else split_at sep l' (cur ++ [x])
  end.

Definition Split (sep : Byte.byte) (l : bytes) : list bytes := split_at sep l [].

Fixpoint cut_at (sep : Byte.byte) (l cur : bytes) : bytes * bytes * bool :=
  match l with
  | [] => (cur, [], false)
  | x :: l' => if bool_decide (x = sep) then (cur, l', true) else cut_at sep l' (cur ++ [x])
  end.

Definition Cut (sep : Byte.byte) (l : bytes) : bytes * bytes * bool := cut_at sep l [].

Fixpoint Join (sep : bytes) (parts : list bytes) : bytes :=
  match parts with
  | [] => []
  | [p] => p
  | p :: parts' => p ++ sep ++ Join sep parts'
  end.

Definition comma_byte : Byte.byte := z2b 44.
Definition dash_byte : Byte.byte := z2b 45.

(** ** Numbers *)

Fixpoint digits (fuel : nat) (n : Z) (acc : bytes) : bytes :=
  match fuel with
  | O => acc
  | S f =>
      let acc := z2b (48 + n mod 10) :: acc in
      if n <? 10 then acc else digits f (n / 10) acc
  end.

(** [strconv.Itoa], and [%d]: an [int64] has at most 19 digits. *)
Definition Itoa (z : Z) : bytes := if z <? 0 then dash_byte :: digits 20 (- z) [] else digits 20 z [].

Definition is_digit (b : Byte.byte) : bool := (48 <=? b2z b) && (b2z b <=? 57).

(** The value of a run of digits, over an accumulator. *)
Fixpoint digits_value (l : bytes) (acc : Z) : Z :=
  match l with [] => acc | b :: l' => digits_value l' (acc * 10 + (b2z b - 48)) end.

(** [strconv.Atoi]: an optional sign, at least one digit, nothing else, and a
    value in range. *)
Definition Atoi (l : bytes) : option Z :=
  let (neg, ds) := match l with
    | x :: l' => if bool_decide (x = dash_byte) then (true, l')
                 else if bool_decide (x = z2b 43) then (false, l') else (false, l)
    | [] => (false, [])
    end in
  if (len ds =? 0) || negb (forallb is_digit ds) then None
  else
    let v := if neg : bool then - digits_value ds 0 else digits_value ds 0 in
    if (- 2 ^ 63 <=? v) && (v <? 2 ^ 63) then Some v else None.

(** [strings.ToUpper] on ASCII; no rune outside ASCII has an upper case among
    the letters the callers compare with. *)
Definition upper_byte (b : Byte.byte) : Byte.byte :=
  if (97 <=? b2z b) && (b2z b <=? 122) then z2b (b2z b - 32) else b.
Definition ToUpper (l : bytes) : bytes := upper_byte <$> l.

(** [strings.ReplaceAll] of one byte. *)
Definition ReplaceByte (x : Byte.byte) (r : bytes) (l : bytes) : bytes :=
  flat_map (fun b => if bool_decide (b = x) then r else [b]) l.

(** ** Columns of fmt *)

Definition within (lo hi : Z) (b : Byte.byte) : bool := (lo <=? b2z b) && (b2z b <=? hi).

(** Whether the first two bytes begin an encoding of two, three or four bytes
    (surrogates, overlong forms and runes past U+10FFFF do not). *)
Definition lead2 (b0 b1 : Byte.byte) : bool := within 194 223 b0 && within 128 191 b1.
Definition lead3 (b0 b1 : Byte.byte) : bool :=
  bool_decide (b2z b0 = 224) && within 160 191 b1
  || (within 225 236 b0 || within 238 239 b0) && within 128 191 b1
  || bool_decide (b2z b0 = 237) && within 128 159 b1.
Definition lead4 (b0 b1 : Byte.byte) : bool :=
  bool_decide (b2z b0 = 240) && within 144 191 b1
  || within 241 243 b0 && within 128 191 b1
  || bool_decide (b2z b0 = 244) && within 128 143 b1.

(** [utf8.DecodeRune]: the bytes of the first rune; one for a byte that begins
    no valid encoding. *)
Definition rune_len (l : bytes) : nat :=
  match l with
  | b0 :: b1 :: rest =>
      if lead2 b0 b1 then 2
      else match rest with
           | b2 :: rest' =>
               if lead3 b0 b1 && within 128 191 b2 then 3
               else match rest' with
                    | b3 :: _ => if lead4 b0 b1 && within 128 191 b2 && within 128 191 b3 then 4 else 1
                    | [] => 1
                    end
           | [] => 1
           end
  | _ => 1
  end.

(** [utf8.RuneCountInString]; [skip] bytes of the current rune are left. *)
Fixpoint rune_count (skip : nat) (l : bytes) : nat :=
  match l with
  | [] => 0
  | _ :: l' => match skip with
               | O => S (rune_count (rune_len l - 1) l')
               | S s => rune_count s l'
               end
  end.

Definition RuneCount (l : bytes) : nat := rune_count 0 l.

(** The verbs [%-12s] and [%12s]: spaces up to the width, in runes. *)
Definition space : Byte.byte := z2b 32.
Definition padRight (w : nat) (l : bytes) : bytes := l ++ replicate (w - RuneCount l) space.
Definition padLeft (w : nat) (l : bytes) : bytes := replicate (w - RuneCount l) space ++ l.

Definition newline : bytes := [z2b 10].

(** [strings.HasSuffix]. *)
Definition HasSuffix (l suffix : bytes) : bool :=
  (length suffix <=? length l)%nat && bool_decide (drop (length l - length suffix) l = suffix).

(** ** Properties *)

Lemma digit_byte n : 0 <= n < 10 -> b2z (z2b (48 + n)) = 48 + n.
Proof. intros. rewrite b2z_z2b. apply Z.mod_small. lia. Qed.

Lemma is_digit_byte n : 0 <= n < 10 -> is_digit (z2b (48 + n)) = true.
Proof. intros. unfold is_digit. rewrite digit_byte by done. repeat case_zcmp; simpl; lia. Qed.

Lemma digits_app fuel n acc : digits fuel n acc = digits fuel n [] ++ acc.
Proof.
  revert n acc. induction fuel as [|f IH]; intros n acc; simpl; [done|].
  case_zcmp; [done|]. rewrite IH, (IH _ [_]), <- app_assoc. done.
Qed.

Lemma digits_value_app a b acc : digits_value (a ++ b) acc = digits_value b (digits_value a acc).
Proof. revert acc. induction a as [|x a IH]; intros acc; simpl; auto. Qed.

Lemma digits_value_digits fuel n :
  0 <= n < 10 ^ Z.of_nat fuel -> digits_value (digits fuel n []) 0 = n.
Proof.
  revert n. induction fuel as [|f IH]; intros n Hn; [simpl in *; lia|]. simpl.
  pose proof (Z.mod_pos_bound n 10). case_zcmp.
  - simpl. rewrite digit_byte by lia. rewrite Z.mod_small by lia. lia.
  - rewrite digits_app, digits_value_app, IH.
    + simpl. rewrite digit_byte by lia. pose proof (Z.div_mod n 10). lia.
    + split; [apply Z.div_pos; lia|]. apply Z.div_lt_upper_bound; [lia|].
      rewrite <- Z.pow_succ_r by lia. replace (Z.succ (Z.of_nat f)) with (Z.of_nat (S f)) by lia. lia.
Qed.

Lemma digits_all fuel n acc :
  0 <= n -> forallb is_digit acc = true -> forallb is_digit (digits fuel n acc) = true.
Proof.
  revert n acc. induction fuel as [|f IH]; intros n acc Hn Ha; simpl; [done|].
  pose proof (Z.mod_pos_bound n 10). assert (is_digit (z2b (48 + n mod 10)) = true) by (apply is_digit_byte; lia).
  case_zcmp; [simpl; by rewrite H0|]. apply IH; [apply Z.div_pos; lia|]. simpl. by rewrite H0.
Qed.

Lemma digits_length fuel n acc : (length acc <= length (digits fuel n acc))%nat.
Proof.
  revert n acc. induction fuel as [|f IH]; intros n acc; simpl; [lia|].
  case_zcmp; simpl; [lia|]. specialize (IH (n / 10) (z2b (48 + n mod 10) :: acc)). simpl in IH. lia.
Qed.

Lemma digits_nonempty fuel n : (0 < fuel)%nat -> 1 <= len (digits fuel n []).
Proof.
  intros Hf. destruct fuel as [|f]; [lia|]. simpl. unfold len. case_zcmp; [done|].
  pose proof (digits_length f (n / 10) [z2b (48 + n mod 10)]). simpl in *. lia.
Qed.

Lemma digit_not b : is_digit b = true -> b <> dash_byte /\ b <> z2b 43 /\ b <> comma_byte.
Proof. intros Hd. split_and!; intros ->; by vm_compute in Hd. Qed.

Lemma Atoi_Itoa n : - 2 ^ 63 <= n < 2 ^ 63 -> Atoi (Itoa n) = Some n.
Proof.
  intros Hn. unfold Itoa.
  assert (forall k, 0 <= k <= 2 ^ 63 -> (len (digits 20 k []) =? 0) || negb (forallb is_digit (digits 20 k [])) = false
    /\ digits_value (digits 20 k []) 0 = k) as Hd.
  { intros k Hk. pose proof (digits_nonempty 20 k ltac:(lia)). rewrite digits_all by (done || lia).
    rewrite digits_value_digits by (change (10 ^ Z.of_nat 20) with 100000000000000000000; lia).
    split; [|done]. case_zcmp; [lia|done]. }
  case_zcmp.
  - destruct (Hd (- n)) as [H1 H2]; [lia|]. unfold Atoi. rewrite bool_decide_eq_true_2 by done.
    rewrite H1, H2, Z.opp_involutive. repeat case_zcmp; simpl; try done; lia.
  - destruct (Hd n) as [H1 H2]; [lia|]. unfold Atoi.
    assert (exists x l, digits 20 n [] = x :: l /\ is_digit x = true) as (x & l & Hx & Hdx).
    { pose proof (digits_nonempty 20 n ltac:(lia)). destruct (digits 20 n []) as [|x l] eqn:E; [done|].
      exists x, l. split; [done|]. pose proof (digits_all 20 n [] ltac:(lia) eq_refl) as Ha. rewrite E in Ha.
      by apply andb_true_iff in Ha as [? _]. }
    rewrite Hx. destruct (digit_not x Hdx) as (? & ? & _). rewrite !bool_decide_eq_false_2 by done.
    rewrite <- Hx, H1, H2. repeat case_zcmp; simpl; try done; lia.
Qed.

(** A visible ASCII byte neither begins nor ends a space rune. *)
Definition graphic (b : Byte.byte) : Prop := 33 <= b2z b <= 126.

#[global] Instance graphic_dec b : Decision (graphic b).
Proof. unfold graphic. apply _. Defined.

Lemma strip_prefix_head p x l y : head p = Some y -> y <> x -> strip_prefix p (x :: l) = None.
Proof. destruct p as [|z p]; [done|]. intros [= ->] Hne. simpl. by rewrite bool_decide_eq_false_2. Qed.

Lemma strip_any_graphic ps x l :
  Forall (fun p => exists y, head p = Some y /\ ~ graphic y) ps -> graphic x -> strip_any ps (x :: l) = None.
Proof.
  intros Hps Hx. induction Hps as [|p ps (y & Hy & Hg) _ IH]; [done|]. cbn [strip_any].
  rewrite (strip_prefix_head p x l y) by (done || by intros ->). done.
Qed.

Definition head_plain (p : bytes) : bool :=
  match head p with Some y => negb (bool_decide (graphic y)) | None => false end.

Lemma heads_plain ps : forallb head_plain ps = true -> Forall (fun p => exists y, head p = Some y /\ ~ graphic y) ps.
Proof.
  intros Hall. apply Forall_forall. intros p Hp%list_elem_of_In.
  pose proof (proj1 (forallb_forall _ _) Hall p Hp) as Hh. unfold head_plain in Hh.
  destruct (head p) as [y|]; [|done]. exists y. split; [done|]. intros Hg.
  by rewrite bool_decide_eq_true_2 in Hh.
Qed.

Lemma trim_start_graphic fuel ps x l :
  Forall (fun p => exists y, head p = Some y /\ ~ graphic y) ps -> graphic x ->
  trim_start fuel ps (x :: l) = x :: l.
Proof. intros Hps Hx. destruct fuel; [done|]. cbn [trim_start]. by rewrite strip_any_graphic. Qed.

Lemma trim_right_graphic fuel l :
  Forall graphic l -> trim_start fuel (reverse <$> space_runes) (reverse l) = reverse l.
Proof.
  intros Hg. apply Forall_reverse in Hg. destruct (reverse l) as [|y r]; [by destruct fuel|].
  apply Forall_cons in Hg as [Hy _]. apply trim_start_graphic; [apply heads_plain; by vm_compute|done].
Qed.

(** A text of visible bytes is already trimmed. *)
Lemma TrimSpace_graphic l :
  Forall graphic l -> TrimSpace l = l.
Proof.
  intros Hg. destruct l as [|x l]; [done|]. unfold TrimSpace, TrimLeft.
  rewrite trim_start_graphic; [|apply heads_plain; by vm_compute|by apply Forall_cons in Hg as [? _]].
  unfold TrimRight. by rewrite trim_right_graphic, reverse_involutive.
Qed.

(** The line end a command prints after it is trimmed. *)
Lemma TrimSpace_line l : Forall graphic l -> TrimSpace (l ++ newline) = l.
Proof.
  intros Hg. destruct l as [|x l]; [by vm_compute|]. unfold TrimSpace, TrimLeft. cbn [app].
  rewrite trim_start_graphic; [|apply heads_plain; by vm_compute|by apply Forall_cons in Hg as [? _]].
  unfold TrimRight. rewrite app_comm_cons, length_app, reverse_app, Nat.add_comm.
  change (reverse newline ++ reverse (x :: l)) with (z2b 10 :: reverse (x :: l)). change (length newline + length (x :: l))%nat with (S (length (x :: l))).
  generalize (length (x :: l)). intros n. cbn [trim_start].
  replace (strip_any _ _) with (Some (reverse (x :: l))) by reflexivity. cbv iota.
  by rewrite trim_right_graphic, reverse_involutive.
Qed.

Lemma split_at_plain sep l cur : sep ∉ l -> split_at sep l cur = [cur ++ l].
Proof.
  revert cur. induction l as [|x l IH]; intros cur Hn; cbn [split_at]; [by rewrite app_nil_r|].
  apply not_elem_of_cons in Hn as [Hx Hn]. rewrite bool_decide_eq_false_2 by done.
  rewrite IH by done. by rewrite <- app_assoc.
Qed.

Lemma split_at_sep sep a l cur :
  sep ∉ a -> split_at sep (a ++ sep :: l) cur = (cur ++ a) :: split_at sep l [].
Proof.
  revert cur. induction a as [|x a IH]; intros cur Hn; cbn [split_at app].
  - rewrite bool_decide_eq_true_2 by done. by rewrite app_nil_r.
  - apply not_elem_of_cons in Hn as [Hx Hn]. rewrite bool_decide_eq_false_2 by done.
    rewrite IH by done. by rewrite <- app_assoc.
Qed.

(** Splitting undoes joining when no part holds the separator. *)
Lemma Split_Join sep parts :
  parts <> [] -> Forall (fun p => sep ∉ p) parts -> Split sep (Join [sep] parts) = parts.
Proof.
  intros Hne Hall. unfold Split. induction Hall as [|p parts Hp Hall IH]; [done|].
  destruct parts as [|q parts]; [by rewrite split_at_plain|].
  change (Join [sep] (p :: q :: parts)) with (p ++ sep :: Join [sep] (q :: parts)).
  rewrite split_at_sep by done. by rewrite IH.
Qed.

Lemma cut_at_plain sep l cur : sep ∉ l -> cut_at sep l cur = (cur ++ l, [], false).
Proof.
  revert cur. induction l as [|x l IH]; intros cur Hn; cbn [cut_at]; [by rewrite app_nil_r|].
  apply not_elem_of_cons in Hn as [Hx Hn]. rewrite bool_decide_eq_false_2 by done.
  rewrite IH by done. by rewrite <- app_assoc.
Qed.

Lemma cut_at_sep sep a l cur : sep ∉ a -> cut_at sep (a ++ sep :: l) cur = (cur ++ a, l, true).
Proof.
  revert cur. induction a as [|x a IH]; intros cur Hn; cbn [cut_at app].
  - rewrite bool_decide_eq_true_2 by done. by rewrite app_nil_r.
  - apply not_elem_of_cons in Hn as [Hx Hn]. rewrite bool_decide_eq_false_2 by done.
    rewrite IH by done. by rewrite <- app_assoc.
Qed.

(** The rendering of a non-negative number is made of digits. *)
Lemma Itoa_digits n : 0 <= n -> Forall (fun b => is_digit b = true) (Itoa n).
Proof.
  intros Hn. unfold Itoa. case_zcmp; [lia|]. apply Forall_forall. intros b Hb%list_elem_of_In.
  pose proof (digits_all 20 n [] Hn eq_refl) as Ha. by apply (proj1 (forallb_forall _ _) Ha).
Qed.

Lemma digit_graphic b : is_digit b = true -> graphic b.
Proof. unfold is_digit, graphic. intros [?%Z.leb_le ?%Z.leb_le]%andb_true_iff. lia. Qed.

Lemma Itoa_no n b : 0 <= n -> is_digit b = false -> b ∉ Itoa n.
Proof.
  intros Hn Hb Hin. pose proof (Itoa_digits n Hn) as Ha. rewrite Forall_forall in Ha.
  by rewrite (Ha b Hin) in Hb.
Qed.

Lemma Itoa_trim n : 0 <= n -> TrimSpace (Itoa n) = Itoa n.
Proof. intros Hn. apply TrimSpace_graphic. eapply Forall_impl; [by apply Itoa_digits|]. apply digit_graphic. Qed.
