(* ===== verification/Cpuset.v ===== *)
(** * Core partitioning (cpuset/cpuset.go, cpuset/cpuset_linux.go)

    [Partition] renders two disjoint core ranges as taskset lists; [Count]
    reads such a list back.  [cores] is the meaning of a list. *)

From S2P Require Import Prelude Codec Text.
Local Open Scope go_scope.

Inductive cpu_error :=
| ErrTooFew (n : Z)
| ErrEmpty
| ErrBadList (lst : bytes)
| ErrDescending (part : bytes)
| ErrNoCores (lst : bytes).

Definition rangeList (lo hi : Z) : bytes :=
  if lo >=? hi then Itoa lo else Itoa lo ++ [dash_byte] ++ Itoa hi.

Definition Partition (numCPU clientCores : Z) : (bytes * bytes) + cpu_error :=
  if numCPU <? 2 then inr (ErrTooFew numCPU)
  else
    let clientCores := if clientCores <? 1 then 1 else clientCores in
    let clientCores := if clientCores >? numCPU - 1 then numCPU - 1 else clientCores in
    let serverCores := numCPU - clientCores in
    inl (rangeList 0 (serverCores - 1), rangeList serverCores (numCPU - 1)).

Definition DefaultClientCores (numCPU : Z) : Z := Z.min (Z.max (Z.quot numCPU 2) 2) (numCPU - 1).

(** One comma-separated part: [None] for a blank one. *)
Definition countPart (lst part : bytes) : Z + cpu_error :=
  let part := TrimSpace part in
  if len part =? 0 then inl 0
  else
    let '(lo, hi, found) := Cut dash_byte part in
    match Atoi (TrimSpace lo) with
    | None => inr (ErrBadList lst)
    | Some a =>
        if negb found then inl 1
        else
          match Atoi (TrimSpace hi) with
          | None => inr (ErrBadList lst)
          | Some b => if b <? a then inr (ErrDescending part) else inl (swrap64 (b - a + 1))
          end
    end.

Fixpoint countLoop (lst : bytes) (parts : list bytes) (total : Z) : Z + cpu_error :=
  match parts with
  | [] => inl total
  | p :: parts' =>
      match countPart lst p with
      | inr e => inr e
      | inl n => countLoop lst parts' (swrap64 (total + n))
      end
  end.

Definition Count (lst : bytes) : Z + cpu_error :=
  if len (TrimSpace lst) =? 0 then inr ErrEmpty
  else
    match countLoop lst (Split comma_byte lst) 0 with
    | inr e => inr e
    | inl total => if total =? 0 then inr (ErrNoCores lst) else inl total
    end.

(** *** cpuset_linux.go *)

Definition pinnedEnv : bytes := txt "KVBENCH_CPU_PINNED".
Definition serverEnv : bytes := txt "KVBENCH_CPU_SERVER".
Definition clientEnv : bytes := txt "KVBENCH_CPU_CLIENT".

(** The environment a process was started with, in order.  [os.Getenv] reads the
    first entry of a name; without one it is empty. *)
Definition environ : Type := list (bytes * bytes).

Fixpoint Getenv (env : environ) (name : bytes) : bytes :=
  match env with
  | [] => []
  | (n, v) :: env' => if bool_decide (n = name) then v else Getenv env' name
  end.

(** [taskset] is what [exec.LookPath] finds. *)
Definition Available (taskset : option bytes) : bool := bool_decide (is_Some taskset).

(** The program and environment of a successful exec, or what [Split] returned
    and the [GOMAXPROCS] it set, if it set one. *)
Inductive split_result :=
| Returned (server client : bytes) (active : bool) (procs : option Z)
| Failed
| Execed (argv : list bytes) (env : environ).

Definition Split_ (env : environ) (numCPU : Z) (taskset self : option bytes)
    (args : list bytes) (exec_ok : bool) (serverList clientList : bytes) : split_result :=
  if bool_decide (Getenv env pinnedEnv <> []) then
    let server := Getenv env serverEnv in
    let client := Getenv env clientEnv in
    let procs := match Count client with
                 | inl n => if n >? 0 then Some n else None
                 | inr _ => None
                 end in
    Returned server client true procs
  else
    let lists :=
      if (len serverList =? 0) || (len clientList =? 0)
      then Partition numCPU (DefaultClientCores numCPU)
      else inl (serverList, clientList) in
    match lists with
    | inr _ => Failed
    | inl (s, c) =>
        match taskset, self with
        | Some _, Some self =>
            if exec_ok
            then Execed ([txt "taskset"; txt "-c"; c; self] ++ args)
                   (env ++ [(pinnedEnv, txt "1"); (serverEnv, s); (clientEnv, c)])
            else Failed
        | _, _ => Failed
        end
    end.

Definition ServerWrap (taskset : bool) (lst bin : bytes) (args : list bytes) : bytes * list bytes :=
  if len lst =? 0 then (bin, args)
  else if taskset then (txt "taskset", [txt "-c"; lst; bin] ++ args)
  else (bin, args).

(** ** Other systems (cpuset/cpuset_other.go): no split, ever *)

Definition Available_other : bool := false.
Definition Split_other (serverList clientList : bytes) : split_result := Returned [] [] false None.
Definition ServerWrap_other (lst bin : bytes) (args : list bytes) : bytes * list bytes := (bin, args).

(** ** What a list means *)

(** The cores of a range. *)
Definition range (lo hi : Z) : list Z := (fun i => lo + Z.of_nat i) <$> seq 0 (Z.to_nat (hi - lo + 1)).

(** [l] is a taskset list naming the cores from [lo] to [hi]. *)
Definition names_range (l : bytes) (lo hi : Z) : Prop := lo <= hi /\ l = rangeList lo hi.

Lemma Itoa_nonempty n : 0 <= n -> (len (Itoa n) =? 0) = false.
Proof.
  intros Hn. unfold Itoa. case_zcmp; [lia|]. pose proof (digits_nonempty 20 n ltac:(lia)).
  apply Z.eqb_neq. lia.
Qed.

Lemma rangeList_graphic lo hi : 0 <= lo -> lo <= hi -> Forall graphic (rangeList lo hi).
Proof.
  intros Hlo Hhi. assert (forall n, 0 <= n -> Forall graphic (Itoa n)) as Hi.
  { intros n Hn. eapply Forall_impl; [by apply Itoa_digits|]. apply digit_graphic. }
  unfold rangeList. destruct (lo >=? hi); [by apply Hi|]. rewrite !Forall_app. split_and!; [by apply Hi| |by apply Hi; lia].
  repeat constructor; by vm_compute.
Qed.

Lemma rangeList_no_comma lo hi : 0 <= lo -> lo <= hi -> comma_byte ∉ rangeList lo hi.
Proof.
  intros Hlo Hhi. assert (forall n, 0 <= n -> comma_byte ∉ Itoa n) as Hi by (intros; by apply Itoa_no).
  unfold rangeList. destruct (lo >=? hi); [by apply Hi|]. rewrite !not_elem_of_app. split_and!; [by apply Hi| |apply Hi; lia].
  apply not_elem_of_cons. split; [done|]. apply not_elem_of_nil.
Qed.

Lemma Count_rangeList lo hi :
  0 <= lo -> lo <= hi -> hi < 2 ^ 62 -> Count (rangeList lo hi) = inl (hi - lo + 1).
Proof.
  intros Hlo Hle Hhi. unfold Count. rewrite TrimSpace_graphic by (by apply rangeList_graphic).
  assert ((len (rangeList lo hi) =? 0) = false) as Hne.
  { pose proof (Itoa_nonempty lo Hlo) as Hn. unfold rangeList. destruct (lo >=? hi); [done|].
    rewrite len_app. apply Z.eqb_neq in Hn. apply Z.eqb_neq. zlia. }
  rewrite Hne. unfold Split. rewrite split_at_plain by (by apply rangeList_no_comma). cbn [app countLoop].
  assert (countPart (rangeList lo hi) (rangeList lo hi) = inl (hi - lo + 1)) as ->.
  { unfold countPart. rewrite TrimSpace_graphic by (by apply rangeList_graphic). rewrite Hne.
    unfold rangeList at 1. rewrite Z.geb_leb. unfold Cut. destruct (Z.leb_spec hi lo).
    - rewrite cut_at_plain by (by apply Itoa_no). cbn [app].
      rewrite Itoa_trim, Atoi_Itoa by lia. cbn [negb]. f_equal. lia.
    - cbn [app]. rewrite cut_at_sep by (by apply Itoa_no). cbn [app].
      rewrite !Itoa_trim, !Atoi_Itoa by lia. cbn [negb]. case_zcmp; [lia|].
      rewrite swrap64_id by zlia. done. }
  rewrite Z.add_0_l, swrap64_id by zlia. case_zcmp; [lia|done].
Qed.

Lemma range_split n k : 0 <= k <= n -> range 0 (k - 1) ++ range k (n - 1) = range 0 (n - 1).
Proof.
  intros Hk. unfold range. replace (Z.to_nat (n - 1 - 0 + 1)) with (Z.to_nat (k - 1 - 0 + 1) + Z.to_nat (n - 1 - k + 1))%nat by lia.
  rewrite seq_app, fmap_app. f_equal.
  rewrite Nat.add_comm, <- fmap_add_seq, <- list_fmap_compose.
  apply list_fmap_ext. intros i x _. simpl. lia.
Qed.

(** The clamped client share leaves both sides at least one core. *)
Lemma Partition_ranges n k :
  2 <= n -> exists s, 1 <= s <= n - 1 /\
    Partition n k = inl (rangeList 0 (s - 1), rangeList s (n - 1)).
Proof.
  intros Hn. unfold Partition. destruct (Z.ltb_spec n 2); [lia|].
  eexists. split; [|done]. repeat case_zcmp; lia.
Qed.

(** For two cores or more, whatever share the client asks for, the lists name
    adjoining ranges that together are the cores [0 .. numCPU-1]. *)
Definition covers (n s : Z) (server client : bytes) : Prop :=
  names_range server 0 (s - 1) /\ names_range client s (n - 1) /\
  range 0 (s - 1) ++ range s (n - 1) = range 0 (n - 1) /\ NoDup (range 0 (n - 1)) /\
  Count server = inl s /\ Count client = inl (n - s).

Lemma Partition_covers n k :
  2 <= n -> n < 2 ^ 62 ->
  exists server client s, Partition n k = inl (server, client) /\ covers n s server client /\
    1 <= s <= n - 1 /\ (1 <= k <= n - 1 -> n - s = k).
Proof.
  intros Hn Hmax. destruct (Partition_ranges n k Hn) as (s & Hs & Hp).
  exists (rangeList 0 (s - 1)), (rangeList s (n - 1)), s. unfold covers.
  split_and!; try done; try lia; try (split; [lia|done]).
  - apply range_split. lia.
  - unfold range. apply NoDup_fmap_2_strong; [|apply NoDup_seq]. intros; lia.
  - rewrite Count_rangeList by lia. f_equal. lia.
  - rewrite Count_rangeList by lia. f_equal. lia.
  - intros Hk. unfold Partition in Hp. destruct (Z.ltb_spec n 2); [lia|].
    destruct (Z.ltb_spec k 1); [lia|]. rewrite Z.gtb_ltb in Hp. destruct (Z.ltb_spec (n - 1) k); [lia|].
    injection Hp as Hp _. apply (f_equal Count) in Hp. rewrite !Count_rangeList in Hp by lia.
    injection Hp as Hp. lia.
Qed.

(** The default share leaves the server a core and is half the machine from
    four cores up. *)
Lemma default_share n :
  2 <= n -> 1 <= DefaultClientCores n <= n - 1 /\ (4 <= n -> DefaultClientCores n = n / 2).
Proof.
  intros Hn. unfold DefaultClientCores. rewrite Z.quot_div_nonneg by lia.
  pose proof (Z.div_mod n 2 ltac:(lia)). pose proof (Z.mod_pos_bound n 2 ltac:(lia)). split; lia.
Qed.

Lemma Getenv_app env l name : name ∉ env.*1 -> Getenv (env ++ l) name = Getenv l name.
Proof.
  induction env as [|[n v] env IH]; intros Hn; [done|]. cbn in *. rewrite not_elem_of_cons in Hn.
  rewrite bool_decide_eq_false_2 by naive_solver. apply IH. naive_solver.
Qed.

Lemma Getenv_absent env name : name ∉ env.*1 -> Getenv env name = [].
Proof. intros Hn. rewrite <- (app_nil_r env). by rewrite Getenv_app. Qed.

Lemma Getenv_first env l name : name ∈ env.*1 -> Getenv (env ++ l) name = Getenv env name.
Proof.
  induction env as [|[n v] env IH]; intros Hn; [by apply elem_of_nil in Hn|]. cbn in *. case_bool_decide; [done|].
  apply IH. apply elem_of_cons in Hn as [->|Hn]; done.
Qed.

(** The environment of a shell that has not set the three variables. *)
Definition unpinned (env : environ) : Prop := (pinnedEnv ∉ env.*1) /\ (serverEnv ∉ env.*1) /\ (clientEnv ∉ env.*1).

(** The second pass reads back what the first carried. *)
Lemma Split_second_pass env server client numCPU taskset self args ok sl cl :
  unpinned env ->
  Split_ (env ++ [(pinnedEnv, txt "1"); (serverEnv, server); (clientEnv, client)]) numCPU taskset self args ok sl cl =
  Returned server client true (match Count client with inl n => if n >? 0 then Some n else None | inr _ => None end).
Proof. intros (Hp & Hs & Hc). unfold Split_. by rewrite !Getenv_app. Qed.

(** C34: the split covers the machine.  On two cores or more a partition for any
    client share gives two non-empty lists that name adjoining ranges, together
    all cores, each once.  A split without lists of its own, from an environment
    without its variables, re-executes the process under taskset on the client
    half of such a partition, half the machine from four cores up, and the
    second pass, in the environment the first left, returns the same lists and
    sets GOMAXPROCS to the number of client cores. *)
Theorem split_covers_machine n k env taskset self args numCPU' :
  2 <= n -> n < 2 ^ 62 -> unpinned env ->
  (exists server client s, Partition n k = inl (server, client) /\ covers n s server client /\
     1 <= s <= n - 1 /\ (1 <= k <= n - 1 -> n - s = k)) /\
  (exists server client s env',
     Split_ env n (Some taskset) (Some self) args true [] [] =
       Execed ([txt "taskset"; txt "-c"; client; self] ++ args) env' /\
     Split_ env' numCPU' (Some taskset) (Some self) args true [] [] =
       Returned server client true (Some (n - s)) /\
     covers n s server client /\ 1 <= s <= n - 1 /\ (4 <= n -> n - s = n / 2)).
Proof.
  intros Hn Hmax Henv. split; [by apply Partition_covers|].
  destruct (Partition_covers n (DefaultClientCores n) Hn Hmax) as (server & client & s & Hp & Hc & Hs & Hk).
  destruct (default_share n Hn) as [Hd Hhalf].
  exists server, client, s, (env ++ [(pinnedEnv, txt "1"); (serverEnv, server); (clientEnv, client)]).
  rewrite Split_second_pass by done. unfold Split_. rewrite (Getenv_absent env pinnedEnv) by apply Henv.
  change ((len [] =? 0) || (len [] =? 0)) with true. rewrite Hp. pose proof Hc as (_ & _ & _ & _ & _ & ->).
  split_and!; try done; try lia.
  rewrite Z.gtb_ltb. case_zcmp; [done|lia].
Qed.

Lemma split_covers_machine_witness :
  let env := [(txt "PATH", txt "/usr/bin")] in
  (exists server client s, Partition 6 3 = inl (server, client) /\ covers 6 s server client /\
     1 <= s <= 6 - 1 /\ (1 <= 3 <= 6 - 1 -> 6 - s = 3)) /\
  (exists server client s env',
     Split_ env 6 (Some (txt "/usr/bin/taskset")) (Some (txt "kvbench")) [txt "run"] true [] [] =
       Execed ([txt "taskset"; txt "-c"; client; txt "kvbench"] ++ [txt "run"]) env' /\
     Split_ env' 3 (Some (txt "/usr/bin/taskset")) (Some (txt "kvbench")) [txt "run"] true [] [] =
       Returned server client true (Some (6 - s)) /\
     covers 6 s server client /\ 1 <= s <= 6 - 1 /\ (4 <= 6 -> 6 - s = 6 / 2)).
Proof.
  apply (split_covers_machine 6 3 [(txt "PATH", txt "/usr/bin")] (txt "/usr/bin/taskset") (txt "kvbench") [txt "run"] 3);
    [lia|lia|]. split_and!; apply (bool_decide_unpack _); vm_compute; exact Logic.I.
Defined.

(** A variable the environment already has is read before the one the first
    pass appends.  With [KVBENCH_CPU_SERVER] exported the second pass hands the
    servers that list and not the one it chose; with [KVBENCH_CPU_PINNED]
    exported empty the second pass is a first pass again, which re-executes. *)
Theorem split_reads_stale_environment env n taskset self args ok server client :
  Split_ env n (Some taskset) (Some self) args true server client =
    Execed ([txt "taskset"; txt "-c"; client; self] ++ args)
      (env ++ [(pinnedEnv, txt "1"); (serverEnv, server); (clientEnv, client)]) ->
  let env' := env ++ [(pinnedEnv, txt "1"); (serverEnv, server); (clientEnv, client)] in
  (pinnedEnv ∉ env.*1 -> serverEnv ∈ env.*1 ->
   exists c procs, Split_ env' n (Some taskset) (Some self) args ok server client =
     Returned (Getenv env serverEnv) c true procs) /\
  (pinnedEnv ∈ env.*1 -> server <> [] -> client <> [] ->
   exists env'', Split_ env' n (Some taskset) (Some self) args true server client =
     Execed ([txt "taskset"; txt "-c"; client; self] ++ args) env'').
Proof.
  intros Hfirst env'. split.
  - intros Hp Hs. unfold Split_, env'. rewrite (Getenv_app env _ pinnedEnv), (Getenv_first env _ serverEnv) by done.
    by eexists _, _.
  - intros Hp Hs Hc. unfold Split_ in Hfirst. case_bool_decide as Hg; [done|].
    unfold Split_, env'. rewrite (Getenv_first env _ pinnedEnv) by done. rewrite Hg, bool_decide_eq_false_2 by (intros E; by apply E).
    destruct server as [|x server]; [done|]. destruct client as [|y client]; [done|]. rewrite !len_cons.
    pose proof (len_nonneg server). pose proof (len_nonneg client).
    destruct (Z.eqb_spec (1 + len server) 0); [lia|]. destruct (Z.eqb_spec (1 + len client) 0); [lia|]. by eexists.
Qed.
