(* ===== verification/Respnet.v ===== *)
(** * RESP servers (adapters/respnet/respnet.go and the *_net.go adapters)

    One engine for every server that speaks the Redis protocol: it launches
    the server on a private unix socket, waits for it to answer, passes each
    call to the client library and tears the server down.  A spec gives the
    name, the binary and the command line of one server; the specs of redis,
    valkey, dragonfly, garnet, kvrocks, aki and kv-redis are at the end.  The
    server with the client library is a parameter. *)

From S2P Require Import Prelude Codec Engine Ordered Adapter Point Text Cpuset.
Local Open Scope go_scope.

(** ** The server behind the client library *)

(** [rs_get] reports an absent key as [goredis.Nil], here [ErrNotFound];
    [rs_exec] sends a pipeline. *)
Class RespServer (DB : Type) := {
  rs_get : DB -> bytes -> bytes + serr;
  rs_set : DB -> bytes -> bytes -> DB * option serr;
  rs_del : DB -> bytes -> DB * option serr;
  rs_exec : DB -> list memOp -> DB * option serr;
  rs_bgRewriteAof : DB -> DB * option serr;
  rs_save : DB -> DB * option serr }.

(** The commands of a pipeline are executed in order and each on its own: one
    that fails, or a connection that breaks, leaves the others.  A write whose
    reply was lost may have been executed. *)
Class RespLaws (DB : Type) `{RespServer DB} := {
  rs_rep : DB -> gmap bytes bytes -> Prop;
  rs_ok : DB -> Prop;
  rs_valid : bytes -> bytes -> Prop;
  rs_get_law db m k : rs_rep db m ->
    match rs_get db k with
    | inl v => m !! k = Some v
    | inr ErrNotFound => m !! k = None
    | inr (ErrStore _) => True
    end;
  rs_set_law db m k v : rs_rep db m ->
    let '(db', err) := rs_set db k v in
    match err with
    | None => rs_rep db' (<[k := v]> m)
    | Some _ => exists m', partly m [PutOp k v] m' /\ rs_rep db' m'
    end;
  rs_del_law db m k : rs_rep db m ->
    let '(db', err) := rs_del db k in
    match err with
    | None => rs_rep db' (delete k m)
    | Some _ => exists m', partly m [DelOp k] m' /\ rs_rep db' m'
    end;
  rs_exec_law db m ops : rs_rep db m ->
    let '(db', err) := rs_exec db ops in
    match err with
    | None => rs_rep db' (apply_ops m ops)
    | Some _ => exists m', partly m ops m' /\ rs_rep db' m'
    end;
  rs_get_ok db k v : rs_ok db -> rs_valid k v -> forall msg, rs_get db k <> inr (ErrStore msg);
  rs_set_ok db k v : rs_ok db -> rs_valid k v -> (rs_set db k v).2 = None /\ rs_ok (rs_set db k v).1;
  rs_del_ok db k v : rs_ok db -> rs_valid k v -> (rs_del db k).2 = None /\ rs_ok (rs_del db k).1;
  rs_exec_ok db ops : rs_ok db -> Forall (op_valid rs_valid) ops ->
    (rs_exec db ops).2 = None /\ rs_ok (rs_exec db ops).1 }.

(** ** Specs *)

Inductive flushCmd := BgRewriteAOF | Save.

Record Spec := MkSpec {
  SpName : bytes;
  SpVersion : string;
  SpBinary : bytes;
  SpClass : string;
  SpArgsFn : Config -> bytes -> list bytes;
  SpFlushFn : option flushCmd;
  SpAsterisks : list Asterisk }.

Definition RedisDialectArgs (cfg : Config) (sock : bytes) : list bytes :=
  let appendonly := if bool_decide (CfgSynchronous cfg = "OFF") then txt "no" else txt "yes" in
  [txt "--port"; txt "0"; txt "--unixsocket"; sock; txt "--dir"; txt (CfgDir cfg); txt "--save"; txt "";
   txt "--appendonly"; appendonly; txt "--appendfsync"; txt "everysec"].

Definition engMeta (s : Spec) : Meta :=
  MkMeta (str (SpName s)) FamilyHashLog ModeNetwork (SpClass s) (SpVersion s) ""
    (MkCapabilities false true true false false false true) (SpAsterisks s) false.

(** ** Launching *)

(** What the engine holds: whether it started a process, made a client, and
    the path of the socket. *)
Record eng := MkEng { e_cmd : bool; e_cli : bool; e_sock : bytes }.

Definition newEng : eng := MkEng false false [].

(** What [Open] and [Close] do outside the process, in order. *)
Inductive effect :=
| Start (bin : bytes) (args : list bytes)
| Ping
| Sleep
| Kill
| Wait
| Shutdown
| CloseClient
| Remove (path : bytes).

#[global] Instance effect_eq_dec : EqDecision effect.
Proof. solve_decision. Defined.

Definition sockPath (name : bytes) (pid seqno : Z) : bytes :=
  txt "/tmp/kvbr-" ++ name ++ txt "-" ++ Itoa pid ++ txt "-" ++ Itoa seqno ++ txt ".sock".

Definition deadline : Z := 20 * 1000000000.
Definition pause : Z := 20 * 1000000.

(** The loop that waits for the server: [ping i] is whether the [i]th ping is
    answered, [clock i] the time since the launch at the check after it.  The
    outcome is whether the server came up, and what was done; [None] when the
    fuel is spent. *)
Fixpoint await (fuel : nat) (ping : nat -> bool) (clock : nat -> Z) (i : nat) : option (bool * list effect) :=
  match fuel with
  | O => None
  | S f =>
      if ping i then Some (true, [Ping])
      else if deadline <? clock i then Some (false, [Ping; Kill])
      else
        match await f ping clock (S i) with
        | Some (up, eff) => Some (up, Ping :: Sleep :: eff)
        | None => None
        end
  end.

(** [Open]: [lookPath] is the binary found on PATH, [starts] whether the
    process can be started. *)
Definition Open (fuel : nat) (s : Spec) (cfg : Config) (lookPath : option bytes) (starts : option serr)
    (taskset : bool) (pid seqno : Z) (ping : nat -> bool) (clock : nat -> Z) (e : eng)
    : option (eng * list effect * option serr) :=
  match lookPath with
  | None => Some (e, [], Some (ErrStore (str (SpBinary s) +:+ " not found on PATH")))
  | Some bin =>
      let sock := sockPath (SpName s) pid seqno in
      let '(launchBin, launchArgs) := ServerWrap taskset (txt (CfgServerCPUList cfg)) bin (SpArgsFn s cfg sock) in
      match starts with
      | Some err => Some (MkEng (e_cmd e) (e_cli e) sock, [Start launchBin launchArgs], Some err)
      | None =>
          match await fuel ping clock 0 with
          | None => None
          | Some (true, eff) => Some (MkEng true true sock, Start launchBin launchArgs :: eff, None)
          | Some (false, eff) =>
              Some (MkEng true (e_cli e) sock, Start launchBin launchArgs :: eff,
                    Some (ErrStore (str (SpName s) +:+ " server did not come up in time")))
          end
      end
  end.

Definition Close (e : eng) : list effect :=
  (if e_cli e then [Shutdown; CloseClient] else []) ++
  (if e_cmd e then [Kill; Wait] else []) ++
  (if len (e_sock e) =? 0 then [] else [Remove (e_sock e)]).

(** ** Calls *)

Record batch := MkBatch { p_ops : list memOp; b_n : Z }.
Definition NewBatch : batch := MkBatch [] 0.
Definition batchPut (b : batch) (k v : bytes) : batch := MkBatch (p_ops b ++ [PutOp k v]) (b_n b + 1).
Definition batchDelete (b : batch) (k : bytes) : batch := MkBatch (p_ops b ++ [DelOp k]) (b_n b + 1).
Definition batchLen (b : batch) : Z := b_n b.

Record store (DB : Type) := MkStore { s_db : DB; s_spec : Spec }.
Arguments MkStore {DB}.
Arguments s_db {DB}.
Arguments s_spec {DB}.

Section Ops.
Context {DB : Type} `{RespServer DB}.

Definition Get (e : store DB) (key : bytes) : option bytes + serr :=
  match rs_get (s_db e) key with
  | inr ErrNotFound => inl None
  | inl v => inl (Some v)
  | inr err => inr err
  end.

Definition Put (e : store DB) (key value : bytes) : DB * option serr := rs_set (s_db e) key value.
Definition Delete (e : store DB) (key : bytes) : DB * option serr := rs_del (s_db e) key.

Definition Scan (e : store DB) (_ : bytes) : list (bytes * bytes) + serr :=
  inr (ErrStore (str (SpName (s_spec e)) +:+ " string keyspace is unordered: no sorted scan")).

Definition FlushAOF (db : DB) : DB * option serr := rs_bgRewriteAof db.

Definition Flush (e : store DB) : DB * option serr :=
  match SpFlushFn (s_spec e) with
  | None => (s_db e, None)
  | Some BgRewriteAOF => FlushAOF (s_db e)
  | Some Save => rs_save (s_db e)
  end.

(** The pipeline is emptied by its execution. *)
Definition Commit (e : store DB) (b : batch) : DB * batch * option serr :=
  let '(db, err) := rs_exec (s_db e) (p_ops b) in (db, NewBatch, err).

Definition batchOf (l : list memOp) : batch := build_batch NewBatch batchPut batchDelete l.

#[global] Instance adapterOps : AdapterOps (store DB) := {
  ad_get e k := Get e k;
  ad_put e k v := let '(db, err) := Put e k v in (MkStore db (s_spec e), err);
  ad_delete e k := let '(db, err) := Delete e k in (MkStore db (s_spec e), err);
  ad_commit e l := let '(db, _, err) := Commit e (batchOf l) in (MkStore db (s_spec e), err);
  ad_scan e start _ := Scan e start }.
End Ops.

Definition Stats : Engine.Stats := UnknownStats.

Lemma resp_batchOf_ops l : p_ops (batchOf l) = norm_op <$> l.
Proof. by apply (build_batch_ops p_ops). Qed.

(** The count the batch reports is the number of commands it sends. *)
Lemma resp_batchOf_len l : batchLen (batchOf l) = len l.
Proof.
  unfold batchOf, build_batch. induction l as [|o l IH] using rev_ind; [done|]. rewrite foldl_app. cbn.
  rewrite len_app. destruct (op_del o); cbn in *; unfold batchLen in *; cbn; rewrite IH; done.
Qed.

(** ** The specs *)

Definition redis : Spec :=
  MkSpec (txt "redis") "8.8-on-path" (txt "redis-server") ClassRedisMemory RedisDialectArgs (Some BgRewriteAOF)
    [MkAsterisk "default-durability" "the default is AOF appendonly with appendfsync=everysec: the append log is fsynced about once a second, the Redis out-of-box durability default, not per command";
     MkAsterisk "network-hop" "every op crosses a unix socket to a separate server process; the round-trip is in the number, which is the honest cost of a networked store";
     MkAsterisk "unordered" "plain string keys have no sorted iteration, so the scan workloads skip redis";
     MkAsterisk "server-version" "the adapter runs whatever redis-server is on PATH; the 8.8 label is the version this board targets, confirm with redis-server --version"].

Definition valkey : Spec :=
  MkSpec (txt "valkey") "9.1-on-path" (txt "valkey-server") ClassRedisMemory RedisDialectArgs (Some BgRewriteAOF)
    [MkAsterisk "default-durability" "valkey inherits the Redis default: AOF appendonly with appendfsync=everysec, the append log fsynced about once a second, not per command";
     MkAsterisk "network-hop" "every op crosses a unix socket to a separate server process; the round-trip is in the number";
     MkAsterisk "unordered" "plain string keys have no sorted iteration, so the scan workloads skip valkey";
     MkAsterisk "server-version" "the adapter runs whatever valkey-server is on PATH; the 9.1 label is the version this board targets, confirm with valkey-server --version"].

Definition dragonflyArgs (cfg : Config) (sock : bytes) : list bytes :=
  [txt "--port=0"; txt "--unixsocket"; sock; txt "--dir"; txt (CfgDir cfg); txt "--dbfilename"; txt "dump"].

Definition dragonfly : Spec :=
  MkSpec (txt "dragonfly") "server-on-path" (txt "dragonfly") ClassRedisMemory dragonflyArgs (Some Save)
    [MkAsterisk "default-durability" "Dragonfly persists with periodic snapshots and has no per-command fsync, so its durability default is weaker than an append-only log; the OFF/NORMAL/FULL levels all run snapshot-only";
     MkAsterisk "network-hop" "every op crosses a unix socket to a separate server process; the round-trip is in the number";
     MkAsterisk "platform" "Dragonfly has no native macOS build, so this engine runs on Linux only, not on the macOS laptop the point baseline uses";
     MkAsterisk "unordered" "plain string keys have no sorted iteration, so the scan workloads skip dragonfly"].

Definition garnetArgs (cfg : Config) (sock : bytes) : list bytes :=
  let args := [txt "--port"; txt "0"; txt "--unixsocket"; sock; txt "--checkpointdir"; txt (CfgDir cfg)] in
  if bool_decide (CfgSynchronous cfg <> "OFF") then args ++ [txt "--aof"] else args.

Definition garnet : Spec :=
  MkSpec (txt "garnet") "server-on-path" (txt "GarnetServer") ClassRedisMemory garnetArgs None
    [MkAsterisk "default-durability" "Garnet answers from memory and persists through periodic checkpoints plus an optional append-only file; it has no per-command fsync, so OFF runs in-memory only and NORMAL/FULL both run with the AOF on, weaker than a per-command sync";
     MkAsterisk "network-hop" "every op crosses a unix socket to a separate server process; the round-trip is in the number";
     MkAsterisk "platform" "Garnet is reached through its .NET GarnetServer build; the bench runs it on the Linux bench host, not the macOS laptop the point baseline uses";
     MkAsterisk "unordered" "plain string keys have no sorted iteration at the adapter level, so the scan workloads skip garnet"].

Definition kvrocksArgs (cfg : Config) (sock : bytes) : list bytes :=
  let args := [txt "--dir"; txt (CfgDir cfg); txt "--unixsocket"; sock] in
  if bool_decide (CfgSynchronous cfg = "FULL") then args ++ [txt "--rocksdb.write_options.sync"; txt "yes"]
  else args.

Definition kvrocks : Spec :=
  MkSpec (txt "kvrocks") "server-on-path" (txt "kvrocks") ClassRedisPersistent kvrocksArgs None
    [MkAsterisk "default-durability" "writes land in RocksDB's WAL, which the default buffers to the OS rather than fsyncing per command, the async-WAL class; FULL switches on rocksdb.write_options.sync for a per-command fsync";
     MkAsterisk "network-hop" "every op crosses a unix socket to a separate server process; the round-trip is in the number";
     MkAsterisk "not-single-file" "Kvrocks stores data as a RocksDB directory of SST files plus a WAL, not a single file, so it is not in the single-file class with kv and aki";
     MkAsterisk "platform" "benchmarked on the Linux bench host, not the macOS laptop the point baseline is taken on";
     MkAsterisk "unordered" "the string keyspace has no sorted iteration at the adapter level, so the scan workloads skip kvrocks"].

Definition akiArgs (cfg : Config) (sock : bytes) : list bytes := [txt "server"] ++ RedisDialectArgs cfg sock.

Definition aki : Spec :=
  MkSpec (txt "aki") "server-on-path" (txt "aki") ClassRedisPersistent akiArgs None
    [MkAsterisk "default-durability" "aki's default mirrors Redis: appendonly with appendfsync=everysec, the WAL fsynced about once a second, not per command";
     MkAsterisk "network-hop" "every op crosses a unix socket to a separate server process; the round-trip is in the number";
     MkAsterisk "single-file" "unlike redis and valkey, aki keeps its data in one paged file, so its on-disk footprint is a single store plus its WAL";
     MkAsterisk "unordered" "the string keyspace has no sorted iteration at the adapter level, so the scan workloads skip aki"].

Definition kvredisArgs (cfg : Config) (sock : bytes) : list bytes :=
  let args :=
    [txt "--port"; txt "0"; txt "--unixsocket"; sock; txt "--dir"; txt (CfgDir cfg);
     txt "--dbfilename"; txt "data.kv"; txt "--appendonly"; txt "yes";
     txt "--value-bytes"; Itoa (CfgValueBytes cfg); txt "--cardinality"; Itoa (CfgCardinality cfg);
     txt "--maxmemory"; Itoa (CfgCacheBytes cfg)] in
  args ++ [txt "--appendfsync"; txt "everysec"].

Definition kvredis : Spec :=
  MkSpec (txt "kv-redis") "kv-on-path" (txt "kv") ClassRedisPersistent kvredisArgs (Some BgRewriteAOF)
    [MkAsterisk "network-hop" "every op crosses a unix socket to a separate kv process; the round-trip is in the number";
     MkAsterisk "single-file" "kv keeps its data in one file plus a sibling commit watermark, so the RESP face's on-disk footprint is a single store";
     MkAsterisk "everysec" "measured at appendfsync everysec, the universal production mode for a networked store: a SET returns once it is in the hot tier and the background flusher fsyncs it a moment later, a bounded sub-second loss window, the same contract redis and valkey run. The per-commit durable comparison lives on the embedded class, not over the wire where the round-trip dominates and appendfsync always is a mode nobody deploys";
     MkAsterisk "redis-face" "this is kv's bare hash-log storage behind a Redis front end with no transaction, the over-the-wire counterpart to the in-process kv adapter";
     MkAsterisk "unordered" "the hash-log keyspace has no sorted iteration, so the scan workloads skip kv-redis"].

Definition specs : list Spec := [redis; valkey; dragonfly; garnet; kvrocks; aki; kvredis].

(** ** The command line *)

(** The command line gives [flag] the value [v]. *)
Definition gives (args : list bytes) (flag v : bytes) : Prop :=
  exists i, args !! i = Some flag /\ args !! S i = Some v.

(** The configuration at another durability level. *)
Definition at_level (cfg : Config) (level : string) : Config :=
  MkConfig (CfgDir cfg) (CfgAddr cfg) (CfgProfile cfg) level (CfgCacheBytes cfg) (CfgValueBytes cfg)
    (CfgCardinality cfg) (CfgServerCPUList cfg) (CfgExtra cfg).

Lemma specs_argv s cfg sock :
  s ∈ specs ->
  gives (SpArgsFn s cfg sock) (txt "--unixsocket") sock /\
  (gives (SpArgsFn s cfg sock) (txt "--dir") (txt (CfgDir cfg)) \/
   gives (SpArgsFn s cfg sock) (txt "--checkpointdir") (txt (CfgDir cfg))) /\
  (SpName s <> txt "kvrocks" -> SpArgsFn s (at_level cfg "FULL") sock = SpArgsFn s (at_level cfg "DEFAULT") sock).
Proof.
  unfold specs. rewrite !elem_of_cons, elem_of_nil. intros [->|[->|[->|[->|[->|[->|[->|[]]]]]]]].
  - split_and!; [by exists 2%nat|left; by exists 4%nat|done].
  - split_and!; [by exists 2%nat|left; by exists 4%nat|done].
  - split_and!; [by exists 1%nat|left; by exists 3%nat|done].
  - cbn. unfold garnetArgs. split_and!; [exists 2%nat|right; exists 4%nat|done]; by case_bool_decide.
  - cbn. unfold kvrocksArgs. split_and!; [exists 2%nat|left; exists 0%nat|done]; by case_bool_decide.
  - split_and!; [by exists 3%nat|left; by exists 5%nat|done].
  - split_and!; [by exists 2%nat|left; by exists 4%nat|done].
Qed.

(** ** The socket *)

Lemma Itoa_inj_nat a b : 0 <= a < 10 ^ 20 -> 0 <= b < 10 ^ 20 -> Itoa a = Itoa b -> a = b.
Proof.
  intros Ha Hb He. unfold Itoa in He.
  rewrite (proj2 (Z.ltb_ge a 0)), (proj2 (Z.ltb_ge b 0)) in He by lia.
  rewrite <- (digits_value_digits 20 a), <- (digits_value_digits 20 b) by done. by rewrite He.
Qed.

Lemma digits_len fuel : forall n acc, len (digits fuel n acc) <= len acc + Z.of_nat fuel.
Proof.
  induction fuel as [|f IH]; intros n acc; cbn [digits]; [lia|].
  case_zcmp; [rewrite len_cons; lia|]. specialize (IH (n / 10) (z2b (48 + n mod 10) :: acc)).
  rewrite len_cons in IH. lia.
Qed.

(** Launches of one process have sockets of their own, short enough for the
    limit of a socket address. *)
Lemma sockPath_own name pid a b :
  0 <= a < 2 ^ 64 -> 0 <= b < 2 ^ 64 -> sockPath name pid a = sockPath name pid b -> a = b.
Proof.
  intros Ha Hb He. unfold sockPath in He. repeat apply app_inv_head in He. apply app_inv_tail in He.
  apply Itoa_inj_nat; [lia..|done].
Qed.

Lemma sockPath_short s pid n :
  s ∈ specs -> 0 <= pid < 10 ^ 20 -> 0 <= n < 10 ^ 20 -> len (sockPath (SpName s) pid n) <= 66.
Proof.
  intros Hs Hp Hn. assert (len (SpName s) <= 9) as Hl.
  { assert (forallb (fun s => len (SpName s) <=? 9) specs = true) as Hf by done.
    rewrite forallb_forall in Hf. apply list_elem_of_In in Hs. specialize (Hf s Hs). lia. }
  unfold sockPath, Itoa. rewrite (proj2 (Z.ltb_ge pid 0)), (proj2 (Z.ltb_ge n 0)) by lia. rewrite !len_app.
  pose proof (digits_len 20 pid []). pose proof (digits_len 20 n []).
  change (len (txt "/tmp/kvbr-")) with 10. change (len (txt "-")) with 1. change (len (txt ".sock")) with 5.
  change (len []) with 0 in *. lia.
Qed.

(** ** Waiting for the server *)

(** Some ping is answered, and every check before it was in time. *)
Definition answers (ping : nat -> bool) (clock : nat -> Z) (i : nat) : Prop :=
  exists n, (i <= n)%nat /\ ping n = true /\ forall j, (i <= j < n)%nat -> clock j <= deadline.

Section Await.
Context (ping : nat -> bool) (clock : nat -> Z).
(** The clock starts at the launch, and a sleep lasts at least its pause. *)
Context (Hstart : 0 <= clock 0) (Hpause : forall i, clock i + pause <= clock (S i)).

Lemma clock_runs i : Z.of_nat i * pause <= clock i.
Proof. induction i as [|i IH]; [done|]. specialize (Hpause i). unfold pause in *. lia. Qed.

Lemma answers_now i : ping i = true -> answers ping clock i.
Proof. intros Hp. exists i. split_and!; [done..|]. intros j Hj. lia. Qed.

Lemma answers_later i :
  ping i = false -> (answers ping clock i <-> clock i <= deadline /\ answers ping clock (S i)).
Proof.
  intros Hp. split.
  - intros (n & Hn & Hpn & Hj). assert (i <> n) by congruence. split; [apply Hj; lia|].
    exists n. split_and!; [lia|done|]. intros j ?. apply Hj. lia.
  - intros (Hc & n & Hn & Hpn & Hj). exists n. split_and!; [lia|done|]. intros j ?.
    destruct (decide (i = j)) as [->|]; [done|]. apply Hj. lia.
Qed.

(** The loop ends, within a thousand and two pings; the server is up exactly
    when it answers in time, and is killed otherwise. *)
Lemma await_returns fuel : forall i, (1002 <= fuel + i)%nat -> (i <= 1001)%nat ->
  exists up eff, await fuel ping clock i = Some (up, eff) /\ (up = true <-> answers ping clock i) /\
    (Kill ∈ eff <-> up = false) /\ (Wait ∉ eff) /\ (forall b a, Start b a ∉ eff) /\ (forall p, Remove p ∉ eff).
Proof.
  induction fuel as [|f IH]; intros i Hf Hi; [lia|]. cbn [await]. destruct (ping i) eqn:Hp.
  - exists true, [Ping]. split_and!; [done| |set_solver..]. split; [intros _; by apply answers_now|done].
  - pose proof (answers_later i Hp) as Hl. destruct (Z.ltb_spec deadline (clock i)) as [Hd|Hd].
    + exists false, [Ping; Kill]. split_and!; [done| |set_solver..]. rewrite Hl. split; [done|]. lia.
    + assert (i <= 1000)%nat as Hi'.
      { pose proof (clock_runs i) as Hc. unfold deadline, pause in *. lia. }
      destruct (IH (S i)) as (up & eff & -> & Hup & Hk & Hw & Hs & Hr); [lia..|].
      exists up, (Ping :: Sleep :: eff). split_and!; [done|rewrite Hl, Hup; tauto|set_solver..].
Qed.
End Await.

(** ** The contract of the calls *)

Section Contract.
Context {DB : Type} `{RespLaws DB}.

#[global] Instance adapter : PointAdapter (store DB).
Proof.
  refine {| pa_rep e m := rs_rep (s_db e) m; pa_ok e := rs_ok (s_db e); pa_valid := rs_valid |}.
  - intros e m k Hr. cbn. unfold Get. pose proof (rs_get_law (s_db e) m k Hr) as Hl.
    by destruct (rs_get (s_db e) k) as [v|[|msg]].
  - intros e m [del k v] Hr. unfold apply_op. destruct del; cbn.
    + unfold Delete. pose proof (rs_del_law (s_db e) m k Hr) as Hl.
      destruct (rs_del _ _) as [db [err|]]; [|done]. destruct Hl as (m' & Hp & Hl).
      exists m'. split; [by apply (partly_norm m [MkMemOp true k v])|done].
    + apply rs_set_law with (k := k) (v := v) in Hr. unfold Put. by destruct (rs_set _ _ _) as [db [err|]].
  - intros e m l Hr. cbn. unfold Commit. rewrite resp_batchOf_ops.
    pose proof (rs_exec_law (s_db e) m (norm_op <$> l) Hr) as Hl. rewrite apply_norm_ops in Hl.
    destruct (rs_exec _ _) as [db [err|]]; [|done]. destruct Hl as (m' & Hp%partly_norm & Hl). by exists m'.
  - done.
  - intros e m k v Hr Hok Hv. cbn. unfold Get. pose proof (rs_get_law (s_db e) m k Hr) as Hl.
    pose proof (rs_get_ok (s_db e) k v Hok Hv) as Hne.
    destruct (rs_get (s_db e) k) as [w|[|msg]]; [by rewrite Hl..|]. by destruct (Hne msg).
  - intros e o Hok Hv. unfold op_valid in Hv. destruct (op_del o); cbn.
    + destruct Hv as [v Hv]. unfold Delete. pose proof (rs_del_ok (s_db e) _ _ Hok Hv) as Hl.
      by destruct (rs_del _ _).
    + unfold Put. pose proof (rs_set_ok (s_db e) _ _ Hok Hv) as Hl. by destruct (rs_set _ _ _).
  - intros e l Hok Hv. cbn. unfold Commit. rewrite resp_batchOf_ops.
    pose proof (rs_exec_ok (s_db e) _ Hok (norm_ops_valid _ _ Hv)) as Hl. by destruct (rs_exec _ _).
Defined.
End Contract.



(** A server that does not come up in time is killed, and that is all: the
    process is not waited for and the socket not removed, which only [Close]
    would do, and a caller does not close an engine that failed to open. *)
Theorem resp_timeout_unreaped s cfg bin taskset pid seqno ping clock :
  0 <= clock 0%nat -> (forall i, clock i + pause <= clock (S i)) -> ~ answers ping clock 0 ->
  exists e eff err,
    Open 1002 s cfg (Some bin) None taskset pid seqno ping clock newEng = Some (e, eff, Some err) /\
    Kill ∈ eff /\ (Wait ∉ eff) /\ forall p, Remove p ∉ eff.
Proof.
  intros H0 Hp Ha. unfold Open. destruct (ServerWrap _ _ _ _) as [b a].
  destruct (await_returns ping clock H0 Hp 1002 0) as (up & eff & -> & Hup & Hk & Hw & _ & Hr); [lia..|].
  destruct up; [by destruct Ha; apply Hup|]. eexists _, _, _. split; [done|].
  split_and!; [|set_solver|set_solver]. apply elem_of_cons. right. by apply Hk.
Qed.

(** C32: the contract of [point_honours] for an engine over any RESP server: no
    answer is wrong, an acknowledged write took effect, and one that reports an
    error may have; a pipeline that fails took effect in part; over a server
    that does not fail the engine is the map.  The batch counts the commands it
    will send, and a failed pipeline that is sent again with success leaves
    what one success would have. *)
Theorem resp_honours {DB} `{RespLaws DB} (e : store DB) m rs :
  rs_rep (s_db e) m ->
  point_honours e m rs /\
  (forall l, batchLen (batchOf l) = len l /\ batchLen (Commit e (batchOf l)).1.2 = 0) /\
  (forall l e1 err e2, ad_commit e l = (e1, Some err) -> ad_commit e1 l = (e2, None) ->
   rs_rep (s_db e2) (apply_ops m l)).
Proof.
  intros Hr. split_and!; [by apply point_adapter_honours| |].
  - intros l. split; [apply resp_batchOf_len|]. unfold Commit. by destruct (rs_exec _ _).
  - intros l e1 err e2 H1 H2. exact (commit_retry e m l e1 err e2 Hr H1 H2).
Qed.

(** ** A server that meets the laws

    A map, perhaps with room for so many keys only; a write that does not fit is
    refused. *)

Record memResp := MkMemResp { mr_map : gmap bytes bytes; mr_room : option nat }.

Definition mr_put (db : memResp) (k v : bytes) : memResp * option serr :=
  if bool_decide (is_Some (mr_map db !! k)) || from_option (fun room => (size (mr_map db) <? room)%nat) true (mr_room db)
  then (MkMemResp (<[k := v]> (mr_map db)) (mr_room db), None)
  else (db, Some (ErrStore "OOM command not allowed")).

Definition mr_del (db : memResp) (k : bytes) : memResp * option serr :=
  (MkMemResp (delete k (mr_map db)) (mr_room db), None).

(** Every command is executed; the error is that of the first that failed. *)
Fixpoint mr_exec (db : memResp) (l : list memOp) : memResp * option serr :=
  match l with
  | [] => (db, None)
  | o :: l' =>
      let '(db1, err1) := if op_del o then mr_del db (op_k o) else mr_put db (op_k o) (op_v o) in
      let '(db2, err2) := mr_exec db1 l' in
      (db2, match err1 with Some _ => err1 | None => err2 end)
  end.

#[global] Instance memResp_server : RespServer memResp := {
  rs_get db k := match mr_map db !! k with Some v => inl v | None => inr ErrNotFound end;
  rs_set := mr_put;
  rs_del := mr_del;
  rs_exec := mr_exec;
  rs_bgRewriteAof db := (db, None);
  rs_save db := (db, None) }.

Lemma mr_exec_spec l : forall db,
  exists l', l' `sublist_of` l /\ mr_map (mr_exec db l).1 = apply_ops (mr_map db) l' /\
    ((mr_exec db l).2 = None -> l' = l).
Proof.
  induction l as [|o l IH]; intros db; [by exists []|]. cbn [mr_exec].
  destruct (op_del o) eqn:Hd.
  - destruct (IH (MkMemResp (delete (op_k o) (mr_map db)) (mr_room db))) as (l' & Hs & Hm & Hn).
    exists (o :: l'). split; [by apply sublist_skip|]. cbn. unfold apply_ops in *. cbn. unfold apply_op at 2.
    rewrite Hd. destruct (mr_exec _ l) as [db2 err2]. cbn in *. split; [done|]. intros ->. by rewrite Hn.
  - unfold mr_put. destruct (_ || _).
    + destruct (IH (MkMemResp (<[op_k o := op_v o]> (mr_map db)) (mr_room db))) as (l' & Hs & Hm & Hn).
      exists (o :: l'). split; [by apply sublist_skip|]. cbn. unfold apply_ops in *. cbn. unfold apply_op at 2.
      rewrite Hd. destruct (mr_exec _ l) as [db2 err2]. cbn in *. split; [done|]. intros ->. by rewrite Hn.
    + destruct (IH db) as (l' & Hs & Hm & Hn). exists l'. split; [by apply sublist_cons|].
      destruct (mr_exec db l) as [db2 err2]. done.
Qed.

Lemma mr_exec_ok l : forall db, mr_room db = None -> (mr_exec db l).2 = None /\ mr_room (mr_exec db l).1 = None.
Proof.
  induction l as [|o l IH]; intros db Hok; [done|]. cbn [mr_exec]. unfold mr_put. rewrite Hok, orb_true_r.
  destruct (op_del o); cbn.
  - specialize (IH (MkMemResp (delete (op_k o) (mr_map db)) (mr_room db)) Hok). by destruct (mr_exec _ l).
  - specialize (IH (MkMemResp (<[op_k o := op_v o]> (mr_map db)) None) eq_refl). by destruct (mr_exec _ l).
Qed.

#[global] Instance memResp_laws : RespLaws memResp.
Proof.
  refine {| rs_rep db m := mr_map db = m; rs_ok db := mr_room db = None; rs_valid k v := True |}; cbn; try done.
  - intros db m k <-. by destruct (mr_map db !! k).
  - intros db m k v <-. unfold mr_put. destruct (_ || _); [done|]. eexists. split; [apply partly_none|done].
  - by intros db m k <-.
  - intros db m l <-. destruct (mr_exec_spec l db) as (l' & Hs & Hm & Hn).
    destruct (mr_exec db l) as [db' [err|]]; cbn in *; [|by rewrite <- Hn].
    eexists. split; [exists l'; by split|done].
  - intros db k v _ _ msg. by destruct (mr_map db !! k).
  - intros db k v Hok _. unfold mr_put. rewrite Hok, orb_true_r. done.
  - intros db l Hok _. by apply mr_exec_ok.
Defined.

Definition demo_resp : store memResp := MkStore (MkMemResp ∅ (Some 1%nat)) redis.
Definition demo_batch : list memOp := [PutOp [Byte.x61] [Byte.x01]; PutOp [Byte.x62] []; DelOp [Byte.x63]].

Lemma resp_honours_witness :
  (run_requests demo_resp [ABatch demo_batch; AGet [Byte.x61]; AGet [Byte.x62]]).1 =
    [AAck (Some (ErrStore "OOM command not allowed")); AVal (inl (Some [Byte.x01])); AVal (inl None)] /\
  point_honours demo_resp ∅ [ABatch demo_batch; AGet [Byte.x61]; AGet [Byte.x62]] /\
  (forall l, batchLen (batchOf l) = len l /\ batchLen (Commit demo_resp (batchOf l)).1.2 = 0) /\
  (forall l e1 err e2, ad_commit demo_resp l = (e1, Some err) -> ad_commit e1 l = (e2, None) ->
   rs_rep (s_db e2) (apply_ops ∅ l)).
Proof. split; [vm_compute; reflexivity|]. apply (resp_honours demo_resp); reflexivity. Defined.

(** The engines say that a batch is atomic; a pipeline is not. *)
Theorem resp_batch_torn :
  AtomicBatch (MetaCaps (engMeta redis)) = true /\
  exists err, (run_request demo_resp (ABatch demo_batch)).1 = AAck (Some err) /\
    mr_map (s_db (run_request demo_resp (ABatch demo_batch)).2) = {[ [Byte.x61] := [Byte.x01] ]}.
Proof. split; [reflexivity|]. eexists. split; vm_compute; reflexivity. Qed.
