(* ===== verification/Cli.v ===== *)
(** * The run command (cmd/kvbench/main.go)

    Flag parsing, the grid of cells a run expands to, the cache size of a
    cell, and the aggregation of its repetitions.  The process exit the code
    takes on a bad durability name is the value [None]. *)

From Stdlib Require Import SpecFloat.
From stdpp Require sorting.
From S2P Require Import Prelude Float64 Codec Engine Workload Hdr Harness Text Cpuset.
Local Open Scope go_scope.

Record runFlags := MkRunFlags {
  engines : list bytes;
  workloads : list bytes;
  regimes : list bytes;
  durability : list bytes;
  values : list Z;
  conc : list Z;
  cardinality : Z;
  ops : Z;
  reps : Z;
  seed : Z;
  out : bytes;
  cpuSplit : bool;
  cpuServer : bytes;
  cpuClient : bytes }.

Definition defaultFlags : runFlags :=
  MkRunFlags [] [] [txt "cache-resident"] [txt "DEFAULT"] [1024] [8] 100000 200000 3 1 [] false [] [].

(** ** Parsing *)

Definition splitCSV (s : bytes) : list bytes :=
  if len s =? 0 then []
  else filter (fun p => p <> []) (TrimSpace <$> Split comma_byte s).

(** The loop over the text from position [i]; the arithmetic is that of [int]. *)
Fixpoint atoi_loop (l : bytes) (i n : Z) (neg : bool) : Z * bool :=
  match l with
  | [] => (n, neg)
  | c :: l' =>
      if (i =? 0) && bool_decide (c = dash_byte) then atoi_loop l' (i + 1) n true
      else if (b2z c <? 48) || (b2z c >? 57) then (n, neg)
      else atoi_loop l' (i + 1) (swrap64 (swrap64 (n * 10) + (b2z c - 48))) neg
  end.

Definition atoi (s : bytes) : Z :=
  let (n, neg) := atoi_loop s 0 0 false in
  if neg : bool then swrap64 (- n) else n.

Definition splitCSVInt (s : bytes) : list Z := atoi <$> splitCSV s.

Fixpoint normalizeDurability (vals : list bytes) : option (list bytes) :=
  match vals with
  | [] => Some []
  | v :: vals' =>
      let u := ToUpper (TrimSpace v) in
      if bool_decide (u = txt "DEFAULT") || bool_decide (u = txt "FULL")
      then rest ← normalizeDurability vals'; Some (u :: rest)
      else None
  end.

Definition upd_engines f x := MkRunFlags x (workloads f) (regimes f) (durability f) (values f) (conc f)
  (cardinality f) (ops f) (reps f) (seed f) (out f) (cpuSplit f) (cpuServer f) (cpuClient f).
Definition upd_workloads f x := MkRunFlags (engines f) x (regimes f) (durability f) (values f) (conc f)
  (cardinality f) (ops f) (reps f) (seed f) (out f) (cpuSplit f) (cpuServer f) (cpuClient f).
Definition upd_regimes f x := MkRunFlags (engines f) (workloads f) x (durability f) (values f) (conc f)
  (cardinality f) (ops f) (reps f) (seed f) (out f) (cpuSplit f) (cpuServer f) (cpuClient f).
Definition upd_durability f x := MkRunFlags (engines f) (workloads f) (regimes f) x (values f) (conc f)
  (cardinality f) (ops f) (reps f) (seed f) (out f) (cpuSplit f) (cpuServer f) (cpuClient f).
Definition upd_values f x := MkRunFlags (engines f) (workloads f) (regimes f) (durability f) x (conc f)
  (cardinality f) (ops f) (reps f) (seed f) (out f) (cpuSplit f) (cpuServer f) (cpuClient f).
Definition upd_conc f x := MkRunFlags (engines f) (workloads f) (regimes f) (durability f) (values f) x
  (cardinality f) (ops f) (reps f) (seed f) (out f) (cpuSplit f) (cpuServer f) (cpuClient f).
Definition upd_cardinality f x := MkRunFlags (engines f) (workloads f) (regimes f) (durability f) (values f)
  (conc f) x (ops f) (reps f) (seed f) (out f) (cpuSplit f) (cpuServer f) (cpuClient f).
Definition upd_ops f x := MkRunFlags (engines f) (workloads f) (regimes f) (durability f) (values f)
  (conc f) (cardinality f) x (reps f) (seed f) (out f) (cpuSplit f) (cpuServer f) (cpuClient f).
Definition upd_reps f x := MkRunFlags (engines f) (workloads f) (regimes f) (durability f) (values f)
  (conc f) (cardinality f) (ops f) x (seed f) (out f) (cpuSplit f) (cpuServer f) (cpuClient f).
Definition upd_seed f x := MkRunFlags (engines f) (workloads f) (regimes f) (durability f) (values f)
  (conc f) (cardinality f) (ops f) (reps f) x (out f) (cpuSplit f) (cpuServer f) (cpuClient f).
Definition upd_out f x := MkRunFlags (engines f) (workloads f) (regimes f) (durability f) (values f)
  (conc f) (cardinality f) (ops f) (reps f) (seed f) x (cpuSplit f) (cpuServer f) (cpuClient f).
Definition upd_split f x := MkRunFlags (engines f) (workloads f) (regimes f) (durability f) (values f)
  (conc f) (cardinality f) (ops f) (reps f) (seed f) (out f) x (cpuServer f) (cpuClient f).
Definition upd_server f x := MkRunFlags (engines f) (workloads f) (regimes f) (durability f) (values f)
  (conc f) (cardinality f) (ops f) (reps f) (seed f) (out f) (cpuSplit f) x (cpuClient f).
Definition upd_client f x := MkRunFlags (engines f) (workloads f) (regimes f) (durability f) (values f)
  (conc f) (cardinality f) (ops f) (reps f) (seed f) (out f) (cpuSplit f) (cpuServer f) x.

(** What a flag does to the flags; [None] is the exit of
    [normalizeDurability]. *)
Definition set_flag (name v : bytes) (f : runFlags) : option runFlags :=
  if bool_decide (name = txt "--engines") then Some (upd_engines f (splitCSV v))
  else if bool_decide (name = txt "--workloads") then Some (upd_workloads f (splitCSV v))
  else if bool_decide (name = txt "--regimes") then Some (upd_regimes f (splitCSV v))
  else if bool_decide (name = txt "--durability") then
    d ← normalizeDurability (splitCSV v); Some (upd_durability f d)
  else if bool_decide (name = txt "--values") then Some (upd_values f (splitCSVInt v))
  else if bool_decide (name = txt "--conc") then Some (upd_conc f (splitCSVInt v))
  else if bool_decide (name = txt "--cardinality") then Some (upd_cardinality f (wrap64 (atoi v)))
  else if bool_decide (name = txt "--ops") then Some (upd_ops f (wrap64 (atoi v)))
  else if bool_decide (name = txt "--reps") then Some (upd_reps f (atoi v))
  else if bool_decide (name = txt "--seed") then Some (upd_seed f (wrap64 (atoi v)))
  else if bool_decide (name = txt "--out") then Some (upd_out f v)
  else if bool_decide (name = txt "--cpu-server") then Some (upd_server f v)
  else if bool_decide (name = txt "--cpu-client") then Some (upd_client f v)
  else Some f.

(** The flags that read the next argument. *)
Definition takes_value (name : bytes) : bool :=
  bool_decide (name ∈ txt <$> ["--engines"; "--workloads"; "--regimes"; "--durability"; "--values";
    "--conc"; "--cardinality"; "--ops"; "--reps"; "--seed"; "--out"; "--cpu-server"; "--cpu-client"]).

(** Anything else is reported and skipped. *)
Fixpoint parse (args : list bytes) (f : runFlags) : option runFlags :=
  match args with
  | [] => Some f
  | a :: rest =>
      if takes_value a then
        match rest with
        | [] => set_flag a [] f
        | v :: rest' => f' ← set_flag a v f; parse rest' f'
        end
      else if bool_decide (a = txt "--cpu-split") then parse rest (upd_split f true)
      else parse rest f
  end.

(** ** The grid of cells *)

Definition cacheFor (regime : bytes) (card val : Z) : Z :=
  let working := swrap64 (swrap64 card * swrap64 (val + 16)) in
  if bool_decide (regime = txt "out-of-cache")
  then let c := Z.quot working 8 in if c <? 2 ^ 20 then 2 ^ 20 else c
  else let c := swrap64 (working + Z.quot working 4) in if c <? 8 * 2 ^ 20 then 8 * 2 ^ 20 else c.

Definition sortedWorkloads : list string := sort_strings (Catalog.*1).

Definition mkCell (f : runFlags) (en : bytes) (spec : Spec) (regime dur : bytes) (val c : Z)
    (runID dataRoot server : string) : CellConfig :=
  MkCellConfig (str en) spec (str regime) "tuned" (str dur) c val (cardinality f) (ops f) (seed f)
    runID dataRoot (cacheFor regime (cardinality f) val) server.

Fixpoint lookup_spec (name : string) (cat : list (string * Spec)) : option Spec :=
  match cat with
  | [] => None
  | (n, s) :: cat' => if bool_decide (n = name) then Some s else lookup_spec name cat'
  end.

(** The cells of a run, in the order of the nested loops; engines that are not
    built in and workloads that do not exist are skipped. *)
Definition cells (has : string -> bool) (f : runFlags) (runID dataRoot server : string) : list CellConfig :=
  en ← filter (fun en => has (str en) = true) (engines f);
  wn ← workloads f;
  spec ← match lookup_spec (str wn) Catalog with Some s => [s] | None => [] end;
  regime ← regimes f;
  dur ← durability f;
  val ← values f;
  c ← conc f;
  [mkCell f en spec regime dur val c runID dataRoot server].

(** The total printed with the progress lines. *)
Definition cell_total (f : runFlags) : Z :=
  len (engines f) * len (workloads f) * len (regimes f) * len (durability f) * len (values f) * len (conc f).

(** [cmdRun] fills in the engines and the workloads that were not given. *)
Definition complete (defaults : list string) (f : runFlags) : runFlags :=
  let f := if len (engines f) =? 0 then upd_engines f (txt <$> defaults) else f in
  if len (workloads f) =? 0 then upd_workloads f (txt <$> sortedWorkloads) else f.

(** ** Repetitions *)

Definition repSeed (s : Z) (i : nat) : Z := s +64 (Z.of_nat i *64 1000003).

Definition withSeed (c : CellConfig) (s : Z) : CellConfig :=
  MkCellConfig (EngineName c) (CellWorkload c) (Regime c) (Profile c) (Durability c) (Concurrency c)
    (ValueBytes c) (Cardinality c) (Operations c) s (RunID c) (DataRoot c) (CacheBytes c) (ServerCPUList c).

Definition ok_result (r : Result) : bool := bool_decide (Error r = "").

Definition abs (x : float64) : float64 := if flt x f64_zero then fneg x else x.

Definition minOf (xs : list float64) : outcome float64 :=
  let* m := Prelude.index xs 0 in
  Ok (foldl (fun m x => if flt x m then x else m) m xs).
Definition maxOf (xs : list float64) : outcome float64 :=
  let* m := Prelude.index xs 0 in
  Ok (foldl (fun m x => if fgt x m then x else m) m xs).

Definition f64_1e18 : float64 := f64_of_Z 1000000000000000000.

(** The index of the result whose throughput is closest to the median. *)
Fixpoint closest (rs : list Result) (i : nat) (med : float64) (best : nat) (bestd : float64) : nat :=
  match rs with
  | [] => best
  | r :: rs' =>
      if ok_result r
      then let d := abs (fsub (rt_SustainedOps (Throughput r)) med) in
           if flt d bestd then closest rs' (S i) med i d else closest rs' (S i) med best bestd
      else closest rs' (S i) med best bestd
  end.

Definition set_reps (r : Result) (n : Z) : Result :=
  MkResult (Schema r) (Kvbench r) (ResRunID r) (Seed r) (REngine r) (RWorkload r) n
    (Throughput r) (LatencyNs r) (Load_ r) (Amplification r) (GoRuntime r) (Asterisks r)
    (SteadyState r) (Error r) (Environment r).

(** [run c i] is what [RunCell] returned for the [i]-th repetition. *)
Definition runReps (run : CellConfig -> nat -> Result) (cell : CellConfig) (reps : Z) : outcome Result :=
  let reps := if reps <? 1 then 1 else reps in
  let results := (fun i => run (withSeed cell (repSeed (CellSeed cell) i)) i) <$> seq 0 (Z.to_nat reps) in
  let tputs := (fun r => rt_SustainedOps (Throughput r)) <$> filter (fun r => ok_result r = true) results in
  if len tputs =? 0 then Prelude.index results 0
  else
    let* med := MedianOf tputs in
    let best := closest results 0 med 0 f64_1e18 in
    let* o := Prelude.index results (Z.of_nat best) in
    let* mn := minOf tputs in
    let* mx := maxOf tputs in
    Ok (set_throughput (set_reps o reps)
          (MkResThroughput med mn mx (rt_ReadOps (Throughput o)) (rt_WriteOps (Throughput o)))).

(** The file a result is written to, before slashes are replaced. *)
Definition resultName (r : Result) : bytes :=
  let w := RWorkload r in
  ReplaceByte (z2b 47) (txt "_")
    (Join (txt "__") [txt (re_Name (REngine r)); txt (rw_Name w); txt (rw_Regime w);
       txt "v" ++ Itoa (rw_ValueBytes w); txt "c" ++ Itoa (rw_Concurrency w); txt (rw_Durability w)]
     ++ txt ".json").

(** The result directory after a successful write; a file of the same name is
    replaced. *)
Definition writeResult (dir : gmap bytes Result) (r : Result) : gmap bytes Result :=
  <[resultName r := r]> dir.

(** ** The run *)

(** [run d c i] is what [RunCell] returned for repetition [i] of the [d]-th
    cell. *)
Fixpoint runCells (run : nat -> CellConfig -> nat -> Result) (reps : Z) (cs : list CellConfig)
    (done : nat) (all : list Result) (dir : gmap bytes Result) : outcome (list Result * gmap bytes Result) :=
  match cs with
  | [] => Ok (all, dir)
  | c :: cs' =>
      let* res := runReps (run done) c reps in
      runCells run reps cs' (S done) (all ++ [res]) (writeResult dir res)
  end.

(** The core list for launched servers; [split] is what [cpuset.Split] did. *)
Definition resolveCPUSplit (f : runFlags) (available : bool) (split : bytes -> bytes -> split_result) : bytes :=
  if negb (cpuSplit f) then []
  else if negb available then []
  else match split (cpuServer f) (cpuClient f) with
       | Returned server _ active _ => if active then server else []
       | _ => []
       end.

Definition cmdRun (has : string -> bool) (defaults : list string) (available : bool)
    (split : bytes -> bytes -> split_result) (dataRoot : string)
    (run : nat -> CellConfig -> nat -> Result) (args : list bytes)
    : option (outcome (list Result * gmap bytes Result)) :=
  f ← parse args defaultFlags;
  let f := complete defaults f in
  let server := resolveCPUSplit f available split in
  let runID := str (txt "run-" ++ Itoa (seed f)) in
  Some (runCells run (reps f) (cells has f runID dataRoot (str server)) 0 [] ∅).

(** ** Properties of the parsers *)

Lemma atoi_loop_digits l i n neg :
  Forall (fun b => is_digit b = true) l -> 0 <= n -> digits_value l n < 2 ^ 63 ->
  (i = 0 -> l <> [] -> head l <> Some dash_byte) ->
  atoi_loop l i n neg = (digits_value l n, neg).
Proof.
  revert i n. induction l as [|b l IH]; intros i n Hd Hn Hv Hh; [done|].
  apply Forall_cons in Hd as [Hb Hd]. cbn [atoi_loop digits_value] in *.
  destruct (digit_not b Hb) as (Hdash & _ & _). rewrite bool_decide_eq_false_2, andb_false_r by done.
  pose proof Hb as [H1%Z.leb_le H2%Z.leb_le]%andb_true_iff.
  assert ((b2z b <? 48) || (b2z b >? 57) = false) as ->.
  { rewrite Z.gtb_ltb. repeat case_zcmp; try done; lia. }
  assert (forall l m, 0 <= m -> Forall (fun b => is_digit b = true) l -> m <= digits_value l m) as Hmono.
  { clear. induction l as [|x l IH]; intros m Hm Hd; [done|]. apply Forall_cons in Hd as [Hx Hd].
    apply andb_true_iff in Hx as [Hx%Z.leb_le _]. cbn [digits_value]. etrans; [|apply IH; [lia|done]]. lia. }
  pose proof (Hmono l (n * 10 + (b2z b - 48)) ltac:(lia) Hd).
  rewrite (swrap64_id (n * 10)), swrap64_id by zlia. apply IH; try done; [lia|].
  intros _ Hne. destruct l as [|x l]; [done|]. apply Forall_cons in Hd as [Hx _]. simpl.
  intros [= ->]. by destruct (digit_not _ Hx).
Qed.

Lemma atoi_Itoa n : - 2 ^ 63 < n < 2 ^ 63 -> atoi (Itoa n) = n.
Proof.
  intros Hn. unfold atoi, Itoa.
  assert (forall k, 0 <= k < 2 ^ 63 -> Forall (fun b => is_digit b = true) (digits 20 k []) /\
    digits_value (digits 20 k []) 0 = k) as Hd.
  { intros k Hk. split.
    - pose proof (Itoa_digits k ltac:(lia)) as Hi. unfold Itoa in Hi. destruct (Z.ltb_spec k 0); [lia|done].
    - apply digits_value_digits. change (10 ^ Z.of_nat 20) with 100000000000000000000. lia. }
  case_zcmp.
  - destruct (Hd (- n)) as [H1 H2]; [lia|]. cbn [atoi_loop]. rewrite bool_decide_eq_true_2 by done. cbn [Z.eqb andb].
    rewrite atoi_loop_digits by (done || lia). rewrite H2, Z.opp_involutive. apply swrap64_id. zlia.
  - destruct (Hd n) as [H1 H2]; [lia|]. rewrite atoi_loop_digits; [done|done|lia|lia|].
    intros _ Hne. destruct (digits 20 n []) as [|x l]; [done|]. apply Forall_cons in H1 as [Hx _]. simpl.
    intros [= ->]. by destruct (digit_not _ Hx).
Qed.

(** A name that survives a comma list: visible characters, no comma. *)
Definition clean (p : bytes) : Prop := p <> [] /\ Forall graphic p /\ comma_byte ∉ p.

Definition cleanb (p : bytes) : bool :=
  negb (bool_decide (p = [])) && forallb (fun b => (33 <=? b2z b) && (b2z b <=? 126)) p &&
  negb (bool_decide (comma_byte ∈ p)).

Lemma cleanb_ok p : cleanb p = true -> clean p.
Proof.
  unfold cleanb, clean. rewrite !andb_true_iff, !negb_true_iff, !bool_decide_eq_false. intros [[Hp Hg] Hc].
  split_and!; [done| |done]. apply Forall_forall. intros b Hb%list_elem_of_In.
  pose proof (proj1 (forallb_forall _ _) Hg b Hb) as [?%Z.leb_le ?%Z.leb_le]%andb_true_iff. done.
Qed.

Lemma cleanb_list l : forallb cleanb l = true -> Forall clean l.
Proof.
  intros Hl. apply Forall_forall. intros p Hp%list_elem_of_In. apply cleanb_ok.
  exact (proj1 (forallb_forall _ _) Hl p Hp).
Qed.

Lemma splitCSV_Join names : names <> [] -> Forall clean names -> splitCSV (Join [comma_byte] names) = names.
Proof.
  intros Hne Hc. unfold splitCSV.
  assert (Join [comma_byte] names <> []) as Hj.
  { destruct Hc as [|p names (Hp & _) _]; [done|]. destruct names as [|q names]; simpl; [done|].
    destruct p; [done|]. done. }
  destruct (Z.eqb_spec (len (Join [comma_byte] names)) 0) as [E|_].
  { destruct (Join [comma_byte] names); [done|]. rewrite len_cons in E. zlia. }
  rewrite Split_Join; [|done|eapply Forall_impl; [exact Hc|]; by intros p (_ & _ & ?)].
  assert (TrimSpace <$> names = names) as ->.
  { clear Hne Hj. induction Hc as [|p names (_ & Hp & _) _ IH]; [done|]. rewrite fmap_cons, IH.
    by rewrite TrimSpace_graphic. }
  apply filter_all. eapply Forall_impl; [exact Hc|]. by intros p (? & _).
Qed.

Lemma normalizeDurability_spec vals ds :
  normalizeDurability vals = Some ds ->
  length ds = length vals /\ Forall (fun d => d = txt "DEFAULT" \/ d = txt "FULL") ds.
Proof.
  revert ds. induction vals as [|v vals IH]; intros ds H; cbn [normalizeDurability] in H.
  { injection H as <-. split; [done|constructor]. }
  destruct (bool_decide _ || bool_decide _) eqn:E; [|done].
  apply bind_Some in H as (rest & Hr & [= <-]). destruct (IH rest Hr) as [Hl Hf].
  split; [simpl; lia|]. constructor; [|done].
  apply orb_true_iff in E as [E|E]; apply bool_decide_eq_true in E; auto.
Qed.

(** ** Printing flags and reading them back *)

(** The arguments that spell out a set of flags. *)
Definition render (f : runFlags) : list bytes :=
  let csv := Join [comma_byte] in
  [txt "--engines"; csv (engines f); txt "--workloads"; csv (workloads f); txt "--regimes"; csv (regimes f);
   txt "--durability"; csv (durability f); txt "--values"; csv (Itoa <$> values f);
   txt "--conc"; csv (Itoa <$> conc f); txt "--cardinality"; Itoa (cardinality f); txt "--ops"; Itoa (ops f);
   txt "--reps"; Itoa (reps f); txt "--seed"; Itoa (seed f); txt "--out"; out f;
   txt "--cpu-server"; cpuServer f; txt "--cpu-client"; cpuClient f] ++
  (if cpuSplit f then [txt "--cpu-split"] else []).

Record writable (f : runFlags) : Prop := {
  wr_engines : Forall clean (engines f);
  wr_workloads : Forall clean (workloads f);
  wr_regimes : Forall clean (regimes f);
  wr_durability : Forall (fun d => d = txt "DEFAULT" \/ d = txt "FULL") (durability f);
  wr_values : Forall (fun n => - 2 ^ 63 < n < 2 ^ 63) (values f);
  wr_conc : Forall (fun n => - 2 ^ 63 < n < 2 ^ 63) (conc f);
  wr_cardinality : 0 <= cardinality f < 2 ^ 63;
  wr_ops : 0 <= ops f < 2 ^ 63;
  wr_reps : - 2 ^ 63 < reps f < 2 ^ 63;
  wr_seed : 0 <= seed f < 2 ^ 63 }.

Lemma splitCSV_list names : Forall clean names -> splitCSV (Join [comma_byte] names) = names.
Proof. destruct names as [|p names]; [done|]. by apply splitCSV_Join. Qed.

Lemma Itoa_bytes n b : b ∈ Itoa n -> b = dash_byte \/ is_digit b = true.
Proof.
  unfold Itoa. destruct (Z.ltb_spec n 0) as [Hn|Hn].
  - intros [->|Hb]%elem_of_cons; [by left|right]. pose proof (Itoa_digits (- n) ltac:(lia)) as Hd.
    unfold Itoa in Hd. destruct (Z.ltb_spec (- n) 0); [lia|]. rewrite Forall_forall in Hd. by apply Hd.
  - intros Hb. right. pose proof (Itoa_digits n Hn) as Hd. unfold Itoa in Hd.
    destruct (Z.ltb_spec n 0); [lia|]. rewrite Forall_forall in Hd. by apply Hd.
Qed.

Lemma clean_Itoa n : clean (Itoa n).
Proof.
  split_and!.
  - unfold Itoa. destruct (n <? 0); [done|]. intros E. pose proof (digits_nonempty 20 n ltac:(lia)) as Hl.
    rewrite E in Hl. done.
  - apply Forall_forall. intros b [->|Hb]%Itoa_bytes; [by vm_compute|by apply digit_graphic].
  - intros [?|Hd]%Itoa_bytes; [done|]. by vm_compute in Hd.
Qed.

Lemma splitCSVInt_list ns :
  Forall (fun n => - 2 ^ 63 < n < 2 ^ 63) ns -> splitCSVInt (Join [comma_byte] (Itoa <$> ns)) = ns.
Proof.
  intros Hns. unfold splitCSVInt. rewrite splitCSV_list.
  - induction Hns as [|n ns Hn _ IH]; [done|]. rewrite !fmap_cons, IH. by rewrite atoi_Itoa.
  - apply Forall_fmap, Forall_forall. intros n _. apply clean_Itoa.
Qed.

Lemma normalizeDurability_named ds :
  Forall (fun d => d = txt "DEFAULT" \/ d = txt "FULL") ds ->
  normalizeDurability (splitCSV (Join [comma_byte] ds)) = Some ds.
Proof.
  intros Hds. rewrite splitCSV_list.
  - induction Hds as [|d ds Hd _ IH]; [done|]. cbn [normalizeDurability]. rewrite IH.
    by destruct Hd as [-> | ->].
  - eapply Forall_impl; [done|]. intros d [-> | ->]; apply cleanb_ok; by vm_compute.
Qed.

Lemma parse_value a v rest f f' :
  takes_value a = true -> set_flag a v f = Some f' -> parse (a :: v :: rest) f = parse rest f'.
Proof. intros Ha Hf. cbn [parse]. by rewrite Ha, Hf. Qed.

Lemma parse_render f g : writable f -> cpuSplit g = false -> parse (render f) g = Some f.
Proof.
  intros [H1 H2 H3 H4 H5 H6 H7 H8 H9 H10] Hg. unfold render. cbn [app].
  do 3 (erewrite parse_value; [|by vm_compute|reflexivity]).
  erewrite parse_value; [|by vm_compute|].
  2: { cbn [set_flag]. unfold set_flag. rewrite normalizeDurability_named by done. reflexivity. }
  do 9 (erewrite parse_value; [|by vm_compute|reflexivity]).
  rewrite !splitCSV_list, !splitCSVInt_list, !atoi_Itoa by (done || lia).
  rewrite !wrap64_id by (unfold is_u64; lia).
  destruct f, g. simpl in *. subst. by destruct cpuSplit0.
Qed.

(** ** The cache of a cell *)

Lemma cacheFor_spec regime card val :
  0 <= card -> 0 <= val -> card * (val + 16) * 2 < 2 ^ 63 -> card < 2 ^ 63 -> val + 16 < 2 ^ 63 ->
  let ws := card * (val + 16) in
  cacheFor regime card val =
    if bool_decide (regime = txt "out-of-cache") then Z.max (2 ^ 20) (ws / 8)
    else Z.max (2 ^ 23) (ws + ws / 4).
Proof.
  intros Hc Hv Hws Hc63 Hv63 ws. unfold cacheFor. fold ws in Hws.
  rewrite (swrap64_id card), (swrap64_id (val + 16)) by zlia. fold ws.
  assert (0 <= ws) by (unfold ws; nia). rewrite (swrap64_id ws) by zlia.
  rewrite !Z.quot_div_nonneg by lia. change (8 * 2 ^ 20) with (2 ^ 23).
  assert (0 <= ws / 4 <= ws) by (split; [apply Z.div_pos|apply Z.div_le_upper_bound]; lia).
  rewrite swrap64_id by zlia. case_bool_decide; case_zcmp; lia.
Qed.

(** ** The grid *)

Lemma elem_of_cells has f runID dataRoot server cell :
  cell ∈ cells has f runID dataRoot server <->
  exists en wn spec regime dur val c, en ∈ engines f /\ has (str en) = true /\ wn ∈ workloads f /\
    lookup_spec (str wn) Catalog = Some spec /\ regime ∈ regimes f /\ dur ∈ durability f /\
    val ∈ values f /\ c ∈ conc f /\ cell = mkCell f en spec regime dur val c runID dataRoot server.
Proof.
  unfold cells. split.
  - intros Hin. apply list_elem_of_bind in Hin as (en & Hin & [Hh He]%list_elem_of_filter).
    apply list_elem_of_bind in Hin as (wn & Hin & Hw). apply list_elem_of_bind in Hin as (spec & Hin & Hs).
    apply list_elem_of_bind in Hin as (regime & Hin & Hr). apply list_elem_of_bind in Hin as (dur & Hin & Hd).
    apply list_elem_of_bind in Hin as (val & Hin & Hv). apply list_elem_of_bind in Hin as (c & Hin & Hc).
    apply list_elem_of_singleton in Hin. exists en, wn, spec, regime, dur, val, c. split_and!; try done.
    destruct (lookup_spec (str wn) Catalog); [|by apply elem_of_nil in Hs].
    apply list_elem_of_singleton in Hs. congruence.
  - intros (en & wn & spec & regime & dur & val & c & He & Hh & Hw & Hs & Hr & Hd & Hv & Hc & ->).
    apply list_elem_of_bind. exists en. split; [|by apply list_elem_of_filter].
    apply list_elem_of_bind. exists wn. split; [|done]. apply list_elem_of_bind. exists spec.
    rewrite Hs. split; [|by apply list_elem_of_singleton].
    apply list_elem_of_bind. exists regime. split; [|done]. apply list_elem_of_bind. exists dur. split; [|done].
    apply list_elem_of_bind. exists val. split; [|done]. apply list_elem_of_bind. exists c. split; [|done].
    by apply list_elem_of_singleton.
Qed.

Lemma length_bind_const {A B} (f : A -> list B) (l : list A) n :
  (forall x, x ∈ l -> length (f x) = n) -> length (l ≫= f) = (length l * n)%nat.
Proof.
  induction l as [|x l IH]; intros Hf; [done|]. rewrite bind_cons, length_app, Hf by left.
  rewrite IH; [done|]. intros y Hy. apply Hf. by right.
Qed.

(** With every engine built in and every workload known, the printed total is
    the number of cells. *)
Lemma length_cells has f runID dataRoot server :
  Forall (fun en => has (str en) = true) (engines f) ->
  Forall (fun wn => is_Some (lookup_spec (str wn) Catalog)) (workloads f) ->
  len (cells has f runID dataRoot server) = cell_total f.
Proof.
  intros He Hw. unfold cells, cell_total, len. rewrite filter_all by done.
  rewrite Forall_forall in Hw.
  rewrite (length_bind_const _ _ (length (workloads f) * (length (regimes f) * (length (durability f) *
    (length (values f) * length (conc f)))))).
  - lia.
  - intros en _. apply length_bind_const. intros wn Hwn. destruct (Hw wn Hwn) as [spec ->].
    rewrite bind_cons, app_nil_r. apply length_bind_const. intros regime _.
    apply length_bind_const. intros dur _. apply length_bind_const. intros val _.
    rewrite (length_bind_const _ _ 1); [lia|done].
Qed.

(** ** Repetitions *)

Lemma MedianOf_ok xs : exists m, MedianOf xs = Ok m.
Proof.
  unfold MedianOf. destruct (Z.eqb_spec (len xs) 0) as [|Hne]; [by eexists|].
  assert (len (sorting.merge_sort f64_before xs) = len xs) as Hl
    by (unfold len; by rewrite sorting.merge_sort_Permutation).
  pose proof (len_nonneg xs). rewrite Hl, Z.quot_div_nonneg, Z.rem_mod_nonneg by lia.
  pose proof (Z.div_mod (len xs) 2 ltac:(lia)). pose proof (Z.mod_pos_bound (len xs) 2 ltac:(lia)).
  destruct (Z.eqb_spec (len xs mod 2) 1).
  - apply index_in. lia.
  - destruct (index_in (sorting.merge_sort f64_before xs) (len xs / 2 - 1)) as [a ->]; [lia|].
    destruct (index_in (sorting.merge_sort f64_before xs) (len xs / 2)) as [b ->]; [lia|]. by eexists.
Qed.

(** The running minimum is an element no element is below; the maximum is the
    same fold for the converse order.  NaNs compare with nothing, so this
    holds of them too. *)
Section Extremes.
Context (lt : float64 -> float64 -> bool).
Hypothesis lt_trans : forall a b c, lt a b = true -> lt b c = true -> lt a c = true.
Hypothesis lt_irrefl : forall a, lt a a = false.

Definition extreme (xs : list float64) (m : float64) : Prop :=
  m ∈ xs /\ forall x, x ∈ xs -> lt x m = false.

Lemma extreme_snoc xs m x : extreme xs m -> extreme (xs ++ [x]) (if lt x m then x else m).
Proof.
  intros [Hin Hlow]. destruct (lt x m) eqn:E; split; [set_solver| |set_solver|];
    intros y [Hy|Hy]%elem_of_app; rewrite ?list_elem_of_singleton in Hy; subst; auto.
  destruct (lt y x) eqn:E'; [|done]. pose proof (lt_trans _ _ _ E' E). rewrite Hlow in H; done.
Qed.

Lemma extreme_foldl xs : forall seen m, extreme seen m ->
  extreme (seen ++ xs) (foldl (fun m x => if lt x m then x else m) m xs).
Proof.
  induction xs as [|x xs IH]; intros seen m Hm; cbn [foldl]; [by rewrite app_nil_r|].
  replace (seen ++ x :: xs) with ((seen ++ [x]) ++ xs) by by rewrite <- app_assoc.
  by apply IH, extreme_snoc.
Qed.

Lemma extreme_first x xs : extreme (x :: xs) (foldl (fun m x => if lt x m then x else m) x (x :: xs)).
Proof.
  cbn [foldl]. rewrite lt_irrefl. apply (extreme_foldl xs [x]). split; [set_solver|].
  intros y ->%list_elem_of_singleton. apply lt_irrefl.
Qed.
End Extremes.

Lemma minOf_spec xs : xs <> [] -> exists m, minOf xs = Ok m /\ extreme flt xs m.
Proof.
  destruct xs as [|x xs]; [done|]. intros _. eexists. split; [done|].
  apply extreme_first; [apply flt_trans|apply flt_irrefl].
Qed.

Lemma maxOf_spec xs : xs <> [] -> exists m, maxOf xs = Ok m /\ extreme fgt xs m.
Proof.
  destruct xs as [|x xs]; [done|]. intros _. eexists. split; [done|].
  apply (extreme_first fgt); unfold fgt; [|apply flt_irrefl].
  intros a b c Hab Hbc. by apply (flt_trans _ b).
Qed.

(** The median of an odd number of values is one of them. *)
Lemma MedianOf_odd xs m : MedianOf xs = Ok m -> len xs mod 2 = 1 -> m ∈ xs.
Proof.
  unfold MedianOf. intros H Hodd. destruct (Z.eqb_spec (len xs) 0) as [E|_]; [by rewrite E in Hodd|].
  assert (len (sorting.merge_sort f64_before xs) = len xs) as Hl
    by (unfold len; by rewrite sorting.merge_sort_Permutation).
  pose proof (len_nonneg xs). rewrite Hl, Z.quot_div_nonneg, Z.rem_mod_nonneg, Hodd in H by lia.
  cbn [Z.eqb Pos.eqb] in H. apply index_lookup in H.
  apply list_elem_of_lookup_2 in H. by rewrite sorting.merge_sort_Permutation in H.
Qed.

(** The distance of a result's throughput from the median. *)
Definition offMedian (med : float64) (r : Result) : float64 :=
  abs (fsub (rt_SustainedOps (Throughput r)) med).

Lemma lookup_shift {A} (x y : A) l i c :
  (S i <= c)%nat -> l !! (c - S i)%nat = Some y -> (x :: l) !! (c - i)%nat = Some y.
Proof. intros Hi Hy. by replace (c - i)%nat with (S (c - S i)) by lia. Qed.

(** What [closest] keeps: either the initial guess, or a successful result
    nearer than the initial bound that no successful result undercuts. *)
Lemma closest_spec rs : forall i med best bestd,
  let c := closest rs i med best bestd in
  (c = best /\ forall r, r ∈ rs -> ok_result r = true -> flt (offMedian med r) bestd = false) \/
  (exists r, (i <= c)%nat /\ rs !! (c - i)%nat = Some r /\ ok_result r = true /\
     flt (offMedian med r) bestd = true /\
     forall r', r' ∈ rs -> ok_result r' = true -> flt (offMedian med r') (offMedian med r) = false).
Proof.
  induction rs as [|r rs IH]; intros i med best bestd c; subst c; cbn [closest].
  { left. split; [done|]. by intros r ?%elem_of_nil. }
  fold (offMedian med r).
  destruct (ok_result r) eqn:Eok; [destruct (flt (offMedian med r) bestd) eqn:Ef|].
  - right. destruct (IH (S i) med i (offMedian med r)) as [[-> Hlow]|(x & Hi & Hx & Hok & Hlt & Hlow)].
    + exists r. rewrite Nat.sub_diag. split_and!; [lia|done..|].
      intros r' [->|Hr']%elem_of_cons Hok'; [apply flt_irrefl|auto].
    + exists x. split_and!; [lia| |done|by apply (flt_trans _ (offMedian med r))|].
      * by apply lookup_shift.
      * intros r' [->|Hr']%elem_of_cons Hok'; [|auto].
        destruct (flt (offMedian med r) (offMedian med x)) eqn:E; [|done].
        pose proof (flt_trans _ _ _ Hlt E) as Hbad. by rewrite flt_irrefl in Hbad.
  - destruct (IH (S i) med best bestd) as [[-> Hlow]|(x & Hi & Hx & Hok & Hlt & Hlow)].
    + left. split; [done|]. intros r' [->|Hr']%elem_of_cons Hok'; [done|auto].
    + right. exists x. split_and!; [lia| |done..|].
      * by apply lookup_shift.
      * intros r' [->|Hr']%elem_of_cons Hok'; [|auto].
        destruct (flt (offMedian med r) (offMedian med x)) eqn:E; [|done].
        pose proof (flt_trans _ _ _ E Hlt) as Hbad. congruence.
  - destruct (IH (S i) med best bestd) as [[-> Hlow]|(x & Hi & Hx & Hok & Hlt & Hlow)].
    + left. split; [done|]. intros r' [->|Hr']%elem_of_cons Hok'; [congruence|auto].
    + right. exists x. split_and!; [lia| |done..|].
      * by apply lookup_shift.
      * intros r' [->|Hr']%elem_of_cons Hok'; [congruence|auto].
Qed.

(** The results of the repetitions, in order. *)
Definition repResults (run : CellConfig -> nat -> Result) (cell : CellConfig) (reps : Z) : list Result :=
  (fun i => run (withSeed cell (repSeed (CellSeed cell) i)) i) <$> seq 0 (Z.to_nat (Z.max 1 reps)).

Lemma repResults_len run cell reps : len (repResults run cell reps) = Z.max 1 reps.
Proof. unfold repResults, len. rewrite length_fmap, length_seq. lia. Qed.

Lemma runReps_unfold run cell reps :
  runReps run cell reps =
    let results := repResults run cell reps in
    let tputs := (fun r => rt_SustainedOps (Throughput r)) <$> filter (fun r => ok_result r = true) results in
    if len tputs =? 0 then Prelude.index results 0
    else
      let* med := MedianOf tputs in
      let* o := Prelude.index results (Z.of_nat (closest results 0 med 0 f64_1e18)) in
      let* mn := minOf tputs in
      let* mx := maxOf tputs in
      Ok (set_throughput (set_reps o (Z.max 1 reps))
            (MkResThroughput med mn mx (rt_ReadOps (Throughput o)) (rt_WriteOps (Throughput o)))).
Proof.
  unfold runReps, repResults. by replace (if reps <? 1 then 1 else reps) with (Z.max 1 reps) by (case_zcmp; lia).
Qed.

(** When every repetition failed, the first failure is the result. *)
Lemma runReps_all_failed run cell reps :
  (fun r => rt_SustainedOps (Throughput r)) <$> filter (fun r => ok_result r = true) (repResults run cell reps) = [] ->
  runReps run cell reps = Ok (run (withSeed cell (repSeed (CellSeed cell) 0)) 0%nat).
Proof.
  intros Hf. rewrite runReps_unfold. cbn zeta. rewrite Hf, len_nil, Z.eqb_refl. unfold repResults.
  by replace (Z.to_nat (Z.max 1 reps)) with (S (Z.to_nat (Z.max 1 reps - 1))) by lia.
Qed.

(** The result [closest] selects exists, and is a nearest one when any result
    is near enough to be considered. *)
Lemma closest_picks rs med :
  rs <> [] -> exists o, Prelude.index rs (Z.of_nat (closest rs 0 med 0 f64_1e18)) = Ok o /\ o ∈ rs /\
    (Exists (fun r => ok_result r = true /\ flt (offMedian med r) f64_1e18 = true) rs ->
     ok_result o = true /\
     Forall (fun r => ok_result r = true -> flt (offMedian med r) (offMedian med o) = false) rs).
Proof.
  intros Hne. destruct (closest_spec rs 0 med 0 f64_1e18) as [[-> Hlow]|(o & _ & Ho & Hok & _ & Hlow)].
  - destruct rs as [|r rs]; [done|]. exists r. split_and!; [done|left|].
    intros (x & Hx & Hok & Hlt)%Exists_exists. rewrite Hlow in Hlt; done.
  - rewrite Nat.sub_0_r in Ho. exists o. split_and!; [by apply index_ok|by eapply list_elem_of_lookup_2|].
    intros _. split; [done|]. by apply Forall_forall.
Qed.

Lemma runReps_some_ok run cell reps :
  let results := repResults run cell reps in
  let tputs := (fun r => rt_SustainedOps (Throughput r)) <$> filter (fun r => ok_result r = true) results in
  tputs <> [] -> exists med mn mx o,
     MedianOf tputs = Ok med /\ (len tputs mod 2 = 1 -> med ∈ tputs) /\
     extreme flt tputs mn /\ extreme fgt tputs mx /\
     runReps run cell reps = Ok (set_throughput (set_reps o (Z.max 1 reps))
       (MkResThroughput med mn mx (rt_ReadOps (Throughput o)) (rt_WriteOps (Throughput o)))) /\
     o ∈ results /\
     (Exists (fun r => ok_result r = true /\ flt (offMedian med r) f64_1e18 = true) results ->
      ok_result o = true /\
      Forall (fun r => ok_result r = true -> flt (offMedian med r) (offMedian med o) = false) results).
Proof.
  intros results tputs Hne. destruct (MedianOf_ok tputs) as [med Hmed].
  destruct (minOf_spec tputs Hne) as (mn & Emn & Hmn), (maxOf_spec tputs Hne) as (mx & Emx & Hmx).
  destruct (closest_picks results med) as (o & Eo & Hin & Hbest); [by intros E; apply Hne; unfold tputs; rewrite E|].
  exists med, mn, mx, o. split_and!; [done|by apply MedianOf_odd|done|done| |done..].
  rewrite runReps_unfold. cbn zeta. fold results. fold tputs.
  destruct (Z.eqb_spec (len tputs) 0) as [E|_]; [by destruct tputs|].
  by rewrite Hmed; cbn [obind]; rewrite Eo; cbn [obind]; rewrite Emn; cbn [obind]; rewrite Emx.
Qed.

(** The identity of a cell's result comes from one of its repetitions. *)
(** What an aggregated result takes over from one of its repetitions. *)
Definition carries (r o : Result) : Prop :=
  REngine r = REngine o /\ RWorkload r = RWorkload o /\ Error r = Error o /\
  LatencyNs r = LatencyNs o /\ Load_ r = Load_ o /\ Environment r = Environment o.

Lemma runReps_identity run cell reps :
  exists r o, runReps run cell reps = Ok r /\ o ∈ repResults run cell reps /\ carries r o.
Proof.
  pose proof (repResults_len run cell reps) as Hlen.
  set (tputs := (fun r => rt_SustainedOps (Throughput r)) <$>
    filter (fun r => ok_result r = true) (repResults run cell reps)).
  destruct tputs as [|x xs] eqn:E; subst tputs.
  - eexists _, _. split_and!; [by apply runReps_all_failed| |done..]. unfold repResults.
    replace (Z.to_nat (Z.max 1 reps)) with (S (Z.to_nat (Z.max 1 reps - 1))) by lia. left.
  - destruct (runReps_some_ok run cell reps) as (med & mn & mx & o & _ & _ & _ & _ & -> & Hin & _).
    + by rewrite E.
    + eexists _, o. by split_and!.
Qed.

(** ** Result files *)

(** What a file name spells out of a cell. *)
Definition cellFields (c : CellConfig) : string * string * string * Z * Z * string :=
  (EngineName c, Name (CellWorkload c), Regime c, ValueBytes c, Concurrency c, Durability c).

Definition resultFields (r : Result) : string * string * string * Z * Z * string :=
  let w := RWorkload r in
  (re_Name (REngine r), rw_Name w, rw_Regime w, rw_ValueBytes w, rw_Concurrency w, rw_Durability w).

(** A name without the separator and without slashes, and an [int]. *)
Definition plain (s : string) : Prop := (z2b 95 ∉ txt s) /\ (z2b 47 ∉ txt s).

Definition plain_fields (x : string * string * string * Z * Z * string) : Prop :=
  let '(en, wn, regime, v, c, dur) := x in
  plain en /\ plain wn /\ plain regime /\ plain dur /\ is_i64 v /\ is_i64 c.

Lemma Itoa_inj n k : is_i64 n -> is_i64 k -> Itoa n = Itoa k -> n = k.
Proof. intros Hn Hk E. apply (f_equal Atoi) in E. rewrite !Atoi_Itoa in E by done. congruence. Qed.

Lemma ReplaceByte_absent x r l : x ∉ l -> ReplaceByte x r l = l.
Proof.
  induction l as [|b l IH]; intros Hx; [done|]. apply not_elem_of_cons in Hx as [Hb Hx].
  unfold ReplaceByte in *. cbn [flat_map]. rewrite IH by done. by rewrite bool_decide_eq_false_2.
Qed.

(** Two texts that agree up to the first separator. *)
Lemma sep_cancel (x : Byte.byte) a b l l' :
  x ∉ a -> x ∉ b -> a ++ x :: l = b ++ x :: l' -> a = b /\ l = l'.
Proof.
  revert b. induction a as [|y a IH]; intros [|z b] Ha Hb E; cbn [app] in E.
  - by injection E as ->.
  - injection E as -> _. by apply not_elem_of_cons in Hb as [? _].
  - injection E as -> _. by apply not_elem_of_cons in Ha as [? _].
  - injection E as -> E. apply not_elem_of_cons in Ha as [_ Ha]. apply not_elem_of_cons in Hb as [_ Hb].
    by destruct (IH b Ha Hb E) as [-> ->].
Qed.

Lemma plain_Itoa n b : b <> dash_byte -> is_digit b = false -> b ∉ Itoa n.
Proof. intros Hd Hn Hb. apply Itoa_bytes in Hb as [?|?]; congruence. Qed.

Lemma txt_inj s1 s2 : txt s1 = txt s2 -> s1 = s2.
Proof. intros E. by rewrite <- (str_txt s1), E, str_txt. Qed.

Lemma Join_absent x sep parts : x ∉ sep -> Forall (fun p => x ∉ p) parts -> x ∉ Join sep parts.
Proof.
  intros Hs Hall. induction Hall as [|p parts Hp Hall IH]; [apply not_elem_of_nil|]. cbn [Join].
  destruct parts as [|p' parts']; [done|]. rewrite !not_elem_of_app. by split_and!.
Qed.

(** The name before slashes are replaced, and that there are none. *)
Lemma resultName_plain r :
  plain_fields (resultFields r) ->
  let '(en, wn, regime, v, c, dur) := resultFields r in
  let sep := z2b 95 in
  resultName r = txt en ++ sep :: sep :: txt wn ++ sep :: sep :: txt regime ++ sep :: sep ::
    (z2b 118 :: Itoa v) ++ sep :: sep :: (z2b 99 :: Itoa c) ++ sep :: sep :: txt dur ++ txt ".json".
Proof.
  unfold plain_fields, resultFields, plain. intros ([_ H1] & [_ H2] & [_ H3] & [_ H4] & _ & _).
  unfold resultName. rewrite ReplaceByte_absent.
  - simpl. repeat (rewrite <- app_assoc; cbn [app]). reflexivity.
  - apply not_elem_of_app. split; [|by apply (bool_decide_unpack _); vm_compute].
    apply Join_absent; [by apply (bool_decide_unpack _); vm_compute|].
    repeat constructor; try done; apply not_elem_of_app; (split; [by apply (bool_decide_unpack _); vm_compute|]);
      by apply plain_Itoa.
Qed.

(** File names tell results of different cells apart. *)
Lemma resultName_inj r r' :
  plain_fields (resultFields r) -> plain_fields (resultFields r') ->
  resultName r = resultName r' -> resultFields r = resultFields r'.
Proof.
  intros Hr Hr'. pose proof (resultName_plain r Hr) as E. pose proof (resultName_plain r' Hr') as E'.
  destruct (resultFields r) as [[[[[en wn] rg] v] c] dur].
  destruct (resultFields r') as [[[[[en' wn'] rg'] v'] c'] dur']. cbv zeta in E, E'. rewrite E, E'. clear E E'.
  destruct Hr as ([? _] & [? _] & [? _] & [? _] & ? & ?). destruct Hr' as ([? _] & [? _] & [? _] & [? _] & ? & ?).
  intros E. apply sep_cancel in E as [->%txt_inj [= E]]; [|done..].
  apply sep_cancel in E as [->%txt_inj [= E]]; [|done..]. apply sep_cancel in E as [->%txt_inj [= E]]; [|done..].
  apply sep_cancel in E as [->%Itoa_inj [= E]]; [|done|done|by apply plain_Itoa..].
  apply sep_cancel in E as [->%Itoa_inj [= E]]; [|done|done|by apply plain_Itoa..].
  apply app_inv_tail in E as ->%txt_inj. done.
Qed.

(** ** The grid has no cell twice *)

(** A loop whose iterations are told apart by a part of what they yield. *)
Lemma NoDup_fmap_bind {A B C D} (l : list A) (f : A -> list B) (g : B -> C) (h : A -> D) (p : C -> D) :
  NoDup (h <$> l) -> (forall x, x ∈ l -> NoDup (g <$> f x)) ->
  (forall x y, x ∈ l -> y ∈ f x -> p (g y) = h x) -> NoDup (g <$> (l ≫= f)).
Proof.
  induction l as [|x l IH]; intros Hnd Hin Hp; [apply NoDup_nil_2|].
  rewrite fmap_cons in Hnd. apply NoDup_cons in Hnd as [Hx Hnd].
  rewrite bind_cons, fmap_app. apply NoDup_app. split_and!; [apply Hin; left| |].
  - intros c (y & -> & Hy)%list_elem_of_fmap (y' & Hg & (x' & Hy' & Hx')%list_elem_of_bind)%list_elem_of_fmap.
    apply Hx. apply list_elem_of_fmap. exists x'. split; [|done].
    rewrite <- (Hp x y) by (done || left). rewrite Hg. apply Hp; [by right|done].
  - apply IH; [done| |]; intros; [apply Hin; by right|apply Hp; [by right|done]].
Qed.

Lemma str_inj b1 b2 : str b1 = str b2 -> b1 = b2.
Proof.
  intros E. apply (f_equal txt) in E. unfold txt, str in E.
  by rewrite !String.list_byte_of_string_of_list_byte in E.
Qed.

Lemma lookup_spec_name n s : lookup_spec n Catalog = Some s -> Name s = n.
Proof.
  assert (Forall (fun '(n, s) => Name s = n) Catalog) as Hcat by (repeat constructor).
  induction Hcat as [|[n' s'] cat Hn _ IH]; cbn [lookup_spec]; [done|].
  case_bool_decide; [intros [= <-]; congruence|done].
Qed.

(** The axes of the grid name nothing twice. *)
Record distinct_axes (f : runFlags) : Prop := {
  da_engines : NoDup (engines f);
  da_workloads : NoDup (workloads f);
  da_regimes : NoDup (regimes f);
  da_durability : NoDup (durability f);
  da_values : NoDup (values f);
  da_conc : NoDup (conc f) }.

Ltac bind_inv H :=
  repeat (apply list_elem_of_bind in H as (? & H & ?)); apply list_elem_of_singleton in H; subst.

Lemma NoDup_cells has f runID dataRoot server :
  distinct_axes f -> NoDup (cellFields <$> cells has f runID dataRoot server).
Proof.
  intros [He Hw Hr Hd Hv Hc]. unfold cells.
  eapply (NoDup_fmap_bind _ _ _ str (fun x => x.1.1.1.1.1)).
  { apply NoDup_fmap_2; [exact str_inj|]. by apply NoDup_filter. }
  2: { intros en cell _ Hin. bind_inv Hin. done. }
  intros en _. eapply (NoDup_fmap_bind _ _ _ str (fun x => x.1.1.1.1.2)).
  { by apply NoDup_fmap_2; [exact str_inj|]. }
  2: { intros wn cell _ Hin. apply list_elem_of_bind in Hin as (spec & Hin & Hs). bind_inv Hin.
       apply lookup_spec_name. destruct (lookup_spec _ _); [|by apply elem_of_nil in Hs].
       apply list_elem_of_singleton in Hs. by subst. }
  intros wn _. destruct (lookup_spec (str wn) Catalog) as [spec|]; [|apply NoDup_nil_2].
  rewrite bind_cons, app_nil_r. eapply (NoDup_fmap_bind _ _ _ str (fun x => x.1.1.1.2)).
  { by apply NoDup_fmap_2; [exact str_inj|]. }
  2: { intros rg cell _ Hin. bind_inv Hin. done. }
  intros rg _. eapply (NoDup_fmap_bind _ _ _ str (fun x => x.2)).
  { by apply NoDup_fmap_2; [exact str_inj|]. }
  2: { intros dur cell _ Hin. bind_inv Hin. done. }
  intros dur _. eapply (NoDup_fmap_bind _ _ _ id (fun x => x.1.1.2)).
  { by rewrite list_fmap_id. }
  2: { intros v cell _ Hin. bind_inv Hin. done. }
  intros v _. eapply (NoDup_fmap_bind _ _ _ id (fun x => x.1.2)).
  { by rewrite list_fmap_id. }
  - intros c _. apply NoDup_singleton.
  - intros c cell _ Hin. bind_inv Hin. done.
Qed.

(** ** The result directory *)

Lemma writeAll_other l dir n :
  n ∉ resultName <$> l -> foldl writeResult dir l !! n = dir !! n.
Proof.
  revert dir. induction l as [|r l IH]; intros dir Hn; [done|]. rewrite fmap_cons in Hn.
  apply not_elem_of_cons in Hn as [Hr Hn]. cbn [foldl]. rewrite IH by done.
  unfold writeResult. by rewrite lookup_insert_ne.
Qed.

(** Writing results with distinct names keeps them all. *)
Lemma writeAll_distinct l :
  NoDup (resultName <$> l) ->
  size (foldl writeResult ∅ l) = length l /\
  forall r, r ∈ l -> foldl writeResult ∅ l !! resultName r = Some r.
Proof.
  induction l as [|x l IH] using rev_ind; intros Hnd; [split; [done|by intros r ?%elem_of_nil]|].
  rewrite fmap_app in Hnd. apply NoDup_app in Hnd as (Hnd & Hx & _).
  assert (resultName x ∉ resultName <$> l) as Hnew.
  { intros Hin. apply (Hx _ Hin). apply list_elem_of_singleton. done. }
  destruct (IH Hnd) as [Hsz Hlk]. rewrite foldl_snoc. unfold writeResult at 1 3. split.
  - rewrite map_size_insert_None by (by rewrite writeAll_other). rewrite Hsz, length_app. simpl. lia.
  - intros r [Hr| ->%list_elem_of_singleton]%elem_of_app; [|by rewrite lookup_insert_eq].
    rewrite lookup_insert_ne; [by apply Hlk|]. intros E. apply Hnew. rewrite E.
    apply list_elem_of_fmap. by exists r.
Qed.

(** Each result is carried over from some repetition of its cell. *)
Definition row_of (run : nat -> CellConfig -> nat -> Result) (c : CellConfig) (r : Result) : Prop :=
  exists d i s, carries r (run d (withSeed c s) i).

Lemma runCells_rows run reps cs : forall done all dir, exists rs,
  runCells run reps cs done all dir = Ok (all ++ rs, foldl writeResult dir rs) /\ Forall2 (row_of run) cs rs.
Proof.
  induction cs as [|c cs IH]; intros done all dir; cbn [runCells].
  { exists []. rewrite app_nil_r. split; [done|constructor]. }
  destruct (runReps_identity (run done) c reps) as (r & o & -> & Ho & Hro). cbn [obind].
  destruct (IH (S done) (all ++ [r]) (writeResult dir r)) as (rs & -> & Hrs).
  exists (r :: rs). rewrite <- app_assoc. split; [done|]. constructor; [|done].
  apply list_elem_of_fmap in Ho as (i & -> & _). by exists done, i, (repSeed (CellSeed c) i).
Qed.

Lemma rows_fields run cs rs :
  (forall c d i s, c ∈ cs -> resultFields (run d (withSeed c s) i) = cellFields c) -> Forall2 (row_of run) cs rs ->
  resultFields <$> rs = cellFields <$> cs.
Proof.
  intros Hrun. induction 1 as [|c r cs rs (d & i & s & He & Hw & _) _ IH]; [done|].
  rewrite !fmap_cons, IH by (intros; apply Hrun; by right). f_equal.
  unfold resultFields. rewrite He, Hw. apply (Hrun c d i s). by left.
Qed.

(** Names that file names spell out unambiguously. *)
Record plain_axes (f : runFlags) : Prop := {
  pa_engines : Forall (fun b => plain (str b)) (engines f);
  pa_regimes : Forall (fun b => plain (str b)) (regimes f);
  pa_durability : Forall (fun b => plain (str b)) (durability f);
  pa_values : Forall is_i64 (values f);
  pa_conc : Forall is_i64 (conc f) }.

Definition plainb (s : string) : bool :=
  bool_decide (z2b 95 ∉ txt s) && bool_decide (z2b 47 ∉ txt s).

Lemma plainb_ok s : plainb s = true -> plain s.
Proof. intros [?%bool_decide_eq_true ?%bool_decide_eq_true]%andb_true_iff. done. Qed.

Lemma lookup_spec_plain n s : lookup_spec n Catalog = Some s -> plain (Name s).
Proof.
  assert (forallb (fun '(_, s) => plainb (Name s)) Catalog = true) as Hcat by (vm_compute; reflexivity).
  revert Hcat. induction Catalog as [|[n' s'] cat IH]; cbn [lookup_spec forallb]; [done|].
  intros [Hs Hc]%andb_true_iff. case_bool_decide; [intros [= <-]; by apply plainb_ok|by apply IH].
Qed.

Lemma plain_cells has f runID dataRoot server :
  plain_axes f -> Forall plain_fields (cellFields <$> cells has f runID dataRoot server).
Proof.
  intros [He Hr Hd Hv Hc]. rewrite Forall_forall in He, Hr, Hd. rewrite Forall_forall in Hv, Hc.
  apply Forall_forall. intros x (cell & -> & Hin)%list_elem_of_fmap.
  apply elem_of_cells in Hin as (en & wn & spec & rg & dur & v & c & ? & _ & _ & Hs & ? & ? & ? & ? & ->).
  unfold plain_fields. simpl. split_and!; auto. by eapply lookup_spec_plain.
Qed.

Lemma NoDup_fmap_transfer {A B C} (f : A -> B) (g : A -> C) (P : B -> Prop) (l : list A) :
  NoDup (f <$> l) -> Forall P (f <$> l) ->
  (forall x y, P (f x) -> P (f y) -> g x = g y -> f x = f y) -> NoDup (g <$> l).
Proof.
  intros Hnd HP Hinj. induction l as [|x l IH]; [apply NoDup_nil_2|]. rewrite !fmap_cons in *.
  apply NoDup_cons in Hnd as [Hx Hnd]. apply Forall_cons in HP as [HPx HP].
  apply NoDup_cons. split; [|by apply IH]. intros (y & Hg & Hy)%list_elem_of_fmap. apply Hx.
  assert (f y ∈ f <$> l) as Hfy by (apply list_elem_of_fmap; by exists y).
  rewrite (Hinj x y); [done|done| |done]. rewrite Forall_forall in HP. by apply HP.
Qed.

(** What a run returns and leaves in its directory. *)
Lemma cmdRun_results has defaults available split dataRoot run args f :
  parse args defaultFlags = Some f ->
  let g := complete defaults f in
  let cs := cells has g (str (txt "run-" ++ Itoa (seed g))) dataRoot
    (str (resolveCPUSplit g available split)) in
  exists rs, cmdRun has defaults available split dataRoot run args = Some (Ok (rs, foldl writeResult ∅ rs)) /\
    Forall2 (row_of run) cs rs.
Proof.
  intros Hparse g cs. unfold cmdRun. rewrite Hparse. cbn [mbind option_bind].
  destruct (runCells_rows run (reps g) cs 0 [] ∅) as (rs & Hrs & Hf). exists rs. split; [by f_equal|done].
Qed.

Lemma result_files_distinct has g runID dataRoot server rs :
  distinct_axes g -> plain_axes g ->
  resultFields <$> rs = cellFields <$> cells has g runID dataRoot server -> NoDup (resultName <$> rs).
Proof.
  intros Hdist Hplain Hf.
  eapply (NoDup_fmap_transfer resultFields); [rewrite Hf; by apply NoDup_cells|
      rewrite Hf; by apply plain_cells|apply resultName_inj].
Qed.

(** ** Claims *)

Definition demoFlags : runFlags :=
  MkRunFlags [txt "swiss"; txt "f2"] [txt "ycsb-a"; txt "fillseq"] [txt "cache-resident"] [txt "DEFAULT"]
    [1024] [8] 100000 200000 3 1 [] false [] [].

Lemma demo_distinct : distinct_axes demoFlags.
Proof. split; apply (bool_decide_unpack _); vm_compute; exact Logic.I. Qed.

Lemma demo_plain : plain_axes demoFlags.
Proof.
  split; repeat constructor; try (apply plainb_ok; vm_compute; reflexivity); unfold is_i64; cbn; lia.
Qed.

(** C35: the flags of a run survive the command line.  Write every flag of a
    run out as arguments, lists joined by commas and numbers in decimal, and
    [parse] gives the same flags back, whatever flags it starts from; in
    particular the hand-written [atoi] reads back every number. *)
Theorem parse_reads_back f g :
  writable f -> cpuSplit g = false ->
  parse (render f) g = Some f /\ Forall (fun n => atoi (Itoa n) = n) (values f ++ conc f).
Proof.
  intros Hw Hg. split; [by apply parse_render|].
  apply Forall_app. split; (eapply Forall_impl; [apply Hw|]); apply atoi_Itoa.
Qed.

Lemma parse_reads_back_witness :
  parse (render demoFlags) defaultFlags = Some demoFlags /\
  Forall (fun n => atoi (Itoa n) = n) (values demoFlags ++ conc demoFlags).
Proof.
  apply (parse_reads_back demoFlags defaultFlags); [|reflexivity].
  split; try (cbn; lia); try (apply cleanb_list; vm_compute; reflexivity); repeat constructor; cbn; lia.
Defined.

(** A run covers its grid.  The cells are exactly the combinations of a
    built-in engine, a known workload, a regime, a durability, a value size and
    a concurrency that the flags name, and when all engines and workloads named
    exist their number is the total printed with the progress lines. *)
Theorem run_covers_grid has f runID dataRoot server :
  (forall cell, cell ∈ cells has f runID dataRoot server <->
    exists en wn spec regime dur val c, en ∈ engines f /\ has (str en) = true /\ wn ∈ workloads f /\
      lookup_spec (str wn) Catalog = Some spec /\ regime ∈ regimes f /\ dur ∈ durability f /\
      val ∈ values f /\ c ∈ conc f /\ cell = mkCell f en spec regime dur val c runID dataRoot server) /\
  (Forall (fun en => has (str en) = true) (engines f) ->
   Forall (fun wn => is_Some (lookup_spec (str wn) Catalog)) (workloads f) ->
   len (cells has f runID dataRoot server) = cell_total f).
Proof. split; [intros; apply elem_of_cells|apply length_cells]. Qed.

(** A run loses no result.  When the flags name no engine, regime,
    durability, size or concurrency twice, names are free of underscores and
    slashes, and every repetition reports the cell it ran, the run returns one
    result per cell of the grid, in order, and the result directory holds each
    of them in a file of its own. *)
Theorem run_keeps_every_result has defaults available split dataRoot run args f :
  parse args defaultFlags = Some f ->
  let g := complete defaults f in
  let cs := cells has g (str (txt "run-" ++ Itoa (seed g))) dataRoot
    (str (resolveCPUSplit g available split)) in
  distinct_axes g -> plain_axes g ->
  (forall c d i s, c ∈ cs -> resultFields (run d (withSeed c s) i) = cellFields c) ->
  exists all dir, cmdRun has defaults available split dataRoot run args = Some (Ok (all, dir)) /\
    resultFields <$> all = cellFields <$> cs /\ size dir = length cs /\
    forall r, r ∈ all -> dir !! resultName r = Some r.
Proof.
  intros Hparse g cs Hdist Hplain Hrun.
  destruct (cmdRun_results has defaults available split dataRoot run args f Hparse) as (rs & Hrs & Hf).
  apply (rows_fields run _ _ Hrun) in Hf. exists rs, (foldl writeResult ∅ rs). split; [done|]. split; [done|].
  destruct (writeAll_distinct rs) as [-> Hlk]; [by eapply result_files_distinct|]. split; [|done].
  rewrite <- (length_fmap resultFields), Hf. by rewrite length_fmap.
Qed.

Definition demoRun (_ : nat) (c : CellConfig) (_ : nat) : Result :=
  MkResult "" "" "" 0 (MkResEngine (EngineName c) "" "" "" "" "" NoCaps)
    (MkResWorkload (Name (CellWorkload c)) (Regime c) (Durability c) (Concurrency c) (ValueBytes c) 0 0)
    0 (Throughput zeroResult) (LatencyNs zeroResult) (Load_ zeroResult) (Amplification zeroResult)
    (GoRuntime zeroResult) [] true "" zeroManifest.

Definition demoArgs : list bytes := [txt "--engines"; txt "swiss,f2"; txt "--workloads"; txt "ycsb-a,fillseq"].

Lemma run_keeps_every_result_witness :
  exists all dir, cmdRun (fun _ => true) [] false (fun _ _ => Failed) "/tmp" demoRun demoArgs = Some (Ok (all, dir)) /\
    resultFields <$> all = cellFields <$> cells (fun _ => true) demoFlags "run-1" "/tmp" "" /\ size dir = 4%nat /\
    forall r, r ∈ all -> dir !! resultName r = Some r.
Proof.
  apply (run_keeps_every_result (fun _ => true) [] false (fun _ _ => Failed) "/tmp" demoRun demoArgs demoFlags).
  - vm_compute. reflexivity.
  - exact demo_distinct.
  - exact demo_plain.
  - reflexivity.
Defined.

(** The cache of a cell fits its regime.  For a working set that does not
    overflow, a cache-resident cell gets at least the working set (and at least
    8 MiB), and an out-of-cache cell an eighth of it, but at least 1 MiB. *)
Theorem cache_fits_regime regime card val :
  0 <= card -> 0 <= val -> card * (val + 16) * 2 < 2 ^ 63 -> card < 2 ^ 63 -> val + 16 < 2 ^ 63 ->
  let ws := card * (val + 16) in
  (regime = txt "out-of-cache" -> cacheFor regime card val = Z.max (2 ^ 20) (ws / 8)) /\
  (regime <> txt "out-of-cache" -> ws <= cacheFor regime card val /\ 2 ^ 23 <= cacheFor regime card val).
Proof.
  intros Hc Hv Hws Hc63 Hv63 ws. rewrite cacheFor_spec by done. fold ws. split; intros Hr.
  - by rewrite bool_decide_eq_true_2.
  - rewrite bool_decide_eq_false_2 by done. assert (0 <= ws / 4) by (apply Z.div_pos; unfold ws; nia). lia.
Qed.

Lemma cache_fits_regime_witness :
  (txt "cache-resident" = txt "out-of-cache" ->
     cacheFor (txt "cache-resident") 100000 1024 = Z.max (2 ^ 20) (100000 * (1024 + 16) / 8)) /\
  (txt "cache-resident" <> txt "out-of-cache" ->
     100000 * (1024 + 16) <= cacheFor (txt "cache-resident") 100000 1024 /\
     2 ^ 23 <= cacheFor (txt "cache-resident") 100000 1024).
Proof. apply (cache_fits_regime (txt "cache-resident") 100000 1024); lia. Defined.

