(* ===== verification/Report.v ===== *)
(** * The report and compare commands (cmd/kvbench/report.go, compare.go)

    How results are split into divisions and workloads, ordered and rendered,
    and how the compare command pairs each cell of the kv run with the fastest
    competitor of the baseline.  Go's [sort.Slice] is not stable, so a ranking
    is any permutation its [less] function allows. *)

From Stdlib Require Import SpecFloat.
From stdpp Require Import sorting.
From S2P Require Import Prelude Float64 Codec Engine Workload Hdr Harness Text.
Local Open Scope go_scope.

(** ** Divisions *)

Definition classOrder : list string :=
  [ClassEmbedded; ClassRedisMemory; ClassRedisPersistent; ClassDistributed].

Definition classOf (r : Result) : string :=
  if bool_decide (re_Class (REngine r) <> "") then re_Class (REngine r)
  else if bool_decide (re_Mode (REngine r) = ModeNetwork) then ClassRedisMemory
  else ClassEmbedded.

(** [m[k] = append(m[k], r)] over the results, for the key [key r]. *)
Fixpoint group_by (key : Result -> string) (rs : list Result) (m : gmap string (list Result))
    : gmap string (list Result) :=
  match rs with
  | [] => m
  | r :: rs' => group_by key rs' (<[key r := default [] (m !! key r) ++ [r]]> m)
  end.

Definition groupByClass (rs : list Result) : list string * gmap string (list Result) :=
  let m := group_by classOf rs ∅ in
  (filter (fun c => 0 < len (default [] (m !! c))) classOrder, m).

Definition groupByWorkload (rs : list Result) : gmap string (list Result) :=
  group_by (fun r => rw_Name (RWorkload r)) rs ∅.

(** [order] is the order in which [range m] produced the keys. *)
Definition sortedKeys (order : list string) : list string := sort_strings order.

(** The two [less] functions. *)
Definition tableLess (a b : Result) : bool :=
  fgt (rt_SustainedOps (Throughput a)) (rt_SustainedOps (Throughput b)).

Definition markdownLess (a b : Result) : bool :=
  if bool_decide (Error a <> "") || bool_decide (Error b <> "")
  then bool_decide (Error a = "") && bool_decide (Error b <> "")
  else fgt (rt_SustainedOps (Throughput a)) (rt_SustainedOps (Throughput b)).

(** A result [sort.Slice] may leave: no row is less than one before it. *)
Definition ranked (less : Result -> Result -> bool) (rows rows' : list Result) : Prop :=
  rows' ≡ₚ rows /\ StronglySorted (fun a b => less b a = false) rows'.

(** ** Rendering *)

(** [comma] on the integer part [n] of the throughput. *)
Fixpoint comma_loop (l : bytes) (i n : Z) : bytes :=
  match l with
  | [] => []
  | c :: l' =>
      (if (i >? 0) && (Z.rem (n - i) 3 =? 0) then [comma_byte; c] else [c]) ++ comma_loop l' (i + 1) n
  end.

Definition commaZ (n : Z) : bytes := let s := Itoa n in comma_loop s 0 (len s).

Section Formats.
(** [%.0f] and [%.2f] of the fmt package, the platform's [int64(f)] for a float
    out of range, and [time.Duration.String]. *)
Context (fmt0 fmt2 : float64 -> bytes) (i64_oob : float64 -> Z) (duration : Z -> bytes).

Definition to_i64 (x : float64) : Z :=
  match f64_trunc x with
  | Some z => if (- 2 ^ 63 <=? z) && (z <? 2 ^ 63) then z else i64_oob x
  | None => i64_oob x
  end.

Definition comma (f : float64) : bytes := commaZ (to_i64 f).

Definition ns (v : Z) : bytes := if v =? 0 then txt "-" else duration v.

Definition gcns (v : Z) : bytes := if v =? 0 then txt "-" else duration v.

Definition amp (a : float64) : bytes := if flt a f64_zero then txt "n/a" else fmt2 a ++ txt "x".

(** [for n := b / u; n >= u; n /= u { div *= u; exp++ }]: an [int64] is divided
    by 1024 at most six times before it is below 1024. *)
Fixpoint human_loop (fuel : nat) (n div exp : Z) : Z * Z :=
  match fuel with
  | O => (div, exp)
  | S f => if n >=? 1024 then human_loop f (Z.quot n 1024) (swrap64 (div * 1024)) (exp + 1) else (div, exp)
  end.

Definition humanBytes (b : Z) : outcome bytes :=
  if b <? 0 then Ok (txt "?")
  else if b <? 1024 then Ok (Itoa b ++ txt "B")
  else
    let (div, exp) := human_loop 7 (Z.quot b 1024) 1024 0 in
    let* u := Prelude.index (txt "KMGTPE") exp in
    Ok (fmt0 (fdiv (f64_of_Z b) (f64_of_Z div)) ++ [u] ++ txt "B").

Definition mdEsc (s : bytes) : bytes := ReplaceByte (z2b 124) [z2b 92; z2b 124] s.

(** One row of the markdown table. *)
Definition markdownRow (r : Result) : bytes :=
  let e := REngine r in
  if bool_decide (Error r <> "")
  then txt "| " ++ Join (txt " | ") [txt (re_Name e); txt (re_Family e); txt (re_Mode e);
         txt "_" ++ mdEsc (txt (Error r)) ++ txt "_"] ++ txt " | | | | | | |"
  else txt "| " ++ Join (txt " | ") [txt (re_Name e); txt (re_Family e); txt (re_Mode e);
         comma (rt_SustainedOps (Throughput r));
         ns (P50 (LatencyNs r)); ns (P99 (LatencyNs r)); ns (P999 (LatencyNs r)); ns (Max_ (LatencyNs r));
         amp (ra_SpaceAmp (Amplification r)); gcns (rg_GCPauseP99Ns (GoRuntime r))] ++ txt " |".

(** ** The board *)

Definition classTitle (c : string) : bytes :=
  if bool_decide (c = ClassEmbedded) then txt "Class 1: embedded local KV engines"
  else if bool_decide (c = ClassRedisMemory) then txt "Class 2: Redis-compatible in-memory servers"
  else if bool_decide (c = ClassRedisPersistent) then txt "Class 3: Redis-compatible persistent servers"
  else if bool_decide (c = ClassDistributed) then txt "Class 4: distributed KV systems"
  else [].

(** The divisions with their workloads and rows, as both renderers walk them;
    [sortRows] is what [sort.Slice] made of a group of rows. *)
Definition board (sortRows : list Result -> list Result) (rs : list Result)
    : list (string * list (string * list Result)) :=
  let (classes, byClass) := groupByClass rs in
  (fun c =>
     let byWl := groupByWorkload (default [] (byClass !! c)) in
     (c, (fun wl => (wl, sortRows (default [] (byWl !! wl)))) <$> sortedKeys (map_to_list byWl).*1))
  <$> classes.

Definition nl : bytes := [z2b 10].

Definition workloadTable (wl : string) (rows : list Result) : bytes :=
  txt "### " ++ txt wl ++ nl ++ nl ++
  txt "| engine | family | mode | ops/sec | p50 | p99 | p99.9 | max | space-amp | GC p99 |" ++ nl ++
  txt "|--------|--------|------|--------:|----:|----:|------:|----:|----------:|-------:|" ++ nl ++
  concat ((fun r => markdownRow r ++ nl) <$> rows) ++ nl.

Definition runEnvironment (r : Result) : outcome bytes :=
  let env := Environment r in
  let* mem := humanBytes (MemBytes env) in
  Ok (txt "## Run environment" ++ nl ++ nl ++
      txt "- Host: " ++ txt (CPUModel env) ++ txt " " ++ txt (OS env) ++ txt "/" ++ txt (Arch env) ++
      txt ", " ++ Itoa (NumCPU env) ++ txt " CPU, " ++ mem ++ nl ++
      txt "- Go: " ++ txt (GoVersion env) ++ txt ", GOMAXPROCS=" ++ Itoa (GOMAXPROCS env) ++ nl ++
      txt "- kvbench: " ++ txt (Kvbench r) ++ nl ++ nl ++
      txt "The board is split into the four comparison classes, scored separately so an in-process get never shares a table with a networked get." ++ nl ++ nl).

Definition RenderMarkdown (sortRows : list Result -> list Result) (rs : list Result) : outcome bytes :=
  let* r0 := Prelude.index rs 0 in
  let* env := runEnvironment r0 in
  Ok (env ++ concat ((fun '(c, tables) =>
        txt "## " ++ classTitle c ++ nl ++ nl ++ concat ((fun '(wl, rows) => workloadTable wl rows) <$> tables))
      <$> board sortRows rs)).

(** ** compare *)

Definition isKVEngine (name : string) : bool :=
  bool_decide (name = "kv-btree") || bool_decide (name = "kv-lsm").

Definition bar : bytes := txt "|".

Definition cellKey (r : Result) : bytes :=
  let w := RWorkload r in
  Join bar [txt (rw_Name w); txt (rw_Regime w); txt (rw_Durability w);
    txt "v" ++ Itoa (rw_ValueBytes w); txt "c" ++ Itoa (rw_Concurrency w)].

Definition cellLabel (r : Result) : bytes :=
  let w := RWorkload r in
  txt (rw_Name w) ++ txt " (" ++ Join (txt ", ") [txt (rw_Regime w); txt "v" ++ Itoa (rw_ValueBytes w);
    txt "c" ++ Itoa (rw_Concurrency w); txt (rw_Durability w)] ++ txt ")".

Record cmpRow := MkCmpRow {
  cr_key : bytes; cr_sortKey : bytes; cr_btree : float64; cr_lsm : float64; cr_bestComp : float64;
  cr_bestCompNm : string; cr_kvBest : float64; cr_kvBestNm : string; cr_ratio : float64 }.

(** The kv rows by cell, then engine, and the label of each cell. *)
Fixpoint kvIndex (rows : list Result) (m : gmap bytes (gmap string Result)) (label : gmap bytes bytes)
    : gmap bytes (gmap string Result) * gmap bytes bytes :=
  match rows with
  | [] => (m, label)
  | r :: rows' =>
      let nm := re_Name (REngine r) in
      if isKVEngine nm
      then
        let k := cellKey r in
        match m !! k with
        | None => kvIndex rows' (<[k := {[nm := r]}]> m) (<[k := cellLabel r]> label)
        | Some es => kvIndex rows' (<[k := <[nm := r]> es]> m) label
        end
      else kvIndex rows' m label
  end.

(** A baseline row that can be the best competitor. *)
Definition eligible (exclude : gset string) (r : Result) : bool :=
  negb (isKVEngine (re_Name (REngine r))) && negb (bool_decide (re_Name (REngine r) ∈ exclude))
  && bool_decide (Error r = "").

Definition tput (r : Result) : float64 := rt_SustainedOps (Throughput r).

Fixpoint bestIndex (exclude : gset string) (rows : list Result) (m : gmap bytes Result) : gmap bytes Result :=
  match rows with
  | [] => m
  | r :: rows' =>
      if eligible exclude r
      then
        let k := cellKey r in
        match m !! k with
        | None => bestIndex exclude rows' (<[k := r]> m)
        | Some cur =>
            if fgt (tput r) (tput cur) then bestIndex exclude rows' (<[k := r]> m)
            else bestIndex exclude rows' m
        end
      else bestIndex exclude rows' m
  end.

Definition f64_neg1 : float64 := fneg (f64_of_Z 1).

Definition kvTput (es : gmap string Result) (nm : string) : float64 :=
  match es !! nm with
  | Some r => if bool_decide (Error r = "") then tput r else f64_neg1
  | None => f64_neg1
  end.

Definition cmpRowOf (label : gmap bytes bytes) (best : gmap bytes Result) (k : bytes)
    (es : gmap string Result) : cmpRow :=
  let btree := kvTput es "kv-btree" in
  let lsm := kvTput es "kv-lsm" in
  let '(kvBest, kvBestNm) := if fgt lsm btree then (lsm, "kv-lsm"%string) else (btree, "kv-btree"%string) in
  match best !! k with
  | Some c =>
      MkCmpRow (default [] (label !! k)) k btree lsm (tput c) (re_Name (REngine c)) kvBest kvBestNm
        (if fgt (tput c) f64_zero && fgt kvBest f64_zero then fdiv kvBest (tput c) else f64_neg1)
  | None => MkCmpRow (default [] (label !! k)) k btree lsm f64_neg1 "" kvBest kvBestNm f64_neg1
  end.

(** The rows in the order of their keys, which are distinct. *)
Definition buildComparison (kvRows baseRows : list Result) (exclude : gset string) : list cmpRow :=
  let (m, label) := kvIndex kvRows ∅ ∅ in
  let best := bestIndex exclude baseRows ∅ in
  (fun k => cmpRowOf label best k (default ∅ (m !! k))) <$> merge_sort bytes_le (elements (dom m)).

Definition verdict (ratio : float64) : bytes :=
  if flt ratio f64_zero then txt "n/a"
  else if fge ratio (f64_of_Z 5) then fmt2 ratio ++ txt "x 5x-CLEARED"
  else if fge ratio (f64_of_Z 1) then fmt2 ratio ++ txt "x lead"
  else fmt2 ratio ++ txt "x behind".

Definition opsCol (v : float64) : bytes := if flt v f64_zero then txt "-" else comma v.
End Formats.

(** ** Grouping *)

Lemma group_by_lookup key rs : forall m k,
  default [] (group_by key rs m !! k) = default [] (m !! k) ++ filter (fun r => key r = k) rs.
Proof.
  induction rs as [|r rs IH]; intros m k; cbn [group_by]; [by rewrite filter_nil, app_nil_r|].
  rewrite IH, filter_cons. destruct (decide (key r = k)) as [<-|Hne].
  - rewrite lookup_insert_eq. simpl. by rewrite <- app_assoc.
  - by rewrite lookup_insert_ne.
Qed.

Lemma group_by_dom key rs : forall m k,
  is_Some (group_by key rs m !! k) <-> is_Some (m !! k) \/ exists r, r ∈ rs /\ key r = k.
Proof.
  induction rs as [|r rs IH]; intros m k; cbn [group_by].
  - split; [by left|]. intros [?|(r & Hr & _)]; [done|by apply elem_of_nil in Hr].
  - rewrite IH, lookup_insert_is_Some'. split.
    + intros [[<-|?]|(x & Hx & Hk)]; [right; exists r; split; [left|done]|by left|].
      right. exists x. split; [by right|done].
    + intros [?|(x & [->|Hx]%elem_of_cons & Hk)]; [by left; right|by left; left|]. right. by exists x.
Qed.

(** The groups of a list of distinct keys that covers the results. *)
Lemma groups_cover key rs ks :
  NoDup ks -> Forall (fun r => key r ∈ ks) rs ->
  concat ((fun k => default [] (group_by key rs ∅ !! k)) <$> ks) ≡ₚ rs.
Proof.
  intros Hnd Hin. rewrite (list_fmap_ext _ (fun k => filter (fun r => key r = k) rs))
    by (intros i k _; by rewrite group_by_lookup, lookup_empty).
  induction rs as [|r rs IH].
  { clear. induction ks as [|k ks IH]; [done|]. simpl. done. }
  apply Forall_cons in Hin as [Hr Hin]. specialize (IH Hin).
  apply list_elem_of_split in Hr as (k1 & k2 & ->).
  apply NoDup_app in Hnd as (_ & Hd1 & Hd2). apply NoDup_cons in Hd2 as [Hd2 _].
  rewrite fmap_app, fmap_cons, concat_app in IH |- *. cbn [concat] in IH |- *.
  assert (forall ks : list string, key r ∉ ks ->
    (fun k : string => filter (fun x => key x = k) (r :: rs)) <$> ks =
    (fun k : string => filter (fun x => key x = k) rs) <$> ks) as Hskip.
  { intros ks Hn. apply list_fmap_ext. intros i k Hk. rewrite filter_cons_False; [done|].
    intros <-. apply Hn. by eapply list_elem_of_lookup_2. }
  assert (key r ∉ k1) by (intros Hx; apply (Hd1 _ Hx); left). rewrite !Hskip by done.
  rewrite filter_cons_True by done. cbn [app]. rewrite <- Permutation_middle. by apply perm_skip.
Qed.

Lemma present_spec rs c :
  c ∈ (groupByClass rs).1 <-> c ∈ classOrder /\ exists r, r ∈ rs /\ classOf r = c.
Proof.
  unfold groupByClass. cbn [fst]. rewrite list_elem_of_filter, group_by_lookup, lookup_empty. cbn [default from_option app].
  split.
  - intros [Hl Hc]. split; [done|]. destruct (filter (fun r => classOf r = c) rs) as [|r l] eqn:E; [done|].
    exists r. assert (r ∈ filter (fun r => classOf r = c) rs) as Hr by (rewrite E; left).
    by apply list_elem_of_filter in Hr as [? ?].
  - intros [Hc (r & Hr & Hk)]. split; [|done].
    assert (r ∈ filter (fun r => classOf r = c) rs) as Hin by (by apply list_elem_of_filter).
    destruct (filter (fun r => classOf r = c) rs); [by apply elem_of_nil in Hin|]. simpl. rewrite len_cons. zlia.
Qed.

(** ** The board shows every result once *)

(** All rows of a board, in the order shown. *)
Definition boardRows (b : list (string * list (string * list Result))) : list Result :=
  '(_, tables) ← b; '(_, rows) ← tables; rows.

Lemma bind_perm {A B} (f g : A -> list B) l :
  (forall x, x ∈ l -> f x ≡ₚ g x) -> l ≫= f ≡ₚ l ≫= g.
Proof.
  induction l as [|x l IH]; intros Hfg; [done|]. rewrite !bind_cons.
  by rewrite (Hfg x) by left; rewrite IH by (intros; apply Hfg; by right).
Qed.

Lemma concat_fmap_bind {A B} (f : A -> list B) l : concat (f <$> l) = l ≫= f.
Proof. induction l as [|x l IH]; [done|]. rewrite fmap_cons, bind_cons. simpl. by rewrite IH. Qed.

Lemma bind_skip_empty {A B} (P : A -> Prop) `{!forall x, Decision (P x)} (f : A -> list B) l :
  (forall x, ~ P x -> f x = []) -> filter P l ≫= f = l ≫= f.
Proof.
  intros Hf. induction l as [|x l IH]; [done|]. rewrite filter_cons, bind_cons.
  case_decide as Hx; [by rewrite bind_cons, IH|]. by rewrite Hf, IH.
Qed.

(** The tables of one division hold its results. *)
Lemma workload_tables sortRows rs :
  (forall rows, sortRows rows ≡ₚ rows) ->
  ('(_, rows) ← (fun wl => (wl, sortRows (default [] (groupByWorkload rs !! wl)))) <$>
     sortedKeys (map_to_list (groupByWorkload rs)).*1; rows) ≡ₚ rs.
Proof.
  intros Hs. rewrite list_fmap_bind. unfold compose. simpl.
  rewrite (bind_perm _ (fun wl => default [] (groupByWorkload rs !! wl))) by (intros; apply Hs).
  rewrite <- concat_fmap_bind. unfold sortedKeys, sort_strings. unfold groupByWorkload at 2.
  apply groups_cover.
  - rewrite merge_sort_Permutation. apply NoDup_fst_map_to_list.
  - apply Forall_forall. intros r Hr. rewrite merge_sort_Permutation.
    destruct (proj2 (group_by_dom (fun r => rw_Name (RWorkload r)) rs ∅ (rw_Name (RWorkload r)))) as [x Hx];
      [right; by exists r|].
    apply list_elem_of_fmap. exists (rw_Name (RWorkload r), x). split; [done|]. by apply elem_of_map_to_list.
Qed.

Lemma classOrder_nodup : NoDup classOrder.
Proof. apply (bool_decide_unpack _). by vm_compute. Qed.

Lemma board_rows sortRows rs :
  (forall rows, sortRows rows ≡ₚ rows) -> Forall (fun r => classOf r ∈ classOrder) rs ->
  boardRows (board sortRows rs) ≡ₚ rs.
Proof.
  intros Hs Hall. unfold boardRows, board, groupByClass. rewrite list_fmap_bind. unfold compose. cbn beta iota zeta.
  etrans; [apply bind_perm; intros c _; by apply workload_tables|].
  rewrite bind_skip_empty.
  - rewrite <- concat_fmap_bind. apply groups_cover; [apply classOrder_nodup|done].
  - intros c Hc. destruct (default [] _) as [|r l]; [done|]. rewrite len_cons in Hc. exfalso. zlia.
Qed.

Lemma board_classes sortRows rs c :
  c ∈ (board sortRows rs).*1 <-> c ∈ classOrder /\ exists r, r ∈ rs /\ classOf r = c.
Proof.
  rewrite <- present_spec. unfold board. destruct (groupByClass rs) as [classes byClass]. simpl.
  by rewrite <- list_fmap_compose, list_fmap_id.
Qed.

Lemma board_tables sortRows rs c tables wl rows r :
  (forall rows, sortRows rows ≡ₚ rows) ->
  (c, tables) ∈ board sortRows rs -> (wl, rows) ∈ tables -> r ∈ rows ->
  r ∈ rs /\ classOf r = c /\ rw_Name (RWorkload r) = wl.
Proof.
  intros Hs Hc Hw Hr. unfold board, groupByClass in Hc. apply list_elem_of_fmap in Hc as (c' & [= -> ->] & _).
  apply list_elem_of_fmap in Hw as (wl' & [= -> ->] & _). rewrite Hs in Hr. unfold groupByWorkload in Hr.
  rewrite !group_by_lookup, !lookup_empty in Hr. cbn [default from_option app] in Hr.
  apply list_elem_of_filter in Hr as [? [? ?]%list_elem_of_filter]. done.
Qed.

(** ** Ranking *)

Lemma markdown_errors_last rows rows' i j a b :
  ranked markdownLess rows rows' -> (i < j)%nat -> rows' !! i = Some a -> rows' !! j = Some b ->
  Error a <> "" -> Error b <> "".
Proof.
  intros [_ Hs] Hij Ha Hb Hea Heb. revert i j Hij Ha Hb.
  induction Hs as [|x l _ IH Hx]; intros i j Hij Ha Hb; [done|].
  destruct j as [|j]; [lia|]. simpl in Hb. destruct i as [|i]; simpl in Ha; [|eapply (IH i j); eauto; lia].
  injection Ha as ->. pose proof (Forall_lookup_1 _ _ _ _ Hx Hb) as Hl. simpl in Hl.
  unfold markdownLess in Hl. rewrite (bool_decide_eq_true_2 (Error a <> "")), orb_true_r in Hl by done.
  by rewrite (bool_decide_eq_true_2 (Error b = "")) in Hl by done.
Qed.

(** ** Numbers in the tables *)

Lemma comma_loop_filter l i n :
  comma_byte ∉ l -> filter (fun b => b <> comma_byte) (comma_loop l i n) = l.
Proof.
  revert i. induction l as [|c l IH]; intros i Hn; [done|]. apply not_elem_of_cons in Hn as [Hc Hn].
  cbn [comma_loop]. rewrite filter_app, IH by done. destruct (_ && _).
  - rewrite filter_cons_False by naive_solver. by rewrite filter_cons_True.
  - by rewrite filter_cons_True.
Qed.

Lemma human_loop_spec fuel : forall n div exp,
  0 <= n < 1024 ^ Z.of_nat (S fuel) -> 1 <= div -> div * n < 2 ^ 63 ->
  exists k, 0 <= k /\ human_loop fuel n div exp = (div * 1024 ^ k, exp + k) /\
    n < 1024 ^ (k + 1) /\ (0 < k -> 1024 ^ k <= n).
Proof.
  induction fuel as [|f IH]; intros n div exp Hn Hd Hb; cbn [human_loop].
  { exists 0. simpl in *. split_and!; try lia. f_equal; lia. }
  destruct (Z.leb_spec 1024 n) as [Hge|Hle]; rewrite Z.geb_leb.
  - destruct (Z.leb_spec 1024 n); [|lia]. rewrite Z.quot_div_nonneg by lia.
    rewrite Nat2Z.inj_succ, Z.pow_succ_r in Hn by lia.
    rewrite swrap64_id by (unfold is_i64; nia).
    pose proof (Z.div_mod n 1024 ltac:(lia)). pose proof (Z.mod_pos_bound n 1024 ltac:(lia)).
    destruct (IH (n / 1024) (div * 1024) (exp + 1)) as (k & Hk & -> & Hq & Hq1); [|lia|nia|].
    { split; [apply Z.div_pos; lia|apply Z.div_lt_upper_bound; lia]. }
    exists (k + 1). rewrite !Z.pow_add_r in * by lia. change (1024 ^ 1) with 1024 in *.
    split_and!; [lia|f_equal; lia|lia|]. intros _. destruct (Z.eq_dec k 0) as [->|]; [simpl; lia|].
    specialize (Hq1 ltac:(lia)). lia.
  - destruct (Z.leb_spec 1024 n); [lia|]. exists 0. simpl. split_and!; try lia. f_equal; lia.
Qed.

Lemma humanBytes_total fmt0 b : b < 2 ^ 63 -> exists t, humanBytes fmt0 b = Ok t.
Proof.
  intros Hb. unfold humanBytes. destruct (Z.ltb_spec b 0); [by eexists|].
  destruct (Z.ltb_spec b 1024); [by eexists|]. rewrite Z.quot_div_nonneg by lia.
  pose proof (Z.div_mod b 1024 ltac:(lia)). pose proof (Z.mod_pos_bound b 1024 ltac:(lia)).
  assert (b / 1024 < 2 ^ 53) by (apply Z.div_lt_upper_bound; lia).
  destruct (human_loop_spec 7 (b / 1024) 1024 0) as (k & Hk & -> & _ & Hq).
  { split; [apply Z.div_pos; lia|]. change (1024 ^ Z.of_nat 8) with (2 ^ 80). lia. }
  { lia. } { lia. }
  assert (k < 6) as Hk6.
  { destruct (Z.lt_ge_cases k 6); [done|]. specialize (Hq ltac:(lia)).
    assert (1024 ^ 6 <= 1024 ^ k) by (apply Z.pow_le_mono_r; lia). change (1024 ^ 6) with (2 ^ 60) in *. lia. }
  destruct (index_in (txt "KMGTPE") (0 + k)) as [u ->]; [change (len (txt "KMGTPE")) with 6; lia|].
  by eexists.
Qed.

Lemma RenderMarkdown_total fmt0 fmt2 oob duration sortRows rs :
  rs <> [] -> Forall (fun r => MemBytes (Environment r) < 2 ^ 63) rs ->
  exists text, RenderMarkdown fmt0 fmt2 oob duration sortRows rs = Ok text.
Proof.
  intros Hne Hmem. destruct rs as [|r rs]; [done|]. apply Forall_cons in Hmem as [Hm _].
  unfold RenderMarkdown, runEnvironment. cbn [Prelude.index obind].
  destruct (humanBytes_total fmt0 _ Hm) as [t Ht].
  change (Prelude.index (r :: rs) 0) with (Ok r). cbn [obind]. rewrite Ht. by eexists.
Qed.

(** ** The best competitor *)

(** No eligible row of the cell is faster than the recorded one. *)
Definition best_of (exclude : gset string) (rows : list Result) (k : bytes) (c : Result) : Prop :=
  c ∈ rows /\ eligible exclude c = true /\ cellKey c = k /\
  forall r, r ∈ rows -> eligible exclude r = true -> cellKey r = k -> fgt (tput r) (tput c) = false.

(** The running best is a best of the rows read so far. *)
Definition best_inv (exclude : gset string) (seen : list Result) (m : gmap bytes Result) : Prop :=
  forall k, match m !! k with
  | Some c => best_of exclude seen k c
  | None => forall r, r ∈ seen -> eligible exclude r = true -> cellKey r <> k
  end.

Lemma best_of_step exclude seen r k c :
  best_of exclude seen k c -> (eligible exclude r = true -> cellKey r = k -> fgt (tput r) (tput c) = false) ->
  best_of exclude (seen ++ [r]) k c.
Proof.
  intros (Hin & He & Hk & Hmax) Hr. split_and!; try done; [by apply elem_of_app; left|].
  intros x [Hx|Hx]%elem_of_app; [by apply Hmax|]. apply list_elem_of_singleton in Hx as ->. by apply Hr.
Qed.

Lemma best_of_new exclude seen r k :
  eligible exclude r = true -> cellKey r = k ->
  (forall x, x ∈ seen -> eligible exclude x = true -> cellKey x = k -> fgt (tput x) (tput r) = false) ->
  best_of exclude (seen ++ [r]) k r.
Proof.
  intros He Hk Hmax. split_and!; try done; [apply elem_of_app; right; left|].
  intros x [Hx|Hx]%elem_of_app Hex Hkx; [by apply Hmax|].
  apply list_elem_of_singleton in Hx as ->. apply flt_irrefl.
Qed.

Lemma best_inv_other exclude seen m r :
  eligible exclude r = false -> best_inv exclude seen m -> best_inv exclude (seen ++ [r]) m.
Proof.
  intros He Hinv k. specialize (Hinv k). destruct (m !! k) as [c|].
  - apply best_of_step; [done|]. congruence.
  - intros x [Hx|Hx]%elem_of_app; [by apply Hinv|]. apply list_elem_of_singleton in Hx as ->. congruence.
Qed.

Lemma best_inv_put exclude seen m r :
  eligible exclude r = true -> best_inv exclude seen m ->
  (forall c, m !! cellKey r = Some c -> fgt (tput r) (tput c) = true) ->
  best_inv exclude (seen ++ [r]) (<[cellKey r := r]> m).
Proof.
  intros He Hinv Hbeat k. specialize (Hinv k). destruct (decide (cellKey r = k)) as [<-|Hne].
  - rewrite lookup_insert_eq. apply best_of_new; [done..|]. intros x Hx Hex Hkx.
    destruct (m !! cellKey r) as [c|]; [|by destruct (Hinv x Hx Hex)].
    destruct Hinv as (_ & _ & _ & Hmax). specialize (Hmax x Hx Hex Hkx). specialize (Hbeat c eq_refl).
    destruct (fgt (tput x) (tput r)) eqn:Exr; [|done].
    pose proof (flt_trans _ _ _ Hbeat Exr). unfold fgt, flt in *. congruence.
  - rewrite lookup_insert_ne by done. destruct (m !! k) as [c|].
    + apply best_of_step; [done|]. by intros _ ?.
    + intros x [Hx|Hx]%elem_of_app; [by apply Hinv|]. by apply list_elem_of_singleton in Hx as ->.
Qed.

Lemma best_inv_keep exclude seen m r c :
  best_inv exclude seen m -> m !! cellKey r = Some c -> fgt (tput r) (tput c) = false ->
  best_inv exclude (seen ++ [r]) m.
Proof.
  intros Hinv Hc Hno k. specialize (Hinv k). destruct (m !! k) as [c'|] eqn:Ek.
  - apply best_of_step; [done|]. intros _ Hk. congruence.
  - intros x [Hx|Hx]%elem_of_app; [by apply Hinv|]. apply list_elem_of_singleton in Hx as ->. congruence.
Qed.

Lemma bestIndex_inv exclude rows : forall seen m,
  best_inv exclude seen m -> best_inv exclude (seen ++ rows) (bestIndex exclude rows m).
Proof.
  induction rows as [|r rows IH]; intros seen m Hinv; cbn [bestIndex]; [by rewrite app_nil_r|].
  rewrite cons_middle, app_assoc. destruct (eligible exclude r) eqn:Ee; [|by apply IH, best_inv_other].
  destruct (m !! cellKey r) as [cur|] eqn:Ek.
  - destruct (fgt (tput r) (tput cur)) eqn:Ef; apply IH.
    + apply best_inv_put; [done..|]. intros c Hc. congruence.
    + by eapply best_inv_keep.
  - apply IH, best_inv_put; [done..|]. congruence.
Qed.

Lemma bestIndex_spec exclude rows k :
  match bestIndex exclude rows ∅ !! k with
  | Some c => best_of exclude rows k c
  | None => forall r, r ∈ rows -> eligible exclude r = true -> cellKey r <> k
  end.
Proof.
  apply (bestIndex_inv exclude rows [] ∅). intros k'. rewrite lookup_empty. intros r Hr.
  by apply elem_of_nil in Hr.
Qed.

(** Rows of engines other than the two names are not indexed. *)
Lemma kvIndex_skips rows : forall m label,
  Forall (fun r => isKVEngine (re_Name (REngine r)) = false) rows -> kvIndex rows m label = (m, label).
Proof.
  induction rows as [|r rows IH]; intros m label Hall; [done|]. apply Forall_cons in Hall as [Hr Hall].
  cbn [kvIndex]. rewrite Hr. by apply IH.
Qed.

(** ** Claims *)


Definition demoKVResult : Result :=
  set_engine zeroResult (MkResEngine "kv" FamilyBTree ModeInProc "" "" "tuned" NoCaps) [].


(** The competitor of a cell is the fastest.  The row recorded for a cell
    is an eligible baseline row of that cell (not a kv engine, not excluded, no
    error) that no other eligible row beats; a cell without one has none. *)
Theorem competitor_is_fastest exclude rows k :
  match bestIndex exclude rows ∅ !! k with
  | Some c => c ∈ rows /\ eligible exclude c = true /\ cellKey c = k /\
      forall r, r ∈ rows -> eligible exclude r = true -> cellKey r = k -> fgt (tput r) (tput c) = false
  | None => forall r, r ∈ rows -> eligible exclude r = true -> cellKey r <> k
  end.
Proof. apply bestIndex_spec. Qed.

(** The compare command knows the kv engine only by two old names.  A run
    of the engine the repository registers, which is called [kv], yields an
    empty table whatever the baseline. *)
Theorem compare_ignores_kv kvRows baseRows exclude :
  Forall (fun r => re_Name (REngine r) = "kv"%string) kvRows ->
  buildComparison kvRows baseRows exclude = [].
Proof.
  intros Hall. unfold buildComparison. rewrite kvIndex_skips.
  - by rewrite dom_empty_L, elements_empty.
  - eapply Forall_impl; [exact Hall|]. simpl. by intros r ->.
Qed.

Lemma compare_ignores_kv_witness : buildComparison [demoKVResult] [demoKVResult] ∅ = [].
Proof. apply (compare_ignores_kv [demoKVResult]). repeat constructor. Defined.
