(* ===== verification/Env.v ===== *)
(** * The run environment (env/env.go)

    What [Capture] records of the host, given the values of the [runtime]
    package and the output of the commands it runs. *)

From S2P Require Import Prelude Float64 Codec Engine Workload Hdr Harness Text Cpuset Cli.
Local Open Scope go_scope.

(** The host as [runtime] and [os/exec] show it: [exec] is what a command
    wrote to its standard output, [None] when it failed. *)
Record host := MkHost {
  h_GOOS : string; h_GOARCH : string; h_NumCPU : Z; h_Version : string; h_GOMAXPROCS : Z;
  h_exec : list bytes -> option bytes }.

(** The digits a text begins with, as an [int64]. *)
Fixpoint parseInt_loop (s : bytes) (n : Z) : Z :=
  match s with
  | [] => n
  | c :: s' =>
      if (b2z c <? 48) || (b2z c >? 57) then n
      else parseInt_loop s' (swrap64 (swrap64 (n * 10) + (b2z c - 48)))
  end.

Definition parseInt (s : bytes) : Z := parseInt_loop s 0.

Definition cpuModelCmd (goos : string) : option (list bytes) :=
  if bool_decide (goos = "darwin"%string) then Some [txt "sysctl"; txt "-n"; txt "machdep.cpu.brand_string"]
  else if bool_decide (goos = "linux"%string) then
    Some [txt "sh"; txt "-c"; txt "grep -m1 'model name' /proc/cpuinfo | cut -d: -f2"]
  else None.

Definition cpuModel (h : host) : bytes :=
  match cpuModelCmd (h_GOOS h) ≫= h_exec h with
  | Some out => TrimSpace out
  | None => txt "unknown"
  end.

Definition memBytesCmd (goos : string) : option (list bytes) :=
  if bool_decide (goos = "darwin"%string) then Some [txt "sysctl"; txt "-n"; txt "hw.memsize"]
  else if bool_decide (goos = "linux"%string) then
    Some [txt "sh"; txt "-c"; txt "grep MemTotal /proc/meminfo | awk '{print $2*1024}'"]
  else None.

Definition memBytes (h : host) : Z :=
  match memBytesCmd (h_GOOS h) ≫= h_exec h with
  | Some out => parseInt (TrimSpace out)
  | None => -1
  end.

Definition Capture (h : host) : Manifest :=
  MkManifest (h_GOOS h) (h_GOARCH h) (h_NumCPU h) (h_Version h) (h_GOMAXPROCS h)
    (str (cpuModel h)) (memBytes h)
    (match h_exec h [txt "hostname"] with Some out => str (TrimSpace out) | None => "" end).

(** ** Properties *)

(** The loop is that of [atoi] past its first character. *)
Lemma parseInt_atoi s n i : 0 < i -> parseInt_loop s n = (atoi_loop s i n false).1.
Proof.
  revert n i. induction s as [|c s IH]; intros n i Hi; [done|]. cbn [parseInt_loop atoi_loop].
  rewrite (proj2 (Z.eqb_neq i 0)) by lia. cbn [andb]. destruct (_ || _); [done|]. apply IH. lia.
Qed.

Lemma parseInt_Itoa n : 0 <= n < 2 ^ 63 -> parseInt (Itoa n) = n.
Proof.
  intros Hn. unfold parseInt. rewrite (parseInt_atoi _ _ 1) by lia.
  assert (digits_value (Itoa n) 0 = n) as Hv.
  { unfold Itoa. destruct (Z.ltb_spec n 0); [lia|]. apply digits_value_digits.
    change (10 ^ Z.of_nat 20) with 100000000000000000000. lia. }
  rewrite atoi_loop_digits; [done|by apply Itoa_digits; lia|lia|lia|done].
Qed.

Lemma parseInt_range s n : is_i64 n -> is_i64 (parseInt_loop s n).
Proof.
  revert n. induction s as [|c s IH]; intros n Hn; [done|]. cbn [parseInt_loop].
  destruct (_ || _); [done|]. apply IH, swrap64_range.
Qed.

(** The manifest has the memory the host reports: the number its command
    prints on a line when it succeeds, [-1] when it fails or there is no command
    for the system, and always 64 bits. *)
Theorem capture_memory h :
  is_i64 (MemBytes (Capture h)) /\
  (memBytesCmd (h_GOOS h) ≫= h_exec h = None -> MemBytes (Capture h) = -1) /\
  (forall n, 0 <= n < 2 ^ 63 -> memBytesCmd (h_GOOS h) ≫= h_exec h = Some (Itoa n ++ newline) ->
     MemBytes (Capture h) = n).
Proof.
  cbn [MemBytes Capture]. unfold memBytes. split_and!.
  - destruct (_ ≫= _); [|unfold is_i64; lia]. apply parseInt_range. unfold is_i64. lia.
  - by intros ->.
  - intros n Hn ->. rewrite TrimSpace_line; [by apply parseInt_Itoa|].
    eapply Forall_impl; [apply Itoa_digits; lia|apply digit_graphic].
Qed.

Lemma capture_memory_witness :
  MemBytes (Capture (MkHost "linux" "amd64" 8 "go1.24" 8 (fun _ => Some (Itoa 68719476736 ++ newline)))) = 68719476736.
Proof. apply capture_memory; [lia|reflexivity]. Defined.
