(* ===== verification/Commands.v ===== *)
(** * The commands (cmd/kvbench: main, list, report, compare)

    What each command prints and how it exits, given what the file system,
    [encoding/json] and the sort of the standard library did; and the way of a
    result from the run that measured it through its file to a table. *)

From Stdlib Require Import SpecFloat.
From stdpp Require Import sorting.
From S2P Require Import Prelude Float64 Codec Engine Ordered Workload Hdr Harness Text Cpuset Cli Report.
Local Open Scope go_scope.

(** A command that returned or called [os.Exit]. *)
Record proc := MkProc { stdout : bytes; stderr : bytes; exitCode : Z }.

(** One line of columns separated by a space. *)
Definition columns (cols : list bytes) : bytes := Join [space] cols ++ newline.

(** ** list *)

Definition capsOf (m : Meta) : list bytes :=
  let c := MetaCaps m in
  (if Engine.Ordered c then [txt "ordered"] else []) ++
  (if Transactions c then [txt "txn"] else []) ++
  (if SingleFile c then [txt "single-file"] else []) ++
  (if PureNoCgo c then [txt "no-cgo"] else []) ++
  (if Durable c then [txt "durable"] else []) ++
  (if MetaReference m then [txt "reference"] else []).

Definition listLine (name family mode version caps : bytes) : bytes :=
  columns [padRight 12 name; padRight 10 family; padRight 9 mode; padRight 18 version; caps].

(** [e, _ := engine.New(n)]; calling a method of the nil engine of a failed
    [New] panics. *)
Definition listRow {E} (meta : E -> Meta) (registry : gmap string (unit -> E)) (n : string) : outcome bytes :=
  match Engine.New registry n with
  | inl e =>
      let m := meta e in
      Ok (listLine (txt (MetaName m)) (txt (MetaFamily m)) (txt (MetaMode m)) (txt (MetaVersion m))
            (Join [comma_byte] (capsOf m)))
  | inr _ => Panic
  end.

Fixpoint listRows {E} (meta : E -> Meta) (registry : gmap string (unit -> E)) (ns : list string) : outcome bytes :=
  match ns with
  | [] => Ok []
  | n :: ns' =>
      let* row := listRow meta registry n in
      let* rows := listRows meta registry ns' in
      Ok (row ++ rows)
  end.

(** [order] is the order in which [range registry] produced the names. *)
Definition cmdList {E} (meta : E -> Meta) (registry : gmap string (unit -> E)) (order : list string)
    : outcome proc :=
  let* rows := listRows meta registry (Names order) in
  Ok (MkProc (listLine (txt "NAME") (txt "FAMILY") (txt "MODE") (txt "VERSION") (txt "CAPS") ++ rows) [] 0).

(** ** The result files *)

(** An entry of [os.ReadDir] and what [os.ReadFile] of its path gave. *)
Record DirEntry := MkDirEntry { deName : bytes; deIsDir : bool; deRead : option bytes }.

(** [json.Unmarshal] into a zero [Result]; [None] is an error. *)
Definition loadEntry (unmarshal : bytes -> option Result) (e : DirEntry) : list Result :=
  if deIsDir e || negb (HasSuffix (deName e) (txt ".json")) then []
  else match deRead e with
       | None => []
       | Some b =>
           match unmarshal b with
           | Some r => if bool_decide (re_Name (REngine r) <> "") then [r] else []
           | None => []
           end
       end.

Definition loadResults (unmarshal : bytes -> option Result) (entries : list DirEntry) : list Result :=
  entries ≫= loadEntry unmarshal.

(** What [writeResult] puts into the file of a result: the bytes of
    [json.MarshalIndent], none when it failed, for its error is dropped. *)
Definition fileBytes (marshal : Result -> option bytes) (r : Result) : bytes := default [] (marshal r).

(** [os.ReadDir] of the directory a run wrote: its files in the order of their
    names. *)
Definition listing (marshal : Result -> option bytes) (dir : gmap bytes Result) : list DirEntry :=
  (fun '(n, b) => MkDirEntry n false (Some b)) <$> entries (fileBytes marshal <$> dir).

Section Commands.
Context (fmt0 fmt2 : float64 -> bytes) (i64_oob : float64 -> Z) (duration : Z -> bytes).

(** ** report *)

Definition tableRow (r : Result) : bytes :=
  let name := padRight 12 (txt (re_Name (REngine r))) in
  if bool_decide (Error r <> "") then name ++ txt "  " ++ txt (Error r) ++ newline
  else columns [name; padLeft 14 (fmt0 (tput r)); padLeft 10 (ns duration (P50 (LatencyNs r)));
    padLeft 10 (ns duration (P99 (LatencyNs r))); padLeft 10 (ns duration (P999 (LatencyNs r)));
    padLeft 8 (amp fmt2 (ra_SpaceAmp (Amplification r)))].

Definition tableText (wl : string) (rows : list Result) : bytes :=
  newline ++ txt "== " ++ txt wl ++ txt " ==" ++ newline ++
  columns [padRight 12 (txt "engine"); padLeft 14 (txt "ops/sec"); padLeft 10 (txt "p50");
    padLeft 10 (txt "p99"); padLeft 10 (txt "p99.9"); padLeft 8 (txt "spaceAmp")] ++
  concat (tableRow <$> rows).

Definition printTables (sortRows : list Result -> list Result) (rs : list Result) : bytes :=
  concat ((fun '(c, tables) =>
      newline ++ txt "######## " ++ classTitle c ++ txt " ########" ++ newline ++
      concat ((fun '(wl, rows) => tableText wl rows) <$> tables))
    <$> board sortRows rs).

Fixpoint parseReport (args : list bytes) (inDir : bytes) (md : bool) : bytes * bool :=
  match args with
  | [] => (inDir, md)
  | a :: rest =>
      if bool_decide (a = txt "--in") then
        match rest with
        | [] => (inDir, md)
        | v :: rest' => parseReport rest' v md
        end
      else if bool_decide (a = txt "--md") then parseReport rest inDir true
      else parseReport rest inDir md
  end.

(** [load] is [loadResults] of a directory; [sortTable] and [sortMarkdown] are
    what [sort.Slice] made of a group of rows in the two renderings. *)
Definition cmdReport (load : bytes -> list Result) (sortTable sortMarkdown : list Result -> list Result)
    (args : list bytes) : outcome proc :=
  let '(inDir, md) := parseReport args [] false in
  if bool_decide (inDir = []) then Ok (MkProc [] (txt "report: --in <results-dir> required" ++ newline) 2)
  else
    let results := load inDir in
    if len results =? 0 then Ok (MkProc [] (txt "no results found in " ++ inDir ++ newline) 1)
    else if md : bool then
      let* text := RenderMarkdown fmt0 fmt2 i64_oob duration sortMarkdown results in
      Ok (MkProc text [] 0)
    else Ok (MkProc (printTables sortTable results) [] 0).

(** ** compare *)

Definition addExcluded (v : bytes) (exclude : gset string) : gset string :=
  foldl (fun ex e => let e := TrimSpace e in if bool_decide (e <> []) then {[str e]} ∪ ex else ex)
    exclude (Split comma_byte v).

Record compareFlags := MkCompareFlags { cfKv : bytes; cfBase : bytes; cfExclude : gset string; cfMd : bool }.

Fixpoint parseCompare (args : list bytes) (f : compareFlags) : compareFlags :=
  let '(MkCompareFlags kv base ex md) := f in
  match args with
  | [] => f
  | a :: rest =>
      if bool_decide (a = txt "--kv") then
        match rest with [] => f | v :: rest' => parseCompare rest' (MkCompareFlags v base ex md) end
      else if bool_decide (a = txt "--baseline") then
        match rest with [] => f | v :: rest' => parseCompare rest' (MkCompareFlags kv v ex md) end
      else if bool_decide (a = txt "--exclude") then
        match rest with [] => f | v :: rest' => parseCompare rest' (MkCompareFlags kv base (addExcluded v ex) md) end
      else if bool_decide (a = txt "--md") then parseCompare rest (MkCompareFlags kv base ex true)
      else parseCompare rest f
  end.

Definition compareLine (key btree lsm best name verdict : bytes) : bytes :=
  columns [padRight 44 key; padLeft 14 btree; padLeft 14 lsm; padLeft 14 best; padRight 16 name; verdict].

Definition printCompare (rows : list cmpRow) : bytes :=
  compareLine (txt "workload") (txt "kv-btree") (txt "kv-lsm") (txt "best-comp") (txt "competitor")
    (txt "verdict (kv-best/comp)") ++
  concat ((fun r => compareLine (cr_key r) (opsCol i64_oob (cr_btree r)) (opsCol i64_oob (cr_lsm r))
      (opsCol i64_oob (cr_bestComp r)) (txt (cr_bestCompNm r)) (verdict fmt2 (cr_ratio r))) <$> rows).

Definition fiveX (ratio : float64) : bytes :=
  if flt ratio f64_zero then [] else if fge ratio (f64_of_Z 5) then txt "yes" else txt "no".

Definition ratioStr (ratio : float64) : bytes :=
  if fge ratio f64_zero then fmt2 ratio ++ txt "x" else txt "-".

Definition compareMarkdownRow (r : cmpRow) : bytes :=
  txt "| " ++ Join (txt " | ") [cr_key r; opsCol i64_oob (cr_btree r); opsCol i64_oob (cr_lsm r);
    txt (cr_bestCompNm r); opsCol i64_oob (cr_bestComp r); ratioStr (cr_ratio r); fiveX (cr_ratio r)]
  ++ txt " |" ++ newline.

Definition renderCompareMarkdown (rows : list cmpRow) (exclude : gset string) : bytes :=
  txt "## kv vs best competitor (5x gap table)" ++ newline ++ newline ++
  (if 0 <? Z.of_nat (size exclude)
   then txt "Competitors excluded from the best-of: " ++
        Join (txt ", ") (txt <$> sort_strings (elements exclude)) ++ txt "." ++ newline ++ newline
   else []) ++
  txt "kv rows are the integrated re-run; competitor is the fastest non-kv engine at the same cell from the frozen baseline." ++ newline ++ newline ++
  txt "| workload | kv-btree ops/s | kv-lsm ops/s | best competitor | comp ops/s | kv-best/comp | 5x |" ++ newline ++
  txt "|----------|---------------:|-------------:|-----------------|-----------:|-------------:|----|" ++ newline ++
  concat (compareMarkdownRow <$> rows) ++ newline.

Definition cmdCompare (load : bytes -> list Result) (args : list bytes) : proc :=
  let '(MkCompareFlags kvDir baseDir exclude md) := parseCompare args (MkCompareFlags [] [] ∅ false) in
  if bool_decide (kvDir = []) || bool_decide (baseDir = [])
  then MkProc [] (txt "compare: --kv <kv-results-dir> and --baseline <baseline-results-dir> required" ++ newline) 2
  else
    let kvRows := load kvDir in
    let baseRows := load baseDir in
    if len kvRows =? 0 then MkProc [] (txt "compare: no kv results in " ++ kvDir ++ newline) 1
    else if len baseRows =? 0 then MkProc [] (txt "compare: no baseline results in " ++ baseDir ++ newline) 1
    else
      let rows := buildComparison kvRows baseRows exclude in
      MkProc (if md : bool then renderCompareMarkdown rows exclude else printCompare rows) [] 0.

(** ** run: the console *)

Definition outDir (f : runFlags) : bytes :=
  if bool_decide (out f = []) then txt "results/run-" ++ Itoa (seed f) else out f.

Definition dur2 (ns : Z) : bytes := duration ns.

(** The line of a finished cell, the [done]-th of [total]. *)
Definition progressLine (total done : Z) (c : CellConfig) (res : Result) : bytes :=
  txt "[" ++ Itoa done ++ txt "/" ++ Itoa total ++ txt "] " ++
  padRight 10 (txt (EngineName c)) ++ txt " " ++ padRight 12 (txt (Name (CellWorkload c))) ++ txt " " ++
  padRight 14 (txt (Regime c)) ++ txt " val=" ++ padRight 6 (Itoa (ValueBytes c)) ++
  txt " c=" ++ padRight 2 (Itoa (Concurrency c)) ++ txt " dur=" ++ padRight 6 (txt (Durability c)) ++
  txt "  " ++ padLeft 12 (fmt0 (tput res)) ++ txt " ops/s  p99=" ++ padRight 8 (dur2 (P99 (LatencyNs res))) ++
  txt "  " ++ (if bool_decide (Error res <> "") then txt (Error res) else txt "ok") ++ newline.

Fixpoint progress (total done : Z) (cs : list CellConfig) (rs : list Result) : bytes :=
  match cs, rs with
  | c :: cs', r :: rs' => progressLine total (done + 1) c r ++ progress total (done + 1) cs' rs'
  | _, _ => []
  end.

(** Everything the loop of [cmdRun] and its last line print; [took] is the
    rounded time of the run. *)
Definition runStdout (f : runFlags) (cs : list CellConfig) (rs : list Result) (took : bytes) : bytes :=
  progress (cell_total f) 0 cs rs ++
  newline ++ txt "done: " ++ Itoa (len rs) ++ txt " cells in " ++ took ++ txt " -> " ++ outDir f ++ newline.

(** ** main *)

Definition usage : bytes := txt "kvbench - engine-neutral key/value benchmark

usage:
  kvbench list
  kvbench run     [flags]
  kvbench report  --in <results-dir> [--md]
  kvbench compare --kv <kv-results-dir> --baseline <baseline-results-dir> [--exclude eng,eng] [--md]

run flags:
  --engines a,b,c   engines to run (default: all built-in real stores; the
                    reference rails are skipped unless named explicitly)
  --workloads a,b   workloads (default: all)
  --regimes a,b     cache-resident,out-of-cache (default: cache-resident)
  --durability a,b  DEFAULT,FULL (default: DEFAULT). DEFAULT is each engine as it
                    ships, its own background durability; FULL forces per-commit
                    fsync on every embedded engine. Both are durable, they differ
                    in when the fsync lands, not whether one happens. FULL is the
                    embedded class only: networked RESP servers always run everysec,
                    so a FULL cell for one is skipped, not run mislabeled.
  --values a,b      value sizes in bytes (default: 1024)
  --conc a,b        concurrency levels (default: 8)
  --cardinality N   keys to load (default: 100000)
  --ops N           measured ops per cell (default: 200000)
  --reps N          repetitions per cell (default: 3)
  --seed N          base seed (default: 1)
  --out DIR         results dir (default: results/run-<seed>)
  --cpu-split       pin the network server and the go-redis client to disjoint
                    cores (Linux, needs taskset) so the co-located client cannot
                    steal the server's cores. Use it for a RESP-only run; embedded
                    engines share this process's cores regardless.
  --cpu-server L    taskset -c core list for the server half of --cpu-split (e.g.
                    0-2). Empty auto-derives a balanced split from the core count.
  --cpu-client L    taskset -c core list for the client half of --cpu-split (e.g.
                    3-5). Empty auto-derives a balanced split from the core count.
".

(** [os.Args]; [quote] is the verb [%q]. *)
Definition main_ (quote : bytes -> bytes) (list_ : outcome proc) (run report : list bytes -> outcome proc)
    (compare : list bytes -> proc) (args : list bytes) : outcome proc :=
  match args with
  | _ :: cmd :: rest =>
      if bool_decide (cmd = txt "list") then list_
      else if bool_decide (cmd = txt "run") then run rest
      else if bool_decide (cmd = txt "report") then report rest
      else if bool_decide (cmd = txt "compare") then Ok (compare rest)
      else if bool_decide (cmd ∈ txt <$> ["help"; "-h"; "--help"]) then Ok (MkProc [] usage 0)
      else Ok (MkProc [] (txt "unknown command " ++ quote cmd ++ newline ++ usage) 2)
  | _ => Ok (MkProc [] usage 2)
  end.
End Commands.

(** ** Results through files *)

Lemma HasSuffix_app a s : HasSuffix (a ++ s) s = true.
Proof.
  unfold HasSuffix. rewrite length_app. apply andb_true_iff. split; [apply Nat.leb_le; lia|].
  apply bool_decide_eq_true. replace (length a + length s - length s)%nat with (length a) by lia.
  apply drop_app_length.
Qed.

Lemma resultName_json r : HasSuffix (resultName r) (txt ".json") = true.
Proof.
  unfold resultName, ReplaceByte. rewrite flat_map_app.
  replace (flat_map _ (txt ".json")) with (txt ".json") by (vm_compute; reflexivity). apply HasSuffix_app.
Qed.

(** A run that never uses a name twice leaves its results under their names. *)
Lemma writeAll_list l :
  NoDup (resultName <$> l) ->
  map_to_list (foldl writeResult ∅ l) ≡ₚ (fun r => (resultName r, r)) <$> l.
Proof.
  induction l as [|x l IH] using rev_ind; intros Hnd; [simpl; by rewrite map_to_list_empty|].
  rewrite fmap_app in Hnd. rewrite fmap_app. apply NoDup_app in Hnd as (Hnd & Hx & _). rewrite foldl_snoc.
  unfold writeResult at 1. rewrite map_to_list_insert.
  - rewrite IH by done. apply Permutation_cons_append.
  - rewrite writeAll_other; [apply lookup_empty|]. intros Hin. apply (Hx _ Hin). by apply list_elem_of_singleton.
Qed.

(** Reading a directory back, file by file. *)
Lemma loadResults_listing marshal unmarshal dir :
  loadResults unmarshal (listing marshal dir) ≡ₚ
  map_to_list dir ≫= (fun '(n, r) => loadEntry unmarshal (MkDirEntry n false (Some (fileBytes marshal r)))).
Proof.
  unfold loadResults, listing. rewrite list_fmap_bind. unfold compose.
  rewrite entries_perm, map_to_list_fmap, list_fmap_bind. unfold compose.
  apply bind_perm. by intros [n r] _.
Qed.

(** What [encoding/json] promises of a result without infinities, NaNs and
    invalid UTF-8: reading what was written gives it back. *)
Definition json_keeps (marshal : Result -> option bytes) (unmarshal : bytes -> option Result) (r : Result) : Prop :=
  exists b, marshal r = Some b /\ unmarshal b = Some r.

Lemma loadEntry_written marshal unmarshal r :
  json_keeps marshal unmarshal r ->
  loadEntry unmarshal (MkDirEntry (resultName r) false (Some (fileBytes marshal r))) =
    if bool_decide (re_Name (REngine r) <> "") then [r] else [].
Proof.
  intros (b & Hm & Hu). unfold loadEntry, fileBytes. cbn [deIsDir deName deRead]. rewrite resultName_json.
  cbn [orb negb]. by rewrite Hm; cbn [default from_option id]; rewrite Hu.
Qed.

(** The files of distinct names hold exactly the results of named engines. *)
Lemma load_written marshal unmarshal rs :
  NoDup (resultName <$> rs) -> Forall (json_keeps marshal unmarshal) rs ->
  loadResults unmarshal (listing marshal (foldl writeResult ∅ rs)) ≡ₚ
    filter (fun r => re_Name (REngine r) <> "") rs.
Proof.
  intros Hnd Hj. rewrite loadResults_listing, writeAll_list by done. rewrite list_fmap_bind. unfold compose.
  clear Hnd. induction Hj as [|r rs Hr _ IH]; [done|]. rewrite bind_cons, filter_cons, loadEntry_written by done.
  case_bool_decide as Hn; case_decide as Hn'; try done; simpl; by rewrite IH.
Qed.

Lemma filter_id {A} (P : A -> Prop) `{!forall x, Decision (P x)} l : Forall P l -> filter P l = l.
Proof. induction 1 as [|x l Hx _ IH]; [done|]. by rewrite filter_cons_True, IH. Qed.

Lemma outDir_nonempty f : outDir f <> [].
Proof. unfold outDir. case_bool_decide; [discriminate|done]. Qed.

(** The engines of a grid have names when the registry has no nameless one. *)
Lemma named_rows has f runID dataRoot server rs :
  has ""%string = false -> resultFields <$> rs = cellFields <$> cells has f runID dataRoot server ->
  Forall (fun r => re_Name (REngine r) <> ""%string) rs.
Proof.
  intros Hh Hf. apply Forall_forall. intros r Hr Hn.
  assert (resultFields r ∈ cellFields <$> cells has f runID dataRoot server) as Hin
    by (rewrite <- Hf; by apply list_elem_of_fmap_2).
  apply list_elem_of_fmap in Hin as (c & He & Hc).
  apply elem_of_cells in Hc as (en & wn & spec & rg & dur & v & k & _ & Hen & _ & _ & _ & _ & _ & _ & ->).
  unfold resultFields, cellFields in He. simpl in He. injection He as He. congruence.
Qed.

(** A report of a directory that has results. *)
Lemma cmdReport_found fmt0 fmt2 oob duration load sortTable sortMd args d md :
  parseReport args [] false = (d, md) -> d <> [] -> load d <> [] ->
  cmdReport fmt0 fmt2 oob duration load sortTable sortMd args =
    if md : bool
    then let* text := RenderMarkdown fmt0 fmt2 oob duration sortMd (load d) in Ok (MkProc text [] 0)
    else Ok (MkProc (printTables fmt0 fmt2 duration sortTable (load d)) [] 0).
Proof.
  intros Hp Hd Hl. unfold cmdReport. rewrite Hp. cbv iota beta.
  rewrite bool_decide_eq_false_2 by done. destruct (load d) as [|r l]; [done|].
  rewrite (proj2 (Z.eqb_neq _ 0)); [done|]. rewrite len_cons. zlia.
Qed.

(** ** The rows of a comparison *)

(** The last row of an engine at a cell, of those [kvIndex] has read. *)
Definition kvLast (rows : list Result) (k : bytes) (nm : string) : option Result :=
  last (filter (fun r => isKVEngine nm = true /\ re_Name (REngine r) = nm /\ cellKey r = k) rows).

Definition kvRow (k : bytes) (r : Result) : Prop := isKVEngine (re_Name (REngine r)) = true /\ cellKey r = k.

Record kv_inv (seen : list Result) (m : gmap bytes (gmap string Result)) (label : gmap bytes bytes) : Prop := {
  ki_rows : forall k nm, default ∅ (m !! k) !! nm = kvLast seen k nm;
  ki_dom : forall k, is_Some (m !! k) <-> exists r, r ∈ seen /\ kvRow k r;
  ki_label : forall k, is_Some (m !! k) -> exists r, r ∈ seen /\ kvRow k r /\ label !! k = Some (cellLabel r) }.

Lemma kvLast_snoc seen r k nm :
  kvLast (seen ++ [r]) k nm =
    if decide (isKVEngine nm = true /\ re_Name (REngine r) = nm /\ cellKey r = k) then Some r else kvLast seen k nm.
Proof.
  unfold kvLast. rewrite filter_app, filter_cons, filter_nil. case_decide; [|by rewrite app_nil_r].
  by rewrite last_snoc.
Qed.

Lemma kv_inv_skip seen m label r :
  isKVEngine (re_Name (REngine r)) = false -> kv_inv seen m label -> kv_inv (seen ++ [r]) m label.
Proof.
  intros Hr [H1 H2 H3]. split.
  - intros k nm. rewrite H1, kvLast_snoc, decide_False; [done|]. intros (? & <- & _). congruence.
  - intros k. rewrite H2. split; intros (x & Hx & Hk).
    + exists x. split; [apply elem_of_app; by left|done].
    + apply elem_of_app in Hx as [Hx| ->%list_elem_of_singleton]; [by exists x|]. destruct Hk. congruence.
  - intros k Hk. destruct (H3 k Hk) as (x & Hx & ?). exists x. split; [apply elem_of_app; by left|done].
Qed.

Lemma kv_inv_put seen m label r :
  let nm := re_Name (REngine r) in
  isKVEngine nm = true -> kv_inv seen m label ->
  kv_inv (seen ++ [r]) (<[cellKey r := <[nm := r]> (default ∅ (m !! cellKey r))]> m)
    (if decide (is_Some (m !! cellKey r)) then label else <[cellKey r := cellLabel r]> label).
Proof.
  intros nm Hr [H1 H2 H3]. split.
  - intros k nm'. rewrite kvLast_snoc. destruct (decide (cellKey r = k)) as [<-|Hne].
    + rewrite lookup_insert_eq. cbn [default from_option id]. destruct (decide (nm = nm')) as [<-|Hn].
      * by rewrite lookup_insert_eq, decide_True.
      * rewrite lookup_insert_ne by done. rewrite decide_False by tauto. apply H1.
    + rewrite lookup_insert_ne by done. rewrite decide_False by tauto. apply H1.
  - intros k. rewrite lookup_insert_is_Some', H2. split.
    + intros [<-|(x & Hx & Hk)]; [exists r|exists x]; (split; [apply elem_of_app|done]); [right; left|by left].
    + intros (x & [Hx| ->%list_elem_of_singleton]%elem_of_app & Hk); [right; by exists x|left]. by destruct Hk.
  - intros k Hk. rewrite lookup_insert_is_Some' in Hk.
    destruct (decide (is_Some (m !! k))) as [Hs|Hs].
    + destruct (H3 k Hs) as (x & Hx & Hkx & Hl). exists x. split_and!; [apply elem_of_app; by left|done|].
      case_decide as Hd; [done|]. rewrite lookup_insert_ne; [done|]. by intros <-.
    + destruct Hk as [<-|]; [|done]. exists r. split_and!; [apply elem_of_app; right; left|done|].
      rewrite decide_False by done. apply lookup_insert_eq.
Qed.

Lemma kvIndex_inv rows : forall seen m label m' label',
  kv_inv seen m label -> kvIndex rows m label = (m', label') -> kv_inv (seen ++ rows) m' label'.
Proof.
  induction rows as [|r rows IH]; intros seen m label m' label' Hinv; cbn [kvIndex].
  { intros [= <- <-]. by rewrite app_nil_r. }
  rewrite cons_middle, app_assoc. destruct (isKVEngine (re_Name (REngine r))) eqn:Er.
  - pose proof (kv_inv_put seen m label r Er Hinv) as Hput. cbv zeta in Hput.
    destruct (m !! cellKey r) as [es|]; apply IH.
    + by rewrite decide_True in Hput by done.
    + rewrite decide_False in Hput by (intros [? ?]; done). by rewrite <- insert_empty.
  - by apply IH, kv_inv_skip.
Qed.

Lemma kvIndex_spec rows : kv_inv rows (kvIndex rows ∅ ∅).1 (kvIndex rows ∅ ∅).2.
Proof.
  destruct (kvIndex rows ∅ ∅) as [m label] eqn:E. apply (kvIndex_inv rows [] ∅ ∅ m label); [|done].
  split.
  - intros k nm. rewrite lookup_empty. apply lookup_empty.
  - intros k. rewrite lookup_empty, is_Some_alt. split; [done|]. by intros (r & Hr%elem_of_nil & _).
  - intros k [x Hx]. by rewrite lookup_empty in Hx.
Qed.

(** The throughput a comparison shows for a kv engine. *)
Definition shown (o : option Result) : float64 :=
  match o with
  | Some r => if bool_decide (Error r = ""%string) then tput r else f64_neg1
  | None => f64_neg1
  end.

(** What a row says of its cell. *)
Record row_right (kvRows baseRows : list Result) (exclude : gset string) (row : cmpRow) : Prop := {
  rr_label : exists r, r ∈ kvRows /\ kvRow (cr_sortKey row) r /\ cr_key row = cellLabel r;
  rr_btree : cr_btree row = shown (kvLast kvRows (cr_sortKey row) "kv-btree");
  rr_lsm : cr_lsm row = shown (kvLast kvRows (cr_sortKey row) "kv-lsm");
  rr_best : (cr_kvBest row, cr_kvBestNm row) ∈ [(cr_btree row, "kv-btree"%string); (cr_lsm row, "kv-lsm"%string)] /\
    fgt (cr_btree row) (cr_kvBest row) = false /\ fgt (cr_lsm row) (cr_kvBest row) = false;
  rr_comp : (exists c, best_of exclude baseRows (cr_sortKey row) c /\
      cr_bestComp row = tput c /\ cr_bestCompNm row = re_Name (REngine c) /\
      cr_ratio row = if fgt (tput c) f64_zero && fgt (cr_kvBest row) f64_zero
                     then fdiv (cr_kvBest row) (tput c) else f64_neg1) \/
    (forall r, r ∈ baseRows -> eligible exclude r = true -> cellKey r <> cr_sortKey row) /\
      cr_bestComp row = f64_neg1 /\ cr_bestCompNm row = ""%string /\ cr_ratio row = f64_neg1 }.

Lemma fgt_irrefl x : fgt x x = false.
Proof. apply flt_irrefl. Qed.

Lemma fgt_asym x y : fgt x y = true -> fgt y x = false.
Proof.
  intros H. destruct (fgt y x) eqn:E; [|done].
  pose proof (flt_trans _ _ _ H E) as Hxx. pose proof (flt_irrefl y). unfold flt, fgt in *. congruence.
Qed.

Lemma cmpRowOf_right kvRows baseRows exclude k :
  let '(m, label) := kvIndex kvRows ∅ ∅ in
  is_Some (m !! k) ->
  let row := cmpRowOf label (bestIndex exclude baseRows ∅) k (default ∅ (m !! k)) in
  cr_sortKey row = k /\ row_right kvRows baseRows exclude row.
Proof.
  pose proof (kvIndex_spec kvRows) as [H1 _ H3]. destruct (kvIndex kvRows ∅ ∅) as [m label].
  cbn [fst snd] in *. intros Hk. destruct (H3 k Hk) as (r & Hr & Hkr & Hl).
  pose proof (bestIndex_spec exclude baseRows k) as Hb.
  unfold cmpRowOf, kvTput. rewrite !H1. fold (shown (kvLast kvRows k "kv-btree")) (shown (kvLast kvRows k "kv-lsm")).
  set (bt := shown (kvLast kvRows k "kv-btree")). set (ls := shown (kvLast kvRows k "kv-lsm")).
  destruct (fgt ls bt) eqn:Ef; destruct (bestIndex exclude baseRows ∅ !! k) as [c|]; cbv zeta; cbn [fst snd];
    (split; [done|]); split; cbn; rewrite ?Hl; try done; try (by exists r);
    try (split_and!; [(by left) || (right; by left)|auto using fgt_irrefl, fgt_asym..]);
    ((left; by exists c) || by right).
Qed.

Lemma buildComparison_keys kvRows baseRows exclude :
  cr_sortKey <$> buildComparison kvRows baseRows exclude =
    merge_sort bytes_le (elements (dom (kvIndex kvRows ∅ ∅).1)).
Proof.
  unfold buildComparison. pose proof (cmpRowOf_right kvRows baseRows exclude) as Hrow.
  destruct (kvIndex kvRows ∅ ∅) as [m label]. cbn [fst]. rewrite <- list_fmap_compose.
  etrans; [|apply list_fmap_id]. apply list_fmap_ext. intros i k Hk%list_elem_of_lookup_2.
  rewrite merge_sort_Permutation, elem_of_elements, elem_of_dom in Hk. by destruct (Hrow k Hk).
Qed.

Lemma buildComparison_rows kvRows baseRows exclude :
  Forall (row_right kvRows baseRows exclude) (buildComparison kvRows baseRows exclude).
Proof.
  unfold buildComparison. pose proof (cmpRowOf_right kvRows baseRows exclude) as Hrow.
  destruct (kvIndex kvRows ∅ ∅) as [m label]. apply Forall_fmap, Forall_forall. intros k Hk.
  rewrite merge_sort_Permutation, elem_of_elements, elem_of_dom in Hk. by destruct (Hrow k Hk).
Qed.

(** What the way to a table asks of a result besides its JSON: a class of the
    published order and a memory size of 64 bits. *)
Definition reportable (marshal : Result -> option bytes) (unmarshal : bytes -> option Result) (r : Result) : Prop :=
  json_keeps marshal unmarshal r /\ classOf r ∈ classOrder /\ MemBytes (Environment r) < 2 ^ 63.

(** What a run measures a report shows.  When the flags name nothing twice,
    names are free of underscores and slashes and every repetition reports the
    cell it ran, a run of at least one cell returns one result per cell; and as
    long as JSON keeps them, reading its directory back gives exactly those
    results, the report command exits with 0 in both renderings, and the rows
    of all its tables together are those results, none lost and none shown
    twice. *)
Lemma run_then_report fmt0 fmt2 oob duration sortTable sortMd marshal unmarshal
    has defaults available split dataRoot run args f :
  (forall rows, sortTable rows ≡ₚ rows) -> (forall rows, sortMd rows ≡ₚ rows) ->
  parse args defaultFlags = Some f ->
  let g := complete defaults f in
  let cs := cells has g (str (txt "run-" ++ Itoa (seed g))) dataRoot
    (str (resolveCPUSplit g available split)) in
  distinct_axes g -> plain_axes g -> has ""%string = false -> cs <> [] ->
  (forall c d i s, c ∈ cs -> resultFields (run d (withSeed c s) i) = cellFields c) ->
  exists all dir, cmdRun has defaults available split dataRoot run args = Some (Ok (all, dir)) /\
    resultFields <$> all = cellFields <$> cs /\
    (Forall (reportable marshal unmarshal) all ->
     let loaded := loadResults unmarshal (listing marshal dir) in
     let report := cmdReport fmt0 fmt2 oob duration (fun d => if bool_decide (d = outDir g) then loaded else [])
       sortTable sortMd in
     loaded ≡ₚ all /\
     boardRows (board sortTable loaded) ≡ₚ all /\ boardRows (board sortMd loaded) ≡ₚ all /\
     report [txt "--in"; outDir g] = Ok (MkProc (printTables fmt0 fmt2 duration sortTable loaded) [] 0) /\
     exists text, RenderMarkdown fmt0 fmt2 oob duration sortMd loaded = Ok text /\
       report [txt "--in"; outDir g; txt "--md"] = Ok (MkProc text [] 0)).
Proof.
  intros Hst Hsm Hparse g cs Hdist Hplain Hhas Hcs Hrun.
  destruct (cmdRun_results has defaults available split dataRoot run args f Hparse) as (rs & Hrs & Hf).
  apply (rows_fields run _ _ Hrun) in Hf. exists rs, (foldl writeResult ∅ rs). do 2 (split; [done|]).
  intros Hrep loaded report.
  assert (loaded ≡ₚ rs) as Hl.
  { unfold loaded. rewrite load_written; [|by eapply result_files_distinct|eapply Forall_impl; [exact Hrep|by intros ? [? _]]].
    rewrite filter_id; [done|]. by eapply named_rows. }
  assert (Forall (reportable marshal unmarshal) loaded) as Hall by (by rewrite Hl).
  assert (Forall (fun r => classOf r ∈ classOrder) loaded) by (eapply Forall_impl; [exact Hall|by intros ? (_ & ? & _)]).
  assert (loaded <> []) as Hne.
  { intros E. rewrite E in Hl. apply Permutation_nil_l in Hl. subst rs. by apply Hcs, (fmap_nil_inv cellFields). }
  split; [done|]. split; [by rewrite board_rows|]. split; [by rewrite board_rows|].
  assert ((if bool_decide (outDir g = outDir g) then loaded else []) = loaded) as Hload
    by (by rewrite bool_decide_eq_true_2).
  destruct (RenderMarkdown_total fmt0 fmt2 oob duration sortMd loaded Hne) as [text Ht].
  { eapply Forall_impl; [exact Hall|by intros ? (_ & _ & ?)]. }
  split; [|exists text; split; [done|]]; unfold report.
  - rewrite (cmdReport_found _ _ _ _ _ _ _ _ (outDir g) false); rewrite ?Hload; done || apply outDir_nonempty.
  - rewrite (cmdReport_found _ _ _ _ _ _ _ _ (outDir g) true); rewrite ?Hload, ?Ht; done || apply outDir_nonempty.
Qed.

(** A codec that keeps a given list of results: a result is written as its file
    name and read by it. *)
Definition byName (l : list Result) (b : bytes) : option Result := head (filter (fun r => resultName r = b) l).

Lemma byName_keeps l r :
  NoDup (resultName <$> l) -> r ∈ l -> json_keeps (fun r => Some (resultName r)) (byName l) r.
Proof.
  intros Hnd Hr. exists (resultName r). split; [done|]. induction l as [|x l IH]; [by apply elem_of_nil in Hr|].
  rewrite fmap_cons in Hnd. apply NoDup_cons in Hnd as [Hx Hnd]. unfold byName. rewrite filter_cons.
  apply elem_of_cons in Hr as [->|Hr]; [by rewrite decide_True|].
  rewrite decide_False; [by apply IH|]. intros E. apply Hx. rewrite E. by apply list_elem_of_fmap_2.
Qed.

(** ** Claims *)

(** C22: a comparison is right in every row.  Its rows are in the order of their
    cell keys, one for each cell at which the kv run has a row of a kv engine,
    and each shows the label of its cell, the throughput the last row of each
    of the two kv engines measured there (none for an error), the better of the
    two, the fastest competitor of the baseline that has no error and is not
    excluded, and their ratio when both are positive. *)
Theorem comparison_right kvRows baseRows exclude :
  let rows := buildComparison kvRows baseRows exclude in
  StronglySorted bytes_le (cr_sortKey <$> rows) /\ NoDup (cr_sortKey <$> rows) /\
  (forall k, k ∈ cr_sortKey <$> rows <-> exists r, r ∈ kvRows /\ kvRow k r) /\
  Forall (row_right kvRows baseRows exclude) rows.
Proof.
  cbv zeta. rewrite buildComparison_keys. split_and!.
  - apply (StronglySorted_merge_sort _).
  - rewrite merge_sort_Permutation. apply NoDup_elements.
  - intros k. rewrite merge_sort_Permutation, elem_of_elements, elem_of_dom. apply (kvIndex_spec kvRows).
  - apply buildComparison_rows.
Qed.

Lemma listRows_total {E} (meta : E -> Meta) (registry : gmap string (unit -> E)) ns :
  Forall (fun n => is_Some (registry !! n)) ns ->
  exists lines, listRows meta registry ns = Ok (concat lines) /\
    Forall2 (fun n line => listRow meta registry n = Ok line) ns lines.
Proof.
  induction 1 as [|n ns [f Hf] _ (lines & Hl & Hall)]; cbn [listRows]; [by exists []|].
  unfold listRow, Engine.New. rewrite Hf. cbn [obind]. rewrite Hl. cbn [obind].
  eexists (_ :: lines). split; [done|]. constructor; [|done]. unfold listRow, Engine.New. by rewrite Hf.
Qed.

(** The list command never panics and prints the header and one line for each
    registered engine, in the order of their names, whatever the order of the
    map. *)
Theorem list_names_every_engine {E} (meta : E -> Meta) (registry : gmap string (unit -> E)) order :
  iteration_of registry order ->
  exists lines, cmdList meta registry order =
      Ok (MkProc (listLine (txt "NAME") (txt "FAMILY") (txt "MODE") (txt "VERSION") (txt "CAPS") ++ concat lines) [] 0) /\
    Forall2 (fun n line => listRow meta registry n = Ok line) (Names order) lines /\
    Names order ≡ₚ (map_to_list registry).*1.
Proof.
  intros Ho. destruct (listRows_total meta registry (Names order)) as (lines & Hl & Hall).
  { apply Forall_forall. intros n Hn. unfold Names in Hn. rewrite sort_strings_perm in Hn.
    by apply (iteration_elem registry order). }
  exists lines. split_and!; [unfold cmdList; by rewrite Hl|done|]. unfold Names. by rewrite sort_strings_perm.
Qed.

(** A cell that panicked is in no report.  [RunCell] gives its caller the zero
    result, which names no engine: the file written for it is the same for all
    such cells and reading the directory skips it. *)
Theorem panicked_cell_unreported marshal unmarshal r dir :
  REngine r = REngine zeroResult -> json_keeps marshal unmarshal r -> dir = writeResult ∅ r ->
  loadResults unmarshal (listing marshal dir) = [].
Proof.
  intros He Hj ->. apply Permutation_nil_r. change (writeResult ∅ r) with (foldl writeResult ∅ [r]).
  rewrite load_written; [|apply NoDup_singleton|by repeat constructor].
  rewrite filter_cons_False; [done|]. rewrite He. by intros [].
Qed.
