(* ===== verification/Builtin.v ===== *)
(** * The reference engines as registered engines

    What the driver gets for the names [devnull], [faster], [f2], [otter],
    [swiss] (adapters/inmem/inmem.go) and [memory] (adapters/memory/memory.go):
    their registration, their [engine.Engine] methods, and that a cell, and a
    whole run, over the ones that store anything succeeds. *)

From S2P Require Import Inmem Swiss Faster F2 Otter Memory.
From S2P Require Import Prelude Float64 Codec Engine Workload Hdr Harness HarnessProofs Text Cpuset Cli Env Report Commands.
Local Open Scope go_scope.

(** A value of the interface [engine.Engine]: a type with its methods, and a
    state of that type. *)
Record AnyEngine := Any {
  any_E : Type; any_B : Type; any_I : Type;
  any_engine : Engine any_E any_B any_I;
  any_state : any_E }.

Definition any_meta (a : AnyEngine) : Meta := @e_meta _ _ _ (any_engine a) (any_state a).

(** ** The methods *)

(** [emptyIter]: exhausted from the start. *)
Definition emptyIter_Next (it : unit) : bool * unit := (false, it).

(** The do-nothing engine; its batch only counts. *)
Definition devnullEngine : Engine unit Inmem.nullBatch unit := {|
  e_meta _ := Inmem.devnullMeta;
  e_open e _ := Ok (e, None);
  e_get e k := obind (kv_get e k) (fun v => Ok (e, v));
  e_put := kv_put;
  e_delete := kv_delete;
  e_newBatch _ := Inmem.MkNullBatch 0;
  e_batchPut e b k v := (e, Inmem.nullPut b k v);
  e_batchLen := Inmem.nullLen;
  e_commit e b := Ok (e, None);
  e_scan e _ := Ok (e, Some tt);
  e_next _ it := Ok (emptyIter_Next it);
  e_flush := Ok;
  e_stats _ := Some UnknownStats |}.

(** The keys of the map in the order [range] gives them; a scan sorts them. *)
Definition memoryKeys (e : Memory.eng) : list bytes :=
  match Memory.en_m e with Some m => (map_to_list m).*1 | None => [] end.

Definition memoryEngine : Engine Memory.eng Memory.batch Memory.iter := {|
  e_meta _ := Memory.memoryMeta;
  e_open e _ := Ok (Memory.Open e, None);
  e_get e k := Ok (e, Memory.Get e k);
  e_put := Memory.Put;
  e_delete e k := Ok (Memory.Delete e k);
  e_newBatch _ := Memory.NewBatch;
  e_batchPut e b k v := (e, Memory.batchPut b k v);
  e_batchLen := Memory.batchLen;
  e_commit e b := obind (Memory.Commit e b) (fun '(e', _) => Ok (e', None));
  e_scan e k := Ok (e, Some (Memory.Scan (memoryKeys e) k));
  e_next := Memory.Next;
  e_flush := Ok;
  e_stats _ := Some UnknownStats |}.

(** ** Registration *)

Abbreviation Registry := (gmap string (unit -> AnyEngine)).

Definition inmem_init (r : Registry) : outcome Registry :=
  let* r := Register r "devnull" (fun _ => Any _ _ _ devnullEngine tt) in
  let* r := Register r "faster" (fun _ => Any _ _ _ (inmemEngine Faster.fasterMeta) Faster.newFaster) in
  let* r := Register r "f2" (fun _ => Any _ _ _ (inmemEngine F2.f2Meta) F2.newF2) in
  let* r := Register r "otter" (fun _ => Any _ _ _ (inmemEngine Otter.otterMeta) Otter.newOtter) in
  Register r "swiss" (fun _ => Any _ _ _ (inmemEngine Swiss.swissMeta) Swiss.newSwiss).

Definition memory_init (r : Registry) : outcome Registry :=
  Register r "memory" (fun _ => Any _ _ _ memoryEngine Memory.newEng).

(** [engine.New] and [RunCell] on what it returned. *)
Definition runNamed (pow : float64 -> float64 -> float64) (oob : float64 -> Z) (notBuilt : string -> string)
    (r : Registry) (c : CellConfig) (w : world) : phase Result :=
  match Engine.New r (EngineName c) with
  | inl a => @RunCell _ _ _ (any_engine a) pow oob (fun _ => inl (any_state a)) c w
  | inr (ErrNotBuilt n) => @RunCell _ _ _ devnullEngine pow oob (fun _ => inr (notBuilt n)) c w
  end.

(** ** The contract *)

#[global] Instance memoryStore : @StoreEngine Memory.eng Memory.batch Memory.iter memoryEngine _ _.
Proof.
  refine (@Build_StoreEngine _ _ _ memoryEngine _ _ Memory.ba_ops _ _ _ _ _ _ _ (fun it => -1 <= Memory.it_idx it) _ _);
    try done.
  - intros e b k v. by eexists.
  - intros e b. cbn. unfold Memory.Commit. by destruct (Memory.commitLoop e (Memory.ba_ops b)).
  - intros e k. eexists. split; [done|]. cbn. lia.
  - intros e it Hit. cbn. unfold Memory.Next. case_zcmp.
    + eexists _, _. split; [done|]. cbn. lia.
    + destruct (index_in (Memory.it_keys it) (Memory.it_idx it + 1)) as [k ->]; [lia|]. cbn [obind].
      eexists _, _. split; [done|]. cbn. lia.
Defined.


Definition refNames : list string := ["devnull"; "faster"; "f2"; "otter"; "swiss"; "memory"].
Definition storingNames : list string := ["faster"; "f2"; "otter"; "swiss"; "memory"].

Lemma Register_new {E} (r : gmap string (unit -> E)) n f : r !! n = None -> Register r n f = Ok (<[n := f]> r).
Proof. intros Hn. unfold Register. by rewrite Hn. Qed.

Ltac decided := apply (bool_decide_unpack _); vm_compute; exact Logic.I.

(** Look a literal name up past the insertions of other names. *)
Ltac find_name := repeat first [rewrite lookup_insert_eq; reflexivity | rewrite lookup_insert_ne by decided].

(** The two packages register their names and leave the others as they were. *)
Lemma init_spec (r0 : Registry) :
  (forall n, n ∈ refNames -> r0 !! n = None) ->
  exists r, obind (inmem_init r0) memory_init = Ok r /\
    r !! "faster"%string = Some (fun _ => Any _ _ _ (inmemEngine Faster.fasterMeta) Faster.newFaster) /\
    r !! "f2"%string = Some (fun _ => Any _ _ _ (inmemEngine F2.f2Meta) F2.newF2) /\
    r !! "otter"%string = Some (fun _ => Any _ _ _ (inmemEngine Otter.otterMeta) Otter.newOtter) /\
    r !! "swiss"%string = Some (fun _ => Any _ _ _ (inmemEngine Swiss.swissMeta) Swiss.newSwiss) /\
    r !! "memory"%string = Some (fun _ => Any _ _ _ memoryEngine Memory.newEng) /\
    forall n, n ∉ refNames -> r !! n = r0 !! n.
Proof.
  intros Hfree. unfold inmem_init, memory_init.
  do 6 (rewrite Register_new by (find_name; apply Hfree; decided);
        cbn [obind]).
  eexists. split; [reflexivity|].
  split_and!; try find_name.
  intros n Hn. unfold refNames in Hn. rewrite !not_elem_of_cons in Hn. destruct Hn as (? & ? & ? & ? & ? & ? & _).
  by rewrite !lookup_insert_ne by done.
Qed.

(** What a cell over one of the engines that store returns. *)
Definition cell_done (c : CellConfig) (w : world) (per : Z) (res : Result) : Prop :=
  Error res = ""%string /\ Count_ (LatencyNs res) = wrap64 (Concurrency c * per) /\
  rl_Ops (Load_ res) = Cardinality c /\ resultFields res = cellFields c /\
  re_Class (REngine res) = ClassEmbedded /\ Environment res = w_env w.

(** A cell that names a registered engine that stores. *)
Lemma storing_named {E B I} `{SE : StoreEngine E B I} pow oob notBuilt (r : Registry) c (e e0 : E) :
  r !! EngineName c = Some (fun _ => Any E B I _ e) ->
  (forall cfg, e_open e cfg = Ok (e0, None)) -> kv_rep e0 ∅ 0 -> (forall e, e_flush e = Ok e) ->
  MetaName (e_meta e) = EngineName c -> ClassOf (e_meta e) = ClassEmbedded ->
  exists a, Engine.New r (EngineName c) = inl a /\
    forall w per, runnable (any_meta a) c w per ->
      exists res, runNamed pow oob notBuilt r c w = Done res /\ cell_done c w per res.
Proof.
  intros Hr Hopen Hrep Hflush Hname Hclass. unfold runNamed, Engine.New. rewrite Hr. eexists. split; [done|].
  intros w per Hrun.
  destruct (RunCell_success pow oob (fun _ => inl e) e e0 c w per eq_refl Hopen Hrep Hflush Hrun)
    as (res & Hres & He & Hc & Hl & Hn & Hw & Henv & _).
  exists res. split; [exact Hres|]. unfold cell_done, resultFields. rewrite Hn, Hw. cbn. by rewrite Hname.
Qed.

Lemma storing_cell pow oob notBuilt r0 r c :
  (forall n, n ∈ refNames -> r0 !! n = None) -> obind (inmem_init r0) memory_init = Ok r ->
  EngineName c ∈ storingNames ->
  exists a, Engine.New r (EngineName c) = inl a /\
    forall w per, runnable (any_meta a) c w per ->
      exists res, runNamed pow oob notBuilt r c w = Done res /\ cell_done c w per res.
Proof.
  intros Hfree Hr Hc. destruct (init_spec r0 Hfree) as (r' & Hr' & Hfa & Hf2 & Hot & Hsw & Hme & _).
  rewrite Hr in Hr'. injection Hr' as <-. unfold storingNames in Hc. rewrite !elem_of_cons in Hc.
  destruct Hc as [E|[E|[E|[E|[E|[]%elem_of_nil]]]]].
  - apply (@storing_named _ _ _ (inmemEngine Faster.fasterMeta) _ _ _ _ _ _ r c Faster.newFaster Faster.newFaster);
      rewrite ?E; try done. exact Faster.newFaster_rep.
  - apply (@storing_named _ _ _ (inmemEngine F2.f2Meta) _ _ _ _ _ _ r c F2.newF2 F2.newF2);
      rewrite ?E; try done. exact F2.newF2_rep.
  - apply (@storing_named _ _ _ (inmemEngine Otter.otterMeta) _ _ _ _ _ _ r c Otter.newOtter Otter.newOtter);
      rewrite ?E; try done. exact Otter.newOtter_rep.
  - apply (@storing_named _ _ _ (inmemEngine Swiss.swissMeta) _ _ _ _ _ _ r c Swiss.newSwiss Swiss.newSwiss);
      rewrite ?E; try done. exact Swiss.newSwiss_rep.
  - apply (@storing_named _ _ _ memoryEngine _ _ _ _ _ _ r c Memory.newEng (Memory.Open Memory.newEng));
      rewrite ?E; try done.
Qed.

(** What [RunCell] hands to [runReps]; [w] is the world of repetition [i] of the
    [d]-th cell.  A cell that never returns has no value; the zero result stands
    for it and the theorem below shows that there is none. *)
Definition ranCell (pow : float64 -> float64 -> float64) (oob : float64 -> Z) (notBuilt : string -> string)
    (r : Registry) (w : nat -> CellConfig -> nat -> world) (d : nat) (c : CellConfig) (i : nat) : Result :=
  match runNamed pow oob notBuilt r c (w d c i) with Done res => res | _ => zeroResult end.

Lemma runnable_withSeed m c w per s : runnable m c w per -> runnable m (withSeed c s) w per.
Proof. by intros [[] ?]. Qed.

(** The worlds give every cell of a grid a run: on a host whose environment was
    captured, with the time and the memory the cell needs. *)
Definition worlds_run (r : Registry) (w : nat -> CellConfig -> nat -> world) (cs : list CellConfig) : Prop :=
  forall c d i s, c ∈ cs ->
    (exists h, w_env (w d (withSeed c s) i) = Env.Capture h) /\
    forall a, Engine.New r (EngineName c) = inl a -> exists per, runnable (any_meta a) c (w d (withSeed c s) i) per.

(** A repetition of a cell of the grid succeeded and can be shown. *)
Record good_rep (c : CellConfig) (res : Result) : Prop := {
  gr_ok : Error res = ""%string;
  gr_load : rl_Ops (Load_ res) = Cardinality c;
  gr_fields : resultFields res = cellFields c;
  gr_class : classOf res ∈ classOrder;
  gr_mem : MemBytes (Environment res) < 2 ^ 63 }.

Lemma ranCell_good pow oob notBuilt r0 r w cs c d i s :
  (forall n, n ∈ refNames -> r0 !! n = None) -> obind (inmem_init r0) memory_init = Ok r ->
  worlds_run r w cs -> c ∈ cs -> EngineName c ∈ storingNames ->
  good_rep c (ranCell pow oob notBuilt r w d (withSeed c s) i).
Proof.
  intros Hfree Hr Hw Hc Hname. destruct (Hw c d i s Hc) as [[h Henv] Hper].
  destruct (storing_cell pow oob notBuilt r0 r (withSeed c s) Hfree Hr Hname) as (a & Ha & Hrun).
  destruct (Hper a Ha) as [per Hp]. destruct (Hrun _ _ (runnable_withSeed _ _ _ _ s Hp)) as (res & Hres & Hdone).
  unfold ranCell. rewrite Hres. destruct Hdone as (He & _ & Hl & Hf & Hcl & Hen).
  split; [done|done|done| |].
  - unfold classOf. rewrite Hcl. decided.
  - rewrite Hen, Henv. pose proof (proj1 (Env.capture_memory h)) as [_ ?]. done.
Qed.

Lemma good_rep_carries c r o : carries r o -> good_rep c o -> good_rep c r.
Proof.
  intros (He & Hw & Herr & Hlat & Hl & Henv) [? ? ? ? ?]. split; try congruence.
  - unfold resultFields in *. by rewrite He, Hw.
  - unfold classOf in *. by rewrite He.
Qed.

Lemma cells_engine has f runID dataRoot server c (names : list string) :
  Forall (fun en => str en ∈ names) (engines f) -> c ∈ cells has f runID dataRoot server -> EngineName c ∈ names.
Proof.
  intros Hall Hc. apply elem_of_cells in Hc as (en & wn & spec & rg & dur & v & k & Hen & _ & _ & _ & _ & _ & _ & _ & ->).
  rewrite Forall_forall in Hall. by apply Hall.
Qed.

Lemma rows_good run cs rs :
  (forall c d i s, c ∈ cs -> good_rep c (run d (withSeed c s) i)) -> Forall2 (row_of run) cs rs ->
  Forall2 good_rep cs rs.
Proof.
  intros Hrun Hrows. induction Hrows as [|c r cs rs (d & i & s & Hro) _ IH]; [constructor|]. constructor.
  - eapply good_rep_carries; [exact Hro|]. apply Hrun. left.
  - apply IH. intros. apply Hrun. by right.
Qed.

Lemma good_fields cs rs : Forall2 good_rep cs rs -> resultFields <$> rs = cellFields <$> cs.
Proof. induction 1 as [|c x cs l [] _ IH]; [done|]. rewrite !fmap_cons, IH. by f_equal. Qed.

(** ** Claims *)


(** A run of two engines over one key, on a host that answers no command. *)
Definition smallArgs : list bytes :=
  txt <$> ["--engines"; "swiss,memory"; "--workloads"; "readrandom"; "--values"; "8"; "--conc"; "1";
    "--cardinality"; "1"; "--ops"; "1"; "--reps"; "1"]%string.

Definition smallFlags : runFlags :=
  MkRunFlags [txt "swiss"; txt "memory"] [txt "readrandom"] [txt "cache-resident"] [txt "DEFAULT"] [8] [1] 1 1 1 1 []
    false [] [].

Definition smallWorld (_ : nat) (_ : CellConfig) (_ : nat) : world :=
  MkWorld (Env.Capture (Env.MkHost "plan9" "amd64" 1 "go1.24" 1 (fun _ => None))) None f64_one [(0%nat, 5); (0%nat, 7)]
    f64_one None None (MkMemStats 0 f64_zero 0) (MkMemStats 0 f64_zero 0) (Dir (inl [])).

Definition smallRegistry : Registry :=
  match obind (inmem_init ∅) memory_init with Ok r => r | _ => ∅ end.

Definition smallAll : list Result :=
  match cmdRun (Has smallRegistry) [] false (fun _ _ => Failed) "/tmp"
          (ranCell demoPow demoOob id smallRegistry smallWorld) smallArgs with
  | Some (Ok (all, _)) => all
  | _ => []
  end.

Definition smallCells : list CellConfig := cells (Has smallRegistry) smallFlags "run-1" "/tmp" "".

Lemma smallRegistry_ok : obind (inmem_init ∅) memory_init = Ok smallRegistry.
Proof. unfold smallRegistry. by destruct (init_spec ∅) as (r & -> & _); [intros; apply lookup_empty|]. Qed.

Lemma small_runnable m en :
  runnable m (mkCell smallFlags en (MkSpec "readrandom" 100 0 0 0 0 0 DistUniform false false false)
    (txt "cache-resident") (txt "DEFAULT") 8 1 "run-1" "/tmp" "") (smallWorld 0 demoCell 0) 1.
Proof.
  split; [|vm_compute; discriminate].
  split; [split; discriminate|simpl; lia|discriminate|simpl; lia|simpl; lia|split; vm_compute; congruence
    |reflexivity|repeat constructor; vm_compute; congruence| |reflexivity|by split].
  intros [|i] Hi; [vm_compute; lia|simpl in Hi; lia].
Qed.

Lemma small_worlds : worlds_run smallRegistry smallWorld smallCells.
Proof.
  intros c d i s Hc. split; [by eexists|]. intros a _. exists 1. unfold smallCells in Hc.
  revert Hc. generalize (Has smallRegistry). intros has Hc.
  apply elem_of_cells in Hc as (en & wn & spec & rg & dur & v & k & _ & _ & Hwn & Hspec & Hrg & Hdur & Hv & Hk & ->).
  apply list_elem_of_singleton in Hwn, Hrg, Hdur, Hv, Hk. subst.
  assert (spec = MkSpec "readrandom" 100 0 0 0 0 0 DistUniform false false false) as -> by (vm_compute in Hspec; congruence).
  apply small_runnable.
Qed.

Lemma small_distinct : distinct_axes smallFlags.
Proof. split; decided. Qed.

Lemma small_plain : plain_axes smallFlags.
Proof. split; repeat constructor; try (apply plainb_ok; vm_compute; reflexivity); unfold is_i64; cbn; lia. Qed.

Lemma small_has : Has smallRegistry "swiss"%string = true.
Proof.
  unfold smallRegistry. destruct (init_spec ∅) as (r & -> & _ & _ & _ & Hs & _); [intros; apply lookup_empty|].
  unfold Has. rewrite Hs. by apply bool_decide_eq_true_2.
Qed.

Lemma small_cells : smallCells <> [].
Proof.
  assert (mkCell smallFlags (txt "swiss") (MkSpec "readrandom" 100 0 0 0 0 0 DistUniform false false false)
    (txt "cache-resident") (txt "DEFAULT") 8 1 "run-1" "/tmp" "" ∈ smallCells) as Hin.
  { unfold smallCells. pose proof small_has as Hh. revert Hh. generalize (Has smallRegistry). intros has Hh.
    apply elem_of_cells. eexists _, (txt "readrandom"), _, _, _, _, _. split_and!; try reflexivity; try exact Hh; left. }
  intros E. rewrite E in Hin. by apply elem_of_nil in Hin.
Qed.

