(* ===== verification/Engines.v ===== *)
(** * The registered third-party engines

    The methods of each adapter of adapters/ as the driver calls them, its
    registration, and what a cell over it reports.  What a store's own calls
    return (opening it, flushing it, its statistics) are arguments. *)

From S2P Require Import Prelude Float64 Codec Engine Ordered Adapter TxStore LsmStore Point Workload Hdr Harness HarnessProofs Driven Builtin.
From S2P Require Bbolt Lmdb Libmdbx Buntdb Goleveldb Pebble Rocks Pogreb Badger Sqlite Kv Respnet.
Local Open Scope go_scope.

(** [Open] of an adapter that makes a sequence of calls, the store it leaves
    being [e]. *)
Definition openedBy {E A} (r : list A * option serr) (e : E) : outcome (E + serr) :=
  Ok (match r.2 with Some err => inr err | None => inl e end).

(** [Flush], through the store's call. *)
Definition flushing {E DB} (mk : DB -> E) (r : DB * option serr) : E * option serr := (mk r.1, r.2).

(** ** Batches kept beside the store *)

Section Pure.
Context {E B I : Type} `{AdapterOps E} (v : View E B I) (new : B) (put : B -> bytes -> bytes -> B) (del : B -> bytes -> B).
Context (Hnew : forall e, v_newBatch v e = new) (Hput : forall e b k x, v_batchPut v e b k x = (e, put b k x)).

Lemma puts_pure e kvs : puts v e kvs = (e, build_batch new put del (put_ops kvs)).
Proof using Hnew Hput.
  induction kvs as [|[k x] kvs IH] using rev_ind; [unfold puts; cbn; by rewrite Hnew|].
  rewrite puts_snoc, IH. cbn. rewrite Hput. unfold put_ops, build_batch. by rewrite fmap_app, foldl_app.
Qed.

Lemma batched_pure :
  (forall e l, v_commit v e (build_batch new put del l) = ad_commit e l) ->
  (forall kvs, v_batchLen v (build_batch new put del (put_ops kvs)) = len kvs) -> Batched v.
Proof using Hnew Hput.
  intros Hc Hl. split; intros e kvs; rewrite puts_pure; [apply Hl|apply Hc].
Qed.
End Pure.

(** A batch that is the list of its writes has the length of what was put. *)
Lemma built_len {B} (ops : B -> list memOp) new put del kvs :
  ops new = [] -> (forall b k x, ops (put b k x) = ops b ++ [PutOp k x]) ->
  (forall b k, ops (del b k) = ops b ++ [DelOp k]) ->
  len (ops (build_batch new put del (put_ops kvs))) = len kvs.
Proof. intros Hn Hp Hd. rewrite (build_batch_ops ops) by done. unfold put_ops, len. by rewrite !length_fmap. Qed.

(** ** bbolt, lmdb, libmdbx, buntdb, sqlite: transactions *)

Section Transactional.
Context {DB Tx Cur : Type} `{TxnDB DB Tx}.
Context (dbSync : DB -> DB * option serr) (db : DB).

Definition bboltView `{BoltTx Tx, BoltCursor DB Cur} (fails : Bbolt.call -> option serr)
    : View (Bbolt.eng DB Tx Cur) Bbolt.batch (Bbolt.iter Cur) := {|
  v_meta := Bbolt.engMeta;
  v_open cfg := openedBy (Bbolt.Open fails cfg) (Bbolt.MkEng db);
  v_newBatch _ := Bbolt.NewBatch;
  v_batchPut e b k x := (e, Bbolt.batchPut b k x);
  v_batchLen := Bbolt.batchLen;
  v_commit e b := let '(db, _, err) := Bbolt.Commit (Bbolt.e_db e) b in (Bbolt.MkEng db, err);
  v_scan e start := Bbolt.Scan (Bbolt.e_db e) start;
  v_next := Bbolt.Next;
  v_flush e := flushing Bbolt.MkEng (Bbolt.Flush dbSync (Bbolt.e_db e));
  v_stats _ := Bbolt.Stats |}.

#[global] Instance bbolt_batched `{BoltTx Tx, BoltCursor DB Cur} fails : Batched (bboltView fails).
Proof.
  apply (batched_pure _ Bbolt.NewBatch Bbolt.batchPut Bbolt.batchDelete); try done.
  intros kvs. by apply (built_len Bbolt.ops).
Qed.

Definition lmdbView `{KeyTx Tx, MdbCursor DB Cur} (fails : Lmdb.call -> option serr) (infoOk : DB -> bool)
    : View (Lmdb.eng DB Tx Cur) Lmdb.batch (Lmdb.iter Cur) := {|
  v_meta := Lmdb.engMeta;
  v_open cfg := openedBy (Lmdb.Open fails cfg) (Lmdb.MkEng db);
  v_newBatch _ := Lmdb.NewBatch;
  v_batchPut e b k x := (e, Lmdb.batchPut b k x);
  v_batchLen := Lmdb.batchLen;
  v_commit e b := let '(db, _, err) := Lmdb.Commit (Lmdb.e_env e) b in (Lmdb.MkEng db, err);
  v_scan e start := Lmdb.Scan (Lmdb.e_env e) start;
  v_next := Lmdb.Next;
  v_flush e := flushing Lmdb.MkEng (Lmdb.Flush dbSync (Lmdb.e_env e));
  v_stats e := Lmdb.Stats (infoOk (Lmdb.e_env e)) |}.

#[global] Instance lmdb_batched `{KeyTx Tx, MdbCursor DB Cur} fails infoOk : Batched (lmdbView fails infoOk).
Proof.
  apply (batched_pure _ Lmdb.NewBatch Lmdb.batchPut Lmdb.batchDelete); try done.
  intros kvs. by apply (built_len Lmdb.ops).
Qed.

Definition libmdbxView `{KeyTx Tx, MdbCursor DB Cur} (fails : Libmdbx.call -> option serr)
    : View (Libmdbx.eng DB Tx Cur) Libmdbx.batch (Libmdbx.iter Cur) := {|
  v_meta := Libmdbx.engMeta;
  v_open cfg := openedBy (Libmdbx.Open fails cfg) (Libmdbx.MkEng db);
  v_newBatch _ := Libmdbx.NewBatch;
  v_batchPut e b k x := (e, Libmdbx.batchPut b k x);
  v_batchLen := Libmdbx.batchLen;
  v_commit e b := let '(db, _, err) := Libmdbx.Commit (Libmdbx.e_env e) b in (Libmdbx.MkEng db, err);
  v_scan e start := Libmdbx.Scan (Libmdbx.e_env e) start;
  v_next := Libmdbx.Next;
  v_flush e := flushing Libmdbx.MkEng (Libmdbx.Flush dbSync (Libmdbx.e_env e));
  v_stats _ := Libmdbx.Stats |}.

#[global] Instance libmdbx_batched `{KeyTx Tx, MdbCursor DB Cur} fails : Batched (libmdbxView fails).
Proof.
  apply (batched_pure _ Libmdbx.NewBatch Libmdbx.batchPut Libmdbx.batchDelete); try done.
  intros kvs. by apply (built_len Libmdbx.ops).
Qed.
End Transactional.

(** [Next] of the buntdb iterator waits for its producer, which then runs. *)
Definition buntdbNext (s : Buntdb.scan) : bool * Buntdb.scan :=
  match Buntdb.Next s with
  | (Buntdb.NextRow, s') => (true, s')
  | (Buntdb.NextEnd, s') => (false, s')
  | (Buntdb.NextBlocks, s') =>
      let s1 := match Buntdb.sexec Buntdb.PSend s' with
                | Some s1 => s1
                | None => default s' (Buntdb.sexec Buntdb.PEnd s')
                end in
      match Buntdb.Next s1 with
      | (Buntdb.NextRow, s2) => (true, s2)
      | (_, s2) => (false, s2)
      end
  end.

(** The wait is over after that one step, and the steps are the scan's own. *)
Lemma buntdbNext_steps s :
  rtc Buntdb.sstep s (buntdbNext s).2 /\
  ((buntdbNext s).1 = false -> Buntdb.sc_running (buntdbNext s).2 = false /\ Buntdb.sc_ch (buntdbNext s).2 = []).
Proof.
  unfold buntdbNext, Buntdb.Next. destruct s as [left run [|kv ch] d cur got]; cbn.
  - destruct run; cbn; [|done]. destruct left as [|kv left]; cbn.
    + split; [|done]. apply rtc_once. by exists Buntdb.PEnd.
    + split; [|done]. eapply rtc_l; [by exists Buntdb.PSend|]. apply rtc_once. by exists Buntdb.CRecv.
  - split; [|done]. apply rtc_once. by exists Buntdb.CRecv.
Qed.

Definition buntdbView {DB Tx} `{TxnDB DB Tx, KeyTx Tx, Buntdb.AscendTx Tx} (dbShrink : DB -> DB * option serr) (db : DB)
    (fails : Buntdb.call -> option serr) : View (Buntdb.eng DB Tx) Buntdb.batch Buntdb.scan := {|
  v_meta := Buntdb.engMeta;
  v_open cfg := openedBy (Buntdb.Open fails cfg) (Buntdb.MkEng db);
  v_newBatch _ := Buntdb.NewBatch;
  v_batchPut e b k x := (e, Buntdb.batchPut b k x);
  v_batchLen := Buntdb.batchLen;
  v_commit e b := let '(db, _, err) := Buntdb.Commit (Buntdb.e_db e) b in (Buntdb.MkEng db, err);
  v_scan e start := inl (Buntdb.newScan (Buntdb.visited (Buntdb.e_db e) start));
  v_next := buntdbNext;
  v_flush e := flushing Buntdb.MkEng (Buntdb.Flush dbShrink (Buntdb.e_db e));
  v_stats _ := Buntdb.Stats |}.

#[global] Instance buntdb_batched {DB Tx} `{TxnDB DB Tx, KeyTx Tx, Buntdb.AscendTx Tx} dbShrink db fails :
  Batched (buntdbView dbShrink db fails).
Proof.
  apply (batched_pure _ Buntdb.NewBatch Buntdb.batchPut Buntdb.batchDelete); try done.
  intros kvs. by apply (built_len Buntdb.ops).
Qed.

Definition sqliteView {DB Tx Rows} `{Sqlite.SqlDB DB Tx Rows} (join : string -> string -> string) (db : DB)
    (fails : Sqlite.call -> option serr) : View (Sqlite.eng DB Tx Rows) Sqlite.batch (Sqlite.iter Rows) := {|
  v_meta := Sqlite.engMeta;
  v_open cfg := openedBy (Sqlite.Open join fails cfg) (Sqlite.MkEng db);
  v_newBatch _ := Sqlite.NewBatch;
  v_batchPut e b k x := (e, Sqlite.batchPut b k x);
  v_batchLen := Sqlite.batchLen;
  v_commit e b := let '(db, _, err) := Sqlite.Commit (Sqlite.e_db e) b in (Sqlite.MkEng db, err);
  v_scan e start := Sqlite.Scan (Sqlite.e_db e) start;
  v_next := Sqlite.Next;
  v_flush e := flushing Sqlite.MkEng (Sqlite.Flush (Sqlite.e_db e));
  v_stats _ := Sqlite.Stats |}.

#[global] Instance sqlite_batched {DB Tx Rows} `{Sqlite.SqlDB DB Tx Rows} join db fails :
  Batched (sqliteView join db fails).
Proof.
  apply (batched_pure _ Sqlite.NewBatch Sqlite.batchPut Sqlite.batchDelete); try done.
  intros kvs. by apply (built_len Sqlite.ops).
Qed.

(** ** goleveldb, pebble, the RocksDB family: logs and tables *)

Definition goleveldbView {DB It} `{LsmDB DB, GetErr DB, BoundIter DB It} (openFile : string -> option Z -> DB + serr)
    : View (Goleveldb.eng DB It) Goleveldb.batch (It * bool) := {|
  v_meta := Goleveldb.engMeta;
  v_open cfg := Ok (Goleveldb.Open openFile cfg);
  v_newBatch _ := Goleveldb.NewBatch;
  v_batchPut e b k x := (e, Goleveldb.batchPut b k x);
  v_batchLen := Goleveldb.batchLen;
  v_commit e b := let '(db, _, err) := Goleveldb.Commit e b in (Goleveldb.MkEng db (Goleveldb.e_sync e), err);
  v_scan := Goleveldb.Scan;
  v_next := Goleveldb.Next;
  v_flush e := (e, Goleveldb.Flush);
  v_stats _ := Goleveldb.Stats |}.

#[global] Instance goleveldb_batched {DB It} `{LsmDB DB, GetErr DB, BoundIter DB It} openFile :
  Batched (goleveldbView openFile).
Proof.
  apply (batched_pure _ Goleveldb.NewBatch Goleveldb.batchPut Goleveldb.batchDelete); try done.
  intros kvs. by apply (built_len Goleveldb.ops).
Qed.

Definition pebbleView {DB It} `{LsmDB DB, GetErr DB, BoundIter DB It} (open : string -> option Z -> DB + serr)
    (dbFlush : DB -> DB * option serr) (levels : DB -> list (Z * Z))
    : View (Pebble.eng DB It) Pebble.batch (It * bool) := {|
  v_meta := Pebble.engMeta;
  v_open cfg := Ok (Pebble.Open open cfg);
  v_newBatch _ := Pebble.NewBatch;
  v_batchPut e b k x := (e, Pebble.batchPut b k x);
  v_batchLen := Pebble.batchLen;
  v_commit e b := let '(db, _, err) := Pebble.Commit e b in (Pebble.MkEng db (Pebble.e_sync e), err);
  v_scan := Pebble.Scan;
  v_next := Pebble.Next;
  v_flush e := flushing (fun db => Pebble.MkEng db (Pebble.e_sync e)) (Pebble.Flush dbFlush (Pebble.e_db e));
  v_stats e := Pebble.Stats (levels (Pebble.e_db e)) |}.

#[global] Instance pebble_batched {DB It} `{LsmDB DB, GetErr DB, BoundIter DB It} open dbFlush levels :
  Batched (pebbleView open dbFlush levels).
Proof.
  apply (batched_pure _ Pebble.NewBatch Pebble.batchPut Pebble.batchDelete); try done.
  intros kvs. by apply (built_len Pebble.ops).
Qed.

Definition rocksOpen {DB It} (openDb : string -> DB + serr) (cfg : Config) : outcome (Rocks.store DB It + serr) :=
  let '(e, err) := Rocks.Open openDb Rocks.newEng cfg in
  match err, Rocks.opened e with
  | Some err, _ => Ok (inr err)
  | None, Some s => Ok (inl s)
  | None, None => Panic
  end.

Definition rocksView {DB It} `{LsmDB DB, GetOpt DB, SeekIter DB It} (s : Rocks.spec) (openDb : string -> DB + serr)
    (dbFlush : DB -> DB * option serr) : View (Rocks.store DB It) Rocks.batch (Rocks.iter It) := {|
  v_meta := Rocks.engMeta s;
  v_open := rocksOpen openDb;
  v_newBatch _ := Rocks.NewBatch;
  v_batchPut e b k x := (e, Rocks.batchPut b k x);
  v_batchLen := Rocks.batchLen;
  v_commit e b := let '(db, _, err) := Rocks.Commit e b in (Rocks.MkStore db (Rocks.s_sync e), err);
  v_scan e start := inl (Rocks.Scan e start);
  v_next := Rocks.Next;
  v_flush e := flushing (fun db => Rocks.MkStore db (Rocks.s_sync e)) (Rocks.Flush dbFlush (Rocks.s_db e));
  v_stats _ := Rocks.Stats |}.

#[global] Instance rocks_batched {DB It} `{LsmDB DB, GetOpt DB, SeekIter DB It} s openDb dbFlush :
  Batched (rocksView s openDb dbFlush).
Proof.
  apply (batched_pure _ Rocks.NewBatch Rocks.batchPut Rocks.batchDelete); try done.
  intros kvs. by apply (built_len Rocks.ops).
Qed.

(** ** pogreb, badger, kv and the RESP servers *)

(** The rows a scan has still to give, where it has any. *)
Definition rowsNext (rows : list (bytes * bytes)) : bool * list (bytes * bytes) :=
  match rows with [] => (false, []) | _ :: rows' => (true, rows') end.

Definition pogrebView {DB} `{Pogreb.PogrebDB DB} (open : string -> DB + serr) (fileSize : DB -> Z + serr)
    : View (Pogreb.eng DB) Pogreb.batch (list (bytes * bytes)) := {|
  v_meta := Pogreb.engMeta;
  v_open cfg := Ok (Pogreb.Open open cfg);
  v_newBatch _ := Pogreb.NewBatch;
  v_batchPut e b k x := (e, Pogreb.batchPut b k x);
  v_batchLen := Pogreb.batchLen;
  v_commit e b := let '(db, _, err) := Pogreb.Commit e b in (Pogreb.MkEng db (Pogreb.e_sync e), err);
  v_scan := Pogreb.Scan;
  v_next := rowsNext;
  v_flush e := flushing (fun db => Pogreb.MkEng db (Pogreb.e_sync e)) (Pogreb.Flush e);
  v_stats e := Pogreb.Stats (fileSize (Pogreb.e_db e)) |}.

#[global] Instance pogreb_batched {DB} `{Pogreb.PogrebDB DB} open fileSize : Batched (pogrebView open fileSize).
Proof.
  apply (batched_pure _ Pogreb.NewBatch Pogreb.batchPut Pogreb.batchDelete); try done.
  intros kvs. by apply (built_len Pogreb.ops).
Qed.

Definition kvView {DB} `{Kv.KvDB DB} (open : string -> Kv.Options -> DB + serr)
    : View (Kv.eng DB) Kv.batch (list (bytes * bytes)) := {|
  v_meta := Kv.engMeta;
  v_open cfg := Ok (Kv.Open open cfg);
  v_newBatch _ := Kv.NewBatch;
  v_batchPut e b k x := (e, Kv.batchPut b k x);
  v_batchLen := Kv.batchLen;
  v_commit e b := let '(db, _, err) := Kv.Commit e b in (Kv.MkEng db (Kv.e_sync e), err);
  v_scan := Kv.Scan;
  v_next := rowsNext;
  v_flush e := flushing (fun db => Kv.MkEng db (Kv.e_sync e)) (Kv.Flush e);
  v_stats _ := Kv.Stats |}.

#[global] Instance kv_batched {DB} `{Kv.KvDB DB} open : Batched (kvView open).
Proof.
  apply (batched_pure _ Kv.NewBatch Kv.batchPut Kv.batchDelete); try done.
  intros kvs. by apply (built_len Kv.ops).
Qed.

(** What [Open] of a RESP engine meets: the binary on PATH, the process that
    starts, the server that answers its pings, and the clock. *)
Record respHost := MkRespHost {
  rh_fuel : nat;
  rh_lookPath : option bytes;
  rh_starts : option serr;
  rh_taskset : bool;
  rh_pid : Z;
  rh_seq : Z;
  rh_ping : nat -> bool;
  rh_clock : nat -> Z }.

Definition respOpen {DB} (s : Respnet.Spec) (h : respHost) (db : DB) (cfg : Config) : outcome (Respnet.store DB + serr) :=
  match Respnet.Open (rh_fuel h) s cfg (rh_lookPath h) (rh_starts h) (rh_taskset h) (rh_pid h) (rh_seq h) (rh_ping h)
          (rh_clock h) Respnet.newEng with
  | None => Spin
  | Some (_, _, Some err) => Ok (inr err)
  | Some (_, _, None) => Ok (inl (Respnet.MkStore db s))
  end.

Definition respView {DB} `{Respnet.RespServer DB} (s : Respnet.Spec) (h : respHost) (db : DB)
    : View (Respnet.store DB) Respnet.batch (list (bytes * bytes)) := {|
  v_meta := Respnet.engMeta s;
  v_open := respOpen s h db;
  v_newBatch _ := Respnet.NewBatch;
  v_batchPut e b k x := (e, Respnet.batchPut b k x);
  v_batchLen := Respnet.batchLen;
  v_commit e b := let '(db, _, err) := Respnet.Commit e b in (Respnet.MkStore db (Respnet.s_spec e), err);
  v_scan := Respnet.Scan;
  v_next := rowsNext;
  v_flush e := flushing (fun db => Respnet.MkStore db (Respnet.s_spec e)) (Respnet.Flush e);
  v_stats _ := Respnet.Stats |}.

#[global] Instance resp_batched {DB} `{Respnet.RespServer DB} s h db : Batched (respView s h db).
Proof.
  apply (batched_pure _ Respnet.NewBatch Respnet.batchPut Respnet.batchDelete); try done.
  intros kvs. pose proof (Respnet.resp_batchOf_len (put_ops kvs)) as Hl. unfold Respnet.batchOf in Hl. cbn.
  rewrite Hl. unfold put_ops, len. by rewrite length_fmap.
Qed.

Definition badgerView {DB Tx Item WB It} `{TxnDB DB Tx, Badger.BadgerTx Tx Item, Badger.WriteBatch DB WB, Badger.ItemIter DB It}
    (open : string -> bool -> DB + serr) (dbSync : DB -> DB * option serr) (size : DB -> Z * Z)
    : View (Badger.eng DB Tx Item WB It) (Badger.batch WB) (Badger.iter It) := {|
  v_meta := Badger.engMeta;
  v_open cfg := Ok (Badger.Open open cfg);
  v_newBatch e := Badger.NewBatch (Badger.e_db e);
  v_batchPut e b k x :=
    let '(db, b') := Badger.batchPut (Badger.e_db e) b k x in (Badger.MkEng db (Badger.e_sync e), b');
  v_batchLen := Badger.batchLen;
  v_commit e b := let '(db, _, err) := Badger.Commit (Badger.e_db e) b in (Badger.MkEng db (Badger.e_sync e), err);
  v_scan e start := inl (Badger.Scan (Badger.e_db e) start);
  v_next := Badger.Next;
  v_flush e := flushing (fun db => Badger.MkEng db (Badger.e_sync e)) (Badger.Flush dbSync (Badger.e_db e));
  v_stats e := let '(lsm, vlog) := size (Badger.e_db e) in Badger.Stats lsm vlog |}.

#[global] Instance badger_batched {DB Tx Item WB It}
    `{TxnDB DB Tx, Badger.BadgerTx Tx Item, Badger.WriteBatch DB WB, Badger.ItemIter DB It} open dbSync size :
  Batched (badgerView (Item := Item) (It := It) (Tx := Tx) open dbSync size).
Proof.
  set (v := badgerView open dbSync size).
  assert (forall e kvs, exists db b, puts v e kvs = (Badger.MkEng db (Badger.e_sync e), b) /\
    Badger.batchOf (Badger.e_db e) (put_ops kvs) = (db, b) /\ Badger.b_n b = len kvs) as Hp.
  { intros e kvs. induction kvs as [|[k x] kvs (db & b & Hp & Hb & Hn)] using rev_ind.
    - exists (Badger.e_db e), (Badger.NewBatch (Badger.e_db e)). by destruct e.
    - rewrite puts_snoc, Hp. unfold put_ops, Badger.batchOf in *. rewrite fmap_app, foldl_app, Hb. cbn.
      unfold Badger.batchPut. destruct (Badger.wb_set db (Badger.b_wb b) _ _) as [[db' wb] err]. cbn.
      eexists _, _. split; [done|]. split; [done|]. rewrite len_app. cbn. rewrite Hn. by unfold len. }
  split; intros e kvs; destruct (Hp e kvs) as (db & b & -> & Hb & Hn); [exact Hn|]. cbn. by rewrite Hb.
Qed.

(** ** Cells *)

(** A registered adapter is run by [cellOn]. *)
Lemma runNamed_view {E B I} `{AdapterOps E} show (v : View E B I) pow oob notBuilt (r : Registry) c w :
  r !! EngineName c = Some (fun _ => Any _ _ _ (drive show v) None) ->
  runNamed pow oob notBuilt r c w = cellOn show v pow oob c w.
Proof. intros Hr. unfold runNamed, Engine.New. by rewrite Hr. Qed.

(** The load does not read. *)
Lemma loadOn_ops {E B I} (ops1 ops2 : AdapterOps E) show (v : View E B I) pow oob e c :
  @loadOn _ _ _ ops1 show v pow oob e c = @loadOn _ _ _ ops2 show v pow oob e c.
Proof. reflexivity. Qed.


(** A cell that updates one key, and the world it runs in. *)
Definition writeCell (name : string) : CellConfig :=
  MkCellConfig name (MkSpec "overwrite" 0 100 0 0 0 0 DistUniform false false false)
    "cache-resident" "tuned" "DEFAULT" 1 8 1 1 1 "run-1" "/tmp" 0 "".

Lemma writeCell_playable name m : playable m (writeCell name) demoWorld 1.
Proof.
  split; [split; discriminate|simpl; lia|discriminate|simpl; lia|simpl; lia|split; vm_compute; congruence
    |reflexivity|repeat constructor; vm_compute; congruence| |reflexivity|by split].
  intros [|i] Hi; [vm_compute; lia|simpl in Hi; lia].
Qed.

Definition showErr (e : serr) : string := match e with ErrNotFound => "not found" | ErrStore msg => msg end.

(** A store whose every call fails once it is loaded. *)
Definition deadOps {E} : AdapterOps E := {|
  ad_get _ _ := inr (ErrStore "gone");
  ad_put e _ _ := (e, Some (ErrStore "gone"));
  ad_delete e _ := (e, Some (ErrStore "gone"));
  ad_commit e _ := (e, Some (ErrStore "gone"));
  ad_scan _ _ _ := inr (ErrStore "gone") |}.

Definition demoPogreb : View (Pogreb.eng Pogreb.memPog) Pogreb.batch (list (bytes * bytes)) :=
  pogrebView (fun _ => inl (Pogreb.MkMemPog ∅ ∅ None)) (fun _ => inl 0).


(** C8: a cell over a registered adapter that keeps its contract, from the
    store's opening to the result.  When the cell reports no error it has run to
    its end, and its load left the store holding the keys [EncodeKey 0] to
    [EncodeKey (Cardinality - 1)] and no others, each with a value of the
    configured size; and a store that does not fail and accepts such entries
    gives a cell without an error. *)
Theorem adapter_cell {E B I} `{BatchContract E} show (v : View E B I) `{!Batched v} pow oob notBuilt (r : Registry) c w per e :
  r !! EngineName c = Some (fun _ => Any _ _ _ (drive show v) None) ->
  playable (v_meta v) c w per -> v_open v (cellConfig c (cellDir c)) = Ok (inl e) -> bc_rep e ∅ ->
  exists res, runNamed pow oob notBuilt r c w = Done res /\
    (Error res = ""%string -> ran c w per (v_meta v) res /\
     exists e' m, loadOn show v pow oob e c = Ok (Some e', None) /\ bc_rep e' m /\
       filled (ValueBytes c) (Cardinality c) m) /\
    (bc_ok e -> accepts (ValueBytes c) -> Error res = ""%string).
Proof.
  intros Hr Hp Ho Hrep. rewrite (runNamed_view show v) by done.
  destruct (cellOn_opened show v pow oob c w per e Hp Ho) as (res & e' & err & Hc & Hl & Hres).
  destruct (loadOn_spec show v pow oob e c e' err Hrep (rn_card _ _ _ _ Hp) (rn_vals _ _ _ _ Hp) Hl) as [Hn Hs].
  exists res. split; [done|]. destruct err as [msg|].
  - split; [by rewrite Hres|]. intros H1 H2. by specialize (Hs H1 H2).
  - split; [|by rewrite (proj1 Hres)]. intros _. split; [done|]. destruct (Hn eq_refl) as (m & Hm & Hf). by exists e', m.
Qed.

Definition demoBbolt : View (Bbolt.eng memDB memTx memCur) Bbolt.batch (Bbolt.iter memCur) :=
  bboltView (fun db => (db, None)) (MkMemDB ∅ false) (fun _ => None).

Lemma adapter_cell_witness :
  let c := writeCell "bbolt" in
  let r : Registry := {["bbolt"%string := fun _ => Any _ _ _ (drive showErr demoBbolt) None]} in
  exists res, runNamed demoPow demoOob id r c demoWorld = Done res /\
    (Error res = ""%string -> ran c demoWorld 1 Bbolt.engMeta res /\
     exists e' m, loadOn showErr demoBbolt demoPow demoOob (Bbolt.MkEng (MkMemDB ∅ false)) c = Ok (Some e', None) /\
       bc_rep e' m /\ filled 8 1 m) /\
    (bc_ok (Bbolt.MkEng (MkMemDB ∅ false) : Bbolt.eng memDB memTx memCur) ->
     accepts (E := Bbolt.eng memDB memTx memCur) 8 -> Error res = ""%string).
Proof.
  apply (adapter_cell showErr demoBbolt demoPow demoOob id
    {["bbolt"%string := fun _ => Any _ _ _ (drive showErr demoBbolt) None]} (writeCell "bbolt") demoWorld 1
    (Bbolt.MkEng (MkMemDB ∅ false))); [apply lookup_singleton_eq|apply writeCell_playable|reflexivity|reflexivity].
Defined.
