(* ===== verification/KvDriven.v ===== *)
(** * The kv engine under the driver

    The kv adapter's contract holds only while the keys written fit the index,
    which [Open] sizes from the cell's cardinality.  The load writes exactly
    that many keys. *)

From S2P Require Import Prelude Float64 Codec Engine Ordered Adapter Workload Hdr Harness HarnessProofs Driven Builtin Engines.
From S2P Require Kv.
Local Open Scope go_scope.

Section KvLoad.
Context {DB : Type} `{Kv.KvLaws DB} (show : serr -> string) (open : string -> Kv.Options -> DB + serr) (sync : bool).
#[local] Instance kv_driven : Engine (option (Kv.eng DB)) (option Kv.batch) (list (bytes * bytes)) := drive show (kvView open).

(** The store holds [m], has room for [n] more keys, and is in its mode. *)
Definition roomy (n : nat) (e : Kv.eng DB) (m : gmap bytes bytes) (l : list memOp) : Prop :=
  exists ks, Kv.fits (Kv.e_db e) m ks (Kv.op_keys l) /\
    Z.of_nat (size (ks ∪ Kv.op_keys l)) + Z.of_nat n <= Kv.kv_cap (Kv.e_db e) /\ Kv.kv_syncs (Kv.e_db e) = sync.

Lemma roomy_put n e m l k x : roomy (S n) e m l -> roomy n e m (l ++ [PutOp k x]).
Proof.
  intros (ks & (Hh & Hc & Hd) & Hn & Hsy). exists ks. rewrite Kv.op_keys_app.
  assert (Kv.op_keys [PutOp k x] = {[k]}) as -> by (unfold Kv.op_keys; cbn; by rewrite union_empty_r_L).
  assert (size (ks ∪ (Kv.op_keys l ∪ {[k]})) <= size (ks ∪ Kv.op_keys l) + 1)%nat as Hs.
  { rewrite (assoc_L (∪)), size_union_alt. pose proof (subseteq_size ({[k]} ∖ (ks ∪ Kv.op_keys l)) {[k]} ltac:(set_solver)) as Hle.
    rewrite size_singleton in Hle. lia. }
  split; [unfold Kv.fits; split_and!; [done|lia|done]|]. split; [lia|done].
Qed.

Lemma roomy_commit n (e : Kv.eng DB) m l :
  roomy n e m l -> roomy n (Kv.MkEng (Kv.commitLoop (Kv.e_db e) l) (Kv.e_sync e)) (apply_ops m l) [].
Proof.
  intros (ks & Hf & Hn & Hsy). destruct (Kv.commitLoop_fits l (Kv.e_db e) m ks ∅) as (Hf' & Hcap & Hs').
  { by rewrite union_empty_r_L. }
  exists (ks ∪ Kv.op_keys l). cbn. change (Kv.op_keys []) with (∅ : gset bytes).
  rewrite Hcap, Hs', union_empty_r_L. done.
Qed.

Lemma put_ops_norm kvs : norm_op <$> put_ops kvs = put_ops kvs.
Proof. unfold put_ops. rewrite <- list_fmap_compose. by apply list_fmap_ext. Qed.

(** The load never fails while there is room. *)
#[global] Instance kv_loads vb : Loads vb (option (Kv.eng DB)) (option Kv.batch) (list (bytes * bytes)).
Proof.
  refine {|
    lo_rep n o m := exists e, o = Some e /\ roomy n e m [];
    lo_batch n o m b kvs := exists e, o = Some e /\ b = Some (Kv.batchOf (put_ops kvs)) /\ roomy n e m (put_ops kvs);
    lo_err _ := False |}.
  - intros n o m (e & -> & Hr). by exists e.
  - intros n o m b kvs k x (e & -> & -> & Hr) _ _. exists e. split; [done|]. rewrite put_ops_snoc. split.
    + unfold Kv.batchOf, build_batch. by rewrite foldl_app.
    + by apply roomy_put.
  - intros n o m b kvs (e & -> & -> & _). cbn. unfold Kv.batchLen. rewrite Kv.kv_batchOf_ops. unfold put_ops, len.
    by rewrite !length_fmap.
  - intros n o m b (e & -> & _ & Hr). by exists e.
  - intros n o m b kvs (e & -> & -> & Hr) _. cbn. rewrite Kv.kv_batchOf_ops, put_ops_norm.
    eexists _, _. split; [done|]. eexists. split; [done|]. by apply roomy_commit.
Defined.
End KvLoad.

(** C9: a cell over the kv engine, whose index [Open] sizes to the cell's
    cardinality and no more.  The load fits: the cell reports no error, runs to
    its end, and its load left the store holding exactly the keyspace, on disk
    too when the cell is at FULL. *)
Theorem kv_cell {DB} `{Kv.KvLaws DB} show open pow oob notBuilt (r : Registry) c w per e :
  Kv.fresh_open open -> r !! EngineName c = Some (fun _ => Any _ _ _ (drive show (kvView open)) None) ->
  playable Kv.engMeta c w per -> Cardinality c < 2 ^ 63 ->
  Kv.Open open (cellConfig c (cellDir c)) = inl e ->
  exists res e' m, runNamed pow oob notBuilt r c w = Done res /\ ran c w per Kv.engMeta res /\
    loadOn show (kvView open) pow oob e c = Ok (Some e', None) /\ filled (ValueBytes c) (Cardinality c) m /\
    (exists ks, Kv.kv_holds (Kv.e_db e') m ks) /\
    (Durability c = "FULL"%string -> Kv.kv_durable (Kv.e_db e') m).
Proof.
  intros Hfresh Hr Hp Hc63 Ho. pose proof (rn_card _ _ _ _ Hp) as Hc.
  destruct (cellOn_opened show (kvView open) pow oob c w per e Hp) as (res & e' & err & Hcell & Hl & Hres).
  { cbn. by rewrite Ho. }
  rewrite (runNamed_view show (kvView open)) by done.
  destruct (@loadDataset_loads (ValueBytes c) _ _ _ (kv_driven show open) (kv_loads show open (bool_decide (Durability c = "FULL")) (ValueBytes c)) pow oob 0
    (Some e) c) as (o & err' & Hl' & He); try done.
  - exists e. split; [done|]. unfold Kv.Open in Ho.
    destruct (open _ (Kv.openOptions _)) as [db|] eqn:Hop; simplify_eq.
    assert (Kv.KeyCapacity (Kv.openOptions (cellConfig c (cellDir c))) = Cardinality c) as Hkc
      by (cbn; apply swrap64_id; unfold is_i64; lia).
    destruct (Hfresh _ _ _ Hop) as (Hh & Hd & Hcap & Hsync); [lia|].
    exists ∅. cbn [Kv.e_db]. change (Kv.op_keys []) with (∅ : gset bytes).
    rewrite union_empty_l_L, size_empty. split; [|split; [lia|by rewrite Hsync]]. split_and!; [done| |done].
    rewrite union_empty_l_L, size_empty. lia.
  - apply Hp.
  - unfold loadOn in Hl. fold (kv_driven show open) in Hl. rewrite Hl in Hl'. injection Hl' as <- <-.
    destruct err; [done|]. destruct He as (m & (e1 & [= <-] & ks & (Hh & _ & Hd) & _ & Hsy) & Hf).
    exists res, e', m. split_and!; [done|done|done|apply Hf..|by eexists|].
    intros Hfull. apply Hd. rewrite Hsy. by apply bool_decide_eq_true_2.
Qed.

Lemma kv_cell_witness :
  let c := writeCell "kv" in
  let open := Kv.memKv_open in
  let r : Registry := {["kv"%string := fun _ => Any _ _ _ (drive showErr (kvView open)) None]} in
  exists res e' m, runNamed demoPow demoOob id r c demoWorld = Done res /\ ran c demoWorld 1 Kv.engMeta res /\
    loadOn showErr (kvView open) demoPow demoOob (Kv.MkEng (Kv.MkMemKv ∅ ∅ ∅ 1 false) false) c = Ok (Some e', None) /\
    filled 8 1 m /\ (exists ks, Kv.kv_holds (Kv.e_db e') m ks) /\
    (Durability c = "FULL"%string -> Kv.kv_durable (Kv.e_db e') m).
Proof.
  apply (kv_cell showErr Kv.memKv_open demoPow demoOob id
    {["kv"%string := fun _ => Any _ _ _ (drive showErr (kvView Kv.memKv_open)) None]} (writeCell "kv") demoWorld 1
    (Kv.MkEng (Kv.MkMemKv ∅ ∅ ∅ 1 false) false)).
  - intros path o db [= <-] _. done.
  - apply lookup_singleton_eq.
  - apply writeCell_playable.
  - cbn. lia.
  - reflexivity.
Defined.
