(* ===== verification/RustDriven.v ===== *)
(** * The Rust engines under the driver

    redb, sled and fjall as the cell driver calls them: the client of
    adapters/rustkv/rustkv_subprocess.go over one round trip per call
    ([RustKv]).  A client whose entries fit the 32-bit lengths of a frame loads
    the whole dataset and answers every call of a run. *)

From S2P Require Import Prelude Float64 Codec Engine Ordered Text Workload Hdr Harness HarnessProofs Builtin Engines.
From S2P Require RustKv.
Local Open Scope go_scope.

Section Rust.
Context {S : Type} `{RustKv.Kv S}.

(** A call on the open engine; one on an engine that was not opened writes to a
    nil writer. *)
Definition onClient {A} (o : option (RustKv.client S)) (f : RustKv.client S -> outcome A) : outcome A :=
  match o with Some c => f c | None => Panic end.

(** The engine [name] on a host that answers [os] while it opens, the helper's
    store being [s]. *)
Definition rustEngine (name : string) (os : RustKv.os_answers) (s : S)
    : Engine (option (RustKv.client S)) RustKv.batch RustKv.iter := {|
  e_meta _ := RustKv.engMeta (RustKv.MkEng name);
  e_open _ cfg :=
    match RustKv.Open (RustKv.MkEng name) cfg os with
    | inr err => Ok (None, Some err)
    | inl _ => Ok (Some (RustKv.MkClient 0 s), None)
    end;
  e_get o k := onClient o (fun c => let* (v, c') := RustKv.Get c k in Ok (Some c', v));
  e_put o k v := onClient o (fun c => let* (_, c') := RustKv.Put c k v in Ok (Some c'));
  e_delete o k := onClient o (fun c => let* c' := RustKv.Delete c k in Ok (Some c'));
  e_newBatch _ := RustKv.NewBatch;
  e_batchPut o b k v := (o, RustKv.batchPut b k v);
  e_batchLen := RustKv.batchLen;
  e_commit o b := onClient o (fun c =>
    let* (st, _, c') := RustKv.Commit c b in
    Ok (Some c', (fun n => "batch failed status=" +:+ str (Itoa n)) <$> st));
  e_scan o k := onClient o (fun c => let* (it, c') := RustKv.Scan c k in Ok (Some c', Some it));
  e_next _ it := RustKv.Next it;
  e_flush o := onClient o (fun c => let* c' := RustKv.Flush c in Ok (Some c'));
  e_stats _ := Some RustKv.Stats |}.
End Rust.

(** ** Iterators *)

Lemma slice_total {A} (l : list A) i j : 0 <= i <= j -> j <= len l -> exists x, slice l i j = Ok x.
Proof. intros Hi Hj. unfold slice. rewrite bool_decide_eq_true_2 by done. by eexists. Qed.

Lemma le_value_nonneg b : 0 <= le_value b.
Proof. induction b as [|x b IH]; [done|]. rewrite le_value_cons. pose proof (b2z_range x). lia. Qed.

Lemma read_u32_total p off : 0 <= off -> off + 4 <= len p -> exists n, RustKv.read_u32 p off = Ok n /\ 0 <= n.
Proof.
  intros Ho Hl. unfold RustKv.read_u32. destruct (slice_total p off (off + 4)) as [b ->]; [lia..|].
  eexists. split; [done|]. apply le_value_nonneg.
Qed.

(** [Next] reads only what the body holds. *)
Lemma rust_Next_total it :
  0 <= RustKv.it_off it -> exists more it', RustKv.Next it = Ok (more, it') /\ 0 <= RustKv.it_off it'.
Proof.
  intros Ho. unfold RustKv.Next. destruct it as [body off k v]. cbn in *.
  destruct (Z.gtb_spec (off + 4) (len body)); [by eexists _, _|].
  destruct (read_u32_total body off) as (kl & -> & Hkl); [lia..|]. cbn [obind].
  destruct (Z.gtb_spec (off + 4 + kl + 4) (len body)); [eexists _, _; split; [done|cbn; lia]|].
  destruct (slice_total body (off + 4) (off + 4 + kl)) as [k' ->]; [lia..|]. cbn [obind].
  destruct (read_u32_total body (off + 4 + kl)) as (vl & -> & Hvl); [lia..|]. cbn [obind].
  destruct (Z.gtb_spec (off + 4 + kl + 4 + vl) (len body)); [eexists _, _; split; [done|cbn; lia]|].
  destruct (slice_total body (off + 4 + kl + 4) (off + 4 + kl + 4 + vl)) as [v' ->]; [lia..|]. cbn [obind].
  eexists _, _. split; [done|]. cbn. lia.
Qed.

(** ** The client and the map *)

Section Driven.
Context {S : Type} `{RustKv.KvLaws S}.
Implicit Types (c : RustKv.client S) (m : gmap bytes bytes).

(** The helper's store holds [m], whose entries fit the frames. *)
Record holds c m : Prop := {
  ho_rep : RustKv.k_rep (RustKv.c_store c) m;
  ho_small : RustKv.map_small m;
  ho_id : is_u64 (RustKv.c_nextID c) }.

(** One call: the response the client decodes is the map's answer. *)
Lemma call_holds c m o :
  holds c m -> RustKv.cop_fits o ->
  exists r c', RustKv.call c (RustKv.encodeOp o).1 (RustKv.encodeOp o).2 = Ok (r, c') /\
    RustKv.decodeOp o r = Ok (RustKv.map_op m o).1 /\ holds c' (RustKv.map_op m o).2.
Proof.
  intros [Hr Hm Hid] Ho. destruct (RustKv.encodeOp_fits o Ho) as [Hop Hp].
  destruct (RustKv.handle_spec (RustKv.c_store c) m o Hr Hm Ho) as (r & s' & Hh & Hrf & Hr' & Hd).
  exists r, (RustKv.MkClient (wrap64 (RustKv.c_nextID c + 1)) s'). split; [by apply RustKv.call_ok|]. split; [done|].
  split; [done|by apply RustKv.map_op_small|]. cbn. auto with go.
Qed.

Lemma get_holds c m k : holds c m -> len k = 16 -> exists c', RustKv.Get c k = Ok (m !! k, c') /\ holds c' m.
Proof.
  intros Hh Hk. destruct (call_holds c m (RustKv.CGet k) Hh) as (r & c' & Hc & [= Hd] & Hh').
  { change (len (RustKv.prefixed k) < 2 ^ 32). rewrite RustKv.len_prefixed. lia. }
  cbn [RustKv.encodeOp fst snd] in Hc. unfold RustKv.Get. rewrite Hc. cbn [obind]. rewrite Hd. by exists c'.
Qed.

Lemma put_holds c m k v :
  holds c m -> RustKv.small k v -> exists c', RustKv.Put c k v = Ok (None, c') /\ holds c' (<[k := v]> m).
Proof.
  intros Hh Hk. destruct (call_holds c m (RustKv.CPut k v) Hh Hk) as (r & c' & Hc & [= Hd] & Hh').
  cbn [RustKv.encodeOp fst snd] in Hc. unfold RustKv.Put. rewrite Hc. cbn [obind]. rewrite Hd. by exists c'.
Qed.

Lemma delete_holds c m k : holds c m -> len k = 16 -> exists c', RustKv.Delete c k = Ok c' /\ holds c' (delete k m).
Proof.
  intros Hh Hk. destruct (call_holds c m (RustKv.CDelete k) Hh) as (r & c' & Hc & _ & Hh').
  { change (len (RustKv.prefixed k) < 2 ^ 32). rewrite RustKv.len_prefixed. lia. }
  cbn [RustKv.encodeOp fst snd] in Hc. unfold RustKv.Delete. rewrite Hc. by exists c'.
Qed.

Lemma scan_holds c m k :
  holds c m -> len k = 16 -> exists it c', RustKv.Scan c k = Ok (it, c') /\ holds c' m /\ RustKv.it_off it = 0.
Proof.
  intros Hh Hk. destruct (call_holds c m (RustKv.CScan k) Hh) as (r & c' & Hc & _ & Hh').
  { change (len (RustKv.scanPayload k) < 2 ^ 32). unfold RustKv.scanPayload. rewrite len_app, RustKv.len_prefixed, RustKv.len_u32le. lia. }
  cbn [RustKv.encodeOp fst snd] in Hc. unfold RustKv.Scan. rewrite Hc. by exists (RustKv.newIter r), c'.
Qed.

Lemma flush_holds c m : holds c m -> exists c', RustKv.Flush c = Ok c' /\ holds c' m.
Proof.
  intros Hh. destruct (call_holds c m RustKv.CFlush Hh Logic.I) as (r & c' & Hc & _ & Hh').
  cbn [RustKv.encodeOp fst snd] in Hc. unfold RustKv.Flush. rewrite Hc. by exists c'.
Qed.

(** The batch of a load: at most [batchSize] entries of [vb] bytes. *)
Definition rust_fits (vb : Z) : Prop := 0 <= vb /\ 16 + vb <= RustKv.entry_max.

Lemma entry_small vb kv : rust_fits vb -> entry_sized vb kv -> RustKv.small kv.1 kv.2.
Proof. intros [_ Hv] [Hk Hx]. unfold RustKv.small. lia. Qed.

Lemma records_len vb kvs :
  Forall (entry_sized vb) kvs -> len (RustKv.opsRecords (put_ops kvs)) = len kvs * (25 + vb).
Proof.
  induction 1 as [|[k x] kvs [Hk Hx] _ IH]; [done|].
  change (RustKv.opsRecords (put_ops ((k, x) :: kvs)))
    with (RustKv.opRecord (PutOp k x) ++ RustKv.opsRecords (put_ops kvs)).
  change (RustKv.opRecord (PutOp k x)) with (z2b RustKv.opPut :: RustKv.prefixed k ++ RustKv.prefixed x).
  rewrite len_app, IH, !len_cons, len_app, !RustKv.len_prefixed. cbn [fst snd] in *. lia.
Qed.

Lemma batch_fits vb kvs :
  rust_fits vb -> Forall (entry_sized vb) kvs -> len kvs <= batchSize -> RustKv.cop_fits (RustKv.CBatch (put_ops kvs)).
Proof.
  intros Hv Hs Hl. split.
  - apply Forall_fmap. eapply Forall_impl; [exact Hs|]. intros kv. by apply entry_small.
  - rewrite RustKv.batchOf_records. unfold RustKv.batchPayload. cbn [RustKv.b_n RustKv.b_buf].
    rewrite len_app, RustKv.len_u32le, (records_len vb) by done.
    destruct Hv as [Hv0 Hv1]. unfold RustKv.entry_max, batchSize in *. pose proof (len_nonneg kvs). nia.
Qed.

Lemma commit_holds vb c m kvs :
  holds c m -> rust_fits vb -> Forall (entry_sized vb) kvs -> len kvs <= batchSize ->
  exists c' b, RustKv.Commit c (RustKv.batchOf (put_ops kvs)) = Ok (None, b, c') /\ holds c' (apply_ops m (put_ops kvs)).
Proof.
  intros Hh Hv Hs Hl.
  destruct (call_holds c m (RustKv.CBatch (put_ops kvs)) Hh (batch_fits vb kvs Hv Hs Hl)) as (r & c' & Hc & [= Hd] & Hh').
  cbn [RustKv.encodeOp fst snd] in Hc. unfold RustKv.Commit. rewrite Hc. cbn [obind]. rewrite Hd. by eexists _, _.
Qed.

Context (name : string) (os : RustKv.os_answers) (s : S).
#[local] Instance rust_engine : Engine (option (RustKv.client S)) RustKv.batch RustKv.iter := rustEngine name os s.

#[global] Instance rust_loads vb : rust_fits vb -> Loads vb (option (RustKv.client S)) RustKv.batch RustKv.iter.
Proof.
  intros Hv.
  refine {|
    lo_rep (_ : nat) o m := exists c, o = Some c /\ holds c m;
    lo_batch (_ : nat) o m b kvs := exists c, o = Some c /\ holds c m /\ b = RustKv.batchOf (put_ops kvs) /\
      Forall (entry_sized vb) kvs;
    lo_err _ := False |}.
  - intros _ o m (c & -> & Hh). by exists c.
  - intros _ o m b kvs k x (c & -> & Hh & -> & Hs) Hk Hx. exists c. split_and!; [done..| |].
    + rewrite put_ops_snoc. unfold RustKv.batchOf. by rewrite foldl_app.
    + apply Forall_app. split; [done|]. by repeat constructor.
  - intros _ o m b kvs (c & _ & _ & -> & _). rewrite RustKv.batchOf_records. unfold put_ops, len. cbn.
    by rewrite length_fmap.
  - intros _ o m b (c & -> & Hh & _). by exists c.
  - intros _ o m b kvs (c & -> & Hh & -> & Hs) Hl.
    destruct (commit_holds vb c m kvs Hh Hv Hs Hl) as (c' & b & Hc & Hh').
    eexists _, _. split; [cbn [e_commit rust_engine rustEngine onClient]; by rewrite Hc|]. by exists c'.
Defined.

#[global] Instance rust_sustains vb : rust_fits vb -> Sustains vb (option (RustKv.client S)) RustKv.batch RustKv.iter.
Proof.
  intros Hv.
  refine {| su_ok (_ : nat) o := exists c m, o = Some c /\ holds c m; su_iter it := 0 <= RustKv.it_off it |};
    cbn [e_get e_put e_delete e_scan e_next rust_engine rustEngine].
  - done.
  - intros n o k (c & m & -> & Hh) Hk. destruct (get_holds c m k Hh Hk) as (c' & Hg & Hh').
    exists (Some c'), (m !! k). split; [unfold onClient; by rewrite Hg|]. by exists c', m.
  - intros n o k x (c & m & -> & Hh) Hk Hx.
    destruct (put_holds c m k x Hh (entry_small vb (k, x) Hv (conj Hk Hx))) as (c' & Hp & Hh').
    exists (Some c'). split; [unfold onClient; by rewrite Hp|]. eauto.
  - intros n o k (c & m & -> & Hh) Hk. destruct (delete_holds c m k Hh Hk) as (c' & Hd & Hh').
    exists (Some c'). split; [unfold onClient; by rewrite Hd|]. eauto.
  - intros n o k (c & m & -> & Hh) Hk. destruct (scan_holds c m k Hh Hk) as (it & c' & Hsc & Hh' & Ho).
    exists (Some c'), (Some it). split; [unfold onClient; by rewrite Hsc|]. split; [eauto|]. cbn. lia.
  - intros n o it _ Hit. by apply rust_Next_total.
Defined.

(** A cell over one of the Rust engines. *)
Lemma rust_cell pow oob (c : CellConfig) w per cmd :
  RustKv.Open (RustKv.MkEng name) (cellConfig c (cellDir c)) os = inl cmd ->
  RustKv.k_rep s ∅ -> rust_fits (ValueBytes c) -> playable (RustKv.engMeta (RustKv.MkEng name)) c w per ->
  exists r, RunCell pow oob (fun _ => inl None) c w = Done r /\
    ran c w per (RustKv.engMeta (RustKv.MkEng name)) r.
Proof using All.
  intros Ho Hs Hv Hp. pose proof Hp as [_ Hc _ Hv0 _ _ _ _ _ _ _].
  destruct (@loadDataset_loads (ValueBytes c) _ _ _ rust_engine (rust_loads (ValueBytes c) Hv) pow oob 0
    (Some (RustKv.MkClient 0 s)) c) as (o & err & Hl & He); try done.
  { exists (RustKv.MkClient 0 s). split; [done|]. split; [done|apply map_Forall_empty|by split]. }
  destruct err; [done|]. destruct He as (m & (cl & -> & Hh) & _).
  apply (@RunCell_played _ _ _ rust_engine pow oob (fun _ => inl None) c (rust_sustains (ValueBytes c) Hv)
    None (Some (RustKv.MkClient 0 s)) (Some cl) w per); try done.
  - cbn. by rewrite Ho.
  - by exists cl, m.
  - intros n o (c0 & m0 & -> & Hh0). destruct (flush_holds c0 m0 Hh0) as (c' & Hf & Hh'). exists (Some c').
    split; [cbn; by rewrite Hf|]. by exists c', m0.
Qed.
End Driven.


