(* ===== verification/Builds.v ===== *)
(** * What a build of kvbench has compiled in

    The blank imports of cmd/kvbench/main.go and of the four files behind build
    tags (adapters_cgo.go, adapters_network.go, adapters_speedb.go,
    adapters_subprocess.go), and the [init] of each package they import, which
    registers its engines.  The engines themselves are an argument: [Engines]
    and [Builtin] have the ones the adapters make. *)

From S2P Require Import Prelude Codec Engine Harness HarnessProofs Adapter TxStore LsmStore Driven Builtin Engines RustDriven.
From S2P Require Bbolt Lmdb Libmdbx Buntdb Goleveldb Pebble Rocks Pogreb Badger Sqlite Kv Respnet RustKv.
Local Open Scope go_scope.

(** ** The packages *)

(** The factories the [init] functions hand to [Register]. *)
Record Factories := MkFactories {
  new_badger : unit -> AnyEngine;
  new_bbolt : unit -> AnyEngine;
  new_buntdb : unit -> AnyEngine;
  new_goleveldb : unit -> AnyEngine;
  new_kv : unit -> AnyEngine;
  new_pebble : unit -> AnyEngine;
  new_pogreb : unit -> AnyEngine;
  new_sqlite : unit -> AnyEngine;
  new_libmdbx : unit -> AnyEngine;
  new_lmdb : unit -> AnyEngine;
  new_rocks : Rocks.spec -> unit -> AnyEngine;
  new_resp : Respnet.Spec -> unit -> AnyEngine;
  new_rust : string -> unit -> AnyEngine }.

(** They make engines with their package's metadata. *)
Record genuine (f : Factories) : Prop := {
  gn_badger : any_meta (new_badger f tt) = Badger.engMeta;
  gn_bbolt : any_meta (new_bbolt f tt) = Bbolt.engMeta;
  gn_buntdb : any_meta (new_buntdb f tt) = Buntdb.engMeta;
  gn_goleveldb : any_meta (new_goleveldb f tt) = Goleveldb.engMeta;
  gn_kv : any_meta (new_kv f tt) = Kv.engMeta;
  gn_pebble : any_meta (new_pebble f tt) = Pebble.engMeta;
  gn_pogreb : any_meta (new_pogreb f tt) = Pogreb.engMeta;
  gn_sqlite : any_meta (new_sqlite f tt) = Sqlite.engMeta;
  gn_libmdbx : any_meta (new_libmdbx f tt) = Libmdbx.engMeta;
  gn_lmdb : any_meta (new_lmdb f tt) = Lmdb.engMeta;
  gn_rocks s : any_meta (new_rocks f s tt) = Rocks.engMeta s;
  gn_resp s : any_meta (new_resp f s tt) = Respnet.engMeta s;
  gn_rust n : any_meta (new_rust f n tt) = RustKv.engMeta (RustKv.MkEng n) }.

Section Inits.
Context (f : Factories).

Definition badger_init (r : Registry) : outcome Registry := Register r "badger" (new_badger f).
Definition bbolt_init (r : Registry) : outcome Registry := Register r "bbolt" (new_bbolt f).
Definition buntdb_init (r : Registry) : outcome Registry := Register r "buntdb" (new_buntdb f).
Definition goleveldb_init (r : Registry) : outcome Registry := Register r "goleveldb" (new_goleveldb f).
Definition kv_init (r : Registry) : outcome Registry := Register r "kv" (new_kv f).
Definition pebble_init (r : Registry) : outcome Registry := Register r "pebble" (new_pebble f).
Definition pogreb_init (r : Registry) : outcome Registry := Register r "pogreb" (new_pogreb f).
Definition sqlite_init (r : Registry) : outcome Registry := Register r "sqlite" (new_sqlite f).
Definition libmdbx_init (r : Registry) : outcome Registry := Register r "libmdbx" (new_libmdbx f).
Definition lmdb_init (r : Registry) : outcome Registry := Register r "lmdb" (new_lmdb f).
Definition rocksdb_init (r : Registry) : outcome Registry := Register r "rocksdb" (new_rocks f Rocks.rocksdb).
Definition speedb_init (r : Registry) : outcome Registry := Register r "speedb" (new_rocks f Rocks.speedb).
Definition aki_init (r : Registry) : outcome Registry := Register r "aki" (new_resp f Respnet.aki).
Definition dragonfly_init (r : Registry) : outcome Registry := Register r "dragonfly" (new_resp f Respnet.dragonfly).
Definition garnet_init (r : Registry) : outcome Registry := Register r "garnet" (new_resp f Respnet.garnet).
Definition kvredis_init (r : Registry) : outcome Registry := Register r "kv-redis" (new_resp f Respnet.kvredis).
Definition kvrocks_init (r : Registry) : outcome Registry := Register r "kvrocks" (new_resp f Respnet.kvrocks).
Definition redis_init (r : Registry) : outcome Registry := Register r "redis" (new_resp f Respnet.redis).
Definition valkey_init (r : Registry) : outcome Registry := Register r "valkey" (new_resp f Respnet.valkey).

Definition rustkv_init (r : Registry) : outcome Registry :=
  let* r := Register r "redb" (new_rust f "redb") in
  let* r := Register r "sled" (new_rust f "sled") in
  Register r "fjall" (new_rust f "fjall").
End Inits.

Inductive package :=
| Pbadger | Pbbolt | Pbuntdb | Pgoleveldb | Pinmem | Pkv | Pmemory | Ppebble | Ppogreb | Psqlite
| Plibmdbx | Plmdb | Procksdb | Pspeedb | Prustkv
| Paki | Pdragonfly | Pgarnet | Pkvredis | Pkvrocks | Predis | Pvalkey.

#[global] Instance package_eq_dec : EqDecision package.
Proof. solve_decision. Defined.

Definition init_of (f : Factories) (p : package) : Registry -> outcome Registry :=
  match p with
  | Pbadger => badger_init f | Pbbolt => bbolt_init f | Pbuntdb => buntdb_init f
  | Pgoleveldb => goleveldb_init f | Pinmem => inmem_init | Pkv => kv_init f | Pmemory => memory_init
  | Ppebble => pebble_init f | Ppogreb => pogreb_init f | Psqlite => sqlite_init f
  | Plibmdbx => libmdbx_init f | Plmdb => lmdb_init f | Procksdb => rocksdb_init f
  | Pspeedb => speedb_init f | Prustkv => rustkv_init f
  | Paki => aki_init f | Pdragonfly => dragonfly_init f | Pgarnet => garnet_init f
  | Pkvredis => kvredis_init f | Pkvrocks => kvrocks_init f | Predis => redis_init f | Pvalkey => valkey_init f
  end.

(** ** The import lists *)

Record Tags := MkTags {
  cgo_engines : bool;
  network_engines : bool;
  speedb_engines : bool;
  subprocess_engines : bool }.

Definition mainImports : list package :=
  [Pbadger; Pbbolt; Pbuntdb; Pgoleveldb; Pinmem; Pkv; Pmemory; Ppebble; Ppogreb; Psqlite].
Definition cgoImports : list package := [Plibmdbx; Plmdb; Procksdb].
Definition networkImports : list package := [Paki; Pdragonfly; Pgarnet; Pkvredis; Pkvrocks; Predis; Pvalkey].
Definition speedbImports : list package := [Pspeedb].
Definition subprocessImports : list package := [Prustkv].

(** The packages of a build. *)
Definition imports (t : Tags) : list package :=
  mainImports ++ (if cgo_engines t then cgoImports else []) ++ (if network_engines t then networkImports else []) ++
  (if speedb_engines t then speedbImports else []) ++ (if subprocess_engines t then subprocessImports else []).

(** The runtime runs the [init] of each package once, in an order of its own. *)
Fixpoint runInits (f : Factories) (order : list package) (r : Registry) : outcome Registry :=
  match order with
  | [] => Ok r
  | p :: order' => let* r := init_of f p r in runInits f order' r
  end.

(** ** What they register *)

(** The engines a package registers. *)
Definition regs (f : Factories) (p : package) : list (string * (unit -> AnyEngine)) :=
  match p with
  | Pbadger => [("badger", new_badger f)] | Pbbolt => [("bbolt", new_bbolt f)] | Pbuntdb => [("buntdb", new_buntdb f)]
  | Pgoleveldb => [("goleveldb", new_goleveldb f)] | Pkv => [("kv", new_kv f)] | Ppebble => [("pebble", new_pebble f)]
  | Ppogreb => [("pogreb", new_pogreb f)] | Psqlite => [("sqlite", new_sqlite f)]
  | Plibmdbx => [("libmdbx", new_libmdbx f)] | Plmdb => [("lmdb", new_lmdb f)]
  | Procksdb => [("rocksdb", new_rocks f Rocks.rocksdb)] | Pspeedb => [("speedb", new_rocks f Rocks.speedb)]
  | Paki => [("aki", new_resp f Respnet.aki)] | Pdragonfly => [("dragonfly", new_resp f Respnet.dragonfly)]
  | Pgarnet => [("garnet", new_resp f Respnet.garnet)] | Pkvredis => [("kv-redis", new_resp f Respnet.kvredis)]
  | Pkvrocks => [("kvrocks", new_resp f Respnet.kvrocks)] | Predis => [("redis", new_resp f Respnet.redis)]
  | Pvalkey => [("valkey", new_resp f Respnet.valkey)]
  | Prustkv => [("redb", new_rust f "redb"); ("sled", new_rust f "sled"); ("fjall", new_rust f "fjall")]
  | Pmemory => [("memory", fun _ => Any _ _ _ memoryEngine Memory.newEng)]
  | Pinmem =>
      [("devnull", fun _ => Any _ _ _ devnullEngine tt);
       ("faster", fun _ => Any _ _ _ (inmemEngine Faster.fasterMeta) Faster.newFaster);
       ("f2", fun _ => Any _ _ _ (inmemEngine F2.f2Meta) F2.newF2);
       ("otter", fun _ => Any _ _ _ (inmemEngine Otter.otterMeta) Otter.newOtter);
       ("swiss", fun _ => Any _ _ _ (inmemEngine Swiss.swissMeta) Swiss.newSwiss)]
  end%string.

(** The names alone. *)
Definition names (p : package) : list string :=
  match p with
  | Pbadger => ["badger"] | Pbbolt => ["bbolt"] | Pbuntdb => ["buntdb"] | Pgoleveldb => ["goleveldb"] | Pkv => ["kv"]
  | Ppebble => ["pebble"] | Ppogreb => ["pogreb"] | Psqlite => ["sqlite"] | Plibmdbx => ["libmdbx"]
  | Plmdb => ["lmdb"] | Procksdb => ["rocksdb"] | Pspeedb => ["speedb"] | Paki => ["aki"] | Pdragonfly => ["dragonfly"]
  | Pgarnet => ["garnet"] | Pkvredis => ["kv-redis"] | Pkvrocks => ["kvrocks"] | Predis => ["redis"]
  | Pvalkey => ["valkey"] | Prustkv => ["redb"; "sled"; "fjall"] | Pmemory => ["memory"]
  | Pinmem => ["devnull"; "faster"; "f2"; "otter"; "swiss"]
  end%string.

Lemma regs_names f p : (regs f p).*1 = names p.
Proof. by destruct p. Qed.

(** Registering a list of engines one after the other. *)
Fixpoint registerAll (l : list (string * (unit -> AnyEngine))) (r : Registry) : outcome Registry :=
  match l with
  | [] => Ok r
  | (n, g) :: l' => let* r := Register r n g in registerAll l' r
  end.

Lemma obind_ret {A} (m : outcome A) : obind m Ok = m.
Proof. by destruct m. Qed.

Lemma init_registers f p r : init_of f p r = registerAll (regs f p) r.
Proof.
  destruct p; try exact (eq_sym (obind_ret _)); cbn [init_of regs registerAll]; unfold inmem_init, rustkv_init;
    repeat match goal with |- context [obind (Register ?r ?n ?g) _] => destruct (Register r n g); cbn [obind] end; try done;
    by rewrite obind_ret.
Qed.

Lemma registerAll_app l1 l2 r : registerAll (l1 ++ l2) r = obind (registerAll l1 r) (registerAll l2).
Proof.
  revert r. induction l1 as [|[n g] l1 IH]; intros r; [done|]. cbn. destruct (Register r n g); cbn; auto.
Qed.

Lemma runInits_registers f order r : runInits f order r = registerAll (order ≫= regs f) r.
Proof.
  revert r. induction order as [|p order IH]; intros r; [done|]. cbn. rewrite registerAll_app, init_registers.
  destruct (registerAll (regs f p) r); cbn; auto.
Qed.

Lemma registerAll_ok l r :
  NoDup l.*1 -> (forall n, n ∈ l.*1 -> r !! n = None) -> registerAll l r = Ok (list_to_map l ∪ r).
Proof.
  revert r. induction l as [|[n g] l IH]; intros r Hnd Hfree; [cbn; by rewrite (left_id_L _ (∪))|].
  cbn in Hnd. apply NoDup_cons in Hnd as [Hn Hnd]. cbn [registerAll].
  rewrite Register_new by (apply Hfree; cbn; left). cbn [obind]. rewrite IH; [|done|].
  - f_equal. cbn. rewrite <- insert_union_l, <- insert_union_r; [done|]. by apply not_elem_of_list_to_map_1.
  - intros k Hk. rewrite lookup_insert_ne by (intros ->; done). apply Hfree. cbn. by right.
Qed.

(** An engine's metadata has the name it is registered under, and only the
    reference engines are marked as such. *)
Lemma reg_meta f p n g :
  genuine f -> (n, g) ∈ regs f p ->
  MetaName (any_meta (g tt)) = n /\ MetaReference (any_meta (g tt)) = bool_decide (n ∈ refNames).
Proof.
  intros Hf Hin. destruct p; cbn [regs] in Hin;
    repeat (apply elem_of_cons in Hin as [[= -> ->]|Hin]; [|]); try (by apply elem_of_nil in Hin);
    rewrite ?(gn_badger f Hf), ?(gn_bbolt f Hf), ?(gn_buntdb f Hf), ?(gn_goleveldb f Hf), ?(gn_kv f Hf),
      ?(gn_pebble f Hf), ?(gn_pogreb f Hf), ?(gn_sqlite f Hf), ?(gn_libmdbx f Hf), ?(gn_lmdb f Hf),
      ?(gn_rocks f Hf), ?(gn_resp f Hf), ?(gn_rust f Hf); vm_compute; done.
Qed.

Lemma imports_distinct t : NoDup (imports t ≫= names).
Proof. destruct t as [[] [] [] []]; apply (bool_decide_unpack _); vm_compute; exact Logic.I. Qed.

Lemma bind_fst {A} f (ps : list A) (g : A -> list (string * (unit -> AnyEngine))) :
  (forall p, (g p).*1 = f p) -> (ps ≫= g).*1 = ps ≫= f.
Proof.
  intros Hg. induction ps as [|p ps IH]; [done|].
  change ((p :: ps) ≫= g) with (g p ++ (ps ≫= g)). rewrite fmap_app, Hg, IH. done.
Qed.

(** The registry of a build, whatever the order of the [init] functions. *)
Definition built (f : Factories) (t : Tags) : Registry := list_to_map (imports t ≫= regs f).

Lemma built_distinct f t : NoDup (imports t ≫= regs f).*1.
Proof. rewrite (bind_fst names) by apply regs_names. apply imports_distinct. Qed.

Lemma runInits_built f t order : order ≡ₚ imports t -> runInits f order ∅ = Ok (built f t).
Proof.
  intros Ho. assert (order ≫= regs f ≡ₚ imports t ≫= regs f) as Hp by (by rewrite Ho).
  assert (NoDup (order ≫= regs f).*1) as Hnd.
  { rewrite (fmap_Permutation fst _ _ Hp). apply built_distinct. }
  rewrite runInits_registers, registerAll_ok; [|done|intros; apply lookup_empty].
  rewrite (right_id_L ∅ (∪)). unfold built. by rewrite (list_to_map_proper _ _ Hnd Hp).
Qed.

Lemma built_lookup f t n g : built f t !! n = Some g <-> exists p, p ∈ imports t /\ (n, g) ∈ regs f p.
Proof.
  unfold built. rewrite <- elem_of_list_to_map by apply built_distinct. rewrite list_elem_of_bind. split; intros (p & H1 & H2); exists p; by split.
Qed.

Lemma built_has f t n : Has (built f t) n = true <-> n ∈ imports t ≫= names.
Proof.
  unfold Has. rewrite bool_decide_eq_true, list_elem_of_bind. split.
  - intros [g Hg]. apply built_lookup in Hg as (p & Hp & Hin). exists p. split; [|done].
    rewrite <- (regs_names f). apply list_elem_of_fmap. by exists (n, g).
  - intros (p & Hn & Hp). rewrite <- (regs_names f), list_elem_of_fmap in Hn. destruct Hn as ([n' g] & -> & Hin).
    exists g. apply built_lookup. by exists p.
Qed.

Lemma built_default f t o n :
  genuine f -> iteration_of (built f t) o ->
  n ∈ DefaultNames any_meta (built f t) o <-> n ∈ imports t ≫= names /\ n ∉ refNames.
Proof.
  intros Hf Ho. destruct (registry_names_deterministic any_meta (built f t) o o Ho Ho) as (_ & _ & _ & _ & Hdef).
  rewrite Hdef, <- (built_has f). unfold Has. rewrite bool_decide_eq_true. split.
  - intros (g & Hg & Hr). split; [by eexists|]. apply built_lookup in Hg as (p & _ & Hin).
    destruct (reg_meta f p n g Hf Hin) as [_ Hm]. rewrite Hm, bool_decide_eq_false in Hr. done.
  - intros [[g Hg] Hn]. exists g. split; [done|]. apply built_lookup in Hg as (p & _ & Hin).
    destruct (reg_meta f p n g Hf Hin) as [_ Hm]. rewrite Hm. by apply bool_decide_eq_false_2.
Qed.

(** The default names of a build are its names but the reference engines,
    sorted. *)
Lemma built_default_names f t o :
  genuine f -> iteration_of (built f t) o ->
  DefaultNames any_meta (built f t) o = sort_strings (filter (fun n => n ∉ refNames) (imports t ≫= names)).
Proof.
  intros Hf Ho. assert (DefaultNames any_meta (built f t) o ≡ₚ filter (fun n => n ∉ refNames) (imports t ≫= names)) as Hp.
  { apply NoDup_Permutation.
    - unfold DefaultNames. rewrite sort_strings_perm, default_loop_filter. cbn. apply NoDup_filter.
      rewrite Ho. apply NoDup_fst_map_to_list.
    - apply NoDup_filter, imports_distinct.
    - intros n. rewrite (built_default f t o n Hf Ho), list_elem_of_filter. tauto. }
  unfold DefaultNames in *. rewrite sort_strings_perm in Hp. by apply sort_strings_unique.
Qed.


(** The factories of the adapters, over the stores in memory. *)
Definition demoFactories : Factories := {|
  new_badger _ := Any _ _ _ (drive showErr (badgerView (Tx := memTx) (It := Badger.memBIt)
    (fun _ _ => inl (MkMemDB ∅ false)) (fun db => (db, None)) (fun _ => (0, 0)))) None;
  new_bbolt _ := Any _ _ _ (drive showErr demoBbolt) None;
  new_buntdb _ := Any _ _ _ (drive showErr (buntdbView (Tx := memTx) (fun db => (db, None)) (MkMemDB ∅ false) (fun _ => None))) None;
  new_goleveldb _ := Any _ _ _ (drive showErr (goleveldbView (It := memIt) (fun _ _ => inl demo_lsm))) None;
  new_kv _ := Any _ _ _ (drive showErr (kvView Kv.memKv_open)) None;
  new_pebble _ := Any _ _ _ (drive showErr (pebbleView (It := memIt) (fun _ _ => inl demo_lsm) (fun db => (db, None)) (fun _ => []))) None;
  new_pogreb _ := Any _ _ _ (drive showErr demoPogreb) None;
  new_sqlite _ := Any _ _ _ (drive showErr (sqliteView (Tx := Sqlite.memSx) (fun a b => (a +:+ "/" +:+ b)%string)
    (Sqlite.MkMemSql ∅ false false) (fun _ => None))) None;
  new_libmdbx _ := Any _ _ _ (drive showErr (libmdbxView (Tx := memTx) (Cur := memCur) (fun db => (db, None)) (MkMemDB ∅ false) (fun _ => None))) None;
  new_lmdb _ := Any _ _ _ (drive showErr (lmdbView (Tx := memTx) (Cur := memCur) (fun db => (db, None)) (MkMemDB ∅ false) (fun _ => None) (fun _ => true))) None;
  new_rocks s _ := Any _ _ _ (drive showErr (rocksView (It := memSeek) s (fun _ => inl demo_lsm) (fun db => (db, None)))) None;
  new_resp s _ := Any _ _ _ (drive showErr (respView s (MkRespHost 1 (Some []) None false 0 0 (fun _ => true) (fun _ => 0))
    (Respnet.MkMemResp ∅ None))) None;
  new_rust n _ := Any _ _ _ (rustEngine n (RustKv.MkOs (Some "kvbench-rs"%string) None None None) (∅ : gmap bytes bytes)) None |}.

