(* ===== verification/RunProc.v ===== *)
(** * The run command as a process (cmd/kvbench/main.go)

    [cmdRun] with everything it does to the world outside: the lines it prints,
    the messages on standard error, the files it writes or fails to write, and
    the three ways it ends early: [os.Exit] on a durability it does not know or
    on an output directory it cannot make, and the exec of [--cpu-split].  It is
    written in a small process monad; [run_process] ties it to the pure
    [Cli.cmdRun]. *)

From S2P Require Import Prelude Float64 Codec Engine Workload Hdr Harness Text Cpuset Cli Report Commands.
Local Open Scope go_scope.

(** ** Processes *)

(** What the process has done so far. *)
Record console := MkConsole {
  co_out : bytes;
  co_err : bytes;
  co_dir : gmap bytes Result }.

(** How it ends early. *)
Inductive fin :=
| Exit (code : Z)
| Exec (argv : list bytes)
| Crashed.

Definition process (A : Type) : Type := console -> console * (A + fin).

Definition pret {A} (a : A) : process A := fun s => (s, inl a).
Definition pbind {A B} (m : process A) (k : A -> process B) : process B := fun s =>
  match m s with
  | (s', inl a) => k a s'
  | (s', inr e) => (s', inr e)
  end.
Definition pend {A} (e : fin) : process A := fun s => (s, inr e).
Definition printP (b : bytes) : process unit := fun s => (MkConsole (co_out s ++ b) (co_err s) (co_dir s), inl tt).
Definition eprintP (b : bytes) : process unit := fun s => (MkConsole (co_out s) (co_err s ++ b) (co_dir s), inl tt).
Definition storeP (r : Result) : process unit := fun s =>
  (MkConsole (co_out s) (co_err s) (writeResult (co_dir s) r), inl tt).

Declare Scope proc_scope.
Delimit Scope proc_scope with proc.
Notation "'let!' x := m 'in' k" := (pbind m (fun x => k))
  (at level 10, x pattern, m at level 100, k at level 200, right associativity) : proc_scope.
Local Open Scope proc_scope.

(** What the process is given. *)
Record host := MkHost {
  h_quote : bytes -> bytes;                         (** the verb [%q] *)
  h_has : string -> bool;                           (** [engine.Has] *)
  h_defaults : list string;                         (** [engine.DefaultNames] *)
  h_taskset : bool;                                 (** [cpuset.Available] *)
  h_split : bytes -> bytes -> split_result;         (** [cpuset.Split] *)
  h_splitErr : bytes;                               (** the error it returned, if any *)
  h_gomaxprocs : Z;                                 (** [GOMAXPROCS] before it *)
  h_mkdirAll : bytes -> option bytes;               (** the error of making the directory *)
  h_dataRoot : string;
  h_write : nat -> bytes -> option bytes;           (** the error of writing the file of a cell *)
  h_fmt0 : float64 -> bytes;                        (** the verb [%.0f] *)
  h_duration : Z -> bytes;                          (** [Duration.String] *)
  h_took : bytes }.

Section Process.
Context (h : host).

(** ** Flags *)

Fixpoint normalizeDurabilityP (vals out : list bytes) : process (list bytes) :=
  match vals with
  | [] => pret out
  | v :: vals' =>
      let u := ToUpper (TrimSpace v) in
      if bool_decide (u = txt "DEFAULT") || bool_decide (u = txt "FULL") then normalizeDurabilityP vals' (out ++ [u])
      else if bool_decide (u = txt "OFF") || bool_decide (u = txt "NORMAL") then
        let! _ := eprintP (txt "durability " ++ h_quote h v ++
          txt " is no longer a regime; use DEFAULT (each engine as it ships) or FULL (per-commit fsync)" ++ newline) in
        pend (Exit 2)
      else
        let! _ := eprintP (txt "unknown durability " ++ h_quote h v ++ txt "; use DEFAULT or FULL" ++ newline) in
        pend (Exit 2)
  end.

Definition set_flagP (name v : bytes) (f : runFlags) : process runFlags :=
  if bool_decide (name = txt "--durability")
  then let! d := normalizeDurabilityP (splitCSV v) [] in pret (upd_durability f d)
  else pret (default f (set_flag name v f)).

Fixpoint parseP (args : list bytes) (f : runFlags) : process runFlags :=
  match args with
  | [] => pret f
  | a :: rest =>
      if takes_value a then
        match rest with
        | [] => set_flagP a [] f
        | v :: rest' => let! f := set_flagP a v f in parseP rest' f
        end
      else if bool_decide (a = txt "--cpu-split") then parseP rest (upd_split f true)
      else let! _ := eprintP (txt "unknown flag " ++ h_quote h a ++ newline) in parseP rest f
  end.

(** ** The core split *)

Definition splitLine (server client : bytes) (procs : option Z) : bytes :=
  txt "cpu-split: server cores " ++ server ++ txt ", client cores " ++ client ++ txt " (GOMAXPROCS=" ++
  Itoa (default (h_gomaxprocs h) procs) ++ txt ")" ++ newline.

Definition resolveCPUSplitP (f : runFlags) : process bytes :=
  if negb (cpuSplit f) then pret []
  else if negb (h_taskset h) then
    let! _ := eprintP (txt "--cpu-split needs Linux with taskset on PATH; running co-located instead" ++ newline) in pret []
  else
    match h_split h (cpuServer f) (cpuClient f) with
    | Failed => let! _ := eprintP (txt "--cpu-split: " ++ h_splitErr h ++ txt "; running co-located instead" ++ newline) in pret []
    | Execed argv _ => pend (Exec argv)
    | Returned server client active procs =>
        if negb active then pret [] else let! _ := printP (splitLine server client procs) in pret server
    end.

(** ** The cells *)

(** The [d]-th cell's file; when the write fails the run goes on. *)
Definition writeResultP (d : nat) (r : Result) : process unit :=
  match h_write h d (resultName r) with
  | None => storeP r
  | Some err => eprintP (txt "write result " ++ h_quote h (resultName r) ++ txt ": " ++ err ++ newline)
  end.

Context (run : nat -> CellConfig -> nat -> Result).

(** The innermost loop's body; [done] counts the cells before it. *)
Definition runCellP (f : runFlags) (done : nat) (c : CellConfig) : process Result :=
  match runReps (run done) c (reps f) with
  | Ok res =>
      let! _ := writeResultP done res in
      let! _ := printP (progressLine (h_fmt0 h) (h_duration h) (cell_total f) (Z.of_nat done + 1) c res) in
      pret res
  | _ => pend Crashed
  end.

Fixpoint runCellsP (f : runFlags) (cs : list CellConfig) (done : nat) (all : list Result)
    : process (nat * list Result) :=
  match cs with
  | [] => pret (done, all)
  | c :: cs' => let! res := runCellP f done c in runCellsP f cs' (S done) (all ++ [res])
  end.

(** The cells of the loops inside the one over the engines. *)
Definition engineCells (f : runFlags) (runID server : string) (en : bytes) : list CellConfig :=
  cells (fun _ => true) (upd_engines f [en]) runID (h_dataRoot h) server.

(** The loop over the engines; the loops inside it print nothing between two
    cells. *)
Fixpoint runEnginesP (f : runFlags) (runID server : string) (ens : list bytes) (done : nat) (all : list Result)
    : process (list Result) :=
  match ens with
  | [] => pret all
  | en :: ens' =>
      if negb (h_has h (str en)) then
        let! _ := eprintP (txt "skip " ++ en ++ txt ": not built into this binary" ++ newline) in
        runEnginesP f runID server ens' done all
      else
        let! da := runCellsP f (engineCells f runID server en) done all in
        runEnginesP f runID server ens' da.1 da.2
  end.

(** ** The command *)

Definition cmdRunP (args : list bytes) : process unit :=
  let! f := parseP args defaultFlags in
  let f := complete (h_defaults h) f in
  let! server := resolveCPUSplitP f in
  let f := upd_out f (outDir f) in
  match h_mkdirAll h (out f) with
  | Some err => let! _ := eprintP (txt "create out dir " ++ h_quote h (out f) ++ txt ": " ++ err ++ newline) in pend (Exit 1)
  | None =>
      let runID := str (txt "run-" ++ Itoa (seed f)) in
      let! all := runEnginesP f runID (str server) (engines f) 0 [] in
      printP (newline ++ txt "done: " ++ Itoa (len all) ++ txt " cells in " ++ h_took h ++ txt " -> " ++ out f ++ newline)
  end.
End Process.

(** ** What the process does *)

Section Effects.
Context (h : host).
Implicit Types (s : console) (f : runFlags).

(** The messages for flags that do not exist. *)
Fixpoint flagNotes (args : list bytes) : bytes :=
  match args with
  | [] => []
  | a :: rest =>
      if takes_value a then match rest with [] => [] | _ :: rest' => flagNotes rest' end
      else if bool_decide (a = txt "--cpu-split") then flagNotes rest
      else txt "unknown flag " ++ h_quote h a ++ newline ++ flagNotes rest
  end.

(** More on standard error. *)
Definition noted (s : console) (msg : bytes) : console := MkConsole (co_out s) (co_err s ++ msg) (co_dir s).

Lemma noted_nil s : noted s [] = s.
Proof. destruct s. unfold noted. cbn. by rewrite app_nil_r. Qed.

Lemma noted_app s a b : noted (noted s a) b = noted s (a ++ b).
Proof. unfold noted. cbn. by rewrite app_assoc. Qed.

Lemma pbind_eprint {A} msg (k : process A) s : pbind (eprintP msg) (fun _ => k) s = k (noted s msg).
Proof. done. Qed.

(** A process that goes on with [a], or ends with status 2 and a message. *)
Definition goes {A} (o : option A) (msg : bytes) (r : console * (A + fin)) (s : console) : Prop :=
  match o with
  | Some a => r = (noted s msg, inl a)
  | None => exists m, m <> [] /\ r = (noted s m, inr (Exit 2))
  end.

Lemma normalizeDurabilityP_goes vals : forall acc s,
  goes (app acc <$> normalizeDurability vals) [] (normalizeDurabilityP h vals acc s) s.
Proof.
  induction vals as [|v vals IH]; intros acc s; cbn [normalizeDurability normalizeDurabilityP].
  { cbn. by rewrite app_nil_r, noted_nil. }
  destruct (_ || _).
  - specialize (IH (acc ++ [ToUpper (TrimSpace v)]) s). destruct (normalizeDurability vals); cbn in *; [|done].
    by rewrite <- app_assoc in IH.
  - destruct (_ || _); rewrite pbind_eprint; eexists; (split; [|reflexivity]); done.
Qed.

Lemma set_flagP_goes name v f s : goes (set_flag name v f) [] (set_flagP h name v f s) s.
Proof.
  unfold set_flagP. case_bool_decide as Hn.
  - subst name. assert (set_flag (txt "--durability") v f =
      (d ← normalizeDurability (splitCSV v); Some (upd_durability f d))) as -> by reflexivity.
    pose proof (normalizeDurabilityP_goes (splitCSV v) [] s) as Hd. unfold pbind.
    destruct (normalizeDurability (splitCSV v)) as [d|]; cbn in *.
    + by rewrite Hd.
    + destruct Hd as (m & Hm & ->). by exists m.
  - assert (exists g, set_flag name v f = Some g) as [g Hg].
    { unfold set_flag. rewrite (bool_decide_eq_false_2 (name = txt "--durability")) by done.
      repeat case_bool_decide; by eexists. }
    rewrite Hg. cbn. by rewrite noted_nil.
Qed.

Lemma parseP_goes args : forall f s, goes (parse args f) (flagNotes args) (parseP h args f s) s.
Proof.
  induction args as [args IH] using (induction_ltof1 _ length). unfold ltof in IH. intros f s.
  destruct args as [|a rest]; cbn [parse parseP flagNotes]; [cbn; by rewrite noted_nil|].
  destruct (takes_value a).
  - destruct rest as [|v rest]; [by apply set_flagP_goes|]. pose proof (set_flagP_goes a v f s) as Hs. unfold pbind.
    destruct (set_flag a v f) as [g|]; cbn in Hs |- *.
    + rewrite Hs, noted_nil. apply IH. cbn. lia.
    + destruct Hs as (m & Hm & ->). by exists m.
  - case_bool_decide; [apply IH; cbn; lia|]. rewrite pbind_eprint.
    set (msg := txt "unknown flag " ++ h_quote h a ++ newline).
    pose proof (IH rest ltac:(cbn; lia) f (noted s msg)) as Hr.
    replace (txt "unknown flag " ++ h_quote h a ++ newline ++ flagNotes rest) with (msg ++ flagNotes rest)
      by (unfold msg; by rewrite !app_assoc).
    destruct (parse rest f); cbn in Hr |- *; [by rewrite noted_app in Hr|].
    destruct Hr as (m & Hm & Hr). rewrite noted_app in Hr. exists (msg ++ m). split; [|done].
    intros E. by apply app_nil in E as [_ ->].
Qed.
End Effects.

(** ** The cells *)

Section Cells.
Context (h : host) (run : nat -> CellConfig -> nat -> Result).
Implicit Types (s : console) (f : runFlags).

(** The results of a list of cells, [done] cells being before them. *)
Fixpoint cellResults (reps : Z) (cs : list CellConfig) (done : nat) : list Result :=
  match cs with
  | [] => []
  | c :: cs' =>
      match runReps (run done) c reps with Ok r => r | _ => zeroResult end :: cellResults reps cs' (S done)
  end.

Lemma runReps_done done c reps :
  runReps (run done) c reps = Ok (match runReps (run done) c reps with Ok r => r | _ => zeroResult end).
Proof. by destruct (runReps_identity (run done) c reps) as (r & o & -> & _). Qed.

Lemma runCells_results reps cs : forall done all dir,
  runCells run reps cs done all dir =
  Ok (all ++ cellResults reps cs done, foldl writeResult dir (cellResults reps cs done)).
Proof.
  induction cs as [|c cs IH]; intros done all dir; cbn [runCells cellResults]; [by rewrite app_nil_r|].
  rewrite runReps_done. cbn [obind]. rewrite IH, <- app_assoc. done.
Qed.

Lemma cellResults_app reps cs1 cs2 done :
  cellResults reps (cs1 ++ cs2) done = cellResults reps cs1 done ++ cellResults reps cs2 (done + length cs1).
Proof.
  revert done. induction cs1 as [|c cs1 IH]; intros done; cbn [app cellResults length]; [by rewrite Nat.add_0_r|].
  rewrite IH. replace (done + S (length cs1))%nat with (S done + length cs1)%nat by lia. done.
Qed.

Lemma cellResults_length reps cs done : length (cellResults reps cs done) = length cs.
Proof. revert done. induction cs as [|c cs IH]; intros done; cbn [cellResults length]; by rewrite ?IH. Qed.

(** The results whose file was written, and the messages of the others. *)
Fixpoint kept (done : nat) (rs : list Result) : list Result :=
  match rs with
  | [] => []
  | r :: rs' => (if h_write h done (resultName r) is Some _ then [] else [r]) ++ kept (S done) rs'
  end.

Fixpoint writeNotes (done : nat) (rs : list Result) : bytes :=
  match rs with
  | [] => []
  | r :: rs' =>
      (if h_write h done (resultName r) is Some err
       then txt "write result " ++ h_quote h (resultName r) ++ txt ": " ++ err ++ newline else []) ++
      writeNotes (S done) rs'
  end.

Lemma kept_app rs1 rs2 done : kept done (rs1 ++ rs2) = kept done rs1 ++ kept (done + length rs1) rs2.
Proof.
  revert done. induction rs1 as [|r rs1 IH]; intros done; cbn [app kept length]; [by rewrite Nat.add_0_r|].
  rewrite IH, <- app_assoc. replace (done + S (length rs1))%nat with (S done + length rs1)%nat by lia. done.
Qed.

Lemma progress_app total cs1 cs2 rs1 rs2 done :
  length cs1 = length rs1 ->
  progress (h_fmt0 h) (h_duration h) total done (cs1 ++ cs2) (rs1 ++ rs2) =
  progress (h_fmt0 h) (h_duration h) total done cs1 rs1 ++
  progress (h_fmt0 h) (h_duration h) total (done + len cs1) cs2 rs2.
Proof.
  revert done rs1. induction cs1 as [|c cs1 IH]; intros done [|r rs1] Hl; cbn in Hl; try discriminate; cbn [app progress].
  - change (len []) with 0. by rewrite Z.add_0_r.
  - injection Hl as Hl. rewrite IH, <- app_assoc by done. rewrite len_cons. replace (done + (1 + len cs1)) with (done + 1 + len cs1) by lia. done.
Qed.

(** The console after the cells [cs]. *)
Definition afterCells f (cs : list CellConfig) (done : nat) (notes : bytes) s : console :=
  let rs := cellResults (reps f) cs done in
  MkConsole (co_out s ++ progress (h_fmt0 h) (h_duration h) (cell_total f) (Z.of_nat done) cs rs) (co_err s ++ notes)
    (foldl writeResult (co_dir s) (kept done rs)).

Lemma afterCells_app f cs1 cs2 done n1 n2 s :
  afterCells f cs2 (done + length cs1) n2 (afterCells f cs1 done n1 s) = afterCells f (cs1 ++ cs2) done (n1 ++ n2) s.
Proof.
  unfold afterCells. cbn [co_out co_err co_dir]. rewrite cellResults_app, kept_app, foldl_app, !cellResults_length.
  rewrite progress_app by (by rewrite cellResults_length). rewrite !app_assoc. unfold len. do 3 f_equal. lia.
Qed.

Lemma runCellP_after f done c s :
  runCellP h run f done c s =
  (afterCells f [c] done (writeNotes done (cellResults (reps f) [c] done)) s,
   inl (match runReps (run done) c (reps f) with Ok r => r | _ => zeroResult end)).
Proof.
  unfold runCellP, afterCells. cbn [cellResults]. rewrite (runReps_done done c (reps f)). cbn [kept writeNotes progress].
  set (r := match runReps (run done) c (reps f) with Ok r => r | _ => zeroResult end).
  unfold writeResultP, pbind. rewrite !app_nil_r. by destruct (h_write h done (resultName r)); cbn; rewrite ?app_nil_r.
Qed.

Lemma writeNotes_app rs1 rs2 done : writeNotes done (rs1 ++ rs2) = writeNotes done rs1 ++ writeNotes (done + length rs1) rs2.
Proof.
  revert done. induction rs1 as [|r rs1 IH]; intros done; cbn [app writeNotes length]; [by rewrite Nat.add_0_r|].
  rewrite IH, <- app_assoc. replace (done + S (length rs1))%nat with (S done + length rs1)%nat by lia. done.
Qed.

Lemma runCellsP_after f cs : forall done all s,
  runCellsP h run f cs done all s =
  (afterCells f cs done (writeNotes done (cellResults (reps f) cs done)) s,
   inl ((done + length cs)%nat, all ++ cellResults (reps f) cs done)).
Proof.
  induction cs as [|c cs IH]; intros done all s; cbn [runCellsP].
  { unfold afterCells, pret. destruct s. cbn. by rewrite !app_nil_r, Nat.add_0_r. }
  unfold pbind. rewrite runCellP_after. cbv beta iota. rewrite IH, <- Nat.add_1_r. f_equal.
  - change (afterCells f cs (done + length [c]) (writeNotes (done + 1) (cellResults (reps f) cs (done + 1)))
      (afterCells f [c] done (writeNotes done (cellResults (reps f) [c] done)) s) =
      afterCells f ([c] ++ cs) done (writeNotes done (cellResults (reps f) ([c] ++ cs) done)) s).
    rewrite afterCells_app, cellResults_app, writeNotes_app, cellResults_length. done.
  - cbn [cellResults length]. rewrite <- app_assoc, Nat.add_1_r. by replace (done + S (length cs))%nat with (S done + length cs)%nat by lia.
Qed.

(** The messages of the engines' loop: engines that are not built in, and files
    that could not be written. *)
Fixpoint engineNotes f (runID server : string) (ens : list bytes) (done : nat) : bytes :=
  match ens with
  | [] => []
  | en :: ens' =>
      if negb (h_has h (str en)) then
        txt "skip " ++ en ++ txt ": not built into this binary" ++ newline ++ engineNotes f runID server ens' done
      else
        let cs := engineCells h f runID server en in
        writeNotes done (cellResults (reps f) cs done) ++ engineNotes f runID server ens' (done + length cs)
  end.

Definition builtEngines (ens : list bytes) : list bytes := filter (fun en => h_has h (str en) = true) ens.

Lemma afterCells_nil f done s : afterCells f [] done [] s = s.
Proof. destruct s. unfold afterCells. cbn. by rewrite !app_nil_r. Qed.

Lemma runEnginesP_after f runID server ens : forall done all s,
  let cs := builtEngines ens ≫= engineCells h f runID server in
  runEnginesP h run f runID server ens done all s =
  (afterCells f cs done (engineNotes f runID server ens done) s, inl (all ++ cellResults (reps f) cs done)).
Proof.
  induction ens as [|en ens IH]; intros done all s; cbn [runEnginesP engineNotes].
  { unfold pret. cbn [builtEngines]. change (builtEngines [] ≫= engineCells h f runID server) with (@nil CellConfig).
    by rewrite afterCells_nil, app_nil_r. }
  unfold builtEngines. rewrite filter_cons. destruct (h_has h (str en)) eqn:Eh; cbn [negb].
  - rewrite decide_True by done. fold (builtEngines ens).
    change ((en :: builtEngines ens) ≫= engineCells h f runID server)
      with (engineCells h f runID server en ++ (builtEngines ens ≫= engineCells h f runID server)).
    unfold pbind. rewrite runCellsP_after. cbn [fst snd]. rewrite IH, afterCells_app, cellResults_app, app_assoc. done.
  - rewrite decide_False by done. fold (builtEngines ens). rewrite pbind_eprint, IH. f_equal.
    unfold afterCells, noted. cbn [co_out co_err co_dir]. by rewrite <- !app_assoc.
Qed.

Lemma engineNotes_out f o runID server ens : forall done,
  engineNotes (upd_out f o) runID server ens done = engineNotes f runID server ens done.
Proof.
  induction ens as [|en ens IH]; intros d; [reflexivity|]. cbn [engineNotes].
  destruct (negb _); rewrite IH; reflexivity.
Qed.

Lemma cells_engines f runID server :
  cells (h_has h) f runID (h_dataRoot h) server = builtEngines (engines f) ≫= engineCells h f runID server.
Proof.
  unfold cells at 1, builtEngines. apply list_bind_ext; [|done]. intros en. unfold engineCells, cells.
  change (engines (upd_engines f [en])) with [en]. rewrite filter_cons_True, filter_nil by done. cbn [mbind list_bind].
  by rewrite app_nil_r.
Qed.
End Cells.

(** ** The split *)

(** What [resolveCPUSplit] prints, on standard output and on standard error. *)
Definition splitNotes (h : host) (f : runFlags) : bytes * bytes :=
  if negb (cpuSplit f) then ([], [])
  else if negb (h_taskset h)
  then ([], txt "--cpu-split needs Linux with taskset on PATH; running co-located instead" ++ newline)
  else
    match h_split h (cpuServer f) (cpuClient f) with
    | Failed => ([], txt "--cpu-split: " ++ h_splitErr h ++ txt "; running co-located instead" ++ newline)
    | Returned server client true procs => (splitLine h server client procs, [])
    | _ => ([], [])
    end.

(** The program it replaces the process with, if any. *)
Definition execs (h : host) (f : runFlags) : option (list bytes) :=
  if cpuSplit f && h_taskset h then
    match h_split h (cpuServer f) (cpuClient f) with Execed argv _ => Some argv | _ => None end
  else None.

Lemma resolveCPUSplitP_spec h f s :
  resolveCPUSplitP h f s =
  match execs h f with
  | Some argv => (s, inr (Exec argv))
  | None => (MkConsole (co_out s ++ (splitNotes h f).1) (co_err s ++ (splitNotes h f).2) (co_dir s),
             inl (resolveCPUSplit f (h_taskset h) (h_split h)))
  end.
Proof.
  destruct s as [o e d]. unfold resolveCPUSplitP, execs, splitNotes, resolveCPUSplit.
  destruct (cpuSplit f), (h_taskset h); cbn; rewrite ?app_nil_r; try done.
  destruct (h_split h (cpuServer f) (cpuClient f)) as [server client [] procs| |argv ?]; cbn; by rewrite ?app_nil_r.
Qed.

(** ** Claims *)

(** A process that has done nothing. *)
Definition fresh : console := MkConsole [] [] ∅.

(** C37: the run command as a process.  A durability it does not know ends it
    with status 2 and a message, before anything else; a core split that takes
    effect replaces it; an output directory that cannot be made ends it with
    status 1 and a message.  In none of these has it run a cell, printed a
    result or written a file.  Otherwise it ends normally with the results of
    [cmdRun]: it has printed one line per cell and the summary, and its
    directory holds the results whose files could be written, all of them when
    no write failed. *)
Theorem run_process h run args :
  match parse args defaultFlags with
  | None => exists msg, msg <> [] /\ cmdRunP h run args fresh = (MkConsole [] msg ∅, inr (Exit 2))
  | Some f0 =>
      let f := complete (h_defaults h) f0 in
      let runID := str (txt "run-" ++ Itoa (seed f)) in
      let server := str (resolveCPUSplit f (h_taskset h) (h_split h)) in
      let cs := cells (h_has h) f runID (h_dataRoot h) server in
      match execs h f with
      | Some argv => cmdRunP h run args fresh = (MkConsole [] (flagNotes h args) ∅, inr (Exec argv))
      | None =>
          let notes := flagNotes h args ++ (splitNotes h f).2 in
          match h_mkdirAll h (outDir f) with
          | Some err => cmdRunP h run args fresh =
              (MkConsole (splitNotes h f).1
                 (notes ++ txt "create out dir " ++ h_quote h (outDir f) ++ txt ": " ++ err ++ newline) ∅, inr (Exit 1))
          | None => exists all dir,
              cmdRun (h_has h) (h_defaults h) (h_taskset h) (h_split h) (h_dataRoot h) run args = Some (Ok (all, dir)) /\
              cmdRunP h run args fresh =
                (MkConsole ((splitNotes h f).1 ++ runStdout (h_fmt0 h) (h_duration h) f cs all (h_took h))
                   (notes ++ engineNotes h run f runID server (engines f) 0) (foldl writeResult ∅ (kept h 0 all)), inl tt) /\
              ((forall d n, h_write h d n = None) -> foldl writeResult ∅ (kept h 0 all) = dir)
          end
      end
  end.
Proof.
  pose proof (parseP_goes h args defaultFlags fresh) as Hp. unfold cmdRunP, pbind.
  destruct (parse args defaultFlags) as [f0|] eqn:Eparse; cbn [goes] in Hp.
  2: { destruct Hp as (m & Hm & ->). by exists m. }
  rewrite Hp. cbv beta iota zeta. set (f := complete (h_defaults h) f0). rewrite resolveCPUSplitP_spec.
  destruct (execs h f) as [argv|]; [done|]. cbn [co_out co_err co_dir noted fresh app].
  change (out (upd_out f (outDir f))) with (outDir f). destruct (h_mkdirAll h (outDir f)) as [err|]; [done|].
  set (runID := str (txt "run-" ++ Itoa (seed f))). set (server := str (resolveCPUSplit f (h_taskset h) (h_split h))).
  exists (cellResults run (reps f) (cells (h_has h) f runID (h_dataRoot h) server) 0),
    (foldl writeResult ∅ (cellResults run (reps f) (cells (h_has h) f runID (h_dataRoot h) server) 0)). split_and!.
  - unfold cmdRun. rewrite Eparse. cbn [mbind option_bind]. fold f runID server. by rewrite runCells_results.
  - change (seed (upd_out f (outDir f))) with (seed f). fold runID.
    change (engines (upd_out f (outDir f))) with (engines f). rewrite runEnginesP_after.
    change (engineCells h (upd_out f (outDir f)) runID server) with (engineCells h f runID server).
    rewrite <- cells_engines, engineNotes_out. unfold printP, afterCells, runStdout. cbn [co_out co_err co_dir app].
    by rewrite <- !app_assoc.
  - intros Hw. f_equal. generalize 0%nat at 1 as d.
    induction (cellResults run (reps f) (cells (h_has h) f runID (h_dataRoot h) server) 0) as [|r rs IH]; intros d; [done|].
    cbn [kept]. rewrite Hw, IH. done.
Qed.
