(* ===== verification/LocktaxRows.v ===== *)
(** * The guarded rows of the lock-cost microbenchmark (cmd/locktax/main.go)

    [Locktax.v] has the tables and what one goroutine probes; this file has the
    guards.  A parallel row is a machine whose steps are the steps of its
    goroutines in any order: draw a key and acquire the guard (a step that
    changes nothing while a mutex is held by another goroutine), probe, release.
    The theorems say that under every schedule the locks are never released
    when they are not held, exclude what they should exclude and cannot
    deadlock, that a schedule that keeps running every goroutine ends, and that
    the goroutines have then made the probes of the unguarded loop; and what
    the whole program prints. *)

From Stdlib Require Import SpecFloat.
From S2P Require Import Prelude Float64 Codec OpenAddr Inmem Locktax Text Commands.
Local Open Scope go_scope.

(** ** The machine *)

(** The closures the four sharded rows are called with. *)
Inductive guard := RLocked | Locked | Atomic | Global.

#[export] Instance guard_eq_dec : EqDecision guard.
Proof. solve_decision. Defined.

(** [rw] is the number of read locks held; no row takes its write lock. *)
Record lockedShard := MkShard { ls_rw : nat; ls_mu : bool; ls_t : tab }.

Inductive phase := Ready | Holding (key : Z) | Probed (key : Z) (hit : bool).

Record goroutine := MkGor { go_x : Z; go_left : nat; go_phase : phase; go_hits : list bool }.

(** [r_mu] is the global mutex [mu] of [main]. *)
Record row := MkRow { r_mu : bool; r_sh : list lockedShard; r_go : list goroutine }.

(** The way into the guarded section; [None] when the goroutine has to wait. *)
Definition acquire (g : guard) (key : Z) (m : bool) (sh : list lockedShard)
    : outcome (option (bool * list lockedShard)) :=
  let* s := index sh (shardOf key) in
  match g with
  | RLocked =>
      let* sh' := update sh (shardOf key) (MkShard (S (ls_rw s)) (ls_mu s) (ls_t s)) in Ok (Some (m, sh'))
  | Locked =>
      if ls_mu s then Ok None
      else let* sh' := update sh (shardOf key) (MkShard (ls_rw s) true (ls_t s)) in Ok (Some (m, sh'))
  | Atomic => Ok (Some (m, sh))
  | Global => if m then Ok None else Ok (Some (true, sh))
  end.

(** Releasing a lock that is not held is a fatal error of [sync]. *)
Definition release (g : guard) (key : Z) (m : bool) (sh : list lockedShard) : outcome (bool * list lockedShard) :=
  let* s := index sh (shardOf key) in
  match g with
  | RLocked =>
      match ls_rw s with
      | O => Panic
      | S n => let* sh' := update sh (shardOf key) (MkShard n (ls_mu s) (ls_t s)) in Ok (m, sh')
      end
  | Locked =>
      if ls_mu s then let* sh' := update sh (shardOf key) (MkShard (ls_rw s) false (ls_t s)) in Ok (m, sh')
      else Panic
  | Atomic => Ok (m, sh)
  | Global => if m then Ok (false, sh) else Panic
  end.

(** The probe inside the guard. *)
Definition probeOf (g : guard) : tab -> Z -> outcome bool :=
  match g with Atomic => getAtomic | _ => get end.

(** One step of goroutine [i]. *)
Definition step (total : Z) (g : guard) (r : row) (i : nat) : outcome row :=
  match r_go r !! i with
  | None => Ok r
  | Some w =>
      match go_phase w with
      | Ready =>
          match go_left w with
          | O => Ok r
          | S n =>
              let x := xorshift (go_x w) in
              let key := x mod total + 1 in
              let* a := acquire g key (r_mu r) (r_sh r) in
              match a with
              | None => Ok r
              | Some (m, sh) => Ok (MkRow m sh (<[i := MkGor x n (Holding key) (go_hits w)]> (r_go r)))
              end
          end
      | Holding key =>
          let* s := index (r_sh r) (shardOf key) in
          let* hit := probeOf g (ls_t s) key in
          Ok (MkRow (r_mu r) (r_sh r) (<[i := MkGor (go_x w) (go_left w) (Probed key hit) (go_hits w)]> (r_go r)))
      | Probed key hit =>
          let* a := release g key (r_mu r) (r_sh r) in
          Ok (MkRow (fst a) (snd a) (<[i := MkGor (go_x w) (go_left w) Ready (go_hits w ++ [hit])]> (r_go r)))
      end
  end.

(** A schedule: which goroutine takes the next step. *)
Fixpoint runRow (total : Z) (g : guard) (r : row) (sched : list nat) : outcome row :=
  match sched with
  | [] => Ok r
  | i :: sched' => let* r' := step total g r i in runRow total g r' sched'
  end.

(** The row when its goroutines have been started. *)
Definition startRow (sh : list tab) (n per : nat) : row :=
  MkRow false (MkShard 0 false <$> sh) ((fun gi => MkGor (seedOf (Z.of_nat gi)) per Ready []) <$> seq 0 n).

(** [wg.Wait] returns. *)
Definition returned (w : goroutine) : bool :=
  match go_phase w, go_left w with Ready, O => true | _, _ => false end.
Definition finished (r : row) : bool := forallb returned (r_go r).

(** ** What the program prints *)

Section Output.
Context (fmt1 fmt2 : float64 -> bytes).

Definition f64_1e6 : float64 := f64_of_Z 1000000.

(** [float64(n) / d.Seconds() / 1e6] of an [int] product. *)
Definition rate (n : Z) (secs : float64) : float64 := fdiv (fdiv (f64_of_Z (swrap64 n)) secs) f64_1e6.

Definition serialLine (name : string) (iters : Z) (secs : float64) : bytes :=
  let mops := rate iters secs in
  txt "  " ++ padRight 28 (txt name) ++ txt " " ++ padLeft 6 (fmt1 mops) ++ txt " Mops/s  (" ++
  fmt2 (fdiv (f64_of_Z 1000) mops) ++ txt " ns/op)" ++ newline.

Definition rowLine (name : string) (mops : float64) : bytes :=
  txt "  " ++ padRight 34 (txt name) ++ txt " " ++ padLeft 8 (fmt1 mops) ++ txt " Mops/s" ++ newline.

(** A mutex and the read side of a read-write mutex, between the calls of the
    only goroutine of a serial row: [Lock] would wait for ever on a held mutex. *)
Definition Lock (mu : bool) : outcome bool := if mu then Spin else Ok true.
Definition Unlock (mu : bool) : outcome bool := if mu then Ok false else Panic.
Definition RLock (readers : nat) : outcome nat := Ok (S readers).
Definition RUnlock (readers : nat) : outcome nat := match readers with O => Panic | S n => Ok n end.

(** [mu.Lock(); one.get(k); mu.Unlock()] and the same with the read lock, with
    the lock free when the call begins and when it ends. *)
Definition mutexBody (one : tab) (k : Z) : outcome bool :=
  let* mu := Lock false in
  let* hit := get one k in
  let* _ := Unlock mu in Ok hit.

Definition rwBody (one : tab) (k : Z) : outcome bool :=
  let* rw := RLock 0 in
  let* hit := get one k in
  let* _ := RUnlock rw in Ok hit.

Definition serialP (name : string) (total iters : Z) (secs : float64) (body : Z -> outcome bool) : outcome bytes :=
  let* _ := serial total (Z.to_nat iters) body in Ok (serialLine name iters secs).

(** A row under the schedule the runtime happened to take; one that stops
    before every goroutine has returned leaves [wg.Wait] waiting. *)
Definition parallelSharded (name : string) (total iters : Z) (n : nat) (g : guard) (sched : list nat) (secs : float64)
    : outcome bytes :=
  let* sh := buildShards total in
  let* r := runRow total g (startRow sh n (Z.to_nat iters)) sched in
  if finished r then Ok (rowLine name (rate (Z.of_nat n * iters) secs)) else Spin.

Fixpoint ownWorkers (total : Z) (n iters : nat) (gis : list nat) : outcome unit :=
  match gis with
  | [] => Ok tt
  | gi :: gis' => let* _ := ownWorker total (Z.of_nat n) iters (Z.of_nat gi) in ownWorkers total n iters gis'
  end.

Definition parallelSharedNothing (total iters : Z) (n : nat) (secs : float64) : outcome float64 :=
  let* _ := ownWorkers total n (Z.to_nat iters) (seq 0 n) in
  Ok (rate (Z.of_nat n * iters) secs).

(** What the run found: the schedules of its four guarded rows and the seconds
    on the clock of each of its nine. *)
Record observed := MkObserved {
  ob_rlocked : list nat; ob_locked : list nat; ob_atomic : list nat; ob_global : list nat;
  ob_secs : nat -> float64 }.

Definition locktax_main (total iters : Z) (n : nat) (o : observed) : outcome bytes :=
  let* one := oneTab total in
  let* s0 := serialP "plain (no guard)" total iters (ob_secs o 0) (get one) in
  let* s1 := serialP "atomic.LoadUint64 read" total iters (ob_secs o 1) (getAtomic one) in
  let* s2 := serialP "Mutex.Lock/Unlock" total iters (ob_secs o 2) (mutexBody one) in
  let* s3 := serialP "RWMutex.RLock/RUnlock" total iters (ob_secs o 3) (rwBody one) in
  let* p0 := parallelSharded "256-shard RWMutex (faster read path)" total iters n RLocked (ob_rlocked o) (ob_secs o 4) in
  let* p1 := parallelSharded "256-shard plain Mutex (f2 write path)" total iters n Locked (ob_locked o) (ob_secs o 5) in
  let* p2 := parallelSharded "256-shard atomic load (f2 read path)" total iters n Atomic (ob_atomic o) (ob_secs o 6) in
  let* p3 := parallelSharded "single global Mutex (baseline)" total iters n Global (ob_global o) (ob_secs o 7) in
  let* sn := parallelSharedNothing total iters n (ob_secs o 8) in
  Ok (txt "GOMAXPROCS=" ++ Itoa (Z.of_nat n) ++ txt "  keys=" ++ Itoa total ++ txt "  shards=" ++ Itoa shards ++
      txt "  iters/goroutine=" ++ Itoa iters ++ newline ++ newline ++
      txt "serial, single core (per-op guard cost):" ++ newline ++ s0 ++ s1 ++ s2 ++ s3 ++
      newline ++ txt "parallel, " ++ Itoa (Z.of_nat n) ++ txt " cores (aggregate throughput):" ++ newline ++
      p0 ++ p1 ++ p2 ++ p3 ++ rowLine "shared-nothing, no guard (ceiling)" sn).

End Output.

(** ** The locks *)

(** What [n] goroutines inside the guard make of each lock. *)
Definition rwWord (g : guard) (n : nat) : nat := match g with RLocked => n | _ => 0%nat end.
Definition muWord (g : guard) (n : nat) : nat := match g with Locked => n | _ => 0%nat end.
Definition globalWord (g : guard) (n : nat) : nat := match g with Global => n | _ => 0%nat end.

Section Row.
Context (total : Z) (g : guard) (sh0 : list tab).

(** The shard goroutine [w] is inside the guard of. *)
Definition inside (w : goroutine) : option nat :=
  match go_phase w with
  | Ready => None
  | Holding key | Probed key _ => Some (Z.to_nat (shardOf key))
  end.

Definition isInside (w : goroutine) : nat := match inside w with Some _ => 1 | None => 0 end.
Definition isAt (j : nat) (w : goroutine) : nat := if decide (inside w = Some j) then 1 else 0.

(** How many goroutines are inside the guard, and inside that of shard [j]. *)
Definition insiders (gs : list goroutine) : nat := sum_list_with isInside gs.
Definition insidersAt (gs : list goroutine) (j : nat) : nat := sum_list_with (isAt j) gs.

(** The locks say who is inside: [cnt j] goroutines in shard [j], [all] in all. *)
Record locks (cnt : nat -> nat) (all : nat) (m : bool) (sh : list lockedShard) : Prop := {
  lk_tabs : ls_t <$> sh = sh0;
  lk_rw : forall j s, sh !! j = Some s -> ls_rw s = rwWord g (cnt j);
  lk_mu : forall j s, sh !! j = Some s -> Nat.b2n (ls_mu s) = muWord g (cnt j);
  lk_global : Nat.b2n m = globalWord g all }.

(** One more goroutine inside shard [j]. *)
Definition more (j : nat) (cnt cnt' : nat -> nat) (all all' : nat) : Prop :=
  all' = S all /\ forall i, cnt' i = (cnt i + if decide (i = j) then 1 else 0)%nat.

Hypothesis shards_len : len sh0 = shards.

Lemma locks_index cnt all m sh key :
  locks cnt all m sh -> exists s, index sh (shardOf key) = Ok s /\ sh !! Z.to_nat (shardOf key) = Some s /\
    sh0 !! Z.to_nat (shardOf key) = Some (ls_t s) /\
    forall s', update sh (shardOf key) s' = Ok (<[Z.to_nat (shardOf key) := s']> sh).
Proof.
  intros [Htabs _ _ _]. pose proof (shardOf_range key) as Hr.
  assert (len sh = shards) as Hl by (rewrite <- shards_len, <- Htabs; unfold len; by rewrite length_fmap).
  destruct (index_in sh (shardOf key) ltac:(lia)) as [s Hs]. pose proof (index_lookup _ _ _ Hs) as Hlk.
  exists s. split_and!; [done|done| |].
  - rewrite <- Htabs, list_lookup_fmap, Hlk. done.
  - intros s'. rewrite <- (Z2Nat.id (shardOf key)) at 1 by lia. apply update_ok. by eapply lookup_lt_Some.
Qed.

(** Changing the lock of one shard. *)
Lemma locks_insert cnt cnt' all all' m m' sh j s s' :
  locks cnt all m sh -> sh !! j = Some s -> ls_t s' = ls_t s ->
  (forall i, i <> j -> cnt' i = cnt i) ->
  ls_rw s' = rwWord g (cnt' j) ->
  Nat.b2n (ls_mu s') = muWord g (cnt' j) ->
  Nat.b2n m' = globalWord g all' ->
  locks cnt' all' m' (<[j := s']> sh).
Proof.
  intros [Htabs Hrw Hmu Hg] Hj Ht Hcnt Hrw' Hmu' Hg'. split; [| | |done].
  - rewrite <- Htabs, list_fmap_insert, Ht. apply list_insert_id. by rewrite list_lookup_fmap, Hj.
  - intros i u [(<- & -> & _)|[Hne Hi]]%list_lookup_insert_Some; [done|].
    rewrite (Hrw _ _ Hi), Hcnt by congruence. done.
  - intros i u [(<- & -> & _)|[Hne Hi]]%list_lookup_insert_Some; [done|].
    rewrite (Hmu _ _ Hi), Hcnt by congruence. done.
Qed.

(** Entering finds the guard taken, which only a mutex can be, or takes it. *)
Lemma acquire_spec cnt cnt' all all' m sh key :
  locks cnt all m sh -> more (Z.to_nat (shardOf key)) cnt cnt' all all' ->
  (acquire g key m sh = Ok None /\
     (g = Locked /\ (0 < cnt (Z.to_nat (shardOf key)))%nat \/ g = Global /\ (0 < all)%nat)) \/
  exists m' sh', acquire g key m sh = Ok (Some (m', sh')) /\ locks cnt' all' m' sh'.
Proof.
  intros Hlk [-> Hcnt]. destruct (locks_index _ _ _ _ key Hlk) as (s & Hs & Hj & _ & Hup).
  unfold acquire. rewrite Hs. cbn [obind]. set (j := Z.to_nat (shardOf key)) in *.
  pose proof (Hcnt j) as Hcj. rewrite decide_True in Hcj by done.
  assert (forall i, i <> j -> cnt' i = cnt i) as Hother
    by (intros i Hi; rewrite Hcnt, decide_False by done; lia).
  pose proof (lk_rw _ _ _ _ Hlk j s Hj) as Hrw. pose proof (lk_mu _ _ _ _ Hlk j s Hj) as Hmu.
  pose proof (lk_global _ _ _ _ Hlk) as Hgl. destruct g eqn:Hg; cbn in Hrw, Hmu, Hgl.
  - right. rewrite Hup. cbn [obind]. do 2 eexists. split; [done|].
    eapply locks_insert; [exact Hlk|exact Hj|done|done|..]; rewrite Hg; cbn; lia.
  - destruct (ls_mu s); cbn in Hmu; [left; split; [done|]; left; split; [done|lia]|].
    right. rewrite Hup. cbn [obind]. do 2 eexists. split; [done|].
    eapply locks_insert; [exact Hlk|exact Hj|done|done|..]; rewrite Hg; cbn; lia.
  - right. do 2 eexists. split; [done|]. destruct Hlk. rewrite Hg in *. by split; rewrite ?Hg.
  - destruct m; cbn in Hgl; [left; split; [done|]; right; split; [done|lia]|].
    right. do 2 eexists. split; [done|]. destruct Hlk. rewrite Hg in *. split; rewrite ?Hg; try done. cbn; lia.
Qed.

(** Leaving finds the guard taken. *)
Lemma release_spec cnt cnt' all all' m sh key :
  locks cnt' all' m sh -> more (Z.to_nat (shardOf key)) cnt cnt' all all' ->
  (g = Locked -> cnt (Z.to_nat (shardOf key)) = 0%nat) -> (g = Global -> all = 0%nat) ->
  exists m' sh', release g key m sh = Ok (m', sh') /\ locks cnt all m' sh'.
Proof.
  intros Hlk [-> Hcnt] Hone Hall. destruct (locks_index _ _ _ _ key Hlk) as (s & Hs & Hj & _ & Hup).
  unfold release. rewrite Hs. cbn [obind]. set (j := Z.to_nat (shardOf key)) in *.
  pose proof (Hcnt j) as Hcj. rewrite decide_True in Hcj by done.
  assert (forall i, i <> j -> cnt i = cnt' i) as Hother
    by (intros i Hi; rewrite Hcnt, decide_False by done; lia).
  pose proof (lk_rw _ _ _ _ Hlk j s Hj) as Hrw. pose proof (lk_mu _ _ _ _ Hlk j s Hj) as Hmu.
  pose proof (lk_global _ _ _ _ Hlk) as Hgl. destruct g eqn:Hg; cbn in Hrw, Hmu, Hgl.
  - destruct (ls_rw s) as [|n] eqn:Hn; [lia|]. rewrite Hup. cbn [obind]. do 2 eexists. split; [done|].
    eapply locks_insert; [exact Hlk|exact Hj|done|done|..]; rewrite Hg; cbn; lia.
  - specialize (Hone eq_refl). destruct (ls_mu s); cbn in Hmu; [|lia]. rewrite Hup. cbn [obind].
    do 2 eexists. split; [done|].
    eapply locks_insert; [exact Hlk|exact Hj|done|done|..]; rewrite Hg; cbn; lia.
  - do 2 eexists. split; [done|]. destruct Hlk. rewrite Hg in *. by split; rewrite ?Hg.
  - specialize (Hall eq_refl). destruct m; cbn in Hgl; [|lia]. do 2 eexists. split; [done|].
    destruct Hlk. rewrite Hg in *. split; rewrite ?Hg; done.
Qed.

(** ** The invariant *)

Lemma insiders_more gs i w w' j :
  gs !! i = Some w -> inside w = None -> inside w' = Some j ->
  more j (insidersAt gs) (insidersAt (<[i := w']> gs)) (insiders gs) (insiders (<[i := w']> gs)).
Proof.
  intros Hi Hw Hw'. unfold more, insiders, insidersAt. split.
  - pose proof (sum_list_insert isInside gs i w w' Hi) as H. unfold isInside at 2 4 in H. rewrite Hw, Hw' in H. lia.
  - intros k. pose proof (sum_list_insert (isAt k) gs i w w' Hi) as H. unfold isAt at 2 4 in H.
    rewrite Hw, Hw', decide_False in H by done. destruct (decide (k = j)) as [->|Hne].
    + rewrite decide_True in H by done. lia.
    + rewrite decide_False in H by congruence. lia.
Qed.

Lemma insiders_less gs i w w' j :
  gs !! i = Some w -> inside w = Some j -> inside w' = None ->
  more j (insidersAt (<[i := w']> gs)) (insidersAt gs) (insiders (<[i := w']> gs)) (insiders gs).
Proof.
  intros Hi Hw Hw'. pose proof (insiders_more (<[i := w']> gs) i w' w j) as H.
  rewrite list_insert_insert_eq, (list_insert_id gs i w Hi) in H. apply H; [|done..].
  apply list_lookup_insert_eq. by eapply lookup_lt_Some.
Qed.

Lemma insiders_same gs i w w' :
  gs !! i = Some w -> inside w' = inside w ->
  insiders (<[i := w']> gs) = insiders gs /\ forall j, insidersAt (<[i := w']> gs) j = insidersAt gs j.
Proof.
  intros Hi Hw. split.
  - pose proof (sum_list_insert isInside gs i w w' Hi) as H. unfold insiders.
    unfold isInside at 2 4 in H. rewrite Hw in H. lia.
  - intros j. pose proof (sum_list_insert (isAt j) gs i w w' Hi) as H. unfold insidersAt.
    unfold isAt at 2 4 in H. rewrite Hw in H. lia.
Qed.

Lemma insiders_at gs j : (insidersAt gs j <= insiders gs)%nat.
Proof.
  unfold insidersAt, insiders. induction gs as [|w gs IH]; [done|]. cbn. unfold isAt at 1, isInside at 1.
  destruct (inside w) as [k|]; case_decide; simplify_eq; lia.
Qed.

Lemma locks_ext cnt cnt' all m sh : (forall j, cnt' j = cnt j) -> locks cnt all m sh -> locks cnt' all m sh.
Proof.
  intros He [Ht Hr Hm Hg]. split; [done| | |done]; intros j s Hj; rewrite He; eauto.
Qed.

Context (per : nat).

(** A goroutine that has hit with every probe it has made. *)
Record gor_ok (w : goroutine) : Prop := {
  gk_x : is_u32 (go_x w);
  gk_key : forall key, go_phase w = Holding key -> 1 <= key <= total;
  gk_hit : forall key hit, go_phase w = Probed key hit -> hit = true;
  gk_hits : go_hits w = replicate (length (go_hits w)) true;
  gk_per : (length (go_hits w) + go_left w + isInside w = per)%nat }.

Record row_ok (r : row) : Prop := {
  ro_locks : locks (insidersAt (r_go r)) (insiders (r_go r)) (r_mu r) (r_sh r);
  ro_go : Forall gor_ok (r_go r) }.

(** Steps left. *)
Definition cost (w : goroutine) : nat :=
  (3 * go_left w + match go_phase w with Ready => 0 | Holding _ => 2 | Probed _ _ => 1 end)%nat.
Definition work (r : row) : nat := sum_list_with cost (r_go r).

Lemma work_insert r i w m sh w' :
  r_go r !! i = Some w -> (cost w' < cost w)%nat -> (work (MkRow m sh (<[i := w']> (r_go r))) < work r)%nat.
Proof. intros Hi Hc. unfold work. cbn. pose proof (sum_list_insert cost _ i w w' Hi). lia. Qed.

Hypothesis total_pos : 1 <= total.
Hypothesis found : forall k, 1 <= k <= total -> exists t, index sh0 (shardOf k) = Ok t /\ get t k = Ok true.

(** A step of goroutine [i] does one unit of the work. *)
Definition advances (r : row) (i : nat) : Prop :=
  exists r', step total g r i = Ok r' /\ row_ok r' /\ (work r' < work r)%nat /\ length (r_go r') = length (r_go r).

Lemma step_enter r i w n :
  row_ok r -> r_go r !! i = Some w -> go_phase w = Ready -> go_left w = S n ->
  (step total g r i = Ok r /\ (0 < insiders (r_go r))%nat) \/ advances r i.
Proof.
  intros [Hlk Hgo] Hi Hp Hn. pose proof (Forall_lookup_1 _ _ _ _ Hgo Hi) as [Hx _ _ Hh Hper].
  unfold advances, step. rewrite Hi, Hp, Hn. cbn [obind].
  set (x := xorshift (go_x w)). set (key := x mod total + 1). set (w' := MkGor x n (Holding key) (go_hits w)).
  assert (inside w = None) as Hin by (unfold inside; by rewrite Hp).
  pose proof (insiders_more _ _ _ w' (Z.to_nat (shardOf key)) Hi Hin eq_refl) as Hmore.
  destruct (acquire_spec _ _ _ _ _ _ _ Hlk Hmore) as [[-> Hheld]|(m' & sh' & -> & Hlk')]; cbn [obind].
  - left. split; [done|]. pose proof (insiders_at (r_go r) (Z.to_nat (shardOf key))). destruct Hheld; lia.
  - right. eexists. split; [done|]. cbn [r_go]. split_and!; [|by apply work_insert with w; [|unfold cost; rewrite Hp, Hn; cbn; lia]|by rewrite length_insert].
    split; cbn; [done|]. apply Forall_insert; [done|]. pose proof (Z.mod_pos_bound x total ltac:(lia)).
    split; cbn; [by apply xorshift_range|intros ? [= <-]; unfold key; lia|done|done|].
    unfold isInside in Hper. rewrite Hin in Hper. unfold isInside. cbn. lia.
Qed.

Lemma probeOf_get t key : probeOf g t key = get t key.
Proof. by destruct g. Qed.

Lemma step_probe r i w key :
  row_ok r -> r_go r !! i = Some w -> go_phase w = Holding key -> advances r i.
Proof.
  intros [Hlk Hgo] Hi Hp. pose proof (Forall_lookup_1 _ _ _ _ Hgo Hi) as [Hx Hk _ Hh Hper].
  unfold advances, step. rewrite Hi, Hp.
  destruct (locks_index _ _ _ _ key Hlk) as (s & -> & _ & Hs0 & _). cbn [obind].
  destruct (found key (Hk key Hp)) as (t & Ht & Hget).
  assert (ls_t s = t) as -> by (apply index_lookup in Ht; congruence).
  rewrite probeOf_get, Hget. cbn [obind]. eexists. split; [done|]. cbn [r_go].
  set (w' := MkGor (go_x w) (go_left w) (Probed key true) (go_hits w)). assert (inside w' = inside w) as Hin by (unfold inside; by rewrite Hp).
  split_and!; [|by apply work_insert with w; [|unfold cost; rewrite Hp; cbn; lia]|by rewrite length_insert].
  destruct (insiders_same _ _ _ w' Hi Hin) as [Hall Hat].
  split; cbn [r_go r_sh r_mu]; [rewrite Hall; by apply (locks_ext (insidersAt (r_go r)))|]. apply Forall_insert; [done|].
  split; cbn; [done|done|by intros ? ? [= _ <-]|done|]. unfold isInside, inside in *. by rewrite Hp in Hper.
Qed.

Lemma step_leave r i w key hit :
  row_ok r -> r_go r !! i = Some w -> go_phase w = Probed key hit -> advances r i.
Proof.
  intros [Hlk Hgo] Hi Hp. pose proof (Forall_lookup_1 _ _ _ _ Hgo Hi) as [Hx _ Hhit Hh Hper].
  unfold advances, step. rewrite Hi, Hp.
  assert (hit = true) as -> by eauto.
  set (w' := MkGor (go_x w) (go_left w) Ready (go_hits w ++ [true])).
  assert (inside w = Some (Z.to_nat (shardOf key))) as Hin by (unfold inside; by rewrite Hp).
  pose proof (insiders_less _ _ _ w' _ Hi Hin eq_refl) as Hmore.
  destruct (release_spec _ _ _ _ _ _ _ Hlk Hmore) as (m' & sh' & -> & Hlk').
  { intros Hg. destruct (locks_index _ _ _ _ key Hlk) as (s & _ & Hj & _).
    pose proof (lk_mu _ _ _ _ Hlk _ _ Hj) as Hmu. rewrite Hg in Hmu. cbn in Hmu.
    destruct Hmore as [_ Hc]. rewrite Hc, decide_True in Hmu by done. destruct (ls_mu s); cbn in Hmu; lia. }
  { intros Hg. pose proof (lk_global _ _ _ _ Hlk) as Hgl. rewrite Hg in Hgl. cbn in Hgl.
    destruct Hmore as [Hall _]. destruct (r_mu r); cbn in Hgl; lia. }
  cbn [obind fst snd]. eexists. split; [done|]. cbn [r_go].
  split_and!; [|by apply work_insert with w; [|unfold cost; rewrite Hp; cbn; lia]|by rewrite length_insert].
  split; cbn; [done|]. apply Forall_insert; [done|].
  split; cbn; [done..| |].
  - rewrite Hh at 1. rewrite length_app, replicate_add. done.
  - rewrite length_app. unfold isInside in *. rewrite Hin in Hper. cbn. lia.
Qed.

(** ** Schedules *)

Lemma step_cases r i : row_ok r -> step total g r i = Ok r \/ advances r i.
Proof.
  intros Hok. destruct (r_go r !! i) as [w|] eqn:Hi; [|left; unfold step; by rewrite Hi].
  destruct (go_phase w) as [|key|key hit] eqn:Hp; [|right; by eapply step_probe|right; by eapply step_leave].
  destruct (go_left w) as [|n] eqn:Hn; [left; unfold step; by rewrite Hi, Hp, Hn|].
  destruct (step_enter r i w n Hok Hi Hp Hn) as [[? _]|?]; auto.
Qed.

(** A schedule that did no work left the row as it was at every step. *)
Lemma runRow_spec sched : forall r, row_ok r ->
  exists r', runRow total g r sched = Ok r' /\ row_ok r' /\ length (r_go r') = length (r_go r) /\
    ((r' = r /\ forall i, i ∈ sched -> step total g r i = Ok r) \/ (work r' < work r)%nat).
Proof.
  induction sched as [|i sched IH]; intros r Hok.
  { exists r. split_and!; [done..|]. left. split; [done|]. intros i []%elem_of_nil. }
  cbn [runRow]. destruct (step_cases r i Hok) as [Hs|(r1 & Hs & Hok1 & Hw & Hl)]; rewrite Hs; cbn [obind].
  - destruct (IH r Hok) as (r' & -> & Hok' & Hl' & Hw'). exists r'. split_and!; [done..|].
    destruct Hw' as [[-> Hst]|?]; [left|by right]. split; [done|]. by intros j [->|?]%elem_of_cons; auto.
  - destruct (IH r1 Hok1) as (r' & -> & Hok' & Hl' & Hw'). exists r'. split_and!; [done|done|congruence|].
    right. destruct Hw' as [[-> _]|?]; lia.
Qed.

(** Some goroutine can move until all have returned. *)
Lemma row_progress r : row_ok r -> finished r = false -> exists i, (i < length (r_go r))%nat /\ advances r i.
Proof.
  intros Hok Hf. destruct (decide (insiders (r_go r) = 0%nat)) as [Hz|Hnz].
  - assert (exists w, w ∈ r_go r /\ returned w = false) as (w & [i Hi]%list_elem_of_lookup_1 & Hret).
    { revert Hf. unfold finished. clear. induction (r_go r) as [|w gs IH]; [done|]. cbn.
      destruct (returned w) eqn:Hw; [|exists w; by rewrite elem_of_cons; auto].
      intros (u & Hu & Hr)%IH. exists u. rewrite elem_of_cons. auto. }
    exists i. split; [by eapply lookup_lt_Some|].
    destruct (go_phase w) as [|key|key hit] eqn:Hp; [|by eapply step_probe|by eapply step_leave].
    unfold returned in Hret. rewrite Hp in Hret. destruct (go_left w) as [|n] eqn:Hn; [done|].
    destruct (step_enter r i w n Hok Hi Hp Hn) as [[_ ?]|?]; [lia|done].
  - assert (exists w, w ∈ r_go r /\ inside w <> None) as (w & [i Hi]%list_elem_of_lookup_1 & Hin).
    { revert Hnz. clear. unfold insiders. induction (r_go r) as [|w gs IH]; [done|]. cbn. unfold isInside at 1.
      destruct (inside w) as [k|] eqn:Hw; [exists w; rewrite elem_of_cons; split; [auto|congruence]|].
      intros (u & Hu & Hr)%IH. exists u. rewrite elem_of_cons. auto. }
    exists i. split; [by eapply lookup_lt_Some|]. unfold inside in Hin.
    destruct (go_phase w) as [|key|key hit] eqn:Hp; [done|by eapply step_probe|by eapply step_leave].
Qed.

(** A round that runs every goroutine does some of the work, if any is left. *)
Lemma round_spec r round :
  row_ok r -> (forall i, (i < length (r_go r))%nat -> i ∈ round) ->
  exists r', runRow total g r round = Ok r' /\ row_ok r' /\ length (r_go r') = length (r_go r) /\
    (work r' <= work r)%nat /\ (finished r = false -> (work r' < work r)%nat).
Proof.
  intros Hok Hall. destruct (runRow_spec round r Hok) as (r' & Hr & Hok' & Hl & Hw). exists r'.
  split_and!; [done..|destruct Hw as [[-> _]|?]; lia|]. intros Hf. destruct Hw as [[-> Hst]|?]; [|done].
  destruct (row_progress r Hok Hf) as (i & Hi & r1 & Hs & _ & Hw & _). rewrite (Hst i (Hall i Hi)) in Hs.
  injection Hs as <-. lia.
Qed.

Lemma work_finished r : work r = 0%nat -> finished r = true.
Proof.
  unfold work, finished. induction (r_go r) as [|w gs IH]; [done|]. cbn. intros H.
  rewrite IH by lia. unfold returned, cost in *. by destruct (go_phase w), (go_left w); cbn in *; try lia.
Qed.

Lemma finished_work r : finished r = true -> work r = 0%nat.
Proof.
  unfold work, finished. induction (r_go r) as [|w gs IH]; [done|]. cbn. intros [Hw Hgs]%andb_true_iff.
  rewrite IH by done. unfold returned, cost in *. destruct (go_phase w), (go_left w); done.
Qed.

Lemma runRow_app s1 : forall r s2,
  runRow total g r (s1 ++ s2) = let* r' := runRow total g r s1 in runRow total g r' s2.
Proof.
  induction s1 as [|i s1 IH]; intros r s2; [done|]. cbn [runRow app].
  destruct (step total g r i); cbn [obind]; auto.
Qed.

Lemma rounds_end rounds : forall r,
  row_ok r -> Forall (fun round => forall i, (i < length (r_go r))%nat -> i ∈ round) rounds ->
  (work r <= length rounds)%nat ->
  exists r', runRow total g r (concat rounds) = Ok r' /\ row_ok r' /\ finished r' = true.
Proof.
  induction rounds as [|round rounds IH]; intros r Hok Hall Hw; cbn in Hw.
  { exists r. split_and!; [done..|]. apply work_finished. lia. }
  apply Forall_cons in Hall as [Hround Hall]. cbn [concat]. rewrite runRow_app.
  destruct (round_spec r round Hok Hround) as (r1 & -> & Hok1 & Hl & Hle & Hlt). cbn [obind].
  apply IH; [done|by rewrite Hl|]. destruct (finished r) eqn:Hf; [apply finished_work in Hf|specialize (Hlt eq_refl)]; lia.
Qed.

(** A mutex lets one goroutine in. *)
Definition exclusive (r : row) : Prop :=
  (g = Locked -> forall j, (insidersAt (r_go r) j <= 1)%nat) /\ (g = Global -> (insiders (r_go r) <= 1)%nat).

Lemma row_exclusive r : row_ok r -> exclusive r.
Proof.
  intros [Hlk Hgo]. split; intros Hg.
  - intros j. destruct (r_sh r !! j) as [s|] eqn:Hj.
    + pose proof (lk_mu _ _ _ _ Hlk _ _ Hj) as Hm. rewrite Hg in Hm. cbn in Hm. destruct (ls_mu s); cbn in Hm; lia.
    + assert (insidersAt (r_go r) j = 0%nat) as ->; [|lia]. apply lookup_ge_None in Hj.
      assert (length (r_sh r) = Z.to_nat shards) as Hl.
      { pose proof (lk_tabs _ _ _ _ Hlk) as Ht. apply (f_equal length) in Ht. rewrite length_fmap in Ht.
        unfold len in shards_len. lia. }
      unfold insidersAt. clear -Hj Hl. induction (r_go r) as [|w gs IH]; [done|]. cbn. rewrite IH.
      unfold isAt, inside. destruct (go_phase w) as [|key|key hit]; rewrite decide_False; try done;
        pose proof (shardOf_range key); intros [= H']; lia.
  - pose proof (lk_global _ _ _ _ Hlk) as Hm. rewrite Hg in Hm. cbn in Hm. destruct (r_mu r); cbn in Hm; lia.
Qed.

Lemma startRow_ok n : row_ok (startRow sh0 n per).
Proof.
  assert (forall gs, (forall w, w ∈ gs -> inside w = None) -> insiders gs = 0%nat /\ forall j, insidersAt gs j = 0%nat) as Hz.
  { induction gs as [|w gs IH]; [done|]. intros Hw. destruct IH as [Ha Hat]; [intros; apply Hw, elem_of_cons; auto|].
    assert (inside w = None) as Hin by (apply Hw, elem_of_cons; auto).
    unfold insiders, insidersAt in *. split; [|intros j]; cbn; rewrite ?Ha, ?Hat; unfold isInside, isAt; by rewrite Hin. }
  destruct (Hz (r_go (startRow sh0 n per))) as [Ha Hat].
  { intros w (gi & -> & _)%list_elem_of_fmap. done. }
  split.
  - rewrite Ha. apply (locks_ext (fun _ => 0%nat)); [done|]. cbn [startRow r_mu r_sh]. split.
    + rewrite <- list_fmap_compose. apply list_fmap_id.
    + intros j s (t & -> & _)%list_lookup_fmap_Some. by destruct g.
    + intros j s (t & -> & _)%list_lookup_fmap_Some. by destruct g.
    + by destruct g.
  - apply Forall_fmap, Forall_forall. intros gi _. split; cbn; [apply wrap32_range|done..|]. unfold isInside. cbn. lia.
Qed.

Lemma startRow_work n : work (startRow sh0 n per) = (n * (3 * per))%nat.
Proof.
  unfold work, startRow. cbn [r_go]. generalize 0%nat at 1. induction n as [|n IH]; intros k; [done|].
  cbn [seq fmap list_fmap sum_list_with]. rewrite IH. unfold cost. cbn [go_left go_phase]. lia.
Qed.

(** What the goroutines of a finished row have probed. *)
Lemma finished_hits r i w : row_ok r -> finished r = true -> r_go r !! i = Some w -> go_hits w = replicate per true.
Proof.
  intros [_ Hgo] Hf Hi. pose proof (Forall_lookup_1 _ _ _ _ Hgo Hi) as [_ _ _ Hh Hper].
  assert (returned w = true) as Hret.
  { unfold finished in Hf. rewrite forallb_forall in Hf. apply Hf. apply list_elem_of_In. by eapply list_elem_of_lookup_2. }
  unfold returned in Hret. unfold isInside, inside in Hper.
  destruct (go_phase w), (go_left w); try done. rewrite Hh. f_equal. lia.
Qed.

End Row.

(** ** The rows *)

(** The keys spread over the shards so that none is over its slots. *)
Definition spread (total : Z) : Prop :=
  Forall (fun i => shardLoad (seqZ 1 total) (Z.to_nat i) < 2 * (total / shards + 16)) (seqZ 0 shards).

(** A schedule that runs each of [n] goroutines in each of [k] rounds. *)
Definition fair (n k : nat) (sched : list nat) : Prop :=
  exists rounds, sched = concat rounds /\ (k <= length rounds)%nat /\
    Forall (fun round => forall i, (i < n)%nat -> i ∈ round) rounds.

Lemma row_ends total g sh n per sched :
  1 <= total -> len sh = shards ->
  (forall k, 1 <= k <= total -> exists t, index sh (shardOf k) = Ok t /\ get t k = Ok true) ->
  fair n (n * (3 * per)) sched ->
  exists r, runRow total g (startRow sh n per) sched = Ok r /\ finished r = true.
Proof.
  intros Ht Hl Hhit (rounds & -> & Hk & Hall).
  destruct (rounds_end total g sh Hl per Ht Hhit rounds (startRow sh n per)) as (r & Hr & _ & Hf).
  - by apply startRow_ok.
  - cbn [startRow r_go]. by rewrite length_fmap, length_seq.
  - by rewrite startRow_work.
  - by exists r.
Qed.

Lemma parallelSharded_ends fmt1 name total iters n g sched secs :
  1 <= total <= 2 ^ 20 -> spread total -> fair n (n * (3 * Z.to_nat iters)) sched ->
  parallelSharded fmt1 name total iters n g sched secs = Ok (rowLine fmt1 name (rate (Z.of_nat n * iters) secs)).
Proof.
  intros Ht Hs Hfair. destruct (buildShards_spec total ltac:(lia) Hs) as (sh & Hsh & Hl & Hhit).
  destruct (row_ends total g sh n (Z.to_nat iters) sched ltac:(lia) Hl Hhit Hfair) as (r & Hr & Hf).
  unfold parallelSharded. rewrite Hsh. cbn [obind]. rewrite Hr. cbn [obind]. by rewrite Hf.
Qed.

Lemma ownWorkers_end total n iters gis :
  1 <= Z.of_nat n <= total -> total <= 2 ^ 20 -> Forall (fun gi => (gi < n)%nat) gis ->
  ownWorkers total n iters gis = Ok tt.
Proof.
  intros Hn Ht. induction 1 as [|gi gis Hgi _ IH]; [done|]. cbn [ownWorkers].
  rewrite ownWorker_hits by lia. exact IH.
Qed.

Lemma guarded_bodies one k : mutexBody one k = get one k /\ rwBody one k = get one k.
Proof. unfold mutexBody, rwBody, Lock, Unlock, RLock, RUnlock. cbn [obind]. by destruct (get one k). Qed.


(** Three goroutines in turn over thirty keys. *)
Definition demoSched : list nat := concat (replicate 18 [2; 0; 1]%nat).
Definition demoObserved : observed := MkObserved demoSched demoSched demoSched demoSched (fun _ => f64_of_Z 1).

